(* ===== verification/_CoqProject ===== *)
-Q . S2P
Prelude.v
BTreeMap.v
Packet.v
Config.v
Frame.v
SendBuffer.v
RecvBuffer.v
Float.v
Rtt.v
Congestion.v
SackManager.v
SimpleRetx.v
Retransmission.v
Packetizer.v
Reliability.v
Lifecycle.v
TimingWheel.v
WheelBatch.v
WheelAnalysis.v
UnifiedScheduler.v
TimerTask.v
TimerHandle.v
TimingManager.v
Endpoint.v
EndpointParts.v
Sender.v
Handlers.v
EventLoop.v
EndpointFacts.v
ProcessorTraits.v
EndpointErrors.v
EndpointFrames.v
Provenance.v
StreamSender.v
StreamReceiver.v
UserStream.v
EndToEnd.v
Delivery.v
EndOfStream.v
Transport.v
Udp.v
InitialData.v
Routing.v
Socket.v
SocketFacts.v
Handle.v
EventPool.v
EventDispatch.v
ParallelTimer.v
FrameTypes.v
System.v
