(* ===== verification/Prelude.v ===== *)
(** * Kestrel protocol: verification library

    Kestrel is a reliable, connection-oriented transport over UDP, written in
    Rust.  An endpoint turns a byte stream into numbered PUSH frames, keeps
    the frames in flight until an ACK covers them, resends them on a timeout
    or after later packets were acknowledged, limits itself by a congestion
    window and the peer's receive window, and puts the frames it receives back
    in order.  A connection goes through a lifecycle of states; all of its
    timeouts are kept in one global timing wheel.  A socket's event loop
    decodes datagrams, routes their frames by connection id or address, starts
    an endpoint for each new connection and keeps the ids of closed ones until
    they have drained.  This library models these parts, file by file, and
    proves what makes them correct.

    ** Parts and files

    Each file opens with the source it follows; definitions keep the names of
    the Rust items, and a method [T::f(&mut self, ..)] becomes a function that
    takes the state and returns the new one with the result.

    - [Prelude]: machine integers, instants and durations, panics, tactics.
    - [BTreeMap]: the operations of an ordered map, over [gmap Z].
    - [Packet]: src/src/packet/{command,header,sack}.rs.  Module [Buf] is the
      reading and writing of integers in a byte buffer; [Command],
      [ShortHeader], [LongHeader] and [Sack] are the wire formats.
    - [Frame]: src/src/packet/frame.rs and the serialisation of coalesced
      frames in src/src/socket/transport/udp.rs.
    - [Config]: src/src/config.rs.
    - [SendBuffer], [RecvBuffer]: src/src/core/reliability/send_buffer.rs and
      recv_buffer.rs.
    - [Float], [Rtt]: binary64 arithmetic (the standard library's SpecFloat)
      and src/src/core/reliability/retransmission/rtt.rs.
    - [Congestion]: congestion.rs as a type class of operations with its laws,
      and congestion/vegas.rs as an instance of it.
    - [SackManager], [SimpleRetx], [Retransmission]: the two stores of frames
      in flight and the manager that dispatches between them
      (retransmission/sack_manager.rs, simple_retx_manager.rs,
      retransmission.rs).
    - [Packetizer]: packetizer.rs, the cutting of the stream into frames and
      the grouping of frames into 0-RTT datagrams.
    - [Reliability]: src/src/core/reliability.rs, which owns all of the above.
      It is generic in the congestion control and uses only the class
      [CongestionControl].
    - [Lifecycle]: src/src/core/endpoint/types/state.rs and
      src/src/core/endpoint/lifecycle/.
    - [TimingWheel]: src/src/timer/wheel/core.rs and entry.rs.
    - [WheelBatch]: the batch operations of the wheel, with simd.rs; what the
      code uses of the SIMD crate is the class [Wide] with laws [WideLaws].
      [WheelAnalysis]: the other lane-wise loops of simd.rs.
    - [TimerTask]: src/src/timer/task/: the global timer task, with its tables
      from connections to timers and back over the wheel, its commands and the
      events it fires.  [TimerHandle]: the methods of its handles
      (src/src/timer/task/{handle,types}.rs).
    - [UnifiedScheduler]: src/src/core/endpoint/unified_scheduler.rs.
    - [TimingManager]: src/src/core/endpoint/timing.rs: the timers an endpoint
      holds; module [TimerSystem] joins it to the timer task.
    - [Endpoint]: the state of an endpoint (src/src/core/endpoint/core.rs,
      types/), the effects it has on the world and the error monad [M] in which
      the following files are written.  [Sender] (core/sender.rs, frame.rs),
      [Handlers] (processing/, core/handlers.rs), [EventLoop]
      (core/event_loop.rs, builder/) are its operations; [EndpointParts]: what
      its parts (types/) offer besides; [ProcessorTraits]: the traits of the
      frame processors.
    - [EndpointFacts], [EndpointErrors], [EndpointFrames]: what these
      operations guarantee.
    - [UserStream]: src/src/core/stream.rs, what the user reads and writes.
    - [Transport], [Udp]: src/src/socket/transport.rs, transport/: the sender
      task and the transport manager over any transport; the UDP transport's
      send actor and receiver task.
    - [InitialData]: src/src/socket/handle/initial_data.rs.
    - [Routing]: src/src/socket/event_loop/{draining,routing}.rs, the pool of
      draining ids and the frame router with its cache of early frames.
    - [Socket]: src/src/socket/event_loop.rs and session_coordinator.rs, the
      socket's event loop, which creates connections with the constructors of
      [EventLoop]; [SocketFacts]: what it guarantees.  [Handle]: src/src/error.rs
      and src/src/socket/handle.rs, the methods that ask the event loop.
    - [Provenance], [StreamSender], [StreamReceiver], [EndToEnd]: two endpoints
      and the network between them; [Delivery], [EndOfStream]: what arrives
      without a gap is handed over, and the end of the stream reported;
      [FrameTypes]: the frames an endpoint sends are well formed; [System]:
      endpoint, datagrams, socket and endpoint together.
    - [EventPool], [EventDispatch]: src/src/timer/event/: the pool of recycled
      events, the ring buffer, the slots and the dispatchers.  [ParallelTimer]:
      src/src/timer/parallel/: the strategies, the batch processors, the
      asynchronous dispatcher and the hybrid system.

    ** Interfaces

    A component is proved against what it uses of another by a type class:
    [CongestionControl] between the layer and a controller, with laws that
    [Vegas] meets; [Wide], [WideCmp] and their laws for the SIMD crate;
    [HashedAddr] for the hash that gives an address its key in the frame cache;
    [TimeoutLayer]
    between the scheduler and the layers that have deadlines; [SegQueue],
    [PoolLanes], [ArrayQueue] and [EventChannel] for the queues, lanes and
    channels of the crates that the timer events go through; [Implements]
    between a processor's two traits and the registry.

    ** What the theorems show

    - The whole path: an endpoint's frames leave as datagrams, the network
      loses, repeats, reorders and delays them, a socket with any other
      connections decodes and routes them and starts the receiving endpoint;
      the bytes read by its user are a prefix of those accepted from the
      sender's user ([stream_through_socket]).
    - The byte stream: two endpoints run on any frames, commands, timeouts and
      answers of their environments, and the network between them may lose,
      repeat, reorder and delay frames; the bytes handed to the receiver's user
      are a prefix of those accepted from the sender's user
      ([stream_end_to_end]), and what arrives at a new server without a gap is
      handed over in full ([stream_delivered]), the end of the stream included
      ([stream_ends]); a PATH_CHALLENGE stops the
      stream for good ([path_challenge_blocks_stream]).  For the reliability layer alone,
      over all of its operations ([end_to_end_stream]); for the receive buffer, against a stream as its
      specification, safety ([delivery_safe]) and completeness
      ([delivery_complete]); the send buffer is a bounded FIFO
      ([run_conserves]); the packetizer loses nothing and respects its permit
      ([packetize_spec], [packetize_zero_rtt_spec]).
    - The endpoint: every run moves forward through the lifecycle
      ([run_moves_forward]) and ends for one of a few reasons, asking for its
      removal ([run_ends]); what a timeout check does
      ([check_all_timeouts_exact]), what a PUSH is answered with
      ([push_acknowledged]), how frames are packed ([send_frames_spec]), when
      the peer's address changes ([remote_addr_needs_response]), how a closing
      connection ends ([closing_follow_up]); the frame processors against the
      handlers they replaced ([processors_agree_with_handlers]); every frame
      sent has values of its Rust types and decodes as it was sent
      ([sent_frames_well_formed]), except an ACK of 8192 or more ranges
      ([ack_too_long]).
    - The socket: no input makes its event loop panic or draw ids for ever
      ([socket_never_panics]; it may wait, see the conventions); its connection
      table is sound
      ([connection_table_sound]); it neither makes up nor repeats frames
      ([socket_conserves_frames]); a SYN of its version starts one endpoint that,
      while sends succeed, gets its 0-RTT data ([syn_accepted]); ids are not
      reused before they have drained ([cid_not_reused]); 0-RTT data that is accepted fits ([initial_data_fits]);
      what [connect] returns ([connect_spec]).
    - The timer events: a dispatcher with slots loses and invents nothing, and
      panics only when it is asked for more events than a vector can have room
      for ([dispatcher_conserves], [consume_too_many]), a batch from the pool is its events one by one
      ([batch_acquire_sequential]), batches are processed on every strategy
      ([batches_processed]) and in parallel as in sequence
      ([parallel_sequential]).
    - The timers: the timer task's tables agree with the wheel in every
      state reached by commands that satisfy [command_ok]
      ([timer_tables_exact]), what advancing and clearing do
      ([advance_fires_due], [clear_connection_exact]), batches are sequences
      ([batch_register_sequential]), a timer's life through its
      handle ([handle_lifecycle]); the deadlines of the scheduler
      ([unified_deadline_spec]) and its checks ([check_unified_spec]); a
      cancelled timer does not fire ([cancel_disarms]).
    - The wire format: encoding and decoding are inverse in both directions,
      for one frame, for SACK ranges and for datagrams of several frames; the
      decoder never panics, whatever bytes arrive.
    - Acknowledgement and retransmission: which frames an ACK removes, which
      ones are resent by a fast retransmission, by the RTO and by the simple
      manager, how often at most, and exactly how often when the checks are
      spaced ([retries_bounded]), and that the deadline given to the timer agrees with
      the check that is made when it fires.
    - Windows: the congestion window's bounds over all runs in which its
      increment does not wrap ([vegas_window_bounds], [window_wraps]), the
      reaction to losses, and that packetizing respects both windows.
    - The lifecycle: its states only move forward, every change is a valid
      transition, shutdown and path validation do what their names say, and
      the notifier of a path validation is never used.
    - The timing wheel refines a set of timers: what [advance], [cancel_timer]
      and [add_timer] return is what the set returns, whatever the sizes and
      however late [advance] is called ([wheel_refines]); [next_expiry_time],
      whose answer is not part of that, is exact while its
      cache is sound, and [cache_staleness] says exactly when it is not.  A
      batch of additions is its additions one by one, vector arithmetic and
      grouping included ([batch_add_sequential]); a batch of cancellations
      removes exactly the timers named ([batch_cancel_exact]).

    ** Conventions

    - Machine integers are [Z] (buffer lengths and indices that are only
      compared are [nat]).  Where the code casts or wraps, the model does:
      [as_u16], [as_u32].  Arithmetic on sequence numbers wraps as in a
      release build; theorems that need sequence numbers not to wrap say so.
    - An [Instant] or [Duration] is a number of nanoseconds without upper
      bound; overflow of a [Duration] (at 2^64 seconds) is not modelled.
      [Instant::now()] is an argument of the operation that calls it, and so
      are the times and identifiers that come from the caller.
    - A panic is the constructor [Panic] of [outcome]; where a definition does
      not return an [outcome] the code has no panic to model, or a theorem
      shows that its indices are in range.  Memory is taken to suffice: the
      capacity overflow of [Vec::with_capacity] is modelled where the size is
      a number the caller chooses when it reads ([RingBuffer.batch_read]), and
      is not where it is the length of a collection that exists; the
      constructors of queues, pools, wheels and dispatchers are modelled for
      sizes whose memory can be had.
    - [f64] and [f32] are SpecFloat values, so the RTT estimator computes what
      the processor does.
    - A [BTreeMap] is a [gmap Z]; iteration goes over [BTreeMap.entries], which
      is sorted ([entries_ascending]).
    - What an endpoint does to the world is a list of effects
      ([Endpoint.effect]); what the world answers is an environment
      ([Endpoint.Env]): readings of the clock and of the random generator,
      whether a channel is open, the replies of the timer task, each indexed
      by the number of readings before it.  Theorems quantify over all
      environments, so also over clocks that run backwards.
    - [async] code is sequential between two events of the loop; the order of
      events ([EventLoop.event]) is arbitrary.  A [Wakeup] carries the events
      that the timer task has fired.
    - Sending on a channel is one step with an answer.  The code awaits sends on
      bounded channels; that a task waits there until there is room, and the
      tasks that wait for it, is not modelled.  No theorem excludes such
      waiting: an endpoint whose user does not read, and then the socket's
      loop when that endpoint's channel of 128 frames is full, do wait.
    - Logging and statistics strings are left out, and so is
      [cache_hit_rate], which only feeds them.

    ** Fuel

    Loops that are not structural take fuel, and theorems show that it is
    enough: [reassemble_loop] runs on the number of buffered packets, each
    iteration removes one; the loops that decode a buffer run on its length,
    each iteration consumes a byte at least ([deserialize_frames_total] shows
    they never run dry); [packetize_loop] is the code's own bounded loop;
    [TimingWheel.check_loop] runs on the length of the slot.

    Sequences of events and of inputs are lists, so the loops of an endpoint
    and of the socket need no fuel.  The loop that draws connection ids
    ([Socket.generate_loop]) ends only if the generator yields a free id; its
    fuel is the number of ids drawn, and [socket_never_panics] shows that one more
    than the connections ever opened is enough when they are different.
    [Dispatcher.place] runs on the number of slots, which it tries in turn; the
    scans over chunks run on the length of the batch, of which each chunk takes
    at least one entry.

    ** Not modelled

    Left out for good: the operating system's sockets, tokio's channels, tasks
    and wakers, and the threads of rayon (a parallel map is a map, whose result
    does not depend on the order); the texts of Display implementations,
    logging and statistics, and the floating-point statistic [cache_hit_rate];
    src/src/timer/event/performance_bench.rs, the tests, the examples and
    the benchmarks, which measure or exercise the code.  [mod.rs]-like files
    hold declarations only.  Between two operations of the socket an endpoint
    may run; as nothing of it is seen by the socket but the commands it sends,
    the two are run one after the other, each for all inputs. *)

From stdpp Require Export base tactics numbers list option gmap sorting relations.
From Stdlib Require Export ZArith Lia.
From coqutil Require Export Byte Word.LittleEndianList.

#[global] Open Scope Z_scope.

Declare Scope kestrel_scope.
Delimit Scope kestrel_scope with kestrel.
Open Scope kestrel_scope.

(** Bytes of buffers and datagrams. *)
Abbreviation byte := Corelib.Init.Byte.byte.

(** ** Machine integers

    Unsigned machine integers are kept as [Z] together with the range
    predicate of their width; [as_uN] is Rust's truncating cast and the
    result of a wrapping arithmetic operation. *)

Definition u8_ok (x : Z) : Prop := 0 <= x < 2 ^ 8.
Definition u16_ok (x : Z) : Prop := 0 <= x < 2 ^ 16.
Definition u32_ok (x : Z) : Prop := 0 <= x < 2 ^ 32.
Definition u64_ok (x : Z) : Prop := 0 <= x < 2 ^ 64.

#[global] Instance u8_ok_dec x : Decision (u8_ok x).
Proof. unfold u8_ok. apply _. Defined.
#[global] Instance u16_ok_dec x : Decision (u16_ok x).
Proof. unfold u16_ok. apply _. Defined.
#[global] Instance u32_ok_dec x : Decision (u32_ok x).
Proof. unfold u32_ok. apply _. Defined.
#[global] Instance u64_ok_dec x : Decision (u64_ok x).
Proof. unfold u64_ok. apply _. Defined.

(** Prove a decidable statement about concrete data by evaluation. *)
Ltac by_decide :=
  match goal with |- ?P => refine (@bool_decide_unpack P _ _); vm_compute; exact I end.

Definition as_u16 (x : Z) : Z := x mod 2 ^ 16.
Definition as_u32 (x : Z) : Z := x mod 2 ^ 32.
Definition as_u64 (x : Z) : Z := x mod 2 ^ 64.
Definition u32_MAX : Z := 2 ^ 32 - 1.

(** [a.saturating_sub(b)] on unsigned integers and on [Duration]s. *)
Definition saturating_sub (a b : Z) : Z := Z.max 0 (a - b).

(** The length of a buffer or vector as a [usize]. *)
Definition len {A} (l : list A) : Z := Z.of_nat (length l).

Lemma as_u16_id x : u16_ok x -> as_u16 x = x.
Proof. unfold u16_ok, as_u16; intros; by rewrite Z.mod_small. Qed.

Lemma as_u32_id x : u32_ok x -> as_u32 x = x.
Proof. unfold u32_ok, as_u32; intros; by rewrite Z.mod_small. Qed.

Lemma as_u64_id x : u64_ok x -> as_u64 x = x.
Proof. unfold u64_ok, as_u64; intros; by rewrite Z.mod_small. Qed.

Lemma as_u16_ok x : u16_ok (as_u16 x).
Proof. unfold u16_ok, as_u16. by apply Z.mod_pos_bound. Qed.

Lemma as_u32_ok x : u32_ok (as_u32 x).
Proof. unfold u32_ok, as_u32. by apply Z.mod_pos_bound. Qed.

Lemma saturating_sub_nonneg a b : 0 <= saturating_sub a b.
Proof. unfold saturating_sub; lia. Qed.

Lemma len_nonneg {A} (l : list A) : 0 <= len l.
Proof. unfold len; lia. Qed.

Lemma len_app {A} (l k : list A) : len (l ++ k) = len l + len k.
Proof. unfold len; rewrite length_app; lia. Qed.

Lemma len_cons {A} (x : A) (l : list A) : len (x :: l) = 1 + len l.
Proof. unfold len; simpl; lia. Qed.

Lemma ltb_add_l n m : (n + m <? n)%nat = false.
Proof. apply Nat.ltb_ge; lia. Qed.

(** ** Filters *)

Section filter.
Context {A : Type} (P : A -> Prop) `{!forall x, Decision (P x)}.
Implicit Types l : list A.

Lemma filter_all l : Forall P l -> filter P l = l.
Proof. induction 1 as [|x l Hx _ IH]; [done|]. by rewrite filter_cons_True, IH. Qed.

Lemma filter_none l : Forall (fun x => ~ P x) l -> filter P l = [].
Proof. induction 1 as [|x l Hx _ IH]; [done|]. by rewrite filter_cons_False. Qed.

Lemma filter_ext (Q : A -> Prop) `{!forall x, Decision (Q x)} l :
  (forall x, x ∈ l -> P x <-> Q x) -> filter P l = filter Q l.
Proof.
  induction l as [|x l IH]; intros HPQ; [done|]. rewrite !filter_cons, IH.
  - destruct (HPQ x) as [H1 H2]; [left|]. by repeat case_decide; naive_solver.
  - intros y Hy. apply HPQ. by right.
Qed.

(** A partition of [l] by [P] is given by the two filters. *)
Lemma filter_partition l1 l2 l :
  Forall P l1 -> Forall (fun x => ~ P x) l2 -> l1 ++ l2 ≡ₚ l ->
  l1 ≡ₚ filter P l /\ l2 ≡ₚ filter (fun x => ~ P x) l.
Proof.
  intros H1 H2 <-. rewrite !filter_app, (filter_all l1), (filter_none l2), app_nil_r by done.
  split; [done|]. assert (filter (fun x => ~ P x) l1 = []) as ->; [|assert (filter (fun x => ~ P x) l2 = l2) as ->; [|done]].
  - clear H2. induction H1; [done|]. rewrite filter_cons_False; [done|tauto].
  - clear H1. induction H2; [done|]. rewrite filter_cons_True by done. by f_equal.
Qed.

End filter.

(** ** Time

    A [Duration] is a number of nanoseconds, an [Instant] the number of
    nanoseconds since an arbitrary origin.  [tokio]'s
    [now.duration_since(t)] saturates at zero. *)

Abbreviation Instant := Z (only parsing).
Abbreviation Duration := Z (only parsing).

Definition from_millis (n : Z) : Duration := n * 1000000.
Definition from_secs (n : Z) : Duration := n * 1000000000.
Definition as_millis (d : Duration) : Z := d / 1000000.
Definition duration_since (now t : Instant) : Duration := saturating_sub now t.

(** ** Computations that may panic

    Code that reads a buffer, or that slices or indexes one, panics when the
    access is out of range.  [outcome A] is the result of such code. *)

Inductive outcome (A : Type) :=
| Done (a : A)
| Panic.

Arguments Done {A} a.
Arguments Panic {A}.

Definition outcome_bind {A B} (o : outcome A) (f : A -> outcome B) : outcome B :=
  match o with Done a => f a | Panic => Panic end.

(** ** Runs *)

(** A property that every step preserves is preserved by a run. *)
Lemma rtc_preserves {A} (R : A -> A -> Prop) (P : A -> Prop) :
  (forall x y, R x y -> P x -> P y) -> forall x y, rtc R x y -> P x -> P y.
Proof. intros H. induction 1; eauto. Qed.

(** ** Shared hint database and tactics *)

Create HintDb kestrel.
Create Rewrite HintDb kestrel.

#[export] Hint Rewrite @len_app @len_cons @length_app : kestrel.
#[export] Hint Rewrite as_u16_id as_u32_id using assumption : kestrel.
#[export] Hint Resolve as_u16_ok as_u32_ok len_nonneg saturating_sub_nonneg : kestrel.

(** Destruct the scrutinee of the first [match] in the goal, remembering the
    equation, and discharge the branches that contradict the context. *)
Ltac case_match_goal :=
  match goal with
  | |- context [match ?x with _ => _ end] =>
      let E := fresh "E" in destruct x eqn:E; try discriminate
  end.

(** The same in a hypothesis. *)
Ltac case_match_in H :=
  match type of H with
  | context [match ?x with _ => _ end] =>
      let E := fresh "E" in destruct x eqn:E; try discriminate H
  end.
