(* ===== verification/BTreeMap.v ===== *)
(** * Ordered maps

    [std::collections::BTreeMap] with integer keys: a stdpp [gmap] with the
    ascending iteration the code relies on ([iter], [keys], [values],
    [first_key_value]).  The iteration order is characterised by
    [entries_unique]: it is the only list with strictly ascending keys that
    holds exactly the map's associations. *)

From S2P Require Import Prelude.

Module BTreeMap.

Section ops.
Context {A : Type}.
Implicit Types (m : gmap Z A) (l : list (Z * A)).

Definition key_le (x y : Z * A) : Prop := x.1 <= y.1.

#[global] Instance key_le_dec : RelDecision key_le.
Proof. intros x y. unfold key_le. apply _. Defined.

(** [m.iter()]: the associations in ascending key order. *)
Definition entries m : list (Z * A) := merge_sort key_le (map_to_list m).

(** [m.keys()] and [m.values()]. *)
Definition keys m : list Z := (entries m).*1.
Definition values m : list A := (entries m).*2.

(** [m.first_key_value()]. *)
Definition first_key_value m : option (Z * A) := head (entries m).

(** [m.len()]. *)
Definition map_len m : Z := Z.of_nat (size m).

(** ** Strictly ascending association lists *)

Definition ascending l : Prop := StronglySorted Z.lt l.*1.

Lemma ascending_cons k v l :
  ascending ((k, v) :: l) <-> ascending l /\ forall k' v', (k', v') ∈ l -> k < k'.
Proof.
  unfold ascending. rewrite fmap_cons. split.
  - intros H. apply StronglySorted_inv in H as [H1 H2]. split; [done|].
    intros k' v' Hin. rewrite Forall_forall in H2. apply H2.
    by apply (list_elem_of_fmap_2 fst _ (k', v')).
  - intros [H1 H2]. constructor; [done|]. apply Forall_forall.
    intros k' Hin. apply list_elem_of_fmap_1 in Hin as ([k'' v'] & -> & Hin). eauto.
Qed.

Lemma ascending_ext l1 l2 :
  ascending l1 -> ascending l2 -> (forall x, x ∈ l1 <-> x ∈ l2) -> l1 = l2.
Proof.
  revert l2. induction l1 as [|[k1 v1] l1 IH]; intros [|[k2 v2] l2] H1 H2 Hx.
  - done.
  - exfalso. apply (not_elem_of_nil (k2, v2)), Hx. left.
  - exfalso. apply (not_elem_of_nil (k1, v1)), Hx. left.
  - apply ascending_cons in H1 as [H1 L1], H2 as [H2 L2].
    assert (E : (k1, v1) = (k2, v2)).
    { assert (I1 : (k1, v1) ∈ (k2, v2) :: l2) by (apply Hx; left).
      assert (I2 : (k2, v2) ∈ (k1, v1) :: l1) by (apply Hx; left).
      apply elem_of_cons in I1 as [?|I1]; [done|].
      apply elem_of_cons in I2 as [?|I2]; [done|].
      apply L2 in I1. apply L1 in I2. lia. }
    injection E as <- <-. f_equal. apply IH; [done..|].
    intros [k v]. specialize (Hx (k, v)). rewrite !elem_of_cons in Hx.
    split; intros Hin.
    + destruct (proj1 Hx) as [[= -> ->]|]; [by right| |done]. apply L1 in Hin; lia.
    + destruct (proj2 Hx) as [[= -> ->]|]; [by right| |done]. apply L2 in Hin; lia.
Qed.

Lemma ascending_filter (P : Z * A -> Prop) {dec : forall x, Decision (P x)} l :
  ascending l -> ascending (filter P l).
Proof.
  induction l as [|[k v] l IH]; intros H; [done|].
  apply ascending_cons in H as [H L]. rewrite filter_cons. case_decide; [|auto].
  apply ascending_cons. split; [auto|]. intros k' v' Hin.
  apply list_elem_of_filter in Hin as [_ Hin]. eauto.
Qed.

Lemma ascending_app l1 l2 :
  ascending (l1 ++ l2) ->
  ascending l1 /\ ascending l2 /\ forall k1 v1 k2 v2, (k1, v1) ∈ l1 -> (k2, v2) ∈ l2 -> k1 < k2.
Proof.
  induction l1 as [|[k v] l1 IH]; simpl; intros H.
  - split_and!; [by constructor|done|]. intros * Hin. by apply elem_of_nil in Hin.
  - apply ascending_cons in H as [H L]. apply IH in H as (H1 & H2 & H3).
    split_and!; [|done|].
    + apply ascending_cons. split; [done|]. intros k' v' ?. eapply L. apply elem_of_app; eauto.
    + intros k1 v1 k2 v2 I1 I2. apply elem_of_cons in I1 as [[= -> ->]|I1]; [|eauto].
      eapply L. apply elem_of_app; eauto.
Qed.

(** ** Iteration *)

Lemma elem_of_entries m k v : (k, v) ∈ entries m <-> m !! k = Some v.
Proof. unfold entries. rewrite merge_sort_Permutation. apply elem_of_map_to_list. Qed.

Lemma keys_NoDup m : NoDup (keys m).
Proof. unfold keys, entries. rewrite merge_sort_Permutation. apply NoDup_fst_map_to_list. Qed.

Lemma entries_ascending m : ascending (entries m).
Proof.
  assert (S : StronglySorted key_le (entries m)).
  { apply StronglySorted_merge_sort.
    - intros x y z. unfold key_le. lia.
    - intros x y. unfold key_le. lia. }
  pose proof (keys_NoDup m) as N. unfold keys in N. unfold ascending.
  induction S as [|[k v] l S IH Hk]; [constructor|].
  rewrite fmap_cons in *. apply NoDup_cons in N as [Nk N]. constructor; [auto|].
  apply Forall_forall. intros k' Hin.
  assert (k <> k') by (intros <-; done).
  apply list_elem_of_fmap_1 in Hin as ([k'' v'] & -> & Hin).
  rewrite Forall_forall in Hk. apply Hk in Hin. unfold key_le in Hin. simpl in *. lia.
Qed.

Lemma entries_unique m l :
  ascending l -> (forall k v, (k, v) ∈ l <-> m !! k = Some v) -> entries m = l.
Proof.
  intros Hl Hm. apply ascending_ext; [apply entries_ascending|done|].
  intros [k v]. by rewrite elem_of_entries, Hm.
Qed.

Lemma entries_empty : entries (∅ : gmap Z A) = [].
Proof.
  apply entries_unique; [constructor|]. intros k v. rewrite lookup_empty.
  split; [intros H; by apply elem_of_nil in H|done].
Qed.

Lemma length_entries m : length (entries m) = size m.
Proof. unfold entries. rewrite merge_sort_Permutation. by apply length_map_to_list. Qed.

Lemma entries_nil_inv m : entries m = [] -> m = ∅.
Proof.
  intros H. apply map_empty. intros k. destruct (m !! k) as [v|] eqn:E; [|done].
  apply elem_of_entries in E. rewrite H in E. by apply elem_of_nil in E.
Qed.

Lemma entries_delete m k : entries (delete k m) = filter (fun x => x.1 <> k) (entries m).
Proof.
  apply entries_unique; [apply ascending_filter, entries_ascending|].
  intros k' v. rewrite list_elem_of_filter, elem_of_entries, lookup_delete_Some. naive_solver.
Qed.

(** The association with the smallest key, and the rest. *)
Lemma entries_cons_inv m k v l :
  entries m = (k, v) :: l ->
  m !! k = Some v /\ entries (delete k m) = l /\ forall k' v', m !! k' = Some v' -> k <= k'.
Proof.
  intros E. pose proof (entries_ascending m) as H. rewrite E in H.
  apply ascending_cons in H as [H L].
  assert (Hin : forall k' v', (k', v') ∈ (k, v) :: l <-> m !! k' = Some v')
    by (intros; by rewrite <- E, elem_of_entries).
  split_and!.
  - apply Hin. left.
  - apply entries_unique; [done|]. intros k' v'. rewrite lookup_delete_Some, <- Hin, elem_of_cons.
    split; [intros I; split; [apply L in I; lia|auto]|naive_solver].
  - intros k' v' Hk. apply Hin, elem_of_cons in Hk as [[= -> ->]|Hk]; [lia|].
    apply L in Hk. lia.
Qed.

(** A map whose keys are all above [k] is iterated after [k]. *)
Lemma entries_insert_first m k v :
  (forall k' v', m !! k' = Some v' -> k < k') -> entries (<[k:=v]> m) = (k, v) :: entries m.
Proof.
  intros Hlt. apply entries_unique.
  - apply ascending_cons. split; [apply entries_ascending|].
    intros k' v' Hin. apply elem_of_entries in Hin. eauto.
  - intros k' v'. rewrite elem_of_cons, elem_of_entries, lookup_insert_Some.
    split; [intros [[= -> ->]|H]; [by left|right]|naive_solver].
    split; [|done]. intros ->. apply Hlt in H. lia.
Qed.

Lemma elem_of_keys m k : k ∈ keys m <-> is_Some (m !! k).
Proof.
  unfold keys. split.
  - intros H. apply list_elem_of_fmap_1 in H as ([k' v] & -> & H).
    apply elem_of_entries in H. by eexists.
  - intros [v H]. apply elem_of_entries in H. by apply (list_elem_of_fmap_2 fst _ (k, v)).
Qed.

Lemma elem_of_values m v : v ∈ values m <-> exists k, m !! k = Some v.
Proof.
  unfold values. split.
  - intros H. apply list_elem_of_fmap_1 in H as ([k v'] & -> & H).
    apply elem_of_entries in H. by eexists.
  - intros [k H]. apply elem_of_entries in H. by apply (list_elem_of_fmap_2 snd _ (k, v)).
Qed.

Lemma first_key_value_Some m k v :
  first_key_value m = Some (k, v) <->
  m !! k = Some v /\ forall k' v', m !! k' = Some v' -> k <= k'.
Proof.
  unfold first_key_value. split.
  - destruct (entries m) as [|[k0 v0] l] eqn:E; [done|]. intros [= -> ->].
    apply entries_cons_inv in E as (? & _ & ?). auto.
  - intros [Hk Hmin]. destruct (entries m) as [|[k0 v0] l] eqn:E.
    + apply entries_nil_inv in E as ->. by rewrite lookup_empty in Hk.
    + apply entries_cons_inv in E as (H0 & _ & Hmin0). simpl.
      assert (k = k0) as -> by (apply Hmin in H0; apply Hmin0 in Hk; lia). congruence.
Qed.

Lemma map_len_nonneg m : 0 <= map_len m.
Proof. unfold map_len. lia. Qed.

(** ** Ranges and bulk removal *)

(** [m.range(..n)]. *)
Definition range_below m (n : Z) : list (Z * A) := filter (fun x => x.1 < n) (entries m).

(** A loop over [m.iter()] that breaks at the first key not below [n]. *)
Fixpoint take_below (n : Z) (l : list (Z * A)) : list (Z * A) :=
  match l with
  | [] => []
  | (k, v) :: l => if k <? n then (k, v) :: take_below n l else []
  end.

(** [for key in keys { m.remove(&key); }] *)
Definition remove_all m (ks : list Z) : gmap Z A := fold_left (fun m k => delete k m) ks m.

Lemma take_below_filter n l : ascending l -> take_below n l = filter (fun x => x.1 < n) l.
Proof.
  induction l as [|[k v] l IH]; intros H; [done|].
  apply ascending_cons in H as [H L]. cbn [take_below]. rewrite filter_cons. simpl.
  destruct (Z.ltb_spec k n) as [Hk|Hk]; case_decide; try lia.
  - f_equal. auto.
  - symmetry. destruct (filter _ l) as [|[k' v'] l'] eqn:E; [done|].
    assert (Hin : (k', v') ∈ filter (fun x => x.1 < n) l) by (rewrite E; left).
    apply list_elem_of_filter in Hin as [Hlt Hin]. apply L in Hin. simpl in Hlt. lia.
Qed.

Lemma take_below_entries m n : take_below n (entries m) = range_below m n.
Proof. apply take_below_filter, entries_ascending. Qed.

Lemma elem_of_range_below m n k v : (k, v) ∈ range_below m n <-> m !! k = Some v /\ k < n.
Proof. unfold range_below. rewrite list_elem_of_filter, elem_of_entries. simpl. tauto. Qed.

Lemma range_below_NoDup m n : NoDup (range_below m n).*1.
Proof.
  pose proof (ascending_filter (fun x => x.1 < n) (entries m) (entries_ascending m)) as H.
  fold (range_below m n) in H. unfold ascending in H.
  induction H as [|k l H IH Hk]; constructor; [|done].
  rewrite Forall_forall in Hk. intros Hin. apply Hk in Hin. lia.
Qed.

Lemma lookup_remove_all m ks k :
  remove_all m ks !! k = if decide (k ∈ ks) then None else m !! k.
Proof.
  unfold remove_all. revert m. induction ks as [|k0 ks IH]; intros m; cbn [fold_left].
  - case_decide as H; [by apply elem_of_nil in H|done].
  - rewrite IH. destruct (decide (k ∈ ks)) as [Hin|Hin].
    + by rewrite decide_True by by right.
    + destruct (decide (k = k0)) as [->|Hne].
      * rewrite lookup_delete_eq, decide_True; [done|left].
      * rewrite lookup_delete_ne by done. rewrite decide_False; [done|].
        rewrite elem_of_cons. tauto.
Qed.

Lemma remove_all_size m ks :
  NoDup ks -> (forall k, k ∈ ks -> is_Some (m !! k)) ->
  map_len (remove_all m ks) = map_len m - len ks.
Proof.
  unfold remove_all, map_len. intros Hnd. revert m. induction Hnd as [|k ks Hk Hnd IH]; intros m Hs.
  - unfold len. simpl. lia.
  - cbn [fold_left]. rewrite IH.
    + destruct (Hs k) as [v Hv]; [left|]. rewrite len_cons, map_size_delete_Some by eauto.
      assert (size m <> 0%nat).
      { intros E. apply map_size_empty_iff in E as ->. by rewrite lookup_empty in Hv. }
      lia.
    + intros j Hj. rewrite lookup_delete_ne by (intros ->; done). apply Hs. by right.
Qed.

End ops.

End BTreeMap.

(** [a..=b] over integers. *)
Definition range_inclusive (a b : Z) : list Z := seqZ a (b - a + 1).

Lemma elem_of_range_inclusive a b k : k ∈ range_inclusive a b <-> a <= k <= b.
Proof. unfold range_inclusive. rewrite elem_of_seqZ. lia. Qed.

(** [iter.min()] and [iter.max()] over integers. *)
Definition list_min (l : list Z) : option Z :=
  match l with [] => None | x :: l => Some (fold_left Z.min l x) end.

Definition list_max (l : list Z) : option Z :=
  match l with [] => None | x :: l => Some (fold_left Z.max l x) end.

Lemma fold_min_spec l x :
  let d := fold_left Z.min l x in d ∈ x :: l /\ d <= x /\ forall y, y ∈ l -> d <= y.
Proof.
  revert x. induction l as [|y l IH]; intros x; simpl.
  - split_and!; [left|lia|]. intros y H. by apply elem_of_nil in H.
  - destruct (IH (Z.min x y)) as (H1 & H2 & H3). split_and!; [|lia|].
    + apply elem_of_cons in H1 as [H1|H1]; [|by do 2 right].
      rewrite H1. destruct (Z.min_spec x y) as [[_ ->]|[_ ->]]; [left|right; left].
    + intros z Hz. apply elem_of_cons in Hz as [->|Hz]; [lia|auto].
Qed.

Lemma fold_max_spec l x :
  let d := fold_left Z.max l x in d ∈ x :: l /\ x <= d /\ forall y, y ∈ l -> y <= d.
Proof.
  revert x. induction l as [|y l IH]; intros x; simpl.
  - split_and!; [left|lia|]. intros y H. by apply elem_of_nil in H.
  - destruct (IH (Z.max x y)) as (H1 & H2 & H3). split_and!; [|lia|].
    + apply elem_of_cons in H1 as [H1|H1]; [|by do 2 right].
      rewrite H1. destruct (Z.max_spec x y) as [[_ ->]|[_ ->]]; [right; left|left].
    + intros z Hz. apply elem_of_cons in Hz as [->|Hz]; [lia|auto].
Qed.

Lemma list_min_Some l d : list_min l = Some d -> d ∈ l /\ forall x, x ∈ l -> d <= x.
Proof.
  destruct l as [|x l]; [done|]. simpl. intros [= <-].
  destruct (fold_min_spec l x) as (H1 & H2 & H3). split; [done|].
  intros y Hy. apply elem_of_cons in Hy as [->|Hy]; auto.
Qed.

Lemma list_max_Some l d : list_max l = Some d -> d ∈ l /\ forall x, x ∈ l -> x <= d.
Proof.
  destruct l as [|x l]; [done|]. simpl. intros [= <-].
  destruct (fold_max_spec l x) as (H1 & H2 & H3). split; [done|].
  intros y Hy. apply elem_of_cons in Hy as [->|Hy]; auto.
Qed.

Lemma list_min_None l : list_min l = None <-> l = [].
Proof. by destruct l. Qed.

Lemma list_max_None l : list_max l = None <-> l = [].
Proof. by destruct l. Qed.

#[export] Hint Resolve BTreeMap.entries_ascending BTreeMap.keys_NoDup BTreeMap.map_len_nonneg : kestrel.
#[export] Hint Rewrite @BTreeMap.elem_of_entries @BTreeMap.elem_of_keys @BTreeMap.entries_empty : kestrel.
