(* ===== verification/Packet.v ===== *)
(** * Wire elements: bytes, commands, headers and SACK ranges

  Models [src/packet/command.rs], [src/packet/header.rs] and
  [src/packet/sack.rs], over the part of the [bytes] crate's [Buf] and
  [BufMut] interface those files use.  A buffer being read is the list of
  its remaining bytes; a getter returns the value and the bytes after it,
  and panics when the buffer is too short, as the crate does. *)

From S2P Require Import Prelude.

(** ** The [Buf] / [BufMut] primitives *)

Module Buf.

(** Big-endian image of [x] on [n] bytes, as appended by [put_uN]. *)
Definition put_be (n : nat) (x : Z) : list byte := rev (le_split n x).

(** A reader: the value read and the remaining buffer, or a panic. *)
Definition reader (A : Type) : Type := list byte -> outcome (A * list byte).

Definition ret {A} (a : A) : reader A := fun buf => Done (a, buf).

Definition bind {A B} (r : reader A) (f : A -> reader B) : reader B :=
  fun buf => outcome_bind (r buf) (fun '(a, buf') => f a buf').

(** [e?] in a reader that returns an [Option]. *)
Definition bind_opt {A B} (r : reader (option A)) (f : A -> reader (option B))
  : reader (option B) :=
  bind r (fun o => match o with Some a => f a | None => ret None end).

Definition remaining : reader nat := fun buf => Done (length buf, buf).

(** [get_uN]: panics unless [n] bytes remain. *)
Definition get_be (n : nat) : reader Z :=
  fun buf =>
    if (length buf <? n)%nat then Panic
    else Done (le_combine (rev (take n buf)), drop n buf).

(** [&cursor[..n]] followed by [cursor.advance(n)]. *)
Definition get_slice (n : nat) : reader (list byte) :=
  fun buf => if (length buf <? n)%nat then Panic else Done (take n buf, drop n buf).

Definition get_u8 : reader Z := get_be 1.
Definition get_u16 : reader Z := get_be 2.
Definition get_u32 : reader Z := get_be 4.
Definition get_u64 : reader Z := get_be 8.
Definition put_u8 : Z -> list byte := put_be 1.
Definition put_u16 : Z -> list byte := put_be 2.
Definition put_u32 : Z -> list byte := put_be 4.
Definition put_u64 : Z -> list byte := put_be 8.

Lemma length_put_be n x : length (put_be n x) = n.
Proof. unfold put_be. by rewrite length_rev, length_le_split. Qed.

Lemma get_be_put n x rest :
  0 <= x < 2 ^ (Z.of_nat n * 8) -> get_be n (put_be n x ++ rest) = Done (x, rest).
Proof.
  intros Hx. pose proof (length_put_be n x) as Hl.
  unfold get_be. rewrite length_app, Hl.
  destruct (Nat.ltb_spec (n + length rest) n); [lia|].
  rewrite take_app_length', drop_app_length' by done.
  unfold put_be. rewrite rev_involutive, le_combine_split, Z.mod_small by done. done.
Qed.

(** What a successful getter says about the buffer it read. *)
Lemma get_be_inv n buf x rest :
  get_be n buf = Done (x, rest) ->
  buf = put_be n x ++ rest /\ 0 <= x < 2 ^ (Z.of_nat n * 8).
Proof.
  unfold get_be. destruct (Nat.ltb_spec (length buf) n) as [|Hl]; [done|].
  intros [= <- <-].
  assert (Hr : length (rev (take n buf)) = n)
    by (rewrite length_rev, length_take; lia).
  split.
  - unfold put_be. rewrite split_le_combine' by done.
    by rewrite rev_involutive, take_drop.
  - pose proof (le_combine_bound (rev (take n buf))) as B.
    rewrite Hr in B. by replace (Z.of_nat n * 8) with (8 * Z.of_nat n) by lia.
Qed.

Lemma get_be_more n buf x rest more :
  get_be n buf = Done (x, rest) -> get_be n (buf ++ more) = Done (x, rest ++ more).
Proof. intros [-> Hx]%get_be_inv. rewrite <- app_assoc. by apply get_be_put. Qed.

Lemma get_be_total n buf :
  (n <= length buf)%nat ->
  exists x, get_be n buf = Done (x, drop n buf).
Proof.
  intros Hl. unfold get_be. destruct (Nat.ltb_spec (length buf) n); [lia|]. eauto.
Qed.

Lemma get_slice_app s rest : get_slice (length s) (s ++ rest) = Done (s, rest).
Proof.
  unfold get_slice. rewrite length_app.
  destruct (Nat.ltb_spec (length s + length rest) (length s)); [lia|].
  by rewrite take_app_length, drop_app_length.
Qed.

Lemma get_slice_inv n buf s rest :
  get_slice n buf = Done (s, rest) -> buf = s ++ rest /\ length s = n.
Proof.
  unfold get_slice. destruct (Nat.ltb_spec (length buf) n); [done|].
  intros [= <- <-]. rewrite take_drop, length_take. split; [done|lia].
Qed.

(** *** Composing readers *)

Lemma bind_Done {A B} (r : reader A) (f : A -> reader B) buf a buf' :
  r buf = Done (a, buf') -> bind r f buf = f a buf'.
Proof. unfold bind. by intros ->. Qed.

Lemma bind_Done_eq {A B} (r : reader A) (f : A -> reader B) buf a buf' o :
  r buf = Done (a, buf') -> f a buf' = o -> bind r f buf = o.
Proof. intros H <-. by apply bind_Done. Qed.

Lemma bind_inv {A B} (r : reader A) (f : A -> reader B) buf b rest :
  bind r f buf = Done (b, rest) ->
  exists a buf', r buf = Done (a, buf') /\ f a buf' = Done (b, rest).
Proof. unfold bind. destruct (r buf) as [[a buf']|]; simpl; [eauto|done]. Qed.

(** A reader that cannot panic on a buffer of [n] bytes or more, and that
    leaves all but [n] of them. *)
Lemma bind_get_be_total {B} n m (f : Z -> reader B) buf :
  (n + m <= length buf)%nat ->
  (forall x buf', (m <= length buf')%nat -> exists r, f x buf' = Done r) ->
  exists r, bind (get_be n) f buf = Done r.
Proof.
  intros Hl Hf. destruct (get_be_total n buf) as [x Hx]; [lia|].
  rewrite (bind_Done _ _ _ _ _ Hx). apply Hf. rewrite length_drop. lia.
Qed.

End Buf.

Notation "'let!' x ':=' r 'in' k" := (Buf.bind r (fun x => k))
(at level 10, x name, r at level 100, k at level 200) : kestrel_scope.
Notation "'let?' x ':=' r 'in' k" := (Buf.bind_opt r (fun x => k))
(at level 10, x name, r at level 100, k at level 200) : kestrel_scope.

(** Read back one field after another of an encoded record. *)
Ltac read_fields :=
repeat first
  [ rewrite <- app_assoc
  | erewrite Buf.bind_Done by (apply Buf.get_be_put; eassumption) ].

(** Peel the getters off a successful run of a reader. *)
Ltac read_inv :=
unfold Buf.get_u8, Buf.get_u16, Buf.get_u32, Buf.get_u64 in *;
repeat match goal with
| H : Buf.bind (Buf.get_be _) _ _ = Done _ |- _ =>
    let x := fresh "x" in let b := fresh "buf" in let H' := fresh "Hget" in
    apply Buf.bind_inv in H as (x & b & H' & H);
    apply Buf.get_be_inv in H' as [-> ?]
end.

#[export] Hint Rewrite Buf.length_put_be : kestrel.

(** ** [packet/command.rs] *)

Module Command.

Inductive Command :=
| Syn | SynAck | Fin | Push | Ack | Ping | PathChallenge | PathResponse.

#[global] Instance Command_eq_dec : EqDecision Command.
Proof. solve_decision. Defined.

(** [self as u8], the discriminants of the [#[repr(u8)]] enum. *)
Definition as_u8 (c : Command) : Z :=
  match c with
  | Syn => 1 | SynAck => 2 | Fin => 3
  | Push => 16 | Ack => 17 | Ping => 18 | PathChallenge => 19 | PathResponse => 20
  end.

Definition from_u8 (byte : Z) : option Command :=
  match byte with
  | 1 => Some Syn
  | 2 => Some SynAck
  | 3 => Some Fin
  | 16 => Some Push
  | 17 => Some Ack
  | 18 => Some Ping
  | 19 => Some PathChallenge
  | 20 => Some PathResponse
  | _ => None
  end.

Definition is_long_header (c : Command) : bool :=
  match c with Syn | SynAck => true | _ => false end.

Lemma from_as_u8 c : from_u8 (as_u8 c) = Some c.
Proof. by destruct c. Qed.

Lemma from_u8_inv b c : from_u8 b = Some c -> b = as_u8 c.
Proof. unfold from_u8. intros. repeat case_match; simplify_eq; done. Qed.

Lemma as_u8_range c : 0 <= as_u8 c < 2 ^ (Z.of_nat 1 * 8).
Proof. destruct c; done. Qed.

End Command.

#[export] Hint Resolve Command.as_u8_range : kestrel.

(** ** [packet/header.rs] *)

Module ShortHeader.

Record ShortHeader := {
  command : Command.Command;
  connection_id : Z;       (* u32 *)
  payload_length : Z;      (* u16 *)
  recv_window_size : Z;    (* u16 *)
  timestamp : Z;           (* u32 *)
  sequence_number : Z;     (* u32 *)
  recv_next_sequence : Z;  (* u32 *)
}.

(** The field types of the struct. *)
Definition ok (h : ShortHeader) : Prop :=
  u32_ok h.(connection_id) /\ u16_ok h.(payload_length) /\
  u16_ok h.(recv_window_size) /\ u32_ok h.(timestamp) /\
  u32_ok h.(sequence_number) /\ u32_ok h.(recv_next_sequence).

#[global] Instance ok_dec h : Decision (ok h).
Proof. unfold ok. apply _. Defined.

Definition ENCODED_SIZE : nat := 4 + 2 + 2 + 4 + 4 + 4.

Definition encode (h : ShortHeader) : list byte :=
  Buf.put_u8 (Command.as_u8 h.(command)) ++
  Buf.put_u32 h.(connection_id) ++
  Buf.put_u16 h.(payload_length) ++
  Buf.put_u16 h.(recv_window_size) ++
  Buf.put_u32 h.(timestamp) ++
  Buf.put_u32 h.(sequence_number) ++
  Buf.put_u32 h.(recv_next_sequence).

Definition decode : Buf.reader (option ShortHeader) :=
  let! remaining := Buf.remaining in
  if (remaining <? 1 + ENCODED_SIZE)%nat then Buf.ret None else
  let! b := Buf.get_u8 in
  match Command.from_u8 b with
  | None => Buf.ret None
  | Some command =>
      if Command.is_long_header command then Buf.ret None else
      let! connection_id := Buf.get_u32 in
      let! payload_length := Buf.get_u16 in
      let! recv_window_size := Buf.get_u16 in
      let! timestamp := Buf.get_u32 in
      let! sequence_number := Buf.get_u32 in
      let! recv_next_sequence := Buf.get_u32 in
      Buf.ret (Some {|
        command := command;
        connection_id := connection_id;
        payload_length := payload_length;
        recv_window_size := recv_window_size;
        timestamp := timestamp;
        sequence_number := sequence_number;
        recv_next_sequence := recv_next_sequence |})
  end.

Lemma short_length_encode h : length (encode h) = (1 + ENCODED_SIZE)%nat.
Proof. unfold encode. by autorewrite with kestrel. Qed.

Lemma short_decode_encode h rest :
  ok h -> Command.is_long_header h.(command) = false ->
  decode (encode h ++ rest) = Done (Some h, rest).
Proof.
  intros (? & ? & ? & ? & ? & ?) Hlong. unfold decode.
  rewrite (Buf.bind_Done _ _ _ _ _ eq_refl), length_app, short_length_encode, ltb_add_l.
  pose proof (Command.as_u8_range h.(command)). unfold encode.
  read_fields. rewrite Command.from_as_u8, Hlong. read_fields. by destruct h.
Qed.

Lemma short_decode_inv buf h rest :
  decode buf = Done (Some h, rest) ->
  buf = encode h ++ rest /\ ok h /\ Command.is_long_header h.(command) = false.
Proof.
  unfold decode. rewrite (Buf.bind_Done _ _ _ _ _ eq_refl).
  case_match_goal. intros H.
  apply Buf.bind_inv in H as (b & buf0 & Hb & H). apply Buf.get_be_inv in Hb as [-> ?].
  case_match_in H. case_match_in H. read_inv.
  injection H as <- <-. apply Command.from_u8_inv in E0 as ->.
  split; [|unfold ok; simpl; split_and!; assumption].
  unfold encode; cbn -[app]. by rewrite <- !app_assoc.
Qed.

Lemma short_decode_total buf : exists r, decode buf = Done r.
Proof.
  unfold decode. rewrite (Buf.bind_Done _ _ _ _ _ eq_refl).
  destruct (Nat.ltb_spec (length buf) (1 + ENCODED_SIZE)) as [|Hl]; [by eexists|].
  apply (Buf.bind_get_be_total 1 ENCODED_SIZE); [done|]. intros b buf0 Hl0.
  case_match_goal; [|by eexists]. case_match_goal; [by eexists|].
  apply (Buf.bind_get_be_total 4 16); [done|]. intros.
  apply (Buf.bind_get_be_total 2 14); [done|]. intros.
  apply (Buf.bind_get_be_total 2 12); [done|]. intros.
  apply (Buf.bind_get_be_total 4 8); [done|]. intros.
  apply (Buf.bind_get_be_total 4 4); [done|]. intros.
  apply (Buf.bind_get_be_total 4 0); [done|]. intros. by eexists.
Qed.

End ShortHeader.

Module LongHeader.

Record LongHeader := {
  command : Command.Command;
  protocol_version : Z;  (* u8 *)
  destination_cid : Z;   (* u32 *)
  source_cid : Z;        (* u32 *)
}.

Definition ok (h : LongHeader) : Prop :=
  u8_ok h.(protocol_version) /\ u32_ok h.(destination_cid) /\ u32_ok h.(source_cid).

#[global] Instance ok_dec h : Decision (ok h).
Proof. unfold ok. apply _. Defined.

Definition ENCODED_SIZE : nat := 1 + 4 + 4.

Definition encode (h : LongHeader) : list byte :=
  Buf.put_u8 (Command.as_u8 h.(command)) ++
  Buf.put_u8 h.(protocol_version) ++
  Buf.put_u32 h.(destination_cid) ++
  Buf.put_u32 h.(source_cid).

Definition decode : Buf.reader (option LongHeader) :=
  let! remaining := Buf.remaining in
  if (remaining <? 1 + ENCODED_SIZE)%nat then Buf.ret None else
  let! b := Buf.get_u8 in
  match Command.from_u8 b with
  | None => Buf.ret None
  | Some command =>
      if negb (Command.is_long_header command) then Buf.ret None else
      let! protocol_version := Buf.get_u8 in
      let! destination_cid := Buf.get_u32 in
      let! source_cid := Buf.get_u32 in
      Buf.ret (Some {|
        command := command;
        protocol_version := protocol_version;
        destination_cid := destination_cid;
        source_cid := source_cid |})
  end.

Lemma long_length_encode h : length (encode h) = (1 + ENCODED_SIZE)%nat.
Proof. unfold encode. by autorewrite with kestrel. Qed.

Lemma long_decode_encode h rest :
  ok h -> Command.is_long_header h.(command) = true ->
  decode (encode h ++ rest) = Done (Some h, rest).
Proof.
  intros (? & ? & ?) Hlong. unfold decode.
  rewrite (Buf.bind_Done _ _ _ _ _ eq_refl), length_app, long_length_encode, ltb_add_l.
  pose proof (Command.as_u8_range h.(command)). unfold encode.
  read_fields. rewrite Command.from_as_u8, Hlong. cbn [negb].
  read_fields. by destruct h.
Qed.

Lemma long_decode_inv buf h rest :
  decode buf = Done (Some h, rest) ->
  buf = encode h ++ rest /\ ok h /\ Command.is_long_header h.(command) = true.
Proof.
  unfold decode. rewrite (Buf.bind_Done _ _ _ _ _ eq_refl).
  case_match_goal. intros H.
  apply Buf.bind_inv in H as (b & buf0 & Hb & H). apply Buf.get_be_inv in Hb as [-> ?].
  case_match_in H. case_match_in H. read_inv.
  injection H as <- <-. apply Command.from_u8_inv in E0 as ->.
  apply negb_false_iff in E1.
  split; [|unfold ok; simpl; split_and!; assumption].
  unfold encode; cbn -[app]. by rewrite <- !app_assoc.
Qed.

Lemma long_decode_total buf : exists r, decode buf = Done r.
Proof.
  unfold decode. rewrite (Buf.bind_Done _ _ _ _ _ eq_refl).
  destruct (Nat.ltb_spec (length buf) (1 + ENCODED_SIZE)) as [|Hl]; [by eexists|].
  apply (Buf.bind_get_be_total 1 ENCODED_SIZE); [done|]. intros b buf0 Hl0.
  case_match_goal; [|by eexists]. case_match_goal; [by eexists|].
  apply (Buf.bind_get_be_total 1 8); [done|]. intros.
  apply (Buf.bind_get_be_total 4 4); [done|]. intros.
  apply (Buf.bind_get_be_total 4 0); [done|]. intros. by eexists.
Qed.

End LongHeader.

(** ** [packet/sack.rs] *)

Module Sack.

Record SackRange := { start : Z; end_ : Z }.

#[global] Instance SackRange_eq_dec : EqDecision SackRange.
Proof. solve_decision. Defined.

Definition ok (r : SackRange) : Prop := u32_ok r.(start) /\ u32_ok r.(end_).

#[global] Instance ok_dec r : Decision (ok r).
Proof. unfold ok. apply _. Defined.

(** The sequence numbers a list of ranges stands for. *)
Definition covers (ranges : list SackRange) (seq : Z) : Prop :=
  exists r, r ∈ ranges /\ r.(start) <= seq <= r.(end_).

Lemma covers_cons r l seq :
  covers (r :: l) seq <-> r.(start) <= seq <= r.(end_) \/ covers l seq.
Proof.
  unfold covers. setoid_rewrite elem_of_cons. split.
  - intros (r' & [-> | H] & ?); [by left|right; eauto].
  - intros [H|(r' & ? & ?)]; eauto.
Qed.

Lemma covers_nil seq : ~ covers [] seq.
Proof. intros (r & H & _). by apply elem_of_nil in H. Qed.

Definition SACK_RANGE_SIZE : nat := 8.

Definition encode_sack_ranges (ranges : list SackRange) : list byte :=
  flat_map (fun range => Buf.put_u32 range.(start) ++ Buf.put_u32 range.(end_)) ranges.

(** The [while buf.remaining() >= SACK_RANGE_SIZE] loop; [fuel] bounds its
    iterations and the length of the buffer is always enough of it
    ([decode_loop_fuel]). *)
Fixpoint decode_loop (fuel : nat) (buf : list byte) (ranges : list SackRange)
  : outcome (list SackRange) :=
  if (length buf <? SACK_RANGE_SIZE)%nat then Done ranges else
  match fuel with
  | O => Panic
  | S fuel =>
      match Buf.get_u32 buf with
      | Panic => Panic
      | Done (start, buf) =>
          match Buf.get_u32 buf with
          | Panic => Panic
          | Done (end_, buf) =>
              decode_loop fuel buf (ranges ++ [{| start := start; end_ := end_ |}])
          end
      end
  end.

Definition decode_sack_ranges (buf : list byte) : outcome (list SackRange) :=
  decode_loop (length buf) buf [].

Lemma length_encode_sack_ranges ranges :
  length (encode_sack_ranges ranges) = (length ranges * SACK_RANGE_SIZE)%nat.
Proof.
  unfold encode_sack_ranges. induction ranges as [|r ranges IH]; [done|].
  cbn [flat_map]. autorewrite with kestrel. rewrite IH. simpl. lia.
Qed.

(** Enough fuel: each iteration consumes [SACK_RANGE_SIZE] bytes. *)
Lemma decode_loop_fuel fuel buf ranges :
  (length buf <= fuel)%nat -> exists r, decode_loop fuel buf ranges = Done r.
Proof.
  revert buf ranges. induction fuel as [|fuel IH]; intros buf ranges Hl; simpl.
  - destruct (Nat.ltb_spec (length buf) SACK_RANGE_SIZE) as [|H]; [by eexists|].
    unfold SACK_RANGE_SIZE in H. lia.
  - destruct (Nat.ltb_spec (length buf) SACK_RANGE_SIZE) as [|H]; [by eexists|].
    unfold SACK_RANGE_SIZE in H.
    destruct (Buf.get_be_total 4 buf) as [x Hx]; [lia|].
    unfold Buf.get_u32. rewrite Hx.
    destruct (Buf.get_be_total 4 (drop 4 buf)) as [y Hy]; [rewrite length_drop; lia|].
    rewrite Hy. apply IH. rewrite !length_drop. lia.
Qed.

Lemma decode_loop_encode ranges fuel acc tail :
  Forall ok ranges -> (length tail < SACK_RANGE_SIZE)%nat ->
  (length ranges <= fuel)%nat ->
  decode_loop fuel (encode_sack_ranges ranges ++ tail) acc = Done (acc ++ ranges).
Proof.
  intros Hok Htail. revert fuel acc.
  induction Hok as [|r ranges [Hs He] Hok IH]; intros fuel acc Hfuel.
  - apply Nat.ltb_lt in Htail. rewrite app_nil_r. destruct fuel; simpl; by rewrite Htail.
  - destruct fuel as [|fuel]; simpl in Hfuel; [lia|].
    change (encode_sack_ranges (r :: ranges))
      with ((Buf.put_u32 r.(start) ++ Buf.put_u32 r.(end_)) ++ encode_sack_ranges ranges).
    rewrite <- !app_assoc. cbn [decode_loop].
    destruct (Nat.ltb_spec (length (Buf.put_u32 (start r) ++ Buf.put_u32 (end_ r) ++
      encode_sack_ranges ranges ++ tail)) SACK_RANGE_SIZE) as [H|_].
    { rewrite !length_app in H. unfold Buf.put_u32 in H. rewrite !Buf.length_put_be in H.
      unfold SACK_RANGE_SIZE in H. lia. }
    unfold Buf.get_u32, Buf.put_u32. rewrite !Buf.get_be_put by done.
    rewrite IH by lia. rewrite <- app_assoc. by destruct r.
Qed.

Lemma decode_sack_total buf : exists ranges, decode_sack_ranges buf = Done ranges.
Proof. apply decode_loop_fuel. lia. Qed.

Lemma decode_encode_sack ranges tail :
  Forall ok ranges -> (length tail < SACK_RANGE_SIZE)%nat ->
  decode_sack_ranges (encode_sack_ranges ranges ++ tail) = Done ranges.
Proof.
  intros. apply (decode_loop_encode ranges _ [] tail); auto.
  rewrite length_app, length_encode_sack_ranges. unfold SACK_RANGE_SIZE. lia.
Qed.

Lemma decode_loop_inv fuel buf acc ranges :
  decode_loop fuel buf acc = Done ranges ->
  exists new tail, ranges = acc ++ new /\ buf = encode_sack_ranges new ++ tail /\
    (length tail < SACK_RANGE_SIZE)%nat /\ Forall ok new.
Proof.
  revert buf acc. induction fuel as [|fuel IH]; intros buf acc; simpl.
  all: destruct (Nat.ltb_spec (length buf) SACK_RANGE_SIZE) as [|_].
  1,3: intros [= <-]; exists [], buf; rewrite app_nil_r; by split_and!.
  { done. }
  destruct (Buf.get_u32 buf) as [[s buf1]|] eqn:Hs; [|done].
  destruct (Buf.get_u32 buf1) as [[e buf2]|] eqn:He; [|done].
  intros H. apply IH in H as (new & tail & -> & -> & Ht & Hok).
  apply Buf.get_be_inv in Hs as [-> ?]. apply Buf.get_be_inv in He as [-> ?].
  exists ({| start := s; end_ := e |} :: new), tail.
  rewrite <- app_assoc. unfold encode_sack_ranges. cbn [flat_map start end_].
  rewrite <- !app_assoc. split_and!; [done..|]. constructor; [by split|done].
Qed.

(** SACK payloads.  Decoding terminates without a panic on every byte
    string, and returns a list of ranges exactly when the string is the
    encoding of that list followed by fewer bytes than a range takes; in
    particular an encoded list decodes as itself. *)
Theorem decode_sack_ranges_spec buf :
  (exists ranges, decode_sack_ranges buf = Done ranges) /\
  forall ranges, decode_sack_ranges buf = Done ranges <->
    exists tail, buf = encode_sack_ranges ranges ++ tail /\
      (length tail < SACK_RANGE_SIZE)%nat /\ Forall ok ranges.
Proof.
  split; [apply decode_sack_total|]. intros ranges. split.
  - intros H. apply decode_loop_inv in H as (new & tail & -> & ? & ? & ?). eauto.
  - intros (tail & -> & ? & ?). by apply decode_encode_sack.
Qed.

End Sack.

#[global] Arguments Buf.put_be : simpl never.
#[global] Arguments ShortHeader.encode : simpl never.
#[global] Arguments LongHeader.encode : simpl never.
#[global] Arguments Sack.encode_sack_ranges : simpl never.
