(* ===== verification/Config.v ===== *)
(** * Configuration

  Models [src/config.rs]: the configuration records and their defaults.
  The one floating-point field is kept as an IEEE 754 binary32 number of
  Rocq's executable [SpecFloat] specification. *)

From Stdlib Require Import Floats.SpecFloat.
From S2P Require Import Prelude.

Module Config.

Record ReliabilityConfig := {
  initial_rto : Duration;
  min_rto : Duration;
  fast_retx_threshold : Z;             (* u16 *)
  ack_threshold : Z;                   (* u16 *)
  handshake_data_max_retries : Z;      (* u8 *)
  handshake_data_retry_interval : Duration;
  control_frame_max_retries : Z;       (* u8 *)
  control_frame_retry_interval : Duration;
  enable_layered_retransmission : bool;
}.

Record CongestionControlConfig := {
  initial_cwnd_packets : Z;            (* u32 *)
  min_cwnd_packets : Z;                (* u32 *)
  initial_ssthresh : Z;                (* u32 *)
  vegas_alpha_packets : Z;             (* u32 *)
  vegas_beta_packets : Z;              (* u32 *)
  vegas_gentle_decrease_factor : spec_float;  (* f32 *)
}.

Record ConnectionConfig := {
  max_payload_size : Z;                (* usize *)
  max_packet_size : Z;                 (* usize *)
  idle_timeout : Duration;
  send_buffer_capacity_bytes : Z;      (* usize *)
  recv_buffer_capacity_packets : Z;    (* usize *)
  drain_timeout : Duration;
  draining_cleanup_interval : Duration;
}.

Record Config := {
  protocol_version : Z;                (* u8 *)
  reliability : ReliabilityConfig;
  congestion_control : CongestionControlConfig;
  connection : ConnectionConfig;
}.

(** The binary32 literal [0.8]: the nearest of its binade to 0.8. *)
Definition f32_0_8 : spec_float := S754_finite false 13421773 (-24).

Definition default_reliability : ReliabilityConfig := {|
  initial_rto := from_millis 1000;
  min_rto := from_millis 500;
  fast_retx_threshold := 3;
  ack_threshold := 2;
  handshake_data_max_retries := 3;
  handshake_data_retry_interval := from_millis 200;
  control_frame_max_retries := 5;
  control_frame_retry_interval := from_millis 500;
  enable_layered_retransmission := true;
|}.

Definition default_congestion_control : CongestionControlConfig := {|
  initial_cwnd_packets := 32;
  min_cwnd_packets := 4;
  initial_ssthresh := u32_MAX;
  vegas_alpha_packets := 2;
  vegas_beta_packets := 4;
  vegas_gentle_decrease_factor := f32_0_8;
|}.

Definition default_connection : ConnectionConfig := {|
  max_payload_size := 1200;
  max_packet_size := 1350;
  idle_timeout := from_secs 5;
  send_buffer_capacity_bytes := 1024 * 1024;
  recv_buffer_capacity_packets := 256;
  drain_timeout := from_secs 3;
  draining_cleanup_interval := from_secs 1;
|}.

Definition default : Config := {|
  protocol_version := 1;
  reliability := default_reliability;
  congestion_control := default_congestion_control;
  connection := default_connection;
|}.

End Config.
