(* ===== verification/Frame.v ===== *)
(** * Frames

  Models [src/packet/frame.rs] (frame constructors, accessors, reliability
  modes, the wire codec) and the datagram (de)serialisation of
  [src/socket/transport/udp.rs] built on it.  The properties are the two
  directions of the codec, for one frame and for a datagram of coalesced
  frames, and that no input makes the decoder panic. *)

From S2P Require Import Prelude Packet Config.

(** ** Data *)

Module FrameType.

Inductive FrameType := Push | Syn | SynAck | Fin | PathChallenge | PathResponse.

#[global] Instance FrameType_eq_dec : EqDecision FrameType.
Proof. solve_decision. Defined.

End FrameType.

Module RetransmissionContext.

Record RetransmissionContext := {
  start_time : Instant;
  current_peer_cid : Z;     (* u32 *)
  protocol_version : Z;     (* u8 *)
  local_cid : Z;            (* u32 *)
  recv_next_sequence : Z;   (* u32 *)
  recv_window_size : Z;     (* u16 *)
}.

Definition current_timestamp (ctx : RetransmissionContext) (now : Instant) : Z :=
  as_u32 (as_millis (duration_since now ctx.(start_time))).

End RetransmissionContext.

Module Frame.

Inductive ReliabilityMode :=
| Reliable
| SimpleRetransmit (max_retries : Z) (retry_interval : Duration)
| BestEffort.

Inductive Frame :=
| Push (header : ShortHeader.ShortHeader) (payload : list byte)
| Ack (header : ShortHeader.ShortHeader) (payload : list byte)
| Ping (header : ShortHeader.ShortHeader)
| Syn (header : LongHeader.LongHeader)
| SynAck (header : LongHeader.LongHeader)
| Fin (header : ShortHeader.ShortHeader)
| PathChallenge (header : ShortHeader.ShortHeader) (challenge_data : Z)
| PathResponse (header : ShortHeader.ShortHeader) (challenge_data : Z).

(** ** Smart constructors *)

Definition new_push (peer_cid sequence_number recv_next_sequence recv_window_size timestamp : Z)
    (payload : list byte) : Frame :=
  Push {| ShortHeader.command := Command.Push;
          ShortHeader.connection_id := peer_cid;
          ShortHeader.payload_length := as_u16 (len payload);
          ShortHeader.recv_window_size := recv_window_size;
          ShortHeader.timestamp := timestamp;
          ShortHeader.sequence_number := sequence_number;
          ShortHeader.recv_next_sequence := recv_next_sequence |} payload.

Definition new_ack (peer_cid recv_next_sequence recv_window_size : Z)
    (sack_ranges : list Sack.SackRange) (timestamp : Z) : Frame :=
  let payload := Sack.encode_sack_ranges sack_ranges in
  Ack {| ShortHeader.command := Command.Ack;
         ShortHeader.connection_id := peer_cid;
         ShortHeader.payload_length := as_u16 (len payload);
         ShortHeader.recv_window_size := recv_window_size;
         ShortHeader.timestamp := timestamp;
         ShortHeader.sequence_number := 0;
         ShortHeader.recv_next_sequence := recv_next_sequence |} payload.

Definition new_ping (peer_cid sequence_number recv_next_sequence recv_window_size timestamp : Z)
    : Frame :=
  Ping {| ShortHeader.command := Command.Ping;
          ShortHeader.connection_id := peer_cid;
          ShortHeader.payload_length := 0;
          ShortHeader.recv_window_size := recv_window_size;
          ShortHeader.timestamp := timestamp;
          ShortHeader.sequence_number := sequence_number;
          ShortHeader.recv_next_sequence := recv_next_sequence |}.

Definition new_fin (peer_cid sequence_number timestamp recv_next_sequence recv_window_size : Z)
    : Frame :=
  Fin {| ShortHeader.command := Command.Fin;
         ShortHeader.connection_id := peer_cid;
         ShortHeader.payload_length := 0;
         ShortHeader.recv_window_size := recv_window_size;
         ShortHeader.timestamp := timestamp;
         ShortHeader.sequence_number := sequence_number;
         ShortHeader.recv_next_sequence := recv_next_sequence |}.

Definition new_syn (protocol_version source_cid destination_cid : Z) : Frame :=
  Syn {| LongHeader.command := Command.Syn;
         LongHeader.protocol_version := protocol_version;
         LongHeader.destination_cid := destination_cid;
         LongHeader.source_cid := source_cid |}.

Definition new_syn_ack (protocol_version source_cid destination_cid : Z) : Frame :=
  SynAck {| LongHeader.command := Command.SynAck;
            LongHeader.protocol_version := protocol_version;
            LongHeader.destination_cid := destination_cid;
            LongHeader.source_cid := source_cid |}.

Definition new_path_challenge (peer_cid sequence_number timestamp challenge_data : Z) : Frame :=
  PathChallenge
    {| ShortHeader.command := Command.PathChallenge;
       ShortHeader.connection_id := peer_cid;
       ShortHeader.payload_length := 8;
       ShortHeader.recv_window_size := 0;
       ShortHeader.timestamp := timestamp;
       ShortHeader.sequence_number := sequence_number;
       ShortHeader.recv_next_sequence := 0 |} challenge_data.

Definition new_path_response (peer_cid sequence_number timestamp challenge_data : Z) : Frame :=
  PathResponse
    {| ShortHeader.command := Command.PathResponse;
       ShortHeader.connection_id := peer_cid;
       ShortHeader.payload_length := 8;
       ShortHeader.recv_window_size := 0;
       ShortHeader.timestamp := timestamp;
       ShortHeader.sequence_number := sequence_number;
       ShortHeader.recv_next_sequence := 0 |} challenge_data.

(** ** Wire codec *)

(** The two tails of [decode], after the header has been read. *)

Definition decode_body (header : ShortHeader.ShortHeader) : Buf.reader (option Frame) :=
  let payload_len := Z.to_nat header.(ShortHeader.payload_length) in
  let! remaining := Buf.remaining in
  if (0 <? payload_len)%nat && (remaining <? payload_len)%nat then Buf.ret None else
  match header.(ShortHeader.command) with
  | Command.Push =>
      let! payload := Buf.get_slice payload_len in Buf.ret (Some (Push header payload))
  | Command.Ack =>
      let! payload := Buf.get_slice payload_len in Buf.ret (Some (Ack header payload))
  | Command.Ping => Buf.ret (Some (Ping header))
  | Command.Fin => Buf.ret (Some (Fin header))
  | Command.PathChallenge =>
      if (remaining <? 8)%nat then Buf.ret None else
      let! challenge_data := Buf.get_u64 in
      Buf.ret (Some (PathChallenge header challenge_data))
  | Command.PathResponse =>
      if (remaining <? 8)%nat then Buf.ret None else
      let! challenge_data := Buf.get_u64 in
      Buf.ret (Some (PathResponse header challenge_data))
  | _ => Buf.ret None
  end.

Definition decode_long (header : LongHeader.LongHeader) : Buf.reader (option Frame) :=
  match header.(LongHeader.command) with
  | Command.Syn => Buf.ret (Some (Syn header))
  | Command.SynAck => Buf.ret (Some (SynAck header))
  | _ => Buf.ret None
  end.

Definition decode : Buf.reader (option Frame) :=
  fun cursor =>
  match cursor with
  | [] => Done (None, cursor)
  | first :: _ =>
      match Command.from_u8 (byte.unsigned first) with
      | None => Done (None, cursor)
      | Some command =>
          if Command.is_long_header command
          then (let? header := LongHeader.decode in decode_long header) cursor
          else (let? header := ShortHeader.decode in decode_body header) cursor
      end
  end.

Definition encode (f : Frame) : list byte :=
  match f with
  | Push header payload => ShortHeader.encode header ++ payload
  | Ack header payload => ShortHeader.encode header ++ payload
  | Ping header => ShortHeader.encode header
  | Syn header => LongHeader.encode header
  | SynAck header => LongHeader.encode header
  | Fin header => ShortHeader.encode header
  | PathChallenge header challenge_data => ShortHeader.encode header ++ Buf.put_u64 challenge_data
  | PathResponse header challenge_data => ShortHeader.encode header ++ Buf.put_u64 challenge_data
  end.

(** The [debug_assert_eq!]s of [encode], which a release build drops. *)
Definition encode_asserts (f : Frame) : bool :=
  match f with
  | Push header payload => ShortHeader.payload_length header =? len payload
  | Ack header payload => ShortHeader.payload_length header =? len payload
  | Ping header => ShortHeader.payload_length header =? 0
  | Syn _ => true
  | SynAck _ => true
  | Fin header => ShortHeader.payload_length header =? 0
  | PathChallenge header _ => ShortHeader.payload_length header =? 8
  | PathResponse header _ => ShortHeader.payload_length header =? 8
  end.

(** ** Accessors *)

Definition sequence_number (f : Frame) : option Z :=
  match f with
  | Push header _ | Ack header _ | Ping header | Fin header
  | PathChallenge header _ | PathResponse header _ =>
      Some (ShortHeader.sequence_number header)
  | Syn _ | SynAck _ => None
  end.

Definition source_cid (f : Frame) : option Z :=
  match f with
  | Syn header | SynAck header => Some (LongHeader.source_cid header)
  | _ => None
  end.

Definition destination_cid (f : Frame) : Z :=
  match f with
  | Syn header | SynAck header => LongHeader.destination_cid header
  | Push header _ | Ack header _ | Fin header | Ping header
  | PathChallenge header _ | PathResponse header _ => ShortHeader.connection_id header
  end.

Definition reliability_mode (f : Frame) : ReliabilityMode :=
  match f with
  | Push _ _ => Reliable
  | Syn _ | SynAck _ | Fin _ => SimpleRetransmit 5 (from_millis 500)
  | Ack _ _ | Ping _ => BestEffort
  | PathChallenge _ _ | PathResponse _ _ => SimpleRetransmit 3 (from_millis 100)
  end.

Definition with_connection_id (header : ShortHeader.ShortHeader) (cid : Z)
    : ShortHeader.ShortHeader :=
  {| ShortHeader.command := ShortHeader.command header;
     ShortHeader.connection_id := cid;
     ShortHeader.payload_length := ShortHeader.payload_length header;
     ShortHeader.recv_window_size := ShortHeader.recv_window_size header;
     ShortHeader.timestamp := ShortHeader.timestamp header;
     ShortHeader.sequence_number := ShortHeader.sequence_number header;
     ShortHeader.recv_next_sequence := ShortHeader.recv_next_sequence header |}.

Definition update_connection_id (f : Frame) (new_connection_id : Z) : Frame :=
  match f with
  | Syn _ | SynAck _ => f
  | Push header payload => Push (with_connection_id header new_connection_id) payload
  | Ack header payload => Ack (with_connection_id header new_connection_id) payload
  | Fin header => Fin (with_connection_id header new_connection_id)
  | Ping header => Ping (with_connection_id header new_connection_id)
  | PathChallenge header d => PathChallenge (with_connection_id header new_connection_id) d
  | PathResponse header d => PathResponse (with_connection_id header new_connection_id) d
  end.

Definition reliability_mode_with_config (f : Frame) (config : Config.Config) : ReliabilityMode :=
  if negb (Config.enable_layered_retransmission (Config.reliability config)) then
    match f with
    | Ack _ _ | Ping _ => BestEffort
    | _ => Reliable
    end
  else
    match f with
    | Push _ _ => Reliable
    | Syn _ | SynAck _ | Fin _ =>
        SimpleRetransmit
          (Config.control_frame_max_retries (Config.reliability config))
          (Config.control_frame_retry_interval (Config.reliability config))
    | Ack _ _ | Ping _ => BestEffort
    | PathChallenge _ _ | PathResponse _ _ => SimpleRetransmit 3 (from_millis 100)
    end.

Definition command (f : Frame) : Command.Command :=
  match f with
  | Syn _ => Command.Syn
  | SynAck _ => Command.SynAck
  | Fin _ => Command.Fin
  | Push _ _ => Command.Push
  | Ack _ _ => Command.Ack
  | Ping _ => Command.Ping
  | PathChallenge _ _ => Command.PathChallenge
  | PathResponse _ _ => Command.PathResponse
  end.

Definition encoded_size (f : Frame) : nat :=
  let command_size := 1%nat in
  let header_size :=
    match f with
    | Syn _ | SynAck _ => LongHeader.ENCODED_SIZE
    | _ => ShortHeader.ENCODED_SIZE
    end in
  let payload_size :=
    match f with
    | Push _ payload => length payload
    | Ack _ payload => length payload
    | PathChallenge _ _ => 8%nat
    | PathResponse _ _ => 8%nat
    | Ping _ => 0%nat
    | _ => 0%nat
    end in
  (command_size + header_size + payload_size)%nat.

Definition frame_type (f : Frame) : option FrameType.FrameType :=
  match f with
  | Push _ _ => Some FrameType.Push
  | Syn _ => Some FrameType.Syn
  | SynAck _ => Some FrameType.SynAck
  | Fin _ => Some FrameType.Fin
  | PathChallenge _ _ => Some FrameType.PathChallenge
  | PathResponse _ _ => Some FrameType.PathResponse
  | _ => None
  end.

(** ** Datagrams ([udp.rs]) *)

Definition serialize_frames (frames : list Frame) : list byte := flat_map encode frames.

(** The [while !cursor.is_empty()] loop; [fuel] bounds its iterations, and
    running out of it is not a result of the code ([deserialize_loop_total]
    shows that the length of the buffer is enough). *)
Fixpoint deserialize_loop (fuel : nat) (cursor : list byte) (frames : list Frame)
  : outcome (list Frame) :=
  match cursor with
  | [] => Done frames
  | _ :: _ =>
      match fuel with
      | O => Panic
      | S fuel =>
          match decode cursor with
          | Panic => Panic
          | Done (Some frame, cursor) => deserialize_loop fuel cursor (frames ++ [frame])
          | Done (None, _) => Done frames
          end
      end
  end.

Definition deserialize_frames (buffer : list byte) : outcome (list Frame) :=
  deserialize_loop (length buffer) buffer [].

(** ** Well-formed frames

    [header_ok f]: the header has the field ranges of its struct and carries
    the command of the frame's constructor.  [ok f]: moreover the payload
    and the challenge have their Rust types and the debug assertions of
    [encode] hold. *)

Definition header_ok (f : Frame) : Prop :=
  match f with
  | Push h _ | Ack h _ | Ping h | Fin h | PathChallenge h _ | PathResponse h _ =>
      ShortHeader.ok h /\ ShortHeader.command h = command f
  | Syn h | SynAck h => LongHeader.ok h /\ LongHeader.command h = command f
  end.

Definition challenge_ok (f : Frame) : Prop :=
  match f with
  | PathChallenge _ d | PathResponse _ d => u64_ok d
  | _ => True
  end.

Definition ok (f : Frame) : Prop :=
  header_ok f /\ challenge_ok f /\ encode_asserts f = true.

#[global] Instance ok_dec f : Decision (ok f).
Proof. unfold ok, header_ok, challenge_ok. destruct f; apply _. Defined.

(** *** Lemmas about the codec *)

Lemma length_encode f : length (encode f) = encoded_size f.
Proof.
  destruct f; unfold encode, encoded_size; rewrite ?length_app;
    rewrite ?ShortHeader.short_length_encode, ?LongHeader.long_length_encode;
    unfold Buf.put_u64, ShortHeader.ENCODED_SIZE, LongHeader.ENCODED_SIZE;
    rewrite ?Buf.length_put_be; lia.
Qed.

(** The first byte of an encoded frame is the command of its header. *)
Lemma short_header_first h rest :
  exists tl, ShortHeader.encode h ++ rest = byte.of_Z (Command.as_u8 h.(ShortHeader.command)) :: tl.
Proof. by eexists. Qed.

Lemma long_header_first h rest :
  exists tl, LongHeader.encode h ++ rest = byte.of_Z (Command.as_u8 h.(LongHeader.command)) :: tl.
Proof. by eexists. Qed.

Lemma from_first_byte c : Command.from_u8 (byte.unsigned (byte.of_Z (Command.as_u8 c))) = Some c.
Proof.
  rewrite byte.unsigned_of_Z. unfold byte.wrap.
  pose proof (Command.as_u8_range c).
  rewrite Z.mod_small by assumption. apply Command.from_as_u8.
Qed.

Lemma decode_short_encode h rest :
  ShortHeader.ok h -> Command.is_long_header h.(ShortHeader.command) = false ->
  decode (ShortHeader.encode h ++ rest) = decode_body h rest.
Proof.
  intros Hok Hlong. pose proof (ShortHeader.short_decode_encode h rest Hok Hlong) as D.
  destruct (short_header_first h rest) as [tl E].
  unfold decode. rewrite E, from_first_byte, Hlong. rewrite <- E.
  unfold Buf.bind_opt. by rewrite (Buf.bind_Done _ _ _ _ _ D).
Qed.

Lemma decode_long_encode h rest :
  LongHeader.ok h -> Command.is_long_header h.(LongHeader.command) = true ->
  decode (LongHeader.encode h ++ rest) = decode_long h rest.
Proof.
  intros Hok Hlong. pose proof (LongHeader.long_decode_encode h rest Hok Hlong) as D.
  destruct (long_header_first h rest) as [tl E].
  unfold decode. rewrite E, from_first_byte, Hlong. rewrite <- E.
  unfold Buf.bind_opt. by rewrite (Buf.bind_Done _ _ _ _ _ D).
Qed.

Lemma decode_body_payload h payload rest :
  len payload = h.(ShortHeader.payload_length) ->
  let n := Z.to_nat h.(ShortHeader.payload_length) in
  ((0 <? n)%nat && (length (payload ++ rest) <? n)%nat) = false /\
  Buf.get_slice n (payload ++ rest) = Done (payload, rest).
Proof.
  intros Hl n. unfold len in Hl.
  replace n with (length payload) by (unfold n; lia).
  rewrite length_app, ltb_add_l, andb_false_r. split; [done|apply Buf.get_slice_app].
Qed.

(** Case analysis of a successful run of the decoder. *)
Lemma decode_inv_header buf f rest :
  decode buf = Done (Some f, rest) ->
  (exists h tl, buf = LongHeader.encode h ++ tl /\ LongHeader.ok h /\
     decode_long h tl = Done (Some f, rest)) \/
  (exists h tl, buf = ShortHeader.encode h ++ tl /\ ShortHeader.ok h /\
     decode_body h tl = Done (Some f, rest)).
Proof.
  unfold decode. intros H. destruct buf as [|first buf0]; [done|].
  set (buf := first :: buf0) in *. clearbody buf. repeat case_match_in H.
  - apply Buf.bind_inv in H as ([h|] & tl & D & H); [|done].
    apply LongHeader.long_decode_inv in D as (-> & ? & ?). left. eauto.
  - apply Buf.bind_inv in H as ([h|] & tl & D & H); [|done].
    apply ShortHeader.short_decode_inv in D as (-> & ? & ?). right. eauto.
Qed.

Lemma decode_body_inv h tl f rest :
  ShortHeader.ok h -> decode_body h tl = Done (Some f, rest) ->
  ShortHeader.encode h ++ tl = encode f ++ rest /\ header_ok f /\ challenge_ok f /\
  match f with Push _ p | Ack _ p => ShortHeader.payload_length h = len p | _ => True end.
Proof.
  intros Hok. assert (Hpl : u16_ok (ShortHeader.payload_length h)) by apply Hok.
  unfold decode_body. rewrite (Buf.bind_Done _ _ _ _ _ eq_refl).
  case_match_goal. clear E. case_match_goal; intros H.
  all: try (repeat case_match_in H; read_inv;
            injection H as <- <-; simpl; by rewrite <- ?app_assoc).
  all: apply Buf.bind_inv in H as (p & b & Hp & H);
       apply Buf.get_slice_inv in Hp as [-> Hl]; injection H as <- <-; cbn [encode header_ok challenge_ok command];
       rewrite <- app_assoc; unfold len, u16_ok in *; split_and!; auto; lia.
Qed.

Lemma decode_long_inv h tl f rest :
  LongHeader.ok h -> decode_long h tl = Done (Some f, rest) ->
  LongHeader.encode h ++ tl = encode f ++ rest /\ header_ok f /\ challenge_ok f.
Proof.
  intros Hok. unfold decode_long. case_match_goal; intros [= <- <-]; by split_and!.
Qed.

Lemma decode_body_total h buf : exists r, decode_body h buf = Done r.
Proof.
  unfold decode_body. rewrite (Buf.bind_Done _ _ _ _ _ eq_refl).
  set (n := Z.to_nat _). destruct (_ && _) eqn:E; [by eexists|].
  assert (Hn : (n <= length buf)%nat).
  { apply andb_false_iff in E as [E|E]; apply Nat.ltb_ge in E; lia. }
  assert (Hs : Buf.get_slice n buf = Done (take n buf, drop n buf)).
  { unfold Buf.get_slice. apply Nat.ltb_ge in Hn. by rewrite Hn. }
  case_match_goal; try (by eexists); try (unfold Buf.bind; rewrite Hs; by eexists).
  all: destruct (Nat.ltb_spec (length buf) 8) as [|H8]; [by eexists|];
       apply (Buf.bind_get_be_total 8 0); [lia|by eexists].
Qed.

Lemma decode_no_panic buf : exists r, decode buf = Done r.
Proof.
  unfold decode. destruct buf as [|first buf0]; [by eexists|].
  set (buf := first :: buf0). clearbody buf. clear buf0.
  repeat case_match_goal; try by eexists.
  - destruct (LongHeader.long_decode_total buf) as [[[h|] tl] D];
      unfold Buf.bind_opt; rewrite (Buf.bind_Done _ _ _ _ _ D); [|by eexists].
    unfold decode_long. case_match_goal; by eexists.
  - destruct (ShortHeader.short_decode_total buf) as [[[h|] tl] D];
      unfold Buf.bind_opt; rewrite (Buf.bind_Done _ _ _ _ _ D); [|by eexists].
    apply decode_body_total.
Qed.

Lemma decode_encode_ok f rest : ok f -> decode (encode f ++ rest) = Done (Some f, rest).
Proof.
  intros (Hh & Hc & Ha).
  destruct f as [h p|h p|h|h|h|h|h d|h d]; destruct Hh as [Hok Hcmd]; simpl in Ha, Hc;
    try apply Z.eqb_eq in Ha; cbn [encode]; rewrite <- ?app_assoc;
    (rewrite decode_short_encode || rewrite decode_long_encode); auto;
    try (by rewrite Hcmd);
    try (by unfold decode_long; rewrite Hcmd);
    unfold decode_body; rewrite (Buf.bind_Done _ _ _ _ _ eq_refl), Hcmd; simpl command.
  1-2: destruct (decode_body_payload h p rest) as [-> Hs]; [done|];
       by apply (Buf.bind_Done_eq _ _ _ _ _ _ Hs).
  1-2: by rewrite Ha.
  all: rewrite Ha, length_app; unfold Buf.put_u64 at 1 2; rewrite Buf.length_put_be, !ltb_add_l;
       rewrite andb_false_r; by apply (Buf.bind_Done_eq _ _ _ _ _ _ (Buf.get_be_put 8 d rest Hc)).
Qed.

Lemma decode_inv buf f rest :
  decode buf = Done (Some f, rest) ->
  buf = encode f ++ rest /\ header_ok f /\ challenge_ok f.
Proof.
  intros H. apply decode_inv_header in H as [(h & tl & -> & Hok & H)|(h & tl & -> & Hok & H)].
  - by apply decode_long_inv.
  - apply decode_body_inv in H as (? & ? & ? & _); auto.
Qed.

Lemma decode_body_more h tl f rest more :
  decode_body h tl = Done (Some f, rest) -> decode_body h (tl ++ more) = Done (Some f, rest ++ more).
Proof.
  unfold decode_body. rewrite !(Buf.bind_Done _ _ _ _ _ eq_refl), length_app.
  set (n := Z.to_nat _). intros H. destruct (_ && (length tl <? n)%nat) eqn:E; [done|].
  assert ((0 <? n)%nat && (length tl + length more <? n)%nat = false) as ->.
  { apply andb_false_iff. apply andb_false_iff in E as [E|E]; [by left|right]. apply Nat.ltb_ge. apply Nat.ltb_ge in E. lia. }
  destruct (ShortHeader.command h); try done.
  all: first
    [ by injection H as <- <-
    | apply Buf.bind_inv in H as (p & b & [-> Hp]%Buf.get_slice_inv & [= <- <-]); rewrite <- app_assoc, <- Hp;
      by rewrite (Buf.bind_Done _ _ _ _ _ (Buf.get_slice_app p (b ++ more)))
    | destruct (Nat.ltb_spec (length tl) 8); [done|]; destruct (Nat.ltb_spec (length tl + length more) 8); [lia|];
      apply Buf.bind_inv in H as (d & b & Hd & [= <- <-]); by rewrite (Buf.bind_Done _ _ _ _ _ (Buf.get_be_more _ _ _ _ more Hd)) ].
Qed.

Lemma decode_body_short h tl f rest :
  decode_body h tl = Done (Some f, rest) -> Command.is_long_header (ShortHeader.command h) = false.
Proof.
  unfold decode_body. rewrite (Buf.bind_Done _ _ _ _ _ eq_refl). destruct (_ && _); [done|].
  by destruct (ShortHeader.command h).
Qed.

(** More bytes behind a frame do not change it. *)
Lemma decode_more buf f rest more :
  decode buf = Done (Some f, rest) -> decode (buf ++ more) = Done (Some f, rest ++ more).
Proof.
  intros [(h & tl & -> & Hok & H)|(h & tl & -> & Hok & H)]%decode_inv_header; rewrite <- app_assoc.
  - unfold decode_long in H. destruct (LongHeader.command h) eqn:E; try done;
      (rewrite decode_long_encode; [unfold decode_long; rewrite E; by injection H as <- <-|done|by rewrite E]).
  - rewrite decode_short_encode; [by apply decode_body_more|done|by eapply decode_body_short].
Qed.

Lemma decode_nil : decode [] = Done (None, []).
Proof. done. Qed.

Lemma encode_nonempty f rest : encode f ++ rest <> [].
Proof.
  intros H. apply (f_equal length) in H. rewrite length_app, length_encode in H.
  unfold encoded_size in H. simpl in H. lia.
Qed.

Lemma serialize_cons f fs tail :
  serialize_frames (f :: fs) ++ tail = encode f ++ serialize_frames fs ++ tail.
Proof. unfold serialize_frames. cbn [flat_map]. by rewrite <- app_assoc. Qed.

(** A buffer on which the datagram loop stops. *)
Definition exhausted (tail : list byte) : Prop := exists r, decode tail = Done (None, r).

Lemma deserialize_loop_exhausted fuel tail acc :
  exhausted tail -> (length tail <= fuel)%nat -> deserialize_loop fuel tail acc = Done acc.
Proof.
  intros [r Hr] Hf. destruct tail as [|b tail]; [by destruct fuel|].
  destruct fuel as [|fuel]; simpl in Hf; [lia|].
  cbn [deserialize_loop]. by rewrite Hr.
Qed.

Lemma deserialize_loop_cons fuel f rest acc :
  decode (encode f ++ rest) = Done (Some f, rest) ->
  deserialize_loop (S fuel) (encode f ++ rest) acc = deserialize_loop fuel rest (acc ++ [f]).
Proof.
  intros H. destruct (encode f ++ rest) as [|b buf] eqn:E; [by apply encode_nonempty in E|].
  cbn [deserialize_loop]. by rewrite H.
Qed.

Lemma deserialize_loop_encode fs fuel tail acc :
  Forall ok fs -> exhausted tail -> (length (serialize_frames fs ++ tail) <= fuel)%nat ->
  deserialize_loop fuel (serialize_frames fs ++ tail) acc = Done (acc ++ fs).
Proof.
  intros Hok Ht. revert fuel acc. induction Hok as [|f fs Hf Hok IH]; intros fuel acc Hl.
  - rewrite app_nil_r. by apply deserialize_loop_exhausted.
  - rewrite serialize_cons in *. rewrite length_app, length_encode in Hl.
    destruct fuel as [|fuel]; [unfold encoded_size in Hl; lia|].
    rewrite deserialize_loop_cons by by apply decode_encode_ok.
    rewrite IH by (unfold encoded_size in Hl; lia). by rewrite <- app_assoc.
Qed.

(** What is decoded of the front of a datagram is the first of its frames. *)
Lemma deserialize_loop_front fuel : forall buf fs more acc frames,
  Forall ok fs -> buf ++ more = serialize_frames fs -> deserialize_loop fuel buf acc = Done frames ->
  exists k, frames = acc ++ take k fs.
Proof.
  induction fuel as [|fuel IH]; intros buf fs more acc frames Hok Hb.
  - intros H. exists 0%nat. rewrite take_0, app_nil_r. destruct buf; simpl in H; [by injection H as <-|done].
  - destruct buf as [|b buf]; cbn [deserialize_loop]; [intros [= <-]; exists 0%nat; by rewrite take_0, app_nil_r|].
    destruct (decode (b :: buf)) as [[[f|] rest]|] eqn:E; [| |done].
    2:{ intros [= <-]. exists 0%nat. by rewrite take_0, app_nil_r. }
    destruct Hok as [|g fs Hg Hfs]; [done|]. pose proof (decode_more _ _ _ more E) as Hm. rewrite Hb in Hm.
    rewrite <- (app_nil_r (serialize_frames (g :: fs))), serialize_cons, decode_encode_ok in Hm by done.
    injection Hm as <- Hm. rewrite app_nil_r in Hm. intros H. apply (IH _ fs more) in H as [k ->]; [|done..].
    exists (S k). by rewrite <- app_assoc.
Qed.

Lemma deserialize_loop_total fuel buf acc :
  (length buf <= fuel)%nat ->
  exists fs tail,
    deserialize_loop fuel buf acc = Done (acc ++ fs) /\
    buf = serialize_frames fs ++ tail /\ exhausted tail /\
    Forall (fun f => header_ok f /\ challenge_ok f) fs.
Proof.
  revert buf acc. induction fuel as [|fuel IH]; intros buf acc Hl.
  - destruct buf; simpl in Hl; [|lia]. exists [], []. rewrite app_nil_r.
    split_and!; [done..|by eexists|done].
  - destruct (decode_no_panic buf) as [[[f|] rest] D].
    + destruct (decode_inv _ _ _ D) as (-> & Hh & Hc).
      rewrite deserialize_loop_cons by done.
      rewrite length_app, length_encode in Hl. unfold encoded_size in Hl.
      destruct (IH rest (acc ++ [f])) as (fs & tail & -> & -> & Ht & Hfs); [lia|].
      exists (f :: fs), tail. rewrite serialize_cons, <- app_assoc.
      split_and!; [done..|by constructor].
    + exists [], buf. rewrite app_nil_r.
      rewrite deserialize_loop_exhausted by (done || by eexists).
      split_and!; [done..|by eexists|done].
Qed.

(** ** Properties *)

(** C8: encoding then decoding.  A well-formed frame, encoded in front of
    any other bytes, is decoded as itself and the cursor is left on exactly
    those bytes. *)
Theorem decode_encode_roundtrip f rest :
  ok f -> decode (encode f ++ rest) = Done (Some f, rest).
Proof. apply decode_encode_ok. Qed.

Lemma decode_encode_roundtrip_witness :
  let f := new_push 7 1 2 3 4 [Byte.x61; Byte.x62] in
  decode (encode f ++ [Byte.xff]) = Done (Some f, [Byte.xff]).
Proof.
  apply decode_encode_roundtrip. by_decide.
Defined.

(** Decoding then encoding.  When the decoder accepts a frame, the bytes
    it consumed are exactly the encoding of that frame, [encoded_size] of
    them, and the frame's fields are in range with the command of its
    constructor; so no two byte strings of a frame's length decode to the same frame. *)
Theorem decode_encode_inverse buf f rest :
  decode buf = Done (Some f, rest) ->
  buf = encode f ++ rest /\ header_ok f /\ challenge_ok f /\
  length buf = (encoded_size f + length rest)%nat.
Proof.
  intros H. apply decode_inv in H as (-> & ? & ?).
  by rewrite length_app, length_encode.
Qed.

Lemma decode_encode_inverse_witness :
  let buf := encode (new_path_challenge 7 1 4 99) ++ [Byte.x01] in
  buf = encode (new_path_challenge 7 1 4 99) ++ [Byte.x01] /\
  header_ok (new_path_challenge 7 1 4 99) /\ challenge_ok (new_path_challenge 7 1 4 99) /\
  length buf = (encoded_size (new_path_challenge 7 1 4 99) + length [Byte.x01])%nat.
Proof.
  intros buf. apply decode_encode_inverse. vm_compute. reflexivity.
Defined.

(** A datagram made of well-formed frames, followed by bytes that do not
    start a frame (in particular by nothing), is deserialised as exactly
    those frames in order. *)
Theorem deserialize_serialize_roundtrip fs tail :
  Forall ok fs -> exhausted tail ->
  deserialize_frames (serialize_frames fs ++ tail) = Done fs.
Proof. intros. apply (deserialize_loop_encode fs _ tail []); auto. Qed.

Lemma deserialize_serialize_roundtrip_witness :
  let fs := [new_syn_ack 1 5 6; new_push 6 0 0 256 12 [Byte.x68; Byte.x69];
             new_ack 6 3 255 [{| Sack.start := 5; Sack.end_ := 7 |}] 12] in
  deserialize_frames (serialize_frames fs ++ [Byte.x00]) = Done fs.
Proof.
  apply deserialize_serialize_roundtrip.
  - by_decide.
  - exists [Byte.x00]. vm_compute. reflexivity.
Defined.

(** C23: receiving never fails.  On every byte string the deserialisation
    loop terminates without a panic; the frames it returns are those whose
    encodings make up a prefix of the datagram, and it stops at the end or
    at the first byte that does not start a decodable frame. *)
Theorem deserialize_frames_total buffer :
  exists fs tail,
    deserialize_frames buffer = Done fs /\
    buffer = serialize_frames fs ++ tail /\ exhausted tail /\
    Forall (fun f => header_ok f /\ challenge_ok f) fs.
Proof. apply (deserialize_loop_total (length buffer) buffer []). lia. Qed.

(** The smart constructors build well-formed frames: given arguments of
    their Rust types and a payload (or SACK list) whose length fits the
    16-bit length field, each satisfies the assertions of [encode] and
    carries its own command. *)
Theorem smart_constructors_ok cid seq rns win ts ver challenge payload ranges :
  u32_ok cid -> u32_ok seq -> u32_ok rns -> u16_ok win -> u32_ok ts -> u8_ok ver ->
  u64_ok challenge -> u16_ok (len payload) -> u16_ok (8 * len ranges) ->
  ok (new_push cid seq rns win ts payload) /\ ok (new_ack cid rns win ranges ts) /\
  ok (new_ping cid seq rns win ts) /\ ok (new_fin cid seq ts rns win) /\
  ok (new_syn ver cid seq) /\ ok (new_syn_ack ver cid seq) /\
  ok (new_path_challenge cid seq ts challenge) /\ ok (new_path_response cid seq ts challenge).
Proof.
  intros Hcid Hseq Hrns Hwin Hts Hver Hch Hp Hr.
  assert (Hlen : len (Sack.encode_sack_ranges ranges) = 8 * len ranges).
  { unfold len. rewrite Sack.length_encode_sack_ranges. unfold Sack.SACK_RANGE_SIZE. lia. }
  unfold ok, header_ok, challenge_ok, ShortHeader.ok, LongHeader.ok.
  cbn -[u8_ok u16_ok u32_ok u64_ok len Z.eqb as_u16]. rewrite Hlen.
  rewrite (as_u16_id (len payload)), (as_u16_id (8 * len ranges)), !Z.eqb_refl by done.
  split_and!; done.
Qed.

Lemma smart_constructors_ok_witness :
  ok (new_push 1 2 3 4 5 [Byte.x61]) /\ ok (new_ack 1 3 4 [{| Sack.start := 5; Sack.end_ := 7 |}] 5) /\
  ok (new_ping 1 2 3 4 5) /\ ok (new_fin 1 2 5 3 4) /\
  ok (new_syn 1 1 2) /\ ok (new_syn_ack 1 1 2) /\
  ok (new_path_challenge 1 2 5 77) /\ ok (new_path_response 1 2 5 77).
Proof. apply smart_constructors_ok; by_decide. Defined.

(** The length field is 16 bits wide and [new_push] truncates: a
    constructed PUSH frame satisfies the assertion of [encode] exactly when
    its payload is shorter than 65536 bytes. *)
Theorem new_push_assert_iff cid seq rns win ts payload :
  encode_asserts (new_push cid seq rns win ts payload) = true <-> len payload < 2 ^ 16.
Proof.
  unfold encode_asserts, new_push, as_u16. cbn [ShortHeader.payload_length].
  rewrite Z.eqb_eq. pose proof (len_nonneg payload).
  rewrite Z.mod_small_iff by done. lia.
Qed.

End Frame.
