(* ===== verification/SendBuffer.v ===== *)
(** * Send buffer

    Models [src/core/reliability/send_buffer.rs]: the queue of byte chunks
    the user stream has written and that have not been packetized yet.  The
    specification is a bounded FIFO of bytes ([content]); [run_conserves]
    shows that the operations implement it. *)

From S2P Require Import Prelude.

Module SendBuffer.

Record SendBuffer := {
  stream_buffer : list (list byte);   (* VecDeque<Bytes> *)
  stream_buffer_size : Z;             (* usize *)
  stream_buffer_capacity : Z;         (* usize *)
}.

(** ** Operations *)

Definition new (capacity_bytes : Z) : SendBuffer :=
  {| stream_buffer := []; stream_buffer_size := 0; stream_buffer_capacity := capacity_bytes |}.

Definition write_to_stream (sb : SendBuffer) (buf : list byte) : SendBuffer * Z :=
  let space_available := saturating_sub sb.(stream_buffer_capacity) sb.(stream_buffer_size) in
  if space_available =? 0 then (sb, 0)
  else
    let bytes_to_write := Z.min (len buf) space_available in
    let chunk := if bytes_to_write <? len buf then take (Z.to_nat bytes_to_write) buf else buf in
    ({| stream_buffer := sb.(stream_buffer) ++ [chunk];
        stream_buffer_size := sb.(stream_buffer_size) + bytes_to_write;
        stream_buffer_capacity := sb.(stream_buffer_capacity) |}, bytes_to_write).

(** The recursion of [create_chunk] on the queue: the chunk, if any, and the
    queue that is left.  A front chunk of which nothing would be taken is
    popped. *)
Fixpoint take_chunk (queue : list (list byte)) (max_size : Z)
  : option (list byte) * list (list byte) :=
  match queue with
  | [] => (None, [])
  | first_chunk :: rest =>
      let chunk_size := Z.min (len first_chunk) max_size in
      if chunk_size =? 0 then take_chunk rest max_size
      else if len first_chunk <=? chunk_size then (Some first_chunk, rest)
      else (Some (take (Z.to_nat chunk_size) first_chunk),
            drop (Z.to_nat chunk_size) first_chunk :: rest)
  end.

Definition create_chunk (sb : SendBuffer) (max_size : Z) : SendBuffer * option (list byte) :=
  let '(chunk, queue) := take_chunk sb.(stream_buffer) max_size in
  ({| stream_buffer := queue;
      stream_buffer_size :=
        sb.(stream_buffer_size) - match chunk with Some c => len c | None => 0 end;
      stream_buffer_capacity := sb.(stream_buffer_capacity) |}, chunk).

Definition take_stream_buffer (sb : SendBuffer) : SendBuffer * list (list byte) :=
  ({| stream_buffer := []; stream_buffer_size := 0;
      stream_buffer_capacity := sb.(stream_buffer_capacity) |}, sb.(stream_buffer)).

Definition is_stream_buffer_empty (sb : SendBuffer) : bool :=
  match sb.(stream_buffer) with [] => true | _ => false end.

(** ** The bytes queued, and the invariant *)

Definition content (sb : SendBuffer) : list byte := concat sb.(stream_buffer).

Record wf (sb : SendBuffer) : Prop := {
  wf_size : sb.(stream_buffer_size) = len (content sb);
  wf_capacity : sb.(stream_buffer_size) <= sb.(stream_buffer_capacity);
}.

Lemma new_buffer_wf cap : 0 <= cap -> wf (new cap).
Proof. intros. by constructor. Qed.

Lemma take_chunk_spec queue max_size :
  0 < max_size ->
  let '(chunk, queue') := take_chunk queue max_size in
  match chunk with
  | Some c => concat queue = c ++ concat queue' /\ 0 < len c <= max_size
  | None => concat queue = [] /\ queue' = []
  end.
Proof.
  intros Hmax. induction queue as [|first rest IH]; [done|]. cbn [take_chunk].
  pose proof (len_nonneg first).
  destruct (Z.eqb_spec (Z.min (len first) max_size) 0) as [E|E].
  { assert (first = []) as -> by (destruct first; [done|rewrite len_cons in E; pose proof (len_nonneg first); lia]).
    done. }
  destruct (Z.leb_spec (len first) (Z.min (len first) max_size)).
  - split; [done|lia].
  - cbn [concat]. rewrite app_assoc, take_drop. split; [done|].
    unfold len in *. rewrite length_take. lia.
Qed.

Lemma create_chunk_spec sb max_size :
  wf sb -> 0 < max_size ->
  let '(sb', chunk) := create_chunk sb max_size in
  wf sb' /\ stream_buffer_capacity sb' = stream_buffer_capacity sb /\
  match chunk with
  | Some c => content sb = c ++ content sb' /\ 0 < len c <= max_size
  | None => content sb = [] /\ stream_buffer sb' = []
  end.
Proof.
  intros [Hsz Hcap] Hmax. unfold create_chunk.
  pose proof (take_chunk_spec (stream_buffer sb) max_size Hmax) as H.
  destruct (take_chunk (stream_buffer sb) max_size) as [[c|] q]; destruct H as [H1 H2];
    unfold content in *; rewrite H1 in *.
  - rewrite len_app in Hsz. split_and!; try done; try lia. constructor; unfold content; simpl; lia.
  - subst q. split_and!; try done. constructor; unfold content; simpl in *; lia.
Qed.

Lemma write_to_stream_spec sb buf :
  wf sb ->
  let '(sb', n) := write_to_stream sb buf in
  wf sb' /\ stream_buffer_capacity sb' = stream_buffer_capacity sb /\
  n = Z.min (len buf) (stream_buffer_capacity sb - stream_buffer_size sb) /\
  content sb' = content sb ++ take (Z.to_nat n) buf.
Proof.
  intros [Hsz Hcap]. unfold write_to_stream, saturating_sub. pose proof (len_nonneg buf) as Hb.
  destruct (Z.eqb_spec (Z.max 0 (stream_buffer_capacity sb - stream_buffer_size sb)) 0) as [E0|E0].
  { simpl. rewrite take_0, app_nil_r. split_and!; [done..|lia|done]. }
  rewrite (Z.max_r 0) by lia.
  set (n := Z.min (len buf) (stream_buffer_capacity sb - stream_buffer_size sb)).
  assert (E : (if n <? len buf then take (Z.to_nat n) buf else buf) = take (Z.to_nat n) buf).
  { destruct (Z.ltb_spec n (len buf)); [done|]. rewrite firstn_all2; [done|]. unfold len in *; lia. }
  rewrite E.
  assert (Ec : content {| stream_buffer := stream_buffer sb ++ [take (Z.to_nat n) buf];
     stream_buffer_size := stream_buffer_size sb + n;
     stream_buffer_capacity := stream_buffer_capacity sb |} = content sb ++ take (Z.to_nat n) buf).
  { unfold content. simpl. by rewrite concat_app, concat_cons, concat_nil, app_nil_r. }
  split_and!; [|done..]. constructor; [|simpl; lia].
  rewrite Ec, len_app. simpl. rewrite Hsz. f_equal. unfold len in *. rewrite length_take. lia.
Qed.

(** ** Specification: a bounded byte FIFO *)

Inductive op :=
| Write (buf : list byte)
| Chunk (max_size : Z)
| TakeAll.

(** Run the operations, collecting the bytes accepted by the writes and the
    bytes handed out. *)
Definition step (st : SendBuffer * list byte * list byte) (o : op) : SendBuffer * list byte * list byte :=
  let '(sb, accepted, out) := st in
  match o with
  | Write buf =>
      let '(sb, n) := write_to_stream sb buf in (sb, accepted ++ take (Z.to_nat n) buf, out)
  | Chunk max_size =>
      let '(sb, c) := create_chunk sb max_size in (sb, accepted, out ++ from_option id [] c)
  | TakeAll => let '(sb, cs) := take_stream_buffer sb in (sb, accepted, out ++ concat cs)
  end.

Definition op_ok (o : op) : Prop := match o with Chunk max_size => 0 < max_size | _ => True end.

Definition run (cap : Z) (ops : list op) : SendBuffer * list byte * list byte :=
  fold_left step ops (new cap, [], []).

Definition fifo (cap : Z) (st : SendBuffer * list byte * list byte) : Prop :=
  let '(sb, accepted, out) := st in
  wf sb /\ stream_buffer_capacity sb = cap /\ accepted = out ++ content sb.

Lemma step_fifo cap st o : op_ok o -> fifo cap st -> fifo cap (step st o).
Proof.
  destruct st as [[sb accepted] out]. intros Ho (Hwf & Hcap & Hacc). destruct o as [buf|m|]; simpl.
  - pose proof (write_to_stream_spec sb buf Hwf) as H.
    destruct (write_to_stream sb buf) as [sb' n]. destruct H as (? & ? & _ & Hc).
    split_and!; [done|congruence|]. by rewrite Hacc, Hc, app_assoc.
  - pose proof (create_chunk_spec sb m Hwf Ho) as H.
    destruct (create_chunk sb m) as [sb' [c|]]; destruct H as (? & ? & Hc & Hr);
      (split_and!; [done|congruence|]); rewrite Hacc, Hc; simpl.
    + by rewrite app_assoc.
    + unfold content. by rewrite Hr, !app_nil_r.
  - destruct Hwf as [Hsz ?]. unfold content in *. split_and!; [|done|].
    + constructor; simpl; [done|]. pose proof (len_nonneg (concat (stream_buffer sb))). lia.
    + simpl. by rewrite Hacc, app_nil_r.
Qed.

Lemma run_fifo cap ops : 0 <= cap -> Forall op_ok ops -> fifo cap (run cap ops).
Proof.
  intros Hcap Hops. unfold run.
  assert (H : fifo cap (new cap, [], [])) by (split_and!; [by apply new_buffer_wf|done..]).
  revert H. generalize (new cap, @nil byte, @nil byte).
  induction Hops as [|o ops Ho Hops IH]; simpl; intros st H; [done|].
  apply IH. by apply step_fifo.
Qed.

(** ** Properties *)

(** Byte conservation.  After any sequence of writes, chunk extractions
    (of a positive maximum) and drains, the bytes the writes reported as
    accepted are, in order, exactly those handed out followed by those still
    queued; the recorded size is the number queued, within the capacity. *)
Theorem run_conserves cap ops :
  0 <= cap -> Forall op_ok ops ->
  let '(sb, accepted, out) := run cap ops in
  accepted = out ++ content sb /\ stream_buffer_size sb = len (content sb) /\
  len (content sb) <= cap.
Proof.
  intros Hcap Hops. pose proof (run_fifo cap ops Hcap Hops) as H.
  destruct (run cap ops) as [[sb accepted] out]. destruct H as ([Hs Hle] & Hc & Ha).
  split_and!; [done..|lia].
Qed.

Lemma run_conserves_witness :
  let '(sb, accepted, out) :=
    run 4 [Write [Byte.x61; Byte.x62; Byte.x63]; Write []; Chunk 2; Write [Byte.x64; Byte.x65; Byte.x66; Byte.x67]; Chunk 10] in
  accepted = out ++ content sb /\ stream_buffer_size sb = len (content sb) /\
  len (content sb) <= 4.
Proof. apply (run_conserves 4); [lia|repeat constructor]. Defined.

(** [create_chunk] on a well-formed buffer with a positive maximum.  It
    takes a non-empty prefix of the queued bytes of at most the maximum, and
    returns nothing exactly when no byte is queued. *)
Theorem create_chunk_prefix sb max_size :
  wf sb -> 0 < max_size ->
  let '(sb', chunk) := create_chunk sb max_size in
  wf sb' /\ (chunk = None <-> content sb = []) /\
  forall c, chunk = Some c -> content sb = c ++ content sb' /\ 0 < len c <= max_size.
Proof.
  intros Hwf Hmax. pose proof (create_chunk_spec sb max_size Hwf Hmax) as H.
  destruct (create_chunk sb max_size) as [sb' [c|]]; destruct H as (? & ? & Hc & Hr).
  - split_and!; [done| |intros ? [= <-]; done].
    split; [done|]. intros E. rewrite E in Hc. destruct c; [unfold len in Hr; simpl in Hr; lia|done].
  - split_and!; [done|done|done].
Qed.

Lemma create_chunk_prefix_witness :
  let sb := (write_to_stream (new 100) [Byte.x61; Byte.x62; Byte.x63]).1 in
  let '(sb', chunk) := create_chunk sb 2 in
  wf sb' /\ (chunk = None <-> content sb = []) /\
  forall c, chunk = Some c -> content sb = c ++ content sb' /\ 0 < len c <= 2.
Proof. apply create_chunk_prefix; [constructor; vm_compute; done|lia]. Defined.

(** With a maximum of zero, [create_chunk] discards the whole queue and
    returns nothing, but leaves the recorded size as it was: the discarded
    bytes keep occupying the capacity. *)
Theorem create_chunk_zero_discards sb :
  create_chunk sb 0 =
    ({| stream_buffer := []; stream_buffer_size := stream_buffer_size sb;
        stream_buffer_capacity := stream_buffer_capacity sb |}, None).
Proof.
  unfold create_chunk.
  assert (H : take_chunk (stream_buffer sb) 0 = (None, [])).
  { induction (stream_buffer sb) as [|c q IH]; [done|]. cbn [take_chunk].
    rewrite Z.min_r by apply len_nonneg. done. }
  rewrite H. by rewrite Z.sub_0_r.
Qed.

End SendBuffer.
