(* ===== verification/RecvBuffer.v ===== *)
(** * Receive buffer

    Models [src/core/reliability/recv_buffer.rs]: out-of-order buffering of
    PUSH and FIN packets, in-order reassembly and SACK range generation.

    The specification is a sender that numbers its data packets from 0 and
    ends with a FIN ([Stream]): whatever the order, the duplication and the
    loss of its packets ([run]), what the buffer hands over is a prefix of
    the stream ([delivery_safe]), and the whole of it with the FIN once every
    packet has arrived ([delivery_complete]). *)

From S2P Require Import Prelude BTreeMap Packet.

Module ReceiveBuffer.

Inductive PacketOrFin :=
| Push (payload : list byte)
| Fin.

Record ReceiveBuffer := {
  next_sequence : Z;                  (* u32 *)
  received : gmap Z PacketOrFin;      (* BTreeMap<u32, PacketOrFin> *)
  capacity : Z;                       (* usize, in packets *)
  fin_reached : bool;
}.

Definition with_received (rb : ReceiveBuffer) (m : gmap Z PacketOrFin) : ReceiveBuffer :=
  {| next_sequence := rb.(next_sequence); received := m;
     capacity := rb.(capacity); fin_reached := rb.(fin_reached) |}.

(** ** Operations *)

Definition new (capacity_packets : Z) : ReceiveBuffer :=
  {| next_sequence := 0; received := ∅; capacity := capacity_packets; fin_reached := false |}.

Definition default : ReceiveBuffer := new 256.

Definition window_size (rb : ReceiveBuffer) : Z :=
  as_u16 (saturating_sub rb.(capacity) (BTreeMap.map_len rb.(received))).

Definition is_empty (rb : ReceiveBuffer) : bool := bool_decide (rb.(received) = ∅).

(** The common body of [receive_push] and [receive_fin]. *)
Definition receive_packet (rb : ReceiveBuffer) (sequence_number : Z) (p : PacketOrFin)
  : ReceiveBuffer * bool :=
  if rb.(fin_reached) || (sequence_number <? rb.(next_sequence)) then (rb, false)
  else
    match rb.(received) !! sequence_number with
    | None => (with_received rb (<[sequence_number := p]> rb.(received)), true)
    | Some _ => (rb, false)
    end.

Definition receive_push (rb : ReceiveBuffer) (sequence_number : Z) (payload : list byte)
  : ReceiveBuffer * bool := receive_packet rb sequence_number (Push payload).

Definition receive_fin (rb : ReceiveBuffer) (sequence_number : Z) : ReceiveBuffer * bool :=
  receive_packet rb sequence_number Fin.

Definition try_pop_next_contiguous (rb : ReceiveBuffer) : ReceiveBuffer * option PacketOrFin :=
  match BTreeMap.first_key_value rb.(received) with
  | Some (seq, packet) =>
      if seq =? rb.(next_sequence) then
        ({| next_sequence := as_u32 (rb.(next_sequence) + 1);
            received := delete seq rb.(received);
            capacity := rb.(capacity); fin_reached := rb.(fin_reached) |}, Some packet)
      else (rb, None)
  | None => (rb, None)
  end.

(** The [while let] loop of [reassemble].  Each iteration removes a packet, so
    [fuel] equal to the number of buffered packets lets it run to its end
    ([reassemble_loop_stops]). *)
Fixpoint reassemble_loop (fuel : nat) (rb : ReceiveBuffer) (reassembled_data : list (list byte))
  : ReceiveBuffer * list (list byte) * bool :=
  match fuel with
  | O => (rb, reassembled_data, false)
  | S fuel =>
      match try_pop_next_contiguous rb with
      | (rb, Some (Push payload)) => reassemble_loop fuel rb (reassembled_data ++ [payload])
      | (rb, Some Fin) =>
          ({| next_sequence := rb.(next_sequence); received := ∅;
              capacity := rb.(capacity); fin_reached := true |}, reassembled_data, true)
      | (rb, None) => (rb, reassembled_data, false)
      end
  end.

Definition reassemble (rb : ReceiveBuffer) : ReceiveBuffer * (option (list (list byte)) * bool) :=
  if rb.(fin_reached) then (rb, (None, false))
  else
    let '(rb', reassembled_data, fin_seen) := reassemble_loop (size rb.(received)) rb [] in
    let data_option := match reassembled_data with [] => None | _ => Some reassembled_data end in
    (rb', (data_option, fin_seen)).

(** One iteration of the loop of [get_sack_ranges] over the keys. *)
Definition sack_step (st : option Sack.SackRange * list Sack.SackRange) (seq : Z)
  : option Sack.SackRange * list Sack.SackRange :=
  let '(current_range, ranges) := st in
  match current_range with
  | Some range =>
      if seq =? as_u32 (range.(Sack.end_) + 1)
      then (Some {| Sack.start := range.(Sack.start); Sack.end_ := seq |}, ranges)
      else (Some {| Sack.start := seq; Sack.end_ := seq |}, ranges ++ [range])
  | None => (Some {| Sack.start := seq; Sack.end_ := seq |}, ranges)
  end.

Definition get_sack_ranges (rb : ReceiveBuffer) : list Sack.SackRange :=
  let '(current_range, ranges) := fold_left sack_step (BTreeMap.keys rb.(received)) (None, []) in
  match current_range with Some range => ranges ++ [range] | None => ranges end.

(** ** SACK ranges *)

(** Ascending, non-empty ranges with a gap between any two of them: the
    shortest list of ranges for the set it Sack.covers. *)
Inductive separated : list Sack.SackRange -> Prop :=
| separated_nil : separated []
| separated_one r : r.(Sack.start) <= r.(Sack.end_) -> separated [r]
| separated_cons r r' l :
    r.(Sack.start) <= r.(Sack.end_) -> r.(Sack.end_) + 1 < r'.(Sack.start) ->
    separated (r' :: l) -> separated (r :: r' :: l).

Definition finish (st : option Sack.SackRange * list Sack.SackRange) : list Sack.SackRange :=
  let '(cur, ranges) := st in match cur with Some r => ranges ++ [r] | None => ranges end.

(** The loop from a current range [r] over ascending keys beyond it. *)
Lemma sack_scan ks r acc :
  r.(Sack.start) <= r.(Sack.end_) -> StronglySorted Z.lt (r.(Sack.end_) :: ks) ->
  Forall u32_ok (r.(Sack.end_) :: ks) ->
  exists r' l, finish (fold_left sack_step ks (Some r, acc)) = acc ++ r' :: l /\
    r'.(Sack.start) = r.(Sack.start) /\ separated (r' :: l) /\
    forall seq, Sack.covers (r' :: l) seq <-> r.(Sack.start) <= seq <= r.(Sack.end_) \/ seq ∈ ks.
Proof.
  revert r acc. induction ks as [|k ks IH]; intros r acc Hr Hs Hu.
  - exists r, []. split_and!; [done..|by constructor|]. intros seq.
    rewrite Sack.covers_cons, elem_of_nil. pose proof (Sack.covers_nil seq). tauto.
  - apply StronglySorted_inv in Hs as [Hs Hlt]. apply Forall_cons in Hlt as [Hk Hlt].
    apply Forall_cons in Hu as [Hu Hus]. pose proof (proj1 (Forall_cons _ _ _) Hus) as [Huk _].
    cbn [fold_left sack_step]. unfold u32_ok in *.
    destruct (Z.eqb_spec k (as_u32 (Sack.end_ r + 1))) as [->|Hne].
    + assert (E : as_u32 (Sack.end_ r + 1) = Sack.end_ r + 1)
        by (apply as_u32_id; unfold u32_ok; lia).
      rewrite E in *.
      edestruct (IH {| Sack.start := Sack.start r; Sack.end_ := Sack.end_ r + 1 |} acc)
        as (r' & l & H1 & H2 & H3 & H4); simpl; [lia|done..|].
      exists r', l. split_and!; [done..|]. intros seq. rewrite H4, elem_of_cons. simpl. intuition lia.
    + assert (Hgap : Sack.end_ r + 1 < k).
      { unfold as_u32 in Hne. rewrite Z.mod_small in Hne by lia. lia. }
      edestruct (IH {| Sack.start := k; Sack.end_ := k |} (acc ++ [r]))
        as (r' & l & H1 & H2 & H3 & H4); simpl; [lia|done..|].
      exists r, (r' :: l). rewrite H1, <- app_assoc. split_and!; [done..| |].
      * constructor; [done| |done]. simpl in H2. lia.
      * intros seq. rewrite Sack.covers_cons, H4, elem_of_cons. simpl. intuition lia.
Qed.

Lemma finish_covers ks :
  StronglySorted Z.lt ks -> Forall u32_ok ks ->
  separated (finish (fold_left sack_step ks (None, []))) /\
  forall seq, Sack.covers (finish (fold_left sack_step ks (None, []))) seq <-> seq ∈ ks.
Proof.
  destruct ks as [|k ks]; intros Hs Hu.
  - split; [constructor|]. intros seq. rewrite elem_of_nil. split; [apply Sack.covers_nil|done].
  - cbn [fold_left sack_step].
    destruct (sack_scan ks {| Sack.start := k; Sack.end_ := k |} [])
      as (r' & l & -> & _ & Hsep & Hc); simpl; [lia|done..|].
    split; [done|]. intros seq. rewrite Hc, elem_of_cons. simpl. intuition lia.
Qed.

(** ** The invariant

    Buffered sequence numbers are never behind [next_sequence], and nothing
    is buffered once the FIN has been processed. *)

Record wf (rb : ReceiveBuffer) : Prop := {
  wf_next : u32_ok rb.(next_sequence);
  wf_keys : forall k p, rb.(received) !! k = Some p -> rb.(next_sequence) <= k /\ u32_ok k;
  wf_fin : rb.(fin_reached) = true -> rb.(received) = ∅;
}.

Lemma new_wf cap : wf (new cap).
Proof. constructor; simpl; [done|intros ? ? H; by rewrite lookup_empty in H|done]. Qed.

Lemma receive_packet_wf rb seq p : wf rb -> u32_ok seq -> wf (receive_packet rb seq p).1.
Proof.
  intros Hwf Hs. unfold receive_packet. repeat case_match; simpl; [done..|].
  destruct Hwf as [Hn Hk Hf]. apply orb_false_iff in H as [Ef Hlt]. apply Z.ltb_ge in Hlt.
  constructor; simpl; [done| |by rewrite Ef].
  intros k q Hq. apply lookup_insert_Some in Hq as [[<- _]|[_ Hq]]; [by split|eauto].
Qed.

Definition popped (rb : ReceiveBuffer) : ReceiveBuffer :=
  {| next_sequence := as_u32 (rb.(next_sequence) + 1);
     received := delete rb.(next_sequence) rb.(received);
     capacity := rb.(capacity); fin_reached := rb.(fin_reached) |}.

Lemma try_pop_spec rb :
  wf rb ->
  try_pop_next_contiguous rb =
    match rb.(received) !! rb.(next_sequence) with
    | Some packet => (popped rb, Some packet)
    | None => (rb, None)
    end.
Proof.
  intros [_ Hk _]. unfold try_pop_next_contiguous.
  destruct (BTreeMap.first_key_value (received rb)) as [[seq p]|] eqn:E.
  - apply BTreeMap.first_key_value_Some in E as [E Hmin].
    destruct (Z.eqb_spec seq (next_sequence rb)) as [->|Hne]; [by rewrite E|].
    destruct (received rb !! next_sequence rb) as [q|] eqn:Eq; [|done].
    apply Hmin in Eq. apply Hk in E. lia.
  - unfold BTreeMap.first_key_value in E.
    destruct (BTreeMap.entries (received rb)) as [|x l] eqn:El; [|done].
    apply BTreeMap.entries_nil_inv in El as ->. by rewrite lookup_empty.
Qed.

Lemma popped_wf rb p : wf rb -> rb.(received) !! rb.(next_sequence) = Some p -> wf (popped rb).
Proof.
  intros [Hn Hk Hf] Hp. constructor; simpl.
  - apply as_u32_ok.
  - intros k q Hq. apply lookup_delete_Some in Hq as [Hne Hq]. apply Hk in Hq as [Hle Hu].
    split; [|done]. unfold u32_ok in *. rewrite as_u32_id by (unfold u32_ok; lia). lia.
  - intros Hfin. rewrite (Hf Hfin) in Hp. by rewrite lookup_empty in Hp.
Qed.

(** What the reassembly loop consumes: the payloads buffered at [n], [n+1], ... *)
Definition contiguous (m : gmap Z PacketOrFin) (n : Z) (d : list (list byte)) : Prop :=
  forall i x, d !! i = Some x -> m !! (n + Z.of_nat i) = Some (Push x).

Lemma contiguous_cons m n x d :
  contiguous m n (x :: d) <-> m !! n = Some (Push x) /\ contiguous m (n + 1) d.
Proof.
  unfold contiguous. split.
  - intros H. split; [specialize (H 0%nat x eq_refl); by rewrite Z.add_0_r in H|].
    intros i y Hy. specialize (H (S i) y Hy). rewrite <- H. f_equal. lia.
  - intros [H0 H] [|i] y Hy; simpl in Hy.
    + injection Hy as <-. by rewrite Z.add_0_r.
    + rewrite <- (H i y Hy). f_equal. lia.
Qed.

(** The loop with enough fuel, and no packet at the top of the sequence space. *)
Lemma reassemble_loop_spec fuel rb acc :
  wf rb -> rb.(fin_reached) = false -> (size rb.(received) <= fuel)%nat ->
  rb.(received) !! u32_MAX = None ->
  exists d rb' fin, reassemble_loop fuel rb acc = (rb', acc ++ d, fin) /\ wf rb' /\
    contiguous rb.(received) rb.(next_sequence) d /\
    rb'.(capacity) = rb.(capacity) /\ rb'.(fin_reached) = fin /\
    let n' := rb.(next_sequence) + len d in
    if fin then rb.(received) !! n' = Some Fin
    else rb'.(next_sequence) = n' /\ rb.(received) !! n' = None /\
      forall k, n' <= k -> rb'.(received) !! k = rb.(received) !! k.
Proof.
  revert rb acc. induction fuel as [|fuel IH]; intros rb acc Hwf Hf Hsz Hmax.
  - assert (E : received rb = ∅) by (apply map_size_empty_iff; lia).
    exists [], rb, false. cbn [reassemble_loop]. rewrite app_nil_r. unfold len; simpl.
    rewrite Z.add_0_r, E, lookup_empty. split_and!; done.
  - cbn [reassemble_loop]. rewrite try_pop_spec by done.
    destruct (received rb !! next_sequence rb) as [[x|]|] eqn:E.
    + assert (Hn : next_sequence rb + 1 < 2 ^ 32).
      { pose proof (wf_keys _ Hwf _ _ E) as [_ Hu]. unfold u32_ok, u32_MAX in *.
        destruct (decide (next_sequence rb = 2 ^ 32 - 1)) as [Eq|]; [|lia].
        exfalso. congruence. }
      assert (Hnext : next_sequence (popped rb) = next_sequence rb + 1).
      { simpl. apply as_u32_id. destruct (wf_next _ Hwf). unfold u32_ok. lia. }
      edestruct (IH (popped rb) (acc ++ [x])) as (d & rb' & fin & H1 & H2 & H3 & H4 & H5 & H6).
      * by eapply popped_wf.
      * done.
      * simpl. rewrite map_size_delete_Some by eauto. lia.
      * simpl. rewrite lookup_delete_None. by right.
      * exists (x :: d), rb', fin. rewrite H1, <- app_assoc. rewrite Hnext in *.
        assert (Hd : forall k, next_sequence rb < k ->
          received (popped rb) !! k = received rb !! k).
        { intros k Hk. simpl. by rewrite lookup_delete_ne by lia. }
        pose proof (len_nonneg d). rewrite len_cons.
        replace (next_sequence rb + (1 + len d)) with (next_sequence rb + 1 + len d) by lia.
        split_and!; try done.
        -- apply contiguous_cons. split; [done|]. intros i y Hy. rewrite <- Hd by lia. auto.
        -- cbv zeta in H6. destruct fin; rewrite Hd in H6 by lia; [done|].
           destruct H6 as (? & ? & H6). split_and!; try done.
           intros k Hk. rewrite <- Hd by lia. auto.
    + exists [], {| next_sequence := next_sequence (popped rb); received := ∅;
                    capacity := capacity (popped rb); fin_reached := true |}, true.
      rewrite app_nil_r. unfold len; simpl. rewrite Z.add_0_r. split_and!; try done.
      constructor; simpl; [apply as_u32_ok|intros ? ? H; by rewrite lookup_empty in H|done].
    + exists [], rb, false. rewrite app_nil_r. unfold len; simpl. rewrite Z.add_0_r.
      split_and!; try done.
Qed.

(** ** Specification: delivery of one stream

    The peer sends the payloads [ds] in packets 0, 1, ..., [len ds - 1] and a
    FIN numbered [len ds].  An [event] is the arrival of one of those packets
    (in any order, any number of times) or a call of [reassemble] by the
    endpoint; a [receiver] is the buffer with all it has handed over so far. *)

Inductive event :=
| Arrive (seq : Z)
| Reassemble.

Record receiver := {
  buffer : ReceiveBuffer;
  delivered : list (list byte);
  closed : bool;
}.

Definition stream_packet (ds : list (list byte)) (seq : Z) : option PacketOrFin :=
  if seq <? 0 then None else
  match ds !! Z.to_nat seq with
  | Some d => Some (Push d)
  | None => if seq =? len ds then Some Fin else None
  end.

Definition deliver (r : receiver) : receiver :=
  let '(rb, (data, fin)) := reassemble r.(buffer) in
  {| buffer := rb; delivered := r.(delivered) ++ from_option id [] data; closed := r.(closed) || fin |}.

Definition step (ds : list (list byte)) (r : receiver) (ev : event) : receiver :=
  match ev with
  | Arrive seq =>
      let rb :=
        match stream_packet ds seq with
        | Some (Push d) => (receive_push r.(buffer) seq d).1
        | Some Fin => (receive_fin r.(buffer) seq).1
        | None => r.(buffer)
        end in
      {| buffer := rb; delivered := r.(delivered); closed := r.(closed) |}
  | Reassemble => deliver r
  end.

Definition start (cap : Z) : receiver :=
  {| buffer := new cap; delivered := []; closed := false |}.

Definition run (ds : list (list byte)) (cap : Z) (evs : list event) : receiver :=
  fold_left (step ds) evs (start cap).

Section stream.
Context (ds : list (list byte)) (Hds : len ds < u32_MAX).

Lemma stream_packet_Push seq d :
  stream_packet ds seq = Some (Push d) <-> 0 <= seq /\ ds !! Z.to_nat seq = Some d.
Proof.
  unfold stream_packet. destruct (Z.ltb_spec seq 0); [split; [done|lia]|].
  destruct (ds !! Z.to_nat seq) eqn:E; [naive_solver|]. case_match; naive_solver.
Qed.

Lemma stream_packet_Fin seq : stream_packet ds seq = Some Fin <-> seq = len ds.
Proof.
  unfold stream_packet. destruct (Z.ltb_spec seq 0).
  { split; [done|]. pose proof (len_nonneg ds). lia. }
  destruct (ds !! Z.to_nat seq) eqn:E.
  - apply lookup_lt_Some in E. unfold len. split; [done|lia].
  - destruct (Z.eqb_spec seq (len ds)); naive_solver.
Qed.

Lemma stream_packet_range seq p : stream_packet ds seq = Some p -> 0 <= seq <= len ds.
Proof.
  destruct p as [d|]; intros H.
  - apply stream_packet_Push in H as [? H]. apply lookup_lt_Some in H. unfold len. lia.
  - apply stream_packet_Fin in H as ->. pose proof (len_nonneg ds). lia.
Qed.

Lemma stream_packet_exists seq : 0 <= seq <= len ds -> is_Some (stream_packet ds seq).
Proof.
  intros H. destruct (decide (seq = len ds)) as [->|Hne].
  - exists Fin. by apply stream_packet_Fin.
  - destruct (lookup_lt_is_Some_2 ds (Z.to_nat seq)) as [d Hd]; [unfold len in *; lia|].
    exists (Push d). apply stream_packet_Push. split; [lia|done].
Qed.

(** The buffer holds packets of the stream, and what has been delivered is
    the stream up to [next_sequence]. *)
Record consistent (r : receiver) : Prop := {
  con_wf : wf r.(buffer);
  con_closed : r.(buffer).(fin_reached) = r.(closed);
  con_buffered : forall k p, r.(buffer).(received) !! k = Some p -> stream_packet ds k = Some p;
  con_delivered :
    if r.(closed) then r.(delivered) = ds
    else r.(buffer).(next_sequence) <= len ds /\
         r.(delivered) = take (Z.to_nat r.(buffer).(next_sequence)) ds;
}.

Lemma start_consistent cap : consistent (start cap).
Proof.
  constructor; simpl; [apply new_wf|done|intros k p H; by rewrite lookup_empty in H|].
  split; [apply len_nonneg|done].
Qed.

Lemma arrive_step r seq :
  step ds r (Arrive seq) =
    match stream_packet ds seq with
    | Some p => {| buffer := (receive_packet r.(buffer) seq p).1;
                   delivered := r.(delivered); closed := r.(closed) |}
    | None => r
    end.
Proof. simpl. destruct (stream_packet ds seq) as [[]|]; by destruct r. Qed.

Lemma receive_packet_frame rb seq p :
  next_sequence (receive_packet rb seq p).1 = next_sequence rb /\
  fin_reached (receive_packet rb seq p).1 = fin_reached rb.
Proof. unfold receive_packet. by repeat case_match. Qed.

Lemma receive_packet_lookup rb seq p k q :
  received (receive_packet rb seq p).1 !! k = Some q ->
  received rb !! k = Some q \/ k = seq /\ q = p.
Proof.
  unfold receive_packet. repeat case_match; simpl; auto.
  rewrite lookup_insert_Some. naive_solver.
Qed.

Lemma arrive_consistent r seq : consistent r -> consistent (step ds r (Arrive seq)).
Proof.
  intros Hr. rewrite arrive_step. destruct (stream_packet ds seq) as [p|] eqn:E; [|done].
  pose proof (stream_packet_range _ _ E) as Hrange.
  destruct Hr as [Hwf Hc Hb Hd], (receive_packet_frame (buffer r) seq p) as [Hn Hf].
  constructor; simpl.
  - apply receive_packet_wf; [done|]. unfold u32_ok, u32_MAX in *. lia.
  - by rewrite Hf.
  - intros k q Hq. apply receive_packet_lookup in Hq as [Hq|[-> ->]]; eauto.
  - by rewrite Hn.
Qed.

(** What [contiguous] stream packets are. *)
Lemma contiguous_take m n d :
  (forall k p, m !! k = Some p -> stream_packet ds k = Some p) -> 0 <= n <= len ds ->
  contiguous m n d ->
  take (Z.to_nat n) ds ++ d = take (Z.to_nat (n + len d)) ds /\ n + len d <= len ds.
Proof.
  intros Hm. revert n. induction d as [|x d IH]; intros n Hn Hd.
  - unfold len at 1 2. simpl. rewrite Z.add_0_r, app_nil_r. split; [done|lia].
  - apply contiguous_cons in Hd as [Hx Hd].
    apply Hm, stream_packet_Push in Hx as [_ Hx]. pose proof (lookup_lt_Some _ _ _ Hx).
    destruct (IH (n + 1)) as [H1 H2]; [unfold len in *; lia|done|].
    rewrite len_cons. replace (n + (1 + len d)) with (n + 1 + len d) by lia.
    split; [|done]. rewrite <- H1. replace (Z.to_nat (n + 1)) with (S (Z.to_nat n)) by lia.
    by rewrite (take_S_r _ _ _ Hx), <- app_assoc.
Qed.

Lemma received_top_free r :
  consistent r -> received (buffer r) !! u32_MAX = None.
Proof.
  intros Hr. destruct (received (buffer r) !! u32_MAX) eqn:E; [|done].
  apply (con_buffered _ Hr), stream_packet_range in E. lia.
Qed.

(** One [reassemble]: the delivered prefix grows to the first missing packet. *)
Lemma deliver_spec r :
  consistent r -> closed r = false ->
  consistent (deliver r) /\
  if closed (deliver r) then True
  else next_sequence (buffer r) <= next_sequence (buffer (deliver r)) /\
       received (buffer r) !! next_sequence (buffer (deliver r)) = None.
Proof.
  intros Hr Hc. pose proof Hr as [Hwf Hf Hb Hd]. rewrite Hc in Hd, Hf. destruct Hd as [Hle Hd].
  pose proof (wf_next _ Hwf) as [Hn0 _].
  destruct (reassemble_loop_spec (size (received (buffer r))) (buffer r) [])
    as (d & rb' & fin & HL & Hwf' & Hcont & _ & Hfin & Hspec); [done..|by apply received_top_free|].
  destruct (contiguous_take _ _ _ Hb (conj Hn0 Hle) Hcont) as [Htake Hlen].
  assert (E : deliver r = {| buffer := rb'; delivered := delivered r ++ d; closed := fin |}).
  { unfold deliver, reassemble. rewrite Hf, HL, Hc. simpl. by destruct d. }
  rewrite E. cbn [buffer delivered closed]. cbv zeta in Hspec.
  destruct fin.
  - split; [|done]. apply Hb, stream_packet_Fin in Hspec.
    constructor; cbn [buffer delivered closed]; [done..| |].
    + intros k p Hk. by rewrite (wf_fin _ Hwf' Hfin), lookup_empty in Hk.
    + rewrite Hd, Htake, Hspec. unfold len. rewrite Nat2Z.id. by rewrite firstn_all.
  - destruct Hspec as (Hn' & Hnone & Hk). pose proof (len_nonneg d). split.
    + constructor; cbn [buffer delivered closed]; [done..| |].
      * intros k p Hp. pose proof (wf_keys _ Hwf' _ _ Hp) as [Hge _].
        rewrite Hk in Hp by lia. auto.
      * rewrite Hn', Hd. split; [lia|done].
    + rewrite Hn'. split; [lia|done].
Qed.

Lemma deliver_closed r : consistent r -> closed r = true -> deliver r = r.
Proof.
  intros Hr Hc. unfold deliver, reassemble. rewrite (con_closed _ Hr), Hc. simpl.
  rewrite app_nil_r. by destruct r; simpl in *; subst.
Qed.

Lemma step_consistent r ev : consistent r -> consistent (step ds r ev).
Proof.
  intros Hr. destruct ev as [seq|]; [by apply arrive_consistent|].
  simpl. destruct (closed r) eqn:E; [by rewrite deliver_closed|].
  by apply deliver_spec.
Qed.

Lemma fold_consistent evs r : consistent r -> consistent (fold_left (step ds) evs r).
Proof. revert r. induction evs as [|ev evs IH]; simpl; auto using step_consistent. Qed.

Lemma run_consistent cap evs : consistent (run ds cap evs).
Proof. apply fold_consistent, start_consistent. Qed.

(** A packet that has arrived is buffered, delivered, or behind the FIN. *)
Definition has (seq : Z) (r : receiver) : Prop :=
  closed r = true \/ seq < next_sequence (buffer r) \/ is_Some (received (buffer r) !! seq).

Lemma arrive_has r seq :
  consistent r -> 0 <= seq <= len ds -> has seq (step ds r (Arrive seq)).
Proof.
  intros Hr Hs. rewrite arrive_step. destruct (stream_packet_exists seq Hs) as [p ->].
  unfold has; simpl. destruct (closed r) eqn:Ec; [by left|right].
  unfold receive_packet. rewrite (con_closed _ Hr), Ec. simpl.
  destruct (Z.ltb_spec seq (next_sequence (buffer r))); [by left|right].
  destruct (received (buffer r) !! seq) eqn:E; simpl; [by rewrite E|].
  by rewrite lookup_insert_eq.
Qed.

Lemma deliver_has r seq : consistent r -> has seq r -> has seq (deliver r).
Proof.
  intros Hr Hs. destruct (closed r) eqn:Ec; [by rewrite deliver_closed|].
  pose proof Hr as [Hwf Hf Hb Hd]. rewrite Ec in Hd, Hf. destruct Hd as [Hle Hd].
  destruct (reassemble_loop_spec (size (received (buffer r))) (buffer r) [])
    as (d & rb' & fin & HL & _ & _ & _ & _ & Hspec); [done..|by apply received_top_free|].
  assert (E : deliver r = {| buffer := rb'; delivered := delivered r ++ d; closed := fin |}).
  { unfold deliver, reassemble. rewrite Hf, HL, Ec. simpl. by destruct d. }
  rewrite E. unfold has in *. cbn [buffer closed]. destruct fin; [by left|right].
  destruct Hspec as (Hn' & _ & Hk). pose proof (len_nonneg d).
  destruct (decide (seq < next_sequence rb')); [by left|right].
  rewrite Hk by lia. destruct Hs as [?|[?|?]]; [congruence|lia|done].
Qed.

Lemma step_has r seq ev : consistent r -> has seq r -> has seq (step ds r ev).
Proof.
  intros Hr Hs. destruct ev as [s|]; [|by apply deliver_has].
  rewrite arrive_step. destruct (stream_packet ds s) as [p|]; [|done].
  unfold has in *; simpl. destruct Hs as [?|[?|Hs]]; [by left|right|do 2 right].
  - left. by rewrite (proj1 (receive_packet_frame _ _ _)).
  - unfold receive_packet. repeat case_match; simpl; try done.
    destruct (decide (seq = s)) as [->|]; [by rewrite lookup_insert_eq|by rewrite lookup_insert_ne].
Qed.

Lemma fold_has evs r seq :
  consistent r -> 0 <= seq <= len ds -> has seq r \/ Arrive seq ∈ evs ->
  has seq (fold_left (step ds) evs r).
Proof.
  revert r. induction evs as [|ev evs IH]; simpl; intros r Hr Hs Hin.
  - destruct Hin as [?|Hin]; [done|by apply elem_of_nil in Hin].
  - apply IH; [by apply step_consistent|done|].
    destruct Hin as [H|H]; [left; by apply step_has|].
    apply elem_of_cons in H as [<-|H]; [left; by apply arrive_has|by right].
Qed.

End stream.

Lemma run_prefix ds cap evs :
  len ds < u32_MAX -> delivered (run ds cap evs) `prefix_of` ds.
Proof.
  intros Hds. pose proof (con_delivered _ _ (run_consistent ds Hds cap evs)) as H.
  destruct (closed (run ds cap evs)).
  - by rewrite H.
  - destruct H as [_ ->]. apply prefix_take.
Qed.

(** ** Properties *)

(** C6: in-order delivery, safety.  Whatever packets of the stream arrive, in
    whatever order and however often, interleaved with [reassemble] calls,
    what has been handed over is a prefix of the stream, the first
    [next_sequence] payloads of it; and the end of the stream is reported
    only when the whole stream has been delivered. *)
Theorem delivery_safe ds cap evs :
  len ds < u32_MAX ->
  let r := run ds cap evs in
  delivered r `prefix_of` ds /\
  (if closed r then delivered r = ds
   else delivered r = take (Z.to_nat (next_sequence (buffer r))) ds).
Proof.
  intros Hds r. pose proof (con_delivered _ _ (run_consistent ds Hds cap evs)) as H.
  fold r in H. destruct (closed r).
  - by rewrite H.
  - destruct H as [_ ->]. split; [apply prefix_take|done].
Qed.

Definition example_stream : list (list byte) := [[Byte.x61]; [Byte.x62]; [Byte.x63]].

Lemma delivery_safe_witness :
  let r := run example_stream 256 [Arrive 2; Arrive 0; Reassemble; Arrive 0; Arrive 3; Reassemble] in
  delivered r `prefix_of` example_stream /\
  (if closed r then delivered r = example_stream
   else delivered r = take (Z.to_nat (next_sequence (buffer r))) example_stream).
Proof. apply delivery_safe. reflexivity. Defined.

(** C7: in-order delivery, completeness.  Once packets [0 .. k-1] have each
    arrived at least once, in any order, the next [reassemble] brings the
    delivered data to the first [k] payloads at least; once the FIN has
    arrived as well as every payload, it completes the stream. *)
Theorem delivery_complete ds cap evs k :
  len ds < u32_MAX -> 0 <= k <= len ds ->
  (forall seq, 0 <= seq < k -> Arrive seq ∈ evs) ->
  let r := run ds cap (evs ++ [Reassemble]) in
  take (Z.to_nat k) ds `prefix_of` delivered r /\
  (k = len ds -> Arrive (len ds) ∈ evs -> delivered r = ds /\ closed r = true).
Proof.
  intros Hds Hk Harr r. set (r0 := run ds cap evs).
  assert (Er : r = deliver r0) by (unfold r, r0, run; by rewrite fold_left_app).
  pose proof (run_consistent ds Hds cap evs) as Hr0. fold r0 in Hr0.
  pose proof (run_consistent ds Hds cap (evs ++ [Reassemble])) as Hr. fold r in Hr.
  assert (Hhas : forall seq, 0 <= seq <= len ds -> Arrive seq ∈ evs -> has seq r0).
  { intros seq Hseq Hin. apply fold_has; [done|apply start_consistent|done|by right]. }
  pose proof (con_delivered _ _ Hr) as Hd.
  destruct (closed r) eqn:Ec.
  { rewrite Hd. split; [apply prefix_take|done]. }
  destruct Hd as [Hle Hd].
  assert (Ec0 : closed r0 = false).
  { destruct (closed r0) eqn:E; [|done]. rewrite <- Ec, Er. symmetry. by rewrite (deliver_closed ds). }
  destruct (deliver_spec ds Hds r0 Hr0 Ec0) as [_ Hspec]. rewrite <- Er, Ec in Hspec.
  destruct Hspec as [Hmono Hnone]. pose proof (wf_next _ (con_wf _ _ Hr0)) as [Hn0 _].
  assert (Hmiss : ~ has (next_sequence (buffer r)) r0).
  { unfold has. rewrite Ec0, Hnone. intros [?|[?|[? ?]]]; [done|lia|done]. }
  assert (Hkn : k <= next_sequence (buffer r)).
  { destruct (Z.le_gt_cases k (next_sequence (buffer r))) as [|Hlt]; [done|].
    exfalso. apply Hmiss, Hhas; [lia|]. apply Harr. lia. }
  split.
  - rewrite Hd. replace (take (Z.to_nat k) ds) with (take (Z.to_nat k) (take (Z.to_nat (next_sequence (buffer r))) ds)).
    + apply prefix_take.
    + rewrite take_take. f_equal. lia.
  - intros -> Hfin. exfalso. apply Hmiss.
    replace (next_sequence (buffer r)) with (len ds) by lia. apply Hhas; [lia|done].
Qed.

Lemma delivery_complete_witness :
  let evs := [Arrive 3; Arrive 2; Arrive 0; Reassemble; Arrive 0; Arrive 1] in
  let r := run example_stream 256 (evs ++ [Reassemble]) in
  take (Z.to_nat 3) example_stream `prefix_of` delivered r /\
  (3 = len example_stream -> Arrive (len example_stream) ∈ evs ->
   delivered r = example_stream /\ closed r = true).
Proof.
  intros evs. apply delivery_complete; [reflexivity|by split|].
  intros seq Hseq. assert (H : seq = 0 \/ seq = 1 \/ seq = 2) by lia.
  unfold evs. destruct H as [->|[->| ->]]; rewrite !elem_of_cons; tauto.
Defined.

(** SACK ranges.  For a well-formed buffer the ranges advertised cover
    exactly the buffered sequence numbers, and they are the shortest such
    list: ascending, non-empty, with a gap between any two. *)
Theorem get_sack_ranges_exact rb :
  wf rb ->
  separated (get_sack_ranges rb) /\
  forall seq, Sack.covers (get_sack_ranges rb) seq <-> is_Some (received rb !! seq).
Proof.
  intros Hwf.
  destruct (finish_covers (BTreeMap.keys (received rb))) as [Hs Hc].
  - apply BTreeMap.entries_ascending.
  - apply Forall_forall. intros k Hk. apply BTreeMap.elem_of_keys in Hk as [p Hp].
    by apply (wf_keys _ Hwf) in Hp as [_ ?].
  - split; [exact Hs|]. intros seq. rewrite <- BTreeMap.elem_of_keys. apply Hc.
Qed.

Lemma get_sack_ranges_exact_witness :
  let rb := (receive_push (receive_push (receive_push (new 256) 5 []).1 2 []).1 6 []).1 in
  separated (get_sack_ranges rb) /\
  forall seq, Sack.covers (get_sack_ranges rb) seq <-> is_Some (received rb !! seq).
Proof.
  intros rb. apply get_sack_ranges_exact.
  do 3 (apply receive_packet_wf; [|by_decide]). apply new_wf.
Defined.

(** What an arriving packet does, on every branch.  It is accepted when
    the FIN has not been processed, it is not already delivered and not
    already buffered, whatever the capacity; an accepted packet changes only
    its own slot, and a refused one changes nothing. *)
Theorem receive_packet_spec rb seq p :
  let accepted := negb (fin_reached rb) && (next_sequence rb <=? seq) &&
                  bool_decide (received rb !! seq = None) in
  receive_packet rb seq p =
    if accepted then (with_received rb (<[seq := p]> (received rb)), true) else (rb, false).
Proof.
  unfold receive_packet. destruct (fin_reached rb); [done|]. simpl.
  destruct (Z.ltb_spec seq (next_sequence rb)), (Z.leb_spec (next_sequence rb) seq); try lia; simpl.
  - done.
  - by destruct (received rb !! seq).
Qed.

(** Once the FIN has been processed the buffer is inert: every packet is
    refused, reassembly returns nothing, and the state never changes again. *)
Theorem closed_inert rb seq d :
  fin_reached rb = true ->
  receive_push rb seq d = (rb, false) /\ receive_fin rb seq = (rb, false) /\
  reassemble rb = (rb, (None, false)).
Proof. intros H. unfold receive_push, receive_fin, receive_packet, reassemble. by rewrite H. Qed.

Lemma closed_inert_witness :
  let rb := (reassemble (receive_fin (new 4) 0).1).1 in
  receive_push rb 1 [] = (rb, false) /\ receive_fin rb 1 = (rb, false) /\
  reassemble rb = (rb, (None, false)).
Proof. intros rb. apply closed_inert. reflexivity. Defined.

(** The advertised window.  It is the free capacity in packets as long
    as the capacity fits 16 bits, and the truncation makes the window of an
    empty buffer of 65536 packets zero. *)
Theorem window_size_spec rb :
  (u16_ok (capacity rb) ->
   window_size rb = Z.max 0 (capacity rb - Z.of_nat (size (received rb)))) /\
  window_size (new (2 ^ 16)) = 0.
Proof.
  split; [|reflexivity]. intros H. unfold window_size, BTreeMap.map_len, saturating_sub.
  apply as_u16_id. unfold u16_ok in *. lia.
Qed.

End ReceiveBuffer.
