(* ===== verification/Float.v ===== *)
(** * Floating point

    The [f32] and [f64] operations the code uses, on Rocq's executable
    specification of IEEE 754 ([SpecFloat]; round to nearest, ties to even),
    and the conversions between floats, integers and [Duration]s of Rust's
    standard library. *)

From Stdlib Require Export Floats.SpecFloat.
From S2P Require Import Prelude.

Module Float.

Section format.
Context (prec emax : Z).

(** [n as fNN] for an unsigned integer. *)
Definition of_Z (n : Z) : spec_float := binary_normalize prec emax n 0 false.

(** [Duration::as_secs_fNN]: whole seconds plus the fraction. *)
Definition as_secs (d : Duration) : spec_float :=
  SFadd prec emax (of_Z (d / 1000000000))
    (SFdiv prec emax (of_Z (d mod 1000000000)) (of_Z 1000000000)).

End format.

Definition f64_of_Z := of_Z 53 1024.
Definition f64_add := SFadd 53 1024.
Definition f64_sub := SFsub 53 1024.
Definition f64_mul := SFmul 53 1024.
Definition f64_div := SFdiv 53 1024.
Definition f64_zero : spec_float := S754_zero false.
Definition as_secs_f64 := as_secs 53 1024.

Definition f32_of_Z := of_Z 24 128.
Definition f32_sub := SFsub 24 128.
Definition f32_mul := SFmul 24 128.
Definition f32_div := SFdiv 24 128.
Definition as_secs_f32 := as_secs 24 128.

(** The integer nearest to [m * 2 ^ e * scale], ties to even. *)
Definition round_scaled (m : positive) (e scale : Z) : Z :=
  if 0 <=? e then Z.pos m * 2 ^ e * scale
  else
    let n := Z.pos m * scale in
    let d := 2 ^ (- e) in
    let q := n / d in
    let r := 2 * (n mod d) in
    if (d <? r) || ((r =? d) && Z.odd q) then q + 1 else q.

(** [Duration::from_secs_f64]: nearest nanosecond; panics on a negative,
    non-finite or too large argument. *)
Definition from_secs_f64 (x : spec_float) : outcome Duration :=
  match x with
  | S754_zero _ => Done 0
  | S754_finite false m e =>
      let d := round_scaled m e 1000000000 in
      if d <? 2 ^ 64 * 1000000000 then Done d else Panic
  | _ => Panic
  end.

(** [x as u32]: truncation, saturating at the bounds; NaN gives 0. *)
Definition as_u32_sat (x : spec_float) : Z :=
  match x with
  | S754_finite false m e =>
      let t := if 0 <=? e then Z.pos m * 2 ^ e else Z.pos m / 2 ^ (- e) in
      Z.min t u32_MAX
  | S754_infinity false => u32_MAX
  | _ => 0
  end.

Lemma as_u32_sat_ok x : u32_ok (as_u32_sat x).
Proof.
  unfold u32_ok, as_u32_sat, u32_MAX. destruct x as [?|[]| |[] m e]; try lia.
  case_match.
  - pose proof (Z.pow_nonneg 2 e). nia.
  - assert (0 <= Z.pos m / 2 ^ (- e)) by (apply Z.div_pos; [|apply Z.pow_pos_nonneg]; lia). lia.
Qed.

Lemma round_scaled_nonneg m e scale : 0 <= scale -> 0 <= round_scaled m e scale.
Proof.
  intros Hs. unfold round_scaled. destruct (Z.leb_spec 0 e).
  - pose proof (Z.pow_nonneg 2 e). nia.
  - assert (0 <= Z.pos m * scale / 2 ^ (- e))
      by (apply Z.div_pos; [nia|apply Z.pow_pos_nonneg; lia]).
    case_match; lia.
Qed.

Lemma from_secs_f64_nonneg x d : from_secs_f64 x = Done d -> 0 <= d.
Proof.
  destruct x as [?|?| |[] m e]; simpl; try done; [intros [= <-]; lia|].
  case_match; [|done]. intros [= <-]. by apply round_scaled_nonneg.
Qed.

End Float.
