(* ===== verification/Rtt.v ===== *)
(** * Round-trip time estimator

    Models [src/core/reliability/retransmission/rtt.rs], with its [f64]
    arithmetic. *)

From S2P Require Import Prelude Float.

Module RttEstimator.
Import Float.

Record RttEstimator := {
  srtt : spec_float;     (* f64, seconds *)
  rttvar : spec_float;   (* f64, seconds *)
  rto : Duration;
}.

Definition ALPHA : spec_float := f64_div (f64_of_Z 1) (f64_of_Z 8).
Definition BETA : spec_float := f64_div (f64_of_Z 1) (f64_of_Z 4).

Definition new (initial_rto : Duration) : RttEstimator :=
  {| srtt := f64_zero; rttvar := f64_zero; rto := initial_rto |}.

(** The pair [(srtt, rttvar)] after a sample, in seconds. *)
Definition smooth (e : RttEstimator) (sample : spec_float) : spec_float * spec_float :=
  if SFeqb e.(srtt) f64_zero then (sample, f64_div sample (f64_of_Z 2))
  else
    let delta := SFabs (f64_sub e.(srtt) sample) in
    let rttvar' :=
      f64_add (f64_mul (f64_sub (f64_of_Z 1) BETA) e.(rttvar)) (f64_mul BETA delta) in
    let srtt' :=
      f64_add (f64_mul (f64_sub (f64_of_Z 1) ALPHA) e.(srtt)) (f64_mul ALPHA sample) in
    (srtt', rttvar').

Definition update (e : RttEstimator) (rtt_sample min_rto : Duration) : outcome RttEstimator :=
  let '(srtt', rttvar') := smooth e (as_secs_f64 rtt_sample) in
  outcome_bind (from_secs_f64 (f64_add srtt' (f64_mul (f64_of_Z 4) rttvar')))
    (fun d => Done {| srtt := srtt'; rttvar := rttvar'; rto := Z.max d min_rto |}).

(** [self.rto *= 2].  [Duration]s are unbounded in the model: the overflow of
    the product needs 2^64 seconds of timeouts. *)
Definition backoff (e : RttEstimator) : RttEstimator :=
  {| srtt := e.(srtt); rttvar := e.(rttvar); rto := e.(rto) * 2 |}.

Definition smoothed_rtt (e : RttEstimator) : outcome (option Duration) :=
  if SFltb f64_zero e.(srtt)
  then outcome_bind (from_secs_f64 e.(srtt)) (fun d => Done (Some d))
  else Done None.

Definition rtt_var (e : RttEstimator) : outcome (option Duration) :=
  if SFltb f64_zero e.(srtt)
  then outcome_bind (from_secs_f64 e.(rttvar)) (fun d => Done (Some d))
  else Done None.

(** A concrete history: samples of 100 ms and 200 ms. *)
Example update_example :
  outcome_bind (update (new (from_secs 1)) (from_millis 100) (from_millis 10))
    (fun e => outcome_bind (update e (from_millis 200) (from_millis 10)) (fun e' => Done (rto e, rto e')))
  = Done (300000000, 362500000).
Proof. vm_compute. reflexivity. Qed.

Lemma update_rto e sample min_rto e' :
  update e sample min_rto = Done e' -> min_rto <= rto e'.
Proof.
  unfold update. destruct (smooth e (as_secs_f64 sample)) as [s v].
  destruct (from_secs_f64 _); simpl; [|done]. intros [= <-]. simpl. lia.
Qed.

End RttEstimator.
