(* ===== verification/Congestion.v ===== *)
(** * Congestion control

    Models [src/core/reliability/congestion.rs] (the [CongestionControl]
    trait, as a type class with the laws its clients rely on) and
    [congestion/vegas.rs] (the Vegas-like controller, an instance of it). *)

From S2P Require Import Prelude Float Config.

(** The trait: the three operations on the controller's state. *)
Class CongestionControl (T : Type) := {
  on_ack : T -> Duration -> T;
  on_packet_loss : T -> Instant -> T;
  congestion_window : T -> Z;   (* u32 *)
}.

(** What a controller promises: from a good state, the window is a [u32], and
    every event leads to a good state. *)
Class CongestionControlLaws (T : Type) `{CongestionControl T} := {
  cc_good : T -> Prop;
  cc_window_ok : forall t, cc_good t -> u32_ok (congestion_window t);
  cc_ack_good : forall t rtt, cc_good t -> cc_good (on_ack t rtt);
  cc_loss_good : forall t now, cc_good t -> cc_good (on_packet_loss t now);
}.

Module Vegas.
Import Float.

Inductive State := SlowStart | CongestionAvoidance.

#[global] Instance State_eq_dec : EqDecision State.
Proof. solve_decision. Defined.

Record Vegas := {
  cwnd : Z;                    (* congestion_window : u32 *)
  slow_start_threshold : Z;    (* u32 *)
  state : State;
  min_rtt : Duration;
  last_rtt : Duration;
  config : Config.Config;
}.

Definition cc_config (v : Vegas) : Config.CongestionControlConfig :=
  Config.congestion_control v.(config).

(** [Duration::from_secs(u64::MAX)]: no RTT measured yet. *)
Definition no_rtt : Duration := from_secs (2 ^ 64 - 1).

Definition new (config : Config.Config) : Vegas := {|
  cwnd := Config.initial_cwnd_packets (Config.congestion_control config);
  slow_start_threshold := Config.initial_ssthresh (Config.congestion_control config);
  state := SlowStart;
  min_rtt := no_rtt;
  last_rtt := no_rtt;
  config := config |}.

(** [diff_packets] of the congestion-avoidance branch. *)
Definition diff_packets (cwnd : Z) (min_rtt rtt : Duration) : spec_float :=
  let expected_throughput := f32_div (f32_of_Z cwnd) (as_secs_f32 min_rtt) in
  let actual_throughput := f32_div (f32_of_Z cwnd) (as_secs_f32 rtt) in
  f32_mul (f32_sub expected_throughput actual_throughput) (as_secs_f32 min_rtt).

Definition vegas_on_ack (v : Vegas) (rtt : Duration) : Vegas :=
  let min_rtt' := Z.min v.(min_rtt) rtt in
  match v.(state) with
  | SlowStart =>
      let cwnd' := as_u32 (v.(cwnd) + 1) in
      {| cwnd := cwnd'; slow_start_threshold := v.(slow_start_threshold);
         state := if v.(slow_start_threshold) <=? cwnd' then CongestionAvoidance else SlowStart;
         min_rtt := min_rtt'; last_rtt := rtt; config := v.(config) |}
  | CongestionAvoidance =>
      let diff := diff_packets v.(cwnd) min_rtt' rtt in
      let cwnd' :=
        if SFltb diff (f32_of_Z (Config.vegas_alpha_packets (cc_config v)))
        then as_u32 (v.(cwnd) + 1)
        else if SFltb (f32_of_Z (Config.vegas_beta_packets (cc_config v))) diff
        then Z.max (as_u32 (v.(cwnd) - 1)) (Config.min_cwnd_packets (cc_config v))
        else v.(cwnd) in
      {| cwnd := cwnd'; slow_start_threshold := v.(slow_start_threshold);
         state := CongestionAvoidance;
         min_rtt := min_rtt'; last_rtt := rtt; config := v.(config) |}
  end.

Definition is_congestive_loss (v : Vegas) : bool :=
  (v.(last_rtt) =? no_rtt) || (v.(min_rtt) + v.(min_rtt) / 5 <? v.(last_rtt)).

Definition vegas_on_packet_loss (v : Vegas) (now : Instant) : Vegas :=
  let min_cwnd := Config.min_cwnd_packets (cc_config v) in
  if is_congestive_loss v then
    let threshold := Z.max (v.(cwnd) / 2) min_cwnd in
    {| cwnd := threshold; slow_start_threshold := threshold; state := SlowStart;
       min_rtt := v.(min_rtt); last_rtt := v.(last_rtt); config := v.(config) |}
  else
    let cwnd' := as_u32_sat
      (f32_mul (f32_of_Z v.(cwnd)) (Config.vegas_gentle_decrease_factor (cc_config v))) in
    {| cwnd := Z.max cwnd' min_cwnd; slow_start_threshold := v.(slow_start_threshold);
       state := v.(state);
       min_rtt := v.(min_rtt); last_rtt := v.(last_rtt); config := v.(config) |}.

#[global] Instance vegas_cc : CongestionControl Vegas := {
  on_ack := vegas_on_ack;
  on_packet_loss := vegas_on_packet_loss;
  congestion_window := cwnd;
}.

(** ** The laws *)

Definition good (v : Vegas) : Prop :=
  u32_ok v.(cwnd) /\ u32_ok (Config.min_cwnd_packets (cc_config v)).

Lemma vegas_on_ack_config v rtt : config (vegas_on_ack v rtt) = config v.
Proof. unfold vegas_on_ack. by case_match. Qed.

Lemma vegas_on_packet_loss_config v now : config (vegas_on_packet_loss v now) = config v.
Proof. unfold vegas_on_packet_loss. by case_match. Qed.

Lemma max_u32_ok a b : u32_ok a -> u32_ok b -> u32_ok (Z.max a b).
Proof. unfold u32_ok. lia. Qed.

#[global] Program Instance vegas_laws : CongestionControlLaws Vegas := {
  cc_good := good;
}.
Next Obligation. by intros t [? _]. Qed.
Next Obligation.
  intros t rtt [Hc Hm]. split; [|by unfold cc_config in *; rewrite vegas_on_ack_config].
  unfold on_ack, vegas_cc, vegas_on_ack.
  repeat case_match; simpl; auto using as_u32_ok, max_u32_ok.
Qed.
Next Obligation.
  intros t now [Hc Hm]. split; [|by unfold cc_config in *; rewrite vegas_on_packet_loss_config].
  unfold on_packet_loss, vegas_cc, vegas_on_packet_loss.
  case_match; simpl; auto using as_u32_sat_ok, max_u32_ok.
  apply max_u32_ok; [|done]. unfold u32_ok in *. split; [apply Z.div_pos; lia|].
  assert (cwnd t / 2 <= cwnd t) by (apply Z.div_le_upper_bound; lia). lia.
Qed.

(** ** Runs of the controller *)

Inductive event := Acked (rtt : Duration) | Lost (now : Instant).

Definition handle (v : Vegas) (e : event) : Vegas :=
  match e with Acked rtt => on_ack v rtt | Lost now => on_packet_loss v now end.

Definition run (v : Vegas) (evs : list event) : Vegas := fold_left handle evs v.

(** No acknowledgement is processed with the window at [u32::MAX], where the
    increment would wrap to zero. *)
Fixpoint no_wrap (v : Vegas) (evs : list event) : bool :=
  match evs with
  | [] => true
  | e :: evs =>
      match e with Acked _ => v.(cwnd) <? u32_MAX | Lost _ => true end && no_wrap (handle v e) evs
  end.

Definition above_min (v : Vegas) : Prop := Config.min_cwnd_packets (cc_config v) <= v.(cwnd).

Lemma increment_exact c : 0 <= c < u32_MAX -> as_u32 (c + 1) = c + 1.
Proof. intros H. apply as_u32_id. unfold u32_ok, u32_MAX in *. lia. Qed.

Lemma handle_good v e : good v -> good (handle v e).
Proof. destruct e as [rtt|now]; [exact (cc_ack_good v rtt)|exact (cc_loss_good v now)]. Qed.

Lemma handle_config v e : config (handle v e) = config v.
Proof. destruct e; [apply vegas_on_ack_config|apply vegas_on_packet_loss_config]. Qed.

Lemma handle_above_min v e :
  good v -> above_min v -> no_wrap v [e] = true -> above_min (handle v e).
Proof.
  intros [[Hc0 _] _] Hm Hw. unfold above_min, cc_config in *. rewrite handle_config.
  destruct e as [rtt|now]; simpl in *.
  - rewrite andb_true_r in Hw. apply Z.ltb_lt in Hw.
    unfold vegas_on_ack. repeat case_match; simpl; rewrite ?increment_exact by lia;
      unfold cc_config; lia.
  - unfold vegas_on_packet_loss. case_match; simpl; apply Z.le_max_r.
Qed.

(** ** Properties *)

(** C38: the congestion window keeps the configured minimum, up to the
    wrap-around of its increment.  From a state at or above the minimum, every
    sequence of acknowledgements and losses in which no acknowledgement is
    processed with the window at [u32::MAX] ([no_wrap]) leads to a state at or
    above it, with a window of 32 bits and an unchanged configuration.  At
    [u32::MAX] the unchecked increment wraps to 0 ([window_wraps]). *)
Theorem vegas_window_bounds v evs :
  good v -> above_min v -> no_wrap v evs = true ->
  config (run v evs) = config v /\
  Config.min_cwnd_packets (cc_config v) <= congestion_window (run v evs) < 2 ^ 32.
Proof.
  revert v. induction evs as [|e evs IH]; intros v Hg Hm Hw.
  - destruct Hg as [[? ?] ?]. simpl. by split.
  - simpl in Hw. apply andb_true_iff in Hw as [Hw Hws].
    destruct (IH (handle v e)) as [E ?]; [by apply handle_good| |done|].
    + apply handle_above_min; [done..|]. simpl. by rewrite Hw.
    + unfold cc_config in *. rewrite handle_config in *. by split.
Qed.

Lemma vegas_window_bounds_witness :
  let v := new Config.default in
  let evs := [Acked (from_millis 50); Lost 0; Acked (from_millis 90); Acked (from_millis 50); Lost 1;
              Acked (from_millis 200); Lost 2] in
  config (run v evs) = config v /\
  Config.min_cwnd_packets (cc_config v) <= congestion_window (run v evs) < 2 ^ 32.
Proof.
  intros v evs. apply vegas_window_bounds.
  - split; by_decide.
  - unfold above_min. vm_compute. discriminate.
  - vm_compute. reflexivity.
Defined.

(** The condition is needed: in slow start an acknowledgement at [u32::MAX]
    takes the window to 0, below any positive minimum. *)
Lemma window_wraps v rtt :
  state v = SlowStart -> cwnd v = u32_MAX ->
  no_wrap v [Acked rtt] = false /\ congestion_window (on_ack v rtt) = 0.
Proof.
  intros Hs Hc. unfold on_ack, congestion_window, vegas_cc, vegas_on_ack. simpl. by rewrite Hs, Hc.
Qed.

(** The reaction to a congestive loss (no RTT measured, or the last one
    over 6/5 of the smallest): threshold and window both become the halved
    window, at least the minimum, in slow start; and the next acknowledgement
    adds one packet and leaves slow start at once. *)
Theorem congestive_loss_spec v now rtt :
  good v -> is_congestive_loss v = true -> cwnd v < u32_MAX ->
  Config.min_cwnd_packets (cc_config v) < u32_MAX ->
  let v1 := on_packet_loss v now in
  let v2 := on_ack v1 rtt in
  congestion_window v1 = Z.max (cwnd v / 2) (Config.min_cwnd_packets (cc_config v)) /\
  slow_start_threshold v1 = congestion_window v1 /\ state v1 = SlowStart /\
  congestion_window v2 = congestion_window v1 + 1 /\ state v2 = CongestionAvoidance.
Proof.
  intros [[Hc0 Hc] [Hm0 Hm]] Hl Hmax Hmmax.
  unfold on_packet_loss, on_ack, congestion_window, vegas_cc, vegas_on_packet_loss. rewrite Hl.
  unfold vegas_on_ack; simpl.
  assert (Hd : cwnd v / 2 <= cwnd v) by (apply Z.div_le_upper_bound; lia).
  assert (Hd0 : 0 <= cwnd v / 2) by (apply Z.div_pos; lia).
  rewrite increment_exact by lia. split_and!; try done.
  by rewrite (proj2 (Z.leb_le _ _)) by lia.
Qed.

Lemma congestive_loss_spec_witness :
  let v := new Config.default in
  let v1 := on_packet_loss v 0 in
  let v2 := on_ack v1 (from_millis 10) in
  congestion_window v1 = Z.max (cwnd v / 2) (Config.min_cwnd_packets (cc_config v)) /\
  slow_start_threshold v1 = congestion_window v1 /\ state v1 = SlowStart /\
  congestion_window v2 = congestion_window v1 + 1 /\ state v2 = CongestionAvoidance.
Proof. apply congestive_loss_spec; [split; by_decide|reflexivity..]. Defined.

(** An acknowledgement moves the window by at most one packet; in
    congestion avoidance the state is kept, and an RTT sample of zero, whose
    throughput difference is not a number, leaves the window alone. *)
Theorem ack_step_bounded v rtt :
  good v -> above_min v -> 1 <= cwnd v < u32_MAX -> 0 <= min_rtt v -> 0 <= rtt ->
  Z.abs (congestion_window (on_ack v rtt) - cwnd v) <= 1 /\
  (state v = CongestionAvoidance ->
     state (on_ack v rtt) = CongestionAvoidance /\
     (rtt = 0 -> congestion_window (on_ack v rtt) = cwnd v)).
Proof.
  intros _ Hm Hc Hmin Hrtt. unfold above_min in Hm.
  assert (Edec : as_u32 (cwnd v - 1) = cwnd v - 1)
    by (apply as_u32_id; unfold u32_ok, u32_MAX in *; lia).
  unfold on_ack, congestion_window, vegas_cc, vegas_on_ack.
  destruct (state v); simpl.
  - rewrite increment_exact by lia. split; [lia|done].
  - rewrite increment_exact, Edec by lia. split; [repeat case_match; lia|].
    intros _. split; [done|]. intros ->. rewrite (Z.min_r _ 0) by lia.
    assert (E : diff_packets (cwnd v) 0 0 = S754_nan).
    { unfold diff_packets. change (as_secs_f32 0) with (S754_zero false).
      by destruct (f32_of_Z (cwnd v)) as [[]|[]| |[]]. }
    rewrite E. by destruct (f32_of_Z _), (f32_of_Z _).
Qed.

Lemma ack_step_bounded_witness :
  let v := run (new Config.default) [Acked (from_millis 20); Lost 0; Acked (from_millis 30)] in
  Z.abs (congestion_window (on_ack v 0) - cwnd v) <= 1 /\
  (state v = CongestionAvoidance ->
     state (on_ack v 0) = CongestionAvoidance /\
     (0 = 0 -> congestion_window (on_ack v 0) = cwnd v)).
Proof.
  apply ack_step_bounded; [split; by_decide|vm_compute; discriminate| |vm_compute; discriminate|lia].
  split; [vm_compute; discriminate|vm_compute; reflexivity].
Defined.

End Vegas.
