(* ===== verification/SackManager.v ===== *)
(** * SACK manager

    Models [src/core/reliability/retransmission/sack_manager.rs]: the
    description of an in-flight frame and its reconstruction, the map of
    packets in flight, the processing of acknowledgements, fast
    retransmission and the retransmission timeout. *)

From S2P Require Import Prelude BTreeMap Packet Config Frame.

Module RetransmissionFrameInfo.

Record RetransmissionFrameInfo := {
  frame_type : FrameType.FrameType;
  sequence_number : Z;             (* u32 *)
  payload : list byte;
  additional_data : option Z;      (* Option<u64> *)
}.

Definition from_frame (frame : Frame.Frame) : option RetransmissionFrameInfo :=
  match Frame.frame_type frame with
  | None => None
  | Some frame_type =>
      let info payload additional_data sequence_number :=
        Some {| frame_type := frame_type; sequence_number := sequence_number;
                payload := payload; additional_data := additional_data |} in
      match frame with
      | Frame.Push header payload => info payload None (ShortHeader.sequence_number header)
      | Frame.Syn _ => info [] None 0
      | Frame.SynAck _ => info [] None 0
      | Frame.Fin header => info [] None (ShortHeader.sequence_number header)
      | Frame.PathChallenge header challenge_data =>
          info [] (Some challenge_data) (ShortHeader.sequence_number header)
      | Frame.PathResponse header challenge_data =>
          info [] (Some challenge_data) (ShortHeader.sequence_number header)
      | _ => None
      end
  end.

Definition reconstruct_frame (info : RetransmissionFrameInfo)
    (context : RetransmissionContext.RetransmissionContext) (now : Instant) : Frame.Frame :=
  let current_timestamp := RetransmissionContext.current_timestamp context now in
  let peer := RetransmissionContext.current_peer_cid context in
  let rns := RetransmissionContext.recv_next_sequence context in
  let win := RetransmissionContext.recv_window_size context in
  let version := RetransmissionContext.protocol_version context in
  let local := RetransmissionContext.local_cid context in
  match info.(frame_type) with
  | FrameType.Push =>
      Frame.new_push peer info.(sequence_number) rns win current_timestamp info.(payload)
  | FrameType.Syn => Frame.new_syn version local peer
  | FrameType.SynAck => Frame.new_syn_ack version local peer
  | FrameType.Fin => Frame.new_fin peer info.(sequence_number) current_timestamp rns win
  | FrameType.PathChallenge =>
      Frame.new_path_challenge peer info.(sequence_number) current_timestamp
        (from_option id 0 info.(additional_data))
  | FrameType.PathResponse =>
      Frame.new_path_response peer info.(sequence_number) current_timestamp
        (from_option id 0 info.(additional_data))
  end.

(** What a retransmission must keep of a frame: its type, its sequence
    number and what it carries. *)
Definition body (f : Frame.Frame) : Command.Command * option Z * list byte * option Z :=
  (Frame.command f, Frame.sequence_number f,
   match f with Frame.Push _ p | Frame.Ack _ p => p | _ => [] end,
   match f with Frame.PathChallenge _ d | Frame.PathResponse _ d => Some d | _ => None end).

Lemma reconstruct_body f info context now :
  from_frame f = Some info -> body (reconstruct_frame info context now) = body f.
Proof. destruct f; simpl; intros [= <-]; done. Qed.

Lemma reconstruct_destination info context now :
  Frame.destination_cid (reconstruct_frame info context now) =
    RetransmissionContext.current_peer_cid context.
Proof. unfold reconstruct_frame. by destruct (frame_type info). Qed.

Lemma reconstruct_asserts f info context now :
  from_frame f = Some info -> Frame.encode_asserts f = true -> Frame.header_ok f ->
  Frame.encode_asserts (reconstruct_frame info context now) = true.
Proof.
  destruct f as [h p|h p|h|h|h|h|h d|h d]; simpl; intros [= <-] Ha Hh; try done.
  destruct Hh as [Hh _]. apply Z.eqb_eq in Ha. simpl. rewrite as_u16_id.
  - by apply Z.eqb_eq.
  - rewrite <- Ha. apply Hh.
Qed.

(** Retransmission keeps the frame.  The frame rebuilt from the stored
    description of a frame has its type, sequence number, payload and
    challenge, still satisfies the assertions of [encode], and is addressed to
    the peer's current connection id. *)
Theorem reconstruct_frame_faithful f info context now :
  from_frame f = Some info -> Frame.ok f ->
  let f' := reconstruct_frame info context now in
  body f' = body f /\ Frame.encode_asserts f' = true /\
  Frame.destination_cid f' = RetransmissionContext.current_peer_cid context.
Proof.
  intros Hi (Hh & _ & Ha). split_and!.
  - by apply reconstruct_body.
  - by eapply reconstruct_asserts.
  - apply reconstruct_destination.
Qed.

Definition example_context : RetransmissionContext.RetransmissionContext := {|
  RetransmissionContext.start_time := 0;
  RetransmissionContext.current_peer_cid := 42;
  RetransmissionContext.protocol_version := 1;
  RetransmissionContext.local_cid := 7;
  RetransmissionContext.recv_next_sequence := 3;
  RetransmissionContext.recv_window_size := 250 |}.

Lemma reconstruct_frame_faithful_witness :
  let f := Frame.new_push 1 5 0 256 10 [Byte.x61] in
  let info := {| frame_type := FrameType.Push; sequence_number := 5; payload := [Byte.x61];
                 additional_data := None |} in
  let f' := reconstruct_frame info example_context (from_secs 2) in
  body f' = body f /\ Frame.encode_asserts f' = true /\ Frame.destination_cid f' = 42.
Proof. apply reconstruct_frame_faithful; [reflexivity|by_decide]. Defined.

End RetransmissionFrameInfo.

Module SackManager.
Import RetransmissionFrameInfo.
Abbreviation Context_ := RetransmissionContext.RetransmissionContext.

Record SackInFlightPacket := {
  last_sent_at : Instant;
  frame_info : RetransmissionFrameInfo;
  fast_retx_count : Z;             (* u16 *)
}.

Abbreviation InFlight := (gmap Z SackInFlightPacket).

Record SackManager := {
  fast_retx_threshold : Z;         (* u16 *)
  in_flight_packets : InFlight;    (* BTreeMap<u32, SackInFlightPacket> *)
  ack_threshold : Z;               (* u32 *)
  ack_eliciting_packets_count : Z; (* u32 *)
}.

Record SackProcessResult := {
  frames_to_retransmit : list Frame.Frame;
  rtt_samples : list Duration;
  newly_acked_sequences : list Z;
}.

Definition with_in_flight (s : SackManager) (m : InFlight) : SackManager :=
  {| fast_retx_threshold := s.(fast_retx_threshold); in_flight_packets := m;
     ack_threshold := s.(ack_threshold);
     ack_eliciting_packets_count := s.(ack_eliciting_packets_count) |}.

Definition with_ack_count (s : SackManager) (n : Z) : SackManager :=
  {| fast_retx_threshold := s.(fast_retx_threshold);
     in_flight_packets := s.(in_flight_packets);
     ack_threshold := s.(ack_threshold); ack_eliciting_packets_count := n |}.

(** ** Operations *)

Definition new (fast_retx_threshold ack_threshold : Z) : SackManager :=
  {| fast_retx_threshold := fast_retx_threshold; in_flight_packets := ∅;
     ack_threshold := ack_threshold; ack_eliciting_packets_count := 0 |}.

Definition add_in_flight_packet (s : SackManager) (frame : Frame.Frame) (now : Instant)
    : SackManager :=
  match Frame.sequence_number frame with
  | None => s
  | Some seq =>
      match from_frame frame with
      | None => s
      | Some frame_info =>
          with_in_flight s
            (<[seq := {| last_sent_at := now; frame_info := frame_info; fast_retx_count := 0 |}]>
               s.(in_flight_packets))
      end
  end.

Definition in_flight_count (s : SackManager) : Z := BTreeMap.map_len s.(in_flight_packets).

Definition is_in_flight_empty (s : SackManager) : bool := bool_decide (s.(in_flight_packets) = ∅).

Definition has_fin_in_flight (s : SackManager) : bool :=
  existsb (fun p => bool_decide (p.(frame_info).(frame_type) = FrameType.Fin))
    (BTreeMap.values s.(in_flight_packets)).

Definition on_ack_eliciting_packet_received (s : SackManager) : SackManager :=
  with_ack_count s (as_u32 (s.(ack_eliciting_packets_count) + 1)).

Definition on_ack_sent (s : SackManager) : SackManager := with_ack_count s 0.

(** [packet.last_sent_at = now] *)
Definition touch (now : Instant) (p : SackInFlightPacket) : SackInFlightPacket :=
  {| last_sent_at := now; frame_info := p.(frame_info); fast_retx_count := p.(fast_retx_count) |}.

Definition overdue (rto : Duration) (now : Instant) (p : SackInFlightPacket) : bool :=
  rto <? duration_since now p.(last_sent_at).

Definition check_for_rto (s : SackManager) (rto : Duration) (now : Instant) (context : Context_)
    : SackManager * list Frame.Frame :=
  let late := List.filter (overdue rto now) (BTreeMap.values s.(in_flight_packets)) in
  (with_in_flight s
     ((fun p => if overdue rto now p then touch now p else p) <$> s.(in_flight_packets)),
   map (fun p => reconstruct_frame p.(frame_info) context now) late).

Definition next_rto_deadline (s : SackManager) (rto : Duration) : option Instant :=
  list_min (map (fun p => p.(last_sent_at) + rto) (BTreeMap.values s.(in_flight_packets))).

(** One iteration of the loop over the sequence numbers of a SACK range. *)
Definition sack_one (now : Instant) (st : InFlight * list Duration * list Z) (seq : Z)
    : InFlight * list Duration * list Z :=
  let '(m, samples, acked) := st in
  match m !! seq with
  | Some packet =>
      (delete seq m, samples ++ [duration_since now packet.(last_sent_at)], acked ++ [seq])
  | None => st
  end.

(** One iteration of the last loop of [check_fast_retransmission]. *)
Definition fast_one (threshold : Z) (now : Instant) (context : Context_)
    (st : InFlight * list Frame.Frame) (seq : Z) : InFlight * list Frame.Frame :=
  let '(m, frames) := st in
  match m !! seq with
  | None => st
  | Some packet =>
      let count := as_u16 (packet.(fast_retx_count) + 1) in
      if threshold <=? count then
        (<[seq := {| last_sent_at := now; frame_info := packet.(frame_info);
                     fast_retx_count := 0 |}]> m,
         frames ++ [reconstruct_frame packet.(frame_info) context now])
      else
        (<[seq := {| last_sent_at := packet.(last_sent_at); frame_info := packet.(frame_info);
                     fast_retx_count := count |}]> m, frames)
  end.

Definition check_fast_retransmission (s : SackManager) (sack_acked_sequences : list Z)
    (now : Instant) (context : Context_) : SackManager * list Frame.Frame :=
  match list_max sack_acked_sequences with
  | None => (s, [])
  | Some highest_sacked_seq =>
      let keys_to_modify := (BTreeMap.range_below s.(in_flight_packets) highest_sacked_seq).*1 in
      let '(m, frames) :=
        fold_left (fast_one s.(fast_retx_threshold) now context) keys_to_modify
          (s.(in_flight_packets), []) in
      (with_in_flight s m, frames)
  end.

Definition process_ack (s : SackManager) (recv_next_seq : Z) (sack_ranges : list Sack.SackRange)
    (now : Instant) (context : Context_) : SackManager * SackProcessResult :=
  (* Step 1: cumulative ACK *)
  let cumulative :=
    BTreeMap.take_below recv_next_seq (BTreeMap.entries s.(in_flight_packets)) in
  let cumulative_acked_keys := cumulative.*1 in
  let samples1 := map (fun x => duration_since now x.2.(last_sent_at)) cumulative in
  let m1 := BTreeMap.remove_all s.(in_flight_packets) cumulative_acked_keys in
  (* Step 2: SACK ranges *)
  let '(m2, samples2, sack_acked_sequences) :=
    fold_left
      (fun st range =>
         fold_left (sack_one now)
           (range_inclusive range.(Sack.start) range.(Sack.end_)) st)
      sack_ranges (m1, [], []) in
  let s2 := with_in_flight s m2 in
  (* Step 3: fast retransmission *)
  let '(s3, frames) :=
    match sack_acked_sequences with
    | [] => (s2, [])
    | _ => check_fast_retransmission s2 sack_acked_sequences now context
    end in
  (s3, {| frames_to_retransmit := frames;
          rtt_samples := samples1 ++ samples2;
          newly_acked_sequences := cumulative_acked_keys ++ sack_acked_sequences |}).

Definition encode_sack_ranges (s : SackManager) (ranges : list Sack.SackRange) : list byte :=
  Sack.encode_sack_ranges ranges.

Definition decode_sack_ranges (s : SackManager) (payload : list byte)
  : outcome (list Sack.SackRange) := Sack.decode_sack_ranges payload.

Definition should_send_standalone_ack (s : SackManager) (sack_ranges : list Sack.SackRange)
    : bool :=
  (s.(ack_threshold) <=? s.(ack_eliciting_packets_count)) &&
  match sack_ranges with [] => false | _ => true end.

Definition clear (s : SackManager) : SackManager := with_in_flight s ∅.

(** ** Acknowledgement processing *)

(** The loops over the ranges visit these sequence numbers in order. *)
Definition sack_seqs (ranges : list Sack.SackRange) : list Z :=
  flat_map (fun r => range_inclusive r.(Sack.start) r.(Sack.end_)) ranges.

Lemma elem_of_sack_seqs ranges k : k ∈ sack_seqs ranges <-> Sack.covers ranges k.
Proof.
  unfold sack_seqs. induction ranges as [|r ranges IH]; simpl.
  - split; intros H; [by apply elem_of_nil in H|by apply Sack.covers_nil in H].
  - by rewrite elem_of_app, IH, elem_of_range_inclusive, Sack.covers_cons.
Qed.

Lemma fold_left_flat_map {A B S} (f : S -> B -> S) (g : A -> list B) (l : list A) (s : S) :
  fold_left (fun s x => fold_left f (g x) s) l s = fold_left f (flat_map g l) s.
Proof. revert s. induction l as [|x l IH]; intros s; simpl; [done|]. by rewrite IH, fold_left_app. Qed.

(** [d] is the RTT sample of packet [k]. *)
Definition is_sample (m : InFlight) (now : Instant) (k : Z) (d : Duration) : Prop :=
  exists p, m !! k = Some p /\ d = duration_since now p.(last_sent_at).

Lemma sack_fold now seqs m ss acked :
  exists ks ds,
    fold_left (sack_one now) seqs (m, ss, acked) = (BTreeMap.remove_all m ks, ss ++ ds, acked ++ ks) /\
    NoDup ks /\ (forall k, k ∈ ks <-> k ∈ seqs /\ is_Some (m !! k)) /\
    Forall2 (is_sample m now) ks ds.
Proof.
  revert m ss acked. induction seqs as [|k seqs IH]; intros m ss acked.
  - exists [], []. rewrite !app_nil_r. split_and!; try done; [constructor|].
    intros k. rewrite elem_of_nil. tauto.
  - cbn [fold_left sack_one]. destruct (m !! k) as [p|] eqn:E.
    + destruct (IH (delete k m) (ss ++ [duration_since now (last_sent_at p)]) (acked ++ [k]))
        as (ks & ds & H1 & H2 & H3 & H4).
      assert (Hk : k ∉ ks).
      { rewrite H3, lookup_delete_eq. intros [_ [? ?]]. done. }
      exists (k :: ks), (duration_since now (last_sent_at p) :: ds).
      rewrite H1, <- !app_assoc. split_and!; [done|by constructor| |].
      * intros j. rewrite !elem_of_cons, H3.
        destruct (decide (j = k)) as [->|Hne]; [by rewrite E, lookup_delete_eq; naive_solver|].
        rewrite lookup_delete_ne by done. naive_solver.
      * constructor; [by exists p|]. eapply Forall2_impl; [exact H4|].
        intros j d (q & Hq & ->). apply lookup_delete_Some in Hq as [_ Hq]. by exists q.
    + destruct (IH m ss acked) as (ks & ds & H1 & H2 & H3 & H4).
      exists ks, ds. rewrite H1. split_and!; try done. intros j. rewrite H3, elem_of_cons.
      split; [naive_solver|]. intros [[->|?] Hs]; [by rewrite E in Hs; destruct Hs|done].
Qed.

(** ** Fast retransmission *)

Definition fires (threshold : Z) (p : SackInFlightPacket) : bool :=
  threshold <=? as_u16 (p.(fast_retx_count) + 1).

Definition bump (threshold : Z) (now : Instant) (p : SackInFlightPacket) : SackInFlightPacket :=
  if fires threshold p then {| last_sent_at := now; frame_info := p.(frame_info); fast_retx_count := 0 |}
  else {| last_sent_at := p.(last_sent_at); frame_info := p.(frame_info);
          fast_retx_count := as_u16 (p.(fast_retx_count) + 1) |}.

Lemma fast_fold threshold now context l m frames :
  NoDup l.*1 -> (forall k p, (k, p) ∈ l -> m !! k = Some p) ->
  exists m',
    fold_left (fast_one threshold now context) l.*1 (m, frames) =
      (m', frames ++ map (fun x => reconstruct_frame x.2.(frame_info) context now)
                       (List.filter (fun x => fires threshold x.2) l)) /\
    (forall k p, (k, p) ∈ l -> m' !! k = Some (bump threshold now p)) /\
    (forall k, k ∉ l.*1 -> m' !! k = m !! k).
Proof.
  revert m frames. induction l as [|[k p] l IH]; intros m frames Hnd Hl.
  - exists m. rewrite app_nil_r. split_and!; [done| |done].
    intros k p H. by apply elem_of_nil in H.
  - rewrite fmap_cons in *. apply NoDup_cons in Hnd as [Hk Hnd].
    assert (Ek : m !! k = Some p) by (apply Hl; left).
    set (m1 := <[k := bump threshold now p]> m).
    set (f1 := if fires threshold p then [reconstruct_frame p.(frame_info) context now] else []).
    assert (Estep : fast_one threshold now context (m, frames) k = (m1, frames ++ f1)).
    { unfold fast_one, m1, f1, bump, fires. rewrite Ek. case_match; [done|by rewrite app_nil_r]. }
    assert (Hm1 : forall k' p', (k', p') ∈ l -> m1 !! k' = Some p').
    { intros k' p' Hin. unfold m1. rewrite lookup_insert_ne; [apply Hl; by right|].
      intros <-. apply Hk. by apply (list_elem_of_fmap_2 fst _ (k, p')). }
    destruct (IH m1 (frames ++ f1) Hnd Hm1) as (m' & H1 & H2 & H3).
    exists m'. cbn [fold_left fst]. rewrite Estep, H1, <- app_assoc. split_and!.
    + f_equal. f_equal. cbn [List.filter snd]. unfold f1. by destruct (fires threshold p).
    + intros k' p' Hin. apply elem_of_cons in Hin as [[= -> ->]|Hin]; [|by apply H2].
      rewrite H3 by done. unfold m1. by rewrite lookup_insert_eq.
    + intros k' Hk'. rewrite elem_of_cons in Hk'. rewrite H3 by tauto. unfold m1.
      rewrite lookup_insert_ne; [done|]. simpl in Hk'. intros ->. tauto.
Qed.

Lemma check_fast_spec s sacked h now context :
  list_max sacked = Some h ->
  let thr := s.(fast_retx_threshold) in
  let '(s', frames) := check_fast_retransmission s sacked now context in
  (forall k, s'.(in_flight_packets) !! k =
     if k <? h then bump thr now <$> s.(in_flight_packets) !! k else s.(in_flight_packets) !! k) /\
  frames = map (fun x => reconstruct_frame x.2.(frame_info) context now)
             (List.filter (fun x => fires thr x.2) (BTreeMap.range_below s.(in_flight_packets) h)).
Proof.
  intros Hh thr. unfold check_fast_retransmission. rewrite Hh.
  destruct (fast_fold thr now context (BTreeMap.range_below (in_flight_packets s) h)
              (in_flight_packets s) []) as (m' & H1 & H2 & H3).
  - apply BTreeMap.range_below_NoDup.
  - intros k p Hin. by apply BTreeMap.elem_of_range_below in Hin as [? _].
  - fold thr. rewrite H1. split; [|done]. simpl. intros k.
    destruct (Z.ltb_spec k h) as [Hlt|Hge].
    + destruct (in_flight_packets s !! k) as [p|] eqn:E; simpl.
      * apply H2. by apply BTreeMap.elem_of_range_below.
      * rewrite H3; [done|]. intros Hin. apply list_elem_of_fmap_1 in Hin as ([k' p] & -> & Hin).
        apply BTreeMap.elem_of_range_below in Hin as [Hin _]. simpl in E. congruence.
    + apply H3. intros Hin. apply list_elem_of_fmap_1 in Hin as ([k' p] & -> & Hin).
      apply BTreeMap.elem_of_range_below in Hin as [_ Hlt]. simpl in Hge. lia.
Qed.

(** Steps 1 and 2 of [process_ack]: what is acknowledged. *)
Lemma process_ack_spec s rns ranges now context :
  exists sacked ds,
    let cumulative := BTreeMap.range_below s.(in_flight_packets) rns in
    let m2 := BTreeMap.remove_all
                (BTreeMap.remove_all s.(in_flight_packets) cumulative.*1) sacked in
    let samples1 := map (fun x => duration_since now x.2.(last_sent_at)) cumulative in
    NoDup sacked /\
    (forall k, k ∈ sacked <-> Sack.covers ranges k /\ rns <= k /\ is_Some (s.(in_flight_packets) !! k)) /\
    Forall2 (is_sample s.(in_flight_packets) now) sacked ds /\
    exists s' frames,
      process_ack s rns ranges now context =
        (s', {| frames_to_retransmit := frames; rtt_samples := samples1 ++ ds;
                newly_acked_sequences := cumulative.*1 ++ sacked |}) /\
      (s', frames) = match sacked with
                     | [] => (with_in_flight s m2, [])
                     | _ => check_fast_retransmission (with_in_flight s m2) sacked now context
                     end.
Proof.
  set (cumulative := BTreeMap.range_below (in_flight_packets s) rns).
  set (m1 := BTreeMap.remove_all (in_flight_packets s) cumulative.*1).
  destruct (sack_fold now (sack_seqs ranges) m1 [] []) as (sacked & ds & HL & Hnd & Hin & Hds).
  assert (Hm1 : forall k p, m1 !! k = Some p <-> in_flight_packets s !! k = Some p /\ rns <= k).
  { intros k p. unfold m1. rewrite BTreeMap.lookup_remove_all. case_decide as Hk.
    - apply list_elem_of_fmap_1 in Hk as ([k' p'] & -> & Hk).
      apply BTreeMap.elem_of_range_below in Hk as [_ Hk]. simpl. split; [done|lia].
    - split; [|tauto]. intros Hp. split; [done|].
      destruct (Z.le_gt_cases rns k) as [|Hlt]; [done|]. exfalso. apply Hk.
      apply (list_elem_of_fmap_2 fst _ (k, p)). by apply BTreeMap.elem_of_range_below. }
  exists sacked, ds. split_and!.
  - done.
  - intros k. rewrite Hin, elem_of_sack_seqs. unfold is_Some. setoid_rewrite Hm1. naive_solver.
  - eapply Forall2_impl; [exact Hds|]. intros k d (p & Hp & ->). apply Hm1 in Hp as [Hp _].
    by exists p.
  - unfold process_ack. rewrite BTreeMap.take_below_entries, fold_left_flat_map.
    fold (sack_seqs ranges). fold cumulative. fold m1. rewrite HL.
    destruct sacked as [|k0 sacked]; simpl app.
    + by eexists _, _.
    + destruct (check_fast_retransmission _ _ now context) as [s3 frames]. by eexists _, _.
Qed.

Lemma cumulative_samples m now rns :
  Forall2 (is_sample m now) (BTreeMap.range_below m rns).*1
    (map (fun x => duration_since now x.2.(last_sent_at)) (BTreeMap.range_below m rns)).
Proof.
  assert (H : forall x, x ∈ BTreeMap.range_below m rns -> m !! x.1 = Some x.2).
  { intros [k p] Hx. by apply BTreeMap.elem_of_range_below in Hx as [? _]. }
  revert H. induction (BTreeMap.range_below m rns) as [|x l IH]; intros H; [constructor|].
  constructor; [|apply IH; intros; apply H; by right].
  exists x.2. split; [apply H; left|done].
Qed.

Lemma bump_info thr now p : frame_info (bump thr now p) = frame_info p.
Proof. unfold bump. by case_match. Qed.

(** After [process_ack]: the packets left, each with its frame description. *)
Lemma process_ack_left s rns ranges now context k :
  let '(s', r) := process_ack s rns ranges now context in
  frame_info <$> s'.(in_flight_packets) !! k =
    if decide (k ∈ r.(newly_acked_sequences)) then None
    else frame_info <$> s.(in_flight_packets) !! k.
Proof.
  destruct (process_ack_spec s rns ranges now context)
    as (sacked & ds & Hnd & Hin & _ & s' & frames & -> & Hs').
  cbn [newly_acked_sequences].
  set (cum := (BTreeMap.range_below (in_flight_packets s) rns).*1) in *.
  assert (Hm2 : frame_info <$> BTreeMap.remove_all (BTreeMap.remove_all (in_flight_packets s) cum) sacked !! k =
    if decide (k ∈ cum ++ sacked) then None else frame_info <$> in_flight_packets s !! k).
  { rewrite !BTreeMap.lookup_remove_all. repeat case_decide; try done; set_solver. }
  rewrite <- Hm2. destruct sacked as [|k0 sacked]; [by injection Hs' as -> _|].
  destruct (list_max (k0 :: sacked)) as [h|] eqn:Eh; [|done].
  pose proof (check_fast_spec (with_in_flight s (BTreeMap.remove_all (BTreeMap.remove_all
    (in_flight_packets s) cum) (k0 :: sacked))) (k0 :: sacked) h now context Eh) as Hf.
  cbv zeta in Hf. rewrite <- Hs' in Hf. destruct Hf as [Hf _]. rewrite Hf. cbn [with_in_flight in_flight_packets].
  destruct (k <? h); [|done].
  destruct (BTreeMap.remove_all _ _ !! k); simpl; [by rewrite bump_info|done].
Qed.

(** ** Properties *)

Lemma process_ack_facts s rns ranges now context :
  let '(s', r) := process_ack s rns ranges now context in
  NoDup r.(newly_acked_sequences) /\
  (forall k, k ∈ r.(newly_acked_sequences) <->
     is_Some (s.(in_flight_packets) !! k) /\ (k < rns \/ Sack.covers ranges k)) /\
  Forall2 (is_sample s.(in_flight_packets) now) r.(newly_acked_sequences) r.(rtt_samples).
Proof.
  destruct (process_ack_spec s rns ranges now context)
    as (sacked & ds & Hnd & Hin & Hds & s' & frames & E & _).
  rewrite E. cbn [newly_acked_sequences rtt_samples] in *.
  assert (Hcum : forall k, k ∈ (BTreeMap.range_below (in_flight_packets s) rns).*1 <->
    is_Some (in_flight_packets s !! k) /\ k < rns).
  { intros k. split.
    - intros H. apply list_elem_of_fmap_1 in H as ([k' p] & -> & H).
      apply BTreeMap.elem_of_range_below in H as [? ?]. split; [by eexists|done].
    - intros [[p Hp] Hlt]. apply (list_elem_of_fmap_2 fst _ (k, p)).
      by apply BTreeMap.elem_of_range_below. }
  split_and!.
  - apply NoDup_app. split_and!; [apply BTreeMap.range_below_NoDup| |done].
    intros k Hk Hk'. apply Hcum in Hk as [_ Hk]. apply Hin in Hk' as (_ & Hk' & _). lia.
  - intros k. rewrite elem_of_app, Hcum, Hin. split; [tauto|].
    intros [Hs Hor]. destruct (Z.lt_ge_cases k rns); tauto.
  - apply Forall2_app; [apply cumulative_samples|done].
Qed.

Lemma process_ack_sound s rns ranges now context :
  let '(s', r) := process_ack s rns ranges now context in
  (forall k, k ∈ r.(newly_acked_sequences) <->
     is_Some (s.(in_flight_packets) !! k) /\ (k < rns \/ Sack.covers ranges k)) /\
  (forall k, is_Some (s'.(in_flight_packets) !! k) <->
     is_Some (s.(in_flight_packets) !! k) /\ k ∉ r.(newly_acked_sequences)).
Proof.
  pose proof (process_ack_left s rns ranges now context) as Hleft.
  pose proof (process_ack_facts s rns ranges now context) as Hf.
  destruct (process_ack s rns ranges now context) as [s' r]. destruct Hf as (_ & Hin & _).
  split; [done|]. intros k. specialize (Hleft k).
  rewrite <- (fmap_is_Some frame_info (in_flight_packets s' !! k)), Hleft.
  case_decide; [|rewrite fmap_is_Some; tauto]. split; [intros []; done|tauto].
Qed.

(** An ACK that covers nothing in flight. *)
Lemma process_ack_nothing s rns ranges now context :
  (forall k, is_Some (s.(in_flight_packets) !! k) -> ~ (k < rns \/ Sack.covers ranges k)) ->
  process_ack s rns ranges now context =
    (s, {| frames_to_retransmit := []; rtt_samples := []; newly_acked_sequences := [] |}).
Proof.
  intros Hno. destruct (process_ack_spec s rns ranges now context)
    as (sacked & ds & Hnd & Hin & Hds & s' & frames & -> & E).
  assert (Hs : sacked = []).
  { destruct sacked as [|k l]; [done|]. exfalso.
    destruct (proj1 (Hin k)) as (? & ? & Hk); [left|]. apply (Hno k Hk). by right. }
  assert (Hc : BTreeMap.range_below (in_flight_packets s) rns = []).
  { destruct (BTreeMap.range_below _ _) as [|[k p] l] eqn:Er; [done|]. exfalso.
    assert (Hk : (k, p) ∈ BTreeMap.range_below (in_flight_packets s) rns) by (rewrite Er; left).
    apply BTreeMap.elem_of_range_below in Hk as [Hk Hlt]. apply (Hno k); [by eexists|by left]. }
  subst sacked. inversion Hds; subst ds. rewrite Hc in *. simpl in *. injection E as -> ->.
  f_equal. by destruct s.
Qed.

(** C22: exactness of acknowledgement processing.  The sequence numbers newly
    acknowledged are, once each, the packets in flight below [recv_next_seq]
    or inside a SACK range; each contributes one RTT sample, the time since it
    was last sent; precisely those packets leave the in-flight map and the
    others keep their frame. *)
Theorem process_ack_exact s rns ranges now context :
  let '(s', r) := process_ack s rns ranges now context in
  NoDup r.(newly_acked_sequences) /\
  (forall k, k ∈ r.(newly_acked_sequences) <->
     is_Some (s.(in_flight_packets) !! k) /\ (k < rns \/ Sack.covers ranges k)) /\
  Forall2 (is_sample s.(in_flight_packets) now) r.(newly_acked_sequences) r.(rtt_samples) /\
  (forall k, frame_info <$> s'.(in_flight_packets) !! k =
     if decide (k ∈ r.(newly_acked_sequences)) then None
     else frame_info <$> s.(in_flight_packets) !! k).
Proof.
  pose proof (process_ack_left s rns ranges now context) as Hleft.
  pose proof (process_ack_facts s rns ranges now context) as Hf.
  destruct (process_ack s rns ranges now context) as [s' r]. by destruct Hf as (? & ? & ?).
Qed.

Lemma fmap_remove_all {A B} (f : A -> B) (m : gmap Z A) ks :
  f <$> BTreeMap.remove_all m ks = BTreeMap.remove_all (f <$> m) ks.
Proof.
  apply map_eq. intros k. rewrite lookup_fmap, !BTreeMap.lookup_remove_all, lookup_fmap.
  by case_decide.
Qed.

(** Every acknowledged packet leaves the in-flight count. *)
Lemma process_ack_count s rns ranges now context :
  let '(s', r) := process_ack s rns ranges now context in
  in_flight_count s' = in_flight_count s - len r.(newly_acked_sequences).
Proof.
  pose proof (process_ack_left s rns ranges now context) as Hl.
  pose proof (process_ack_spec s rns ranges now context) as (sacked & ds & Hnd & Hin & _ & s0 & fr & E & _).
  rewrite E in Hl |- *. cbn [newly_acked_sequences] in *.
  set (cum := (BTreeMap.range_below (in_flight_packets s) rns).*1) in *.
  assert (Hm : frame_info <$> in_flight_packets s0 =
               frame_info <$> BTreeMap.remove_all (in_flight_packets s) (cum ++ sacked)).
  { apply map_eq. intros k. rewrite !lookup_fmap, Hl, BTreeMap.lookup_remove_all. by case_decide. }
  unfold in_flight_count, BTreeMap.map_len. apply (f_equal size) in Hm. rewrite !map_size_fmap in Hm.
  rewrite Hm. apply BTreeMap.remove_all_size.
  - apply NoDup_app. split_and!; [apply BTreeMap.range_below_NoDup| |done].
    intros k Hk Hk'. apply list_elem_of_fmap_1 in Hk as ([k' p] & -> & Hk).
    apply BTreeMap.elem_of_range_below in Hk as [_ Hk]. apply Hin in Hk' as (_ & Hk' & _).
    simpl in Hk'. lia.
  - intros k Hk. apply elem_of_app in Hk as [Hk|Hk]; [|by apply Hin].
    apply list_elem_of_fmap_1 in Hk as ([k' p] & -> & Hk).
    apply BTreeMap.elem_of_range_below in Hk as [Hk _]. by eexists.
Qed.

(** C33: fast retransmission.  Packets are resent only when the ACK newly
    selectively acknowledges something; then the packets still in flight
    below the highest such sequence number have their counter incremented, and
    those that reach the threshold, and only those, are resent in sequence
    order, with a cleared counter and a fresh timestamp; the packets above are
    untouched. *)
Theorem fast_retransmission_exact s sacked now context :
  let thr := s.(fast_retx_threshold) in
  let '(s', frames) := check_fast_retransmission s sacked now context in
  match list_max sacked with
  | None => s' = s /\ frames = []
  | Some h =>
      (forall k, s'.(in_flight_packets) !! k =
         if k <? h then bump thr now <$> s.(in_flight_packets) !! k
         else s.(in_flight_packets) !! k) /\
      frames = map (fun x => reconstruct_frame x.2.(frame_info) context now)
                 (List.filter (fun x => fires thr x.2)
                    (BTreeMap.range_below s.(in_flight_packets) h))
  end.
Proof.
  intros thr. destruct (list_max sacked) as [h|] eqn:E.
  - by apply (check_fast_spec s sacked h now context).
  - unfold check_fast_retransmission. by rewrite E.
Qed.

Lemma elem_of_List_filter {A} (f : A -> bool) (l : list A) (x : A) :
  x ∈ List.filter f l <-> x ∈ l /\ f x = true.
Proof. rewrite !list_elem_of_In. apply filter_In. Qed.

Lemma existsb_filter_nil {A} (f : A -> bool) (l : list A) :
  List.filter f l = [] <-> forall x, x ∈ l -> f x = false.
Proof.
  split.
  - intros H x Hx. destruct (f x) eqn:E; [|done]. exfalso.
    apply (not_elem_of_nil x). rewrite <- H. by apply elem_of_List_filter.
  - intros H. destruct (List.filter f l) as [|x l'] eqn:E; [done|].
    assert (Hx : x ∈ List.filter f l) by (rewrite E; left).
    apply elem_of_List_filter in Hx as [Hx Hf]. rewrite H in Hf by done. done.
Qed.

Lemma next_rto_deadline_spec s rto d :
  next_rto_deadline s rto = Some d ->
  (exists k p, s.(in_flight_packets) !! k = Some p /\ d = p.(last_sent_at) + rto) /\
  forall k p, s.(in_flight_packets) !! k = Some p -> d <= p.(last_sent_at) + rto.
Proof.
  intros H. apply list_min_Some in H as [Hd Hmin]. split.
  - apply list_elem_of_In, in_map_iff in Hd as (p & <- & Hp). apply list_elem_of_In in Hp.
    apply BTreeMap.elem_of_values in Hp as [k Hk]. eauto.
  - intros k p Hk. apply Hmin, list_elem_of_In, in_map_iff. exists p. split; [done|].
    apply list_elem_of_In, BTreeMap.elem_of_values. eauto.
Qed.

Lemma check_for_rto_frames s rto now context :
  (check_for_rto s rto now context).2 = [] <->
  forall k p, s.(in_flight_packets) !! k = Some p -> overdue rto now p = false.
Proof.
  simpl. split.
  - intros H. apply map_eq_nil in H. rewrite existsb_filter_nil in H.
    intros k p Hk. apply H, BTreeMap.elem_of_values. eauto.
  - intros H. rewrite (proj2 (existsb_filter_nil _ _)); [done|].
    intros p Hp. apply BTreeMap.elem_of_values in Hp as [k Hk]. eauto.
Qed.

Lemma overdue_iff rto now p : 0 <= rto -> overdue rto now p = true <-> p.(last_sent_at) + rto < now.
Proof. intros. unfold overdue, duration_since, saturating_sub. rewrite Z.ltb_lt. lia. Qed.

Lemma rto_frames_deadline s rto now context :
  0 <= rto ->
  (check_for_rto s rto now context).2 <> [] <->
  exists d, next_rto_deadline s rto = Some d /\ d < now.
Proof.
  intros Hrto. rewrite check_for_rto_frames. split.
  - intros Hne. destruct (next_rto_deadline s rto) as [d|] eqn:Ed.
    + exists d. split; [done|]. apply next_rto_deadline_spec in Ed as [_ Hmin].
      destruct (Z.lt_ge_cases d now) as [|Hge]; [done|]. exfalso. apply Hne.
      intros k p Hk. apply not_true_is_false. rewrite overdue_iff by done.
      specialize (Hmin _ _ Hk). lia.
    + exfalso. apply Hne. intros k p Hk. apply list_min_None, map_eq_nil in Ed.
      assert (Hp : p ∈ BTreeMap.values (in_flight_packets s))
        by (apply BTreeMap.elem_of_values; eauto).
      rewrite Ed in Hp. by apply elem_of_nil in Hp.
  - intros (d & Hd & Hlt) Hall. apply next_rto_deadline_spec in Hd as [(k & p & Hk & ->) _].
    specialize (Hall k p Hk). apply (overdue_iff rto now p Hrto) in Hlt. congruence.
Qed.

(** The retransmission timeout agrees with its deadline.  A check resends
    something exactly when the earliest deadline is strictly in the past; no
    packet is lost from the map by it, and checking again at the same instant
    resends nothing. *)
Theorem check_for_rto_deadline s rto now context :
  0 <= rto ->
  let '(s', frames) := check_for_rto s rto now context in
  (frames <> [] <-> exists d, next_rto_deadline s rto = Some d /\ d < now) /\
  (forall k, frame_info <$> s'.(in_flight_packets) !! k =
             frame_info <$> s.(in_flight_packets) !! k) /\
  (check_for_rto s' rto now context).2 = [].
Proof.
  intros Hrto. destruct (check_for_rto s rto now context) as [s' frames] eqn:E.
  assert (Hs' : s' = with_in_flight s
    ((fun p => if overdue rto now p then touch now p else p) <$> s.(in_flight_packets)))
    by (unfold check_for_rto in E; congruence).
  assert (Hf : frames = (check_for_rto s rto now context).2) by (by rewrite E).
  split_and!.
  - rewrite Hf. by apply rto_frames_deadline.
  - intros k. rewrite Hs'. simpl. rewrite lookup_fmap.
    destruct (in_flight_packets s !! k); simpl; [|done]. by case_match.
  - apply check_for_rto_frames. intros k p. rewrite Hs'. simpl. rewrite lookup_fmap.
    destruct (in_flight_packets s !! k) as [q|]; simpl; [|done]. intros [= <-].
    destruct (overdue rto now q) eqn:Eq; [|done]. apply not_true_is_false.
    rewrite overdue_iff by done. simpl. lia.
Qed.

Definition example_manager : SackManager :=
  add_in_flight_packet
    (add_in_flight_packet (new 3 2) (Frame.new_push 1 0 0 256 0 [Byte.x61]) 0)
    (Frame.new_push 1 1 0 256 0 [Byte.x62]) (from_millis 700).

Lemma check_for_rto_deadline_witness :
  let rto := from_millis 500 in
  let now := from_secs 1 in
  let '(s', frames) := check_for_rto example_manager rto now example_context in
  (frames <> [] <-> exists d, next_rto_deadline example_manager rto = Some d /\ d < now) /\
  (forall k, frame_info <$> s'.(in_flight_packets) !! k =
             frame_info <$> example_manager.(in_flight_packets) !! k) /\
  (check_for_rto s' rto now example_context).2 = [].
Proof. intros rto now. apply check_for_rto_deadline. vm_compute. discriminate. Defined.

End SackManager.
