(* ===== verification/SimpleRetx.v ===== *)
(** * Simple retransmission manager

    Models [src/core/reliability/retransmission/simple_retx_manager.rs]: the
    timeout-based retransmission of control frames, with a bounded number of
    retries. *)

From S2P Require Import Prelude BTreeMap Packet Config Frame SackManager.

Module SimpleRetransmissionManager.
Import RetransmissionFrameInfo.
Abbreviation Context_ := RetransmissionContext.RetransmissionContext.

Record SimpleInFlightPacket := {
  frame_info : RetransmissionFrameInfo;
  last_sent_at : Instant;
  retry_count : Z;          (* u8 *)
  max_retries : Z;          (* u8 *)
  retry_interval : Duration;
}.

(** [struct SimpleRetransmissionManager { in_flight_simple }]. *)
Abbreviation Manager := (gmap Z SimpleInFlightPacket).

(** ** Operations *)

Definition new : Manager := ∅.

Definition add_packet (m : Manager) (frame : Frame.Frame) (now : Instant) : Manager :=
  match Frame.sequence_number frame with
  | None => m
  | Some seq =>
      match Frame.reliability_mode frame with
      | Frame.SimpleRetransmit max_retries retry_interval =>
          match from_frame frame with
          | None => m
          | Some frame_info =>
              <[seq := {| frame_info := frame_info; last_sent_at := now; retry_count := 0;
                          max_retries := max_retries; retry_interval := retry_interval |}]> m
          end
      | _ => m
      end
  end.

(** [if m.remove(&seq).is_some() { acked.push(seq) }] *)
Definition ack_one (st : Manager * list Z) (seq : Z) : Manager * list Z :=
  let '(m, acked) := st in
  match m !! seq with
  | Some _ => (delete seq m, acked ++ [seq])
  | None => st
  end.

Definition acknowledge_up_to (m : Manager) (recv_next_seq : Z) : Manager * list Z :=
  let keys_to_remove := (BTreeMap.range_below m recv_next_seq).*1 in
  fold_left ack_one keys_to_remove (m, []).

Definition acknowledge_sack_ranges (m : Manager) (sack_ranges : list Sack.SackRange)
    : Manager * list Z :=
  fold_left
    (fun st range =>
       fold_left ack_one (range_inclusive range.(Sack.start) range.(Sack.end_)) st)
    sack_ranges (m, []).

(** The branches of the loop of [check_for_retransmissions]. *)
Definition due (now : Instant) (p : SimpleInFlightPacket) : bool :=
  p.(retry_interval) <=? duration_since now p.(last_sent_at).

Definition retries_left (p : SimpleInFlightPacket) : bool := p.(retry_count) <? p.(max_retries).

Definition resend (now : Instant) (p : SimpleInFlightPacket) : SimpleInFlightPacket :=
  {| frame_info := p.(frame_info); last_sent_at := now; retry_count := p.(retry_count) + 1;
     max_retries := p.(max_retries); retry_interval := p.(retry_interval) |}.

(** One iteration: the map being updated in place, the frames and the expired
    sequence numbers collected so far. *)
Definition check_one (now : Instant) (context : Context_)
    (st : Manager * list Frame.Frame * list Z) (entry : Z * SimpleInFlightPacket)
    : Manager * list Frame.Frame * list Z :=
  let '(m, frames, expired) := st in
  let '(seq, packet) := entry in
  if due now packet then
    if retries_left packet then
      (<[seq := resend now packet]> m,
       frames ++ [reconstruct_frame packet.(frame_info) context now], expired)
    else (m, frames, expired ++ [seq])
  else st.

Definition check_for_retransmissions (m : Manager) (now : Instant) (context : Context_)
    : Manager * list Frame.Frame :=
  let '(m', frames, expired) :=
    fold_left (check_one now context) (BTreeMap.entries m) (m, [], []) in
  (BTreeMap.remove_all m' expired, frames).

Definition next_retransmission_deadline (m : Manager) : option Instant :=
  list_min (map (fun p => p.(last_sent_at) + p.(retry_interval)) (BTreeMap.values m)).

Definition in_flight_count (m : Manager) : Z := BTreeMap.map_len m.

Definition is_empty (m : Manager) : bool := bool_decide (m = ∅).

Definition has_frame_type_in_flight (m : Manager) (frame_type : FrameType.FrameType) : bool :=
  existsb (fun p => bool_decide (RetransmissionFrameInfo.frame_type p.(frame_info) = frame_type))
    (BTreeMap.values m).

Definition clear (m : Manager) : Manager := ∅.

(** ** Acknowledgements *)

Lemma ack_fold seqs m acked :
  exists ks, fold_left ack_one seqs (m, acked) = (BTreeMap.remove_all m ks, acked ++ ks) /\
    NoDup ks /\ forall k, k ∈ ks <-> k ∈ seqs /\ is_Some (m !! k).
Proof.
  revert m acked. induction seqs as [|k seqs IH]; intros m acked.
  - exists []. rewrite app_nil_r. split_and!; try done; [constructor|].
    intros k. rewrite elem_of_nil. tauto.
  - cbn [fold_left ack_one]. destruct (m !! k) as [p|] eqn:E.
    + destruct (IH (delete k m) (acked ++ [k])) as (ks & H1 & H2 & H3).
      assert (Hk : k ∉ ks) by (rewrite H3, lookup_delete_eq; intros [_ [? ?]]; done).
      exists (k :: ks). rewrite H1, <- app_assoc. split_and!; [done|by constructor|].
      intros j. rewrite !elem_of_cons, H3.
      destruct (decide (j = k)) as [->|Hne]; [rewrite E, lookup_delete_eq; naive_solver|].
      rewrite lookup_delete_ne by done. naive_solver.
    + destruct (IH m acked) as (ks & H1 & H2 & H3). exists ks. rewrite H1.
      split_and!; try done. intros j. rewrite H3, elem_of_cons.
      split; [naive_solver|]. intros [[->|?] Hs]; [by rewrite E in Hs; destruct Hs|done].
Qed.

(** ** One retransmission check *)

(** What becomes of a packet. *)
Definition after_check (now : Instant) (p : SimpleInFlightPacket) : option SimpleInFlightPacket :=
  if due now p then if retries_left p then Some (resend now p) else None else Some p.

Definition resent (now : Instant) (p : SimpleInFlightPacket) : bool := due now p && retries_left p.

Lemma check_fold now context l m frames expired :
  NoDup l.*1 -> (forall k p, (k, p) ∈ l -> m !! k = Some p) -> (forall k, k ∈ l.*1 -> k ∉ expired) ->
  let '(m', frames', expired') := fold_left (check_one now context) l (m, frames, expired) in
  frames' = frames ++ map (fun x => reconstruct_frame x.2.(frame_info) context now)
                        (List.filter (fun x => resent now x.2) l) /\
  (forall k p, (k, p) ∈ l ->
     BTreeMap.remove_all m' expired' !! k = after_check now p) /\
  (forall k, k ∉ l.*1 -> m' !! k = m !! k /\ (k ∈ expired' <-> k ∈ expired)).
Proof.
  revert m frames expired. induction l as [|[k p] l IH]; intros m frames expired Hnd Hl Hexp.
  - simpl. rewrite app_nil_r. split_and!; [done| |done].
    intros k p H. by apply elem_of_nil in H.
  - rewrite fmap_cons in Hnd, Hexp. apply NoDup_cons in Hnd as [Hk Hnd]. simpl in Hk.
    assert (Ek : m !! k = Some p) by (apply Hl; left).
    set (m1 := if resent now p then <[k := resend now p]> m else m).
    set (f1 := if resent now p then [reconstruct_frame p.(frame_info) context now] else []).
    set (e1 := if due now p && negb (retries_left p) then expired ++ [k] else expired).
    assert (Estep : check_one now context (m, frames, expired) (k, p) = (m1, frames ++ f1, e1)).
    { unfold check_one, m1, f1, e1, resent.
      destruct (due now p), (retries_left p); simpl; by rewrite ?app_nil_r. }
    assert (Hk_exp : k ∉ expired) by (apply Hexp; left).
    assert (Hm1 : forall k' p', (k', p') ∈ l -> m1 !! k' = Some p').
    { intros k' p' Hin. assert (k <> k').
      { intros <-. apply Hk. by apply (list_elem_of_fmap_2 fst _ (k, p')). }
      unfold m1. case_match; [rewrite lookup_insert_ne by done|]; apply Hl; by right. }
    assert (He1 : forall j, j ∈ l.*1 -> j ∉ e1).
    { intros j Hj. assert (j <> k) by (intros ->; done). unfold e1.
      assert (j ∉ expired) by (apply Hexp; by right).
      case_match; [|done]. rewrite elem_of_app, list_elem_of_singleton. tauto. }
    cbn [fold_left]. rewrite Estep. specialize (IH m1 (frames ++ f1) e1 Hnd Hm1 He1).
    destruct (fold_left _ l (m1, frames ++ f1, e1)) as [[m' frames'] expired'].
    destruct IH as (H1 & H2 & H3). split_and!.
    + rewrite H1, <- app_assoc. cbn [List.filter snd]. unfold f1. by destruct (resent now p).
    + intros k' p' Hin. apply elem_of_cons in Hin as [[= -> ->]|Hin]; [|by apply H2].
      destruct (H3 k Hk) as [E1 E2]. rewrite BTreeMap.lookup_remove_all, E1.
      unfold after_check, m1, resent. unfold e1 in E2.
      destruct (due now p), (retries_left p); simpl in *; case_decide as Hd;
        rewrite ?lookup_insert_eq; try done.
      all: try (apply E2 in Hd; done).
      exfalso. apply Hd, E2. rewrite elem_of_app, list_elem_of_singleton. tauto.
    + intros j Hj. rewrite fmap_cons, elem_of_cons in Hj. simpl in Hj.
      destruct (H3 j) as [E1 E2]; [tauto|]. split.
      * rewrite E1. unfold m1. case_match; [|done]. rewrite lookup_insert_ne; [done|].
        intros ->. tauto.
      * rewrite E2. unfold e1. case_match; [|done].
        rewrite elem_of_app, list_elem_of_singleton. tauto.
Qed.

Lemma entries_keys_NoDup (m : Manager) : NoDup (BTreeMap.entries m).*1.
Proof. apply BTreeMap.keys_NoDup. Qed.

Lemma check_spec m now context :
  let '(m', frames) := check_for_retransmissions m now context in
  (forall k, m' !! k = m !! k ≫= after_check now) /\
  frames = map (fun x => reconstruct_frame x.2.(frame_info) context now)
             (List.filter (fun x => resent now x.2) (BTreeMap.entries m)).
Proof.
  unfold check_for_retransmissions.
  pose proof (check_fold now context (BTreeMap.entries m) m [] [] (entries_keys_NoDup m)) as H.
  destruct (fold_left _ _ _) as [[m' frames] expired].
  destruct H as (H1 & H2 & H3).
  - intros k p Hin. by apply BTreeMap.elem_of_entries.
  - intros k _. apply not_elem_of_nil.
  - split; [|done]. intros k. destruct (m !! k) as [p|] eqn:E; simpl.
    + apply H2. by apply BTreeMap.elem_of_entries.
    + assert (Hk : k ∉ (BTreeMap.entries m).*1).
      { intros Hin. apply BTreeMap.elem_of_keys in Hin as [p Hp]. congruence. }
      destruct (H3 k Hk) as [E1 E2]. rewrite BTreeMap.lookup_remove_all, E1, E.
      by case_decide.
Qed.

Lemma acknowledge_up_to_spec m rns :
  exists ks, acknowledge_up_to m rns = (BTreeMap.remove_all m ks, ks) /\ NoDup ks /\
    forall k, k ∈ ks <-> k < rns /\ is_Some (m !! k).
Proof.
  destruct (ack_fold (BTreeMap.range_below m rns).*1 m []) as (ks & H1 & H2 & H3).
  exists ks. split_and!; [done..|]. intros k. rewrite H3. split.
  - intros [Hin Hs]. split; [|done].
    apply list_elem_of_fmap_1 in Hin as ([k' p] & -> & Hin).
    by apply BTreeMap.elem_of_range_below in Hin as [_ ?].
  - intros [Hlt [p Hp]]. split; [|by eexists].
    apply (list_elem_of_fmap_2 fst _ (k, p)). by apply BTreeMap.elem_of_range_below.
Qed.

Lemma acknowledge_sack_ranges_spec m ranges :
  exists ks, acknowledge_sack_ranges m ranges = (BTreeMap.remove_all m ks, ks) /\ NoDup ks /\
    forall k, k ∈ ks <-> Sack.covers ranges k /\ is_Some (m !! k).
Proof.
  unfold acknowledge_sack_ranges. rewrite SackManager.fold_left_flat_map.
  fold (SackManager.sack_seqs ranges).
  destruct (ack_fold (SackManager.sack_seqs ranges) m []) as (ks & H1 & H2 & H3).
  exists ks. split_and!; [done..|]. intros k. by rewrite H3, SackManager.elem_of_sack_seqs.
Qed.

(** ** Successive checks of a packet that is never acknowledged *)

Definition checks (context : Context_) (m : Manager) (nows : list Instant) : Manager :=
  fold_left (fun m now => (check_for_retransmissions m now context).1) nows m.

(** How many of the checks resend packet [k]. *)
Fixpoint sends (context : Context_) (k : Z) (m : Manager) (nows : list Instant) : Z :=
  match nows with
  | [] => 0
  | now :: nows =>
      (match m !! k with Some p => if resent now p then 1 else 0 | None => 0 end) +
      sends context k (check_for_retransmissions m now context).1 nows
  end.

(** Each check comes at least [interval] after the previous one (after [t]
    for the first). *)
Fixpoint spaced (t interval : Z) (nows : list Instant) : bool :=
  match nows with
  | [] => true
  | now :: nows => (t + interval <=? now) && spaced now interval nows
  end.

Lemma check_lookup m now context k :
  (check_for_retransmissions m now context).1 !! k = m !! k ≫= after_check now.
Proof.
  pose proof (check_spec m now context) as H.
  destruct (check_for_retransmissions m now context). apply H.
Qed.

Lemma checks_gone context k m nows :
  m !! k = None -> checks context m nows !! k = None /\ sends context k m nows = 0.
Proof.
  revert m. induction nows as [|now nows IH]; intros m Hm; [done|]. cbn [checks fold_left sends].
  destruct (IH (check_for_retransmissions m now context).1) as [H1 H2].
  { by rewrite check_lookup, Hm. }
  by rewrite Hm, H2.
Qed.

Lemma due_spaced now p : 0 <= retry_interval p -> last_sent_at p + retry_interval p <= now -> due now p = true.
Proof. intros. unfold due, duration_since, saturating_sub. apply Z.leb_le. lia. Qed.

Lemma sends_bounded context k nows : forall m p,
  m !! k = Some p -> 0 <= retry_count p <= max_retries p ->
  0 <= sends context k m nows <= max_retries p - retry_count p.
Proof.
  induction nows as [|now nows IH]; intros m p Hm Hr; cbn [sends]; [lia|]. rewrite Hm.
  pose proof (check_lookup m now context k) as Hl. rewrite Hm in Hl. simpl in Hl.
  unfold after_check in Hl. unfold resent. destruct (due now p); [|by apply IH].
  destruct (retries_left p) eqn:El; unfold retries_left in El; simpl.
  - apply Z.ltb_lt in El. apply IH in Hl; simpl in *; lia.
  - apply (checks_gone context k _ nows) in Hl as [_ ->]. lia.
Qed.

Lemma sends_spaced context k nows : forall m p,
  m !! k = Some p -> 0 <= retry_interval p -> 0 <= retry_count p <= max_retries p ->
  spaced (last_sent_at p) (retry_interval p) nows = true ->
  let left := max_retries p - retry_count p in
  sends context k m nows = Z.min (len nows) left /\
  (checks context m nows !! k = None <-> left < len nows).
Proof.
  induction nows as [|now nows IH]; intros m p Hm Hi Hr Hsp; cbv zeta.
  - unfold len. cbn [checks fold_left sends length]. rewrite Hm. split; [lia|].
    split; [done|]. lia.
  - cbn [spaced] in Hsp. apply andb_true_iff in Hsp as [Ht Hsp]. apply Z.leb_le in Ht.
    pose proof (due_spaced now p Hi Ht) as Hdue. pose proof (len_nonneg nows).
    pose proof (check_lookup m now context k) as Hl. rewrite Hm in Hl. simpl in Hl.
    unfold after_check in Hl. rewrite Hdue in Hl.
    cbn [sends checks fold_left]. rewrite Hm, len_cons. unfold resent. rewrite Hdue.
    destruct (retries_left p) eqn:El; unfold retries_left in El.
    + apply Z.ltb_lt in El.
      destruct (IH _ _ Hl) as [H1 H2]; simpl; [done|lia|done|].
      cbv zeta in H1, H2. simpl in H1, H2. unfold checks in H2. rewrite H1, H2. simpl. lia.
    + apply Z.ltb_ge in El. destruct (checks_gone context k _ nows Hl) as [H1 H2].
      unfold checks in H1. rewrite H1, H2. simpl. split; [lia|]. split; [lia|done].
Qed.

(** ** Properties *)

(** One check.  Although the loop rewrites the map while it walks it,
    every packet is treated on its own: a packet that is not due stays, a due
    packet with retries left is resent and counted, a due packet without is
    dropped; and the frames returned are those of the packets resent, in
    sequence order. *)
Theorem check_for_retransmissions_exact m now context :
  let '(m', frames) := check_for_retransmissions m now context in
  (forall k, m' !! k = m !! k ≫= after_check now) /\
  frames = map (fun x => reconstruct_frame x.2.(frame_info) context now)
             (List.filter (fun x => resent now x.2) (BTreeMap.entries m)).
Proof. apply check_spec. Qed.

(** C36: bounded retries.  A frame that is never acknowledged is resent at most
    [max_retries - retry_count] times, whenever the checks are made.  When each
    check comes at least its retry interval after the last ([spaced]), it is
    resent at exactly each of the first [max_retries - retry_count] checks, and
    the check after the last of them drops it for good.  (A check that comes
    sooner leaves it alone: [check_for_retransmissions_exact].) *)
Theorem retries_bounded context m k p nows :
  m !! k = Some p -> 0 <= retry_interval p -> 0 <= retry_count p <= max_retries p ->
  let left := max_retries p - retry_count p in
  0 <= sends context k m nows <= left /\
  (spaced (last_sent_at p) (retry_interval p) nows = true ->
   sends context k m nows = Z.min (len nows) left /\
   (checks context m nows !! k = None <-> left < len nows)).
Proof.
  intros Hm Hi Hr. cbv zeta. split; [by apply sends_bounded|]. intros Hsp. by apply sends_spaced.
Qed.

Lemma retries_bounded_witness :
  let m := add_packet new (Frame.new_fin 1 9 0 0 256) 0 in
  let p := {| frame_info := {| RetransmissionFrameInfo.frame_type := FrameType.Fin;
                               RetransmissionFrameInfo.sequence_number := 9;
                               RetransmissionFrameInfo.payload := [];
                               RetransmissionFrameInfo.additional_data := None |};
              last_sent_at := 0; retry_count := 0; max_retries := 5;
              retry_interval := from_millis 500 |} in
  let nows := map from_millis [500; 1000; 1700; 2300; 2800; 3300; 4000] in
  0 <= sends example_context 9 m nows <= 5 - 0 /\
  (spaced 0 (from_millis 500) nows = true ->
   sends example_context 9 m nows = Z.min (len nows) (5 - 0) /\
   (checks example_context m nows !! 9 = None <-> 5 - 0 < len nows)).
Proof.
  intros m p nows. apply (retries_bounded example_context m 9 p nows);
    [reflexivity|vm_compute; discriminate|split; vm_compute; discriminate].
Defined.

(** Those checks are spaced; checks that come closer together resend less. *)
Lemma close_checks_resend_less :
  let m := add_packet new (Frame.new_fin 1 9 0 0 256) 0 in
  spaced 0 (from_millis 500) (map from_millis [500; 1000; 1700; 2300; 2800; 3300; 4000]) = true /\
  sends example_context 9 m (map from_millis [500; 1000; 1700; 2300; 2800; 3300; 4000]) = 5 /\
  sends example_context 9 m (map from_millis [500; 600; 700; 999; 1100]) = 2.
Proof. vm_compute. done. Qed.

(** SYN and SYN-ACK frames carry no sequence number and are never tracked
    by this manager, although their reliability mode asks for five retries;
    and the retry limits are those of the frame type, not of the
    configuration. *)
Theorem handshake_frames_untracked m h now :
  add_packet m (Frame.Syn h) now = m /\ add_packet m (Frame.SynAck h) now = m /\
  Frame.reliability_mode (Frame.Syn h) = Frame.SimpleRetransmit 5 (from_millis 500).
Proof. done. Qed.

End SimpleRetransmissionManager.
