(* ===== verification/Retransmission.v ===== *)
(** * Unified retransmission manager

    Models [src/core/reliability/retransmission.rs]: the dispatch of frames
    between the SACK manager and the simple retransmission manager according
    to the configuration, and the combined acknowledgement and timeout
    handling; with the [TimeoutEvent] enum of [src/core/endpoint/timing.rs]. *)

From S2P Require Import Prelude BTreeMap Packet Config Frame SackManager SimpleRetx.

Module Timing.

Inductive TimeoutEvent :=
| IdleTimeout | PathValidationTimeout | RetransmissionTimeout | ConnectionTimeout.

#[global] Instance TimeoutEvent_eq_dec : EqDecision TimeoutEvent.
Proof. solve_decision. Defined.

End Timing.

Module RetransmissionManager.
Abbreviation Context_ := RetransmissionContext.RetransmissionContext.
Module Simple := SimpleRetransmissionManager.

Record RetransmissionProcessResult := {
  frames_to_retransmit : list Frame.Frame;
  rtt_samples : list Duration;
  newly_acked_sequences : list Z;
}.

Record RetransmissionManager := {
  sack_manager : SackManager.SackManager;
  simple_retx_manager : Simple.Manager;
  config : Config.Config;
}.

Definition with_sack (r : RetransmissionManager) (s : SackManager.SackManager) :=
  {| sack_manager := s; simple_retx_manager := r.(simple_retx_manager); config := r.(config) |}.

(** ** Operations *)

Definition new (config : Config.Config) : RetransmissionManager := {|
  sack_manager := SackManager.new
    (Config.fast_retx_threshold (Config.reliability config))
    (Config.ack_threshold (Config.reliability config));
  simple_retx_manager := Simple.new;
  config := config |}.

Definition add_in_flight_packet (r : RetransmissionManager) (frame : Frame.Frame) (now : Instant)
    : RetransmissionManager :=
  match Frame.reliability_mode_with_config frame r.(config) with
  | Frame.Reliable => with_sack r (SackManager.add_in_flight_packet r.(sack_manager) frame now)
  | Frame.SimpleRetransmit _ _ =>
      {| sack_manager := r.(sack_manager);
         simple_retx_manager := Simple.add_packet r.(simple_retx_manager) frame now;
         config := r.(config) |}
  | Frame.BestEffort => r
  end.

Definition process_ack (r : RetransmissionManager) (recv_next_seq : Z)
    (sack_ranges : list Sack.SackRange) (now : Instant) (context : Context_)
    : RetransmissionManager * RetransmissionProcessResult :=
  let '(sack, sack_result) :=
    SackManager.process_ack r.(sack_manager) recv_next_seq sack_ranges now context in
  let '(simple1, simple_acked) := Simple.acknowledge_up_to r.(simple_retx_manager) recv_next_seq in
  let '(simple2, sack_acked) := Simple.acknowledge_sack_ranges simple1 sack_ranges in
  ({| sack_manager := sack; simple_retx_manager := simple2; config := r.(config) |},
   {| frames_to_retransmit := SackManager.frames_to_retransmit sack_result;
      rtt_samples := SackManager.rtt_samples sack_result;
      newly_acked_sequences :=
        SackManager.newly_acked_sequences sack_result ++ (simple_acked ++ sack_acked) |}).

Definition check_for_retransmissions (r : RetransmissionManager) (rto : Duration) (now : Instant)
    (context : Context_) : RetransmissionManager * list Frame.Frame :=
  let '(sack, sack_retx) := SackManager.check_for_rto r.(sack_manager) rto now context in
  let '(simple, simple_retx) :=
    Simple.check_for_retransmissions r.(simple_retx_manager) now context in
  ({| sack_manager := sack; simple_retx_manager := simple; config := r.(config) |},
   sack_retx ++ simple_retx).

Definition next_retransmission_deadline (r : RetransmissionManager) (rto : Duration)
    : option Instant :=
  match SackManager.next_rto_deadline r.(sack_manager) rto,
        Simple.next_retransmission_deadline r.(simple_retx_manager) with
  | Some sack, Some simple => Some (Z.min sack simple)
  | Some sack, None => Some sack
  | None, Some simple => Some simple
  | None, None => None
  end.

Definition total_in_flight_count (r : RetransmissionManager) : Z :=
  SackManager.in_flight_count r.(sack_manager) + Simple.in_flight_count r.(simple_retx_manager).

Definition sack_in_flight_count (r : RetransmissionManager) : Z :=
  SackManager.in_flight_count r.(sack_manager).

Definition is_all_in_flight_empty (r : RetransmissionManager) : bool :=
  SackManager.is_in_flight_empty r.(sack_manager) && Simple.is_empty r.(simple_retx_manager).

Definition is_sack_in_flight_empty (r : RetransmissionManager) : bool :=
  SackManager.is_in_flight_empty r.(sack_manager).

Definition has_fin_in_flight (r : RetransmissionManager) : bool :=
  SackManager.has_fin_in_flight r.(sack_manager) ||
  Simple.has_frame_type_in_flight r.(simple_retx_manager) FrameType.Fin.

Definition on_ack_eliciting_packet_received (r : RetransmissionManager) : RetransmissionManager :=
  with_sack r (SackManager.on_ack_eliciting_packet_received r.(sack_manager)).

Definition on_ack_sent (r : RetransmissionManager) : RetransmissionManager :=
  with_sack r (SackManager.on_ack_sent r.(sack_manager)).

Definition should_send_standalone_ack (r : RetransmissionManager)
    (sack_ranges : list Sack.SackRange) : bool :=
  SackManager.should_send_standalone_ack r.(sack_manager) sack_ranges.

Definition encode_sack_ranges (r : RetransmissionManager) (ranges : list Sack.SackRange)
    : list byte := SackManager.encode_sack_ranges r.(sack_manager) ranges.

Definition decode_sack_ranges (r : RetransmissionManager) (payload : list byte)
    : outcome (list Sack.SackRange) := SackManager.decode_sack_ranges r.(sack_manager) payload.

Definition clear (r : RetransmissionManager) : RetransmissionManager :=
  {| sack_manager := SackManager.clear r.(sack_manager);
     simple_retx_manager := Simple.clear r.(simple_retx_manager);
     config := r.(config) |}.

Definition check_retransmission_timeouts (r : RetransmissionManager) (rto : Duration)
    (now : Instant) (context : Context_)
    : RetransmissionManager * (list Timing.TimeoutEvent * list Frame.Frame) :=
  let '(sack, sack_retx) := SackManager.check_for_rto r.(sack_manager) rto now context in
  let '(simple, simple_retx) :=
    Simple.check_for_retransmissions r.(simple_retx_manager) now context in
  let frames_to_retx := sack_retx ++ simple_retx in
  let events := match frames_to_retx with [] => [] | _ => [Timing.RetransmissionTimeout] end in
  ({| sack_manager := sack; simple_retx_manager := simple; config := r.(config) |},
   (events, frames_to_retx)).

Definition next_retransmission_timeout_deadline (r : RetransmissionManager) (rto : Duration)
    : option Instant := next_retransmission_deadline r rto.

Definition has_retransmission_timeout (r : RetransmissionManager) (rto : Duration) (now : Instant)
    : bool :=
  match SackManager.next_rto_deadline r.(sack_manager) rto with
  | Some deadline => deadline <=? now
  | None => false
  end ||
  match Simple.next_retransmission_deadline r.(simple_retx_manager) with
  | Some deadline => deadline <=? now
  | None => false
  end.

(** ** Properties *)

(** The frames in flight: tracked by one of the two managers. *)
Definition tracked (r : RetransmissionManager) (k : Z) : Prop :=
  is_Some (SackManager.in_flight_packets r.(sack_manager) !! k) \/
  is_Some (r.(simple_retx_manager) !! k).

(** C32: acknowledgement accounting over both managers.  The sequence numbers
    reported as newly acknowledged are exactly those tracked that the ACK
    covers, they are exactly those no longer tracked afterwards, and the total
    in-flight count drops by their number. *)
Theorem process_ack_accounting r rns ranges now context :
  let '(r', res) := process_ack r rns ranges now context in
  (forall k, k ∈ res.(newly_acked_sequences) <->
     tracked r k /\ (k < rns \/ Sack.covers ranges k)) /\
  (forall k, tracked r' k <-> tracked r k /\ k ∉ res.(newly_acked_sequences)) /\
  total_in_flight_count r' = total_in_flight_count r - len res.(newly_acked_sequences).
Proof.
  unfold process_ack.
  pose proof (SackManager.process_ack_sound (sack_manager r) rns ranges now context) as Hs.
  pose proof (SackManager.process_ack_count (sack_manager r) rns ranges now context) as Hc.
  destruct (SackManager.process_ack _ _ _ _ _) as [sack sres]. destruct Hs as (Hin & Hleft).
  destruct (Simple.acknowledge_up_to_spec (simple_retx_manager r) rns) as (k1 & -> & N1 & I1).
  destruct (Simple.acknowledge_sack_ranges_spec (BTreeMap.remove_all (simple_retx_manager r) k1) ranges)
    as (k2 & -> & N2 & I2).
  cbn [newly_acked_sequences]. set (acked := SackManager.newly_acked_sequences sres) in *.
  assert (Hm : forall k, is_Some (BTreeMap.remove_all (simple_retx_manager r) k1 !! k) <->
     is_Some (simple_retx_manager r !! k) /\ k ∉ k1).
  { intros k. rewrite BTreeMap.lookup_remove_all. case_decide; [|tauto].
    split; [intros []; done|tauto]. }
  assert (I2' : forall k, k ∈ k2 <-> Sack.covers ranges k /\ ~ k < rns /\ is_Some (simple_retx_manager r !! k)).
  { intros k. rewrite I2, Hm, I1. tauto. }
  split_and!.
  - intros k. rewrite !elem_of_app, Hin, I1, I2'. unfold tracked.
    destruct (Z.lt_ge_cases k rns); [tauto|]. assert (~ k < rns) by lia. tauto.
  - intros k. unfold tracked. cbn [sack_manager simple_retx_manager].
    rewrite Hleft, BTreeMap.lookup_remove_all, !elem_of_app.
    destruct (decide (k ∈ k2)) as [Hk|Hk].
    + pose proof (proj1 (I2' k) Hk) as (Hc2 & _ & _). split; [|tauto].
      intros [[Hs Hn]|[? ?]]; [|done]. exfalso. apply Hn, Hin. tauto.
    + rewrite Hm. assert (k ∈ acked -> is_Some (SackManager.in_flight_packets (sack_manager r) !! k))
        by (intros H; apply Hin in H; tauto).
      pose proof (Hin k). pose proof (I1 k). pose proof (I2' k).
      destruct (Z.lt_ge_cases k rns) as [Hlt|Hge]; [tauto|]. assert (~ k < rns) by lia. tauto.
  - unfold total_in_flight_count, Simple.in_flight_count in *. cbn [sack_manager simple_retx_manager].
    rewrite Hc, !len_app, !BTreeMap.remove_all_size; try done; [lia|..].
    + intros k Hk. by apply I1 in Hk as [_ ?].
    + intros k Hk. by apply I2 in Hk as [_ ?].
Qed.

(** The sequence number under which a frame is tracked: none for ACK and PING
    (best effort) and for SYN and SYN-ACK (no sequence number). *)
Definition tracking_key (f : Frame.Frame) : option Z :=
  match f with
  | Frame.Push _ _ | Frame.Fin _ | Frame.PathChallenge _ _ | Frame.PathResponse _ _ =>
      Frame.sequence_number f
  | _ => None
  end.

Lemma insert_tracked {A} (m : gmap Z A) seq a k :
  is_Some (<[seq := a]> m !! k) <-> is_Some (m !! k) \/ seq = k.
Proof. rewrite lookup_insert_is_Some. destruct (decide (seq = k)); tauto. Qed.

(** An ACK that covers nothing tracked. *)
Lemma rm_process_ack_nothing r rns ranges now context :
  (forall k, tracked r k -> ~ (k < rns \/ Sack.covers ranges k)) ->
  process_ack r rns ranges now context =
    (r, {| frames_to_retransmit := []; rtt_samples := []; newly_acked_sequences := [] |}).
Proof.
  intros Hno. unfold process_ack.
  assert (Hnil : forall ks : list Z, (forall k, k ∉ ks) -> ks = []).
  { intros [|k ks] H; [done|]. exfalso. apply (H k). left. }
  rewrite SackManager.process_ack_nothing by (intros k Hk; apply Hno; by left).
  destruct (Simple.acknowledge_up_to_spec (simple_retx_manager r) rns) as (k1 & -> & _ & I1).
  rewrite (Hnil k1).
  2:{ intros k Hk. apply I1 in Hk as [? ?]. apply (Hno k); [by right|by left]. }
  cbn [BTreeMap.remove_all fold_left].
  destruct (Simple.acknowledge_sack_ranges_spec (simple_retx_manager r) ranges) as (k2 & E2 & _ & I2).
  unfold BTreeMap.remove_all. simpl fold_left. rewrite E2. rewrite (Hnil k2).
  2:{ intros k Hk. apply I2 in Hk as [? ?]. apply (Hno k); [by right|by right]. }
  by destruct r.
Qed.

(** Dispatch of sent frames.  Whatever the configuration, a frame is
    tracked under its sequence number when it is PUSH, FIN or a path frame,
    and not at all otherwise; a frame other than PUSH leaves the SACK manager
    alone when layered retransmission is enabled, and goes to no other manager
    when it is disabled. *)
Theorem add_in_flight_dispatch r f now :
  let r' := add_in_flight_packet r f now in
  (forall k, tracked r' k <-> tracked r k \/ tracking_key f = Some k) /\
  (if Config.enable_layered_retransmission (Config.reliability (config r))
   then (forall h p, f <> Frame.Push h p) -> sack_manager r' = sack_manager r
   else simple_retx_manager r' = simple_retx_manager r).
Proof.
  cbv zeta. unfold add_in_flight_packet, Frame.reliability_mode_with_config, tracked.
  destruct (Config.enable_layered_retransmission _); destruct f;
    cbn -[gmap_lookup lookup insert]; (split; [|try done; naive_solver]); intros k.
  all: rewrite ?insert_tracked; try naive_solver.
Qed.

(** The deadline of the simple manager. *)
Lemma simple_deadline_spec (m : Simple.Manager) d :
  Simple.next_retransmission_deadline m = Some d ->
  forall k p, m !! k = Some p -> d <= Simple.last_sent_at p + Simple.retry_interval p.
Proof.
  intros H k p Hk. apply list_min_Some in H as [_ Hmin].
  apply Hmin, list_elem_of_In, in_map_iff. exists p. split; [done|].
  apply list_elem_of_In, BTreeMap.elem_of_values. eauto.
Qed.

Lemma simple_frames_deadline (m : Simple.Manager) now context :
  (forall k p, m !! k = Some p -> 0 < Simple.retry_interval p) ->
  (Simple.check_for_retransmissions m now context).2 <> [] ->
  exists d, Simple.next_retransmission_deadline m = Some d /\ d <= now.
Proof.
  intros Hpos Hne. pose proof (Simple.check_spec m now context) as H.
  destruct (Simple.check_for_retransmissions m now context) as [m' frames].
  destruct H as [_ ->]. simpl in Hne.
  destruct (List.filter _ (BTreeMap.entries m)) as [|[k p] l] eqn:E; [done|].
  assert (Hin : (k, p) ∈ List.filter (fun x => Simple.resent now x.2) (BTreeMap.entries m))
    by (rewrite E; left).
  apply SackManager.elem_of_List_filter in Hin as [Hin Hres].
  apply BTreeMap.elem_of_entries in Hin. specialize (Hpos _ _ Hin).
  unfold Simple.resent in Hres. apply andb_true_iff in Hres as [Hdue _]. simpl in Hdue.
  unfold Simple.due, duration_since, saturating_sub in Hdue. apply Z.leb_le in Hdue.
  destruct (Simple.next_retransmission_deadline m) as [d|] eqn:Ed.
  - exists d. split; [done|]. pose proof (simple_deadline_spec m d Ed k p Hin). lia.
  - unfold Simple.next_retransmission_deadline in Ed. apply list_min_None, map_eq_nil in Ed.
    assert (Hv : p ∈ BTreeMap.values m) by (apply BTreeMap.elem_of_values; eauto).
    rewrite Ed in Hv. by apply elem_of_nil in Hv.
Qed.

(** The timer never misses a retransmission.  A timeout is reported
    exactly when the deadline given to the timer has been reached, and
    whenever the check would resend a frame the timeout is reported. *)
Theorem retransmission_deadline_sound r rto now context :
  0 <= rto -> (forall k p, r.(simple_retx_manager) !! k = Some p -> 0 < Simple.retry_interval p) ->
  (has_retransmission_timeout r rto now = true <->
   exists d, next_retransmission_deadline r rto = Some d /\ d <= now) /\
  ((check_for_retransmissions r rto now context).2 <> [] ->
   has_retransmission_timeout r rto now = true).
Proof.
  intros Hrto Hpos.
  assert (Hiff : has_retransmission_timeout r rto now = true <->
     exists d, next_retransmission_deadline r rto = Some d /\ d <= now).
  { unfold has_retransmission_timeout, next_retransmission_deadline.
    destruct (SackManager.next_rto_deadline _ _) as [a|], (Simple.next_retransmission_deadline _) as [b|];
      cbv iota beta; rewrite ?orb_false_r, ?orb_false_l, ?orb_true_iff, ?Z.leb_le.
    - split; [intros H; exists (Z.min a b); split; [done|lia]|intros (d & [= <-] & ?); lia].
    - split; [intros H; by exists a|by intros (d & [= <-] & ?)].
    - split; [intros H; by exists b|by intros (d & [= <-] & ?)].
    - split; [done|by intros (d & ? & ?)]. }
  split; [done|]. intros Hne. apply Hiff. unfold check_for_retransmissions in Hne.
  pose proof (SackManager.check_for_rto_frames (sack_manager r) rto now context) as Hs.
  pose proof (simple_frames_deadline (simple_retx_manager r) now context Hpos) as Hd.
  destruct (SackManager.check_for_rto _ _ _ _) as [s f1] eqn:E1.
  destruct (Simple.check_for_retransmissions _ _ _) as [m f2]. simpl in Hne, Hs, Hd.
  unfold next_retransmission_deadline. destruct f1 as [|x f1].
  - destruct Hd as (d & -> & Hle); [done|].
    destruct (SackManager.next_rto_deadline _ _) as [a|]; [|by exists d].
    exists (Z.min a d). split; [done|lia].
  - assert (Hdl : exists d, SackManager.next_rto_deadline (sack_manager r) rto = Some d /\ d < now).
    { apply (SackManager.rto_frames_deadline (sack_manager r) rto now context Hrto). by rewrite E1. }
    destruct Hdl as (d & -> & Hlt). destruct (Simple.next_retransmission_deadline _) as [b|].
    + exists (Z.min d b). split; [done|lia].
    + exists d. split; [done|lia].
Qed.

Definition example_manager : RetransmissionManager :=
  add_in_flight_packet
    (add_in_flight_packet (new Config.default) (Frame.new_push 1 0 0 256 0 [Byte.x61]) 0)
    (Frame.new_fin 1 1 0 0 256) 0.

Lemma retransmission_deadline_sound_witness :
  let rto := from_secs 1 in
  let now := from_secs 1 in
  (has_retransmission_timeout example_manager rto now = true <->
   exists d, next_retransmission_deadline example_manager rto = Some d /\ d <= now) /\
  ((check_for_retransmissions example_manager rto now RetransmissionFrameInfo.example_context).2 <> [] ->
   has_retransmission_timeout example_manager rto now = true).
Proof.
  intros rto now. apply retransmission_deadline_sound; [vm_compute; discriminate|].
  change (map_Forall (fun _ p => 0 < Simple.retry_interval p) (simple_retx_manager example_manager)).
  by_decide.
Defined.

(** The converse fails at the deadline itself.  A single data packet whose
    timeout expires exactly now is reported as timed out, but the check
    resends nothing: the report compares with [>=] and the check with [>]. *)
Theorem timeout_reported_not_resent :
  let r := add_in_flight_packet (new Config.default) (Frame.new_push 1 0 0 256 0 [Byte.x61]) 0 in
  has_retransmission_timeout r (from_secs 1) (from_secs 1) = true /\
  (check_retransmission_timeouts r (from_secs 1) (from_secs 1)
     RetransmissionFrameInfo.example_context).2 = ([], []).
Proof. split; vm_compute; reflexivity. Qed.

(** ** The FIN *)

Lemma fin_tracked r h now : has_fin_in_flight (add_in_flight_packet r (Frame.Fin h) now) = true.
Proof.
  unfold has_fin_in_flight, add_in_flight_packet. apply orb_true_iff.
  destruct (Frame.reliability_mode_with_config _ _) as [|? ?|] eqn:Em.
  - left. apply existsb_exists. eexists. split.
    + apply list_elem_of_In, BTreeMap.elem_of_values. eexists. apply lookup_insert_eq.
    + by apply bool_decide_eq_true.
  - right. apply existsb_exists. eexists. split.
    + apply list_elem_of_In, BTreeMap.elem_of_values. eexists. apply lookup_insert_eq.
    + by apply bool_decide_eq_true.
  - exfalso. revert Em. unfold Frame.reliability_mode_with_config. by case_match.
Qed.

Lemma fin_in_flight_not_empty r : has_fin_in_flight r = true -> is_all_in_flight_empty r = false.
Proof.
  unfold has_fin_in_flight, is_all_in_flight_empty, SackManager.is_in_flight_empty, Simple.is_empty.
  intros [H|H]%orb_true_iff; apply existsb_exists in H as (x & [k Hk]%list_elem_of_In%BTreeMap.elem_of_values & _);
    apply andb_false_iff; [left|right]; apply bool_decide_eq_false; intros E; by rewrite E, lookup_empty in Hk.
Qed.

End RetransmissionManager.
