(* ===== verification/Packetizer.v ===== *)
(** * Packetizer

    Models [src/core/reliability/packetizer.rs]: turning the send buffer into
    PUSH frames within the congestion and flow control windows, and grouping
    the frames of a 0-RTT response into datagrams. *)

From S2P Require Import Prelude Packet Frame SendBuffer.

Module Packetizer.

Record PacketizerContext := {
  peer_cid : Z;             (* u32 *)
  timestamp : Z;            (* u32 *)
  congestion_window : Z;    (* u32 *)
  in_flight_count : Z;      (* usize *)
  peer_recv_window : Z;     (* u32 *)
  max_payload_size : Z;     (* usize *)
  ack_info : Z * Z;         (* (recv_next_sequence, local_window_size) *)
}.

(** ** Operations *)

Definition permit (context : PacketizerContext) : Z :=
  let cwnd_permit :=
    saturating_sub context.(congestion_window) (as_u32 context.(in_flight_count)) in
  let flow_permit :=
    saturating_sub context.(peer_recv_window) (as_u32 context.(in_flight_count)) in
  Z.min cwnd_permit flow_permit.

(** The [for _ in 0..permit] loop: the send buffer, the sequence number
    counter and the frames made so far. *)
Fixpoint packetize_loop (n : nat) (context : PacketizerContext) (sb : SendBuffer.SendBuffer)
    (counter : Z) (frames : list Frame.Frame)
    : SendBuffer.SendBuffer * Z * list Frame.Frame :=
  match n with
  | O => (sb, counter, frames)
  | S n =>
      if SendBuffer.is_stream_buffer_empty sb then (sb, counter, frames)
      else
        match SendBuffer.create_chunk sb context.(max_payload_size) with
        | (sb, None) => (sb, counter, frames)
        | (sb, Some chunk) =>
            let frame := Frame.new_push context.(peer_cid) counter context.(ack_info).1
                           context.(ack_info).2 context.(timestamp) chunk in
            packetize_loop n context sb (as_u32 (counter + 1)) (frames ++ [frame])
        end
  end.

Definition packetize (context : PacketizerContext) (send_buffer : SendBuffer.SendBuffer)
    (sequence_number_counter : Z) (prepend_frame : option Frame.Frame)
    : SendBuffer.SendBuffer * Z * list Frame.Frame :=
  packetize_loop (Z.to_nat (permit context)) context send_buffer sequence_number_counter
    (match prepend_frame with Some frame => [frame] | None => [] end).

(** The packets finished, the packet being filled and its size. *)
Definition filling : Type := list (list Frame.Frame) * list Frame.Frame * nat.

(** One iteration of the second loop of [packetize_zero_rtt]. *)
Definition fill_one (max_packet_size : nat) (st : filling) (push_frame : Frame.Frame) : filling :=
  let '(result_packets, current_packet, current_size) := st in
  let frame_size := Frame.encoded_size push_frame in
  if (current_size + frame_size <=? max_packet_size)%nat
  then (result_packets, current_packet ++ [push_frame], (current_size + frame_size)%nat)
  else (result_packets ++ [current_packet], [push_frame], frame_size).

(** The first loop, which stops after the first frame that does not fit; also
    returns the frames left in the iterator. *)
Fixpoint fill_first (max_packet_size : nat) (st : filling) (frames : list Frame.Frame)
    : filling * list Frame.Frame :=
  match frames with
  | [] => (st, [])
  | push_frame :: frames =>
      let '(result_packets, current_packet, current_size) := st in
      let frame_size := Frame.encoded_size push_frame in
      if (current_size + frame_size <=? max_packet_size)%nat
      then fill_first max_packet_size
             (result_packets, current_packet ++ [push_frame], (current_size + frame_size)%nat) frames
      else ((result_packets ++ [current_packet], [push_frame], frame_size), frames)
  end.

(** Panics on the assertion that the SYN-ACK fits a packet. *)
Definition packetize_zero_rtt (context : PacketizerContext) (send_buffer : SendBuffer.SendBuffer)
    (sequence_number_counter : Z) (syn_ack_frame : Frame.Frame) (max_packet_size : nat)
    : outcome (SendBuffer.SendBuffer * Z * list (list Frame.Frame)) :=
  let '(sb, counter, push_frames) :=
    packetize context send_buffer sequence_number_counter None in
  match push_frames with
  | [] => Done (sb, counter, [[syn_ack_frame]])
  | _ =>
      let syn_ack_size := Frame.encoded_size syn_ack_frame in
      if (syn_ack_size <=? max_packet_size)%nat then
        let '(st, rest) := fill_first max_packet_size ([], [syn_ack_frame], syn_ack_size) push_frames in
        let '(result_packets, current_packet, _) :=
          fold_left (fill_one max_packet_size) rest st in
        Done (sb, counter,
              match current_packet with
              | [] => result_packets
              | _ => result_packets ++ [current_packet]
              end)
      else Panic
  end.

(** ** The PUSH frames made *)

(** The frames for consecutive chunks, numbered from [seq]. *)
Fixpoint push_frames (context : PacketizerContext) (seq : Z) (chunks : list (list byte))
    : list Frame.Frame :=
  match chunks with
  | [] => []
  | chunk :: chunks =>
      Frame.new_push context.(peer_cid) seq context.(ack_info).1 context.(ack_info).2
        context.(timestamp) chunk :: push_frames context (as_u32 (seq + 1)) chunks
  end.

Lemma as_u32_succ_add seq n : as_u32 (as_u32 (seq + 1) + n) = as_u32 (seq + (1 + n)).
Proof. unfold as_u32. rewrite Zplus_mod_idemp_l. f_equal. lia. Qed.

Lemma packetize_loop_spec n context sb counter frames :
  SendBuffer.wf sb -> 0 < context.(max_payload_size) -> u32_ok counter ->
  exists chunks sb',
    packetize_loop n context sb counter frames =
      (sb', as_u32 (counter + len chunks), frames ++ push_frames context counter chunks) /\
    SendBuffer.wf sb' /\
    SendBuffer.content sb = concat chunks ++ SendBuffer.content sb' /\
    Forall (fun c => 0 < len c <= context.(max_payload_size)) chunks /\
    (length chunks <= n)%nat /\
    ((length chunks < n)%nat -> SendBuffer.content sb' = []).
Proof.
  revert sb counter frames. induction n as [|n IH]; intros sb counter frames Hwf Hmax Hc.
  - exists [], sb. unfold len. simpl. rewrite app_nil_r, Z.add_0_r, as_u32_id by done.
    split_and!; try done. lia.
  - cbn [packetize_loop]. destruct (SendBuffer.is_stream_buffer_empty sb) eqn:Ee.
    { exists [], sb. unfold len. simpl. rewrite app_nil_r, Z.add_0_r, as_u32_id by done.
      split_and!; try done; [lia|]. intros _. unfold SendBuffer.is_stream_buffer_empty in Ee.
      unfold SendBuffer.content. by destruct (SendBuffer.stream_buffer sb). }
    pose proof (SendBuffer.create_chunk_spec sb (max_payload_size context) Hwf Hmax) as H.
    destruct (SendBuffer.create_chunk sb (max_payload_size context)) as [sb1 [c|]].
    + destruct H as (Hwf1 & _ & Hcont & Hlen).
      destruct (IH sb1 (as_u32 (counter + 1))
        (frames ++ [Frame.new_push (peer_cid context) counter (ack_info context).1
                      (ack_info context).2 (timestamp context) c]))
        as (chunks & sb' & -> & H1 & H2 & H3 & H4 & H5); [done..|apply as_u32_ok|].
      exists (c :: chunks), sb'. rewrite as_u32_succ_add, len_cons, <- app_assoc.
      split_and!; try done.
      * rewrite Hcont, H2. simpl. by rewrite app_assoc.
      * by constructor.
      * simpl. lia.
      * intros Hlt. apply H5. simpl in Hlt. lia.
    + destruct H as (Hwf1 & _ & Hcont & Hq). exists [], sb1. unfold len. simpl.
      rewrite app_nil_r, Z.add_0_r, as_u32_id by done.
      assert (Hc1 : SendBuffer.content sb1 = []) by (unfold SendBuffer.content; by rewrite Hq).
      split_and!; try done; [by rewrite Hcont, Hc1|lia].
Qed.

(** A prepended frame changes nothing else. *)
Lemma packetize_prepend context sb counter prepend :
  packetize context sb counter prepend =
  let '(sb', counter', frames) := packetize context sb counter None in
  (sb', counter', match prepend with Some f => [f] | None => [] end ++ frames).
Proof.
  unfold packetize. generalize (match prepend with Some frame => [frame] | None => [] end) as fs.
  assert (H : forall n sb counter fs gs,
    packetize_loop n context sb counter (fs ++ gs) =
    let '(sb', counter', frames) := packetize_loop n context sb counter gs in
    (sb', counter', fs ++ frames)).
  { induction n as [|n IH]; intros sb1 c1 fs gs; simpl; [done|]. case_match; [done|].
    destruct (SendBuffer.create_chunk _ _) as [sb2 [c|]]; [|done]. by rewrite <- app_assoc, IH. }
  intros fs. rewrite <- (app_nil_r fs) at 1. apply H.
Qed.

Lemma length_push_frames context seq chunks : length (push_frames context seq chunks) = length chunks.
Proof. revert seq. induction chunks; simpl; intros; auto. Qed.

(** ** Grouping into packets *)

Definition packet_size (packet : list Frame.Frame) : nat := sum_list (map Frame.encoded_size packet).

Lemma packet_size_app p q : packet_size (p ++ q) = (packet_size p + packet_size q)%nat.
Proof. unfold packet_size. by rewrite map_app, sum_list_with_app. Qed.

Lemma packet_size_one f : packet_size [f] = Frame.encoded_size f.
Proof. apply Nat.add_0_r. Qed.

Section grouping.
Context (max : nat) (syn_ack : Frame.Frame).

(** The loop invariant: the packets hold the frames [done] so far in order,
    each within the maximum, and the one being filled is measured exactly. *)
Definition filled (st : filling) (fs : list Frame.Frame) : Prop :=
  let '(packets, current, size) := st in
  concat packets ++ current = fs /\ size = packet_size current /\
  current <> [] /\ (size <= max)%nat /\
  Forall (fun p => p <> [] /\ (packet_size p <= max)%nat) packets.

Lemma filled_put packets current size fs f :
  filled (packets, current, size) fs -> (Frame.encoded_size f <= max)%nat ->
  filled (if (size + Frame.encoded_size f <=? max)%nat
          then (packets, current ++ [f], (size + Frame.encoded_size f)%nat)
          else (packets ++ [current], [f], Frame.encoded_size f)) (fs ++ [f]).
Proof.
  intros (H1 & H2 & H3 & H4 & H5) Hf.
  destruct (Nat.leb_spec (size + Frame.encoded_size f) max).
  - split_and!; [by rewrite app_assoc, H1| |by destruct current|done|done].
    by rewrite packet_size_app, packet_size_one, H2.
  - split_and!; [|by rewrite packet_size_one|done|done|].
    + by rewrite concat_app, concat_cons, concat_nil, app_nil_r, H1.
    + apply Forall_app. split; [done|]. constructor; [|done]. split; [done|lia].
Qed.

Lemma fill_one_filled st fs f :
  filled st fs -> (Frame.encoded_size f <= max)%nat -> filled (fill_one max st f) (fs ++ [f]).
Proof. destruct st as [[packets current] size]. apply filled_put. Qed.

Lemma fold_fill_filled l st fs :
  filled st fs -> Forall (fun f => (Frame.encoded_size f <= max)%nat) l ->
  filled (fold_left (fill_one max) l st) (fs ++ l).
Proof.
  intros H Hl. revert st fs H. induction Hl as [|f l Hf Hl IH]; intros st fs H; simpl.
  - by rewrite app_nil_r.
  - replace (fs ++ f :: l) with ((fs ++ [f]) ++ l) by by rewrite <- app_assoc.
    apply IH. by apply fill_one_filled.
Qed.

Lemma fill_first_filled l st fs :
  filled st fs -> Forall (fun f => (Frame.encoded_size f <= max)%nat) l ->
  let '(st', rest) := fill_first max st l in
  exists l1, l = l1 ++ rest /\ filled st' (fs ++ l1).
Proof.
  intros H Hl. revert st fs H. induction Hl as [|f l Hf Hl IH]; intros st fs H.
  - exists []. by rewrite !app_nil_r.
  - destruct st as [[packets current] size]. cbn [fill_first].
    pose proof (filled_put packets current size fs f H Hf) as Hput.
    destruct (size + Frame.encoded_size f <=? max)%nat.
    + specialize (IH _ _ Hput).
      destruct (fill_first max _ l) as [st' rest]. destruct IH as (l1 & -> & H1).
      exists (f :: l1). rewrite <- app_assoc in H1. done.
    + by exists [f].
Qed.

End grouping.

(** Grouping keeps the frames and their order, whatever their sizes. *)
Lemma fill_first_concat max l st st' rest :
  fill_first max st l = (st', rest) ->
  concat st'.1.1 ++ st'.1.2 ++ rest = concat st.1.1 ++ st.1.2 ++ l.
Proof.
  revert st. induction l as [|f l IH]; intros [[packets current] size] E; simpl in E.
  - by injection E as <- <-.
  - case_match.
    + apply IH in E. rewrite E. simpl. by rewrite <- app_assoc.
    + injection E as <- <-. simpl. rewrite concat_app. simpl. by rewrite app_nil_r, <- app_assoc.
Qed.

Lemma fold_fill_concat max l st :
  let st' := fold_left (fill_one max) l st in
  concat st'.1.1 ++ st'.1.2 = concat st.1.1 ++ st.1.2 ++ l.
Proof.
  revert st. induction l as [|f l IH]; intros [[packets current] size]; [by rewrite app_nil_r|].
  cbn [fold_left]. rewrite IH. unfold fill_one. case_match; simpl.
  - by rewrite <- app_assoc.
  - rewrite concat_app. simpl. by rewrite app_nil_r, <- app_assoc.
Qed.

Lemma packetize_zero_rtt_concat context sb counter syn_ack max sb' counter' packets :
  packetize_zero_rtt context sb counter syn_ack max = Done (sb', counter', packets) ->
  exists frames, packetize context sb counter None = (sb', counter', frames) /\
    concat packets = syn_ack :: frames.
Proof.
  unfold packetize_zero_rtt. destruct (packetize context sb counter None) as [[sb1 c1] frames].
  intros H. exists frames. destruct frames as [|f frames]; [by injection H as <- <- <-|].
  destruct (_ <=? _)%nat; [|done].
  destruct (fill_first _ _ _) as [st rest] eqn:Ef. apply fill_first_concat in Ef.
  pose proof (fold_fill_concat max rest st) as El. cbv zeta in El.
  destruct (fold_left _ rest st) as [[done_ current] size]. injection H as <- <- <-. split; [done|].
  rewrite Ef in El. simpl in El. rewrite <- El.
  destruct current; [by rewrite app_nil_r|]. rewrite concat_app. simpl. by rewrite app_nil_r.
Qed.

(** ** Properties *)

(** C24: packetization.  From a well-formed send buffer and a positive payload
    limit, [packetize] cuts the front of the queued bytes into non-empty
    chunks of at most the limit and makes one PUSH frame of each, numbered
    consecutively (modulo 2^32) from the counter; no byte is lost, duplicated
    or reordered.  It makes at most as many frames as the windows permit, and
    fewer only when the buffer has been drained. *)
Theorem packetize_spec context sb counter prepend :
  SendBuffer.wf sb -> 0 < context.(max_payload_size) -> u32_ok counter ->
  let '(sb', counter', frames) := packetize context sb counter prepend in
  exists chunks,
    frames = match prepend with Some f => [f] | None => [] end ++ push_frames context counter chunks /\
    SendBuffer.content sb = concat chunks ++ SendBuffer.content sb' /\
    Forall (fun c => 0 < len c <= context.(max_payload_size)) chunks /\
    counter' = as_u32 (counter + len chunks) /\ SendBuffer.wf sb' /\
    len chunks <= Z.max 0 (permit context) /\
    (len chunks < permit context -> SendBuffer.content sb' = []).
Proof.
  intros Hwf Hmax Hc. unfold packetize.
  destruct (packetize_loop_spec (Z.to_nat (permit context)) context sb counter
    (match prepend with Some frame => [frame] | None => [] end) Hwf Hmax Hc)
    as (chunks & sb' & -> & H1 & H2 & H3 & H4 & H5).
  exists chunks. unfold len in *. split_and!; try done; [lia|]. intros Hlt. apply H5. lia.
Qed.

Definition example_context : PacketizerContext := {|
  peer_cid := 9; timestamp := 5; congestion_window := 3; in_flight_count := 1;
  peer_recv_window := 10; max_payload_size := 2; ack_info := (0, 256) |}.

Definition example_buffer : SendBuffer.SendBuffer :=
  (SendBuffer.write_to_stream (SendBuffer.new 100)
     [Byte.x61; Byte.x62; Byte.x63; Byte.x64; Byte.x65]).1.

Lemma packetize_spec_witness :
  let '(sb', counter', frames) := packetize example_context example_buffer u32_MAX None in
  exists chunks,
    frames = [] ++ push_frames example_context u32_MAX chunks /\
    SendBuffer.content example_buffer = concat chunks ++ SendBuffer.content sb' /\
    Forall (fun c => 0 < len c <= example_context.(max_payload_size)) chunks /\
    counter' = as_u32 (u32_MAX + len chunks) /\ SendBuffer.wf sb' /\
    len chunks <= Z.max 0 (permit example_context) /\
    (len chunks < permit example_context -> SendBuffer.content sb' = []).
Proof.
  apply (packetize_spec example_context example_buffer u32_MAX None);
    [constructor; vm_compute; done|vm_compute; done|by_decide].
Defined.

(** 0-RTT grouping.  When the SYN-ACK and every PUSH frame fit a packet,
    [packetize_zero_rtt] does not panic; the packets, put end to end, are the
    SYN-ACK followed by exactly the frames [packetize] makes, in order; no
    packet is empty and none exceeds the maximum size. *)
Theorem packetize_zero_rtt_spec context sb counter syn_ack max :
  (Frame.encoded_size syn_ack <= max)%nat ->
  let '(sb', counter', frames) := packetize context sb counter None in
  Forall (fun f => (Frame.encoded_size f <= max)%nat) frames ->
  exists packets,
    packetize_zero_rtt context sb counter syn_ack max = Done (sb', counter', packets) /\
    concat packets = syn_ack :: frames /\
    Forall (fun p => p <> [] /\ (packet_size p <= max)%nat) packets.
Proof.
  intros Hs. unfold packetize_zero_rtt.
  destruct (packetize context sb counter None) as [[sb' counter'] frames]. intros Hf.
  pose proof (packet_size_one syn_ack) as Esize.
  destruct frames as [|f0 frames].
  { exists [[syn_ack]]. split_and!; [done..|]. constructor; [|done]. split; [done|lia]. }
  set (fs := f0 :: frames) in *. apply Nat.leb_le in Hs as Hs'. rewrite Hs'.
  pose proof (fill_first_filled max fs ([], [syn_ack], Frame.encoded_size syn_ack) [syn_ack]) as H.
  destruct (fill_first max _ fs) as [st rest]. destruct H as (l1 & El & Hfill); [|done|].
  { split_and!; [done|done|done|done|constructor]. }
  assert (Hrest : Forall (fun f => (Frame.encoded_size f <= max)%nat) rest)
    by (rewrite El in Hf; by apply Forall_app in Hf as [_ ?]).
  pose proof (fold_fill_filled max rest st _ Hfill Hrest) as Hend.
  destruct (fold_left (fill_one max) rest st) as [[packets current] size].
  destruct Hend as (H1 & H2 & H3 & H4 & H5). destruct current as [|g current]; [done|].
  eexists. split; [done|]. split.
  - rewrite concat_app, concat_cons, concat_nil, app_nil_r, H1, El. done.
  - apply Forall_app. split; [done|]. constructor; [|done]. split; [done|]. by rewrite <- H2.
Qed.

Lemma packetize_zero_rtt_spec_witness :
  (Frame.encoded_size (Frame.new_syn_ack 1 2 3) <= 40)%nat /\
  exists sb' counter' frames packets,
    packetize example_context example_buffer 0 None = (sb', counter', frames) /\
    packetize_zero_rtt example_context example_buffer 0 (Frame.new_syn_ack 1 2 3) 40 =
      Done (sb', counter', packets) /\
    concat packets = Frame.new_syn_ack 1 2 3 :: frames /\
    Forall (fun p => p <> [] /\ (packet_size p <= 40)%nat) packets.
Proof.
  split; [vm_compute; lia|].
  pose proof (packetize_zero_rtt_spec example_context example_buffer 0 (Frame.new_syn_ack 1 2 3) 40) as H.
  destruct (packetize example_context example_buffer 0 None) as [[sb' counter'] frames] eqn:E.
  destruct H as (packets & H); [vm_compute; lia|vm_compute in E; injection E as <- <- <-; by_decide|].
  exists sb', counter', frames, packets. tauto.
Defined.

End Packetizer.
