(* ===== verification/Reliability.v ===== *)
(** * Reliability layer

    Models [src/core/reliability.rs]: the layer that owns the send and receive
    buffers, the RTT estimator, the congestion controller (any
    [CongestionControl] instance, the code's [Box<dyn CongestionControl>]) and
    the retransmission manager. *)

From S2P Require Import Prelude BTreeMap Packet Config Frame SendBuffer RecvBuffer Rtt Congestion SackManager SimpleRetx Retransmission Packetizer.

Module ReliabilityLayer.
Abbreviation Context_ := RetransmissionContext.RetransmissionContext.
Module RM := RetransmissionManager.

Section layer.
Context {T : Type} `{CongestionControl T}.

Record ReliabilityLayer := {
  send_buffer : SendBuffer.SendBuffer;
  recv_buffer : ReceiveBuffer.ReceiveBuffer;
  rto_estimator : RttEstimator.RttEstimator;
  congestion_control : T;
  retransmission_manager : RM.RetransmissionManager;
  config : Config.Config;
  sequence_number_counter : Z;                  (* u32 *)
  ack_pending : bool;
  ack_eliciting_packets_since_last_ack : Z;     (* u16 *)
}.

Implicit Type rl : ReliabilityLayer.

(** *** Field updates *)

Definition with_send rl sb counter rm : ReliabilityLayer := {|
  send_buffer := sb; recv_buffer := rl.(recv_buffer); rto_estimator := rl.(rto_estimator);
  congestion_control := rl.(congestion_control); retransmission_manager := rm;
  config := rl.(config); sequence_number_counter := counter; ack_pending := rl.(ack_pending);
  ack_eliciting_packets_since_last_ack := rl.(ack_eliciting_packets_since_last_ack) |}.

Definition with_recv rl rb : ReliabilityLayer := {|
  send_buffer := rl.(send_buffer); recv_buffer := rb; rto_estimator := rl.(rto_estimator);
  congestion_control := rl.(congestion_control);
  retransmission_manager := rl.(retransmission_manager);
  config := rl.(config); sequence_number_counter := rl.(sequence_number_counter);
  ack_pending := rl.(ack_pending);
  ack_eliciting_packets_since_last_ack := rl.(ack_eliciting_packets_since_last_ack) |}.

Definition with_acks rl rm pending count : ReliabilityLayer := {|
  send_buffer := rl.(send_buffer); recv_buffer := rl.(recv_buffer);
  rto_estimator := rl.(rto_estimator);
  congestion_control := rl.(congestion_control); retransmission_manager := rm;
  config := rl.(config); sequence_number_counter := rl.(sequence_number_counter);
  ack_pending := pending; ack_eliciting_packets_since_last_ack := count |}.

Definition with_control rl rtt cc rm : ReliabilityLayer := {|
  send_buffer := rl.(send_buffer); recv_buffer := rl.(recv_buffer); rto_estimator := rtt;
  congestion_control := cc; retransmission_manager := rm;
  config := rl.(config); sequence_number_counter := rl.(sequence_number_counter);
  ack_pending := rl.(ack_pending);
  ack_eliciting_packets_since_last_ack := rl.(ack_eliciting_packets_since_last_ack) |}.

(** ** Operations *)

Definition new (config : Config.Config) (congestion_control : T) : ReliabilityLayer := {|
  send_buffer := SendBuffer.new (Config.send_buffer_capacity_bytes (Config.connection config));
  recv_buffer := ReceiveBuffer.new (Config.recv_buffer_capacity_packets (Config.connection config));
  rto_estimator := RttEstimator.new (Config.initial_rto (Config.reliability config));
  congestion_control := congestion_control;
  retransmission_manager := RM.new config;
  config := config;
  sequence_number_counter := 0;
  ack_pending := false;
  ack_eliciting_packets_since_last_ack := 0 |}.

(** The loop of [handle_ack] over the RTT samples. *)
Fixpoint handle_samples (min_rto : Duration) (rtt : RttEstimator.RttEstimator) (cc : T)
    (samples : list Duration) : outcome (RttEstimator.RttEstimator * T) :=
  match samples with
  | [] => Done (rtt, cc)
  | rtt_sample :: samples =>
      outcome_bind (RttEstimator.update rtt rtt_sample min_rto) (fun rtt =>
        handle_samples min_rto rtt (on_ack cc rtt_sample) samples)
  end.

Definition handle_ack rl (recv_next_seq : Z) (sack_ranges : list Sack.SackRange) (now : Instant)
    (context : Context_) : outcome (ReliabilityLayer * list Frame.Frame) :=
  let '(rm, result) :=
    RM.process_ack rl.(retransmission_manager) recv_next_seq sack_ranges now context in
  outcome_bind
    (handle_samples (Config.min_rto (Config.reliability rl.(config)))
       rl.(rto_estimator) rl.(congestion_control) (RM.rtt_samples result))
    (fun '(rtt, cc) =>
       let cc :=
         match RM.frames_to_retransmit result with [] => cc | _ => on_packet_loss cc now end in
       Done (with_control rl rtt cc rm, RM.frames_to_retransmit result)).

(** What the three timeout checks do after the manager has answered. *)
Definition react_to_resend rl rm (frames : list Frame.Frame) (now : Instant) : ReliabilityLayer :=
  match frames with
  | [] => with_control rl rl.(rto_estimator) rl.(congestion_control) rm
  | _ => with_control rl (RttEstimator.backoff rl.(rto_estimator))
           (on_packet_loss rl.(congestion_control) now) rm
  end.

Definition check_for_retransmissions rl (now : Instant) (context : Context_)
    : ReliabilityLayer * list Frame.Frame :=
  let rto := RttEstimator.rto rl.(rto_estimator) in
  let '(rm, frames_to_resend) :=
    RM.check_for_retransmissions rl.(retransmission_manager) rto now context in
  (react_to_resend rl rm frames_to_resend now, frames_to_resend).

Definition next_rto_deadline rl : option Instant :=
  RM.next_retransmission_deadline rl.(retransmission_manager) (RttEstimator.rto rl.(rto_estimator)).

Definition get_ack_info rl : list Sack.SackRange * Z * Z :=
  (ReceiveBuffer.get_sack_ranges rl.(recv_buffer),
   ReceiveBuffer.next_sequence rl.(recv_buffer),
   ReceiveBuffer.window_size rl.(recv_buffer)).

Definition packetizer_context rl (peer_cid peer_recv_window : Z) (now start_time : Instant)
    : Packetizer.PacketizerContext :=
  let '(_, recv_next_sequence, local_window_size) := get_ack_info rl in
  {| Packetizer.peer_cid := peer_cid;
     Packetizer.timestamp := as_u32 (as_millis (duration_since now start_time));
     Packetizer.congestion_window := congestion_window rl.(congestion_control);
     Packetizer.in_flight_count := RM.sack_in_flight_count rl.(retransmission_manager);
     Packetizer.peer_recv_window := peer_recv_window;
     Packetizer.max_payload_size := Config.max_payload_size (Config.connection rl.(config));
     Packetizer.ack_info := (recv_next_sequence, local_window_size) |}.

(** [for frame in frames { self.retransmission_manager.add_in_flight_packet(..) }] *)
Definition track_all (rm : RM.RetransmissionManager) (frames : list Frame.Frame) (now : Instant)
    : RM.RetransmissionManager :=
  fold_left (fun rm frame => RM.add_in_flight_packet rm frame now) frames rm.

Definition packetize_stream_data rl (peer_cid peer_recv_window : Z) (now start_time : Instant)
    (prepend_frame : option Frame.Frame) : ReliabilityLayer * list Frame.Frame :=
  let context := packetizer_context rl peer_cid peer_recv_window now start_time in
  let '(sb, counter, frames) :=
    Packetizer.packetize context rl.(send_buffer) rl.(sequence_number_counter) prepend_frame in
  (with_send rl sb counter (track_all rl.(retransmission_manager) frames now), frames).

Definition packetize_zero_rtt_stream_data rl (peer_cid peer_recv_window : Z)
    (now start_time : Instant) (syn_ack_frame : Frame.Frame) (max_packet_size : nat)
    : outcome (ReliabilityLayer * list (list Frame.Frame)) :=
  let context := packetizer_context rl peer_cid peer_recv_window now start_time in
  outcome_bind
    (Packetizer.packetize_zero_rtt context rl.(send_buffer) rl.(sequence_number_counter)
       syn_ack_frame max_packet_size)
    (fun '(sb, counter, packet_groups) =>
       let rm := fold_left (fun rm packet => track_all rm packet now) packet_groups
                   rl.(retransmission_manager) in
       Done (with_send rl sb counter rm, packet_groups)).

Definition can_send_more rl (peer_recv_window : Z) : bool :=
  let in_flight := as_u32 (RM.sack_in_flight_count rl.(retransmission_manager)) in
  (in_flight <? congestion_window rl.(congestion_control)) && (in_flight <? peer_recv_window).

(** The bookkeeping for an accepted ack-eliciting packet. *)
Definition note_ack_eliciting rl : ReliabilityLayer :=
  with_acks rl (RM.on_ack_eliciting_packet_received rl.(retransmission_manager)) true
    (as_u16 (rl.(ack_eliciting_packets_since_last_ack) + 1)).

Definition receive_push rl (sequence_number : Z) (payload : list byte) : ReliabilityLayer * bool :=
  let '(rb, accepted) := ReceiveBuffer.receive_push rl.(recv_buffer) sequence_number payload in
  let rl := with_recv rl rb in
  ((if accepted then note_ack_eliciting rl else rl), accepted).

Definition receive_fin rl (sequence_number : Z) : ReliabilityLayer * bool :=
  let '(rb, accepted) := ReceiveBuffer.receive_fin rl.(recv_buffer) sequence_number in
  let rl := with_recv rl rb in
  ((if accepted then note_ack_eliciting rl else rl), accepted).

Definition reassemble rl : ReliabilityLayer * (option (list (list byte)) * bool) :=
  let '(rb, result) := ReceiveBuffer.reassemble rl.(recv_buffer) in (with_recv rl rb, result).

Definition is_recv_buffer_empty rl : bool := ReceiveBuffer.is_empty rl.(recv_buffer).

Definition should_send_standalone_ack rl : bool :=
  RM.should_send_standalone_ack rl.(retransmission_manager)
    (ReceiveBuffer.get_sack_ranges rl.(recv_buffer)).

Definition is_ack_pending rl : bool := rl.(ack_pending).

Definition on_ack_sent rl : ReliabilityLayer :=
  with_acks rl (RM.on_ack_sent rl.(retransmission_manager)) false 0.

Definition write_to_stream rl (buf : list byte) : ReliabilityLayer * Z :=
  let '(sb, n) := SendBuffer.write_to_stream rl.(send_buffer) buf in
  (with_send rl sb rl.(sequence_number_counter) rl.(retransmission_manager), n).

Definition is_send_buffer_empty rl : bool := SendBuffer.is_stream_buffer_empty rl.(send_buffer).

Definition take_stream_buffer rl : ReliabilityLayer * list (list byte) :=
  let '(sb, chunks) := SendBuffer.take_stream_buffer rl.(send_buffer) in
  (with_send rl sb rl.(sequence_number_counter) rl.(retransmission_manager), chunks).

Definition is_in_flight_empty rl : bool := RM.is_all_in_flight_empty rl.(retransmission_manager).

Definition has_fin_in_flight rl : bool := RM.has_fin_in_flight rl.(retransmission_manager).

Definition track_frame_in_flight rl (frame : Frame.Frame) (now : Instant) : ReliabilityLayer :=
  with_send rl rl.(send_buffer) rl.(sequence_number_counter)
    (RM.add_in_flight_packet rl.(retransmission_manager) frame now).

Definition clear_in_flight_packets rl : ReliabilityLayer :=
  with_send rl rl.(send_buffer) rl.(sequence_number_counter) (RM.clear rl.(retransmission_manager)).

Definition next_sequence_number rl : ReliabilityLayer * Z :=
  (with_send rl rl.(send_buffer) (as_u32 (rl.(sequence_number_counter) + 1))
     rl.(retransmission_manager), rl.(sequence_number_counter)).

Definition smoothed_rtt rl : outcome (option Duration) := RttEstimator.smoothed_rtt rl.(rto_estimator).

Definition rtt_var rl : outcome (option Duration) := RttEstimator.rtt_var rl.(rto_estimator).

Definition check_reliability_timeouts rl (now : Instant) (context : Context_)
    : ReliabilityLayer * (list Timing.TimeoutEvent * list Frame.Frame) :=
  let rto := RttEstimator.rto rl.(rto_estimator) in
  let '(rm, (retx_events, frames_to_resend)) :=
    RM.check_retransmission_timeouts rl.(retransmission_manager) rto now context in
  (react_to_resend rl rm frames_to_resend now, (retx_events, frames_to_resend)).

Definition next_reliability_timeout_deadline rl : option Instant :=
  RM.next_retransmission_timeout_deadline rl.(retransmission_manager)
    (RttEstimator.rto rl.(rto_estimator)).

(** [impl TimeoutLayer for ReliabilityLayer] *)
Definition check_timeout_events rl (now : Instant) : list Timing.TimeoutEvent :=
  if RM.has_retransmission_timeout rl.(retransmission_manager)
       (RttEstimator.rto rl.(rto_estimator)) now
  then [Timing.RetransmissionTimeout] else [].

(** [impl RetransmissionLayer for ReliabilityLayer] *)
Definition check_retransmissions rl (now : Instant) (context : Context_)
    : ReliabilityLayer * list Frame.Frame :=
  let rto := RttEstimator.rto rl.(rto_estimator) in
  let '(rm, (_, frames_to_resend)) :=
    RM.check_retransmission_timeouts rl.(retransmission_manager) rto now context in
  (react_to_resend rl rm frames_to_resend now, frames_to_resend).

(** ** Windows *)

Lemma sack_count_add sm f now :
  SackManager.in_flight_count (SackManager.add_in_flight_packet sm f now) <=
  SackManager.in_flight_count sm + 1.
Proof.
  unfold SackManager.add_in_flight_packet, SackManager.in_flight_count, BTreeMap.map_len.
  repeat case_match; simpl; try lia. rewrite map_size_insert. case_match; simpl; lia.
Qed.

Lemma sack_add_keeps sm f now k :
  is_Some (SackManager.in_flight_packets sm !! k) ->
  is_Some (SackManager.in_flight_packets (SackManager.add_in_flight_packet sm f now) !! k).
Proof.
  intros Hk. unfold SackManager.add_in_flight_packet. repeat case_match; simpl; try done.
  rewrite lookup_insert_is_Some. destruct (decide (z = k)); tauto.
Qed.

Lemma rm_add_sack rm f now :
  RM.sack_manager (RM.add_in_flight_packet rm f now) = RM.sack_manager rm \/
  RM.sack_manager (RM.add_in_flight_packet rm f now) =
    SackManager.add_in_flight_packet (RM.sack_manager rm) f now.
Proof. unfold RM.add_in_flight_packet. case_match; simpl; auto. Qed.

Lemma rm_add_push rm h p now :
  is_Some (SackManager.in_flight_packets
    (RM.sack_manager (RM.add_in_flight_packet rm (Frame.Push h p) now)) !! ShortHeader.sequence_number h).
Proof.
  unfold RM.add_in_flight_packet, Frame.reliability_mode_with_config.
  destruct (negb _); cbn -[lookup insert]; by rewrite lookup_insert_eq.
Qed.

Definition sack_tracked rm (f : Frame.Frame) : Prop :=
  exists seq, Frame.sequence_number f = Some seq /\
    is_Some (SackManager.in_flight_packets (RM.sack_manager rm) !! seq).

Lemma rm_add_keeps rm f g now : sack_tracked rm g -> sack_tracked (RM.add_in_flight_packet rm f now) g.
Proof.
  intros (seq & E & Hs). exists seq. split; [done|].
  destruct (rm_add_sack rm f now) as [->| ->]; [done|by apply sack_add_keeps].
Qed.

Definition is_push (f : Frame.Frame) : Prop := match f with Frame.Push _ _ => True | _ => False end.

Lemma track_all_spec rm fs now :
  Forall is_push fs ->
  RM.sack_in_flight_count (track_all rm fs now) <= RM.sack_in_flight_count rm + len fs /\
  Forall (sack_tracked (track_all rm fs now)) fs /\
  forall g, sack_tracked rm g -> sack_tracked (track_all rm fs now) g.
Proof.
  intros Hp. revert rm. induction Hp as [|f fs Hf Hp IH]; intros rm.
  - unfold len; simpl. split_and!; [lia|constructor|done].
  - cbn [track_all fold_left]. destruct (IH (RM.add_in_flight_packet rm f now)) as (H1 & H2 & H3).
    rewrite len_cons. unfold track_all in *. split_and!.
    + assert (Hc : RM.sack_in_flight_count (RM.add_in_flight_packet rm f now) <=
                   RM.sack_in_flight_count rm + 1).
      { unfold RM.sack_in_flight_count. destruct (rm_add_sack rm f now) as [->| ->]; [lia|].
        apply sack_count_add. }
      lia.
    + constructor; [|done]. apply H3. destruct f; try done. eexists. split; [done|].
      apply rm_add_push.
    + intros g Hg. apply H3. by apply rm_add_keeps.
Qed.

(** Tracking a list of packets is tracking their frames. *)
Lemma fold_track_all rm groups now :
  fold_left (fun rm packet => track_all rm packet now) groups rm = track_all rm (concat groups) now.
Proof.
  revert rm. induction groups as [|g groups IH]; intros rm; [done|]. simpl. rewrite IH.
  unfold track_all. by rewrite fold_left_app.
Qed.

Lemma push_frames_push context seq chunks : Forall is_push (Packetizer.push_frames context seq chunks).
Proof. revert seq. induction chunks as [|c chunks IH]; intros seq; simpl; by constructor. Qed.

(** ** Sequence numbers and the byte stream *)

Definition payload_of (f : Frame.Frame) : list byte :=
  match f with Frame.Push _ p => p | _ => [] end.

Definition payloads (fs : list Frame.Frame) : list (list byte) := map payload_of fs.

Lemma push_frames_payloads context seq chunks :
  payloads (Packetizer.push_frames context seq chunks) = chunks.
Proof. unfold payloads. revert seq. induction chunks; simpl; intros; [done|]. by f_equal. Qed.

Lemma push_frames_numbers context seq chunks i f :
  Packetizer.push_frames context seq chunks !! i = Some f -> u32_ok seq ->
  Frame.sequence_number f = Some (as_u32 (seq + Z.of_nat i)).
Proof.
  revert seq i. induction chunks as [|c chunks IH]; intros seq i Hi Hs; [done|].
  destruct i as [|i]; simpl in Hi.
  - injection Hi as <-. simpl. by rewrite Z.add_0_r, as_u32_id.
  - apply IH in Hi; [|apply as_u32_ok]. rewrite Hi, Packetizer.as_u32_succ_add.
    do 2 f_equal. lia.
Qed.

(** What the sequence numbers drawn from the counter were used for, in order:
    [Some f] is the PUSH frame [f], [None] a number that
    [next_sequence_number] handed to its caller (for a FIN or a
    PATH_CHALLENGE). *)
Implicit Types (drawn : list (option Frame.Frame)).

Definition pushes drawn : list Frame.Frame := omap id drawn.

(** The PUSH frames before the first number handed out. *)
Fixpoint unbroken drawn : list Frame.Frame :=
  match drawn with Some f :: drawn => f :: unbroken drawn | _ => [] end.

(** The steps of a layer: every operation that changes it, but for
    [take_stream_buffer], which nothing in the program calls.  A step accepts
    [a] from the user and draws numbers for [s]. *)
Inductive step : ReliabilityLayer -> list byte -> list (option Frame.Frame) -> ReliabilityLayer -> Prop :=
| step_write rl buf rl' n :
    write_to_stream rl buf = (rl', n) -> step rl (take (Z.to_nat n) buf) [] rl'
| step_packetize rl peer_cid window now start_time prepend rl' frames :
    packetize_stream_data rl peer_cid window now start_time prepend =
      (rl', match prepend with Some f => [f] | None => [] end ++ frames) ->
    step rl [] (Some <$> frames) rl'
| step_packetize_zero_rtt rl peer_cid window now start_time syn_ack max rl' groups :
    packetize_zero_rtt_stream_data rl peer_cid window now start_time syn_ack max = Done (rl', groups) ->
    step rl [] (Some <$> tail (concat groups)) rl'
| step_next_sequence_number rl rl' n :
    next_sequence_number rl = (rl', n) -> step rl [] [None] rl'
| step_ack rl rns ranges now context rl' resent :
    handle_ack rl rns ranges now context = Done (rl', resent) -> step rl [] [] rl'
| step_check_timeouts rl now context rl' result :
    check_reliability_timeouts rl now context = (rl', result) -> step rl [] [] rl'
| step_check_for_retransmissions rl now context rl' resent :
    check_for_retransmissions rl now context = (rl', resent) -> step rl [] [] rl'
| step_check_retransmissions rl now context rl' resent :
    check_retransmissions rl now context = (rl', resent) -> step rl [] [] rl'
| step_receive_push rl seq payload rl' accepted :
    receive_push rl seq payload = (rl', accepted) -> step rl [] [] rl'
| step_receive_fin rl seq rl' accepted :
    receive_fin rl seq = (rl', accepted) -> step rl [] [] rl'
| step_reassemble rl rl' result : reassemble rl = (rl', result) -> step rl [] [] rl'
| step_track rl frame now : step rl [] [] (track_frame_in_flight rl frame now)
| step_clear rl : step rl [] [] (clear_in_flight_packets rl)
| step_ack_sent rl : step rl [] [] (on_ack_sent rl).

(** Runs, with all the bytes accepted and all the numbers drawn. *)
Inductive steps (rl0 : ReliabilityLayer) :
  ReliabilityLayer -> list byte -> list (option Frame.Frame) -> Prop :=
| steps_refl : steps rl0 rl0 [] []
| steps_snoc rl accepted drawn rl' a s :
    steps rl0 rl accepted drawn -> step rl a s rl' -> steps rl0 rl' (accepted ++ a) (drawn ++ s).

(** Nothing accepted and no number drawn. *)
Definition untouched rl rl' : Prop :=
  send_buffer rl' = send_buffer rl /\ sequence_number_counter rl' = sequence_number_counter rl.

(** Queued bytes cut into PUSH frames. *)
Definition cut rl (frames : list Frame.Frame) rl' : Prop :=
  exists context, Packetizer.max_payload_size context = Config.max_payload_size (Config.connection rl.(config)) /\
    Packetizer.packetize context rl.(send_buffer) rl.(sequence_number_counter) None =
      (rl'.(send_buffer), rl'.(sequence_number_counter), frames).

Lemma react_untouched rl rm frames now :
  config (react_to_resend rl rm frames now) = config rl /\ untouched rl (react_to_resend rl rm frames now).
Proof. unfold react_to_resend. by case_match. Qed.

Lemma packetize_cut rl cid w now st prepend rl' frames :
  packetize_stream_data rl cid w now st prepend =
    (rl', match prepend with Some f => [f] | None => [] end ++ frames) ->
  config rl' = config rl /\ cut rl frames rl'.
Proof.
  unfold packetize_stream_data. set (context := packetizer_context rl cid w now st).
  rewrite Packetizer.packetize_prepend. destruct (Packetizer.packetize _ _ _ None) as [[sb c] fs] eqn:Ep.
  intros [= <- ->%app_inv_head]. split; [done|]. by exists context.
Qed.

Lemma zero_rtt_cut rl cid w now st syn_ack max rl' groups :
  packetize_zero_rtt_stream_data rl cid w now st syn_ack max = Done (rl', groups) ->
  config rl' = config rl /\ cut rl (tail (concat groups)) rl'.
Proof.
  unfold packetize_zero_rtt_stream_data. set (context := packetizer_context rl cid w now st).
  destruct (Packetizer.packetize_zero_rtt _ _ _ _ _) as [[[sb c] gs]|] eqn:Ep; [|done].
  intros [= <- <-]. apply Packetizer.packetize_zero_rtt_concat in Ep as (fs & Ep & ->).
  split; [done|]. by exists context.
Qed.

(** The ways a step touches the sending half. *)
Lemma step_frame rl a s rl' :
  step rl a s rl' ->
  config rl' = config rl /\
  (untouched rl rl' /\ a = [] /\ s = [] \/
   (exists buf n, write_to_stream rl buf = (rl', n) /\ a = take (Z.to_nat n) buf /\ s = []) \/
   (exists frames, cut rl frames rl' /\ a = [] /\ s = Some <$> frames) \/
   (exists n, next_sequence_number rl = (rl', n) /\ a = [] /\ s = [None])).
Proof.
  assert (Hres : forall rm fs now, react_to_resend rl rm fs now = rl' ->
    config rl' = config rl /\ untouched rl rl').
  { intros rm fs now <-. apply react_untouched. }
  destruct 1 as [rl buf rl' n E|rl cid w now st prepend rl' fs E|rl cid w now st syn_ack max rl' gs E
    |rl rl' n E|rl rns ranges now context rl' resent E|rl now context rl' result E
    |rl now context rl' resent E|rl now context rl' resent E|rl seq payload rl' acc E
    |rl seq rl' acc E|rl rl' result E|rl frame now|rl|rl].
  - split; [|right; left; eauto]. unfold write_to_stream in E.
    destruct (SendBuffer.write_to_stream _ _). by injection E as <- _.
  - apply packetize_cut in E as [? E]. split; [done|right; right; left; eauto].
  - apply zero_rtt_cut in E as [? E]. split; [done|right; right; left; eauto].
  - split; [by injection E as <- _|right; right; right; eauto].
  - unfold handle_ack in E. destruct (RM.process_ack _ _ _ _ _) as [rm res].
    destruct (handle_samples _ _ _ _) as [[rtt cc]|]; [|done]. injection E as <- _.
    split; [done|by left].
  - unfold check_reliability_timeouts in E.
    destruct (RM.check_retransmission_timeouts _ _ _ _) as [rm [ev fs]]. injection E as E _.
    apply Hres in E as [??]. split; [done|by left].
  - unfold check_for_retransmissions in E.
    destruct (RM.check_for_retransmissions _ _ _ _) as [rm fs]. injection E as E _.
    apply Hres in E as [??]. split; [done|by left].
  - unfold check_retransmissions in E.
    destruct (RM.check_retransmission_timeouts _ _ _ _) as [rm [ev fs]]. injection E as E _.
    apply Hres in E as [??]. split; [done|by left].
  - unfold receive_push in E. destruct (ReceiveBuffer.receive_push _ _ _) as [rb []];
      injection E as <- _; (split; [done|by left]).
  - unfold receive_fin in E. destruct (ReceiveBuffer.receive_fin _ _) as [rb []];
      injection E as <- _; (split; [done|by left]).
  - unfold reassemble in E. destruct (ReceiveBuffer.reassemble _) as [rb res].
    injection E as <- _. split; [done|by left].
  - split; [done|by left].
  - split; [done|by left].
  - split; [done|by left].
Qed.

Definition payload_limit_ok (cfg : Config.Config) : Prop :=
  0 < Config.max_payload_size (Config.connection cfg) /\
  0 <= Config.send_buffer_capacity_bytes (Config.connection cfg).

(** The sender's invariant: each PUSH frame carries the number drawn for it,
    and their payloads, with the bytes still queued, are exactly the bytes
    accepted. *)
Record sending (rl : ReliabilityLayer) (accepted : list byte) drawn : Prop := {
  snd_wf : SendBuffer.wf rl.(send_buffer);
  snd_config : payload_limit_ok rl.(config);
  snd_counter : rl.(sequence_number_counter) = as_u32 (len drawn);
  snd_numbers : forall i f, drawn !! i = Some (Some f) ->
    is_push f /\ Frame.sequence_number f = Some (as_u32 (Z.of_nat i));
  snd_bytes : accepted = concat (payloads (pushes drawn)) ++ SendBuffer.content rl.(send_buffer);
}.

Lemma new_sending cfg cc : payload_limit_ok cfg -> sending (new cfg cc) [] [].
Proof. intros [? ?]. constructor; simpl; done || by apply SendBuffer.new_buffer_wf. Qed.

Lemma pushes_app drawn drawn' : pushes (drawn ++ drawn') = pushes drawn ++ pushes drawn'.
Proof. apply omap_app. Qed.

Lemma pushes_Some frames : pushes (Some <$> frames) = frames.
Proof. induction frames as [|f frames IH]; [done|]. unfold pushes in *. csimpl. by rewrite IH. Qed.

Lemma cut_sending rl accepted drawn frames rl' :
  sending rl accepted drawn -> config rl' = config rl -> cut rl frames rl' ->
  sending rl' accepted (drawn ++ (Some <$> frames)).
Proof.
  intros [Hwf Hcfg Hctr Hnum Hbytes] Ecfg (context & Emax & E).
  assert (Hu : u32_ok (sequence_number_counter rl)) by (rewrite Hctr; apply as_u32_ok).
  destruct (Packetizer.packetize_loop_spec (Z.to_nat (Packetizer.permit context)) context
    (send_buffer rl) (sequence_number_counter rl) [] Hwf) as (chunks & sb' & Ep & H1 & H2 & _);
    [rewrite Emax; apply Hcfg|done|].
  unfold Packetizer.packetize in E. rewrite Ep in E. simpl in E. injection E as Esb Ec <-.
  constructor; rewrite <- ?Esb, <- ?Ec, ?Ecfg; try done.
  - rewrite len_app, Hctr. unfold as_u32, len.
    by rewrite length_fmap, Packetizer.length_push_frames, Zplus_mod_idemp_l.
  - intros i f Hi. apply lookup_app_Some in Hi as [Hi|[Hge Hi]]; [by apply Hnum|].
    rewrite list_lookup_fmap_Some in Hi. destruct Hi as (g & [= <-] & Hi). split.
    + eapply Forall_lookup_1; [apply push_frames_push|exact Hi].
    + rewrite (push_frames_numbers _ _ _ _ _ Hi Hu). rewrite Hctr. unfold as_u32.
      rewrite Zplus_mod_idemp_l. do 2 f_equal. unfold len. lia.
  - rewrite pushes_app, pushes_Some. unfold payloads in *.
    rewrite map_app, concat_app, <- app_assoc.
    pose proof (push_frames_payloads context (sequence_number_counter rl) chunks) as Epl.
    unfold payloads in Epl. by rewrite Epl, <- H2.
Qed.

Lemma draw_sending rl accepted drawn :
  sending rl accepted drawn -> sending (next_sequence_number rl).1 accepted (drawn ++ [None]).
Proof.
  intros [Hwf Hcfg Hctr Hnum Hbytes]. constructor; simpl; try done.
  - rewrite Hctr, len_app. unfold as_u32. by rewrite Zplus_mod_idemp_l.
  - intros i f [Hi|[_ Hi]]%lookup_app_Some; [by apply Hnum|].
    apply list_lookup_singleton_Some in Hi as [_ Hi]. done.
  - by rewrite pushes_app, app_nil_r.
Qed.

Lemma step_sending rl accepted drawn a s rl' :
  sending rl accepted drawn -> step rl a s rl' -> sending rl' (accepted ++ a) (drawn ++ s).
Proof.
  intros Hs Hstep. destruct (step_frame _ _ _ _ Hstep) as (Hcfg & [H1|[H1|[H1|H1]]]).
  - destruct H1 as ([Esb Ectr] & -> & ->), Hs as [Hwf Hc Hctr Hn Hb]. rewrite !app_nil_r.
    constructor; rewrite ?Esb, ?Ectr, ?Hcfg; done.
  - destruct H1 as (buf & n & E & -> & ->), Hs as [Hwf Hc Hctr Hn Hb]. rewrite app_nil_r.
    pose proof (SendBuffer.write_to_stream_spec (send_buffer rl) buf Hwf) as Hw.
    unfold write_to_stream in E. destruct (SendBuffer.write_to_stream _ _) as [sb m].
    injection E as <- <-. destruct Hw as (Hwf' & _ & _ & Hcont).
    constructor; simpl; try done. by rewrite Hb, Hcont, app_assoc.
  - destruct H1 as (frames & E & -> & ->). rewrite app_nil_r. by eapply cut_sending.
  - destruct H1 as (n & E & -> & ->). rewrite app_nil_r. apply draw_sending in Hs. by rewrite E in Hs.
Qed.

Lemma steps_sending rl0 rl accepted drawn :
  sending rl0 [] [] -> steps rl0 rl accepted drawn -> sending rl accepted drawn.
Proof. intros H0. induction 1; [done|by eapply step_sending]. Qed.

Lemma unbroken_lookup drawn i f : unbroken drawn !! i = Some f -> drawn !! i = Some (Some f).
Proof.
  revert i. induction drawn as [|[g|] drawn IH]; intros [|i] Hi; simplify_eq/=; auto.
Qed.

Lemma unbroken_prefix drawn : unbroken drawn `prefix_of` pushes drawn.
Proof.
  induction drawn as [|[f|] drawn IH]; [done| |apply prefix_nil].
  unfold pushes in *. csimpl. by apply prefix_cons.
Qed.

Lemma unbroken_length drawn : (length (unbroken drawn) <= length drawn)%nat.
Proof. induction drawn as [|[f|] drawn IH]; simpl; lia. Qed.

(** ** Properties *)

(** C5: the byte stream, end to end.  In every run of a fresh layer, over all
    its operations, that draws fewer than 2^32 - 1 sequence numbers, the bytes
    accepted from the user are, in order, the payloads of the PUSH frames made
    (by ordinary and by 0-RTT packetization) followed by the bytes still
    queued.  The i-th number drawn, from 0, is either that of a PUSH frame,
    which then carries it, or was handed out by [next_sequence_number] and is
    in no PUSH frame.  A receive buffer that gets the PUSH frames up to the
    first number handed out, and a FIN with that number, in any order, with
    duplicates and losses, has at any time delivered a prefix of the accepted
    bytes. *)
Theorem end_to_end_stream cfg cc rl accepted drawn cap evs :
  payload_limit_ok cfg -> steps (new cfg cc) rl accepted drawn -> len drawn < u32_MAX ->
  accepted = concat (payloads (pushes drawn)) ++ SendBuffer.content rl.(send_buffer) /\
  (forall i f, drawn !! i = Some (Some f) ->
     is_push f /\ Frame.sequence_number f = Some (Z.of_nat i)) /\
  (forall i f, unbroken drawn !! i = Some f ->
     drawn !! i = Some (Some f) /\
     ReceiveBuffer.stream_packet (payloads (unbroken drawn)) (Z.of_nat i) =
       Some (ReceiveBuffer.Push (payload_of f))) /\
  concat (ReceiveBuffer.delivered (ReceiveBuffer.run (payloads (unbroken drawn)) cap evs))
    `prefix_of` accepted.
Proof.
  intros Hcfg Hsteps Hlen.
  destruct (steps_sending _ _ _ _ (new_sending cfg cc Hcfg) Hsteps) as [_ _ _ Hn Hb].
  pose proof (unbroken_length drawn) as Hul.
  split_and!; [done| | |].
  - intros i f Hi. pose proof (lookup_lt_Some _ _ _ Hi) as Hlt. destruct (Hn i f Hi) as [? ->].
    split; [done|]. f_equal. apply as_u32_id. unfold u32_ok, u32_MAX, len in *. lia.
  - intros i f Hi. split; [by apply unbroken_lookup|].
    apply ReceiveBuffer.stream_packet_Push. split; [lia|]. rewrite Nat2Z.id.
    unfold payloads. change (map payload_of (unbroken drawn)) with (payload_of <$> unbroken drawn).
    by rewrite list_lookup_fmap, Hi.
  - destruct (ReceiveBuffer.run_prefix (payloads (unbroken drawn)) cap evs) as [k Hk].
    { unfold payloads, len in *. rewrite length_map. lia. }
    destruct (unbroken_prefix drawn) as [rest Hrest].
    assert (Ea : payloads (pushes drawn) = payloads (unbroken drawn) ++ payloads rest)
      by (unfold payloads; by rewrite Hrest, map_app).
    rewrite Hb, Ea, concat_app, <- app_assoc. apply prefix_app_r.
    exists (concat k). by rewrite <- concat_app, <- Hk.
Qed.

(** C26: the windows are respected.  Packetizing sends no more than the smaller
    of the congestion window and the peer's window allows: the number of
    SACK-tracked packets in flight does not grow beyond it; and every frame
    sent is tracked for retransmission. *)
Theorem packetize_respects_windows rl peer_cid window now start_time :
  SendBuffer.wf rl.(send_buffer) -> payload_limit_ok rl.(config) ->
  u32_ok rl.(sequence_number_counter) ->
  RM.sack_in_flight_count rl.(retransmission_manager) < 2 ^ 32 ->
  let '(rl', frames) := packetize_stream_data rl peer_cid window now start_time None in
  RM.sack_in_flight_count rl'.(retransmission_manager) <=
    Z.max (RM.sack_in_flight_count rl.(retransmission_manager))
      (Z.min (congestion_window rl.(congestion_control)) window) /\
  Forall (sack_tracked rl'.(retransmission_manager)) frames.
Proof.
  intros Hwf [Hmax _] Hu Hcount. unfold packetize_stream_data.
  set (context := packetizer_context rl peer_cid window now start_time).
  destruct (Packetizer.packetize_loop_spec (Z.to_nat (Packetizer.permit context)) context
    (send_buffer rl) (sequence_number_counter rl) [] Hwf Hmax Hu)
    as (chunks & sb' & Ep & _ & _ & _ & Hn & _).
  unfold Packetizer.packetize. rewrite Ep. cbn [with_send retransmission_manager app].
  set (frames := Packetizer.push_frames context (sequence_number_counter rl) chunks).
  destruct (track_all_spec (retransmission_manager rl) frames now) as (Hc & Ht & _);
    [apply push_frames_push|].
  split; [|done].
  assert (El : len frames <= Z.max 0 (Packetizer.permit context)).
  { unfold len, frames. rewrite Packetizer.length_push_frames. lia. }
  assert (Epermit : Packetizer.permit context =
    Z.min (saturating_sub (congestion_window (congestion_control rl)) (RM.sack_in_flight_count (retransmission_manager rl)))
          (saturating_sub window (RM.sack_in_flight_count (retransmission_manager rl)))).
  { unfold Packetizer.permit. cbn -[RM.sack_in_flight_count]. rewrite as_u32_id; [done|].
    split; [|done]. apply BTreeMap.map_len_nonneg. }
  rewrite Epermit in El. unfold saturating_sub in El. lia.
Qed.

(** Nothing tracked is covered by the ACK. *)
Definition ack_covers_nothing rl (rns : Z) (ranges : list Sack.SackRange) : Prop :=
  forall k, RM.tracked rl.(retransmission_manager) k -> ~ (k < rns \/ Sack.covers ranges k).

(** Stale and duplicate acknowledgements are inert: an ACK that covers no
    packet in flight changes nothing at all and resends nothing. *)
Theorem stale_ack_inert rl rns ranges now context :
  ack_covers_nothing rl rns ranges ->
  handle_ack rl rns ranges now context = Done (rl, []).
Proof.
  intros Hno. unfold handle_ack.
  assert (E : RM.process_ack (retransmission_manager rl) rns ranges now context =
    (retransmission_manager rl, {| RM.frames_to_retransmit := []; RM.rtt_samples := [];
                                   RM.newly_acked_sequences := [] |})).
  { apply RM.rm_process_ack_nothing. exact Hno. }
  rewrite E. simpl. by destruct rl.
Qed.

(** The three timeout checks of the layer are the same: they resend the
    same frames and leave the same state; a RetransmissionTimeout event is
    raised exactly when something is resent, and only then the RTO is doubled
    and the congestion controller told of one loss. *)
Theorem timeout_checks_agree rl now context :
  let '(rl', frames) := check_for_retransmissions rl now context in
  check_retransmissions rl now context = (rl', frames) /\
  check_reliability_timeouts rl now context =
    (rl', (match frames with [] => [] | _ => [Timing.RetransmissionTimeout] end, frames)) /\
  (RttEstimator.rto rl'.(rto_estimator), rl'.(congestion_control)) =
    match frames with
    | [] => (RttEstimator.rto rl.(rto_estimator), rl.(congestion_control))
    | _ => (2 * RttEstimator.rto rl.(rto_estimator), on_packet_loss rl.(congestion_control) now)
    end.
Proof.
  unfold check_for_retransmissions, check_retransmissions, check_reliability_timeouts,
    RM.check_for_retransmissions, RM.check_retransmission_timeouts.
  destruct (SackManager.check_for_rto _ _ _ _) as [sack f1].
  destruct (RM.Simple.check_for_retransmissions _ _ _) as [simple f2].
  split_and!; [done|done|].
  unfold react_to_resend. destruct (f1 ++ f2); simpl; [done|]. f_equal. lia.
Qed.

End layer.

Arguments ReliabilityLayer T : clear implicits.

(** ** Witnesses, on the Vegas controller and the default configuration *)

Definition example_layer : ReliabilityLayer Vegas.Vegas :=
  (write_to_stream (new Config.default (Vegas.new Config.default)) [Byte.x61; Byte.x62; Byte.x63]).1.

(** "abc" written and packetized, a number drawn for a FIN, then 0-RTT
    packetization of "d": the payloads are "abc", (a gap) and "d". *)
Lemma end_to_end_stream_witness :
  exists rl f g,
    let accepted := [Byte.x61; Byte.x62; Byte.x63; Byte.x64] in
    let drawn := [Some f; None; Some g] in
    steps (new Config.default (Vegas.new Config.default)) rl accepted drawn /\
    accepted = concat (payloads (pushes drawn)) ++ SendBuffer.content rl.(send_buffer) /\
    (forall i h, drawn !! i = Some (Some h) ->
       is_push h /\ Frame.sequence_number h = Some (Z.of_nat i)) /\
    (forall i h, unbroken drawn !! i = Some h ->
       drawn !! i = Some (Some h) /\
       ReceiveBuffer.stream_packet (payloads (unbroken drawn)) (Z.of_nat i) =
         Some (ReceiveBuffer.Push (payload_of h))) /\
    concat (ReceiveBuffer.delivered (ReceiveBuffer.run (payloads (unbroken drawn)) 256
      [ReceiveBuffer.Arrive 0; ReceiveBuffer.Reassemble; ReceiveBuffer.Arrive 1]))
      `prefix_of` accepted.
Proof.
  set (rl1 := (packetize_stream_data example_layer 7 100 0 0 None).1).
  set (rl2 := (next_sequence_number rl1).1).
  set (rl3 := (write_to_stream rl2 [Byte.x64]).1).
  destruct (packetize_zero_rtt_stream_data rl3 7 100 0 0 (Frame.new_syn_ack 1 2 3) 1200)
    as [[rl4 gs]|] eqn:E4; [|vm_compute in E4; discriminate].
  exists rl4, (Frame.new_push 7 0 0 256 0 [Byte.x61; Byte.x62; Byte.x63]),
    (Frame.new_push 7 2 0 256 0 [Byte.x64]).
  intros accepted drawn.
  assert (Hsteps : steps (new Config.default (Vegas.new Config.default)) rl4 accepted drawn).
  { eapply (steps_snoc _ rl3 accepted (take 2 drawn) rl4 [] (drop 2 drawn)).
    - eapply (steps_snoc _ rl2 (take 3 accepted) (take 2 drawn) rl3 (drop 3 accepted) []).
      + eapply (steps_snoc _ rl1 (take 3 accepted) (take 1 drawn) rl2 [] [None]).
        * eapply (steps_snoc _ example_layer (take 3 accepted) [] rl1 [] (take 1 drawn)).
          -- eapply (steps_snoc _ _ [] [] example_layer (take 3 accepted) []); [apply steps_refl|].
             by apply (step_write _ [Byte.x61; Byte.x62; Byte.x63] example_layer 3).
          -- by apply (step_packetize _ 7 100 0 0 None rl1 [Frame.new_push 7 0 0 256 0 (take 3 accepted)]).
        * by apply (step_next_sequence_number rl1 rl2 1).
      + by apply (step_write rl2 [Byte.x64] rl3 1).
    - pose proof (step_packetize_zero_rtt _ _ _ _ _ _ _ _ _ E4) as H.
      vm_compute in E4. injection E4 as <- <-. exact H. }
  split; [exact Hsteps|].
  apply (end_to_end_stream Config.default (Vegas.new Config.default)); [|exact Hsteps|].
  - split; vm_compute; [reflexivity|discriminate].
  - vm_compute. reflexivity.
Defined.

Lemma packetize_respects_windows_witness :
  let '(rl', frames) := packetize_stream_data example_layer 7 100 0 0 None in
  RM.sack_in_flight_count rl'.(retransmission_manager) <=
    Z.max (RM.sack_in_flight_count example_layer.(retransmission_manager))
      (Z.min (congestion_window example_layer.(congestion_control)) 100) /\
  Forall (sack_tracked rl'.(retransmission_manager)) frames.
Proof.
  apply packetize_respects_windows.
  - constructor; vm_compute; [reflexivity|discriminate].
  - split; vm_compute; [reflexivity|discriminate].
  - by_decide.
  - vm_compute. reflexivity.
Defined.

Lemma stale_ack_inert_witness :
  handle_ack example_layer 5 [] 0 RetransmissionFrameInfo.example_context =
    Done (example_layer, []).
Proof.
  apply stale_ack_inert. intros k [[p Hp]|[p Hp]] _.
  - change (RM.sack_manager (retransmission_manager example_layer))
      with (SackManager.new 3 2) in Hp. simpl in Hp. rewrite lookup_empty in Hp. discriminate.
  - change (RM.simple_retx_manager (retransmission_manager example_layer))
      with (∅ : RM.Simple.Manager) in Hp. rewrite lookup_empty in Hp. discriminate.
Defined.

End ReliabilityLayer.
