(* ===== verification/Lifecycle.v ===== *)
(** * Connection lifecycle

    Models [src/core/endpoint/types/state.rs] (the connection states, with
    their hand-written [Clone] and [PartialEq]) and
    [src/core/endpoint/lifecycle/] ([validation.rs], [transitions.rs],
    [manager.rs]).  Operations return their result, the new manager and the
    effects they have outside it: the lifecycle events delivered to the
    registered listeners and the messages sent on the one-shot channel of a
    path validation. *)

From Stdlib Require Import String.
From S2P Require Import Prelude Config.
Open Scope Z_scope.

Module Lifecycle.

Section lifecycle.
(** Socket addresses are only stored and compared. *)
Context {SocketAddr : Type} `{!EqDecision SocketAddr}.

(** ** [state.rs] *)

(** The sending half of a [oneshot] channel, identified by its channel. *)
Definition Sender : Type := Z.

Inductive ConnectionState :=
| Connecting
| SynReceived
| Established
| ValidatingPath (new_addr : SocketAddr) (challenge_data : Z) (notifier : option Sender)
| Closing
| ClosingWait
| FinWait
| Closed.

(** [impl Clone]: the notifier cannot be cloned. *)
Definition clone (s : ConnectionState) : ConnectionState :=
  match s with
  | Connecting => Connecting
  | SynReceived => SynReceived
  | Established => Established
  | ValidatingPath new_addr challenge_data _ => ValidatingPath new_addr challenge_data None
  | Closing => Closing
  | ClosingWait => ClosingWait
  | FinWait => FinWait
  | Closed => Closed
  end.

(** [impl PartialEq]: notifiers are not compared. *)
Definition eq (s other : ConnectionState) : bool :=
  match s, other with
  | Connecting, Connecting => true
  | SynReceived, SynReceived => true
  | Established, Established => true
  | ValidatingPath l_addr l_data _, ValidatingPath r_addr r_data _ =>
      bool_decide (l_addr = r_addr) && (l_data =? r_data)
  | Closing, Closing => true
  | ClosingWait, ClosingWait => true
  | FinWait, FinWait => true
  | Closed, Closed => true
  | _, _ => false
  end.

(** ** [validation.rs] *)

(** [std::mem::discriminant] *)
Definition discriminant (s : ConnectionState) : Z :=
  match s with
  | Connecting => 0 | SynReceived => 1 | Established => 2 | ValidatingPath _ _ _ => 3
  | Closing => 4 | ClosingWait => 5 | FinWait => 6 | Closed => 7
  end.

Definition is_valid_transition (current_state new_state : ConnectionState) : bool :=
  match current_state, new_state with
  | _, Closed => true
  | Connecting, Established => true
  | Connecting, Closing => true
  | SynReceived, Established => true
  | SynReceived, FinWait => true
  | SynReceived, Closing => true
  | Established, FinWait => true
  | Established, Closing => true
  | Established, ValidatingPath _ _ _ => true
  | ValidatingPath _ _ _, Established => true
  | ValidatingPath _ _ _, FinWait => true
  | ValidatingPath _ _ _, Closing => true
  | FinWait, Closing => true
  | Closing, ClosingWait => true
  | state1, state2 => discriminant state1 =? discriminant state2
  end.

Definition can_send_data (s : ConnectionState) : bool :=
  match s with Established | FinWait => true | _ => false end.

Definition can_receive_data (s : ConnectionState) : bool :=
  match s with Established | Closing => true | _ => false end.

Definition should_close (s : ConnectionState) : bool :=
  match s with Closed => true | _ => false end.

Definition is_active (s : ConnectionState) : bool :=
  match s with Established | SynReceived | Connecting => true | _ => false end.

Definition is_closing (s : ConnectionState) : bool :=
  match s with Closing | ClosingWait | FinWait => true | _ => false end.

Definition can_start_path_validation (s : ConnectionState) : bool :=
  match s with Established => true | _ => false end.

Definition can_begin_graceful_shutdown (s : ConnectionState) : bool :=
  match s with Closed | ClosingWait => false | _ => true end.

Definition is_path_validating (s : ConnectionState) : bool :=
  match s with ValidatingPath _ _ _ => true | _ => false end.

(** ** [transitions.rs] *)

Inductive LifecycleEvent :=
| ConnectionInitialized (local_cid : Z) (remote_addr : SocketAddr)
| ConnectionEstablishing
| ConnectionEstablished
| ConnectionClosing
| ConnectionClosed_
| PathValidationStarted (new_addr : SocketAddr)
| PathValidationCompleted (success : bool)
| StateTransition (from to : string)
| ConnectionTimeout
| ForceClose.

(** The errors these operations return or send. *)
Inductive Error := InvalidPacket | ConnectionClosed | PathValidationTimeout.

(** What an operation does outside the manager. *)
Inductive effect :=
| Deliver (listener : Z) (event : LifecycleEvent)
| Notify (channel : Sender) (result : unit + Error).

Record StateTransitionExecutor := {
  ex_cid : Z;
  event_listeners : list Z;     (* Vec<EventListener>, by identity *)
}.

Definition state_name_for (s : ConnectionState) : string :=
  match s with
  | Connecting => "Connecting"
  | SynReceived => "SynReceived"
  | Established => "Established"
  | ValidatingPath _ _ _ => "ValidatingPath"
  | Closing => "Closing"
  | ClosingWait => "ClosingWait"
  | FinWait => "FinWait"
  | Closed => "Closed"
  end%string.

Definition trigger_event (ex : StateTransitionExecutor) (event : LifecycleEvent) : list effect :=
  map (fun listener => Deliver listener event) ex.(event_listeners).

Definition trigger_lifecycle_event (ex : StateTransitionExecutor) (s : ConnectionState)
    : list effect :=
  match s with
  | Connecting => trigger_event ex ConnectionEstablishing
  | Established => trigger_event ex ConnectionEstablished
  | Closing | FinWait => trigger_event ex ConnectionClosing
  | Closed => trigger_event ex ConnectionClosed_
  | ValidatingPath new_addr _ _ => trigger_event ex (PathValidationStarted new_addr)
  | _ => []
  end.

Definition execute_transition (ex : StateTransitionExecutor) (current_state new_state : ConnectionState)
    : (ConnectionState + Error) * list effect :=
  if negb (is_valid_transition current_state new_state) then (inr InvalidPacket, [])
  else
    let changed :=
      if discriminant current_state =? discriminant new_state then []
      else trigger_event ex
             (StateTransition (state_name_for current_state) (state_name_for new_state)) in
    (inl new_state, changed ++ trigger_lifecycle_event ex new_state).

Definition execute_graceful_shutdown (ex : StateTransitionExecutor) (current_state : ConnectionState)
    : (ConnectionState + Error) * list effect :=
  match current_state with
  | Connecting | SynReceived | Established | FinWait | ValidatingPath _ _ _ =>
      execute_transition ex current_state Closing
  | Closing | ClosingWait | Closed => (inl (clone current_state), [])
  end.

(** ** [manager.rs] *)

Record DefaultLifecycleManager := {
  current_state : ConnectionState;
  cid : Z;
  remote_addr : option SocketAddr;
  config : Config.Config;
  start_time : Instant;
  transition_executor : StateTransitionExecutor;
}.

Abbreviation Manager := DefaultLifecycleManager.
Definition outcome_of : Type := (unit + Error) * Manager * list effect.

Definition with_state (m : Manager) (s : ConnectionState) : Manager :=
  {| current_state := s; cid := m.(cid); remote_addr := m.(remote_addr); config := m.(config);
     start_time := m.(start_time); transition_executor := m.(transition_executor) |}.

Definition with_listeners (m : Manager) (ls : list Z) : Manager :=
  {| current_state := m.(current_state); cid := m.(cid); remote_addr := m.(remote_addr);
     config := m.(config); start_time := m.(start_time);
     transition_executor :=
       {| ex_cid := m.(transition_executor).(ex_cid); event_listeners := ls |} |}.

(** [now] is the value of [Instant::now()]. *)
Definition new (initial_state : ConnectionState) (config : Config.Config) (now : Instant) : Manager :=
  {| current_state := initial_state; cid := 0; remote_addr := None; config := config;
     start_time := now; transition_executor := {| ex_cid := 0; event_listeners := [] |} |}.

Definition initialize (m : Manager) (local_cid : Z) (addr : SocketAddr) (now : Instant) : outcome_of :=
  let ex := {| ex_cid := local_cid; event_listeners := m.(transition_executor).(event_listeners) |} in
  (inl tt,
   {| current_state := m.(current_state); cid := local_cid; remote_addr := Some addr;
      config := m.(config); start_time := now; transition_executor := ex |},
   trigger_event ex (ConnectionInitialized local_cid addr)).

(** The cleanup at the head of [transition_to], on a clone of the state. *)
Definition interrupt_path_validation (state_clone new_state : ConnectionState) : list effect :=
  match state_clone with
  | ValidatingPath _ _ notifier =>
      if is_path_validating new_state then []
      else
        match notifier with
        | None => []
        | Some notifier =>
            let error :=
              match new_state with
              | Closing | Closed => ConnectionClosed
              | _ => PathValidationTimeout
              end in
            [Notify notifier (inr error)]
        end
  | _ => []
  end.

Definition transition_to (m : Manager) (new_state : ConnectionState) : outcome_of :=
  let cleanup := interrupt_path_validation (clone m.(current_state)) new_state in
  match execute_transition m.(transition_executor) m.(current_state) new_state with
  | (inl resulting_state, effects) => (inl tt, with_state m resulting_state, cleanup ++ effects)
  | (inr e, effects) => (inr e, m, cleanup ++ effects)
  end.

Definition begin_graceful_shutdown (m : Manager) : outcome_of :=
  match execute_graceful_shutdown m.(transition_executor) m.(current_state) with
  | (inl resulting_state, effects) => (inl tt, with_state m resulting_state, effects)
  | (inr e, effects) => (inr e, m, effects)
  end.

Definition force_close (m : Manager) : outcome_of :=
  let first := trigger_event m.(transition_executor) ForceClose in
  let '(r, m', effects) := transition_to m Closed in (r, m', first ++ effects).

Definition start_path_validation (m : Manager) (new_addr : SocketAddr) (challenge_data : Z)
    (notifier : Sender) : outcome_of :=
  if negb (can_start_path_validation m.(current_state)) then (inr InvalidPacket, m, [])
  else transition_to m (ValidatingPath new_addr challenge_data (Some notifier)).

Definition complete_path_validation (m : Manager) (success : bool) : outcome_of :=
  if negb (is_path_validating m.(current_state)) then (inr InvalidPacket, m, [])
  else
    let first := trigger_event m.(transition_executor) (PathValidationCompleted success) in
    let '(r, m', effects) := transition_to m Established in (r, m', first ++ effects).

Definition register_event_listener (m : Manager) (listener : Z) : Manager :=
  with_listeners m (m.(transition_executor).(event_listeners) ++ [listener]).

Definition clear_event_listeners (m : Manager) : Manager := with_listeners m [].

Definition trigger_timeout (m : Manager) : list effect :=
  trigger_event m.(transition_executor) ConnectionTimeout.

(** ** The state machine as a step relation *)

Inductive step : Manager -> (unit + Error) -> list effect -> Manager -> Prop :=
| step_initialize m local_cid addr now r m' eff :
    initialize m local_cid addr now = (r, m', eff) -> step m r eff m'
| step_transition m new_state r m' eff :
    transition_to m new_state = (r, m', eff) -> step m r eff m'
| step_shutdown m r m' eff : begin_graceful_shutdown m = (r, m', eff) -> step m r eff m'
| step_force_close m r m' eff : force_close m = (r, m', eff) -> step m r eff m'
| step_start_validation m addr data notifier r m' eff :
    start_path_validation m addr data notifier = (r, m', eff) -> step m r eff m'
| step_complete_validation m success r m' eff :
    complete_path_validation m success = (r, m', eff) -> step m r eff m'
| step_listener m listener : step m (inl tt) [] (register_event_listener m listener)
| step_clear m : step m (inl tt) [] (clear_event_listeners m).

(** Runs of the manager and the effects they have. *)
Inductive reachable (m0 : Manager) : Manager -> list effect -> Prop :=
| reachable_refl : reachable m0 m0 []
| reachable_step m eff m' r e :
    reachable m0 m eff -> step m r e m' -> reachable m0 m' (eff ++ e).

(** The phase of a connection: being set up, open, half closed by the peer,
    closing, waiting, closed. *)
Definition phase (s : ConnectionState) : Z :=
  match s with
  | Connecting | SynReceived => 0
  | Established | ValidatingPath _ _ _ => 1
  | FinWait => 2
  | Closing => 3
  | ClosingWait => 4
  | Closed => 5
  end.

Definition is_notify (e : effect) : bool :=
  match e with Notify _ _ => true | Deliver _ _ => false end.

Lemma transition_to_spec m new_state :
  transition_to m new_state =
    if is_valid_transition m.(current_state) new_state
    then (inl tt, with_state m new_state,
          (execute_transition m.(transition_executor) m.(current_state) new_state).2)
    else (inr InvalidPacket, m, []).
Proof.
  unfold transition_to, execute_transition.
  assert (E : interrupt_path_validation (clone (current_state m)) new_state = []).
  { destruct (current_state m); simpl; try done. by destruct (is_path_validating new_state). }
  rewrite E. by destruct (is_valid_transition (current_state m) new_state).
Qed.

Lemma trigger_event_no_notify ex ev : List.filter is_notify (trigger_event ex ev) = [].
Proof. unfold trigger_event. by induction (event_listeners ex). Qed.

Lemma execute_transition_no_notify ex s s' :
  List.filter is_notify (execute_transition ex s s').2 = [].
Proof.
  unfold execute_transition. case_match; [done|]. cbn [snd]. rewrite List.filter_app.
  assert (H1 : List.filter is_notify (trigger_lifecycle_event ex s') = [])
    by (destruct s'; simpl; try done; apply trigger_event_no_notify).
  rewrite H1, app_nil_r. case_match; [done|apply trigger_event_no_notify].
Qed.

Lemma valid_phase s s' : is_valid_transition s s' = true -> phase s <= phase s'.
Proof. destruct s, s'; simpl; done || lia. Qed.

Lemma valid_refl s : is_valid_transition s s = true.
Proof. by destruct s. Qed.

(** Every operation is a valid transition or leaves the state as it is, and
    says nothing on a notification channel. *)
Lemma step_valid m r eff m' :
  step m r eff m' ->
  is_valid_transition m.(current_state) m'.(current_state) = true /\
  (r <> inl tt -> m' = m) /\ List.filter is_notify eff = [].
Proof.
  assert (HT : forall m s r m' eff, transition_to m s = (r, m', eff) ->
    is_valid_transition (current_state m) (current_state m') = true /\
    (r <> inl tt -> m' = m) /\ List.filter is_notify eff = []).
  { intros m0 s r0 m0' eff0. rewrite transition_to_spec.
    destruct (is_valid_transition (current_state m0) s) eqn:E; intros [= <- <- <-].
    - split_and!; [done|done|apply execute_transition_no_notify].
    - split_and!; [apply valid_refl|done|done]. }
  assert (HP : forall m first s r m' eff,
    (let '(r, m', effects) := transition_to m s in (r, m', first ++ effects)) = (r, m', eff) ->
    List.filter is_notify first = [] ->
    is_valid_transition (current_state m) (current_state m') = true /\
    (r <> inl tt -> m' = m) /\ List.filter is_notify eff = []).
  { intros m0 first s r0 m0' eff0. destruct (transition_to m0 s) as [[r1 m1] eff1] eqn:E.
    intros [= <- <- <-] Hf. apply HT in E as (? & ? & Hn).
    split_and!; [done|done|]. by rewrite List.filter_app, Hf, Hn. }
  destruct 1 as [m c a now r m' eff E|m s r m' eff E|m r m' eff E|m r m' eff E
    |m a d n r m' eff E|m b r m' eff E|m l|m].
  - injection E as <- <- <-. split_and!; [apply valid_refl|done|apply trigger_event_no_notify].
  - by eapply HT.
  - unfold begin_graceful_shutdown, execute_graceful_shutdown in E.
    pose proof (execute_transition_no_notify (transition_executor m) (current_state m) Closing) as Hn.
    unfold execute_transition in E, Hn.
    destruct (current_state m) eqn:Es; simpl in E; injection E as <- <- <-; simpl; rewrite ?Es;
      split_and!; done.
  - eapply HP; [exact E|apply trigger_event_no_notify].
  - unfold start_path_validation in E. case_match; [|by eapply HT].
    injection E as <- <- <-. split_and!; [apply valid_refl|done|done].
  - unfold complete_path_validation in E. case_match.
    + injection E as <- <- <-. split_and!; [apply valid_refl|done|done].
    + eapply HP; [exact E|apply trigger_event_no_notify].
  - split_and!; [apply valid_refl|done|done].
  - split_and!; [apply valid_refl|done|done].
Qed.

(** ** Properties *)

(** C34: the lifecycle only moves forward.  In every run of lifecycle
    operations from any state, the phase of the connection (set-up, open, half
    closed, closing, waiting, closed) never decreases; an operation that
    fails leaves the manager unchanged; and a closed connection stays closed. *)
Theorem lifecycle_monotone m0 m eff m' r e :
  reachable m0 m eff -> step m r e m' ->
  phase m0.(current_state) <= phase m.(current_state) <= phase m'.(current_state) /\
  is_valid_transition m.(current_state) m'.(current_state) = true /\
  (r <> inl tt -> m' = m) /\
  (m0.(current_state) = Closed -> m'.(current_state) = Closed).
Proof.
  intros Hr Hs. destruct (step_valid _ _ _ _ Hs) as (Hv & Hf & _).
  assert (Hp : phase m0.(current_state) <= phase m.(current_state)).
  { clear Hs Hv Hf. induction Hr as [|m1 eff m2 r1 e1 Hr IH Hstep]; [lia|].
    apply step_valid in Hstep as (Hv & _). apply valid_phase in Hv. lia. }
  pose proof (valid_phase _ _ Hv). split_and!; try done.
  intros E. rewrite E in Hp. simpl in Hp.
  destruct (current_state m); simpl in *; try lia. by destruct (current_state m').
Qed.

(** Graceful shutdown always succeeds and ends in Closing, unless the
    connection was already past it, where nothing happens. *)
Theorem graceful_shutdown_spec m :
  let '(r, m', eff) := begin_graceful_shutdown m in
  r = inl tt /\
  (if phase m.(current_state) <? 3 then m'.(current_state) = Closing
   else m' = m /\ eff = []).
Proof.
  unfold begin_graceful_shutdown, execute_graceful_shutdown, execute_transition.
  destruct m as [s c a cfg t ex]; destruct s; simpl; by repeat split.
Qed.

(** Path validation is only possible from Established and returns to it:
    it is refused in any other state without effect, and starting then
    completing it, with either outcome, leads back to the manager it started
    from. *)
Theorem path_validation_roundtrip m addr data notifier success :
  let '(r, m1, _) := start_path_validation m addr data notifier in
  (m.(current_state) <> Established -> r = inr InvalidPacket /\ m1 = m) /\
  (m.(current_state) = Established ->
     r = inl tt /\ m1.(current_state) = ValidatingPath addr data (Some notifier) /\
     let '(r2, m2, _) := complete_path_validation m1 success in r2 = inl tt /\ m2 = m).
Proof.
  unfold start_path_validation, complete_path_validation. rewrite !transition_to_spec.
  destruct m as [s c a cfg t ex]. destruct s; simpl; try (split; [done|discriminate]).
  split; [done|]. intros _. by repeat split.
Qed.

(** No lifecycle operation ever answers on the notifier of a path
    validation: the operations work on a clone of the state, which has lost
    it.  So whoever started the validation is never told its outcome. *)
Theorem notifier_never_used m0 m eff :
  reachable m0 m eff -> forall channel result, Notify channel result ∉ eff.
Proof.
  intros Hr channel result. induction Hr as [|m1 eff m2 r e Hr IH Hstep].
  - apply not_elem_of_nil.
  - rewrite elem_of_app. intros [Hin|Hin]; [done|].
    apply step_valid in Hstep as (_ & _ & Hn).
    assert (H : Notify channel result ∈ List.filter is_notify e)
      by (apply list_elem_of_In, filter_In; split; [by apply list_elem_of_In|done]).
    rewrite Hn in H. by apply elem_of_nil in H.
Qed.

End lifecycle.

Arguments ConnectionState SocketAddr : clear implicits.
Arguments DefaultLifecycleManager SocketAddr : clear implicits.

(** ** Witnesses, with port numbers as addresses *)

Definition example_manager : DefaultLifecycleManager Z :=
  with_listeners (new Established Config.default 0) [1].

Lemma lifecycle_monotone_witness :
  exists (m m' : DefaultLifecycleManager Z) eff e,
    reachable example_manager m eff /\ step m (inl tt) e m' /\
    phase example_manager.(current_state) <= phase m.(current_state) <= phase m'.(current_state) /\
    is_valid_transition m.(current_state) m'.(current_state) = true /\
    (inl tt <> @inl unit Error tt -> m' = m) /\
    (example_manager.(current_state) = Closed -> m'.(current_state) = Closed).
Proof.
  set (s1 := start_path_validation example_manager 8080 99 5).
  set (s2 := begin_graceful_shutdown s1.1.2).
  assert (H1 : reachable example_manager s1.1.2 ([] ++ s1.2))
    by (eapply reachable_step; [apply reachable_refl|apply (step_start_validation _ 8080 99 5 (inl tt)); reflexivity]).
  assert (H2 : step s1.1.2 (inl tt) s2.2 s2.1.2) by (apply step_shutdown; reflexivity).
  exists s1.1.2, s2.1.2, ([] ++ s1.2), s2.2.
  split; [exact H1|]. split; [exact H2|].
  exact (lifecycle_monotone example_manager s1.1.2 ([] ++ s1.2) s2.1.2 (inl tt) s2.2 H1 H2).
Defined.

Lemma notifier_never_used_witness :
  exists m eff, reachable example_manager m eff /\ m.(current_state) = ValidatingPath 8080 99 (Some 5) /\
    Notify 5 (inl tt) ∉ eff.
Proof.
  set (s1 := start_path_validation example_manager 8080 99 5).
  assert (H1 : reachable example_manager s1.1.2 ([] ++ s1.2))
    by (eapply reachable_step; [apply reachable_refl|apply (step_start_validation _ 8080 99 5 (inl tt)); reflexivity]).
  exists s1.1.2, ([] ++ s1.2). split; [exact H1|]. split; [reflexivity|].
  exact (notifier_never_used example_manager s1.1.2 _ H1 5 (inl tt)).
Defined.

End Lifecycle.
