(* ===== verification/TimingWheel.v ===== *)
(** * Timing wheel

    Models [src/timer/wheel/core.rs] and [entry.rs]: the hashed timing wheel
    behind the global timer task.  Slot numbers and positions inside a slot
    (the [usize] indices of the code) are naturals, times are integers.  The
    specification is a set of pending entries: [add_timer] adds one,
    [cancel_timer] removes one, [advance] removes and returns exactly those
    that have expired. *)

From S2P Require Import Prelude BTreeMap.

Module TimingWheel.

Section wheel.
(** The event carried by a timer, [TimerEvent<E>]. *)
Context {Event : Type}.

Record TimerEntry := {
  id : Z;                    (* TimerEntryId = u64 *)
  expiry_time : Instant;
  event : Event;
}.

Record TimingWheel := {
  slot_count : nat;
  slot_mask : nat;
  slot_duration : Duration;
  current_slot : nat;
  start_time : Instant;
  current_time : Instant;
  slots : list (list TimerEntry);       (* Vec<VecDeque<TimerEntry>> *)
  timer_map : gmap Z (nat * nat);       (* (slot_index, position_in_slot) *)
  next_entry_id : Z;
  cached_next_expiry : option Instant;
}.

Implicit Types (w : TimingWheel) (e : TimerEntry) (l : list TimerEntry) (m : gmap Z (nat * nat)).

Definition with_timers w (sl : list (list TimerEntry)) m : TimingWheel := {|
  slot_count := w.(slot_count); slot_mask := w.(slot_mask); slot_duration := w.(slot_duration);
  current_slot := w.(current_slot); start_time := w.(start_time);
  current_time := w.(current_time); slots := sl; timer_map := m;
  next_entry_id := w.(next_entry_id); cached_next_expiry := w.(cached_next_expiry) |}.

Definition with_cache w (c : option Instant) : TimingWheel := {|
  slot_count := w.(slot_count); slot_mask := w.(slot_mask); slot_duration := w.(slot_duration);
  current_slot := w.(current_slot); start_time := w.(start_time);
  current_time := w.(current_time); slots := w.(slots); timer_map := w.(timer_map);
  next_entry_id := w.(next_entry_id); cached_next_expiry := c |}.

(** ** Operations *)

Definition is_power_of_two (n : nat) : bool := (n =? 2 ^ Nat.log2 n)%nat.

(** [now] is the value of [Instant::now()]; panics on the assertion. *)
Definition new (slot_count : nat) (slot_duration : Duration) (now : Instant) : outcome TimingWheel :=
  if is_power_of_two slot_count then
    Done {| slot_count := slot_count; slot_mask := slot_count - 1; slot_duration := slot_duration;
            current_slot := 0; start_time := now; current_time := now;
            slots := replicate slot_count []; timer_map := ∅; next_entry_id := 1;
            cached_next_expiry := None |}
  else Panic.

Definition new_default (now : Instant) : outcome TimingWheel := new 512 (from_millis 100) now.

Definition calculate_slot_index w (expiry : Instant) : nat :=
  let elapsed_since_start := duration_since expiry w.(start_time) in
  let slot_offset := Z.to_nat (elapsed_since_start / w.(slot_duration)) in
  Nat.land slot_offset w.(slot_mask).

(** [self.slots[i]]; the index is in range in every well-formed wheel. *)
Definition slot w (i : nat) : list TimerEntry := w.(slots) !!! i.

(** [if expiry < cached { cached = expiry }] *)
Definition cache_min (cached : option Instant) (expiry : Instant) : option Instant :=
  match cached with
  | None => Some expiry
  | Some current_earliest => if expiry <? current_earliest then Some expiry else cached
  end.

Definition add_timer w (delay : Duration) (event : Event) : TimingWheel * Z :=
  let entry_id := w.(next_entry_id) in
  let expiry := w.(current_time) + delay in
  let slot_index := calculate_slot_index w expiry in
  let entry := {| id := entry_id; expiry_time := expiry; event := event |} in
  let position_in_slot := length (slot w slot_index) in
  ({| slot_count := w.(slot_count); slot_mask := w.(slot_mask); slot_duration := w.(slot_duration);
      current_slot := w.(current_slot); start_time := w.(start_time);
      current_time := w.(current_time);
      slots := <[slot_index := slot w slot_index ++ [entry]]> w.(slots);
      timer_map := <[entry_id := (slot_index, position_in_slot)]> w.(timer_map);
      next_entry_id := entry_id + 1;
      cached_next_expiry := cache_min w.(cached_next_expiry) expiry |}, entry_id).

(** [slot.pop_back()] *)
Definition pop_back l : list TimerEntry := take (length l - 1) l.

(** [slot.swap(p, len - 1); slot.pop_back()] *)
Definition swap_remove l (p : nat) : list TimerEntry :=
  match last l with
  | Some last_entry => pop_back (<[p := last_entry]> l)
  | None => l
  end.

Definition cancel_timer w (entry_id : Z) : TimingWheel * bool :=
  match w.(timer_map) !! entry_id with
  | None => (w, false)
  | Some (slot_index, position_in_slot) =>
      let m := delete entry_id w.(timer_map) in
      let sl := slot w slot_index in
      if (slot_index <? length w.(slots))%nat && (position_in_slot <? length sl)%nat then
        let cancelled_expiry := expiry_time <$> sl !! position_in_slot in
        let '(sl', m') :=
          if (position_in_slot =? length sl - 1)%nat then (pop_back sl, m)
          else
            let sl' := swap_remove sl position_in_slot in
            (sl', match sl' !! position_in_slot with
                  | Some swapped_entry =>
                      <[swapped_entry.(id) := (slot_index, position_in_slot)]> m
                  | None => m
                  end) in
        let cache :=
          match w.(cached_next_expiry), cancelled_expiry with
          | Some cached_expiry, Some cancelled =>
              if cancelled <=? cached_expiry + from_millis 1 then None
              else w.(cached_next_expiry)
          | _, _ => w.(cached_next_expiry)
          end in
        (with_cache (with_timers w (<[slot_index := sl']> w.(slots)) m') cache, true)
      else (with_timers w w.(slots) m, false)
  end.

(** [for j in i..len { map.insert(slot[j].id, (slot_index, j)) }] *)
Fixpoint remap_from (slot_index j : nat) l m : gmap Z (nat * nat) :=
  match l with
  | [] => m
  | e :: l => remap_from slot_index (S j) l (<[e.(id) := (slot_index, j)]> m)
  end.

(** The loop of [check_current_slot_for_expired_timers] from index [i].  Each
    iteration shortens the rest of the slot, whose length is enough fuel. *)
Fixpoint check_loop (fuel : nat) (now : Instant) (slot_index i : nat)
    (st : list TimerEntry * gmap Z (nat * nat) * list TimerEntry)
    : list TimerEntry * gmap Z (nat * nat) * list TimerEntry :=
  match fuel with
  | O => st
  | S fuel =>
      let '(sl, m, expired) := st in
      match sl !! i with
      | None => st
      | Some entry =>
          if entry.(expiry_time) <=? now then
            let sl' := delete i sl in
            check_loop fuel now slot_index i
              (sl', remap_from slot_index i (drop i sl') (delete entry.(id) m), expired ++ [entry])
          else check_loop fuel now slot_index (S i) st
      end
  end.

Definition check_current_slot_for_expired_timers w (now : Instant) (expired_timers : list TimerEntry)
    : TimingWheel * list TimerEntry :=
  let sl := slot w w.(current_slot) in
  let '(sl', m', expired) :=
    check_loop (length sl) now w.(current_slot) 0 (sl, w.(timer_map), expired_timers) in
  (with_timers w (<[w.(current_slot) := sl']> w.(slots)) m', expired).

(** One entry of the slot reached by [advance]. *)
Definition advance_entry (now : Instant) (st : TimingWheel * list TimerEntry) e
    : TimingWheel * list TimerEntry :=
  let '(w, expired_timers) := st in
  let m := delete e.(id) w.(timer_map) in
  if e.(expiry_time) <=? now then (with_timers w w.(slots) m, expired_timers ++ [e])
  else
    let new_slot_index := calculate_slot_index w e.(expiry_time) in
    let position_in_slot := length (slot w new_slot_index) in
    (with_timers w (<[new_slot_index := slot w new_slot_index ++ [e]]> w.(slots))
       (<[e.(id) := (new_slot_index, position_in_slot)]> m), expired_timers).

(** One iteration of the loop of [advance]. *)
Definition advance_slot (now : Instant) (st : TimingWheel * list TimerEntry)
    : TimingWheel * list TimerEntry :=
  let '(w, expired_timers) := st in
  let current := Nat.land (w.(current_slot) + 1) w.(slot_mask) in
  let entries_to_process := slot w current in
  let w' := {|
    slot_count := w.(slot_count); slot_mask := w.(slot_mask); slot_duration := w.(slot_duration);
    current_slot := current; start_time := w.(start_time);
    current_time := w.(current_time) + w.(slot_duration);
    slots := <[current := []]> w.(slots); timer_map := w.(timer_map);
    next_entry_id := w.(next_entry_id); cached_next_expiry := w.(cached_next_expiry) |} in
  fold_left (advance_entry now) entries_to_process (w', expired_timers).

Definition advance w (now : Instant) : TimingWheel * list TimerEntry :=
  let '(w1, expired1) := check_current_slot_for_expired_timers w now [] in
  let elapsed := duration_since now w1.(current_time) in
  let slots_to_advance := Z.to_nat (elapsed / w1.(slot_duration)) in
  if (slots_to_advance =? 0)%nat then (w1, expired1)
  else
    let max_advance := Nat.min w1.(slot_count) slots_to_advance in
    let '(w2, expired2) := Nat.iter max_advance (advance_slot now) (w1, expired1) in
    (match expired2 with [] => w2 | _ => with_cache w2 None end, expired2).

(** The earliest expiry of one slot. *)
Definition slot_earliest l : option Instant :=
  fold_left (fun earliest e => cache_min earliest e.(expiry_time)) l None.

(** The loop of [next_expiry_time] over the offsets; [n] offsets are left. *)
Fixpoint search_loop (n : nat) w (offset : nat) (earliest_time : option Instant) : option Instant :=
  match n with
  | O => earliest_time
  | S n =>
      let sl := slot w (Nat.land (w.(current_slot) + offset) w.(slot_mask)) in
      match sl with
      | [] => search_loop n w (S offset) earliest_time
      | _ =>
          let earliest_time :=
            match earliest_time, slot_earliest sl with
            | None, Some slot_time => Some slot_time
            | Some global_time, Some slot_time =>
                if slot_time <? global_time then Some slot_time else Some global_time
            | _, _ => earliest_time
            end in
          match earliest_time with
          | Some time =>
              let next_slot_baseline :=
                w.(current_time) + w.(slot_duration) * as_u32 (Z.of_nat offset) in
              if time <=? next_slot_baseline + w.(slot_duration) then earliest_time
              else search_loop n w (S offset) earliest_time
          | None => search_loop n w (S offset) earliest_time
          end
      end
  end.

Definition next_expiry_time w : TimingWheel * option Instant :=
  match w.(cached_next_expiry) with
  | Some cached => (w, Some cached)
  | None =>
      if bool_decide (w.(timer_map) = ∅) then (w, None)
      else
        let earliest_time := search_loop w.(slot_count) w 0 None in
        (with_cache w earliest_time, earliest_time)
  end.

Definition timer_count w : nat := size w.(timer_map).

Definition is_empty w : bool := bool_decide (w.(timer_map) = ∅).

Definition clear w : TimingWheel :=
  with_cache (with_timers w (map (fun _ => []) w.(slots)) ∅) None.

(** ** Well-formed wheels *)

(** All the timers in the wheel. *)
Definition pending w : list TimerEntry := concat w.(slots).

(** The map holds the place of every entry of the slots and nothing else. *)
Definition mapped (sl : list (list TimerEntry)) m : Prop :=
  forall x s p, m !! x = Some (s, p) <-> exists l e, sl !! s = Some l /\ l !! p = Some e /\ e.(id) = x.

Definition entry_ok w (i : nat) e : Prop :=
  calculate_slot_index w e.(expiry_time) = i /\ 0 <= e.(id) < w.(next_entry_id).

(** What holds at every point of every operation ... *)
Record core_ok w : Prop := {
  core_pow : exists k, w.(slot_count) = (2 ^ k)%nat;
  core_u32 : Z.of_nat w.(slot_count) <= 2 ^ 32;
  core_mask : w.(slot_mask) = (w.(slot_count) - 1)%nat;
  core_slots : length w.(slots) = w.(slot_count);
  core_duration : 0 < w.(slot_duration);
  core_time : exists n : nat,
    w.(current_time) = w.(start_time) + w.(slot_duration) * Z.of_nat n /\
    w.(current_slot) = (n mod w.(slot_count))%nat;
  core_entries : forall i l, w.(slots) !! i = Some l -> Forall (entry_ok w i) l;
  core_map : mapped w.(slots) w.(timer_map);
  core_next_id : 0 <= w.(next_entry_id);
}.

(** ... and between operations: no timer expires before the wheel's time. *)
Definition wf w : Prop :=
  core_ok w /\ Forall (fun e => w.(current_time) <= e.(expiry_time)) (pending w).

Definition due (now : Instant) e : Prop := e.(expiry_time) <= now.

#[global] Instance due_dec now e : Decision (due now e).
Proof. unfold due. apply _. Defined.

#[local] Hint Unfold due : core.

(** ** The map *)

Lemma mapped_nodup sl m s l : mapped sl m -> sl !! s = Some l -> NoDup (id <$> l).
Proof.
  intros Hm Hs. apply NoDup_alt. intros i j x Hi Hj.
  apply list_lookup_fmap_Some in Hi as (e1 & -> & H1), Hj as (e2 & E2 & H2).
  assert (A1 : m !! e1.(id) = Some (s, i)) by (apply Hm; eauto 6).
  assert (A2 : m !! e1.(id) = Some (s, j)) by (apply Hm; eauto 6).
  congruence.
Qed.

(** Replacing the contents [l] of a slot by [l']: what the new map has to
    satisfy. *)
Lemma mapped_replace sl m m' s l l' :
  mapped sl m -> sl !! s = Some l ->
  (forall p e, l' !! p = Some e -> m' !! e.(id) = Some (s, p)) ->
  (forall x, x ∉ id <$> l' -> x ∈ id <$> l -> m' !! x = None) ->
  (forall x, x ∉ id <$> l' -> x ∉ id <$> l -> m' !! x = m !! x) ->
  (forall x, x ∈ id <$> l' -> x ∈ id <$> l \/ m !! x = None) ->
  mapped (<[s := l']> sl) m'.
Proof.
  intros Hm Hs Hin Hgone Hkeep Hids x s1 p1.
  pose proof (lookup_lt_Some _ _ _ Hs) as Hlt.
  assert (Hold : forall e p, l !! p = Some e -> m !! e.(id) = Some (s, p))
    by (intros; apply Hm; eauto 6).
  split.
  - intros Hx. destruct (decide (x ∈ id <$> l')) as [(e & -> & He)%list_elem_of_fmap|Hn].
    + apply list_elem_of_lookup in He as (p & He). rewrite (Hin _ _ He) in Hx. simplify_eq.
      exists l', e. by rewrite list_lookup_insert_eq.
    + destruct (decide (x ∈ id <$> l)) as [Hl|Hl]; [by rewrite Hgone in Hx|].
      rewrite Hkeep in Hx by done. apply Hm in Hx as (l1 & e & H1 & H2 & <-).
      exists l1, e. split_and!; try done. rewrite list_lookup_insert_ne; [done|].
      intros ->. rewrite Hs in H1; simplify_eq.
      apply Hl, list_elem_of_fmap. eauto using list_elem_of_lookup_2.
  - intros (l1 & e & H1 & H2 & <-). destruct (decide (s = s1)) as [->|Hne].
    + rewrite list_lookup_insert_eq in H1 by done. simplify_eq. auto.
    + rewrite list_lookup_insert_ne in H1 by done.
      assert (Ho : m !! e.(id) = Some (s1, p1)) by (apply Hm; eauto 6).
      assert (Hl : e.(id) ∉ id <$> l).
      { intros (e2 & E2 & H3)%list_elem_of_fmap. apply list_elem_of_lookup in H3 as (p & H3).
        apply Hold in H3. rewrite <- E2 in H3. congruence. }
      rewrite Hkeep; [done| |done]. intros [?|?]%Hids; [done|congruence].
Qed.

Lemma remap_from_notin s l : forall j m x,
  x ∉ id <$> l -> remap_from s j l m !! x = m !! x.
Proof.
  induction l as [|e l IH]; intros j m x; [done|].
  rewrite fmap_cons, not_elem_of_cons. intros [Hne Hx]. simpl.
  by rewrite IH, lookup_insert_ne by congruence.
Qed.

Lemma remap_from_in s l : forall j m p e,
  NoDup (id <$> l) -> l !! p = Some e -> remap_from s j l m !! e.(id) = Some (s, j + p)%nat.
Proof.
  induction l as [|e0 l IH]; intros j m p e; [done|].
  rewrite fmap_cons, NoDup_cons. intros [Hn Hnd] Hp. simpl. destruct p as [|p]; simplify_eq/=.
  - rewrite remap_from_notin, lookup_insert_eq by done. do 2 f_equal; lia.
  - rewrite (IH (S j) _ p) by done. do 2 f_equal; lia.
Qed.

(** ** The set of pending timers *)

Lemma concat_insert (sl : list (list TimerEntry)) s l l' :
  sl !! s = Some l -> concat (<[s := l']> sl) ≡ₚ l' ++ concat (<[s := []]> sl).
Proof.
  intros H. apply take_drop_middle in H as Hsl. apply lookup_lt_Some in H as Hlt.
  rewrite !insert_take_drop by done. rewrite !concat_app. simpl. solve_Permutation.
Qed.

Lemma concat_split (sl : list (list TimerEntry)) s l :
  sl !! s = Some l -> concat sl ≡ₚ l ++ concat (<[s := []]> sl).
Proof. intros H. by rewrite <- concat_insert, list_insert_id. Qed.

(** Replacing a slot that holds [gone ++ l'] by [l'] takes [gone] away. *)
Lemma concat_replace (sl : list (list TimerEntry)) s l l' gone :
  sl !! s = Some l -> l ≡ₚ gone ++ l' -> concat sl ≡ₚ gone ++ concat (<[s := l']> sl).
Proof.
  intros H Hl. rewrite (concat_split _ _ _ H), Hl, (concat_insert sl s l l' H). by rewrite app_assoc.
Qed.

Lemma elem_of_pending w e : e ∈ pending w <-> exists i l, w.(slots) !! i = Some l /\ e ∈ l.
Proof.
  unfold pending. rewrite list_elem_of_In, in_concat. split.
  - intros (l & [i Hi]%list_elem_of_In%list_elem_of_lookup & He%list_elem_of_In). eauto.
  - intros (i & l & Hi%list_elem_of_lookup_2 & He). exists l. by rewrite <- !list_elem_of_In.
Qed.

Lemma slot_lookup w i : core_ok w -> (i < w.(slot_count))%nat -> w.(slots) !! i = Some (slot w i).
Proof. intros Hc Hi. apply list_lookup_lookup_total_lt. by rewrite (core_slots w Hc). Qed.

Lemma count_pos w : core_ok w -> (0 < w.(slot_count))%nat.
Proof. intros Hc. destruct (core_pow w Hc) as [k ->]. apply Nat.neq_0_lt_0, Nat.pow_nonzero. lia. Qed.

(** Masking is the remainder, because the number of slots is a power of two. *)
Lemma land_mask w i : core_ok w -> Nat.land i w.(slot_mask) = (i mod w.(slot_count))%nat.
Proof.
  intros Hc. rewrite (core_mask w Hc). destruct (core_pow w Hc) as [k ->].
  rewrite <- Nat.land_ones. f_equal. rewrite Nat.ones_equiv. lia.
Qed.

Lemma mod_lt w i : core_ok w -> (i mod w.(slot_count) < w.(slot_count))%nat.
Proof. intros Hc. apply Nat.mod_upper_bound. pose proof (count_pos w Hc). lia. Qed.

(** Only the contents of one slot and the map change. *)
Lemma core_replace w s l l' m' :
  core_ok w -> w.(slots) !! s = Some l -> Forall (entry_ok w s) l' ->
  mapped (<[s := l']> w.(slots)) m' -> core_ok (with_timers w (<[s := l']> w.(slots)) m').
Proof.
  intros [] Hs Hl Hm. constructor; simpl; try done; [by rewrite length_insert|].
  intros i l1 Hi. destruct (decide (s = i)) as [->|Hne].
  - rewrite list_lookup_insert_eq in Hi by eauto using lookup_lt_Some. by simplify_eq.
  - rewrite list_lookup_insert_ne in Hi by done. by apply core_entries0.
Qed.

Lemma core_with_cache w c : core_ok w -> core_ok (with_cache w c).
Proof. by intros []; constructor. Qed.

Lemma slot_nodup w s l : core_ok w -> w.(slots) !! s = Some l -> NoDup (id <$> l).
Proof. intros Hc. apply (mapped_nodup _ w.(timer_map)), (core_map w Hc). Qed.

Lemma slot_index_lt w t : core_ok w -> (calculate_slot_index w t < w.(slot_count))%nat.
Proof. intros Hc. unfold calculate_slot_index. rewrite land_mask by done. by apply mod_lt. Qed.

(** *** [add_timer] *)

Definition new_entry w (delay : Duration) (ev : Event) : TimerEntry :=
  {| id := w.(next_entry_id); expiry_time := w.(current_time) + delay; event := ev |}.

Lemma next_id_unused w : core_ok w -> w.(timer_map) !! w.(next_entry_id) = None.
Proof.
  intros Hc. destruct (timer_map w !! next_entry_id w) as [[s p]|] eqn:E; [|done].
  apply (core_map w Hc) in E as (l & e & Hl & He & Hid).
  apply (core_entries w Hc), Forall_lookup_1 with (i := p) (x := e) in Hl as [_ ?]; [lia|done].
Qed.

Lemma add_core w delay ev :
  core_ok w -> core_ok (add_timer w delay ev).1 /\
  pending (add_timer w delay ev).1 ≡ₚ new_entry w delay ev :: pending w.
Proof.
  intros Hc. unfold add_timer, pending. simpl.
  set (s := calculate_slot_index w (current_time w + delay)).
  set (e := {| id := _; expiry_time := _; event := _ |}).
  assert (Hs : w.(slots) !! s = Some (slot w s)) by (apply slot_lookup, slot_index_lt; done).
  pose proof (next_id_unused w Hc) as Hnew.
  assert (Hn : w.(next_entry_id) ∉ id <$> slot w s).
  { intros (e2 & E2 & [p Hp]%list_elem_of_lookup)%list_elem_of_fmap.
    assert (H : w.(timer_map) !! e2.(id) = Some (s, p)) by (apply (core_map w Hc); eauto 6).
    congruence. }
  split.
  - pose proof Hc as []. constructor; simpl; try done; [by rewrite length_insert| | |lia].
    + intros i l Hi. assert (Hmono : forall j l, w.(slots) !! j = Some l -> Forall (fun e =>
        calculate_slot_index w e.(expiry_time) = j /\ 0 <= e.(id) < w.(next_entry_id) + 1) l).
      { intros j l0 Hj. eapply Forall_impl; [by apply core_entries0|]. intros e0 []. split; [done|lia]. }
      destruct (decide (s = i)) as [<-|Hne].
      * rewrite list_lookup_insert_eq in Hi by eauto using lookup_lt_Some. simplify_eq.
        apply Forall_app_2; [by apply Hmono|]. apply Forall_singleton. split; [done|simpl; lia].
      * rewrite list_lookup_insert_ne in Hi by done. by apply Hmono.
    + apply (mapped_replace _ w.(timer_map) _ s (slot w s)); try done.
      * intros p e0 [[Hp He]|[-> <-]]%lookup_snoc_Some; [|by simpl; rewrite lookup_insert_eq].
        rewrite lookup_insert_ne; [apply core_map0; eauto 6|].
        simpl. intros E. apply Hn. rewrite E. by eapply list_elem_of_fmap_2, list_elem_of_lookup_2.
      * intros x Hx1 Hx2. destruct Hx1. rewrite fmap_app, elem_of_app. by left.
      * intros x. rewrite fmap_app, not_elem_of_app. intros [_ Hx] _.
        apply not_elem_of_cons in Hx as [Hx _]. by rewrite lookup_insert_ne.
      * intros x. rewrite fmap_app, elem_of_app.
        intros [?| ->%list_elem_of_singleton]; auto.
  - rewrite (concat_insert _ _ _ _ Hs), (concat_split _ _ _ Hs). solve_Permutation.
Qed.

(** *** [cancel_timer] *)

Lemma mapped_remove sl m m' s l l' e :
  mapped sl m -> sl !! s = Some l -> l ≡ₚ e :: l' ->
  (forall p e', l' !! p = Some e' -> m' !! e'.(id) = Some (s, p)) ->
  m' !! e.(id) = None ->
  (forall x, x ∉ id <$> l -> m' !! x = m !! x) ->
  mapped (<[s := l']> sl) m'.
Proof.
  intros Hm Hs Hl Hin Hgone Hkeep.
  assert (Hids : forall x, x ∈ id <$> l <-> x = e.(id) \/ x ∈ id <$> l').
  { intros x. rewrite Hl, fmap_cons, elem_of_cons. done. }
  apply (mapped_replace sl m m' s l l'); try done.
  - intros x Hx1 Hx2. apply Hids in Hx2 as [->|?]; done.
  - intros x _ Hx. by apply Hkeep.
  - intros x Hx. left. rewrite Hids. by right.
Qed.

Lemma pop_back_snoc l e : pop_back (l ++ [e]) = l.
Proof. unfold pop_back. rewrite length_app. simpl. by rewrite Nat.add_sub, take_app_length. Qed.

Lemma swap_remove_snoc l e p :
  (p < length l)%nat -> swap_remove (l ++ [e]) p = <[p := e]> l.
Proof.
  intros Hp. unfold swap_remove. rewrite last_snoc, insert_app_l by done. apply pop_back_snoc.
Qed.

Lemma swap_permutation l p e x : l !! p = Some e -> l ++ [x] ≡ₚ e :: <[p := x]> l.
Proof.
  intros Hp. apply lookup_lt_Some in Hp as Hlt. rewrite insert_take_drop by done.
  rewrite <- (take_drop_middle l p e Hp) at 1. solve_Permutation.
Qed.

(** The last entry of a slot differs from the others. *)
Lemma snoc_id_ne sl m s l x0 p e :
  mapped sl m -> sl !! s = Some (l ++ [x0]) -> l !! p = Some e -> e.(id) <> x0.(id).
Proof.
  intros Hm Hs Hp Ei. apply (mapped_nodup _ _ _ _ Hm) in Hs. rewrite fmap_app in Hs.
  apply NoDup_app in Hs as (_ & Hdis & _). apply (Hdis e.(id)).
  - by eapply list_elem_of_fmap_2, list_elem_of_lookup_2.
  - rewrite Ei. by apply list_elem_of_singleton.
Qed.

(** [slot.pop_back()] *)
Lemma mapped_pop sl m s l e :
  mapped sl m -> sl !! s = Some (l ++ [e]) -> mapped (<[s := l]> sl) (delete e.(id) m).
Proof.
  intros Hm Hs. apply (mapped_remove _ _ _ _ _ _ e Hm Hs); [solve_Permutation| | |].
  - intros p e' Hp. rewrite lookup_delete_ne by (symmetry; eauto using snoc_id_ne).
    apply Hm. exists (l ++ [e]), e'. split_and!; try done. by apply lookup_app_l_Some.
  - by rewrite lookup_delete_eq.
  - intros y Hy. rewrite lookup_delete_ne; [done|]. intros <-. apply Hy.
    rewrite fmap_app, elem_of_app. right. by apply list_elem_of_singleton.
Qed.

(** [slot.swap(p, len - 1); slot.pop_back()] *)
Lemma mapped_swap sl m s l p e x0 :
  mapped sl m -> sl !! s = Some (l ++ [x0]) -> l !! p = Some e ->
  mapped (<[s := <[p := x0]> l]> sl) (<[x0.(id) := (s, p)]> (delete e.(id) m)).
Proof.
  intros Hm Hs Hp. pose proof (snoc_id_ne _ _ _ _ _ _ _ Hm Hs Hp) as Hne.
  assert (Hout : forall y, y ∉ id <$> (l ++ [x0]) -> y <> x0.(id) /\ y <> e.(id)).
  { intros y Hy. split; intros ->; apply Hy; rewrite fmap_app, elem_of_app.
    - right. by apply list_elem_of_singleton.
    - left. by eapply list_elem_of_fmap_2, list_elem_of_lookup_2. }
  apply (mapped_remove _ _ _ _ _ _ e Hm Hs); [by apply swap_permutation| | |].
  - intros q e' [(<- & <- & _)|(Hpq & Hq)]%list_lookup_insert_Some; [by rewrite lookup_insert_eq|].
    rewrite lookup_insert_ne by (symmetry; eauto using snoc_id_ne).
    assert (Hold : forall r e0, l !! r = Some e0 -> m !! e0.(id) = Some (s, r)).
    { intros r e0 Hr. apply Hm. exists (l ++ [x0]), e0. split_and!; try done. by apply lookup_app_l_Some. }
    rewrite lookup_delete_ne; [by apply Hold|]. intros Ei.
    apply Hold in Hp. apply Hold in Hq. rewrite Ei in Hp. congruence.
  - by rewrite lookup_insert_ne, lookup_delete_eq.
  - intros y [??]%Hout. by rewrite lookup_insert_ne, lookup_delete_ne.
Qed.

(** The cache after an entry with expiry [t] is cancelled. *)
Definition cancel_cache (cached : option Instant) (t : Instant) : option Instant :=
  match cached with
  | Some c => if t <=? c + from_millis 1 then None else Some c
  | None => None
  end.

(** The entry a successful [cancel_timer] takes out of slot [s], what is left
    of the slot, and the new map. *)
Lemma cancel_cases w x :
  core_ok w ->
  (w.(timer_map) !! x = None /\ cancel_timer w x = (w, false)) \/
  (exists s l l' e m',
     w.(slots) !! s = Some l /\ e.(id) = x /\ l ≡ₚ e :: l' /\
     mapped (<[s := l']> w.(slots)) m' /\ m' !! x = None /\
     cancel_timer w x = (with_cache (with_timers w (<[s := l']> w.(slots)) m')
                           (cancel_cache w.(cached_next_expiry) e.(expiry_time)), true)).
Proof.
  intros Hc. unfold cancel_timer.
  destruct (timer_map w !! x) as [[s p]|] eqn:E; [right|by left].
  pose proof E as (l & e & Hs & Hp & <-)%(core_map w Hc).
  assert (Hsl : slot w s = l) by (unfold slot; by apply list_lookup_total_correct).
  rewrite Hsl, Hp. apply lookup_lt_Some in Hs as Hlt, Hp as Hltp.
  rewrite (proj2 (Nat.ltb_lt _ _) Hlt), (proj2 (Nat.ltb_lt _ _) Hltp). simpl.
  set (c := match cached_next_expiry w with Some _ => _ | None => _ end).
  assert (Hcache : c = cancel_cache w.(cached_next_expiry) e.(expiry_time))
    by (unfold c, cancel_cache; by destruct (cached_next_expiry w)).
  rewrite Hcache. clear c Hcache. destruct l as [|x0 l0 _] using rev_ind; [done|].
  rewrite length_app in *. simpl in *. rewrite Nat.add_sub.
  destruct (Nat.eqb_spec p (length l0)) as [->|Hne].
  - rewrite list_lookup_middle in Hp by done. injection Hp as ->.
    exists s, (l0 ++ [e]), l0, e, (delete e.(id) w.(timer_map)).
    rewrite pop_back_snoc. split_and!; try done; [solve_Permutation| |by rewrite lookup_delete_eq].
    by apply mapped_pop, Hs; apply core_map.
  - rewrite lookup_app_l in Hp by lia.
    rewrite swap_remove_snoc, list_lookup_insert_eq by lia.
    pose proof (snoc_id_ne _ _ _ _ _ _ _ (core_map w Hc) Hs Hp).
    eexists s, (l0 ++ [x0]), (<[p := x0]> l0), e, _.
    split_and!; try done; [by apply swap_permutation|by apply mapped_swap; [apply core_map|..]|].
    by rewrite lookup_insert_ne, lookup_delete_eq.
Qed.

Lemma cancel_core w x :
  core_ok w ->
  let '(w', found) := cancel_timer w x in
  core_ok w' /\ Forall (fun e => e.(id) <> x) (pending w') /\
  (if found then exists e, e.(id) = x /\ pending w ≡ₚ e :: pending w' /\
     w'.(cached_next_expiry) = cancel_cache w.(cached_next_expiry) e.(expiry_time)
   else w' = w).
Proof.
  intros Hc. assert (Hgone : forall w', core_ok w' -> w'.(timer_map) !! x = None ->
    Forall (fun e => e.(id) <> x) (pending w')).
  { intros w' Hc' Hx. apply Forall_forall. intros e (s & l & Hs & [p Hp]%list_elem_of_lookup)%elem_of_pending <-.
    assert (H : w'.(timer_map) !! e.(id) = Some (s, p)) by (apply (core_map w' Hc'); eauto 6). congruence. }
  destruct (cancel_cases w x Hc) as [[Hx ->]|(s & l & l' & e & m' & Hs & Hx & Hl & Hm & Hn & ->)].
  - split_and!; try done. by apply Hgone.
  - assert (Hc' : core_ok (with_timers w (<[s := l']> w.(slots)) m')).
    { apply (core_replace w s l l' m' Hc Hs); [|done]. pose proof (core_entries w Hc s l Hs) as Hf.
      rewrite Hl in Hf. by apply Forall_cons in Hf as [_ ?]. }
    split_and!; [by apply core_with_cache|by apply (Hgone (with_timers _ _ _))|].
    exists e. split_and!; try done. apply (concat_replace _ _ _ _ [e] Hs Hl).
Qed.

(** *** [advance] *)

(** [slot.remove(i)] followed by the update of the positions behind it. *)
Lemma mapped_delete sl m s l1 e l2 :
  mapped sl m -> sl !! s = Some (l1 ++ e :: l2) ->
  mapped (<[s := l1 ++ l2]> sl) (remap_from s (length l1) l2 (delete e.(id) m)).
Proof.
  intros Hm Hs. pose proof (mapped_nodup _ _ _ _ Hm Hs) as Hnd.
  rewrite fmap_app, fmap_cons, NoDup_app, NoDup_cons in Hnd. destruct Hnd as (Hnd1 & Hdis & He & Hnd2).
  apply (mapped_remove _ _ _ _ _ _ e Hm Hs); [solve_Permutation| | |].
  - intros p e' [Hp|[Hge Hp]]%lookup_app_Some.
    + assert (Hin : e'.(id) ∈ id <$> l1) by (by eapply list_elem_of_fmap_2, list_elem_of_lookup_2).
      apply Hdis, not_elem_of_cons in Hin as [Hne Hn].
      rewrite remap_from_notin, lookup_delete_ne by done.
      apply Hm. exists (l1 ++ e :: l2), e'. split_and!; try done. by apply lookup_app_l_Some.
    + rewrite (remap_from_in _ _ _ _ _ _ Hnd2 Hp). do 2 f_equal. lia.
  - by rewrite remap_from_notin, lookup_delete_eq.
  - intros y. rewrite fmap_app, fmap_cons, not_elem_of_app, not_elem_of_cons.
    intros (_ & Hne & Hn). by rewrite remap_from_notin, lookup_delete_ne by done.
Qed.

(** The first phase of [advance] on one slot: the map stays exact, the
    expired entries leave in order, the others stay. *)
Lemma check_loop_spec now s : forall fuel l2 l1 sl m ex,
  mapped sl m -> sl !! s = Some (l1 ++ l2) -> (length l2 <= fuel)%nat ->
  exists m', check_loop fuel now s (length l1) (l1 ++ l2, m, ex) =
    (l1 ++ filter (fun e => ~ due now e) l2, m', ex ++ filter (due now) l2) /\
    mapped (<[s := l1 ++ filter (fun e => ~ due now e) l2]> sl) m'.
Proof.
  induction fuel as [|fuel IH]; intros l2 l1 sl m ex Hm Hs Hlen; simpl.
  - destruct l2; [|simpl in Hlen; lia]. rewrite !filter_nil, !app_nil_r. exists m.
    rewrite app_nil_r in Hs. by rewrite list_insert_id.
  - destruct l2 as [|e l2].
    { rewrite !filter_nil, !app_nil_r in *. exists m. rewrite list_insert_id by done.
      by rewrite (proj2 (lookup_ge_None l1 (length l1))). }
    rewrite list_lookup_middle by done. simpl in Hlen.
    destruct (Z.leb_spec e.(expiry_time) now) as [Hd|Hd].
    + rewrite delete_middle, drop_app_length.
      rewrite (filter_cons_True (due now)) by done. rewrite filter_cons_False by (intros []; done).
      destruct (IH l2 l1 (<[s := l1 ++ l2]> sl) (remap_from s (length l1) l2 (delete e.(id) m)) (ex ++ [e]))
        as (m' & E & Hm').
      * by apply mapped_delete.
      * by rewrite list_lookup_insert_eq by eauto using lookup_lt_Some.
      * lia.
      * exists m'. rewrite E, <- app_assoc. split; [done|]. by rewrite list_insert_insert_eq in Hm'.
    + assert (Hnd : ~ due now e) by (unfold due; lia).
      rewrite (filter_cons_False (due now)), filter_cons_True by done.
      destruct (IH l2 (l1 ++ [e]) sl m ex) as (m' & E & Hm').
      * done.
      * by rewrite <- app_assoc.
      * lia.
      * rewrite length_app, <- !app_assoc in E. rewrite <- app_assoc in Hm'. simpl in *.
        rewrite Nat.add_1_r in E. by exists m'.
Qed.

(** The map after the second phase has gone over the entries [l] of slot [s]. *)
Fixpoint kept_map (now : Instant) (s pos : nat) l m : gmap Z (nat * nat) :=
  match l with
  | [] => m
  | e :: l =>
      if e.(expiry_time) <=? now then kept_map now s pos l (delete e.(id) m)
      else kept_map now s (S pos) l (<[e.(id) := (s, pos)]> (delete e.(id) m))
  end.

Lemma kept_map_notin now s l : forall pos m x, x ∉ id <$> l -> kept_map now s pos l m !! x = m !! x.
Proof.
  induction l as [|e l IH]; intros pos m x; [done|].
  rewrite fmap_cons, not_elem_of_cons. intros [Hne Hx]. simpl.
  case_match; rewrite IH by done; rewrite ?lookup_insert_ne by done; by rewrite lookup_delete_ne.
Qed.

Lemma kept_map_in now s l : forall pos m p e,
  NoDup (id <$> l) -> filter (fun e => ~ due now e) l !! p = Some e ->
  kept_map now s pos l m !! e.(id) = Some (s, pos + p)%nat.
Proof.
  induction l as [|e0 l IH]; intros pos m p e; [done|].
  rewrite fmap_cons, NoDup_cons. intros [Hn Hnd]. simpl kept_map.
  destruct (Z.leb_spec e0.(expiry_time) now) as [Hd|Hd].
  - rewrite filter_cons_False by (intros []; done). by apply IH.
  - rewrite filter_cons_True by (unfold due; lia). destruct p as [|p]; intros Hp; simplify_eq/=.
    + rewrite kept_map_notin, lookup_insert_eq by done. do 2 f_equal; lia.
    + rewrite (IH _ _ p) by done. do 2 f_equal; lia.
Qed.

Lemma kept_map_gone now s l : forall pos m x,
  NoDup (id <$> l) -> x ∈ id <$> l -> x ∉ id <$> filter (fun e => ~ due now e) l ->
  kept_map now s pos l m !! x = None.
Proof.
  induction l as [|e0 l IH]; intros pos m x; [intros _ Hx; by apply elem_of_nil in Hx|].
  rewrite fmap_cons, NoDup_cons, elem_of_cons. intros [Hn Hnd] Hx. simpl kept_map.
  destruct (Z.leb_spec e0.(expiry_time) now) as [Hd|Hd].
  - rewrite filter_cons_False by (intros []; done). intros Hx'.
    destruct (decide (x ∈ id <$> l)) as [?|Hl]; [by apply IH|].
    rewrite kept_map_notin by done. destruct Hx as [->|?]; [apply lookup_delete_eq|done].
  - rewrite filter_cons_True by (unfold due; lia). rewrite fmap_cons, not_elem_of_cons.
    intros [Hne Hx']. destruct Hx as [?|Hx]; [done|]. by apply IH.
Qed.

(** The second phase on one slot. *)
Lemma advance_entries_spec now s : forall l w ex acc,
  w.(slots) !! s = Some acc -> Forall (entry_ok w s) l ->
  fold_left (advance_entry now) l (w, ex) =
    (with_timers w (<[s := acc ++ filter (fun e => ~ due now e) l]> w.(slots))
       (kept_map now s (length acc) l w.(timer_map)), ex ++ filter (due now) l).
Proof.
  induction l as [|e l IH]; intros w ex acc Hs Hf.
  - simpl. rewrite !filter_nil, !app_nil_r, list_insert_id by done. by destruct w.
  - apply Forall_cons in Hf as [[He _] Hf]. cbn [fold_left kept_map]. unfold advance_entry at 2.
    destruct (Z.leb_spec e.(expiry_time) now) as [Hd|Hd].
    + rewrite (IH (with_timers w (slots w) (delete e.(id) (timer_map w))) _ acc) by done.
      rewrite (filter_cons_True (due now)), filter_cons_False, <- app_assoc; [done|by intros []|done].
    + assert (Hnd : ~ due now e) by (unfold due; lia).
      rewrite He. assert (slot w s = acc) as -> by (unfold slot; by apply list_lookup_total_correct).
      erewrite IH; [|simpl; by rewrite list_lookup_insert_eq by eauto using lookup_lt_Some|done].
      rewrite (filter_cons_False (due now)), filter_cons_True by done.
      unfold with_timers. simpl. rewrite list_insert_insert_eq, length_app, <- app_assoc, Nat.add_1_r.
      done.
Qed.

Lemma advance_slot_spec now w ex :
  core_ok w ->
  let c := ((w.(current_slot) + 1) mod w.(slot_count))%nat in
  exists w', advance_slot now (w, ex) = (w', ex ++ filter (due now) (slot w c)) /\ core_ok w' /\
    w'.(slots) = <[c := filter (fun e => ~ due now e) (slot w c)]> w.(slots) /\
    w'.(current_slot) = c /\ w'.(current_time) = w.(current_time) + w.(slot_duration) /\
    w'.(slot_count) = w.(slot_count) /\ w'.(slot_duration) = w.(slot_duration) /\
    w'.(start_time) = w.(start_time) /\ w'.(next_entry_id) = w.(next_entry_id) /\
    w'.(cached_next_expiry) = w.(cached_next_expiry).
Proof.
  intros Hc c. unfold advance_slot. rewrite land_mask by done. fold c.
  pose proof (slot_lookup w c Hc (mod_lt w _ Hc)) as Hs. set (l := slot w c) in *.
  erewrite (advance_entries_spec now c _ _ _ []);
    [|simpl; by rewrite list_lookup_insert_eq by eauto using lookup_lt_Some|by apply (core_entries w Hc)].
  unfold with_timers. simpl. rewrite list_insert_insert_eq. eexists. split; [reflexivity|]. simpl.
  split; [|by split_and!].
  pose proof (slot_nodup w c l Hc Hs) as Hnd. pose proof Hc as [].
  assert (Hsub : forall x, x ∈ id <$> filter (fun e => ~ due now e) l -> x ∈ id <$> l).
  { intros x (e & -> & He)%list_elem_of_fmap. apply list_elem_of_filter in He as [_ He].
    by apply list_elem_of_fmap_2. }
  constructor; simpl; try done; [by rewrite length_insert| | |].
  - destruct core_time0 as (n & Ht & Hn). exists (S n). split; [lia|].
    unfold c. rewrite Hn. rewrite Nat.Div0.add_mod_idemp_l. f_equal; lia.
  - intros i l1 Hi. destruct (decide (c = i)) as [<-|Hne].
    + rewrite list_lookup_insert_eq in Hi by eauto using lookup_lt_Some. simplify_eq.
      apply Forall_forall. intros e [_ He]%list_elem_of_filter.
      pose proof (core_entries0 _ _ Hs) as Hf. rewrite Forall_forall in Hf. by apply Hf.
    + rewrite list_lookup_insert_ne in Hi by done. by apply core_entries0.
  - apply (mapped_replace _ w.(timer_map) _ c l); try done.
    + intros p e Hp. by apply (kept_map_in now c l 0 _ p e).
    + intros x ? ?. by apply kept_map_gone.
    + intros x _ ?. by apply kept_map_notin.
    + intros x Hx. left. by apply Hsub.
Qed.

(** What no operation but [add_timer] changes. *)
Definition same_params w w' : Prop :=
  w'.(slot_count) = w.(slot_count) /\ w'.(slot_duration) = w.(slot_duration) /\
  w'.(start_time) = w.(start_time) /\ w'.(next_entry_id) = w.(next_entry_id).

Lemma check_current_core now w :
  core_ok w ->
  exists w', check_current_slot_for_expired_timers w now [] = (w', filter (due now) (slot w w.(current_slot))) /\
    core_ok w' /\ same_params w w' /\ w'.(current_slot) = w.(current_slot) /\
    w'.(current_time) = w.(current_time) /\ w'.(cached_next_expiry) = w.(cached_next_expiry) /\
    w'.(slots) = <[w.(current_slot) := filter (fun e => ~ due now e) (slot w w.(current_slot))]> w.(slots).
Proof.
  intros Hc. unfold check_current_slot_for_expired_timers. set (c := w.(current_slot)).
  assert (Hs : w.(slots) !! c = Some (slot w c)).
  { apply slot_lookup; [done|]. unfold c. destruct (core_time w Hc) as (n & _ & ->). by apply mod_lt. }
  destruct (check_loop_spec now c (length (slot w c)) (slot w c) [] w.(slots) w.(timer_map) [])
    as (m' & E & Hm); [by apply core_map|done|lia|].
  simpl in E. rewrite E. eexists. split; [reflexivity|].
  split; [|by split_and!]. apply (core_replace w c (slot w c)); try done.
  apply Forall_forall. intros e [_ He]%list_elem_of_filter.
  pose proof (core_entries w Hc _ _ Hs) as Hf. rewrite Forall_forall in Hf. by apply Hf.
Qed.

(** Emptying one slot of its expired entries. *)
Lemma sweep_slot now w w' s :
  w.(slots) !! s = Some (slot w s) ->
  w'.(slots) = <[s := filter (fun e => ~ due now e) (slot w s)]> w.(slots) ->
  pending w ≡ₚ filter (due now) (slot w s) ++ pending w' /\
  Forall (fun e => ~ due now e) (slot w' s) /\
  (forall i, Forall (fun e => ~ due now e) (slot w i) -> Forall (fun e => ~ due now e) (slot w' i)).
Proof.
  intros Hs E. assert (Hnd : Forall (fun e => ~ due now e) (filter (fun e => ~ due now e) (slot w s))).
  { apply Forall_forall. by intros e [? _]%list_elem_of_filter. }
  pose proof (lookup_lt_Some _ _ _ Hs) as Hlt. unfold pending, slot in *. rewrite E. split_and!.
  - apply concat_replace with (l := slots w !!! s); [done|]. by rewrite filter_app_complement.
  - by rewrite list_lookup_total_insert_eq.
  - intros i Hi. rewrite list_lookup_total_insert. by case_decide.
Qed.

(** The loop of [advance]: after [k] iterations the [k] slots behind the old
    pointer hold no expired timer, and nothing is lost. *)
Lemma advance_loop now w1 ex1 n k :
  core_ok w1 -> w1.(current_slot) = (n mod w1.(slot_count))%nat ->
  let '(w, ex) := Nat.iter k (advance_slot now) (w1, ex1) in
  core_ok w /\ same_params w1 w /\ w.(cached_next_expiry) = w1.(cached_next_expiry) /\
  w.(current_time) = w1.(current_time) + w1.(slot_duration) * Z.of_nat k /\
  w.(current_slot) = ((n + k) mod w1.(slot_count))%nat /\
  ex ++ pending w ≡ₚ ex1 ++ pending w1 /\
  (Forall (due now) ex1 -> Forall (due now) ex) /\
  (forall i, Forall (fun e => ~ due now e) (slot w1 i) -> Forall (fun e => ~ due now e) (slot w i)) /\
  (forall j, (1 <= j <= k)%nat -> Forall (fun e => ~ due now e) (slot w ((n + j) mod w1.(slot_count)))).
Proof.
  intros Hc Hn. induction k as [|k IH]; simpl.
  - rewrite Nat.add_0_r. split_and!; try done; [lia|intros j ?; lia].
  - destruct (Nat.iter k _ _) as [w ex].
    destruct IH as (Hcw & (P1 & P2 & P3 & P4) & Hcache & Ht & Hs & Hperm & Hex & Hkeep & Hnd).
    destruct (advance_slot_spec now w ex Hcw) as (w' & -> & Hc' & Hsl & Hcs & Hct & Q1 & Q2 & Q3 & Q4 & Q5).
    rewrite Hs, P1, Nat.Div0.add_mod_idemp_l in Hcs, Hsl. rewrite Hs, P1, Nat.Div0.add_mod_idemp_l.
    assert (En : (n + k + 1 = n + S k)%nat) by lia. rewrite En in *.
    assert (Hlk : w.(slots) !! ((n + S k) mod w1.(slot_count))%nat =
      Some (slot w ((n + S k) mod w1.(slot_count))))
      by (apply slot_lookup; [done|]; rewrite <- P1; by apply mod_lt).
    destruct (sweep_slot now w w' _ Hlk Hsl) as (Hp & Hz & Hk).
    split_and!; try done; try (unfold same_params; split_and!); try congruence.
    + rewrite Hct, Ht, P2. lia.
    + rewrite <- Hperm, Hp, <- app_assoc. done.
    + intros Hf%Hex. apply Forall_app_2; [done|]. apply Forall_forall. by intros e [? _]%list_elem_of_filter.
    + intros i Hi. by apply Hk, Hkeep.
    + intros j Hj. destruct (decide (j = S k)) as [->|?]; [done|]. apply Hk, Hnd. lia.
Qed.

(** The tick at which an instant falls; a timer is in the slot of its tick. *)
Definition tick w (t : Instant) : nat := Z.to_nat (duration_since t w.(start_time) / w.(slot_duration)).

Lemma slot_of_tick w t : core_ok w -> calculate_slot_index w t = (tick w t mod w.(slot_count))%nat.
Proof. intros Hc. unfold calculate_slot_index. by rewrite land_mask. Qed.

(** Ticks from the wheel's time on, counted from its current tick. *)
Lemma tick_bounds w n t :
  core_ok w -> w.(current_time) = w.(start_time) + w.(slot_duration) * Z.of_nat n ->
  w.(current_time) <= t ->
  Z.of_nat (tick w t) = Z.of_nat n + (t - w.(current_time)) / w.(slot_duration).
Proof.
  intros Hc Hn Ht. pose proof (core_duration w Hc) as Hd.
  assert (E : duration_since t w.(start_time) =
    Z.of_nat n * w.(slot_duration) + (t - w.(current_time))) by (unfold duration_since, saturating_sub; lia).
  unfold tick. rewrite E, Z.div_add_l by lia.
  assert (0 <= (t - current_time w) / slot_duration w) by (apply Z.div_pos; lia). lia.
Qed.

(** The slots visited by an advance of [k] ticks, capped at one revolution,
    are those of all the ticks up to [k]. *)
Lemma capped_tick n k t count :
  (0 < count)%nat -> (n < t <= n + k)%nat ->
  exists j, (1 <= j <= Nat.min count k)%nat /\ ((n + j) mod count = t mod count)%nat.
Proof.
  intros Hc Ht. exists (S ((t - n - 1) mod count)).
  pose proof (Nat.mod_upper_bound (t - n - 1) count). pose proof (Nat.Div0.mod_le (t - n - 1) count).
  split; [lia|]. replace (n + S ((t - n - 1) mod count))%nat with (n + 1 + (t - n - 1) mod count)%nat by lia.
  rewrite Nat.Div0.add_mod_idemp_r. f_equal. lia.
Qed.

Definition ticks_to_advance w (now : Instant) : nat :=
  Z.to_nat (duration_since now w.(current_time) / w.(slot_duration)).

(** Once the current slot and the slots of the elapsed ticks hold no expired
    timer, no slot does. *)
Lemma nothing_due_left now w w2 n :
  core_ok w -> core_ok w2 -> same_params w w2 ->
  w.(current_time) = w.(start_time) + w.(slot_duration) * Z.of_nat n ->
  Forall (fun e => w.(current_time) <= e.(expiry_time)) (pending w2) ->
  (forall j, (j <= Nat.min w.(slot_count) (ticks_to_advance w now))%nat ->
     Forall (fun e => ~ due now e) (slot w2 ((n + j) mod w.(slot_count)))) ->
  Forall (fun e => ~ due now e) (pending w2).
Proof.
  intros Hc Hc2 (Q1 & Q2 & Q3 & _) Hn Hlate Hnd. apply Forall_forall. intros e He Hd.
  rewrite Forall_forall in Hlate. specialize (Hlate e He).
  apply elem_of_pending in He as (s & l & Hs & He).
  assert (Hl : slot w2 s = l) by (unfold slot; by apply list_lookup_total_correct). subst l.
  pose proof (core_entries w2 Hc2 s _ Hs) as Hf. rewrite Forall_forall in Hf.
  destruct (Hf e He) as [Hidx _]. rewrite slot_of_tick in Hidx by done.
  assert (Etick : tick w2 e.(expiry_time) = tick w e.(expiry_time)) by (unfold tick; congruence).
  rewrite Etick, Q1 in Hidx.
  pose proof (tick_bounds w n _ Hc Hn Hlate) as Htick. pose proof (core_duration w Hc) as Hd0.
  assert (Hk : (n <= tick w e.(expiry_time) <= n + ticks_to_advance w now)%nat).
  { unfold due in Hd. assert (0 <= (expiry_time e - current_time w) / slot_duration w) by (apply Z.div_pos; lia).
    assert ((expiry_time e - current_time w) / slot_duration w <= (now - current_time w) / slot_duration w)
      by (apply Z.div_le_mono; lia).
    unfold ticks_to_advance, duration_since, saturating_sub. rewrite Z.max_r by lia. lia. }
  assert (Hz : exists j, (j <= Nat.min w.(slot_count) (ticks_to_advance w now))%nat /\
    ((n + j) mod w.(slot_count) = s)%nat).
  { destruct (decide (tick w e.(expiry_time) = n)) as [En|].
    - exists 0%nat. split; [lia|]. by rewrite Nat.add_0_r, <- En.
    - destruct (capped_tick n (ticks_to_advance w now) (tick w e.(expiry_time)) w.(slot_count))
        as (j & Hj & Ej); [by apply count_pos|lia|]. exists j. split; [lia|congruence]. }
  destruct Hz as (j & Hj & <-). specialize (Hnd j Hj). rewrite Forall_forall in Hnd. by apply (Hnd e).
Qed.

(** The wheel's time never overtakes the clock. *)
Lemma advance_time_le w now :
  core_ok w ->
  w.(slot_duration) * Z.of_nat (Nat.min w.(slot_count) (ticks_to_advance w now)) <= Z.max 0 (now - w.(current_time)).
Proof.
  intros Hc. pose proof (core_duration w Hc). unfold ticks_to_advance, duration_since, saturating_sub.
  set (d := Z.max 0 (now - current_time w)).
  assert (0 <= d / slot_duration w) by (apply Z.div_pos; lia).
  pose proof (Z.mul_div_le d (slot_duration w)). nia.
Qed.

(** [advance] on the entries, on the wheel's time and on the cache. *)
Lemma advance_core now w :
  wf w ->
  let '(w', ex) := advance w now in
  wf w' /\ same_params w w' /\
  w'.(current_time) = w.(current_time) + w.(slot_duration) * Z.of_nat (Nat.min w.(slot_count) (ticks_to_advance w now)) /\
  ex ≡ₚ filter (due now) (pending w) /\ pending w' ≡ₚ filter (fun e => ~ due now e) (pending w) /\
  w'.(cached_next_expiry) = (if (ticks_to_advance w now =? 0)%nat then w.(cached_next_expiry) else
    match ex with [] => w.(cached_next_expiry) | _ => None end).
Proof.
  intros [Hc Hexp]. unfold advance.
  destruct (check_current_core now w Hc) as (w1 & -> & Hc1 & (P1 & P2 & P3 & P4) & Hs1 & Ht1 & Hca1 & Hsl1).
  rewrite Ht1, P1, P2. fold (ticks_to_advance w now). set (k := ticks_to_advance w now).
  destruct (core_time w Hc) as (n & Hn & Hsn).
  assert (Hlk : w.(slots) !! w.(current_slot) = Some (slot w w.(current_slot))).
  { apply slot_lookup; [done|]. rewrite Hsn. by apply mod_lt. }
  destruct (sweep_slot now w w1 _ Hlk Hsl1) as (Hp1 & Hz1 & _).
  set (ex1 := filter (due now) (slot w (current_slot w))) in *.
  pose proof (advance_loop now w1 ex1 n (Nat.min w.(slot_count) k) Hc1) as Hloop.
  rewrite P1 in Hloop. specialize (Hloop ltac:(congruence)).
  destruct (Nat.iter _ _ _) as [w2 ex2] eqn:E.
  destruct Hloop as (Hc2 & (Q1 & Q2 & Q3 & Q4) & Hca2 & Ht2 & _ & Hperm & Hex & Hkeep & Hnd).
  assert (Hdue : Forall (due now) ex2) by (apply Hex, Forall_forall; by intros e [? _]%list_elem_of_filter).
  rewrite <- Hp1 in Hperm.
  assert (Hlate : Forall (fun e => w.(current_time) <= e.(expiry_time)) (pending w2)).
  { rewrite <- Hperm in Hexp. by apply Forall_app in Hexp as [_ ?]. }
  assert (Hsame : same_params w w2) by (split_and!; congruence).
  assert (Hrest : Forall (fun e => ~ due now e) (pending w2)).
  { apply (nothing_due_left now w w2 n); try done. intros [|j] Hj; [|apply Hnd; fold k in Hj; lia].
    apply Hkeep. by rewrite Nat.add_0_r, <- Hsn. }
  destruct (filter_partition (due now) ex2 (pending w2) (pending w) Hdue Hrest Hperm) as [Hx Hy].
  assert (Hwf : wf w2).
  { split; [done|]. apply Forall_forall. intros e He. pose proof (advance_time_le w now Hc) as Hle.
    rewrite Forall_forall in Hrest, Hlate. specialize (Hrest e He). specialize (Hlate e He).
    unfold due in Hrest. rewrite Ht2, Ht1, P2. fold k in Hle. lia. }
  rewrite Ht1, P2 in Ht2. rewrite Hca1 in Hca2.
  destruct (Nat.eqb_spec k 0) as [Ek|Ek].
  - rewrite Ek, Nat.min_0_r in E. simpl in E. simplify_eq. by split_and!.
  - destruct ex2 as [|e0 ex2]; [by split_and!|].
    split_and!; try done. destruct Hwf. split; [by apply core_with_cache|done].
Qed.

(** *** [next_expiry_time] *)

(** [t] is the earliest expiry of the entries with [P]. *)
Definition earliest_of (P : TimerEntry -> Prop) (t : Instant) : Prop :=
  (exists e, P e /\ e.(expiry_time) = t) /\ forall e, P e -> t <= e.(expiry_time).

Definition is_earliest (P : TimerEntry -> Prop) (o : option Instant) : Prop :=
  match o with None => forall e, ~ P e | Some t => earliest_of P t end.

Lemma is_earliest_ext P Q o : (forall e, P e <-> Q e) -> is_earliest P o -> is_earliest Q o.
Proof.
  intros H. destruct o as [t|]; simpl; [|intros H1 e ?%H; by apply (H1 e)].
  intros [(e & He & <-) Hle]. split; [exists e; split; [by apply H|done]|]. intros e1 ?%H; by apply Hle.
Qed.

(** The code's comparison merges two earliest times. *)
Lemma is_earliest_min P Q o t :
  is_earliest P o -> earliest_of Q t -> is_earliest (fun e => P e \/ Q e) (cache_min o t).
Proof.
  intros HP [(e & He & <-) Hle]. destruct o as [t0|]; simpl.
  - destruct HP as [(e0 & He0 & <-) Hle0]. destruct (Z.ltb_spec e.(expiry_time) e0.(expiry_time)); split; eauto.
    + intros e1 [H1|H1]; [apply Hle0 in H1; lia|by apply Hle].
    + intros e1 [H1|H1]; [by apply Hle0|apply Hle in H1; lia].
  - split; [eauto|]. intros e1 [H1|H1]; [by apply HP in H1|by apply Hle].
Qed.

Lemma slot_earliest_spec l : is_earliest (fun e => e ∈ l) (slot_earliest l).
Proof.
  unfold slot_earliest.
  assert (H : forall l o P, is_earliest P o -> is_earliest (fun e => P e \/ e ∈ l)
    (fold_left (fun o e => cache_min o e.(expiry_time)) l o)).
  { clear l. induction l as [|e l IH]; intros o P HP; simpl.
    - eapply is_earliest_ext; [|exact HP]. intros e. rewrite elem_of_nil. tauto.
    - apply (is_earliest_min P (fun e' => e' = e) o e.(expiry_time)) in HP.
      + eapply is_earliest_ext; [|apply IH, HP]. intros e1. simpl. rewrite elem_of_cons. tauto.
      + split; [eauto|]. intros e1 ->. done. }
  eapply is_earliest_ext; [|apply (H l None (fun _ => False)); intros e []]. simpl. tauto.
Qed.

Lemma mod_inj_le (n j m c : nat) :
  (j < c)%nat -> ((n + m) mod c = (n + j) mod c)%nat -> (j <= m)%nat.
Proof.
  intros Hj E. destruct (decide (j <= m)%nat) as [|Hlt]; [done|exfalso].
  pose proof (Nat.Div0.div_mod (n + m) c) as H1. pose proof (Nat.Div0.div_mod (n + j) c) as H2.
  rewrite E in H1. assert (c * ((n + j) / c) > c * ((n + m) / c))%nat by lia.
  assert ((n + j) / c >= S ((n + m) / c))%nat by nia. nia.
Qed.

(** Slots ahead of the pointer hold later timers. *)
Lemma slot_lower w j e :
  wf w -> (j < w.(slot_count))%nat ->
  e ∈ slot w ((w.(current_slot) + j) mod w.(slot_count)) ->
  w.(current_time) + w.(slot_duration) * Z.of_nat j <= e.(expiry_time).
Proof.
  intros [Hc Hexp] Hj He.
  pose proof (slot_lookup w _ Hc (mod_lt w (w.(current_slot) + j) Hc)) as Hs.
  rewrite Forall_forall in Hexp. assert (Hp : e ∈ pending w) by (apply elem_of_pending; eauto).
  apply Hexp in Hp. pose proof (core_entries w Hc _ _ Hs) as Hf. rewrite Forall_forall in Hf.
  destruct (Hf e He) as [Hidx _]. rewrite slot_of_tick in Hidx by done.
  destruct (core_time w Hc) as (n & Hn & Hsn). pose proof (tick_bounds w n _ Hc Hn Hp) as Ht.
  pose proof (core_duration w Hc) as Hd. set (m := (expiry_time e - current_time w) / slot_duration w) in *.
  assert (Hm : 0 <= m) by (apply Z.div_pos; lia).
  assert (Hmd : slot_duration w * m <= expiry_time e - current_time w) by (apply Z.mul_div_le; lia).
  rewrite Hsn, Nat.Div0.add_mod_idemp_l in Hidx.
  assert (Hjm : Z.of_nat j <= m); [|nia].
  replace (tick w (expiry_time e)) with (n + Z.to_nat m)%nat in Hidx by lia.
  pose proof (mod_inj_le n j (Z.to_nat m) (slot_count w) Hj). lia.
Qed.

Definition seen w (o : nat) e : Prop :=
  exists j, (j < o)%nat /\ e ∈ slot w ((w.(current_slot) + j) mod w.(slot_count)).

Lemma seen_S w o e :
  seen w (S o) e <-> seen w o e \/ e ∈ slot w ((w.(current_slot) + o) mod w.(slot_count)).
Proof.
  split.
  - intros (j & Hj & He). destruct (decide (j = o)) as [->|]; [by right|]. left. exists j. split; [lia|done].
  - intros [(j & Hj & He)|He]; [exists j|exists o]; split; try done; lia.
Qed.

Lemma seen_pending w e : core_ok w -> seen w w.(slot_count) e <-> e ∈ pending w.
Proof.
  intros Hc. rewrite elem_of_pending. split.
  - intros (j & _ & He). eexists _, _. split; [|exact He]. apply slot_lookup; [done|by apply mod_lt].
  - intros (i & l & Hi & He). pose proof (lookup_lt_Some _ _ _ Hi) as Hlt. rewrite (core_slots w Hc) in Hlt.
    assert (Hl : slot w i = l) by (unfold slot; by apply list_lookup_total_correct). subst l.
    assert (Hcs : (w.(current_slot) < w.(slot_count))%nat)
      by (destruct (core_time w Hc) as (n & _ & ->); by apply mod_lt).
    exists ((i + (w.(slot_count) - w.(current_slot))) mod w.(slot_count))%nat.
    split; [by apply mod_lt|]. rewrite Nat.Div0.add_mod_idemp_r.
    replace (current_slot w + (i + (slot_count w - current_slot w)))%nat with (i + 1 * slot_count w)%nat by lia.
    by rewrite Nat.Div0.mod_add, Nat.mod_small.
Qed.

Lemma search_loop_spec w : forall k o acc,
  wf w -> (k + o = w.(slot_count))%nat -> is_earliest (seen w o) acc ->
  is_earliest (seen w w.(slot_count)) (search_loop k w o acc).
Proof.
  induction k as [|k IH]; intros o acc Hwf Hk Hacc; simpl; [by rewrite <- Hk|].
  pose proof Hwf as [Hc _]. rewrite land_mask by done. set (l := slot w _).
  pose proof (slot_earliest_spec l) as Hl.
  assert (Hempty : l = [] -> is_earliest (seen w (S o)) acc).
  { intros El. eapply is_earliest_ext; [|exact Hacc].
    intros e. rewrite seen_S. fold l. rewrite El, elem_of_nil. tauto. }
  destruct l as [|e0 l0] eqn:El; [by apply IH; [| lia|apply Hempty]|]. rewrite <- El in *.
  set (acc' := match acc with None => _ | Some _ => _ end).
  assert (Hacc' : is_earliest (seen w (S o)) acc').
  { eapply is_earliest_ext; [intros e; symmetry; apply seen_S|]. fold l.
    unfold acc'. destruct (slot_earliest l) as [t|] eqn:Et.
    - pose proof (is_earliest_min _ _ acc t Hacc Hl) as Hmin. by destruct acc.
    - exfalso. apply (Hl e0). rewrite El. by left. }
  clearbody acc'. destruct acc' as [t|]; [|by apply IH; [|lia|]].
  destruct (Z.leb_spec t (w.(current_time) + w.(slot_duration) * as_u32 (Z.of_nat o) + w.(slot_duration)))
    as [Ht|_]; [|by apply IH; [|lia|]].
  pose proof (core_u32 w Hc) as Hu. rewrite as_u32_id in Ht by (unfold u32_ok; lia).
  pose proof (core_duration w Hc) as Hd.
  destruct Hacc' as [(e & (j & Hj & He) & <-) Hle]. split; [exists e; split; [exists j; split; [lia|done]|done]|].
  intros e1 (j1 & Hj1 & He1). destruct (decide (j1 < S o)%nat) as [Hlt|Hge]; [apply Hle; by exists j1|].
  pose proof (slot_lower w j1 e1 Hwf Hj1 He1). nia.
Qed.

(** The cache, when filled, is the earliest expiry. *)
Definition cache_ok w : Prop :=
  match w.(cached_next_expiry) with
  | None => True
  | Some c => earliest_of (fun e => e ∈ pending w) c
  end.

Lemma map_empty_iff w : core_ok w -> w.(timer_map) = ∅ <-> pending w = [].
Proof.
  intros Hc. split; intros H.
  - destruct (pending w) as [|e l] eqn:E; [done|]. exfalso.
    assert (He : e ∈ pending w) by (rewrite E; by left).
    apply elem_of_pending in He as (s & l1 & Hs & [p Hp]%list_elem_of_lookup).
    assert (Hx : w.(timer_map) !! e.(id) = Some (s, p)) by (apply (core_map w Hc); eauto 6).
    by rewrite H in Hx.
  - apply map_eq. intros x. rewrite lookup_empty. destruct (timer_map w !! x) as [[s p]|] eqn:E; [|done].
    apply (core_map w Hc) in E as (l & e & Hs & Hp%list_elem_of_lookup_2 & _).
    assert (He : e ∈ pending w) by (apply elem_of_pending; eauto). rewrite H in He. by apply elem_of_nil in He.
Qed.

Lemma new_wheel_wf n d now w :
  new n d now = Done w -> Z.of_nat n <= 2 ^ 32 -> 0 < d ->
  wf w /\ pending w = [] /\ w.(cached_next_expiry) = None.
Proof.
  unfold new, is_power_of_two. destruct (Nat.eqb_spec n (2 ^ Nat.log2 n)) as [E|]; [|done].
  intros [= <-] Hn Hd. assert (Hp : pending {| slot_count := n; slot_mask := n - 1; slot_duration := d;
    current_slot := 0; start_time := now; current_time := now; slots := replicate n []; timer_map := ∅;
    next_entry_id := 1; cached_next_expiry := None |} = []).
  { unfold pending. simpl. clear. by induction n. }
  split; [split; [|by rewrite Hp]|by split]. constructor; simpl; try done; try lia.
  - by exists (Nat.log2 n).
  - apply length_replicate.
  - exists 0%nat. split; [lia|]. by rewrite Nat.Div0.mod_0_l.
  - intros i l [-> _]%lookup_replicate. done.
  - intros x s p. rewrite lookup_empty. split; [done|].
    intros (l & e & [-> _]%lookup_replicate & He & _). done.
Qed.

(** ** Abstract specification

    A set of pending timers, a clock that only moves in whole slots, and a
    source of fresh ids.  The order of the set does not matter. *)

Record Timers := {
  base : Instant;
  fresh : Z;
  timers : list TimerEntry;
}.

Inductive op :=
| Add (delay : Duration) (ev : Event)
| Cancel (entry_id : Z)
| Advance (now : Instant)
| NextExpiry
| Clear.

Inductive result :=
| Added (entry_id : Z)
| Cancelled (found : bool)
| Expired (entries : list TimerEntry)
| LookedUp
| Cleared.

(** The answer of [next_expiry_time] is left out here (it is the subject of
    the theorems on the cache); only what it does to the wheel counts. *)
Definition run_op w (o : op) : TimingWheel * result :=
  match o with
  | Add delay ev => let '(w', i) := add_timer w delay ev in (w', Added i)
  | Cancel i => let '(w', b) := cancel_timer w i in (w', Cancelled b)
  | Advance now => let '(w', l) := advance w now in (w', Expired l)
  | NextExpiry => ((next_expiry_time w).1, LookedUp)
  | Clear => (clear w, Cleared)
  end.

Definition spec_op (count : nat) (d : Duration) (s : Timers) (o : op) : Timers * result :=
  match o with
  | Add delay ev =>
      ({| base := s.(base); fresh := s.(fresh) + 1;
          timers := {| id := s.(fresh); expiry_time := s.(base) + delay; event := ev |} :: s.(timers) |},
       Added s.(fresh))
  | Cancel i =>
      ({| base := s.(base); fresh := s.(fresh);
          timers := filter (fun e => e.(id) <> i) s.(timers) |},
       Cancelled (bool_decide (Exists (fun e => e.(id) = i) s.(timers))))
  | Advance now =>
      let elapsed := Z.to_nat (duration_since now s.(base) / d) in
      ({| base := s.(base) + d * Z.of_nat (Nat.min count elapsed); fresh := s.(fresh);
          timers := filter (fun e => ~ due now e) s.(timers) |},
       Expired (filter (due now) s.(timers)))
  | NextExpiry => (s, LookedUp)
  | Clear => ({| base := s.(base); fresh := s.(fresh); timers := [] |}, Cleared)
  end.

Definition same_result (r1 r2 : result) : Prop :=
  match r1, r2 with
  | Expired l1, Expired l2 => l1 ≡ₚ l2
  | _, _ => r1 = r2
  end.

Definition op_ok (o : op) : Prop := match o with Add delay _ => 0 <= delay | _ => True end.

Fixpoint run w (ops : list op) : TimingWheel * list result :=
  match ops with
  | [] => (w, [])
  | o :: ops => let '(w1, r) := run_op w o in let '(w2, rs) := run w1 ops in (w2, r :: rs)
  end.

Fixpoint spec_run (count : nat) (d : Duration) (s : Timers) (ops : list op) : Timers * list result :=
  match ops with
  | [] => (s, [])
  | o :: ops =>
      let '(s1, r) := spec_op count d s o in let '(s2, rs) := spec_run count d s1 ops in (s2, r :: rs)
  end.

(** The simulation relation. *)
Record sim (count : nat) (d : Duration) w (s : Timers) : Prop := {
  sim_wf : wf w;
  sim_count : w.(slot_count) = count;
  sim_duration : w.(slot_duration) = d;
  sim_base : w.(current_time) = s.(base);
  sim_fresh : w.(next_entry_id) = s.(fresh);
  sim_timers : pending w ≡ₚ s.(timers);
}.

Lemma add_wf w delay ev : wf w -> 0 <= delay -> wf (add_timer w delay ev).1.
Proof.
  intros [Hc Hexp] Hd. destruct (add_core w delay ev Hc) as [Hc' Hp]. split; [done|].
  rewrite Hp. constructor; [simpl; lia|]. done.
Qed.

Lemma cancel_wf w x : wf w -> wf (cancel_timer w x).1.
Proof.
  intros [Hc Hexp]. pose proof (cancel_core w x Hc) as H.
  assert (Ht : (cancel_timer w x).1.(current_time) = w.(current_time)).
  { destruct (cancel_cases w x Hc) as [[_ ->]|(s & l & l' & e & m' & _ & _ & _ & _ & _ & ->)]; done. }
  destruct (cancel_timer w x) as [w' found]. destruct H as (Hc' & _ & H). split; [done|].
  simpl in *. rewrite Ht. destruct found; [|by subst].
  destruct H as (e & _ & Hp & _). rewrite Hp in Hexp. by apply Forall_cons in Hexp as [_ ?].
Qed.

Lemma clear_wf w : wf w -> wf (clear w) /\ pending (clear w) = [].
Proof.
  intros [Hc Hexp]. assert (Hp : pending (clear w) = []).
  { unfold pending, clear. simpl. clear. by induction (slots w). }
  assert (Hsl : forall i l, (clear w).(slots) !! i = Some l -> l = []).
  { intros i l Hi. unfold clear in Hi. simpl in Hi. rewrite list_lookup_fmap in Hi.
    by destruct (slots w !! i); simplify_eq/=. }
  split; [|done]. split; [|by rewrite Hp]. pose proof Hc as [].
  constructor; try done; simpl; [by rewrite length_map|intros i l ->%Hsl; done|].
  intros x s p. rewrite lookup_empty. split; [done|]. by intros (l & e & ->%Hsl & ? & _).
Qed.

Lemma next_expiry_frame w c : c = (next_expiry_time w).1.(cached_next_expiry) -> (next_expiry_time w).1 = with_cache w c.
Proof. intros ->. unfold next_expiry_time. destruct w; simpl. by repeat case_match. Qed.

Lemma sim_step count d w s o :
  sim count d w s -> op_ok o ->
  sim count d (run_op w o).1 (spec_op count d s o).1 /\
  same_result (run_op w o).2 (spec_op count d s o).2.
Proof.
  intros [Hwf H1 H2 H3 H4 Hp] Ho. pose proof Hwf as [Hc Hexp]. destruct o as [delay ev|x|now| |]; simpl in *.
  - pose proof (add_wf w delay ev Hwf Ho). destruct (add_core w delay ev Hc) as [_ Hq].
    unfold new_entry in Hq. rewrite H3, H4, Hp in Hq. split; [|simpl; congruence].
    constructor; simpl; try done; congruence.
  - pose proof (cancel_wf w x Hwf) as Hwf'. pose proof (cancel_core w x Hc) as H.
    assert (Hf : same_params w (cancel_timer w x).1 /\ (cancel_timer w x).1.(current_time) = w.(current_time)).
    { destruct (cancel_cases w x Hc) as [[_ ->]|(? & ? & ? & ? & ? & _ & _ & _ & _ & _ & ->)]; done. }
    destruct (cancel_timer w x) as [w' found]. simpl in *. destruct H as (_ & Hgone & H).
    destruct Hf as ((Q1 & Q2 & Q3 & Q4) & Q5).
    assert (Hfilter : filter (fun e => e.(id) <> x) (pending w') = pending w') by by apply filter_all.
    split.
    + constructor; simpl; try done; try congruence. rewrite <- Hp. destruct found.
      * destruct H as (e & Hx & Hq & _). rewrite Hq, filter_cons_False, Hfilter by tauto. done.
      * subst w'. by rewrite Hfilter.
    + f_equal. symmetry. destruct found.
      * apply bool_decide_eq_true. destruct H as (e & Hx & Hq & _). rewrite <- Hp, Hq. by left.
      * apply bool_decide_eq_false. subst w'. rewrite <- Hp, Exists_exists. intros (e & He & Hx).
        rewrite Forall_forall in Hgone. by apply (Hgone e).
  - pose proof (advance_core now w Hwf) as H. destruct (advance w now) as [w' ex].
    destruct H as (Hwf' & (Q1 & Q2 & Q3 & Q4) & Ht & Hex & Hq & _). simpl. split; [|by rewrite Hex, Hp].
    constructor; simpl; try done; try congruence; [|by rewrite Hq, Hp].
    rewrite Ht. unfold ticks_to_advance. by rewrite H1, H2, H3.
  - split; [|done]. rewrite (next_expiry_frame w _ eq_refl).
    constructor; try done. split; [by apply core_with_cache|done].
  - destruct (clear_wf w Hwf) as [Hwf' Hq]. split; [|done]. constructor; simpl; try done. by rewrite Hq.
Qed.

(** *** The cache *)

Lemma earliest_perm l l' t :
  l ≡ₚ l' -> earliest_of (fun e => e ∈ l) t -> earliest_of (fun e => e ∈ l') t.
Proof. intros Hp. apply (is_earliest_ext _ _ (Some t)). intros e. by rewrite Hp. Qed.

Lemma cancel_cache_ok w x : wf w -> cache_ok w -> cache_ok (cancel_timer w x).1.
Proof.
  intros [Hc _] Hca. pose proof (cancel_core w x Hc) as H. destruct (cancel_timer w x) as [w' found].
  destruct H as (_ & _ & H). destruct found; [|by subst]. destruct H as (e & _ & Hp & Ec).
  unfold cache_ok in *. simpl. rewrite Ec. destruct (cached_next_expiry w) as [c|]; [|done]. simpl.
  destruct (Z.leb_spec e.(expiry_time) (c + from_millis 1)) as [|Hlt]; [done|].
  destruct (earliest_perm _ _ _ Hp Hca) as [(e0 & [->|He0]%elem_of_cons & <-) Hle].
  - unfold from_millis in Hlt. lia.
  - split; [eauto|]. intros e1 He1. apply Hle. by right.
Qed.

Lemma add_cache_ok w delay ev :
  wf w -> cache_ok w ->
  cache_ok (add_timer w delay ev).1 <->
    (w.(cached_next_expiry) = None -> Forall (fun e => w.(current_time) + delay <= e.(expiry_time)) (pending w)).
Proof.
  intros [Hc _] Hca. destruct (add_core w delay ev Hc) as [_ Hp]. unfold cache_ok in *.
  assert (Ec : cached_next_expiry (add_timer w delay ev).1 =
    cache_min w.(cached_next_expiry) (w.(current_time) + delay)) by done.
  set (w' := (add_timer w delay ev).1) in *. clearbody w'. rewrite Ec. rewrite Forall_forall.
  assert (Hnew : earliest_of (fun e => e = new_entry w delay ev) (w.(current_time) + delay))
    by (split; [eauto|by intros e ->]).
  destruct (cached_next_expiry w) as [c|].
  - split; [done|]. intros _. pose proof (is_earliest_min _ _ (Some c) _ Hca Hnew) as H.
    assert (Hw : is_earliest (fun e => e ∈ pending w') (cache_min (Some c) (w.(current_time) + delay))).
    { eapply is_earliest_ext; [|exact H]. intros e. simpl. rewrite Hp, elem_of_cons. tauto. }
    clear H. simpl in *. by case_match.
  - split.
    + intros [_ Hle] _ e He. apply Hle. rewrite Hp. by right.
    + intros H. specialize (H eq_refl). split.
      * exists (new_entry w delay ev). split; [rewrite Hp; by left|done].
      * intros e. rewrite Hp. intros [->|He]%elem_of_cons; [done|by apply H].
Qed.

Lemma advance_cache_ok w now :
  wf w -> cache_ok w ->
  cache_ok (advance w now).1 <->
    w.(cached_next_expiry) = None \/ (advance w now).2 = [] \/ ticks_to_advance w now <> 0%nat.
Proof.
  intros Hwf Hca. pose proof (advance_core now w Hwf) as H. destruct (advance w now) as [w' ex].
  destruct H as (_ & _ & _ & Hex & Hp & Ec). simpl. unfold cache_ok in *. rewrite Ec. clear Ec.
  assert (Hsame : ex = [] -> pending w' ≡ₚ pending w).
  { intros ->. rewrite Hp, filter_all; [done|]. apply Forall_forall. intros e He Hd.
    apply Permutation_nil in Hex. assert (Hin : e ∈ filter (due now) (pending w)) by by apply list_elem_of_filter.
    rewrite Hex in Hin. by apply elem_of_nil in Hin. }
  destruct (cached_next_expiry w) as [c|].
  2: { assert (E : (if (ticks_to_advance w now =? 0)%nat then None else
         match ex with [] => None | _ => @None Instant end) = None) by (by repeat case_match).
       rewrite E. split; auto. }
  assert (Hnil : ex = [] -> earliest_of (fun e => e ∈ pending w') c).
  { intros E. by apply (earliest_perm (pending w)); [symmetry; apply Hsame|]. }
  destruct (Nat.eqb_spec (ticks_to_advance w now) 0) as [Ek|Ek].
  - split; [|intros [?|[?|?]]; by auto]. intros [(e0 & He0 & <-) _]. right; left.
    destruct ex as [|e ex]; [done|exfalso].
    assert (He : e ∈ filter (due now) (pending w)) by (rewrite <- Hex; by left).
    apply list_elem_of_filter in He as [Hd He]. apply Hca in He.
    rewrite Hp in He0. apply list_elem_of_filter in He0 as [Hn _]. unfold due in *. lia.
  - destruct ex; split; auto.
Qed.

(** ** Properties *)

(** C27: the wheel implements a set of timers.  In any sequence of additions
    with non-negative delays, cancellations, advances, look-ups of the next
    expiry and clears, run on a fresh wheel of any power-of-two size up to
    2^32 slots, additions, cancellations and advances return what the abstract
    set returns: [add_timer] the next id; [cancel_timer] whether the timer was
    still pending, and removes only that one; [advance] exactly the timers
    that have expired, each once, whatever their slot and however long the
    wheel stood still.  Look-ups of the next expiry are in the sequence only
    for what they do to the state: they leave the set of timers and the clock
    alone.  What they answer is not compared, as it can be stale: see
    [next_expiry_time_exact] and [cache_staleness]. *)
Theorem wheel_refines n d now w ops :
  new n d now = Done w -> Z.of_nat n <= 2 ^ 32 -> 0 < d -> Forall op_ok ops ->
  let '(w', rs) := run w ops in
  let '(s', rs') := spec_run n d {| base := now; fresh := 1; timers := [] |} ops in
  Forall2 same_result rs rs' /\ wf w' /\ pending w' ≡ₚ s'.(timers) /\ w'.(current_time) = s'.(base).
Proof.
  intros Hnew Hn Hd Hops. destruct (new_wheel_wf n d now w Hnew Hn Hd) as (Hwf & Hp & _).
  assert (Hsim : sim n d w {| base := now; fresh := 1; timers := [] |}).
  { constructor; simpl; [done|..|by rewrite Hp]; unfold new in Hnew; case_match; by simplify_eq. }
  clear Hnew Hp Hwf. revert w Hsim. generalize ({| base := now; fresh := 1; timers := [] |}).
  induction Hops as [|o ops Ho Hops IH]; intros s w Hsim; simpl.
  - split_and!; try done; apply Hsim.
  - destruct (sim_step n d w s o Hsim Ho) as [Hsim' Hr].
    destruct (run_op w o) as [w1 r], (spec_op n d s o) as [s1 r']. simpl in *. specialize (IH s1 w1 Hsim').
    destruct (run w1 ops) as [w2 rs], (spec_run n d s1 ops) as [s2 rs'].
    destruct IH as (Hrs & H). split; [by constructor|done].
Qed.

(** [next_expiry_time] is exact: while the cache is sound (in particular
    when it is empty) it answers with the earliest expiry of the pending
    timers, [None] only if there is none, and leaves the cache sound.  The
    early exit of the search over the slots never misses an earlier timer. *)
Theorem next_expiry_time_exact w :
  wf w -> cache_ok w ->
  let '(w', r) := next_expiry_time w in
  is_earliest (fun e => e ∈ pending w) r /\ cache_ok w' /\ wf w' /\ pending w' = pending w.
Proof.
  intros Hwf Hca. pose proof Hwf as [Hc Hexp]. unfold next_expiry_time, cache_ok in *.
  destruct (cached_next_expiry w) as [c|] eqn:Ec; [by rewrite Ec|].
  case_bool_decide as Hm.
  - apply map_empty_iff in Hm as Hp; [|done]. rewrite Ec. split_and!; try done.
    simpl. rewrite Hp. intros e He. by apply elem_of_nil in He.
  - assert (H : is_earliest (fun e => e ∈ pending w) (search_loop w.(slot_count) w 0 None)).
    { eapply is_earliest_ext; [intros e; by apply seen_pending|].
      apply search_loop_spec; [done|lia|]. intros e (j & Hj & _). lia. }
    simpl. split_and!; try done; [by destruct (search_loop _ _ _ _)|].
    split; [by apply core_with_cache|done].
Qed.

(** Exactly when the cache goes stale.  Cancelling never makes it stale.
    Adding does, if and only if the cache was empty and an earlier timer is
    pending.  Advancing does, if and only if some timer expired in the current
    slot without the wheel moving on to the next slot. *)
Theorem cache_staleness w delay ev x now :
  wf w -> cache_ok w ->
  cache_ok (cancel_timer w x).1 /\
  (cache_ok (add_timer w delay ev).1 <->
     (w.(cached_next_expiry) = None -> Forall (fun e => w.(current_time) + delay <= e.(expiry_time)) (pending w))) /\
  (cache_ok (advance w now).1 <->
     w.(cached_next_expiry) = None \/ (advance w now).2 = [] \/ ticks_to_advance w now <> 0%nat).
Proof.
  intros Hwf Hca. split_and!; [by apply cancel_cache_ok|by apply add_cache_ok|by apply advance_cache_ok].
Qed.

End wheel.

Arguments TimerEntry Event : clear implicits.
Arguments TimingWheel Event : clear implicits.

(** ** Witnesses *)

(** A wheel of eight slots of 100 ms with timers after 100 and 200 ms, the
    first of which is then cancelled. *)
Definition example_ops : list (@op Z) :=
  [Add (from_millis 100) 1; Add (from_millis 200) 2; Cancel 1].

Lemma wheel_refines_witness :
  exists w : TimingWheel Z, new 8 (from_millis 100) 0 = Done w /\
    let ops := example_ops ++ [NextExpiry; Advance (from_millis 2000); Cancel 2; Clear] in
    let '(w', rs) := run w ops in
    let '(s', rs') := spec_run 8 (from_millis 100) {| base := 0; fresh := 1; timers := [] |} ops in
    Forall2 same_result rs rs' /\ wf w' /\ pending w' ≡ₚ s'.(timers) /\ w'.(current_time) = s'.(base).
Proof.
  eexists. split; [reflexivity|]. intros ops.
  apply (wheel_refines 8 (from_millis 100) 0 _ ops eq_refl); [done|done|].
  by repeat constructor.
Defined.

Definition example_wheel : TimingWheel Z :=
  match new 8 (from_millis 100) 0 with
  | Done w => (run w example_ops).1
  | Panic => {| slot_count := 0; slot_mask := 0; slot_duration := 0; current_slot := 0; start_time := 0;
                current_time := 0; slots := []; timer_map := ∅; next_entry_id := 0;
                cached_next_expiry := None |}
  end.

Lemma example_wheel_wf : wf example_wheel.
Proof.
  destruct (new_wheel_wf (Event := Z) 8 (from_millis 100) 0 _ eq_refl) as (Hwf & _); [done|done|].
  unfold example_wheel. cbn [new is_power_of_two]. apply (add_wf _ (from_millis 100) 1) in Hwf; [|done].
  apply (add_wf _ (from_millis 200) 2) in Hwf; [|done]. exact (cancel_wf _ 1 Hwf).
Qed.

Lemma next_expiry_time_exact_witness :
  wf example_wheel /\ cache_ok example_wheel /\
  let '(w', r) := next_expiry_time example_wheel in
  is_earliest (fun e => e ∈ pending example_wheel) r /\ cache_ok w' /\ wf w' /\
  pending w' = pending example_wheel.
Proof.
  split; [exact example_wheel_wf|]. split; [exact I|].
  apply (next_expiry_time_exact example_wheel); [exact example_wheel_wf|exact I].
Defined.

Lemma cache_staleness_witness :
  cache_ok (cancel_timer example_wheel 2).1 /\
  (cache_ok (add_timer example_wheel (from_millis 300) 3).1 <->
     (example_wheel.(cached_next_expiry) = None ->
      Forall (fun e => example_wheel.(current_time) + from_millis 300 <= e.(expiry_time)) (pending example_wheel))) /\
  (cache_ok (advance example_wheel (from_millis 50)).1 <->
     example_wheel.(cached_next_expiry) = None \/ (advance example_wheel (from_millis 50)).2 = [] \/
     ticks_to_advance example_wheel (from_millis 50) <> 0%nat).
Proof. apply (cache_staleness example_wheel); [exact example_wheel_wf|exact I]. Defined.

(** The stale cache on that wheel: a timer after 200 ms is pending, another
    is added after 300 ms, and the wheel reports 300 ms as its next expiry. *)
Example stale_cache_late_wakeup :
  map expiry_time (pending example_wheel) = [from_millis 200] /\
  (next_expiry_time (add_timer example_wheel (from_millis 300) 3).1).2 = Some (from_millis 300).
Proof. split; vm_compute; reflexivity. Qed.

(** A timer that expires in the current slot leaves its time in the cache: the
    wheel is empty and still reports it. *)
Example stale_cache_after_advance :
  exists w : TimingWheel Z, new 8 (from_millis 100) 0 = Done w /\
    let w' := (advance (add_timer w (from_millis 50) 1).1 (from_millis 60)).1 in
    is_empty w' = true /\ (next_expiry_time w').2 = Some (from_millis 50).
Proof. eexists. split; [reflexivity|]. split; vm_compute; reflexivity. Qed.

End TimingWheel.
