(* ===== verification/WheelBatch.v ===== *)
(** * Timing wheel: batch operations and statistics

    Models [batch_add_timers], [batch_cancel_timers] and [stats] of
    [src/timer/wheel/core.rs], with the batch arithmetic of
    [src/timer/wheel/simd.rs].  The specification of a batch is the sequence of
    single operations it stands for. *)

From S2P Require Import Prelude BTreeMap TimingWheel.
Import TimingWheel.

Module WheelBatch.

(** ** The SIMD library

    What the code uses of the [wide] crate, on arrays of lanes: building a
    vector and reading it back, and the addition of two vectors. *)

Class Wide := {
  u32x8_to_array : list Z -> list Z;            (* u32x8::new(a).to_array() *)
  u64x4_to_array : list Z -> list Z;            (* u64x4::new(a).to_array() *)
  u64x4_add : list Z -> list Z -> list Z;       (* (u64x4::new(a) + u64x4::new(b)).to_array() *)
}.

(** A vector holds the lanes it was built from, and vectors are added lane by
    lane; nothing is said of lanes that overflow. *)
Class WideLaws `{Wide} : Prop := {
  u32x8_lanes a : length a = 8%nat -> Forall u32_ok a -> u32x8_to_array a = a;
  u64x4_lanes a : length a = 4%nat -> Forall u64_ok a -> u64x4_to_array a = a;
  u64x4_add_lanes a b :
    length a = 4%nat -> length b = 4%nat -> Forall u64_ok (zip_with Z.add a b) ->
    u64x4_add a b = zip_with Z.add a b;
}.

Section batch.
Context {Event : Type} `{!Wide}.
Implicit Types (w : TimingWheel Event) (e : TimerEntry Event) (timers : list (Duration * Event)).

(** ** Addition *)

(** [while i + lanes <= len]: the ids of one group of lanes at a time.  Each
    iteration makes [lanes] ids, so [len] is enough fuel. *)
Fixpoint id_loop (fuel lanes : nat) (group : list Z -> list Z) (len i : nat) (id : Z)
    (entry_ids : list Z) : nat * Z * list Z :=
  match fuel with
  | O => (i, id, entry_ids)
  | S fuel =>
      if (i + lanes <=? len)%nat then
        id_loop fuel lanes group len (i + lanes) (id + Z.of_nat lanes)
          (entry_ids ++ group (map (fun j => id + j) (seqZ 0 (Z.of_nat lanes))))
      else (i, id, entry_ids)
  end.

Definition entry_ids_from (start_id : Z) (len : nat) : list Z :=
  let '(i, id, entry_ids) :=
    if (start_id <=? u32_MAX) && (start_id + Z.of_nat len <=? u32_MAX)
    then id_loop len 8 (fun ids => u32x8_to_array (map as_u32 ids)) len 0 start_id []
    else id_loop len 4 u64x4_to_array len 0 start_id [] in
  (id_loop len 1 (fun ids => ids) len i id entry_ids).2.

(** The lanes [t], [t / slot_duration] and the slot index, for four delays. *)
Definition delay_lanes w (current_time_nanos slot_duration_nanos slot_mask : Z) (delays : list Z)
    : list (Instant * nat) :=
  let total_nanos :=
    u64x4_add [current_time_nanos; current_time_nanos; current_time_nanos; current_time_nanos] delays in
  let slot_offsets := u64x4_to_array (map (fun t => t / slot_duration_nanos) total_nanos) in
  zip_with (fun t o => (w.(start_time) + t, Z.to_nat (Z.land (as_u32 o) slot_mask)))
    total_nanos slot_offsets.

(** The scalar tail, on wrapping [u64] arithmetic. *)
Definition delay_scalar w (current_time_nanos slot_duration_nanos slot_mask delay : Z) : Instant * nat :=
  let total_nanos := as_u64 (current_time_nanos + delay) in
  (w.(start_time) + total_nanos, Z.to_nat (Z.land (total_nanos / slot_duration_nanos) slot_mask)).

Fixpoint simd_process_delays w (current_time_nanos slot_duration_nanos slot_mask : Z)
    (delay_nanos : list Z) : list (Instant * nat) :=
  match delay_nanos with
  | d0 :: d1 :: d2 :: d3 :: rest =>
      delay_lanes w current_time_nanos slot_duration_nanos slot_mask [d0; d1; d2; d3] ++
      simd_process_delays w current_time_nanos slot_duration_nanos slot_mask rest
  | rest => map (delay_scalar w current_time_nanos slot_duration_nanos slot_mask) rest
  end.

(** The ids, expiry times and slots of a batch. *)
Definition simd_calculate_batch_metadata w timers (start_id : Z) : list Z * list (Instant * nat) :=
  (entry_ids_from start_id (length timers),
   simd_process_delays w
     (as_u64 (duration_since w.(current_time) w.(start_time)))
     (as_u64 w.(slot_duration)) (as_u32 (Z.of_nat w.(slot_mask)))
     (map (fun x => as_u64 x.1) timers)).

(** [slot.push_back(entry); timer_map.insert(entry_id, (slot_index, position))] *)
Definition push_entry (st : list (list (TimerEntry Event)) * gmap Z (nat * nat))
    (x : nat * TimerEntry Event) : list (list (TimerEntry Event)) * gmap Z (nat * nat) :=
  let '(slots, timer_map) := st in
  let '(slot_index, entry) := x in
  let position_in_slot := length (slots !!! slot_index) in
  (<[slot_index := slots !!! slot_index ++ [entry]]> slots,
   <[entry.(id) := (slot_index, position_in_slot)]> timer_map).

(** The entries of the batch with their slots, in the order of the batch. *)
Definition batch_entries (entry_ids : list Z) (times : list (Instant * nat)) timers
    : list (nat * TimerEntry Event) :=
  zip_with (fun x ev => (x.2.2, {| id := x.1; expiry_time := x.2.1; event := ev |}))
    (zip entry_ids times) timers.*2.

(** [order] is the order in which the [HashMap] of slot groups is iterated.  The
    distribution that the code also computes here, and does not use, is
    [WheelAnalysis.simd_analyze_slot_distribution], which does not panic. *)
Definition batch_add_timers w timers (order : list nat) : TimingWheel Event * list Z :=
  match timers with
  | [] => (w, [])
  | _ =>
      let start_id := w.(next_entry_id) in
      let '(entry_ids, times) := simd_calculate_batch_metadata w timers start_id in
      let entries := batch_entries entry_ids times timers in
      let earliest_expiry :=
        fold_left (fun c x => cache_min c x.2.(expiry_time)) entries w.(cached_next_expiry) in
      let slot_groups slot_index := filter (fun x => x.1 = slot_index) entries in
      let '(slots, timer_map) :=
        fold_left (fun st slot_index => fold_left push_entry (slot_groups slot_index) st)
          order (w.(slots), w.(timer_map)) in
      ({| slot_count := w.(slot_count); slot_mask := w.(slot_mask); slot_duration := w.(slot_duration);
          current_slot := w.(current_slot); start_time := w.(start_time);
          current_time := w.(current_time); slots := slots; timer_map := timer_map;
          next_entry_id := start_id + Z.of_nat (length timers);
          cached_next_expiry := earliest_expiry |},
       map (fun x => x.2.(id)) entries)
  end.

(** ** Cancellation *)

(** One entry of a group: the wheel, the count and whether the cache has to be
    emptied. *)
Definition batch_cancel_one (slot_index : nat) (st : TimingWheel Event * nat * bool) (x : Z * nat)
    : TimingWheel Event * nat * bool :=
  let '(w, cancelled_count, need_cache_invalidation) := st in
  let '(entry_id, position_in_slot) := x in
  let sl := slot w slot_index in
  if (position_in_slot <? length sl)%nat then
    let invalid :=
      match w.(cached_next_expiry), sl !! position_in_slot with
      | Some cached_expiry, Some entry => entry.(expiry_time) <=? cached_expiry + from_millis 1
      | _, _ => false
      end in
    let '(sl', m') :=
      if (position_in_slot =? length sl - 1)%nat then (pop_back sl, w.(timer_map))
      else
        let sl' := swap_remove sl position_in_slot in
        (sl', match sl' !! position_in_slot with
              | Some swapped_entry => <[swapped_entry.(id) := (slot_index, position_in_slot)]> w.(timer_map)
              | None => w.(timer_map)
              end) in
    (with_timers w (<[slot_index := sl']> w.(slots)) (delete entry_id m'),
     S cancelled_count, need_cache_invalidation || invalid)
  else st.

(** [entries.sort_by(|a, b| b.1.cmp(&a.1))] *)
Definition later_position (x y : Z * nat) : Prop := (y.2 <= x.2)%nat.

#[local] Instance later_position_dec : RelDecision later_position.
Proof. intros x y. unfold later_position. apply _. Defined.

Definition batch_cancel_timers w (entry_ids : list Z) (order : list nat) : TimingWheel Event * nat :=
  match entry_ids with
  | [] => (w, 0%nat)
  | _ =>
      let found := omap (fun entry_id => (fun p => (entry_id, p)) <$> w.(timer_map) !! entry_id) entry_ids in
      let slot_groups slot_index :=
        map (fun x => (x.1, x.2.2)) (filter (fun x => x.2.1 = slot_index) found) in
      let '(w', cancelled_count, need_cache_invalidation) :=
        fold_left
          (fun st slot_index =>
             if (length w.(slots) <=? slot_index)%nat then st
             else fold_left (batch_cancel_one slot_index)
                    (merge_sort later_position (slot_groups slot_index)) st)
          order (w, 0%nat, false) in
      (if need_cache_invalidation then with_cache w' None else w', cancelled_count)
  end.

(** ** Statistics *)

Record TimingWheelStats := {
  total_slots : nat;
  non_empty_slots : nat;
  total_timers : nat;
  max_slot_size : nat;
  stats_current_slot : nat;
  stats_slot_duration : Duration;
}.

Definition stats w : TimingWheelStats :=
  let '(non_empty, max_size, total) :=
    fold_left
      (fun st (sl : list (TimerEntry Event)) =>
         let '(non_empty, max_size, total) := st in
         match sl with
         | [] => (non_empty, max_size, total + length sl)%nat
         | _ => (non_empty + 1, Nat.max max_size (length sl), total + length sl)%nat
         end)
      w.(slots) (0, 0, 0)%nat in
  {| total_slots := w.(slot_count); non_empty_slots := non_empty; total_timers := total;
     max_slot_size := max_size; stats_current_slot := w.(current_slot);
     stats_slot_duration := w.(slot_duration) |}.

(** ** The batch arithmetic *)

Section laws.
Context `{!WideLaws}.

Lemma seqZ_shift m n : map (fun j => m + j) (seqZ 0 n) = seqZ m n.
Proof. pose proof (fmap_add_seqZ m 0 n) as E. by rewrite Z.add_0_r in E. Qed.

Lemma id_loop_spec lanes group n start :
  (0 < lanes)%nat ->
  (forall m, start <= m -> m + Z.of_nat lanes <= start + Z.of_nat n ->
     group (seqZ m (Z.of_nat lanes)) = seqZ m (Z.of_nat lanes)) ->
  forall fuel i, (n <= fuel + i)%nat -> (i <= n)%nat ->
  exists i', (i' <= n < i' + lanes)%nat /\
    id_loop fuel lanes group n i (start + Z.of_nat i) (seqZ start (Z.of_nat i)) =
      (i', start + Z.of_nat i', seqZ start (Z.of_nat i')).
Proof.
  intros Hl Hg. induction fuel as [|fuel IH]; intros i Hf Hi; simpl.
  - exists i. split; [lia|done].
  - destruct (Nat.leb_spec (i + lanes) n) as [Hle|Hgt]; [|exists i; split; [lia|done]].
    rewrite seqZ_shift, Hg by lia.
    destruct (IH (i + lanes)%nat) as (i' & Hi' & E); [lia..|]. exists i'. split; [done|].
    rewrite <- E, Nat2Z.inj_add, seqZ_app by lia. f_equal. lia.
Qed.

Lemma entry_ids_from_spec start n :
  0 <= start -> start + Z.of_nat n <= 2 ^ 64 -> entry_ids_from start n = seqZ start (Z.of_nat n).
Proof.
  intros Hs Hn. unfold entry_ids_from.
  assert (Hgroups : exists i', (i' <= n)%nat /\
    (if (start <=? u32_MAX) && (start + Z.of_nat n <=? u32_MAX)
     then id_loop n 8 (fun ids => u32x8_to_array (map as_u32 ids)) n 0 start []
     else id_loop n 4 u64x4_to_array n 0 start []) = (i', start + Z.of_nat i', seqZ start (Z.of_nat i'))).
  { case_match eqn:E.
    - apply andb_prop in E as [_ E%Z.leb_le]. unfold u32_MAX in E.
      destruct (id_loop_spec 8 (fun ids => u32x8_to_array (map as_u32 ids)) n start) with (fuel := n) (i := 0%nat)
        as (i' & Hi' & E'); [lia| |lia..|].
      + intros m Hm1 Hm2.
        assert (Hid : map as_u32 (seqZ m 8) = seqZ m 8).
        { rewrite <- (map_id (seqZ m 8)) at 2. apply map_ext_in. intros x Hx%list_elem_of_In%elem_of_seqZ.
          apply as_u32_id. unfold u32_ok. lia. }
        change (Z.of_nat 8) with 8 in *. rewrite Hid. apply u32x8_lanes; [done|].
        apply Forall_seqZ. intros x Hx. unfold u32_ok. lia.
      + exists i'. split; [lia|]. rewrite Z.add_0_r in E'. exact E'.
    - destruct (id_loop_spec 4 u64x4_to_array n start) with (fuel := n) (i := 0%nat) as (i' & Hi' & E'); [lia| |lia..|].
      + intros m Hm1 Hm2. change (Z.of_nat 4) with 4 in *. apply u64x4_lanes; [done|].
        apply Forall_seqZ. intros x Hx. unfold u64_ok. lia.
      + exists i'. split; [lia|]. rewrite Z.add_0_r in E'. exact E'. }
  destruct Hgroups as (i' & Hi' & ->).
  destruct (id_loop_spec 1 (fun ids => ids) n start) with (fuel := n) (i := i') as (i2 & Hi2 & ->); try done; try lia.
  simpl. f_equal. lia.
Qed.

(** The slot index of the batch code is that of [calculate_slot_index]. *)
Lemma slot_of_offset w t :
  core_ok w -> 0 <= t ->
  Z.to_nat (Z.land (as_u32 (t / w.(slot_duration))) (as_u32 (Z.of_nat w.(slot_mask)))) =
    calculate_slot_index w (w.(start_time) + t) /\
  Z.to_nat (Z.land (t / w.(slot_duration)) (as_u32 (Z.of_nat w.(slot_mask)))) =
    calculate_slot_index w (w.(start_time) + t).
Proof.
  intros Hc Ht. rewrite slot_of_tick by done. unfold tick, duration_since, saturating_sub.
  replace (Z.max 0 (start_time w + t - start_time w)) with t by lia.
  pose proof (core_duration w Hc) as Hd. set (o := t / slot_duration w).
  assert (Ho : 0 <= o) by (apply Z.div_pos; lia).
  pose proof (core_u32 w Hc) as Hu. pose proof (count_pos w Hc) as Hcnt.
  rewrite (core_mask w Hc), (as_u32_id (Z.of_nat _)) by (unfold u32_ok; lia).
  destruct (core_pow w Hc) as [k Hk].
  assert (Hz : Z.of_nat (slot_count w) = 2 ^ Z.of_nat k) by (rewrite Hk, Nat2Z.inj_pow; done).
  assert (Hk32 : Z.of_nat k <= 32).
  { rewrite Hz in Hu. apply Z.pow_le_mono_r_iff in Hu; lia. }
  assert (Hm : Z.of_nat (slot_count w - 1) = Z.ones (Z.of_nat k)) by (rewrite Z.ones_equiv; lia).
  rewrite Hm, !Z.land_ones by lia. rewrite <- Hz.
  assert (E : Z.to_nat (o mod Z.of_nat (slot_count w)) = (Z.to_nat o mod slot_count w)%nat).
  { rewrite Z2Nat.inj_mod by lia. by rewrite Nat2Z.id. }
  split; [|done]. rewrite <- E. f_equal. unfold as_u32. rewrite Hz.
  replace (2 ^ 32) with (2 ^ Z.of_nat k * 2 ^ (32 - Z.of_nat k)) by (rewrite <- Z.pow_add_r by lia; f_equal; lia).
  assert (0 < 2 ^ Z.of_nat k) by lia. assert (0 < 2 ^ (32 - Z.of_nat k)) by lia.
  rewrite Z.rem_mul_r by lia. rewrite Z.mul_comm, Z.mod_add by lia. by apply Z.mod_mod; lia.
Qed.

(** The wheel's clock and the delay fit in 64 bits of nanoseconds, as do all
    delays below 584 years. *)
Definition fits w (delay : Duration) : Prop :=
  0 <= delay /\ w.(current_time) - w.(start_time) + delay < 2 ^ 64.

Definition expiry_and_slot w (delay : Duration) : Instant * nat :=
  (w.(current_time) + delay, calculate_slot_index w (w.(current_time) + delay)).

Lemma clock_nonneg w : core_ok w -> 0 <= w.(current_time) - w.(start_time).
Proof. intros Hc. destruct (core_time w Hc) as (n & -> & _). pose proof (core_duration w Hc). nia. Qed.

(** The additions and divisions of one group of lanes. *)
Lemma lanes_spec w d0 d1 d2 d3 :
  core_ok w -> Forall (fits w) [d0; d1; d2; d3] ->
  let c := w.(current_time) - w.(start_time) in
  let ts := map (Z.add c) [d0; d1; d2; d3] in
  let offsets := map (fun t => t / w.(slot_duration)) ts in
  u64x4_add [c; c; c; c] [d0; d1; d2; d3] = ts /\ u64x4_to_array offsets = offsets.
Proof.
  intros Hc Hf c ts offsets. pose proof (clock_nonneg w Hc) as Hclk. fold c in Hclk.
  pose proof (core_duration w Hc) as Hd.
  assert (Hok : Forall u64_ok ts).
  { apply Forall_fmap. eapply Forall_impl; [exact Hf|]. intros d [Hd0 Hd1]. unfold u64_ok. simpl. fold c in Hd1. lia. }
  split; [by apply u64x4_add_lanes|]. apply u64x4_lanes; [done|].
  apply Forall_fmap. eapply Forall_impl; [exact Hok|]. intros t Ht. unfold u64_ok in *. simpl.
  split; [apply Z.div_pos; lia|]. apply Z.le_lt_trans with t; [apply Z.div_le_upper_bound; nia|lia].
Qed.

Lemma delay_lanes_spec w d0 d1 d2 d3 :
  core_ok w -> Forall (fits w) [d0; d1; d2; d3] ->
  delay_lanes w (w.(current_time) - w.(start_time)) w.(slot_duration) (as_u32 (Z.of_nat w.(slot_mask)))
    [d0; d1; d2; d3] = map (expiry_and_slot w) [d0; d1; d2; d3].
Proof.
  intros Hc Hf. pose proof (clock_nonneg w Hc) as Hclk. destruct (lanes_spec w d0 d1 d2 d3 Hc Hf) as [Ea Eo].
  unfold delay_lanes. rewrite Ea, Eo. set (c := current_time w - start_time w) in *.
  assert (Hone : forall d, fits w d -> (w.(start_time) + (c + d),
    Z.to_nat (Z.land (as_u32 ((c + d) / slot_duration w)) (as_u32 (Z.of_nat (slot_mask w))))) = expiry_and_slot w d).
  { intros d [Hd0 _]. unfold expiry_and_slot. destruct (slot_of_offset w (c + d) Hc) as [-> _]; [lia|].
    unfold c. f_equal; [lia|f_equal; lia]. }
  repeat (apply Forall_cons in Hf as [? Hf]). simpl. by rewrite !Hone.
Qed.

Lemma delay_scalar_spec w d :
  core_ok w -> fits w d ->
  delay_scalar w (w.(current_time) - w.(start_time)) w.(slot_duration) (as_u32 (Z.of_nat w.(slot_mask))) d =
    expiry_and_slot w d.
Proof.
  intros Hc [Hd0 Hd1]. pose proof (clock_nonneg w Hc) as Hclk. unfold delay_scalar, expiry_and_slot.
  rewrite as_u64_id by (unfold u64_ok; lia).
  destruct (slot_of_offset w (current_time w - start_time w + d) Hc) as [_ ->]; [lia|].
  f_equal; [lia|f_equal; lia].
Qed.

Lemma simd_process_delays_spec w : forall n ds,
  (length ds <= n)%nat -> core_ok w -> Forall (fits w) ds ->
  simd_process_delays w (w.(current_time) - w.(start_time)) w.(slot_duration)
    (as_u32 (Z.of_nat w.(slot_mask))) ds = map (expiry_and_slot w) ds.
Proof.
  induction n as [|n IH]; intros ds Hlen Hc Hf; [by destruct ds; simpl in Hlen; [|lia]|].
  assert (Htail : map (delay_scalar w (current_time w - start_time w) (slot_duration w)
    (as_u32 (Z.of_nat (slot_mask w)))) ds = map (expiry_and_slot w) ds).
  { clear -Hc Hf. induction Hf as [|d ds Hd Hf IH]; [done|]. simpl. by rewrite delay_scalar_spec, IH. }
  destruct ds as [|d0 [|d1 [|d2 [|d3 ds]]]]; try exact Htail.
  cbn [simd_process_delays]. change (d0 :: d1 :: d2 :: d3 :: ds) with ([d0; d1; d2; d3] ++ ds) in *.
  apply Forall_app in Hf as [Hf1 Hf2]. rewrite length_app in Hlen. simpl in Hlen.
  rewrite delay_lanes_spec, IH, map_app by (done || lia). done.
Qed.

(** A batch gets consecutive ids and, timer by timer, the expiry and the slot
    [add_timer] computes. *)
Lemma batch_metadata_spec w timers start_id :
  core_ok w -> w.(slot_duration) < 2 ^ 64 -> 0 <= start_id -> start_id + Z.of_nat (length timers) <= 2 ^ 64 ->
  Forall (fun x => fits w x.1) timers ->
  simd_calculate_batch_metadata w timers start_id =
    (seqZ start_id (Z.of_nat (length timers)), map (fun x => expiry_and_slot w x.1) timers).
Proof.
  intros Hc Hd Hs Hn Hf. unfold simd_calculate_batch_metadata. rewrite entry_ids_from_spec by done. f_equal.
  pose proof (clock_nonneg w Hc) as Hclk. pose proof (core_duration w Hc) as Hd0.
  destruct timers as [|x timers]; [done|]. set (l := x :: timers) in *.
  assert (Hids : map (fun x => as_u64 x.1) l = map fst l).
  { apply map_ext_in. intros y Hy%list_elem_of_In. rewrite Forall_forall in Hf. destruct (Hf y Hy).
    apply as_u64_id. unfold u64_ok. lia. }
  assert (Hx : fits w x.1) by (by apply Forall_cons in Hf as [? _]). destruct Hx.
  rewrite Hids, (as_u64_id (slot_duration w)) by (unfold u64_ok; lia).
  unfold duration_since, saturating_sub. rewrite Z.max_r, as_u64_id by (unfold u64_ok; lia).
  rewrite (simd_process_delays_spec w (length (map fst l))); [by rewrite map_map|done|done|].
  by apply Forall_fmap.
Qed.

(** ** Insertion slot by slot *)

Definition same_place (s : nat) (x : nat * TimerEntry Event) : Prop := x.1 = s.

#[local] Instance same_place_dec s x : Decision (same_place s x).
Proof. unfold same_place. apply _. Defined.

Lemma push_comm st x y :
  x.1 <> y.1 -> x.2.(id) <> y.2.(id) ->
  push_entry (push_entry st x) y = push_entry (push_entry st y) x.
Proof.
  intros Hs Hi. destruct st as [sl m], x as [s e], y as [s' e']. simpl in *.
  rewrite !list_lookup_total_insert_ne by congruence. f_equal.
  - by apply list_insert_insert_ne.
  - by apply insert_insert_ne.
Qed.

Lemma fold_push_comm x l : forall st,
  Forall (fun y => y.1 <> x.1 /\ y.2.(id) <> x.2.(id)) l ->
  fold_left push_entry l (push_entry st x) = push_entry (fold_left push_entry l st) x.
Proof.
  induction l as [|y l IH]; intros st Hf; [done|]. apply Forall_cons in Hf as [[H1 H2] Hf].
  simpl. by rewrite push_comm, IH by congruence.
Qed.

(** The entries of one slot can go first. *)
Lemma fold_push_first s l : forall st,
  NoDup (map (fun x => x.2.(id)) l) ->
  fold_left push_entry l st =
    fold_left push_entry (filter (fun x => ~ same_place s x) l)
      (fold_left push_entry (filter (same_place s) l) st).
Proof.
  induction l as [|x l IH]; intros st Hnd; [done|].
  apply NoDup_cons in Hnd as [Hn Hnd]. rewrite !filter_cons.
  destruct (decide (same_place s x)) as [Hx|Hx].
  - rewrite decide_False by tauto. simpl. by apply IH.
  - rewrite decide_True by done. simpl. rewrite IH by done. f_equal. apply fold_push_comm.
    apply Forall_forall. intros y [Hy Hin]%list_elem_of_filter. unfold same_place in *. split; [congruence|].
    intros E. apply Hn. rewrite <- E. by apply (list_elem_of_fmap_2 (fun x => x.2.(id))).
Qed.

(** Whatever the order of the slots, the groups put together are the batch. *)
Lemma fold_push_groups order : forall l st groups,
  NoDup order -> NoDup (map (fun x => x.2.(id)) l) -> Forall (fun x => x.1 ∈ order) l ->
  (forall s, s ∈ order -> groups s = filter (same_place s) l) ->
  fold_left (fun st s => fold_left push_entry (groups s) st) order st = fold_left push_entry l st.
Proof.
  induction order as [|s order IH]; intros l st groups Hno Hnd Hin Hg; simpl.
  - destruct l as [|x l]; [done|]. apply Forall_cons in Hin as [Hx _]. by apply elem_of_nil in Hx.
  - apply NoDup_cons in Hno as [Hs Hno]. rewrite (fold_push_first s l st Hnd), (Hg s) by by left.
    apply IH; try done.
    + clear -Hnd. induction l as [|x l IH]; [done|]. apply NoDup_cons in Hnd as [Hn Hnd].
      rewrite filter_cons. case_decide; [|by apply IH]. apply NoDup_cons. split; [|by apply IH].
      intros (y & E & [_ Hy]%list_elem_of_filter)%list_elem_of_fmap. apply Hn. rewrite E.
      by apply (list_elem_of_fmap_2 (fun x => x.2.(id))).
    + apply Forall_forall. intros x [Hx Hl]%list_elem_of_filter. rewrite Forall_forall in Hin.
      apply Hin, elem_of_cons in Hl as [E|?]; [destruct Hx; exact E|done].
    + intros s' Hs'. rewrite Hg by by right. rewrite list_filter_filter. apply list_filter_iff.
      intros x. unfold same_place. split; [|tauto]. intros E1. split; [done|]. intros E2. congruence.
Qed.

(** ** One by one *)

(** [add_timer] on each timer in turn. *)
Fixpoint add_all w timers : TimingWheel Event * list Z :=
  match timers with
  | [] => (w, [])
  | (delay, ev) :: timers =>
      let '(w1, i) := add_timer w delay ev in
      let '(w2, ids) := add_all w1 timers in
      (w2, i :: ids)
  end.

Definition entries_of w timers : list (nat * TimerEntry Event) :=
  batch_entries (seqZ w.(next_entry_id) (Z.of_nat (length timers)))
    (map (fun x => expiry_and_slot w x.1) timers) timers.

Lemma entries_of_cons w d ev timers :
  entries_of w ((d, ev) :: timers) =
    (calculate_slot_index w (w.(current_time) + d), new_entry w d ev) ::
    entries_of (add_timer w d ev).1 timers.
Proof.
  unfold entries_of, batch_entries. simpl length. rewrite seqZ_cons by lia. simpl.
  f_equal. rewrite Z.add_1_r. do 3 f_equal. lia.
Qed.

Lemma add_all_cons w d ev timers :
  add_all w ((d, ev) :: timers) =
    ((add_all (add_timer w d ev).1 timers).1, w.(next_entry_id) :: (add_all (add_timer w d ev).1 timers).2).
Proof. simpl. by destruct (add_all _ timers). Qed.

Lemma add_all_spec timers : forall w,
  let '(slots, timer_map) := fold_left push_entry (entries_of w timers) (w.(slots), w.(timer_map)) in
  add_all w timers =
    ({| slot_count := w.(slot_count); slot_mask := w.(slot_mask); slot_duration := w.(slot_duration);
        current_slot := w.(current_slot); start_time := w.(start_time);
        current_time := w.(current_time); slots := slots; timer_map := timer_map;
        next_entry_id := w.(next_entry_id) + Z.of_nat (length timers);
        cached_next_expiry :=
          fold_left (fun c x => cache_min c x.2.(expiry_time)) (entries_of w timers) w.(cached_next_expiry) |},
     map (fun x => x.2.(id)) (entries_of w timers)).
Proof.
  induction timers as [|[d ev] timers IH]; intros w.
  - simpl. rewrite Z.add_0_r. by destruct w.
  - rewrite entries_of_cons. specialize (IH (add_timer w d ev).1). rewrite add_all_cons. cbn [fold_left map].
    change (push_entry _ _) with ((add_timer w d ev).1.(slots), (add_timer w d ev).1.(timer_map)).
    destruct (fold_left push_entry _ _) as [sl m].
    rewrite IH. simpl.
    f_equal. f_equal. lia.
Qed.

Lemma entries_of_ids w timers :
  map (fun x => x.2.(id)) (entries_of w timers) = seqZ w.(next_entry_id) (Z.of_nat (length timers)).
Proof.
  revert w. induction timers as [|[d ev] timers IH]; intros w; [done|].
  rewrite entries_of_cons. simpl length. rewrite seqZ_cons by lia. cbn [map]. rewrite IH. simpl.
  f_equal. f_equal; lia.
Qed.

Lemma entries_of_slots w timers :
  map fst (entries_of w timers) = map (fun x => (expiry_and_slot w x.1).2) timers.
Proof.
  revert w. induction timers as [|[d ev] timers IH]; intros w; [done|].
  rewrite entries_of_cons. cbn [map]. by rewrite IH.
Qed.

(** Adding a batch is adding its timers one by one: the same wheel, the
    same ids, whatever the order in which the slot groups are inserted and
    whether a timer went through the vector or the scalar arithmetic, as long
    as ids and times fit in 64 bits. *)
Theorem batch_add_sequential w timers order :
  wf w -> w.(slot_duration) < 2 ^ 64 -> w.(next_entry_id) + Z.of_nat (length timers) <= 2 ^ 64 ->
  Forall (fun x => fits w x.1) timers ->
  NoDup order -> Forall (fun x => (expiry_and_slot w x.1).2 ∈ order) timers ->
  batch_add_timers w timers order = add_all w timers.
Proof.
  intros [Hc _] Hd Hn Hf Hno Hin. unfold batch_add_timers.
  destruct timers as [|x0 timers0]; [done|]. set (timers := x0 :: timers0) in *.
  rewrite batch_metadata_spec by (done || apply (core_next_id w Hc)). fold (entries_of w timers).
  pose proof (add_all_spec timers w) as Hall. rewrite (fold_push_groups order (entries_of w timers)).
  - by destruct (fold_left push_entry _ _).
  - done.
  - rewrite entries_of_ids. apply NoDup_seqZ.
  - apply (Forall_map fst (fun s => s ∈ order)). rewrite entries_of_slots. by apply Forall_map.
  - intros s _. by apply list_filter_iff.
Qed.

End laws.

(** ** Cancelling a batch *)

Definition hits (cached : option Instant) e : bool :=
  match cached with Some c => e.(expiry_time) <=? c + from_millis 1 | None => false end.

(** [w'] is [w] without the entries [es]. *)
Record taken w w' (es : list (TimerEntry Event)) : Prop := {
  taken_core : core_ok w';
  taken_time : w'.(current_time) = w.(current_time);
  taken_cache : w'.(cached_next_expiry) = w.(cached_next_expiry);
  taken_slots : length w'.(slots) = length w.(slots);
  taken_pending : pending w ≡ₚ es ++ pending w';
  taken_gone e : e ∈ es -> w'.(timer_map) !! e.(id) = None;
  taken_none y : w.(timer_map) !! y = None -> w'.(timer_map) !! y = None;
}.

Lemma taken_refl w : core_ok w -> taken w w [].
Proof. intros Hc. constructor; try done. intros e He. by apply elem_of_nil in He. Qed.

Lemma taken_trans w w1 w2 es1 es2 : taken w w1 es1 -> taken w1 w2 es2 -> taken w w2 (es1 ++ es2).
Proof.
  intros [] []. constructor; try congruence; try done; auto.
  - by rewrite taken_pending0, taken_pending1, app_assoc.
  - intros e [He|He]%elem_of_app; auto.
Qed.

(** One removal: the entry at the recorded place goes, and entries of other
    slots or before it keep their places. *)
Lemma batch_cancel_one_spec s w n b x p :
  core_ok w -> w.(timer_map) !! x = Some (s, p) ->
  exists w' e,
    batch_cancel_one s (w, n, b) (x, p) = (w', S n, b || hits w.(cached_next_expiry) e) /\
    e.(id) = x /\ taken w w' [e] /\
    forall y s' q, w.(timer_map) !! y = Some (s', q) -> s' <> s \/ (q < p)%nat ->
      w'.(timer_map) !! y = Some (s', q).
Proof.
  intros Hc Hx. pose proof Hx as (l & e & Hs & Hp & <-)%(core_map w Hc).
  assert (Hsl : slot w s = l) by (unfold slot; by apply list_lookup_total_correct).
  assert (Hpl : (p < length l)%nat) by eauto using lookup_lt_Some.
  assert (Hdone : forall l' m', l ≡ₚ e :: l' -> mapped (<[s := l']> w.(slots)) m' -> m' !! e.(id) = None ->
    (forall y, w.(timer_map) !! y = None -> m' !! y = None) ->
    taken w (with_timers w (<[s := l']> w.(slots)) m') [e]).
  { intros l' m' Hl Hm Hn Hnone. constructor; simpl; try done.
    - apply (core_replace w s l l' m' Hc Hs); [|done]. pose proof (core_entries w Hc s l Hs) as Hf.
      rewrite Hl in Hf. by apply Forall_cons in Hf as [_ ?].
    - by rewrite length_insert.
    - apply (concat_replace _ _ _ _ [e] Hs Hl).
    - intros e0 ->%list_elem_of_singleton. done. }
  unfold batch_cancel_one. rewrite Hsl, Hp, (proj2 (Nat.ltb_lt _ _) Hpl).
  destruct l as [|x0 l0 _] using rev_ind; [done|].
  rewrite length_app in *. simpl in *. rewrite Nat.add_sub.
  fold (hits (cached_next_expiry w) e).
  destruct (Nat.eqb_spec p (length l0)) as [->|Hne].
  - rewrite list_lookup_middle in Hp by done. injection Hp as ->. rewrite pop_back_snoc.
    eexists _, e. split; [reflexivity|]. split; [done|]. split.
    + apply Hdone; [solve_Permutation|by apply mapped_pop, Hs; apply core_map|by rewrite lookup_delete_eq|].
      intros y Hy. destruct (decide (e.(id) = y)) as [<-|]; [by rewrite lookup_delete_eq|by rewrite lookup_delete_ne].
    + intros y s' q Hy Hor. simpl. rewrite lookup_delete_ne; [done|]. intros <-.
      rewrite Hx in Hy. simplify_eq. destruct Hor; [done|lia].
  - rewrite lookup_app_l in Hp by lia. rewrite swap_remove_snoc, list_lookup_insert_eq by lia.
    pose proof (snoc_id_ne _ _ _ _ _ _ _ (core_map w Hc) Hs Hp) as Hid.
    assert (Hx0 : w.(timer_map) !! x0.(id) = Some (s, length l0)).
    { apply (core_map w Hc). exists (l0 ++ [x0]), x0. by rewrite list_lookup_middle. }
    eexists _, e. split; [reflexivity|]. split; [done|]. split.
    + rewrite delete_insert_ne by done.
      apply Hdone; [by apply swap_permutation|by apply mapped_swap; [apply core_map|..]| |].
      * by rewrite lookup_insert_ne, lookup_delete_eq.
      * intros y Hy. rewrite lookup_insert_ne by congruence.
        destruct (decide (e.(id) = y)) as [<-|]; [by rewrite lookup_delete_eq|by rewrite lookup_delete_ne].
    + intros y s' q Hy Hor. simpl.
      rewrite lookup_delete_ne by (intros <-; rewrite Hx in Hy; simplify_eq; destruct Hor; [done|lia]).
      rewrite lookup_insert_ne; [done|]. intros <-. rewrite Hx0 in Hy. simplify_eq. destruct Hor; [done|lia].
Qed.

(** A group of one slot, sorted by descending position. *)
Lemma cancel_group_spec s g : forall w n b,
  core_ok w -> NoDup g.*1 -> StronglySorted later_position g ->
  Forall (fun x => w.(timer_map) !! x.1 = Some (s, x.2)) g ->
  exists w' es,
    fold_left (batch_cancel_one s) g (w, n, b) =
      (w', (n + length es)%nat, b || existsb (hits w.(cached_next_expiry)) es) /\
    map id es = g.*1 /\ taken w w' es /\
    forall y s' q, w.(timer_map) !! y = Some (s', q) -> s' <> s -> w'.(timer_map) !! y = Some (s', q).
Proof.
  induction g as [|[x p] g IH]; intros w n b Hc Hnd Hs Hf.
  - exists w, []. split; [by rewrite Nat.add_0_r, orb_false_r|]. split_and!; try done. by apply taken_refl.
  - apply NoDup_cons in Hnd as [Hx Hnd]. apply StronglySorted_inv in Hs as [Hs Hlt].
    apply Forall_cons in Hf as [Hxp Hf]. simpl in Hxp.
    destruct (batch_cancel_one_spec s w n b x p Hc Hxp) as (w1 & e & E1 & <- & Ht1 & Hk1).
    destruct (IH w1 (S n) (b || hits w.(cached_next_expiry) e)) as (w2 & es & E2 & Hes & Ht2 & Hk2);
      [apply Ht1|done|done| |].
    { rewrite Forall_forall in *. intros [y q] Hy. apply Hk1; [by apply (Hf (y, q))|]. right.
      specialize (Hlt _ Hy). unfold later_position in Hlt.
      simpl in Hlt |- *. destruct (decide (q = p)) as [->|]; [exfalso|lia]. specialize (Hf _ Hy). simpl in Hf.
      apply (core_map w Hc) in Hxp as (l1 & e1 & H1 & H2 & H3), Hf as (l2 & e2 & H4 & H5 & H6).
      simplify_eq. apply Hx. rewrite <- H3. by apply (list_elem_of_fmap_2 fst _ _ Hy). }
    exists w2, (e :: es). cbn [fold_left length existsb]. rewrite E1, E2, (taken_cache _ _ _ Ht1). split_and!.
    + f_equal; [f_equal; lia|]. by rewrite orb_assoc.
    + simpl. by rewrite Hes.
    + apply (taken_trans _ _ _ [e] _ Ht1 Ht2).
    + intros y s' q Hy Hne. apply Hk2; [|done]. apply Hk1; [done|by left].
Qed.


#[local] Instance later_position_total : Total later_position.
Proof. intros x y. unfold later_position. lia. Qed.

#[local] Instance later_position_trans : Transitive later_position.
Proof. intros x y z. unfold later_position. lia. Qed.

(** The ids found, with their places. *)
Definition found_of w (entry_ids : list Z) : list (Z * (nat * nat)) :=
  omap (fun entry_id => (fun p => (entry_id, p)) <$> w.(timer_map) !! entry_id) entry_ids.

Definition group_of (found : list (Z * (nat * nat))) (slot_index : nat) : list (Z * nat) :=
  map (fun x => (x.1, x.2.2)) (filter (fun x => x.2.1 = slot_index) found).

Lemma elem_of_found w ids x : x ∈ found_of w ids <-> x.1 ∈ ids /\ w.(timer_map) !! x.1 = Some x.2.
Proof.
  unfold found_of. rewrite list_elem_of_omap. destruct x as [y q]. simpl. split.
  - intros (z & Hz & E). destruct (timer_map w !! z) as [r|] eqn:Er; simplify_eq/=. done.
  - intros [Hy E]. exists y. by rewrite E.
Qed.

Lemma found_nodup w ids : NoDup ids -> NoDup (found_of w ids).*1.
Proof.
  induction 1 as [|y ids Hy Hnd IH]; [constructor|]. unfold found_of. simpl.
  destruct (timer_map w !! y) as [r|] eqn:E; [|done]. simpl. apply NoDup_cons. split; [|done].
  intros (x & -> & [Hx _]%elem_of_found)%list_elem_of_fmap. done.
Qed.

Lemma elem_of_group found s x : x ∈ group_of found s <-> (x.1, (s, x.2)) ∈ found.
Proof.
  unfold group_of. destruct x as [y q]. split.
  - intros ([z [s' r]] & E & [Hs Hz]%list_elem_of_filter)%list_elem_of_fmap. simpl in *. by simplify_eq.
  - intros Hin. apply list_elem_of_fmap. exists (y, (s, q)). split; [done|]. by apply list_elem_of_filter.
Qed.

Lemma group_nodup found s : NoDup found.*1 -> NoDup (group_of found s).*1.
Proof.
  unfold group_of. induction found as [|[z [s' r]] found IH]; [constructor|].
  rewrite fmap_cons, NoDup_cons. intros [Hz Hnd]. rewrite filter_cons. simpl. case_decide; [|by apply IH].
  simpl. apply NoDup_cons. split; [|by apply IH]. intros ([y q] & -> & Hy)%list_elem_of_fmap.
  apply elem_of_group in Hy. apply Hz. by apply (list_elem_of_fmap_2 fst _ _ Hy).
Qed.

(** All the groups, in any order of the slots. *)
Lemma cancel_groups_spec found order : forall w n b count,
  core_ok w -> length w.(slots) = count -> NoDup found.*1 -> NoDup order ->
  (forall x, x ∈ found -> x.2.1 ∈ order -> w.(timer_map) !! x.1 = Some x.2) ->
  exists w' es,
    fold_left
      (fun st slot_index =>
         if (count <=? slot_index)%nat then st
         else fold_left (batch_cancel_one slot_index) (merge_sort later_position (group_of found slot_index)) st)
      order (w, n, b) = (w', (n + length es)%nat, b || existsb (hits w.(cached_next_expiry)) es) /\
    taken w w' es /\ Forall (fun e => e.(id) ∈ found.*1) es /\
    forall x, x ∈ found -> x.2.1 ∈ order -> w'.(timer_map) !! x.1 = None.
Proof.
  induction order as [|s order IH]; intros w n b count Hc Hlen Hnd Hno Hf.
  - exists w, []. split; [simpl; by rewrite Nat.add_0_r, orb_false_r|]. split_and!; [by apply taken_refl|done|].
    intros x _ Hx. by apply elem_of_nil in Hx.
  - apply NoDup_cons in Hno as [Hs Hno]. cbn [fold_left]. destruct (Nat.leb_spec count s) as [Hle|Hlt].
    + destruct (IH w n b count) as (w' & es & E & Ht & He & Hgone); try done.
      { intros x Hx Hxs. apply Hf; [done|by right]. }
      exists w', es. split_and!; try done. intros x Hx [Exs|Hxs]%elem_of_cons; [|by apply Hgone].
      assert (Hm : w.(timer_map) !! x.1 = Some x.2) by (apply Hf; [done|rewrite Exs; by left]).
      destruct x as [y [s' q]]. simpl in *. subst s'.
      apply (core_map w Hc) in Hm as (l & e & Hl%lookup_lt_Some & _). lia.
    + set (g := merge_sort later_position (group_of found s)).
      assert (Hg : g ≡ₚ group_of found s) by apply merge_sort_Permutation.
      destruct (cancel_group_spec s g w n b) as (w1 & es1 & E1 & Hes1 & Ht1 & Hk1); [done| | | |].
      { rewrite Hg. by apply group_nodup. }
      { apply Sorted_StronglySorted; [apply _|]. apply Sorted_merge_sort, _. }
      { apply Forall_forall. intros [y q]. rewrite Hg, elem_of_group. intros Hy. by apply (Hf _ Hy); left. }
      destruct (IH w1 (n + length es1)%nat (b || existsb (hits (cached_next_expiry w)) es1) count)
        as (w2 & es2 & E2 & Ht2 & He2 & Hgone2); try done.
      { apply Ht1. }
      { by rewrite (taken_slots _ _ _ Ht1). }
      { intros x Hx Hxs. destruct x as [y [s' q]]. apply Hk1; [apply Hf; [done|by right]|].
        simpl in Hxs. by intros ->. }
      exists w2, (es1 ++ es2). rewrite E1, E2, (taken_cache _ _ _ Ht1). split_and!.
      * rewrite length_app, existsb_app, orb_assoc. f_equal. f_equal. lia.
      * by apply (taken_trans _ w1).
      * apply Forall_app_2; [|done]. apply Forall_forall. intros e He.
        assert (Hi : e.(id) ∈ map id es1) by by apply list_elem_of_fmap_2.
        rewrite Hes1 in Hi. apply list_elem_of_fmap in Hi as ([y q] & -> & Hy).
        rewrite Hg, elem_of_group in Hy. by apply (list_elem_of_fmap_2 fst _ _ Hy).
      * intros x Hx [Exs|Hxs]%elem_of_cons; [|by apply Hgone2]. apply (taken_none _ _ _ Ht2).
        destruct x as [y [s' q]]. simpl in *. subst s'.
        assert (Hy : y ∈ map id es1).
        { rewrite Hes1. apply (list_elem_of_fmap_2 fst g (y, q)). by rewrite Hg, elem_of_group. }
        apply list_elem_of_fmap in Hy as (e & -> & He). by apply (taken_gone _ _ _ Ht1).
Qed.

Lemma batch_cancel_taken w entry_ids order :
  core_ok w -> NoDup entry_ids -> NoDup order ->
  (forall x s p, x ∈ entry_ids -> w.(timer_map) !! x = Some (s, p) -> s ∈ order) ->
  exists w1 es, batch_cancel_timers w entry_ids order =
      (if existsb (hits w.(cached_next_expiry)) es then with_cache w1 None else w1, length es) /\
    taken w w1 es /\ Forall (fun e => e.(id) ∈ entry_ids) es /\
    forall x, x ∈ entry_ids -> w1.(timer_map) !! x = None.
Proof.
  intros Hc Hnd Hno Hin. unfold batch_cancel_timers. destruct entry_ids as [|x0 ids0].
  { exists w, []. split_and!; try done; [by apply taken_refl|]. intros x Hx. by apply elem_of_nil in Hx. }
  set (ids := x0 :: ids0) in *. fold (found_of w ids).
  destruct (cancel_groups_spec (found_of w ids) order w 0 false (length w.(slots))) as (w1 & es & E & Ht & He & Hgone);
    try done; [by apply found_nodup| |].
  { by intros x [_ Hx]%elem_of_found _. }
  unfold group_of in E. rewrite E. exists w1, es. split_and!; try done.
  - eapply Forall_impl; [exact He|]. intros e (x & E1 & [Hx _]%elem_of_found)%list_elem_of_fmap. simpl in E1. by rewrite E1.
  - intros x Hx. destruct (timer_map w !! x) as [[s p]|] eqn:Ex; [|by apply (taken_none _ _ _ Ht)].
    apply (Hgone (x, (s, p))); [by apply elem_of_found|]. by apply (Hin x s p).
Qed.

(** The cache of a wheel without the entries [es]. *)
Lemma taken_cache_ok w w1 es :
  taken w w1 es -> cache_ok w ->
  cache_ok (if existsb (hits w.(cached_next_expiry)) es then with_cache w1 None else w1).
Proof.
  intros Ht Hca. destruct (existsb _ es) eqn:E; [done|].
  unfold cache_ok in *. rewrite (taken_cache _ _ _ Ht). destruct (cached_next_expiry w) as [c|]; [|done].
  apply (earliest_perm _ _ _ (taken_pending _ _ _ Ht)) in Hca as [(e0 & He0 & <-) Hle].
  split; [|intros e He; apply Hle, elem_of_app; by right].
  apply elem_of_app in He0 as [He0|He0]; [exfalso|eauto].
  assert (Hh : existsb (hits (Some e0.(expiry_time))) es = true); [|congruence].
  apply existsb_exists. exists e0. split; [by apply list_elem_of_In|]. unfold hits, from_millis. apply Z.leb_le. lia.
Qed.

Lemma pending_mapped w e : core_ok w -> e ∈ pending w -> w.(timer_map) !! e.(id) <> None.
Proof.
  intros Hc (s & l & Hs & [p Hp]%list_elem_of_lookup)%elem_of_pending Hn.
  assert (Hm : w.(timer_map) !! e.(id) = Some (s, p)) by (apply (core_map w Hc); eauto 6). congruence.
Qed.

(** Cancelling a batch of distinct ids removes exactly the pending timers
    named and counts them, whatever the order of the slot groups, and keeps
    the wheel well-formed and a sound cache sound. *)
Theorem batch_cancel_exact w entry_ids order :
  wf w -> NoDup entry_ids -> NoDup order ->
  (forall x s p, x ∈ entry_ids -> w.(timer_map) !! x = Some (s, p) -> s ∈ order) ->
  let '(w', cancelled_count) := batch_cancel_timers w entry_ids order in
  wf w' /\ pending w' ≡ₚ filter (fun e => e.(id) ∉ entry_ids) (pending w) /\
  (cancelled_count + length (pending w') = length (pending w))%nat /\
  (cache_ok w -> cache_ok w').
Proof.
  intros [Hc Hexp] Hnd Hno Hin.
  destruct (batch_cancel_taken w entry_ids order Hc Hnd Hno Hin) as (w1 & es & -> & Ht & Hes & Hgone).
  set (w' := if existsb _ es then _ else w1).
  assert (Hp : pending w' = pending w1) by (unfold w'; by case_match).
  assert (Htime : w'.(current_time) = w1.(current_time)) by (unfold w'; by case_match).
  assert (Hc' : core_ok w') by (unfold w'; case_match; [apply core_with_cache|]; apply Ht).
  assert (Hleft : Forall (fun e => e.(id) ∉ entry_ids) (pending w1)).
  { apply Forall_forall. intros e He Hi. apply (pending_mapped w1 e (taken_core _ _ _ Ht) He), Hgone, Hi. }
  pose proof (taken_pending _ _ _ Ht) as Hperm. rewrite Hp. split_and!.
  - split; [done|]. rewrite Hp, Htime, (taken_time _ _ _ Ht). rewrite Hperm in Hexp. by apply Forall_app in Hexp as [_ ?].
  - rewrite Hperm, filter_app, (filter_all _ (pending w1)), filter_none; [done| |done].
    eapply Forall_impl; [exact Hes|]. simpl. tauto.
  - by rewrite Hperm, length_app.
  - by apply taken_cache_ok.
Qed.

(** The statistics count the pending timers. *)
Lemma stats_total w : total_timers (stats w) = length (pending w).
Proof.
  unfold stats, pending.
  assert (Hfold : forall sl a b c, exists a' b',
    fold_left (fun st (sl : list (TimerEntry Event)) =>
         let '(non_empty, max_size, total) := st in
         match sl with
         | [] => (non_empty, max_size, total + length sl)%nat
         | _ => (non_empty + 1, Nat.max max_size (length sl), total + length sl)%nat
         end) sl (a, b, c) = (a', b', (c + length (concat sl))%nat)).
  { induction sl as [|l sl IH]; intros a b c; simpl; [exists a, b; by rewrite Nat.add_0_r|].
    rewrite length_app, Nat.add_assoc. destruct l; apply IH. }
  destruct (Hfold w.(slots) 0 0 0)%nat as (a & b & ->). done.
Qed.

End batch.

(** ** Witnesses *)

(** Lanes as the processor adds them. *)
#[local] Instance wrapping_wide : Wide := {
  u32x8_to_array a := a;
  u64x4_to_array a := a;
  u64x4_add a b := map as_u64 (zip_with Z.add a b);
}.

#[local] Instance wrapping_wide_laws : WideLaws.
Proof.
  constructor; try done. intros a b _ _ Hf. unfold u64x4_add. simpl.
  rewrite <- map_id. apply map_ext_in. intros x Hx%list_elem_of_In. rewrite Forall_forall in Hf.
  by apply as_u64_id, Hf.
Qed.

Definition example_batch : list (Duration * Z) :=
  [(from_millis 100, 1); (from_millis 900, 2); (from_millis 250, 3); (from_millis 210, 4); (from_millis 40, 5)].

Lemma batch_add_sequential_witness :
  batch_add_timers example_wheel example_batch [2; 0; 1]%nat = add_all example_wheel example_batch.
Proof.
  apply (batch_add_sequential example_wheel example_batch [2; 0; 1]%nat); [exact example_wheel_wf| | | | |].
  - reflexivity.
  - by vm_compute.
  - repeat constructor; by vm_compute.
  - by_decide.
  - by_decide.
Defined.

Definition example_full_wheel : TimingWheel Z := (add_all example_wheel example_batch).1.

Lemma add_all_wf {Event} timers : forall w : TimingWheel Event,
  wf w -> Forall (fun x => 0 <= x.1) timers -> wf (add_all w timers).1.
Proof.
  induction timers as [|[d ev] timers IH]; intros w Hwf Hf; [done|]. apply Forall_cons in Hf as [Hd Hf].
  rewrite add_all_cons. apply IH; [by apply add_wf|done].
Qed.

Lemma batch_cancel_exact_witness :
  wf example_full_wheel /\
  let '(w', cancelled_count) := batch_cancel_timers example_full_wheel [3; 99; 6; 4] [1; 2]%nat in
  wf w' /\ pending w' ≡ₚ filter (fun e => e.(id) ∉ [3; 99; 6; 4]) (pending example_full_wheel) /\
  (cancelled_count + length (pending w') = length (pending example_full_wheel))%nat /\
  (cache_ok example_full_wheel -> cache_ok w').
Proof.
  assert (Hwf : wf example_full_wheel)
    by (apply add_all_wf; [exact example_wheel_wf|by_decide]).
  split; [exact Hwf|].
  apply (batch_cancel_exact example_full_wheel [3; 99; 6; 4] [1; 2]%nat Hwf); [by_decide|by_decide|].
  assert (Hall : forallb (fun x => match example_full_wheel.(timer_map) !! x with
    | Some (s, _) => bool_decide (s ∈ [1; 2]%nat) | None => true end) [3; 99; 6; 4] = true)
    by (vm_compute; reflexivity).
  rewrite forallb_forall in Hall. intros x s p Hx%list_elem_of_In%Hall Hm. rewrite Hm in Hx.
  by apply bool_decide_eq_true in Hx.
Defined.

(** An id listed twice takes an unrelated timer with it: of the three timers
    of a slot, cancelling the first twice leaves one. *)
Example batch_cancel_duplicate :
  exists w : TimingWheel Z, new 8 (from_millis 100) 0 = Done w /\
    let w3 := (add_all w [(from_millis 110, 1); (from_millis 120, 2); (from_millis 130, 3)]).1 in
    let '(w', cancelled_count) := batch_cancel_timers w3 [1; 1] [1%nat] in
    cancelled_count = 2%nat /\ map id (pending w') = [2].
Proof. eexists. split; [reflexivity|]. split; vm_compute; reflexivity. Qed.

End WheelBatch.
