(* ===== verification/WheelAnalysis.v ===== *)
(** * Timing wheel: the lane-wise helpers

    The three functions of [src/timer/wheel/simd.rs] that are not part of the
    batch arithmetic of [WheelBatch]: the slot indices of a batch, the
    distribution of a batch over the slots, which [batch_add_timers] computes
    and throws away, and the update of the map of timers.  Each is a loop over
    groups of lanes with a scalar tail; the theorems say that it is a plain
    loop over the list. *)

From S2P Require Import Prelude BTreeMap TimingWheel WheelBatch.
Import TimingWheel WheelBatch.

Module WheelAnalysis.

(** ** Comparison of lanes

    [u32x8::new(a).cmp_lt(u32x8::splat(b)).to_array()]: a lane of the mask is
    not zero where the comparison holds.  Nothing is said of lanes with the
    top bit set. *)

Class WideCmp := u32x8_cmp_lt : list Z -> Z -> list Z.

Class WideCmpLaws `{WideCmp} : Prop :=
  u32x8_cmp_lt_lanes a b :
    length a = 8%nat -> Forall (fun x => 0 <= x < 2 ^ 31) a -> 0 <= b < 2 ^ 31 ->
    map (fun m => negb (m =? 0)) (u32x8_cmp_lt a b) = map (fun x => x <? b) a.

Section analysis.
Context {Event : Type} `{!Wide} `{!WideCmp}.
Implicit Types w : TimingWheel Event.

(** ** The slots of a batch *)

Fixpoint slot_calculation_loop w (current_time_nanos slot_duration_nanos slot_mask : Z) (delay_nanos : list Z)
    : list nat :=
  match delay_nanos with
  | d0 :: d1 :: d2 :: d3 :: rest =>
      let total_nanos :=
        u64x4_add [current_time_nanos; current_time_nanos; current_time_nanos; current_time_nanos]
          (map as_u64 [d0; d1; d2; d3]) in
      let slot_offsets := u64x4_to_array (map (fun t => t / slot_duration_nanos) total_nanos) in
      map (fun offset => Z.to_nat (Z.land (as_u32 offset) slot_mask)) slot_offsets ++
      slot_calculation_loop w current_time_nanos slot_duration_nanos slot_mask rest
  | rest =>
      map (fun delay =>
        let total_nanos := as_u64 (current_time_nanos + as_u64 delay) in
        Z.to_nat (Z.land (total_nanos / slot_duration_nanos) slot_mask)) rest
  end.

Definition simd_batch_slot_calculation w (delay_nanos : list Z) : list nat :=
  slot_calculation_loop w
    (as_u64 (duration_since w.(current_time) w.(start_time)))
    (as_u64 w.(slot_duration)) (as_u32 (Z.of_nat w.(slot_mask))) delay_nanos.

(** ** The distribution of a batch *)

(** [slot_counts[idx] += 1], on a [Vec<u32>]. *)
Definition bump (slot_counts : list Z) (idx : nat) : outcome (list Z) :=
  match slot_counts !! idx with
  | Some count => Done (<[idx := as_u32 (count + 1)]> slot_counts)
  | None => Panic
  end.

(** [for j in 0..8]: the lanes whose mask is set. *)
Fixpoint bump_valid (slot_counts : list Z) (indices_array valid_array : list Z) : outcome (list Z) :=
  match indices_array, valid_array with
  | idx :: indices_array, valid :: valid_array =>
      outcome_bind (if negb (valid =? 0) then bump slot_counts (Z.to_nat idx) else Done slot_counts)
        (fun slot_counts => bump_valid slot_counts indices_array valid_array)
  | _, _ => Done slot_counts
  end.

(** [if idx < slot_count { slot_counts[idx] += 1 }], index by index. *)
Fixpoint bump_below (slot_count : nat) (slot_counts : list Z) (indices : list nat) : outcome (list Z) :=
  match indices with
  | [] => Done slot_counts
  | idx :: indices =>
      outcome_bind (if (idx <? slot_count)%nat then bump slot_counts idx else Done slot_counts)
        (fun slot_counts => bump_below slot_count slot_counts indices)
  end.

(** [slot_indices[i] as u32], and back. *)
Definition narrow (idx : nat) : Z := as_u32 (Z.of_nat idx).

(** The groups of eight, then those of four, then the rest. *)
Fixpoint count_by_4 (slot_count : nat) (slot_counts : list Z) (slot_indices : list nat) : outcome (list Z) :=
  match slot_indices with
  | i0 :: i1 :: i2 :: i3 :: rest =>
      outcome_bind (bump_below slot_count slot_counts (map (fun i => Z.to_nat (narrow i)) [i0; i1; i2; i3]))
        (fun slot_counts => count_by_4 slot_count slot_counts rest)
  | rest => bump_below slot_count slot_counts rest
  end.

Fixpoint count_by_8 (slot_count : nat) (slot_counts : list Z) (slot_indices : list nat) : outcome (list Z) :=
  match slot_indices with
  | i0 :: i1 :: i2 :: i3 :: i4 :: i5 :: i6 :: i7 :: rest =>
      let indices_vec := map narrow [i0; i1; i2; i3; i4; i5; i6; i7] in
      let valid_array := u32x8_cmp_lt indices_vec (as_u32 (Z.of_nat slot_count)) in
      outcome_bind (bump_valid slot_counts (u32x8_to_array indices_vec) valid_array)
        (fun slot_counts => count_by_8 slot_count slot_counts rest)
  | rest => count_by_4 slot_count slot_counts rest
  end.

(** The slots that got something, with how many. *)
Definition non_zero (slot_counts : list Z) : list (nat * nat) :=
  omap (fun x => if 0 <? x.2 then Some (x.1, Z.to_nat x.2) else None)
    (imap (fun slot_idx count => (slot_idx, count)) slot_counts).

Definition simd_analyze_slot_distribution w (slot_indices : list nat) : outcome (list (nat * nat)) :=
  match slot_indices with
  | [] => Done []
  | _ =>
      outcome_bind (count_by_8 w.(slot_count) (replicate w.(slot_count) 0) slot_indices)
        (fun slot_counts => Done (non_zero slot_counts))
  end.

(** ** The map of timers *)

Definition map_at_front (timer_map : gmap Z (nat * nat)) (x : Z * nat) : gmap Z (nat * nat) :=
  <[x.1 := (x.2, 0%nat)]> timer_map.

Fixpoint mapping_loop (timer_map : gmap Z (nat * nat)) (mappings : list (Z * nat)) : gmap Z (nat * nat) :=
  match mappings with
  | m0 :: m1 :: m2 :: m3 :: rest => mapping_loop (fold_left map_at_front [m0; m1; m2; m3] timer_map) rest
  | rest => fold_left map_at_front rest timer_map
  end.

(** [assert_eq!] of the lengths first. *)
Definition simd_batch_update_mappings w (entry_ids connection_ids : list Z) (slot_indices : list nat)
    : outcome (TimingWheel Event) :=
  if (length entry_ids =? length connection_ids)%nat && (length entry_ids =? length slot_indices)%nat
  then Done (with_timers w w.(slots) (mapping_loop w.(timer_map) (zip entry_ids slot_indices)))
  else Panic.

(** ** The plain loops *)

Section laws.
Context `{!WideLaws} `{!WideCmpLaws}.

(** The slot of every delay is the one [add_timer] computes. *)
Lemma simd_batch_slot_calculation_spec w delays :
  core_ok w -> w.(slot_duration) < 2 ^ 64 -> Forall (fits w) delays ->
  simd_batch_slot_calculation w delays =
    map (fun d => calculate_slot_index w (w.(current_time) + d)) delays.
Proof.
  intros Hc Hdur Hf. pose proof (clock_nonneg w Hc) as Hclk. pose proof (core_duration w Hc) as Hd.
  destruct delays as [|d delays]; [done|]. set (ds := d :: delays) in *.
  assert (Hn : w.(current_time) - w.(start_time) < 2 ^ 64) by (apply Forall_inv in Hf; destruct Hf; lia).
  unfold simd_batch_slot_calculation, duration_since, saturating_sub.
  rewrite Z.max_r, !as_u64_id by (unfold u64_ok; lia). clearbody ds.
  set (c := current_time w - start_time w) in *.
  assert (Hlow : forall x, fits w x -> as_u64 x = x /\ as_u64 (c + x) = c + x).
  { intros x [Hx0 Hx1]. unfold c in *. by rewrite !as_u64_id by (unfold u64_ok; lia). }
  assert (Hslot : forall x, fits w x -> Z.to_nat (Z.land (as_u32 ((c + x) / slot_duration w)) (as_u32 (Z.of_nat (slot_mask w)))) =
      calculate_slot_index w (current_time w + x) /\
    Z.to_nat (Z.land ((c + x) / slot_duration w) (as_u32 (Z.of_nat (slot_mask w)))) = calculate_slot_index w (current_time w + x)).
  { intros x [Hx0 _]. destruct (slot_of_offset w (c + x) Hc) as [-> ->]; [lia|].
    replace (start_time w + (c + x)) with (current_time w + x) by (unfold c; lia). done. }
  clear d delays. induction ds as [ds IH] using (induction_ltof1 _ (@length Z)).
  assert (Htail : map (fun delay => Z.to_nat (Z.land (as_u64 (c + as_u64 delay) / slot_duration w) (as_u32 (Z.of_nat (slot_mask w))))) ds =
    map (fun d => calculate_slot_index w (w.(current_time) + d)) ds).
  { apply map_ext_in. intros x Hx%list_elem_of_In. pose proof (proj1 (Forall_forall _ _) Hf _ Hx) as Hxf.
    destruct (Hlow x Hxf) as [-> ->]. by apply Hslot. }
  destruct ds as [|d0 [|d1 [|d2 [|d3 ds]]]]; try exact Htail.
  change (d0 :: d1 :: d2 :: d3 :: ds) with ([d0; d1; d2; d3] ++ ds) in Hf. apply Forall_app in Hf as [Hf1 Hf2].
  cbn [slot_calculation_loop]. rewrite IH by (done || unfold ltof; simpl; lia).
  destruct (lanes_spec w d0 d1 d2 d3 Hc Hf1) as [Ea Eo]. fold c in Ea, Eo.
  repeat (apply Forall_cons in Hf1 as [? Hf1]). cbn [map].
  rewrite !(fun d H => proj1 (Hlow d H)) by done. rewrite Ea, Eo. cbn [map app].
  by rewrite !(fun d H => proj1 (Hslot d H)) by done.
Qed.

(** How often each slot occurs. *)
Definition tally (n : nat) (indices : list nat) : list Z :=
  map (fun s => Z.of_nat (length (filter (fun i => i = s) indices))) (seq 0 n).

Lemma tally_lookup n indices s :
  (s < n)%nat -> tally n indices !! s = Some (Z.of_nat (length (filter (fun i => i = s) indices))).
Proof. intros Hs. unfold tally. rewrite list_lookup_fmap, lookup_seq_lt by done. done. Qed.

Lemma tally_nil n : tally n [] = replicate n 0.
Proof.
  apply list_eq. intros s. destruct (decide (s < n)%nat).
  - rewrite tally_lookup, lookup_replicate_2 by done. done.
  - rewrite !lookup_ge_None_2; [done|rewrite length_replicate; lia|unfold tally; rewrite length_map, length_seq; lia].
Qed.

Lemma tally_above n indices i : (n <= i)%nat -> tally n (indices ++ [i]) = tally n indices.
Proof.
  intros Hi. unfold tally. apply map_ext_in. intros s [_ Hs]%in_seq. rewrite filter_app, filter_cons_False by lia.
  by rewrite filter_nil, app_nil_r.
Qed.

Lemma bump_tally n indices i :
  (i < n)%nat -> Z.of_nat (length indices) + 1 < 2 ^ 32 -> bump (tally n indices) i = Done (tally n (indices ++ [i])).
Proof.
  intros Hi Hlen. unfold bump. rewrite tally_lookup by done. f_equal.
  pose proof (length_filter (fun j => j = i) indices) as Hle.
  apply list_eq. intros s. destruct (decide (s < n)%nat) as [Hs|Hs].
  - rewrite tally_lookup, filter_app, length_app by done. destruct (decide (i = s)) as [<-|Hne].
    + rewrite list_lookup_insert_eq by (unfold tally; rewrite length_map, length_seq; done).
      rewrite filter_cons_True, filter_nil, as_u32_id by (done || unfold u32_ok; lia). simpl. f_equal. lia.
    + rewrite list_lookup_insert_ne, tally_lookup by done. rewrite filter_cons_False, filter_nil by done. simpl. do 2 f_equal. lia.
  - rewrite !lookup_ge_None_2; [done|..]; rewrite ?length_insert; unfold tally; rewrite length_map, length_seq; lia.
Qed.

Lemma bump_below_tally n indices : forall done_before,
  Z.of_nat (length done_before + length indices) < 2 ^ 32 ->
  bump_below n (tally n done_before) indices = Done (tally n (done_before ++ indices)).
Proof.
  induction indices as [|i indices IH]; intros l Hlen; simpl in *; [by rewrite app_nil_r|].
  replace (l ++ i :: indices) with ((l ++ [i]) ++ indices) by by rewrite <- app_assoc.
  assert (E : (if (i <? n)%nat then bump (tally n l) i else Done (tally n l)) = Done (tally n (l ++ [i]))).
  { destruct (Nat.ltb_spec i n); [apply bump_tally; [done|lia]|by rewrite tally_above]. }
  rewrite E. simpl. apply IH. rewrite length_app. simpl. lia.
Qed.

Lemma bump_valid_below n indices : forall slot_counts valid_array,
  map (fun m => negb (m =? 0)) valid_array = map (fun x => x <? Z.of_nat n) (map Z.of_nat indices) ->
  bump_valid slot_counts (map Z.of_nat indices) valid_array = bump_below n slot_counts indices.
Proof.
  induction indices as [|i indices IH]; intros counts [|m valid] Hv; simpl in *; try done.
  injection Hv as Hm Hv. rewrite Hm, Nat2Z.id.
  replace (Z.of_nat i <? Z.of_nat n) with (i <? n)%nat by (apply eq_true_iff_eq; rewrite Nat.ltb_lt, Z.ltb_lt; lia).
  destruct (if (i <? n)%nat then _ else _); simpl; [by apply IH|done].
Qed.

Lemma bump_below_app n l1 l2 : forall slot_counts,
  bump_below n slot_counts (l1 ++ l2) = outcome_bind (bump_below n slot_counts l1) (fun c => bump_below n c l2).
Proof.
  induction l1 as [|i l1 IH]; intros c; simpl; [done|].
  destruct (if (i <? n)%nat then _ else _); simpl; [apply IH|done].
Qed.

Lemma narrow_small i : Z.of_nat i < 2 ^ 31 -> narrow i = Z.of_nat i.
Proof. intros Hi. apply as_u32_id. unfold u32_ok. lia. Qed.

Lemma map_narrow l : Forall (fun i => Z.of_nat i < 2 ^ 31) l -> map narrow l = map Z.of_nat l.
Proof. induction 1; simpl; [done|]. by rewrite narrow_small, IHForall. Qed.

Lemma count_by_4_below n slot_indices slot_counts :
  Forall (fun i => Z.of_nat i < 2 ^ 31) slot_indices ->
  count_by_4 n slot_counts slot_indices = bump_below n slot_counts slot_indices.
Proof.
  revert slot_counts. induction slot_indices as [l IH] using (induction_ltof1 _ (@length nat)). intros counts Hf.
  destruct l as [|i0 [|i1 [|i2 [|i3 l]]]]; try done.
  change (i0 :: i1 :: i2 :: i3 :: l) with ([i0; i1; i2; i3] ++ l) in Hf. apply Forall_app in Hf as [Hf1 Hf2].
  change (i0 :: i1 :: i2 :: i3 :: l) with ([i0; i1; i2; i3] ++ l) at 2. rewrite bump_below_app. cbn [count_by_4].
  rewrite <- (map_map narrow Z.to_nat), map_narrow, map_map, (map_ext _ _ Nat2Z.id), map_id by done.
  destruct (bump_below n counts [i0; i1; i2; i3]); simpl; [|done]. apply IH; [unfold ltof; simpl; lia|done].
Qed.

Lemma count_by_8_below n slot_indices slot_counts :
  Z.of_nat n < 2 ^ 31 -> Forall (fun i => Z.of_nat i < 2 ^ 31) slot_indices ->
  count_by_8 n slot_counts slot_indices = bump_below n slot_counts slot_indices.
Proof.
  intros Hn. revert slot_counts. induction slot_indices as [l IH] using (induction_ltof1 _ (@length nat)). intros counts Hf.
  destruct l as [|i0 [|i1 [|i2 [|i3 [|i4 [|i5 [|i6 [|i7 l]]]]]]]]; try by apply count_by_4_below.
  set (g := [i0; i1; i2; i3; i4; i5; i6; i7]).
  change (i0 :: i1 :: i2 :: i3 :: i4 :: i5 :: i6 :: i7 :: l) with (g ++ l) in Hf |- * at 2.
  apply Forall_app in Hf as [Hf1 Hf2]. rewrite bump_below_app. cbn [count_by_8]. fold g.
  rewrite map_narrow by done. rewrite as_u32_id by (unfold u32_ok; lia).
  rewrite u32x8_lanes by (done || (apply Forall_fmap; eapply Forall_impl; [exact Hf1|]; intros x Hx; simpl in Hx |- *; unfold u32_ok; lia)).
  rewrite (bump_valid_below n).
  2: { apply u32x8_cmp_lt_lanes; [done| |lia]. apply Forall_fmap. eapply Forall_impl; [exact Hf1|]. intros x Hx. simpl in Hx |- *. lia. }
  destruct (bump_below n counts g); simpl; [|done]. apply IH; [unfold ltof; simpl; lia|done].
Qed.

Lemma non_zero_tally n indices :
  non_zero (tally n indices) =
    filter (fun x => 0 < x.2)%nat (map (fun s => (s, length (filter (fun i => i = s) indices))) (seq 0 n)).
Proof.
  unfold non_zero, tally.
  assert (Hfrom : forall start, omap (fun x : nat * Z => if 0 <? x.2 then Some (x.1, Z.to_nat x.2) else None)
      (imap (fun k count => ((start + k)%nat, count)) (map (fun s => Z.of_nat (length (filter (fun i => i = s) indices))) (seq start n))) =
    filter (fun x => 0 < x.2)%nat (map (fun s => (s, length (filter (fun i => i = s) indices))) (seq start n))).
  { induction n as [|n IH]; intros start; [done|]. simpl. rewrite Nat.add_0_r, Nat2Z.id, filter_cons.
    rewrite (imap_ext _ (fun k count => ((S start + k)%nat, count))) by (intros; simpl; f_equal; lia). rewrite IH. simpl.
    set (k := length _). destruct (Z.ltb_spec 0 (Z.of_nat k)), (decide (0 < k)%nat); try lia; done. }
  apply (Hfrom 0%nat).
Qed.

(** The distribution lists the slots that occur, in order, each with the number
    of its occurrences; counting never leaves the array. *)
Lemma slot_distribution_exact w slot_indices :
  Z.of_nat w.(slot_count) < 2 ^ 31 -> Forall (fun i => Z.of_nat i < 2 ^ 31) slot_indices ->
  Z.of_nat (length slot_indices) < 2 ^ 32 ->
  simd_analyze_slot_distribution w slot_indices =
    Done (filter (fun x => 0 < x.2)%nat
            (map (fun s => (s, length (filter (fun i => i = s) slot_indices))) (seq 0 w.(slot_count)))).
Proof.
  intros Hn Hf Hlen. unfold simd_analyze_slot_distribution. destruct slot_indices as [|i0 l0].
  { f_equal. symmetry. induction (seq 0 (slot_count w)); [done|]. cbn [map]. by rewrite filter_cons_False by (simpl; lia). }
  set (l := i0 :: l0) in *. clearbody l. rewrite count_by_8_below, <- tally_nil, bump_below_tally by done.
  simpl. f_equal. apply non_zero_tally.
Qed.

Lemma sum_indicator i : forall n start, (start <= i < start + n)%nat ->
  sum_list (map (fun s => if decide (i = s) then 1 else 0)%nat (seq start n)) = 1%nat.
Proof.
  assert (Hnone : forall n start, (i < start)%nat ->
    sum_list (map (fun s => if decide (i = s) then 1 else 0)%nat (seq start n)) = 0%nat).
  { induction n as [|n IH]; intros start Hi; [done|]. simpl. rewrite decide_False by lia. apply IH. lia. }
  induction n as [|n IH]; intros start Hi; [lia|]. simpl. destruct (decide (i = start)) as [->|Hne].
  - rewrite Hnone by lia. done.
  - rewrite IH by lia. done.
Qed.

Lemma sum_of_counts n indices :
  Forall (fun i => i < n)%nat indices ->
  sum_list (map (fun s => length (filter (fun i => i = s) indices)) (seq 0 n)) = length indices.
Proof.
  induction 1 as [|i indices Hi Hf IH]; [by induction (seq 0 n)|]. cbn [length].
  transitivity (1 + length indices)%nat; [|done]. rewrite <- IH, <- (sum_indicator i n 0) by lia. generalize (seq 0 n). induction l as [|s l IHl]; [done|].
  cbn [map sum_list]. rewrite filter_cons. destruct (decide (i = s)); cbn [length]; simpl in *; lia.
Qed.

(** What [batch_add_timers] computes and throws away: of every batch on a wheel
    the analysis succeeds and accounts for each timer once. *)
Lemma batch_distribution_total w timers :
  core_ok w -> w.(slot_duration) < 2 ^ 64 -> Z.of_nat w.(slot_count) < 2 ^ 31 ->
  w.(next_entry_id) + Z.of_nat (length timers) <= 2 ^ 64 -> Z.of_nat (length timers) < 2 ^ 32 ->
  Forall (fun x : Duration * Event => fits w x.1) timers ->
  exists distribution,
    simd_analyze_slot_distribution w (simd_calculate_batch_metadata w timers w.(next_entry_id)).2.*2 = Done distribution /\
    sum_list distribution.*2 = length timers.
Proof.
  intros Hc Hd Hn Hid Hlen Hf. rewrite batch_metadata_spec by (done || apply (core_next_id w Hc)). simpl.
  set (idx := (map (fun x => expiry_and_slot w x.1) timers).*2).
  assert (Hl : length idx = length timers) by (unfold idx; by rewrite length_fmap, length_map).
  assert (Hidx : Forall (fun i => i < slot_count w)%nat idx).
  { unfold idx. apply Forall_fmap, Forall_fmap, Forall_true. intros x. by apply slot_index_lt. }
  rewrite slot_distribution_exact; [|done| |by rewrite Hl].
  2: { eapply Forall_impl; [exact Hidx|]. intros i Hi. simpl in *. lia. }
  eexists. split; [done|]. rewrite <- Hl, <- (sum_of_counts _ _ Hidx).
  generalize (seq 0 (slot_count w)). induction l as [|s l IH]; [done|]. cbn [map]. rewrite filter_cons.
  set (k := length _). destruct (decide _) as [Hk|Hk]; simpl in Hk |- *; rewrite ?fmap_cons; simpl; rewrite <- IH; [done|].
  assert (k = 0)%nat as -> by lia. done.
Qed.

(** The map of timers is updated entry by entry, in order. *)
Lemma mapping_loop_fold mappings timer_map : mapping_loop timer_map mappings = fold_left map_at_front mappings timer_map.
Proof.
  revert timer_map. induction mappings as [l IH] using (induction_ltof1 _ (@length (Z * nat))). intros m.
  destruct l as [|x0 [|x1 [|x2 [|x3 l]]]]; try done. cbn [mapping_loop]. rewrite IH by (unfold ltof; simpl; lia). done.
Qed.

Lemma update_mappings_exact w entry_ids connection_ids slot_indices :
  length connection_ids = length entry_ids -> length slot_indices = length entry_ids -> NoDup entry_ids ->
  exists w', simd_batch_update_mappings w entry_ids connection_ids slot_indices = Done w' /\
    w'.(slots) = w.(slots) /\
    (forall i entry_id slot_index, entry_ids !! i = Some entry_id -> slot_indices !! i = Some slot_index ->
       w'.(timer_map) !! entry_id = Some (slot_index, 0%nat)) /\
    (forall entry_id, entry_id ∉ entry_ids -> w'.(timer_map) !! entry_id = w.(timer_map) !! entry_id).
Proof.
  intros Hc Hs Hnd. unfold simd_batch_update_mappings. rewrite Hc, Hs, !Nat.eqb_refl. simpl.
  eexists. split; [done|]. simpl. split; [done|]. rewrite mapping_loop_fold. clear Hc connection_ids.
  generalize (timer_map w). revert slot_indices Hs. induction Hnd as [|x ids Hx Hnd IH]; intros [|s idx] Hs m; try done.
  injection Hs as Hs. simpl. destruct (IH idx Hs (map_at_front m (x, s))) as [Hin Hout]. split.
  - intros [|i] entry_id slot_index Ei Es; simpl in *; [|by eapply Hin].
    simplify_eq. rewrite Hout by done. unfold map_at_front. simpl. by rewrite lookup_insert_eq.
  - intros y [Hne Hy]%not_elem_of_cons. rewrite Hout by done. unfold map_at_front. simpl. by rewrite lookup_insert_ne.
Qed.

End laws.
End analysis.

(** ** An instance of the laws, and what the loops compute with it *)

#[local] Instance plain_wide : Wide := {
  u32x8_to_array a := a;
  u64x4_to_array a := a;
  u64x4_add a b := map as_u64 (zip_with Z.add a b);
}.

#[local] Instance mask_cmp : WideCmp := fun a b => map (fun x => if x <? b then u32_MAX else 0) a.

#[local] Instance mask_cmp_laws : WideCmpLaws.
Proof. intros a b _ _ _. unfold u32x8_cmp_lt, mask_cmp. rewrite map_map. apply map_ext. intros x. by case_match. Qed.

Example distribution_of_13 :
  simd_analyze_slot_distribution example_wheel [1; 0; 1; 2; 3; 1; 0; 3; 3; 3; 9; 1; 0]%nat =
    Done [(0, 3); (1, 4); (2, 1); (3, 4)]%nat.
Proof. vm_compute. reflexivity. Qed.

(** An index that does not fit in 32 bits is counted for another slot by the
    groups and left out by the tail. *)
Example narrowed_index : narrow (Z.to_nat (2 ^ 32)) = 0.
Proof. unfold narrow. rewrite Z2Nat.id by done. reflexivity. Qed.

End WheelAnalysis.
