(* ===== verification/UnifiedScheduler.v ===== *)
(** * Unified timeout scheduler

    Models [src/core/endpoint/unified_scheduler.rs]: the interface
    [TimeoutLayer] between the scheduler and the layers that have timeouts, the
    cache of the current time, the computation of the next wakeup with its
    one-millisecond cache and its prediction from past timeouts, and the check
    of all layers.  [&dyn TimeoutLayer] is the record [dyn_layer], so a slice of
    layers may mix types as in the code.  Each [Instant::now()] of an operation
    is an argument; the cache hit rate and the log are left out. *)

From S2P Require Import Prelude BTreeMap Packet Frame Retransmission.

Module UnifiedScheduler.
Import Timing.

Inductive TimeoutSource :=
| Connection (e : TimeoutEvent)
| Reliability
| GlobalTimer.

Record TimeoutCheckResult := { events : list TimeoutEvent }.

Class TimeoutLayer (L : Type) := {
  next_deadline : L -> option Instant;
  check_timeout_events : L -> Instant -> L * TimeoutCheckResult;
}.

(** [dyn TimeoutLayer] *)
Record dyn_layer := Dyn {
  layer_type : Type;
  layer_impl : TimeoutLayer layer_type;
  layer : layer_type;
}.

Arguments Dyn {layer_type layer_impl} layer.

Definition dyn_next_deadline (l : dyn_layer) : option Instant :=
  @next_deadline _ l.(layer_impl) l.(layer).

Definition dyn_check_timeout_events (l : dyn_layer) (now : Instant)
    : dyn_layer * TimeoutCheckResult :=
  let '(l', r) := @check_timeout_events _ l.(layer_impl) l.(layer) now in
  (@Dyn _ l.(layer_impl) l', r).

Record TimeoutPattern := {
  timestamp : Instant;
  sources : list TimeoutSource;
  interval : Duration;
}.

(** ** Cache of the current time *)

Record TimeCache := {
  cached_now : Instant;
  cache_valid_until : Instant;
  cache_duration : Duration;
}.

Definition time_cache_new (now : Instant) : TimeCache :=
  {| cached_now := now; cache_valid_until := now; cache_duration := from_millis 1 |}.

Definition time_cache_now (c : TimeCache) (real_now : Instant) : TimeCache * Instant :=
  if real_now <? c.(cache_valid_until) then (c, c.(cached_now))
  else ({| cached_now := real_now;
           cache_valid_until := real_now + c.(cache_duration);
           cache_duration := c.(cache_duration) |}, real_now).

(** ** The scheduler *)

Record SchedulerStats := {
  total_checks : Z;                    (* u64 *)
  cache_hits : Z;                      (* u64 *)
  batch_checks : Z;                    (* u64 *)
  prediction_hits : Z;                 (* u64 *)
  total_check_duration : Duration;
  last_check_time : option Instant;
}.

Definition default_stats : SchedulerStats := {|
  total_checks := 0; cache_hits := 0; batch_checks := 0; prediction_hits := 0;
  total_check_duration := 0; last_check_time := None;
|}.

Record UnifiedTimeoutScheduler := {
  next_check_deadlines : gmap Z (list TimeoutSource);
  cached_unified_deadline : option (Instant * Instant);
  timeout_patterns : list TimeoutPattern;
  time_cache : TimeCache;
  stats : SchedulerStats;
}.

Definition new (now : Instant) : UnifiedTimeoutScheduler := {|
  next_check_deadlines := ∅;
  cached_unified_deadline := None;
  timeout_patterns := [];
  time_cache := time_cache_new now;
  stats := default_stats;
|}.

(** [recent_patterns.windows(2)] with the interval of each window *)
Fixpoint window_intervals (l : list TimeoutPattern) : list Duration :=
  match l with
  | p :: ((q :: _) as r) => saturating_sub q.(timestamp) p.(timestamp) :: window_intervals r
  | _ => []
  end.

Definition sum (l : list Duration) : Duration := foldr Z.add 0 l.

Definition predict_next_timeout (s : UnifiedTimeoutScheduler) (now : Instant) : option Instant :=
  if len s.(timeout_patterns) <? 3 then None else
  let recent_cutoff := now - from_secs 300 in
  let recent_patterns := filter (fun p => recent_cutoff < p.(timestamp)) s.(timeout_patterns) in
  if len recent_patterns <? 2 then None else
  let intervals := window_intervals recent_patterns in
  match intervals with
  | [] => None
  | _ =>
    let avg_interval := sum intervals / as_u32 (len intervals) in
    match last recent_patterns with
    | None => None
    | Some p =>
      let predicted := p.(timestamp) + avg_interval in
      if (now <? predicted) && (predicted <? now + from_secs 60) then Some predicted else None
    end
  end.

(** [iter().min()] *)
Definition min_deadline (l : list Instant) : option Instant :=
  match l with [] => None | d :: ds => Some (foldl Z.min d ds) end.

Definition calculate_unified_deadline (s : UnifiedTimeoutScheduler) (layers : list dyn_layer)
    (real_now check_start check_end : Instant) : UnifiedTimeoutScheduler * Instant :=
  let '(tc, now) := time_cache_now s.(time_cache) real_now in
  let st := s.(stats) in
  let checks := as_u64 (st.(total_checks) + 1) in
  let compute :=
    let layer_deadlines := omap dyn_next_deadline layers in
    let '(all_deadlines, hits) :=
      match predict_next_timeout s now with
      | Some predicted => (layer_deadlines ++ [predicted], as_u64 (st.(prediction_hits) + 1))
      | None => (layer_deadlines, st.(prediction_hits))
      end in
    let unified_deadline := default (now + from_millis 50) (min_deadline all_deadlines) in
    ({| next_check_deadlines := s.(next_check_deadlines);
        cached_unified_deadline := Some (now, unified_deadline);
        timeout_patterns := s.(timeout_patterns);
        time_cache := tc;
        stats := {| total_checks := checks; cache_hits := st.(cache_hits);
                    batch_checks := st.(batch_checks); prediction_hits := hits;
                    total_check_duration :=
                      st.(total_check_duration) + duration_since check_end check_start;
                    last_check_time := Some now |} |}, unified_deadline) in
  match s.(cached_unified_deadline) with
  | Some (computed_at, deadline) =>
    if duration_since now computed_at <? from_millis 1 then
      ({| next_check_deadlines := s.(next_check_deadlines);
          cached_unified_deadline := s.(cached_unified_deadline);
          timeout_patterns := s.(timeout_patterns);
          time_cache := tc;
          stats := {| total_checks := checks; cache_hits := as_u64 (st.(cache_hits) + 1);
                      batch_checks := st.(batch_checks); prediction_hits := st.(prediction_hits);
                      total_check_duration := st.(total_check_duration);
                      last_check_time := st.(last_check_time) |} |}, deadline)
    else compute
  | None => compute
  end.

Definition update_timeout_patterns (patterns : list TimeoutPattern) (now : Instant)
    (srcs : list TimeoutSource) : list TimeoutPattern :=
  let interval := match last patterns with
                  | Some l => duration_since now l.(timestamp)
                  | None => 0
                  end in
  let pushed := patterns ++ [{| timestamp := now; sources := srcs; interval := interval |}] in
  if 100 <? len pushed then drop 1 pushed else pushed.

(** The loop over the layers: the new layers and the results, in order. *)
Definition check_layers (layers : list dyn_layer) (now : Instant)
    : list dyn_layer * list TimeoutCheckResult :=
  let checked := map (fun l => dyn_check_timeout_events l now) layers in
  (checked.*1, checked.*2).

Definition detected_sources (results : list TimeoutCheckResult) : list TimeoutSource :=
  concat (map (fun r => map Connection r.(events)) results).

Definition check_unified_timeout_events (s : UnifiedTimeoutScheduler) (layers : list dyn_layer)
    (real_now check_start check_end : Instant)
    : UnifiedTimeoutScheduler * list dyn_layer * list TimeoutCheckResult :=
  let '(tc, now) := time_cache_now s.(time_cache) real_now in
  let '(layers', results) := check_layers layers now in
  let patterns := match detected_sources results with
                  | [] => s.(timeout_patterns)
                  | srcs => update_timeout_patterns s.(timeout_patterns) now srcs
                  end in
  let st := s.(stats) in
  ({| next_check_deadlines := s.(next_check_deadlines);
      cached_unified_deadline := s.(cached_unified_deadline);
      timeout_patterns := patterns;
      time_cache := tc;
      stats := {| total_checks := st.(total_checks); cache_hits := st.(cache_hits);
                  batch_checks := as_u64 (st.(batch_checks) + 1);
                  prediction_hits := st.(prediction_hits);
                  total_check_duration :=
                    st.(total_check_duration) + duration_since check_end check_start;
                  last_check_time := st.(last_check_time) |} |}, layers', results).

Definition cleanup_expired_data (s : UnifiedTimeoutScheduler) (now : Instant)
    : UnifiedTimeoutScheduler :=
  let cached := match s.(cached_unified_deadline) with
                | Some (computed_at, d) =>
                  if from_millis 5 <? duration_since now computed_at then None
                  else Some (computed_at, d)
                | None => None
                end in
  let cutoff := now - from_secs 3600 in
  let expired_keys := filter (fun k => k < now) (BTreeMap.keys s.(next_check_deadlines)) in
  {| next_check_deadlines := foldl (fun m k => delete k m) s.(next_check_deadlines) expired_keys;
     cached_unified_deadline := cached;
     timeout_patterns := filter (fun p => cutoff < p.(timestamp)) s.(timeout_patterns);
     time_cache := s.(time_cache);
     stats := s.(stats) |}.

Definition reset_stats (s : UnifiedTimeoutScheduler) : UnifiedTimeoutScheduler := {|
  next_check_deadlines := s.(next_check_deadlines);
  cached_unified_deadline := s.(cached_unified_deadline);
  timeout_patterns := s.(timeout_patterns);
  time_cache := s.(time_cache);
  stats := default_stats;
|}.

(** [Duration / u32] panics on a zero divisor. *)
Definition avg_check_duration (s : UnifiedTimeoutScheduler) : outcome Duration :=
  if s.(stats).(total_checks) =? 0 then Done 0
  else let n := as_u32 s.(stats).(total_checks) in
       if n =? 0 then Panic else Done (s.(stats).(total_check_duration) / n).

(** A run of the scheduler under a clock that does not go back: the state and
    the time of the last clock reading. *)
Inductive step : UnifiedTimeoutScheduler * Instant -> UnifiedTimeoutScheduler * Instant -> Prop :=
| step_calculate s t layers t1 t2 t3 :
    t <= t1 -> t1 <= t2 -> t2 <= t3 ->
    step (s, t) ((calculate_unified_deadline s layers t1 t2 t3).1, t3)
| step_check s t layers t1 t2 t3 :
    t <= t1 -> t1 <= t2 -> t2 <= t3 ->
    step (s, t) ((check_unified_timeout_events s layers t1 t2 t3).1.1, t3)
| step_cleanup s t t1 :
    t <= t1 -> step (s, t) (cleanup_expired_data s t1, t1)
| step_reset s t : step (s, t) (reset_stats s, t).

Definition reachable (st : UnifiedTimeoutScheduler * Instant) : Prop :=
  exists t0, rtc step (new t0, t0) st.

(** ** Minimum of the deadlines *)

Lemma foldl_min_le l d : foldl Z.min d l <= d /\ forall x, x ∈ l -> foldl Z.min d l <= x.
Proof.
  revert d. induction l as [|y l IH]; intros d; simpl.
  - split; [lia|]. intros x H. by apply elem_of_nil in H.
  - destruct (IH (Z.min d y)) as [H1 H2]. split; [lia|].
    intros x [->|H]%elem_of_cons; [lia|auto].
Qed.

Lemma foldl_min_in l d : foldl Z.min d l ∈ d :: l.
Proof.
  revert d. induction l as [|y l IH]; intros d; simpl; [left|].
  specialize (IH (Z.min d y)). apply elem_of_cons in IH as [IH|IH].
  - rewrite IH. destruct (Z.min_spec d y) as [[_ ->]|[_ ->]]; [left|right; left].
  - right. by right.
Qed.

Lemma min_deadline_spec l m :
  min_deadline l = Some m <-> m ∈ l /\ forall x, x ∈ l -> m <= x.
Proof.
  destruct l as [|d l]; simpl.
  - split; [done|]. intros [H _]. by apply elem_of_nil in H.
  - destruct (foldl_min_le l d) as [H1 H2]. pose proof (foldl_min_in l d) as H3. split.
    + intros [= <-]. split; [done|]. intros x [->|?]%elem_of_cons; auto.
    + intros [Hm Hle]. f_equal. apply Z.le_antisymm; [|by apply Hle].
      apply elem_of_cons in Hm as [->|?]; auto.
Qed.

(** ** Prediction *)

Lemma predict_range s now p :
  predict_next_timeout s now = Some p -> now < p < now + from_secs 60.
Proof.
  unfold predict_next_timeout. intros H. repeat case_match_in H.
  injection H as <-.
  match goal with E : (_ <? _) && _ = true |- _ => apply andb_true_iff in E as [?%Z.ltb_lt ?%Z.ltb_lt] end.
  done.
Qed.

(** Timestamps in order of registration. *)
Definition chronological (l : list TimeoutPattern) : Prop :=
  StronglySorted Z.le (map timestamp l).

Lemma sum_windows p l :
  chronological (p :: l) ->
  sum (window_intervals (p :: l)) = timestamp (default p (last (p :: l))) - timestamp p.
Proof.
  unfold chronological. revert p. induction l as [|q l IH]; intros p H; [simpl; lia|].
  change (window_intervals (p :: q :: l)) with
    (saturating_sub q.(timestamp) p.(timestamp) :: window_intervals (q :: l)).
  change (map timestamp (p :: q :: l)) with (timestamp p :: timestamp q :: map timestamp l) in H.
  apply StronglySorted_inv in H as [H1 H2]. cbn [sum foldr].
  change (foldr Z.add 0 (window_intervals (q :: l))) with (sum (window_intervals (q :: l))).
  rewrite (IH q H1). apply Forall_inv in H2.
  assert (E : last (p :: q :: l) = last (q :: l)) by done. rewrite E.
  assert (exists z, last (q :: l) = Some z) as [z ->].
  { destruct (last (q :: l)) eqn:E'; [eauto|]. by apply last_None in E'. }
  simpl. unfold saturating_sub. lia.
Qed.

Lemma length_windows l : length (window_intervals l) = pred (length l).
Proof. induction l as [|p [|q l] IH]; [done..|]. simpl in *. by rewrite IH. Qed.

Lemma chronological_filter (P : TimeoutPattern -> Prop) `{!forall x, Decision (P x)} l :
  chronological l -> chronological (filter P l).
Proof.
  unfold chronological. induction l as [|p l IH]; intros Hl; [done|]. simpl in Hl.
  apply StronglySorted_inv in Hl as [H1 H2]. rewrite filter_cons. case_decide; [|auto].
  simpl. constructor; [auto|]. apply Forall_forall. intros x Hx.
  rewrite Forall_forall in H2. apply H2. apply list_elem_of_fmap_1 in Hx as (y & -> & Hy).
  apply list_elem_of_fmap_2. by apply list_elem_of_filter in Hy as [_ Hy].
Qed.

(** ** Invariant of the scheduler *)

Record valid (s : UnifiedTimeoutScheduler) (clock : Instant) : Prop := {
  valid_len : len s.(timeout_patterns) <= 100;
  valid_order : chronological s.(timeout_patterns);
  valid_past : Forall (fun p => p.(timestamp) <= s.(time_cache).(cached_now)) s.(timeout_patterns);
  valid_duration : s.(time_cache).(cache_duration) = from_millis 1;
  valid_cached_now : s.(time_cache).(cached_now) <= clock;
  valid_until : s.(time_cache).(cache_valid_until) <= s.(time_cache).(cached_now) + from_millis 1;
  valid_deadline : forall t d, s.(cached_unified_deadline) = Some (t, d) ->
    t <= s.(time_cache).(cached_now);
  valid_map : s.(next_check_deadlines) = ∅;
}.

(** What the time cache returns: at most a millisecond old, and never earlier
    than what it returned before. *)
Lemma time_cache_spec c real tc now :
  c.(cache_duration) = from_millis 1 ->
  c.(cached_now) <= real ->
  c.(cache_valid_until) <= c.(cached_now) + from_millis 1 ->
  time_cache_now c real = (tc, now) ->
  tc.(cached_now) = now /\ c.(cached_now) <= now /\ real - from_millis 1 < now <= real /\
  tc.(cache_duration) = from_millis 1 /\ tc.(cache_valid_until) <= now + from_millis 1.
Proof.
  unfold time_cache_now, from_millis. intros H1 H2 H3 H.
  destruct (Z.ltb_spec real c.(cache_valid_until)); injection H as <- <-; simpl;
    split_and!; lia.
Qed.

Lemma chronological_app l now srcs i :
  chronological l -> Forall (fun p => p.(timestamp) <= now) l ->
  chronological (l ++ [{| timestamp := now; sources := srcs; interval := i |}]).
Proof.
  unfold chronological. intros H HF. rewrite map_app. simpl.
  induction l as [|p l IH]; simpl in *; [repeat constructor|].
  apply StronglySorted_inv in H as [H1 H2]. apply Forall_cons in HF as [HF1 HF2].
  constructor; [auto|]. apply Forall_app. split; [done|]. by constructor.
Qed.

Lemma update_timeout_patterns_valid l now srcs :
  len l <= 100 -> chronological l -> Forall (fun p => p.(timestamp) <= now) l ->
  let l' := update_timeout_patterns l now srcs in
  len l' <= 100 /\ chronological l' /\ Forall (fun p => p.(timestamp) <= now) l'.
Proof.
  intros HL HC HF l'. unfold l', update_timeout_patterns. clear l'.
  set (i := match last l with Some _ => _ | None => _ end). clearbody i.
  set (q := {| timestamp := now; sources := srcs; interval := i |}).
  assert (HC' : chronological (l ++ [q])) by by apply chronological_app.
  assert (HF' : Forall (fun p => p.(timestamp) <= now) (l ++ [q])).
  { apply Forall_app. split; [done|]. constructor; [simpl; lia|constructor]. }
  assert (HL' : len (l ++ [q]) = len l + 1) by (rewrite len_app; done).
  destruct (Z.ltb_spec 100 (len (l ++ [q]))); [|split_and!; [lia|done..]].
  destruct (l ++ [q]) as [|p r]; [done|]. rewrite len_cons in *.
  apply StronglySorted_inv in HC' as [HC' _]. apply Forall_cons in HF' as [_ HF'].
  simpl. rewrite drop_0. split_and!; [lia|done..].
Qed.

Lemma scheduler_step_valid s t s' t' : step (s, t) (s', t') -> valid s t -> valid s' t'.
Proof.
  intros H [V1 V2 V3 V4 V5 V6 V7 V8].
  inversion H as [? ? layers t1 t2 t3 L1 L2 L3|? ? layers t1 t2 t3 L1 L2 L3|? ? t1 L1|]; subst.
  - unfold calculate_unified_deadline.
    destruct (time_cache_now _ t1) as [tc now] eqn:E.
    apply time_cache_spec in E as (E1 & E2 & E3 & E4 & E5); [|done|lia|done].
    assert (P : Forall (fun p => p.(timestamp) <= tc.(cached_now)) s.(timeout_patterns)).
    { eapply Forall_impl; [done|]. simpl; lia. }
    destruct (cached_unified_deadline s) as [[ca d]|] eqn:E'; [case_match|];
      destruct (predict_next_timeout s now); split; simpl; try done; try lia;
      intros ta d0 [= <- <-]; try lia; specialize (V7 _ _ eq_refl); lia.
  - unfold check_unified_timeout_events.
    destruct (time_cache_now _ t1) as [tc now] eqn:E.
    apply time_cache_spec in E as (E1 & E2 & E3 & E4 & E5); [|done|lia|done].
    assert (P : Forall (fun p => p.(timestamp) <= now) s.(timeout_patterns)).
    { eapply Forall_impl; [done|]. simpl; lia. }
    destruct (update_timeout_patterns_valid _ now (detected_sources (check_layers layers now).2) V1 V2 P)
      as (U1 & U2 & U3).
    destruct (check_layers layers now) as [ls rs]; simpl in *.
    destruct (detected_sources rs); split; simpl; rewrite ?E1; try done; try lia;
      intros ta d0 E0; specialize (V7 _ _ E0); lia.
  - split; simpl; try done; try lia.
    + assert (HL := length_filter (fun p => t' - from_secs 3600 < timestamp p) s.(timeout_patterns)).
      unfold len in *. lia.
    + by apply chronological_filter.
    + apply Forall_forall. intros p [_ Hp]%list_elem_of_filter. rewrite Forall_forall in V3. auto.
    + intros ta d0 E0. repeat case_match; simplify_eq. by eapply V7.
    + rewrite V8. done.
  - by split.
Qed.

Lemma new_valid t : valid (new t) t.
Proof. split; simpl; unfold from_millis; try done; try lia; constructor. Qed.

Lemma reachable_valid s t : reachable (s, t) -> valid s t.
Proof.
  intros [t0 H]. apply (rtc_preserves _ (fun st => valid st.1 st.2)) in H; [done|..].
  - intros [s1 t1] [s2 t2]. apply scheduler_step_valid.
  - apply new_valid.
Qed.

(** ** What the scheduler computes *)

(** The deadlines among which the next wakeup is chosen. *)
Definition candidates (s : UnifiedTimeoutScheduler) (layers : list dyn_layer) (now : Instant)
    : list Instant :=
  omap dyn_next_deadline layers ++ option_list (predict_next_timeout s now).

(** The wakeup the scheduler computes is at or before the deadline of
    every layer: it is the least of the layers' deadlines and the prediction
    (50 ms when there is none), taken at a time that lags the clock by less
    than a millisecond.  The only other answer is the previous one, and that
    was computed less than two milliseconds ago. *)
Theorem unified_deadline_spec s t layers t1 t2 t3 s' d :
  reachable (s, t) -> t <= t1 ->
  calculate_unified_deadline s layers t1 t2 t3 = (s', d) ->
  (exists at_, s.(cached_unified_deadline) = Some (at_, d) /\
     s'.(cached_unified_deadline) = s.(cached_unified_deadline) /\
     at_ <= t1 < at_ + from_millis 2) \/
  (exists now, t1 - from_millis 1 < now <= t1 /\
     s'.(cached_unified_deadline) = Some (now, d) /\
     (forall l dl, l ∈ layers -> dyn_next_deadline l = Some dl -> d <= dl) /\
     (d ∈ candidates s layers now /\ (forall x, x ∈ candidates s layers now -> d <= x) \/
      candidates s layers now = [] /\ d = now + from_millis 50)).
Proof.
  intros R L H. apply reachable_valid in R as [_ _ _ V4 V5 V6 V7 _].
  unfold calculate_unified_deadline in H.
  destruct (time_cache_now _ t1) as [tc now] eqn:E.
  apply time_cache_spec in E as (_ & _ & E3 & _ & _); [|done|lia|done].
  match type of H with (match ?c with _ => _ end) = _ =>
    set (cd := c) in H; assert (EC : s.(cached_unified_deadline) = cd) by done end.
  assert (K : forall deadlines,
    deadlines = candidates s layers now ->
    d = default (now + from_millis 50) (min_deadline deadlines) ->
    s'.(cached_unified_deadline) = Some (now, d) ->
    exists now0, t1 - from_millis 1 < now0 <= t1 /\
     s'.(cached_unified_deadline) = Some (now0, d) /\
     (forall l dl, l ∈ layers -> dyn_next_deadline l = Some dl -> d <= dl) /\
     (d ∈ candidates s layers now0 /\ (forall x, x ∈ candidates s layers now0 -> d <= x) \/
      candidates s layers now0 = [] /\ d = now0 + from_millis 50)).
  { intros ds -> D1 D2. exists now. split; [done|]. split; [done|].
    assert (HM : forall m, min_deadline (candidates s layers now) = Some m -> d = m).
    { intros m Em. rewrite D1, Em. done. }
    destruct (min_deadline (candidates s layers now)) as [m|] eqn:Em.
    - rewrite (HM m eq_refl). apply min_deadline_spec in Em as [M1 M2]. split; [|by left].
      intros l dl Hl Hd. apply M2. apply elem_of_app. left.
      apply list_elem_of_omap. eauto.
    - assert (candidates s layers now = []) as EN by (by destruct (candidates s layers now)).
      split; [|by right]. intros l dl Hl Hd. exfalso. apply (not_elem_of_nil dl).
      rewrite <- EN. apply elem_of_app. left. apply list_elem_of_omap. eauto. }
  unfold candidates in K. destruct cd as [[ca d0]|]; [destruct (Z.ltb_spec (duration_since now ca) (from_millis 1)) as [HC|HC]|].
  - left. injection H as <- <-. exists ca. specialize (V7 _ _ EC).
    unfold duration_since, saturating_sub, from_millis in *. simpl. split_and!; try done; lia.
  - right. destruct (predict_next_timeout s now); injection H as <- <-; eapply K; try done.
    simpl. by rewrite app_nil_r.
  - right. destruct (predict_next_timeout s now); injection H as <- <-; eapply K; try done.
    simpl. by rewrite app_nil_r.
Qed.

(** A layer with a fixed deadline and a list of pending events. *)
#[local] Instance pending_layer : TimeoutLayer (option Instant * list TimeoutEvent) := {
  next_deadline l := l.1;
  check_timeout_events l _ := ((l.1, []), {| events := l.2 |});
}.

Lemma unified_deadline_spec_witness :
  let layers := [Dyn (Some 7000000, []); Dyn (None, []); Dyn (Some 5000000, [])] in
  let r := calculate_unified_deadline (new 0) layers 10 11 12 in
  r.2 = 5000000 /\ forall l dl, l ∈ layers -> dyn_next_deadline l = Some dl -> r.2 <= dl.
Proof.
  simpl. split; [vm_compute; reflexivity|].
  destruct (unified_deadline_spec (new 0) 0
    [Dyn (Some 7000000, []); Dyn (None, []); Dyn (Some 5000000, [])] 10 11 12 _ _
    ltac:(exists 0; apply rtc_refl) ltac:(lia) eq_refl) as [(a & A & _)|(n & _ & _ & A & _)].
  - discriminate A.
  - exact A.
Defined.

(** Whatever the order of computations, checks and cleanups, the history
    of timeouts never holds more than a hundred patterns and is in the order of
    their times, none of which lies in the future; the same is true of the
    time at which the cached deadline was computed. *)
Theorem scheduler_history_bounded s t :
  reachable (s, t) ->
  len s.(timeout_patterns) <= 100 /\ chronological s.(timeout_patterns) /\
  Forall (fun p => p.(timestamp) <= t) s.(timeout_patterns) /\
  (forall at_ d, s.(cached_unified_deadline) = Some (at_, d) -> at_ <= t) /\
  s.(next_check_deadlines) = ∅.
Proof.
  intros H. apply reachable_valid in H as [V1 V2 V3 _ V5 _ V7 V8]. split_and!; try done.
  - eapply Forall_impl; [done|]. simpl; lia.
  - intros at_ d E. specialize (V7 _ _ E). lia.
Qed.

Lemma scheduler_history_bounded_witness :
  let s := (check_unified_timeout_events (new 0) [Dyn (None, [IdleTimeout])] 3 4 5).1.1 in
  len s.(timeout_patterns) = 1 /\ chronological s.(timeout_patterns).
Proof.
  split; [reflexivity|].
  apply (scheduler_history_bounded
    (check_unified_timeout_events (new 0) [Dyn (None, [IdleTimeout])] 3 4 5).1.1 5).
  exists 0. eapply rtc_l; [|apply rtc_refl]. apply (step_check (new 0) 0); lia.
Defined.

(** A check of all layers checks each one once, in order and at the same
    time, which lags the clock by less than a millisecond; it records at most
    one pattern, with all events of all layers, and only when there is one. *)
Theorem check_unified_spec s t layers t1 t2 t3 s' layers' results :
  reachable (s, t) -> t <= t1 ->
  check_unified_timeout_events s layers t1 t2 t3 = (s', layers', results) ->
  exists now, t1 - from_millis 1 < now <= t1 /\
    Forall2 (fun l lr => dyn_check_timeout_events l now = lr) layers (zip layers' results) /\
    length layers' = length layers /\ length results = length layers /\
    match concat (map events results) with
    | [] => s'.(timeout_patterns) = s.(timeout_patterns)
    | evs => exists p, last s'.(timeout_patterns) = Some p /\ p.(timestamp) = now /\
             p.(sources) = map Connection evs
    end.
Proof.
  intros R L H. apply reachable_valid in R as [V1 _ _ V4 V5 V6 _ _].
  unfold check_unified_timeout_events in H.
  destruct (time_cache_now _ t1) as [tc now] eqn:E.
  apply time_cache_spec in E as (_ & _ & E3 & _ & _); [|done|lia|done].
  exists now. split; [done|].
  destruct (check_layers layers now) as [ls rs] eqn:EL. injection H as <- <- <-. simpl.
  unfold check_layers in EL. injection EL as <- <-.
  assert (ED : forall rs, detected_sources rs = map Connection (concat (map events rs))).
  { intros rs. unfold detected_sources. induction rs as [|r rs IH]; [done|]. simpl.
    by rewrite map_app, IH. }
  split_and!.
  - induction layers as [|l layers IH]; simpl; constructor; [by destruct dyn_check_timeout_events|done].
  - by rewrite length_fmap, length_map.
  - by rewrite length_fmap, length_map.
  - rewrite ED. destruct (concat _) as [|e es]; [done|]. simpl.
    unfold update_timeout_patterns. set (q := {| timestamp := now; sources := _; interval := _ |}).
    exists q. split; [|done]. destruct (Z.ltb_spec 100 (len (timeout_patterns s ++ [q]))) as [HL|HL].
    + destruct (timeout_patterns s) as [|p r]; [done|]. simpl. rewrite drop_0. apply last_snoc.
    + apply last_snoc.
Qed.

Lemma check_unified_spec_witness :
  let layers := [Dyn (None, [IdleTimeout]); Dyn (None, []); Dyn (None, [RetransmissionTimeout])] in
  let r := check_unified_timeout_events (new 0) layers 3 4 5 in
  map events r.2 = [[IdleTimeout]; []; [RetransmissionTimeout]] /\
  exists p, last r.1.1.(timeout_patterns) = Some p /\
    p.(sources) = [Connection IdleTimeout; Connection RetransmissionTimeout].
Proof.
  simpl. split; [reflexivity|].
  destruct (check_unified_spec (new 0) 0
    [Dyn (None, [IdleTimeout]); Dyn (None, []); Dyn (None, [RetransmissionTimeout])]
    3 4 5 _ _ _ ltac:(exists 0; apply rtc_refl) ltac:(lia) eq_refl)
    as (now & _ & _ & _ & _ & p & P1 & _ & P2).
  exists p. split; [exact P1|exact P2].
Defined.

(** A prediction extrapolates the timeouts of the last five minutes: it is
    the last of them plus the mean distance between the first and the last,
    and it lies within the next minute. *)
Theorem prediction_extrapolates s t now p :
  reachable (s, t) -> predict_next_timeout s now = Some p ->
  let recent := filter (fun x => now - from_secs 300 < x.(timestamp)) s.(timeout_patterns) in
  exists a b rest, recent = a :: rest /\ last rest = Some b /\
    p = b.(timestamp) + (b.(timestamp) - a.(timestamp)) / len rest /\
    now < p < now + from_secs 60.
Proof.
  intros R H recent. pose proof (predict_range _ _ _ H) as HR.
  apply reachable_valid in R as [V1 V2 _ _ _ _ _ _].
  assert (C : chronological recent) by by apply chronological_filter.
  assert (B : len recent <= 100).
  { pose proof (length_filter (fun x => now - from_secs 300 < x.(timestamp)) s.(timeout_patterns)).
    unfold recent, len in *. lia. }
  unfold predict_next_timeout in H. fold recent in H. clearbody recent.
  case_match_in H. case_match_in H. apply Z.ltb_ge in E0.
  destruct recent as [|a [|b rest]]; [done..|].
  pose proof (sum_windows a (b :: rest) C) as ES.
  assert (EN : len (window_intervals (a :: b :: rest)) = len (b :: rest)).
  { unfold len. by rewrite length_windows. }
  set (W := window_intervals (a :: b :: rest)) in *. clearbody W.
  assert (EL' : last (a :: b :: rest) = last (b :: rest)) by done.
  destruct (last (a :: b :: rest)) as [z|] eqn:EL; [|by destruct W].
  exists a, z, (b :: rest). split; [done|]. split; [done|]. split; [|done].
  rewrite EN, ES in H. rewrite !len_cons in *. pose proof (len_nonneg rest).
  rewrite as_u32_id in H by (unfold u32_ok; lia).
  destruct W; [done|]. case_match_in H. by injection H as <-.
Qed.

Lemma prediction_extrapolates_witness :
  let check s t :=
    (check_unified_timeout_events s [Dyn (None, [IdleTimeout])] t t t).1.1 in
  let s := check (check (check (new 0) (from_secs 1)) (from_secs 3)) (from_secs 7) in
  predict_next_timeout s (from_secs 8) = Some (from_secs 10) /\
  from_secs 8 < from_secs 10 < from_secs 8 + from_secs 60.
Proof.
  intros check s. split; [vm_compute; reflexivity|].
  assert (K : forall s t t', t <= t' -> step (s, t) (check s t', t')).
  { intros s0 t t' L. apply (step_check s0 t [Dyn (None, [IdleTimeout])] t' t' t'); [done|lia..]. }
  destruct (prediction_extrapolates s (from_secs 7) (from_secs 8) (from_secs 10))
    as (a & b & rest & _ & _ & _ & H); [|vm_compute; reflexivity|exact H].
  exists 0. eapply rtc_l; [apply (K _ _ (from_secs 1)); done|].
  eapply rtc_l; [apply (K _ _ (from_secs 3)); done|].
  eapply rtc_l; [apply (K _ _ (from_secs 7)); done|apply rtc_refl].
Defined.

(** The average check duration panics, with a division by zero, exactly
    when the number of checks is a non-zero multiple of 2^32. *)
Theorem avg_check_duration_panics s :
  avg_check_duration s = Panic <->
  s.(stats).(total_checks) <> 0 /\ s.(stats).(total_checks) mod 2 ^ 32 = 0.
Proof.
  unfold avg_check_duration, as_u32.
  destruct (Z.eqb_spec s.(stats).(total_checks) 0) as [->|]; [split; [done|tauto]|].
  destruct (Z.eqb_spec (s.(stats).(total_checks) mod 2 ^ 32) 0); split; try done; tauto.
Qed.

End UnifiedScheduler.
