(* ===== verification/TimerTask.v ===== *)
(** * Global timer task

    Models [src/timer/event.rs] (timer events and their creation through
    [EventFactory] of [event/traits.rs]) and [src/timer/task/global.rs] with
    the types of [task/types.rs] and [task/commands.rs]: the task that owns the
    timing wheel, the two tables that relate timers to connections, and its
    commands.  A channel sender is an element of the type [Tx]; firing a timer
    yields the pair of its sender and the event it sends.  The order in which
    the code iterates a [HashMap] or [HashSet] is an argument where the wheel
    can see it. *)

From S2P Require Import Prelude BTreeMap TimingWheel WheelBatch.

Module TimerEvent.

Section event.
Context {E Tx : Type}.

Record TimerEventData := {
  connection_id : Z;                   (* u32 *)
  timeout_event : E;
}.

Record TimerEvent := {
  id : Z;                              (* TimerEventId = u64 *)
  data : TimerEventData;
  callback_tx : Tx;
}.

(** [EventFactory::create_event] and [batch_create_events]; both strategies
    build the value directly. *)
Definition create_event (connection_id : Z) (timeout_event : E) : TimerEventData :=
  {| connection_id := connection_id; timeout_event := timeout_event |}.

Definition batch_create_events (requests : list (Z * E)) : list TimerEventData :=
  map (fun r => create_event r.1 r.2) requests.

Definition from_factory (id connection_id : Z) (timeout_event : E) (callback_tx : Tx) : TimerEvent :=
  {| id := id; data := create_event connection_id timeout_event; callback_tx := callback_tx |}.

(** Panics when the two slices differ in length. *)
Definition batch_from_factory (start_id : Z) (requests : list (Z * E)) (callback_txs : list Tx)
    : outcome (list TimerEvent) :=
  if (length requests =? length callback_txs)%nat then
    Done (imap (fun index x => {| id := as_u64 (start_id + Z.of_nat index);
                                  data := x.1; callback_tx := x.2 |})
               (zip (batch_create_events requests) callback_txs))
  else Panic.

(** What [trigger_with_factory] sends and to whom; a failed send is logged. *)
Definition trigger_with_factory (e : TimerEvent) : Tx * TimerEventData :=
  (e.(callback_tx), create_event e.(data).(connection_id) e.(data).(timeout_event)).

End event.

Arguments TimerEventData : clear implicits.
Arguments TimerEvent : clear implicits.

End TimerEvent.

Module GlobalTimerTask.
Import TimingWheel WheelBatch.

Section task.
Context {Ev Tx : Type} {wide : Wide}.

Record TimerRegistration := {
  connection_id : Z;
  delay : Duration;
  timeout_event : Ev;
  callback_tx : Tx;
}.

Inductive TimerError := TaskShutdown | ChannelError | TimerNotFound.

Record BatchTimerResult (T : Type) := {
  successes : list T;
  failures : list (nat * TimerError);
}.

Arguments successes {T} _.
Arguments failures {T} _.

Record TimerTaskStats := {
  total_timers : nat;
  active_connections : nat;
  processed_timers : Z;                (* u64 *)
  cancelled_timers : Z;                (* u64 *)
  wheel_stats : TimingWheelStats;
}.

Abbreviation Event := (TimerEvent.TimerEvent Ev Tx).
Abbreviation Wheel := (TimingWheel Event).

(** The channels, the event factory and the reusable buffers carry no state. *)
Record GlobalTimerTask := {
  timing_wheel : Wheel;
  connection_timers : gmap Z (gset Z);
  entry_to_connection : gmap Z Z;
  next_event_id : Z;                   (* u64 *)
  stats : TimerTaskStats;
}.

Implicit Types (t : GlobalTimerTask) (r : TimerRegistration) (ct : gmap Z (gset Z)).

Definition new (now : Instant) : outcome GlobalTimerTask :=
  match TimingWheel.new 512 (from_millis 10) now with
  | Done wheel =>
    Done {| timing_wheel := wheel; connection_timers := ∅; entry_to_connection := ∅;
            next_event_id := 1;
            stats := {| total_timers := 0; active_connections := 0; processed_timers := 0;
                        cancelled_timers := 0; wheel_stats := WheelBatch.stats wheel |} |}
  | Panic => Panic
  end.

(** [self.stats.cancelled_timers += n] *)
Definition add_cancelled (s : TimerTaskStats) (n : Z) : TimerTaskStats := {|
  total_timers := s.(total_timers); active_connections := s.(active_connections);
  processed_timers := s.(processed_timers);
  cancelled_timers := as_u64 (s.(cancelled_timers) + n); wheel_stats := s.(wheel_stats) |}.

(** [connection_timers.entry(c).or_default().insert(i)] *)
Definition insert_entry ct (c i : Z) : gmap Z (gset Z) :=
  <[c := {[i]} ∪ default ∅ (ct !! c)]> ct.

(** Removal of entries from the set of a connection, and of the connection
    when its set is empty. *)
Definition remove_entries ct (c : Z) (ids : list Z) : gmap Z (gset Z) :=
  match ct !! c with
  | Some entry_ids =>
    let entry_ids' := fold_left (fun s i => s ∖ {[i]}) ids entry_ids in
    if bool_decide (entry_ids' = ∅) then delete c ct else <[c := entry_ids']> ct
  | None => ct
  end.

(** The loop over a map from connections to the entries to remove; it does not
    depend on the order of the map. *)
Definition remove_by_connection ct (updates : gmap Z (list Z)) : gmap Z (gset Z) :=
  fold_left (fun ct x => remove_entries ct x.1 x.2) (map_to_list updates) ct.

(** [updates.entry(c).or_default().push(i)] *)
Definition push_update (updates : gmap Z (list Z)) (c i : Z) : gmap Z (list Z) :=
  <[c := default [] (updates !! c) ++ [i]]> updates.

Definition register_timer t r : GlobalTimerTask * Z :=
  let event := TimerEvent.from_factory t.(next_event_id) r.(connection_id) r.(timeout_event)
                 r.(callback_tx) in
  let '(wheel, entry_id) := add_timer t.(timing_wheel) r.(delay) event in
  ({| timing_wheel := wheel;
      connection_timers := insert_entry t.(connection_timers) r.(connection_id) entry_id;
      entry_to_connection := <[entry_id := r.(connection_id)]> t.(entry_to_connection);
      next_event_id := as_u64 (t.(next_event_id) + 1);
      stats := t.(stats) |}, entry_id).

(** The loop over the new entries of a batch. *)
Definition record_entries (tables : gmap Z (gset Z) * gmap Z Z) (entries : list (Z * Z))
    : gmap Z (gset Z) * gmap Z Z :=
  fold_left (fun tb x => (insert_entry tb.1 x.2 x.1, <[x.1 := x.2]> tb.2)) entries tables.

Definition batch_register_timers t (registrations : list TimerRegistration) (order : list nat)
    : outcome (GlobalTimerTask * BatchTimerResult Z) :=
  match registrations with
  | [] => Done (t, {| successes := []; failures := [] |})
  | _ =>
    let total_count := Z.of_nat (length registrations) in
    match TimerEvent.batch_from_factory t.(next_event_id)
            (map (fun r => (r.(connection_id), r.(timeout_event))) registrations)
            (map callback_tx registrations) with
    | Panic => Panic
    | Done timer_events =>
      let pairs := zip timer_events registrations in
      let '(wheel, entry_ids) :=
        batch_add_timers t.(timing_wheel) (map (fun x => (x.2.(delay), x.1)) pairs) order in
      let entries := zip entry_ids (map (fun x => x.2.(connection_id)) pairs) in
      let '(ct, e2c) := record_entries (t.(connection_timers), t.(entry_to_connection)) entries in
      Done ({| timing_wheel := wheel; connection_timers := ct; entry_to_connection := e2c;
               next_event_id := as_u64 (t.(next_event_id) + total_count);
               stats := t.(stats) |},
            {| successes := entries.*1; failures := [] |})
    end
  end.

(** The loop of [batch_cancel_timers] over the ids. *)
Fixpoint cancel_mappings (index : nat) (entry_ids : list Z) (e2c : gmap Z Z)
    (updates : gmap Z (list Z)) (result : BatchTimerResult bool)
    : gmap Z Z * gmap Z (list Z) * BatchTimerResult bool :=
  match entry_ids with
  | [] => (e2c, updates, result)
  | entry_id :: entry_ids =>
    match e2c !! entry_id with
    | Some c =>
      cancel_mappings (S index) entry_ids (delete entry_id e2c) (push_update updates c entry_id)
        {| successes := result.(successes) ++ [true]; failures := result.(failures) |}
    | None =>
      cancel_mappings (S index) entry_ids e2c updates
        {| successes := result.(successes);
           failures := result.(failures) ++ [(index, TimerNotFound)] |}
    end
  end.

Definition batch_cancel_timers t (entry_ids : list Z) (order : list nat)
    : GlobalTimerTask * BatchTimerResult bool :=
  match entry_ids with
  | [] => (t, {| successes := []; failures := [] |})
  | _ =>
    let '(wheel, _) := WheelBatch.batch_cancel_timers t.(timing_wheel) entry_ids order in
    let '(e2c, updates, result) :=
      cancel_mappings 0 entry_ids t.(entry_to_connection) ∅ {| successes := []; failures := [] |} in
    ({| timing_wheel := wheel;
        connection_timers := remove_by_connection t.(connection_timers) updates;
        entry_to_connection := e2c; next_event_id := t.(next_event_id);
        stats := add_cancelled t.(stats) (len result.(successes)) |}, result)
  end.

Definition cancel_timer t (entry_id : Z) : GlobalTimerTask * bool :=
  let '(wheel, cancelled) := TimingWheel.cancel_timer t.(timing_wheel) entry_id in
  if cancelled then
    let '(ct, e2c) :=
      match t.(entry_to_connection) !! entry_id with
      | Some c => (remove_entries t.(connection_timers) c [entry_id],
                   delete entry_id t.(entry_to_connection))
      | None => (t.(connection_timers), t.(entry_to_connection))
      end in
    ({| timing_wheel := wheel; connection_timers := ct; entry_to_connection := e2c;
        next_event_id := t.(next_event_id); stats := add_cancelled t.(stats) 1 |}, true)
  else
    ({| timing_wheel := wheel; connection_timers := t.(connection_timers);
        entry_to_connection := t.(entry_to_connection);
        next_event_id := t.(next_event_id); stats := t.(stats) |}, false).

(** The loop of [clear_connection_timers] over the ids of the connection. *)
Definition clear_entry (st : Wheel * gmap Z Z * Z) (entry_id : Z) : Wheel * gmap Z Z * Z :=
  let '(wheel, e2c, count) := st in
  let '(wheel', cancelled) := TimingWheel.cancel_timer wheel entry_id in
  if cancelled then (wheel', delete entry_id e2c, count + 1) else (wheel', e2c, count).

(** [order] is the order in which the set of the connection is iterated. *)
Definition clear_connection_timers t (connection_id : Z) (order : list Z) : GlobalTimerTask * Z :=
  match t.(connection_timers) !! connection_id with
  | Some _ =>
    let '(wheel, e2c, count) :=
      fold_left clear_entry order (t.(timing_wheel), t.(entry_to_connection), 0) in
    ({| timing_wheel := wheel;
        connection_timers := delete connection_id t.(connection_timers);
        entry_to_connection := e2c; next_event_id := t.(next_event_id);
        stats := add_cancelled t.(stats) count |}, count)
  | None => (t, 0)
  end.

(** The expired ids of each connection. *)
Definition expired_by_connection (e2c : gmap Z Z) (expired : list (TimerEntry Event))
    : gmap Z (list Z) :=
  fold_left (fun upd e => match e2c !! e.(TimingWheel.id) with
                          | Some c => push_update upd c e.(TimingWheel.id)
                          | None => upd
                          end) expired ∅.

Definition advance_timing_wheel t (now : Instant)
    : GlobalTimerTask * list (Tx * TimerEvent.TimerEventData Ev) :=
  let '(wheel, expired_timers) := advance t.(timing_wheel) now in
  match expired_timers with
  | [] => ({| timing_wheel := wheel; connection_timers := t.(connection_timers);
              entry_to_connection := t.(entry_to_connection);
              next_event_id := t.(next_event_id); stats := t.(stats) |}, [])
  | _ =>
    let updates := expired_by_connection t.(entry_to_connection) expired_timers in
    let e2c := fold_left (fun m e => delete e.(TimingWheel.id) m) expired_timers
                 t.(entry_to_connection) in
    let s := t.(stats) in
    ({| timing_wheel := wheel;
        connection_timers := remove_by_connection t.(connection_timers) updates;
        entry_to_connection := e2c; next_event_id := t.(next_event_id);
        stats := {| total_timers := s.(total_timers); active_connections := s.(active_connections);
                    processed_timers := as_u64 (s.(processed_timers) + len expired_timers);
                    cancelled_timers := s.(cancelled_timers);
                    wheel_stats := s.(wheel_stats) |} |},
     map (fun e => TimerEvent.trigger_with_factory e.(event)) expired_timers)
  end.

Definition update_stats t : GlobalTimerTask := {|
  timing_wheel := t.(timing_wheel); connection_timers := t.(connection_timers);
  entry_to_connection := t.(entry_to_connection); next_event_id := t.(next_event_id);
  stats := {| total_timers := timer_count t.(timing_wheel);
              active_connections := size t.(connection_timers);
              processed_timers := t.(stats).(processed_timers);
              cancelled_timers := t.(stats).(cancelled_timers);
              wheel_stats := WheelBatch.stats t.(timing_wheel) |} |}.

Definition calculate_advance_interval t : Duration :=
  let n := timer_count t.(timing_wheel) in
  from_millis (if (n <? 100)%nat then 100 else if (n <? 1000)%nat then 50
               else if (n <? 5000)%nat then 20 else 10).

Definition with_wheel t wheel : GlobalTimerTask := {|
  timing_wheel := wheel; connection_timers := t.(connection_timers);
  entry_to_connection := t.(entry_to_connection); next_event_id := t.(next_event_id);
  stats := t.(stats) |}.

Definition get_next_wakeup_time t (now : Instant) : GlobalTimerTask * Instant :=
  let '(wheel, next) := next_expiry_time t.(timing_wheel) in
  (with_wheel t wheel,
   match next with
   | Some expiry => if expiry <=? now + from_millis 5 then now + from_millis 5 else expiry
   | None => now + from_secs 1
   end).

(** ** Commands *)

(** The orders are those of the [HashMap]s the command iterates. *)
Inductive TimerTaskCommand :=
| RegisterTimer (registration : TimerRegistration)
| BatchRegisterTimers (registrations : list TimerRegistration) (order : list nat)
| CancelTimer (entry_id : Z)
| BatchCancelTimers (entry_ids : list Z) (order : list nat)
| ClearConnectionTimers (connection_id : Z) (order : list Z)
| GetStats
| Shutdown.

Inductive response :=
| Registered (entry_id : Z)
| BatchRegistered (result : BatchTimerResult Z)
| Cancelled (found : bool)
| BatchCancelled (result : BatchTimerResult bool)
| ClearedCount (count : Z)
| Stats (s : TimerTaskStats)
| NoResponse.

(** The new task, the response and whether the task goes on. *)
Definition handle_command t (command : TimerTaskCommand)
    : outcome (GlobalTimerTask * response * bool) :=
  match command with
  | RegisterTimer registration =>
    let '(t', i) := register_timer t registration in Done (t', Registered i, true)
  | BatchRegisterTimers registrations order =>
    match batch_register_timers t registrations order with
    | Done (t', result) => Done (t', BatchRegistered result, true)
    | Panic => Panic
    end
  | CancelTimer entry_id =>
    let '(t', b) := cancel_timer t entry_id in Done (t', Cancelled b, true)
  | BatchCancelTimers entry_ids order =>
    let '(t', result) := batch_cancel_timers t entry_ids order in
    Done (t', BatchCancelled result, true)
  | ClearConnectionTimers c order =>
    let '(t', n) := clear_connection_timers t c order in Done (t', ClearedCount n, true)
  | GetStats => let t' := update_stats t in Done (t', Stats t'.(stats), true)
  | Shutdown => Done (t, NoResponse, false)
  end.

(** ** Runs of the task *)

Definition conn (e : TimerEntry Event) : Z := e.(event).(TimerEvent.data).(TimerEvent.connection_id).

Definition registration_ok r : Prop := 0 <= r.(delay).

(** What commands have to satisfy.  Delays are not negative, and those of a
    batch fit the 64-bit arithmetic on slots.  A batch of cancellations names
    distinct timers: the wheel removes by positions it has looked up before,
    and a repeated id would remove another timer.  The orders are those of
    iterations over a [HashMap] or [HashSet], complete and without
    repetition. *)
Definition command_ok t (command : TimerTaskCommand) : Prop :=
  match command with
  | RegisterTimer r => registration_ok r
  | BatchRegisterTimers rs order =>
    Forall registration_ok rs /\ NoDup order /\
    (t.(timing_wheel).(slot_duration) < 2 ^ 64 /\
     t.(timing_wheel).(next_entry_id) + Z.of_nat (length rs) <= 2 ^ 64 /\
     Forall (fun r => fits t.(timing_wheel) r.(delay)) rs) /\
    Forall (fun r => (expiry_and_slot t.(timing_wheel) r.(delay)).2 ∈ order) rs
  | BatchCancelTimers ids order =>
    NoDup ids /\ NoDup order /\
    (forall x s p, x ∈ ids -> t.(timing_wheel).(timer_map) !! x = Some (s, p) -> s ∈ order)
  | ClearConnectionTimers c order => order ≡ₚ elements (default ∅ (t.(connection_timers) !! c))
  | _ => True
  end.

(** One turn of the loop of [run]: a command or an advance of the wheel, each
    after the computation of the next wakeup; with what is sent to the
    callbacks. *)
Inductive step : GlobalTimerTask -> list (Tx * TimerEvent.TimerEventData Ev) -> GlobalTimerTask -> Prop :=
| step_command t now command t' resp b :
    command_ok t command ->
    handle_command (get_next_wakeup_time t now).1 command = Done (t', resp, b) ->
    step t [] t'
| step_advance t now1 now2 t' fired :
    advance_timing_wheel (get_next_wakeup_time t now1).1 now2 = (t', fired) ->
    step t fired t'.

(** ** The tables *)

Definition tables_ok ct (e2c : gmap Z Z) : Prop :=
  (forall c i, i ∈ default ∅ (ct !! c) <-> e2c !! i = Some c) /\ forall c, ct !! c <> Some ∅.

(** The reverse table lists exactly the pending timers, with their connections. *)
Definition entries_match (w : Wheel) (e2c : gmap Z Z) : Prop :=
  forall i c, e2c !! i = Some c <->
    exists e, e ∈ pending w /\ e.(TimingWheel.id) = i /\ conn e = c.

(** The two tables agree with the wheel. *)
Record consistent t : Prop := {
  ok_wheel : wf t.(timing_wheel);
  ok_entry : entries_match t.(timing_wheel) t.(entry_to_connection);
  ok_tables : tables_ok t.(connection_timers) t.(entry_to_connection);
}.

Lemma tables_insert ct e2c c i :
  tables_ok ct e2c -> e2c !! i = None -> tables_ok (insert_entry ct c i) (<[i := c]> e2c).
Proof.
  intros [H1 H2] Hi. unfold insert_entry. split.
  - intros c' i'. destruct (decide (c' = c)) as [->|Hc].
    + rewrite lookup_insert_eq. simpl. rewrite elem_of_union, elem_of_singleton, H1.
      destruct (decide (i' = i)) as [->|Hi']; [rewrite lookup_insert_eq; naive_solver|].
      rewrite lookup_insert_ne by done. naive_solver.
    + rewrite lookup_insert_ne, H1 by done.
      destruct (decide (i' = i)) as [->|Hi']; [rewrite lookup_insert_eq; naive_solver|].
      by rewrite lookup_insert_ne.
  - intros c'. destruct (decide (c' = c)) as [->|Hc].
    + rewrite lookup_insert_eq. intros [= E1]. set_solver.
    + by rewrite lookup_insert_ne.
Qed.

Lemma fold_difference ids (s : gset Z) :
  fold_left (fun s i => s ∖ {[i]}) ids s = s ∖ list_to_set ids.
Proof. revert s. induction ids as [|i ids IH]; intros s; simpl; [|rewrite IH]; set_solver. Qed.

Lemma remove_entries_lookup ct c ids c' :
  default ∅ (remove_entries ct c ids !! c') =
  default ∅ (ct !! c') ∖ (if decide (c' = c) then list_to_set ids else ∅).
Proof.
  unfold remove_entries. destruct (ct !! c) as [s|] eqn:E.
  - rewrite fold_difference. case_bool_decide as Hs; destruct (decide (c' = c)) as [->|Hc].
    + rewrite lookup_delete_eq, E. simpl. by rewrite Hs.
    + rewrite lookup_delete_ne by done. set_solver.
    + by rewrite lookup_insert_eq, E.
    + rewrite lookup_insert_ne by done. set_solver.
  - destruct (decide (c' = c)) as [->|Hc]; [rewrite E|]; set_solver.
Qed.

Lemma remove_entries_nonempty ct c ids :
  (forall c', ct !! c' <> Some ∅) -> forall c', remove_entries ct c ids !! c' <> Some ∅.
Proof.
  intros H c'. unfold remove_entries. destruct (ct !! c) as [s|] eqn:E; [|done].
  case_bool_decide as Hs; destruct (decide (c' = c)) as [->|Hc].
  - by rewrite lookup_delete_eq.
  - by rewrite lookup_delete_ne.
  - rewrite lookup_insert_eq. by intros [= ?].
  - by rewrite lookup_insert_ne.
Qed.

Lemma fold_remove_lookup l : forall ct c,
  NoDup l.*1 ->
  default ∅ (fold_left (fun ct x => remove_entries ct x.1 x.2) l ct !! c) =
  default ∅ (ct !! c) ∖ list_to_set (default [] ((list_to_map l : gmap Z (list Z)) !! c)).
Proof.
  induction l as [|[c1 ids] l IH]; intros ct c Hl.
  - simpl. rewrite lookup_empty. set_solver.
  - apply NoDup_cons in Hl as [Hn Hl]. simpl. rewrite IH, remove_entries_lookup by done. simpl.
    destruct (decide (c = c1)) as [->|Hc].
    + rewrite lookup_insert_eq, (not_elem_of_list_to_map_1 l) by done. set_solver.
    + rewrite lookup_insert_ne by done. set_solver.
Qed.

Lemma remove_by_connection_lookup ct updates c :
  default ∅ (remove_by_connection ct updates !! c) =
  default ∅ (ct !! c) ∖ list_to_set (default [] (updates !! c)).
Proof.
  unfold remove_by_connection. rewrite fold_remove_lookup by apply NoDup_fst_map_to_list.
  by rewrite list_to_map_to_list.
Qed.

Lemma remove_by_connection_nonempty ct updates :
  (forall c, ct !! c <> Some ∅) -> forall c, remove_by_connection ct updates !! c <> Some ∅.
Proof.
  unfold remove_by_connection. generalize (map_to_list updates). intros l. revert ct.
  induction l as [|x l IH]; intros ct H; [done|]. apply IH, remove_entries_nonempty, H.
Qed.

Lemma tables_remove ct e2c updates e2c' :
  tables_ok ct e2c ->
  (forall i c, e2c' !! i = Some c <-> e2c !! i = Some c /\ i ∉ default [] (updates !! c)) ->
  tables_ok (remove_by_connection ct updates) e2c'.
Proof.
  intros [H1 H2] H. split; [|by apply remove_by_connection_nonempty].
  intros c i. rewrite remove_by_connection_lookup, H, elem_of_difference, elem_of_list_to_set, H1. done.
Qed.

Lemma remove_entries_single ct c ids :
  remove_entries ct c ids = remove_by_connection ct {[c := ids]}.
Proof. unfold remove_by_connection. by rewrite map_to_list_singleton. Qed.

Lemma push_update_elem updates c i c' i' :
  i' ∈ default [] (push_update updates c i !! c') <->
  i' ∈ default [] (updates !! c') \/ i' = i /\ c' = c.
Proof.
  unfold push_update. destruct (decide (c' = c)) as [->|Hc].
  - rewrite lookup_insert_eq. simpl. rewrite elem_of_app, list_elem_of_singleton. naive_solver.
  - rewrite lookup_insert_ne by done. naive_solver.
Qed.

Lemma expired_by_connection_elem e2c expired c i :
  i ∈ default [] (expired_by_connection e2c expired !! c) <->
  i ∈ map (fun e : TimerEntry Event => e.(TimingWheel.id)) expired /\ e2c !! i = Some c.
Proof.
  unfold expired_by_connection.
  assert (G : forall l upd, i ∈ default [] (fold_left (fun upd e =>
      match e2c !! e.(TimingWheel.id) with
      | Some c => push_update upd c e.(TimingWheel.id) | None => upd end) l upd !! c) <->
    i ∈ default [] (upd !! c) \/ i ∈ map (fun e : TimerEntry Event => e.(TimingWheel.id)) l /\ e2c !! i = Some c).
  { induction l as [|e l IH]; intros upd; simpl.
    - pose proof (not_elem_of_nil i). naive_solver.
    - rewrite IH, elem_of_cons. destruct (e2c !! e.(TimingWheel.id)) as [c1|] eqn:E.
      + rewrite push_update_elem. split; [naive_solver|]. intros [?|[[->|?] ?]]; naive_solver.
      + naive_solver. }
  rewrite G, lookup_empty. simpl. pose proof (not_elem_of_nil i). naive_solver.
Qed.

Lemma cancel_mappings_spec ids : forall index e2c upd res,
  NoDup ids -> (forall i c, i ∈ ids -> i ∉ default [] (upd !! c)) ->
  let '(e2c', upd', res') := cancel_mappings index ids e2c upd res in
  (forall i c, e2c' !! i = Some c <-> e2c !! i = Some c /\ i ∉ ids) /\
  (forall i c, i ∈ default [] (upd' !! c) <->
     i ∈ default [] (upd !! c) \/ i ∈ ids /\ e2c !! i = Some c) /\
  res'.(successes) = res.(successes) ++ map (fun _ => true) (filter (fun i => e2c !! i <> None) ids) /\
  res'.(failures) = res.(failures) ++
    omap (fun x => if decide (e2c !! x.2 = None) then Some (x.1, TimerNotFound) else None)
         (imap (fun k i => (index + k, i)%nat) ids).
Proof.
  induction ids as [|i ids IH]; intros index e2c upd res Hnd Hu; simpl.
  { pose proof (@not_elem_of_nil Z). split_and!; [naive_solver|naive_solver|by rewrite app_nil_r..]. }
  apply NoDup_cons in Hnd as [Hi Hnd].
  assert (Hk : imap ((fun k i => (index + k, i)%nat) ∘ S) ids = imap (fun k i => (S index + k, i)%nat) ids).
  { apply imap_ext. intros k x _. simpl. f_equal. lia. }
  rewrite Hk, Nat.add_0_r. destruct (e2c !! i) as [c|] eqn:E.
  - specialize (IH (S index) (delete i e2c) (push_update upd c i)
      {| successes := res.(successes) ++ [true]; failures := res.(failures) |} Hnd).
    destruct (cancel_mappings _ _ _ _ _) as [[e2c' upd'] res']. destruct IH as (I1 & I2 & I3 & I4).
    { intros j c' Hj. rewrite push_update_elem. intros [Hx|[-> ->]]; [|done].
      by apply (Hu j c'); [right|]. }
    split_and!.
    + intros j c'. rewrite I1, lookup_delete_Some, not_elem_of_cons. naive_solver.
    + intros j c'. rewrite I2, push_update_elem, elem_of_cons. split.
      * intros [[?|[-> ->]]|[? Hd]]; [by left|right; split; [by left|done]|].
        apply lookup_delete_Some in Hd as [_ Hd]. right. split; [by right|done].
      * intros [?|[[->|?] He]]; [by left; left|left; right; split; congruence|].
        destruct (decide (j = i)) as [->|Hn]; [done|].
        right. split; [done|]. by rewrite lookup_delete_ne.
    + rewrite I3. simpl. rewrite filter_cons_True by (by rewrite ?E). simpl. rewrite <- app_assoc. do 3 f_equal.
      apply filter_ext. intros j Hj. rewrite lookup_delete_ne; [done|]. by intros <-.
    + rewrite I4. simpl.
      f_equal. apply list_omap_ext. apply Forall2_same_length_lookup_2; [done|].
      intros k x y Hx Hy. rewrite Hx in Hy. injection Hy as <-.
      apply list_lookup_imap_Some in Hx as (z & Hz & ->). simpl.
      rewrite lookup_delete_ne; [done|]. intros <-. by apply list_elem_of_lookup_2 in Hz.
  - specialize (IH (S index) e2c upd
      {| successes := res.(successes); failures := res.(failures) ++ [(index, TimerNotFound)] |} Hnd).
    destruct (cancel_mappings _ _ _ _ _) as [[e2c' upd'] res']. destruct IH as (I1 & I2 & I3 & I4).
    { intros j c' Hj. apply Hu. by right. }
    split_and!.
    + intros j c'. rewrite I1, not_elem_of_cons. split; [|naive_solver].
      intros [H1 H2]. split_and!; [done| |done]. intros ->. congruence.
    + intros j c'. rewrite I2, elem_of_cons. split; [naive_solver|].
      intros [?|[[->|?] ?]]; [by left|congruence|by right].
    + rewrite I3. simpl. rewrite filter_cons_False by (rewrite ?E; naive_solver). done.
    + rewrite I4. simpl. by rewrite <- app_assoc.
Qed.

(** ** The wheel and the tables *)

Lemma pending_id_inj (w : Wheel) e1 e2 :
  core_ok w -> e1 ∈ pending w -> e2 ∈ pending w ->
  e1.(TimingWheel.id) = e2.(TimingWheel.id) -> e1 = e2.
Proof.
  intros Hc (s1 & l1 & Hs1 & [p1 Hp1]%list_elem_of_lookup)%elem_of_pending
    (s2 & l2 & Hs2 & [p2 Hp2]%list_elem_of_lookup)%elem_of_pending He.
  assert (H1 : w.(timer_map) !! e1.(TimingWheel.id) = Some (s1, p1)) by (apply (core_map w Hc); eauto 6).
  assert (H2 : w.(timer_map) !! e2.(TimingWheel.id) = Some (s2, p2)) by (apply (core_map w Hc); eauto 6).
  rewrite He, H2 in H1. simplify_eq. congruence.
Qed.

(** A wheel that lost the entries of [gone]: the table without them matches. *)
Lemma entry_remove (w w' : Wheel) (e2c e2c' : gmap Z Z) (P : Z -> Prop) :
  entries_match w e2c ->
  (forall e, e ∈ pending w' <-> e ∈ pending w /\ ~ P e.(TimingWheel.id)) ->
  (forall i c, e2c' !! i = Some c <-> e2c !! i = Some c /\ ~ P i) ->
  entries_match w' e2c'.
Proof.
  intros He Hp H i c. rewrite H, (He i c). split.
  - intros [(e & H1 & <- & H3) H4]. exists e. rewrite Hp. naive_solver.
  - intros (e & [H1 H2]%Hp & <- & H4). split; [by exists e|done].
Qed.

Lemma new_consistent now t : new now = Done t -> consistent t.
Proof.
  unfold new. destruct (TimingWheel.new _ _ _) as [w|] eqn:Ew; [|done]. intros [= <-].
  destruct (new_wheel_wf 512 (from_millis 10) now w Ew) as (Hw & Hp & _); [done..|].
  constructor; simpl; [done| |].
  - intros i c. rewrite lookup_empty, Hp. split; [done|]. intros (e & He & _). by apply elem_of_nil in He.
  - split; intros c; [intros i|]; rewrite !lookup_empty; simpl; [|done]. split; [set_solver|done].
Qed.

Lemma with_cache_consistent t c :
  consistent t -> consistent (with_wheel t (with_cache t.(timing_wheel) c)).
Proof.
  intros [[Hc Hp] He Ht]. constructor; try done. split; [by apply core_with_cache|done].
Qed.

Lemma wakeup_consistent t now : consistent t -> consistent (get_next_wakeup_time t now).1.
Proof.
  intros H. unfold get_next_wakeup_time.
  pose proof (next_expiry_frame t.(timing_wheel) _ eq_refl) as Hf.
  destruct (next_expiry_time _) as [w r]. simpl in *. rewrite Hf. by apply with_cache_consistent.
Qed.

(** What registering does to the wheel and the tables. *)
Definition event_of t r : Event :=
  TimerEvent.from_factory t.(next_event_id) r.(connection_id) r.(timeout_event) r.(callback_tx).

Lemma register_consistent t r :
  consistent t -> registration_ok r -> consistent (register_timer t r).1.
Proof.
  intros [Hw He Ht] Hr. unfold register_timer. fold (event_of t r).
  pose proof (add_wf _ r.(delay) (event_of t r) Hw Hr) as Hw'.
  destruct (add_core _ r.(delay) (event_of t r) (proj1 Hw)) as [_ Hp].
  assert (Hn : t.(entry_to_connection) !! next_entry_id t.(timing_wheel) = None).
  { destruct (_ !! _) as [c|] eqn:Ec; [|done]. apply He in Ec as (e & He' & Hi & _).
    by apply (pending_mapped _ _ (proj1 Hw)) in He'; rewrite Hi, next_id_unused in He' by apply Hw. }
  change (add_timer _ _ _) with ((add_timer t.(timing_wheel) r.(delay) (event_of t r)).1,
    next_entry_id t.(timing_wheel)) in *. simpl fst in *.
  constructor; cbn [fst timing_wheel entry_to_connection connection_timers]; [done| |by apply tables_insert].
  intros i c. setoid_rewrite Hp. destruct (decide (i = next_entry_id t.(timing_wheel))) as [->|Hi].
  - rewrite lookup_insert_eq. split.
    + intros [= <-]. exists (new_entry t.(timing_wheel) r.(delay) (event_of t r)). split; [by left|done].
    + intros (e & [->|He']%elem_of_cons & Hi & <-); [done|].
      exfalso. apply (pending_mapped _ _ (proj1 Hw)) in He'. by rewrite Hi, next_id_unused in He' by apply Hw.
  - rewrite lookup_insert_ne, (He i c) by done. split; intros (e & He' & Hi' & Hc).
    + exists e. split; [by right|done].
    + apply elem_of_cons in He' as [->|He']; [|by exists e]. by subst i.
Qed.

(** The new timer is pending, under an id that no pending timer has. *)
Lemma register_pending t r : consistent t ->
  pending (register_timer t r).1.(timing_wheel) ≡ₚ
    new_entry t.(timing_wheel) r.(delay) (event_of t r) :: pending t.(timing_wheel).
Proof.
  intros [Hw _ _]. unfold register_timer. fold (event_of t r).
  pose proof (proj2 (add_core t.(timing_wheel) r.(delay) (event_of t r) (proj1 Hw))) as Hp.
  by destruct (add_timer _ _ _).
Qed.

Lemma register_new t r : consistent t ->
  (register_timer t r).2 ∉ map TimingWheel.id (pending t.(timing_wheel)).
Proof.
  intros [Hw _ _] (e & Hi & He)%list_elem_of_fmap. apply (pending_mapped _ _ (proj1 Hw)) in He.
  rewrite <- Hi in He. change (register_timer t r).2 with (next_entry_id t.(timing_wheel)) in He.
  by rewrite next_id_unused in He by apply Hw.
Qed.

(** The tables after the removal of a set of timers from the wheel. *)
Lemma remove_consistent t w' ct' e2c' updates nid st (P : Z -> Prop) :
  consistent t -> wf w' ->
  (forall e, e ∈ pending w' <-> e ∈ pending t.(timing_wheel) /\ ~ P e.(TimingWheel.id)) ->
  (forall i c, e2c' !! i = Some c <-> t.(entry_to_connection) !! i = Some c /\ ~ P i) ->
  ct' = remove_by_connection t.(connection_timers) updates ->
  (forall i c, t.(entry_to_connection) !! i = Some c -> i ∈ default [] (updates !! c) <-> P i) ->
  consistent {| timing_wheel := w'; connection_timers := ct'; entry_to_connection := e2c';
                next_event_id := nid; stats := st |}.
Proof.
  intros [Hw He Ht] Hw' Hp Hm -> Hu. constructor; simpl; [done|by eapply (entry_remove _ _ _ _ P)|].
  eapply tables_remove; [done|]. intros i c. rewrite Hm. naive_solver.
Qed.

Lemma cancel_pending w e2c i w' b :
  wf w -> entries_match w e2c -> TimingWheel.cancel_timer w i = (w', b) ->
  wf w' /\ (forall e, e ∈ pending w' <-> e ∈ pending w /\ e.(TimingWheel.id) <> i) /\
  (b = true <-> exists c, e2c !! i = Some c).
Proof.
  intros Hw He Hc. pose proof (cancel_wf _ i Hw) as Hw'. pose proof (cancel_core _ i (proj1 Hw)) as H.
  rewrite Hc in *. destruct H as (_ & Hg & H). rewrite Forall_forall in Hg. simpl in Hw'.
  split; [done|]. destruct b.
  - destruct H as (x & Hx & Hp & _). split.
    + intros e. rewrite Hp, elem_of_cons. split; [naive_solver|]. intros [[->|?] ?]; done.
    + split; [|done]. intros _. exists (conn x). apply He. exists x. rewrite Hp. split; [by left|done].
  - subst w'. split; [naive_solver|]. split; [done|]. intros [c Hi]. apply He in Hi as (e & He' & Hi & _).
    by apply Hg in He'.
Qed.

Lemma cancel_consistent t i : consistent t -> consistent (cancel_timer t i).1.
Proof.
  intros Ht. unfold cancel_timer. destruct (TimingWheel.cancel_timer _ i) as [w' b] eqn:Ec.
  destruct (cancel_pending _ _ i w' b (ok_wheel _ Ht) (ok_entry _ Ht) Ec) as (Hw' & Hp & Hb). destruct b.
  - destruct (proj1 Hb eq_refl) as [c Hi]. rewrite Hi. simpl.
    apply (remove_consistent t _ _ _ {[c := [i]]} _ _ (fun j => j = i)); try done.
    + intros j c'. rewrite lookup_delete_Some. naive_solver.
    + apply remove_entries_single.
    + intros j c' Hj. destruct (decide (c' = c)) as [->|Hc].
      * rewrite lookup_singleton_eq. simpl. apply list_elem_of_singleton.
      * rewrite lookup_singleton_ne by done. simpl. split; [by intros ?%not_elem_of_nil|congruence].
  - simpl. destruct Ht as [Hw He Ht]. constructor; simpl; try done.
    intros j c. rewrite (He j c). split; intros (e & He' & Hj & Hc); exists e; [|by apply Hp in He' as [? _]].
    split; [|done]. apply Hp. split; [done|]. intros Hi. subst j.
    destruct (Hb) as [_ Hb2]. discriminate Hb2. exists c. apply He. rewrite <- Hi. eauto.
Qed.

Lemma clear_loop c order : forall w e2c count,
  wf w -> entries_match w e2c -> NoDup order ->
  (forall i, i ∈ order -> e2c !! i = Some c) ->
  let '(w', e2c', count') := fold_left clear_entry order (w, e2c, count) in
  wf w' /\ (forall e, e ∈ pending w' <-> e ∈ pending w /\ e.(TimingWheel.id) ∉ order) /\
  (forall i c', e2c' !! i = Some c' <-> e2c !! i = Some c' /\ i ∉ order) /\
  count' = count + len order.
Proof.
  induction order as [|i order IH]; intros w e2c count Hw He Hnd Ho; simpl.
  { pose proof (@not_elem_of_nil Z). split_and!; [done|naive_solver|naive_solver|unfold len; simpl; lia]. }
  apply NoDup_cons in Hnd as [Hi Hnd].
  destruct (TimingWheel.cancel_timer w i) as [w1 b] eqn:Ec.
  destruct (cancel_pending w e2c i w1 b Hw He Ec) as (Hw1 & Hp & Hb).
  assert (b = true) as -> by (apply Hb; exists c; apply Ho; by left).
  assert (Hd : forall j c', delete i e2c !! j = Some c' <-> e2c !! j = Some c' /\ ~ j = i).
  { intros j c'. rewrite lookup_delete_Some. naive_solver. }
  specialize (IH w1 (delete i e2c) (count + 1) Hw1 (entry_remove w w1 e2c _ (fun j => j = i) He Hp Hd) Hnd).
  destruct (fold_left clear_entry order _) as [[w' e2c'] count'].
  destruct IH as (I1 & I2 & I3 & I4).
  { intros j Hj. apply Hd. split; [apply Ho; by right|]. by intros ->. }
  split_and!; [done| | |].
  - intros e. rewrite I2, Hp, not_elem_of_cons. naive_solver.
  - intros j c'. rewrite I3, Hd, not_elem_of_cons. naive_solver.
  - rewrite I4, len_cons. lia.
Qed.

(** What [clear_connection_timers] does to a consistent task. *)
Lemma clear_spec t c order t' n :
  consistent t -> order ≡ₚ elements (default ∅ (t.(connection_timers) !! c)) ->
  clear_connection_timers t c order = (t', n) ->
  consistent t' /\ (forall e, e ∈ pending t'.(timing_wheel) <-> e ∈ pending t.(timing_wheel) /\ conn e <> c) /\
  n = Z.of_nat (size (default ∅ (t.(connection_timers) !! c))).
Proof.
  intros Ht Ho. unfold clear_connection_timers. pose proof (ok_tables _ Ht) as [T1 T2].
  assert (Hin : forall i, i ∈ order <-> t.(entry_to_connection) !! i = Some c).
  { intros i. rewrite Ho, elem_of_elements. apply T1. }
  assert (Hcc : forall e, e ∈ pending t.(timing_wheel) -> e.(TimingWheel.id) ∉ order <-> conn e <> c).
  { intros e He. rewrite Hin. destruct Ht as [Hw Hm _]. split.
    - intros Hn Hc. apply Hn, Hm. by exists e.
    - intros Hn Hc. apply Hm in Hc as (e' & He' & Hi & Hc'). by rewrite (pending_id_inj _ e' e (proj1 Hw) He' He Hi) in Hc'. }
  destruct (t.(connection_timers) !! c) as [s|] eqn:Es.
  - pose proof (clear_loop c order t.(timing_wheel) t.(entry_to_connection) 0 (ok_wheel _ Ht) (ok_entry _ Ht)) as H.
    destruct (fold_left clear_entry order _) as [[w' e2c'] count].
    destruct H as (H1 & H2 & H3 & H4); [rewrite Ho; apply NoDup_elements|by intros i ?%Hin|].
    intros [= <- <-]. split; [|split].
    + apply (remove_consistent t _ _ _ {[c := order]} _ _ (fun j => j ∈ order)); try done.
      * unfold remove_by_connection. rewrite map_to_list_singleton. simpl. unfold remove_entries.
        rewrite Es, fold_difference, bool_decide_eq_true_2; [done|].
        apply set_eq. intros i. rewrite elem_of_difference, elem_of_list_to_set, Ho, elem_of_elements. simpl. set_solver.
      * intros j c' Hj. destruct (decide (c' = c)) as [->|Hc].
        -- by rewrite lookup_singleton_eq.
        -- rewrite lookup_singleton_ne by done. simpl. split; [by intros ?%not_elem_of_nil|].
           rewrite Hin. congruence.
    + intros e. simpl. rewrite H2. pose proof (Hcc e). naive_solver.
    + rewrite H4. unfold len. by rewrite Ho.
  - intros [= <- <-]. split; [done|]. split; [|done].
    intros e. split; [|naive_solver]. intros He. split; [done|]. apply Hcc; [done|].
    rewrite Ho. simpl. rewrite elements_empty. apply not_elem_of_nil.
Qed.

(** What [advance_timing_wheel] does: the due timers leave and fire. *)
Definition firing (e : TimerEntry Event) : Tx * TimerEvent.TimerEventData Ev :=
  (e.(event).(TimerEvent.callback_tx), e.(event).(TimerEvent.data)).

Lemma trigger_firing (e : TimerEntry Event) : TimerEvent.trigger_with_factory e.(event) = firing e.
Proof. unfold TimerEvent.trigger_with_factory, firing, TimerEvent.create_event. by destruct e as [? ? [? [] ?]]. Qed.

Lemma delete_entries_lookup (l : list (TimerEntry Event)) : forall (m : gmap Z Z) i c,
  fold_left (fun m e => delete e.(TimingWheel.id) m) l m !! i = Some c <->
  m !! i = Some c /\ i ∉ map (fun e : TimerEntry Event => e.(TimingWheel.id)) l.
Proof.
  induction l as [|e l IH]; intros m i c; simpl; [pose proof (not_elem_of_nil i); naive_solver|].
  rewrite IH, lookup_delete_Some, not_elem_of_cons. naive_solver.
Qed.

Lemma advance_spec t now t' fired :
  consistent t -> advance_timing_wheel t now = (t', fired) ->
  consistent t' /\ fired ≡ₚ map firing (filter (due now) (pending t.(timing_wheel))) /\
  pending t'.(timing_wheel) ≡ₚ filter (fun e => ~ due now e) (pending t.(timing_wheel)).
Proof.
  intros Ht. unfold advance_timing_wheel. pose proof (advance_core now _ (ok_wheel _ Ht)) as H.
  destruct (advance t.(timing_wheel) now) as [w' ex].
  destruct H as (Hw' & _ & _ & Hex & Hp & _). pose proof Ht as [Hw Hm Htb].
  assert (Hids : forall e, e ∈ pending t.(timing_wheel) ->
    e.(TimingWheel.id) ∈ map (fun e : TimerEntry Event => e.(TimingWheel.id)) ex <-> due now e).
  { intros e He. split.
    - intros (e' & Hi & He')%list_elem_of_fmap. rewrite Hex in He'. apply list_elem_of_filter in He' as [Hd He'].
      by rewrite (pending_id_inj _ e e' (proj1 Hw) He He' Hi).
    - intros Hd. apply (list_elem_of_fmap_2 (fun e : TimerEntry Event => e.(TimingWheel.id)) ex e).
      rewrite Hex. by apply list_elem_of_filter. }
  assert (Hpe : forall e, e ∈ pending w' <-> e ∈ pending t.(timing_wheel) /\
    e.(TimingWheel.id) ∉ map (fun e : TimerEntry Event => e.(TimingWheel.id)) ex).
  { intros e. rewrite Hp, list_elem_of_filter. pose proof (Hids e). naive_solver. }
  destruct ex as [|e0 ex0]; [|set (ex := e0 :: ex0) in *].
  - intros [= <- <-]. split_and!; simpl; [|by rewrite <- Hex|done].
    constructor; simpl; [done| |done]. intros i c. rewrite (Hm i c). split; intros (e & He & H1 & H2); exists e.
    + split; [|done]. apply Hpe. split; [done|]. apply not_elem_of_nil.
    + apply Hpe in He. naive_solver.
  - intros [= <- <-]. split_and!; [| |done].
    + eapply (remove_consistent t _ _ _ _ _ _
        (fun i => i ∈ map (fun e : TimerEntry Event => e.(TimingWheel.id)) ex)); try done.
      * intros i c. apply (delete_entries_lookup ex).
      * intros i c Hi. rewrite expired_by_connection_elem. naive_solver.
    + change (TimerEvent.trigger_with_factory _ :: _) with
        (map (fun e : TimerEntry Event => TimerEvent.trigger_with_factory e.(event)) ex).
      rewrite <- Hex. erewrite map_ext; [done|]. apply trigger_firing.
Qed.

(** ** Batches *)

(** [register_timer] on each registration in turn. *)
Fixpoint register_all t (rs : list TimerRegistration) : GlobalTimerTask * list Z :=
  match rs with
  | [] => (t, [])
  | r :: rs =>
    let '(t1, i) := register_timer t r in
    let '(t2, ids) := register_all t1 rs in
    (t2, i :: ids)
  end.

(** The timers a batch hands to the wheel. *)
Definition timers_of (n : Z) (rs : list TimerRegistration) : list (Duration * Event) :=
  imap (fun k r => (r.(delay),
    TimerEvent.from_factory (as_u64 (n + Z.of_nat k)) r.(connection_id) r.(timeout_event) r.(callback_tx))) rs.

Lemma timers_of_cons n r rs :
  u64_ok n ->
  timers_of n (r :: rs) =
    (r.(delay), TimerEvent.from_factory n r.(connection_id) r.(timeout_event) r.(callback_tx)) ::
    timers_of (as_u64 (n + 1)) rs.
Proof.
  intros Hn. unfold timers_of. simpl. f_equal.
  - do 2 f_equal. rewrite as_u64_id; unfold u64_ok in *; lia.
  - apply imap_ext. intros k x _. simpl. do 2 f_equal. unfold as_u64.
    rewrite Zplus_mod_idemp_l. f_equal. lia.
Qed.

Lemma batch_events_timers n rs :
  exists events,
    TimerEvent.batch_from_factory n (map (fun r => (r.(connection_id), r.(timeout_event))) rs)
      (map callback_tx rs) = Done events /\
    map (fun x => (x.2.(delay), x.1)) (zip events rs) = timers_of n rs /\
    map (fun x => x.2.(connection_id)) (zip events rs) = map connection_id rs.
Proof.
  unfold TimerEvent.batch_from_factory. rewrite !length_map, Nat.eqb_refl. eexists. split; [done|].
  unfold timers_of, TimerEvent.batch_create_events. generalize n. clear n.
  induction rs as [|r rs IH]; intros n; [done|]. simpl. destruct (IH (n + 1)) as [I1 I2].
  assert (Hs : forall k, n + Z.of_nat (S k) = n + 1 + Z.of_nat k) by lia.
  split; f_equal.
  - erewrite imap_ext; [rewrite I1; apply imap_ext|]; intros k x _; simpl; by rewrite Hs.
  - erewrite imap_ext; [exact I2|]. intros k x _; simpl. by rewrite Hs.
Qed.

Lemma length_add_all (w : Wheel) timers : length (add_all w timers).2 = length timers.
Proof.
  revert w. induction timers as [|[d ev] timers IH]; intros w; [done|].
  rewrite add_all_cons. simpl. by rewrite IH.
Qed.

Lemma register_all_spec rs : forall t,
  u64_ok t.(next_event_id) ->
  let '(w', ids) := add_all t.(timing_wheel) (timers_of t.(next_event_id) rs) in
  let '(ct, e2c) := record_entries (t.(connection_timers), t.(entry_to_connection))
                      (zip ids (map connection_id rs)) in
  register_all t rs =
    ({| timing_wheel := w'; connection_timers := ct; entry_to_connection := e2c;
        next_event_id := as_u64 (t.(next_event_id) + Z.of_nat (length rs)); stats := t.(stats) |}, ids).
Proof.
  induction rs as [|r rs IH]; intros t Hn.
  - simpl. rewrite Z.add_0_r, as_u64_id by done. by destruct t.
  - rewrite timers_of_cons, add_all_cons by done. cbn [register_all].
    change (register_timer t r) with ((register_timer t r).1, next_entry_id t.(timing_wheel)).
    specialize (IH (register_timer t r).1). cbn -[add_timer as_u64 add_all] in IH.
    assert (Hu : u64_ok (as_u64 (t.(next_event_id) + 1))) by by apply Z.mod_pos_bound.
    specialize (IH Hu). cbn [fst snd] in *.
    change (add_timer t.(timing_wheel) r.(delay) (event_of t r)) with
      ((add_timer t.(timing_wheel) r.(delay) (event_of t r)).1, next_entry_id t.(timing_wheel)) in IH.
    unfold event_of in IH. destruct (add_all _ (timers_of _ rs)) as [w' ids]. cbn [fst snd] in *.
    cbn [map zip zip_with record_entries fold_left] in *.
    unfold record_entries in *. cbn [fold_left fst snd].
    destruct (fold_left _ (zip ids _) _) as [ct e2c].
    rewrite IH. assert (Ha : as_u64 (as_u64 (t.(next_event_id) + 1) + Z.of_nat (length rs)) =
      as_u64 (t.(next_event_id) + Z.of_nat (length (r :: rs)))).
    { unfold as_u64. rewrite Zplus_mod_idemp_l. f_equal. simpl length. lia. }
    rewrite <- Ha. reflexivity.
Qed.

Lemma register_all_consistent rs : forall t,
  consistent t -> Forall registration_ok rs -> consistent (register_all t rs).1.
Proof.
  induction rs as [|r rs IH]; intros t Ht Hr; [done|]. apply Forall_cons in Hr as [H1 H2].
  cbn [register_all]. pose proof (register_consistent t r Ht H1) as H.
  destruct (register_timer t r) as [t1 i]. specialize (IH t1 H H2).
  destruct (register_all t1 rs). exact IH.
Qed.

Lemma batch_register_all {laws : WideLaws} t rs order :
  consistent t -> u64_ok t.(next_event_id) -> command_ok t (BatchRegisterTimers rs order) ->
  batch_register_timers t rs order =
    Done ((register_all t rs).1, {| successes := (register_all t rs).2; failures := [] |}).
Proof.
  intros Ht Hn (Hr & Ho & (Hd & Hi & Hf) & Hs). unfold batch_register_timers.
  destruct rs as [|r0 rs0]; [done|]. set (rs := r0 :: rs0) in *.
  destruct (batch_events_timers t.(next_event_id) rs) as (events & -> & He & Hc). rewrite He, Hc.
  assert (Ht1 : (timers_of t.(next_event_id) rs).*1 = map delay rs).
  { clear. unfold timers_of. rewrite fmap_imap. generalize rs. clear rs. intros rs.
    apply list_eq. intros k. rewrite list_lookup_imap, list_lookup_fmap. done. }
  assert (Hall : forall P : Duration -> Prop, Forall (fun r => P r.(delay)) rs ->
    Forall (fun x => P x.1) (timers_of t.(next_event_id) rs)).
  { intros P HP. apply Forall_forall. intros x Hx. apply (list_elem_of_fmap_2 fst) in Hx.
    rewrite Ht1 in Hx. apply list_elem_of_fmap in Hx as (r & -> & Hr'). rewrite Forall_forall in HP. auto. }
  rewrite batch_add_sequential; try done.
  - pose proof (register_all_spec rs t Hn) as H.
    pose proof (length_add_all t.(timing_wheel) (timers_of t.(next_event_id) rs)) as Hl.
    destruct (add_all _ _) as [w' ids]. destruct (record_entries _ _) as [ct e2c]. rewrite H. simpl snd. simpl fst.
    do 3 f_equal. apply fst_zip. simpl in Hl. rewrite Hl. unfold timers_of. by rewrite length_imap, length_map.
  - apply Ht.
  - unfold timers_of. by rewrite length_imap.
  - by apply (Hall (fun d => fits t.(timing_wheel) d)).
  - by apply (Hall (fun d => (expiry_and_slot t.(timing_wheel) d).2 ∈ order)).
Qed.

Lemma batch_cancel_spec t ids order t' res :
  consistent t -> command_ok t (BatchCancelTimers ids order) ->
  batch_cancel_timers t ids order = (t', res) ->
  consistent t' /\
  (forall e, e ∈ pending t'.(timing_wheel) <-> e ∈ pending t.(timing_wheel) /\ e.(TimingWheel.id) ∉ ids) /\
  res.(successes) = map (fun _ => true) (filter (fun i => t.(entry_to_connection) !! i <> None) ids) /\
  res.(failures) =
    omap (fun x => if decide (t.(entry_to_connection) !! x.2 = None) then Some (x.1, TimerNotFound) else None)
      (imap (fun k i => (k, i)) ids).
Proof.
  intros Ht (Hnd & Hno & Hin). unfold batch_cancel_timers.
  destruct ids as [|i0 ids0].
  { intros [= <- <-]. split_and!; try done. intros e. pose proof (not_elem_of_nil e.(TimingWheel.id)). naive_solver. }
  set (ids := i0 :: ids0) in *. pose proof (batch_cancel_exact _ ids order (ok_wheel _ Ht) Hnd Hno Hin) as H.
  destruct (WheelBatch.batch_cancel_timers _ _ _) as [w' cnt]. destruct H as (Hw' & Hp & _).
  pose proof (cancel_mappings_spec ids 0 t.(entry_to_connection) ∅ {| successes := []; failures := [] |} Hnd) as H.
  destruct (cancel_mappings _ _ _ _ _) as [[e2c' upd'] res']. destruct H as (H1 & H2 & H3 & H4).
  { intros i c _. rewrite lookup_empty. apply not_elem_of_nil. }
  intros [= <- <-]. simpl in H3, H4.
  assert (Hpe : forall e, e ∈ pending w' <-> e ∈ pending t.(timing_wheel) /\ e.(TimingWheel.id) ∉ ids).
  { intros e. rewrite Hp, list_elem_of_filter. tauto. }
  split_and!; try done.
  eapply (remove_consistent t _ _ _ upd' _ _ (fun i => i ∈ ids)); try done.
  intros i c Hi. rewrite H2, lookup_empty. simpl. pose proof (not_elem_of_nil i). naive_solver.
Qed.

Lemma cancel_spec t i t' b :
  consistent t -> cancel_timer t i = (t', b) ->
  (b = true <-> exists e, e ∈ pending t.(timing_wheel) /\ e.(TimingWheel.id) = i) /\
  (forall e, e ∈ pending t'.(timing_wheel) <-> e ∈ pending t.(timing_wheel) /\ e.(TimingWheel.id) <> i).
Proof.
  intros Ht. unfold cancel_timer.
  destruct (TimingWheel.cancel_timer _ i) as [w b'] eqn:Ec. intros H.
  destruct (cancel_pending _ _ i w b' (ok_wheel _ Ht) (ok_entry _ Ht) Ec) as (_ & Hp & Hb).
  assert (Hb' : b' = true <-> exists e, e ∈ pending t.(timing_wheel) /\ e.(TimingWheel.id) = i).
  { rewrite Hb. split.
    - intros [c (e & He & Hi & _)%(ok_entry _ Ht)]. eauto.
    - intros (e & He & Hi). exists (conn e). apply (ok_entry _ Ht). eauto. }
  destruct b'; [destruct (_ !! i)|]; injection H as <- <-; done.
Qed.

(** ** What the task guarantees *)

Definition live (now : Instant) t : Prop :=
  exists t0, new now = Done t0 /\ rtc (fun a b => exists fired, step a fired b) t0 t.

Section laws.
Context {laws : WideLaws}.

Lemma handle_command_ok t command :
  consistent t -> u64_ok t.(next_event_id) -> command_ok t command ->
  exists t' resp b, handle_command t command = Done (t', resp, b) /\
    consistent t' /\ u64_ok t'.(next_event_id).
Proof.
  assert (Hu : forall x, u64_ok (as_u64 x)) by (intros x; by apply Z.mod_pos_bound).
  intros Ht Hn Hc. destruct command as [r|rs order|i|ids order|c order| |]; unfold handle_command.
  - pose proof (register_consistent t r Ht Hc) as H. destruct (register_timer t r) as [t' i] eqn:Er.
    eexists _, _, _. split; [done|]. split; [done|]. unfold register_timer in Er.
    destruct (add_timer _ _ _). injection Er as <- _. apply Hu.
  - rewrite batch_register_all by done. eexists _, _, _. split; [done|]. split.
    + apply register_all_consistent; [done|]. apply Hc.
    + pose proof (register_all_spec rs t Hn) as H. destruct (add_all _ _), (record_entries _ _).
      rewrite H. apply Hu.
  - pose proof (cancel_consistent t i Ht) as H. destruct (cancel_timer t i) as [t' b] eqn:Ec.
    eexists _, _, _. split; [done|]. split; [done|]. unfold cancel_timer in Ec.
    destruct (TimingWheel.cancel_timer _ _) as [w []]; [destruct (_ !! _)|]; by injection Ec as <- _.
  - destruct (batch_cancel_timers t ids order) as [t' res] eqn:Ec.
    destruct (batch_cancel_spec t ids order t' res Ht Hc Ec) as [H _].
    eexists _, _, _. split; [done|]. split; [done|]. unfold batch_cancel_timers in Ec.
    destruct ids; [by injection Ec as <- _|]. destruct (WheelBatch.batch_cancel_timers _ _ _).
    destruct (cancel_mappings _ _ _ _ _) as [[? ?] ?]. by injection Ec as <- _.
  - destruct (clear_connection_timers t c order) as [t' n] eqn:Ec.
    destruct (clear_spec t c order t' n Ht Hc Ec) as [H _].
    eexists _, _, _. split; [done|]. split; [done|]. unfold clear_connection_timers in Ec.
    destruct (_ !! c); [|by injection Ec as <- _].
    destruct (fold_left _ _ _) as [[? ?] ?]. by injection Ec as <- _.
  - eexists _, _, _. split; [done|]. split; [|done]. destruct Ht. by constructor.
  - eexists _, _, _. split; [done|]. by split.
Qed.

Lemma task_step_consistent t fired t' :
  step t fired t' -> consistent t /\ u64_ok t.(next_event_id) -> consistent t' /\ u64_ok t'.(next_event_id).
Proof.
  intros Hs [Ht Hn]. assert (Hw : forall now, consistent (get_next_wakeup_time t now).1 /\
    u64_ok (get_next_wakeup_time t now).1.(next_event_id)).
  { intros now. split; [by apply wakeup_consistent|]. unfold get_next_wakeup_time. by destruct (next_expiry_time _). }
  destruct Hs as [t now command t' resp b Hc Hh|t now1 now2 t' fired Ha].
  - destruct (Hw now) as [H1 H2].
    assert (Hc' : command_ok (get_next_wakeup_time t now).1 command).
    { unfold get_next_wakeup_time. pose proof (next_expiry_frame t.(timing_wheel) _ eq_refl) as Hf.
      destruct (next_expiry_time _) as [w r]. simpl in *. rewrite Hf. by destruct command. }
    destruct (handle_command_ok _ command H1 H2 Hc') as (t1 & r1 & b1 & Hh' & H3 & H4).
    rewrite Hh in Hh'. by injection Hh' as <- <- <-.
  - destruct (Hw now1) as [H1 H2]. destruct (advance_spec _ _ _ _ H1 Ha) as [H3 _]. split; [done|].
    unfold advance_timing_wheel in Ha. destruct (advance _ _) as [w ex]. by destruct ex; injection Ha as <- _.
Qed.

Lemma live_consistent now t : live now t -> consistent t /\ u64_ok t.(next_event_id).
Proof.
  intros (t0 & H0 & H).
  apply (rtc_preserves _ (fun t => consistent t /\ u64_ok t.(next_event_id))) in H; [done|..].
  - intros x y [fired Hs]. by eapply task_step_consistent.
  - split; [by eapply new_consistent|]. unfold new in H0. destruct (TimingWheel.new _ _ _); [|done].
    by injection H0 as <-.
Qed.

(** C28: At every point of every run of the timer task whose commands satisfy
    [command_ok] the tables agree with the wheel: a timer is listed under a
    connection exactly when it is pending in the wheel and belongs to that
    connection, no connection is listed without timers, and the next command
    that satisfies [command_ok] is answered without a panic.  [command_ok]
    says that delays are not negative; for a batch of registrations, that the
    ids and the slot computations fit 64 bits; for a batch of cancellations,
    that no id is named twice (naming one twice loses another timer of its
    slot, after which the tables and the wheel no longer agree); and that the
    orders in which hash maps and sets are iterated are complete and without
    repetition. *)
Theorem timer_tables_exact now t :
  live now t ->
  (forall c i, i ∈ default ∅ (t.(connection_timers) !! c) <->
     exists e, e ∈ pending t.(timing_wheel) /\ e.(TimingWheel.id) = i /\ conn e = c) /\
  (forall c, t.(connection_timers) !! c <> Some ∅) /\
  (forall command, command_ok t command -> handle_command t command <> Panic).
Proof.
  intros [Ht Hn]%live_consistent. pose proof Ht as [Hw Hm [T1 T2]]. split_and!; [|done|].
  - intros c i. by rewrite T1, (Hm i c).
  - intros command Hc. by destruct (handle_command_ok t command Ht Hn Hc) as (? & ? & ? & -> & _).
Qed.

(** C29: Advancing the wheel fires exactly the timers that are due, each once,
    on the channel it was registered with and with its connection and event;
    the others stay pending. *)
Theorem advance_fires_due now0 t now t' fired :
  live now0 t -> advance_timing_wheel t now = (t', fired) ->
  fired ≡ₚ map firing (filter (due now) (pending t.(timing_wheel))) /\
  pending t'.(timing_wheel) ≡ₚ filter (fun e => ~ due now e) (pending t.(timing_wheel)) /\
  (forall c i, i ∈ default ∅ (t'.(connection_timers) !! c) ->
     exists e, e ∈ pending t.(timing_wheel) /\ e.(TimingWheel.id) = i /\ conn e = c /\ now < e.(expiry_time)).
Proof.
  intros [Ht _]%live_consistent Ha. destruct (advance_spec t now t' fired Ht Ha) as ([_ Hm [T1 _]] & H1 & H2).
  split_and!; [done..|]. intros c i Hi. apply T1, Hm in Hi as (e & He & H3 & H4).
  rewrite H2, list_elem_of_filter in He. destruct He as [Hd He]. exists e. unfold due in Hd. split_and!; [done..|lia].
Qed.

(** Clearing a connection removes its timers, all of them and no others,
    and answers with their number. *)
Theorem clear_connection_exact now t c order t' n :
  live now t -> order ≡ₚ elements (default ∅ (t.(connection_timers) !! c)) ->
  clear_connection_timers t c order = (t', n) ->
  (forall e, e ∈ pending t'.(timing_wheel) <-> e ∈ pending t.(timing_wheel) /\ conn e <> c) /\
  t'.(connection_timers) !! c = None /\ n = len order.
Proof.
  intros [Ht _]%live_consistent Ho Hc. destruct (clear_spec t c order t' n Ht Ho Hc) as (H1 & H2 & H3).
  split_and!; [done| |rewrite H3; unfold len; by rewrite Ho].
  unfold clear_connection_timers in Hc. destruct (t.(connection_timers) !! c) eqn:Es.
  - destruct (fold_left _ _ _) as [[? ?] ?]. injection Hc as <- _. apply lookup_delete_eq.
  - by injection Hc as <- _.
Qed.

(** C37: Registering a batch gives the state and the handles of registering its
    timers one by one, whatever the order in which the wheel files them. *)
Theorem batch_register_sequential now t rs order :
  live now t -> command_ok t (BatchRegisterTimers rs order) ->
  batch_register_timers t rs order =
    Done ((register_all t rs).1, {| successes := (register_all t rs).2; failures := [] |}).
Proof. intros [Ht Hn]%live_consistent. by apply batch_register_all. Qed.

(** A cancellation succeeds exactly for a timer that is still pending and
    removes only that one; a batch of distinct ids succeeds once for each
    pending one and reports the positions of the others. *)
Theorem cancel_exact now t i t' b :
  live now t -> cancel_timer t i = (t', b) ->
  (b = true <-> exists e, e ∈ pending t.(timing_wheel) /\ e.(TimingWheel.id) = i) /\
  (forall e, e ∈ pending t'.(timing_wheel) <-> e ∈ pending t.(timing_wheel) /\ e.(TimingWheel.id) <> i).
Proof. intros [Ht _]%live_consistent. by apply cancel_spec. Qed.

End laws.

End task.

Arguments TimerRegistration : clear implicits.
Arguments GlobalTimerTask : clear implicits.
Arguments TimerTaskCommand : clear implicits.

(** ** Witnesses *)

#[local] Existing Instance WheelBatch.wrapping_wide.
#[local] Existing Instance WheelBatch.wrapping_wide_laws.

Definition example_registration (c ms : Z) : TimerRegistration Z Z :=
  {| connection_id := c; delay := from_millis ms; timeout_event := ms; callback_tx := 100 + c |}.

(** The task after a list of commands. *)
Fixpoint run_commands (t : GlobalTimerTask Z Z) (commands : list (TimerTaskCommand Z Z))
    : option (GlobalTimerTask Z Z) :=
  match commands with
  | [] => Some t
  | command :: commands =>
    match handle_command (get_next_wakeup_time t 0).1 command with
    | Done (t', _, _) => run_commands t' commands
    | Panic => None
    end
  end.

Definition example_task : option (GlobalTimerTask Z Z) :=
  match new 0 with
  | Done t =>
    run_commands t [RegisterTimer (example_registration 7 50); RegisterTimer (example_registration 8 20);
                    RegisterTimer (example_registration 7 6000)]
  | Panic => None
  end.

Lemma run_commands_steps commands : forall t t',
  Forall (fun c => match c with RegisterTimer r => registration_ok r | _ => False end) commands ->
  run_commands t commands = Some t' -> rtc (fun a b => exists fired, step a fired b) t t'.
Proof.
  induction commands as [|c commands IH]; intros t t' Hf Hr; [injection Hr as <-; apply rtc_refl|].
  apply Forall_cons in Hf as [Hc Hf]. cbn [run_commands] in Hr.
  destruct (handle_command _ c) as [[[t1 resp] b]|] eqn:Eh; [|done].
  eapply rtc_l; [|by apply IH]. exists []. eapply step_command; [|exact Eh]. by destruct c.
Qed.

Lemma example_live t : example_task = Some t -> live 0 t.
Proof.
  unfold example_task. destruct (new 0) as [t0|] eqn:E0; [|done]. intros Hr. exists t0. split; [done|].
  eapply run_commands_steps; [|exact Hr]. repeat constructor; unfold registration_ok; simpl; done.
Qed.

Lemma timer_tables_exact_witness :
  exists t, example_task = Some t /\ default ∅ (t.(connection_timers) !! 7) = {[1; 3]} /\
  (forall c i, i ∈ default ∅ (t.(connection_timers) !! c) <->
     exists e, e ∈ pending t.(timing_wheel) /\ e.(TimingWheel.id) = i /\ conn e = c).
Proof.
  assert (H : (fun t => default ∅ (t.(connection_timers) !! 7)) <$> example_task = Some ({[1; 3]} : gset Z))
    by (vm_compute; reflexivity).
  destruct example_task as [t|] eqn:Et; [|discriminate H]. exists t. split; [reflexivity|].
  split; [by injection H|]. apply (timer_tables_exact 0 t (example_live t Et)).
Defined.

Lemma advance_fires_due_witness :
  exists t, example_task = Some t /\
  let r := advance_timing_wheel t (from_millis 60) in
  r.2 = [(108, TimerEvent.create_event 8 20); (107, TimerEvent.create_event 7 50)] /\
  r.2 ≡ₚ map firing (filter (due (from_millis 60)) (pending t.(timing_wheel))).
Proof.
  assert (H : (fun t => (advance_timing_wheel t (from_millis 60)).2) <$> example_task =
    Some [(108, TimerEvent.create_event 8 20); (107, TimerEvent.create_event 7 50)]) by (vm_compute; reflexivity).
  destruct example_task as [t|] eqn:Et; [|discriminate H]. exists t. split; [reflexivity|].
  split; [by injection H|].
  apply (advance_fires_due 0 t (from_millis 60) _ _ (example_live t Et) (surjective_pairing _)).
Defined.

Lemma clear_connection_exact_witness :
  exists t, example_task = Some t /\
  let r := clear_connection_timers t 7 (elements (default ∅ (t.(connection_timers) !! 7))) in
  r.2 = 2 /\ forall e, e ∈ pending r.1.(timing_wheel) <-> e ∈ pending t.(timing_wheel) /\ conn e <> 7.
Proof.
  assert (H : (fun t => (clear_connection_timers t 7 (elements (default ∅ (t.(connection_timers) !! 7)))).2)
    <$> example_task = Some 2) by (vm_compute; reflexivity).
  destruct example_task as [t|] eqn:Et; [|discriminate H]. exists t. split; [reflexivity|].
  split; [by injection H|].
  apply (clear_connection_exact 0 t 7 _ _ _ (example_live t Et) (Permutation_refl _) (surjective_pairing _)).
Defined.

Lemma batch_register_sequential_witness :
  exists t, example_task = Some t /\
  let rs := [example_registration 9 30; example_registration 7 10] in
  batch_register_timers t rs [3; 1]%nat =
    Done ((register_all t rs).1, {| successes := (register_all t rs).2; failures := [] |}).
Proof.
  assert (H : (fun t => bool_decide (
      Forall (fun r => 0 <= r.(delay) /\ fits t.(timing_wheel) r.(delay) /\
        (expiry_and_slot t.(timing_wheel) r.(delay)).2 ∈ [3; 1]%nat)
        [example_registration 9 30; example_registration 7 10] /\
      t.(timing_wheel).(slot_duration) < 2 ^ 64 /\
      t.(timing_wheel).(next_entry_id) + 2 <= 2 ^ 64)) <$> example_task = Some true)
    by (vm_compute; reflexivity).
  destruct example_task as [t|] eqn:Et; [|discriminate H]. exists t. split; [reflexivity|]. cbv zeta.
  apply (batch_register_sequential 0 t _ _ (example_live t Et)).
  assert (H' := f_equal (default false) H). apply bool_decide_eq_true in H'. destruct H' as (H1 & H2 & H3).
  rewrite Forall_forall in H1.
  split_and!; [|by_decide|exact H2|exact H3| |]; apply Forall_forall; intros r Hr%H1; apply Hr.
Defined.

Lemma cancel_exact_witness :
  exists t, example_task = Some t /\ (cancel_timer t 2).2 = true /\
  forall e, e ∈ pending (cancel_timer t 2).1.(timing_wheel) <->
    e ∈ pending t.(timing_wheel) /\ e.(TimingWheel.id) <> 2.
Proof.
  assert (H : (fun t => (cancel_timer t 2).2) <$> example_task = Some true) by (vm_compute; reflexivity).
  destruct example_task as [t|] eqn:Et; [|discriminate H]. exists t. split; [reflexivity|].
  split; [by injection H|].
  apply (cancel_exact 0 t 2 _ _ (example_live t Et) (surjective_pairing _)).
Defined.

End GlobalTimerTask.
