(* ===== verification/TimerHandle.v ===== *)
(** * Handles of the timer task

    Models [src/timer/task/handle.rs] and the batches and handles of
    [src/timer/task/types.rs] over the task of [TimerTask].  A method sends a
    command and waits for the answer; [open] is false when the task is gone. *)

From S2P Require Import Prelude TimingWheel WheelBatch TimerTask.

Module TimerHandle.
Import TimingWheel WheelBatch GlobalTimerTask.

Section handle.
Context {Ev Tx : Type} {wide : Wide}.
Implicit Types (t : GlobalTimerTask Ev Tx) (r : TimerRegistration Ev Tx).

(** ** [types.rs] *)

Definition new_registration (c : Z) (d : Duration) (ev : Ev) (tx : Tx) : TimerRegistration Ev Tx :=
  {| connection_id := c; delay := d; timeout_event := ev; callback_tx := tx |}.

Record BatchTimerRegistration := { registrations : list (TimerRegistration Ev Tx) }.

Definition batch_new (rs : list (TimerRegistration Ev Tx)) : BatchTimerRegistration := {| registrations := rs |}.

Definition batch_with_capacity : BatchTimerRegistration := batch_new [].

Definition batch_add (b : BatchTimerRegistration) r : BatchTimerRegistration :=
  {| registrations := b.(registrations) ++ [r] |}.

Record BatchTimerCancellation := { entry_ids : list Z }.

Definition cancellation_new (ids : list Z) : BatchTimerCancellation := {| entry_ids := ids |}.

Definition cancellation_with_capacity : BatchTimerCancellation := cancellation_new [].

Definition cancellation_add (b : BatchTimerCancellation) (entry_id : Z) : BatchTimerCancellation :=
  {| entry_ids := b.(entry_ids) ++ [entry_id] |}.

Definition result_new {T} : BatchTimerResult T := {| successes := []; failures := [] |}.

Definition success_count {T} (res : BatchTimerResult T) : nat := length (successes _ res).
Definition failure_count {T} (res : BatchTimerResult T) : nat := length (failures _ res).
Definition all_succeeded {T} (res : BatchTimerResult T) : bool := match failures _ res with [] => true | _ => false end.

(** The sender of the task's commands has no state here. *)
Record TimerHandle := { entry_id : Z }.

(** ** Asking the task *)

(** [pick] takes the command's response apart. *)
Definition ask {A} (open : bool) t (command : TimerTaskCommand Ev Tx) (pick : response -> option A)
    : outcome (GlobalTimerTask Ev Tx * (A + TimerError)) :=
  if negb open then Done (t, inr TaskShutdown) else
  match handle_command t command with
  | Done (t, resp, _) => Done (t, match pick resp with Some a => inl a | None => inr TaskShutdown end)
  | Panic => Panic
  end.

Definition cancel (open : bool) t (h : TimerHandle) :=
  ask open t (CancelTimer h.(entry_id)) (fun resp => match resp with Cancelled b => Some b | _ => None end).

(** ** [handle.rs] *)

Definition register_timer (open : bool) t r :=
  ask open t (RegisterTimer r) (fun resp => match resp with Registered i => Some {| entry_id := i |} | _ => None end).

(** The orders in which hash maps are iterated are arguments, as in [TimerTask]. *)
Definition batch_register_timers (open : bool) t (b : BatchTimerRegistration) (order : list nat) :=
  ask open t (BatchRegisterTimers b.(registrations) order) (fun resp =>
    match resp with
    | BatchRegistered res =>
      Some {| successes := map (fun i => {| entry_id := i |}) (successes _ res); failures := failures _ res |}
    | _ => None
    end).

Definition batch_cancel_timers (open : bool) t (b : BatchTimerCancellation) (order : list nat) :=
  ask open t (BatchCancelTimers b.(entry_ids) order) (fun resp => match resp with BatchCancelled res => Some res | _ => None end).

Definition clear_connection_timers (open : bool) t (c : Z) (order : list Z) :=
  ask open t (ClearConnectionTimers c order) (fun resp => match resp with ClearedCount n => Some n | _ => None end).

Definition get_stats (open : bool) t :=
  ask open t GetStats (fun resp => match resp with Stats s => Some s | _ => None end).

(** Waits for no answer; the task ends. *)
Definition shutdown (open : bool) t : outcome (GlobalTimerTask Ev Tx * bool * (unit + TimerError)) :=
  if negb open then Done (t, open, inr TaskShutdown) else
  match handle_command t Shutdown with
  | Done (t, _, goes_on) => Done (t, goes_on, inl tt)
  | Panic => Panic
  end.

(** [start_global_timer_task] *)
Definition start_global_timer_task (now : Instant) : outcome (GlobalTimerTask Ev Tx) := GlobalTimerTask.new now.

(** ** Facts *)


(** Every command is answered with a response of its kind. *)
Lemma asks_answered t : 
  (forall r, exists t' h, register_timer true t r = Done (t', inl h)) /\
  (forall h, exists t' b, cancel true t h = Done (t', inl b)) /\
  (forall b order, exists t' res, batch_cancel_timers true t b order = Done (t', inl res)) /\
  (forall c order, exists t' n, clear_connection_timers true t c order = Done (t', inl n)) /\
  (exists t' s, get_stats true t = Done (t', inl s)).
Proof.
  unfold register_timer, cancel, batch_cancel_timers, clear_connection_timers, get_stats, ask. simpl. split_and!.
  - intros r. destruct (GlobalTimerTask.register_timer t r). by do 2 eexists.
  - intros h. destruct (GlobalTimerTask.cancel_timer t _). by do 2 eexists.
  - intros b order. destruct (GlobalTimerTask.batch_cancel_timers t _ _). by do 2 eexists.
  - intros c order. destruct (GlobalTimerTask.clear_connection_timers t _ _). by do 2 eexists.
  - by do 2 eexists.
Qed.

(** A timer's life through its handle: registering makes one timer pending, new
    and of the registration's connection, event and channel; cancelling it
    answers [true], takes exactly this timer away again, and answers [false]
    from then on. *)
Theorem handle_lifecycle `{!WideLaws} now t r :
  live now t -> registration_ok r ->
  exists t1 t2 t3 h e,
    register_timer true t r = Done (t1, inl h) /\
    pending t1.(timing_wheel) ≡ₚ e :: pending t.(timing_wheel) /\
    e.(TimingWheel.id) = h.(entry_id) /\ h.(entry_id) ∉ map TimingWheel.id (pending t.(timing_wheel)) /\
    firing e = (r.(callback_tx), {| TimerEvent.connection_id := r.(connection_id); TimerEvent.timeout_event := r.(timeout_event) |}) /\
    cancel true t1 h = Done (t2, inl true) /\
    (forall x, x ∈ pending t2.(timing_wheel) <-> x ∈ pending t.(timing_wheel)) /\
    cancel true t2 h = Done (t3, inl false).
Proof.
  intros [Ht _]%live_consistent Hr. pose proof (register_consistent t r Ht Hr) as Ht1.
  pose proof (register_pending t r Ht) as Hp. pose proof (register_new t r Ht) as Hnew.
  assert (Hid : (GlobalTimerTask.register_timer t r).2 = next_entry_id t.(timing_wheel)) by done.
  unfold register_timer, cancel, ask. cbn [negb handle_command].
  destruct (GlobalTimerTask.register_timer t r) as [t1 i] eqn:Er. cbn [fst snd] in *.
  destruct (cancel_timer t1 i) as [t2 b] eqn:E2. pose proof (cancel_consistent t1 i Ht1) as Ht2. rewrite E2 in Ht2.
  destruct (cancel_spec t1 i t2 b Ht1 E2) as [Hb Hp2]. destruct (cancel_timer t2 i) as [t3 b'] eqn:E3.
  destruct (cancel_spec t2 i t3 b' Ht2 E3) as [Hb' _].
  assert (b = true) as -> by (apply Hb; eexists; rewrite Hp; split; [left|done]).
  assert (b' = false) as ->.
  { destruct b'; [|done]. destruct (proj1 Hb' eq_refl) as (e & He & Hi'). by apply Hp2 in He as [_ He]. }
  exists t1, t2, t3, {| entry_id := i |}, (new_entry t.(timing_wheel) r.(delay) (event_of t r)). cbn [entry_id]. rewrite E2, E3. split_and!; try done.
  intros x. rewrite Hp2, Hp, elem_of_cons. split.
  - intros [[->|Hx] Hi]; [done|exact Hx].
  - intros Hx. split; [by right|]. intros Hi. apply Hnew. rewrite <- Hi. apply list_elem_of_fmap. by exists x.
Qed.

End handle.
End TimerHandle.
