(* ===== verification/TimingManager.v ===== *)
(** * Timing manager

    Models [src/core/endpoint/timing.rs]: [TimerManager], an endpoint's client
    of the global timer task (its queue of events that fired and the handles of
    its active timers), and [TimingManager], the connection's times and its
    timeout checks, with its instance of [TimeoutLayer].  The answer of the
    timer task to a registration or a cancellation is an argument ([None] when
    the task is gone); Module [TimerSystem] composes the manager with the task
    of [TimerTask].  A time read by [Instant::now()] is an argument. *)

From S2P Require Import Prelude BTreeMap Packet Config Frame Retransmission Reliability UnifiedScheduler TimingWheel WheelBatch.
From S2P Require Import TimerTask.

Module TimerManager.
Import Timing.

#[global] Instance TimeoutEvent_countable : Countable TimeoutEvent.
Proof.
  refine (inj_countable'
    (fun e => match e with IdleTimeout => 0%nat | PathValidationTimeout => 1%nat
                         | RetransmissionTimeout => 2%nat | ConnectionTimeout => 3%nat end)
    (fun n => match n with O => IdleTimeout | 1%nat => PathValidationTimeout
                         | 2%nat => RetransmissionTimeout | _ => ConnectionTimeout end) _).
  by intros [].
Defined.

(** A [TimerHandle] is the id of its entry in the wheel; [timeout_rx] holds the
    events that fired and were not read yet. *)
Record TimerManager := {
  connection_id : Z;                   (* u32 *)
  timeout_rx : list (TimerEvent.TimerEventData TimeoutEvent);
  active_timers : gmap TimeoutEvent Z;
}.

Definition new (connection_id : Z) : TimerManager :=
  {| connection_id := connection_id; timeout_rx := []; active_timers := ∅ |}.

Definition with_active (m : TimerManager) (a : gmap TimeoutEvent Z) : TimerManager :=
  {| connection_id := m.(connection_id); timeout_rx := m.(timeout_rx); active_timers := a |}.

Definition check_timer_events (m : TimerManager) : TimerManager * list TimeoutEvent :=
  let events := map TimerEvent.timeout_event m.(timeout_rx) in
  ({| connection_id := m.(connection_id); timeout_rx := [];
      active_timers := foldl (fun a e => delete e a) m.(active_timers) events |}, events).

(** The timer task sends the events that fired on [timeout_tx]. *)
Definition deliver (m : TimerManager) (fired : list (TimerEvent.TimerEventData TimeoutEvent)) : TimerManager :=
  {| connection_id := m.(connection_id); timeout_rx := m.(timeout_rx) ++ fired;
     active_timers := m.(active_timers) |}.

(** The new manager, whether the registration succeeded, and the handle of the
    timer that was replaced, which a spawned task cancels. *)
Definition register_timer (m : TimerManager) (timeout_event : TimeoutEvent) (reply : option Z)
    : TimerManager * bool * option Z :=
  match reply with
  | Some new_handle =>
    (with_active m (<[timeout_event := new_handle]> m.(active_timers)), true,
     m.(active_timers) !! timeout_event)
  | None => (m, false, None)
  end.

(** What [register_timer] asks of the timer task. *)
Definition registration {Tx} (m : TimerManager) (timeout_event : TimeoutEvent) (delay : Duration)
    (timeout_tx : Tx) : GlobalTimerTask.TimerRegistration TimeoutEvent Tx :=
  {| GlobalTimerTask.connection_id := m.(connection_id); GlobalTimerTask.delay := delay;
     GlobalTimerTask.timeout_event := timeout_event; GlobalTimerTask.callback_tx := timeout_tx |}.

(** The handle to cancel; the result is the answer of the timer task to it,
    [false] when it is gone. *)
Definition cancel_timer (m : TimerManager) (timeout_event : TimeoutEvent) (reply : Z -> option bool)
    : TimerManager * bool * option Z :=
  match m.(active_timers) !! timeout_event with
  | Some handle =>
    (with_active m (delete timeout_event m.(active_timers)), default false (reply handle), Some handle)
  | None => (m, false, None)
  end.

(** The handles are cancelled in the order of the map. *)
Definition cancel_all_timers (m : TimerManager) : TimerManager * list Z :=
  (with_active m ∅, (map_to_list m.(active_timers)).*2).

Definition register_idle_timeout (m : TimerManager) (reply : option Z) : TimerManager * bool * option Z :=
  register_timer m IdleTimeout reply.

Definition register_path_validation_timeout (m : TimerManager) (reply : option Z)
    : TimerManager * bool * option Z :=
  register_timer m PathValidationTimeout reply.

Definition register_connection_timeout (m : TimerManager) (reply : option Z)
    : TimerManager * bool * option Z :=
  register_timer m ConnectionTimeout reply.

Definition reset_idle_timeout (m : TimerManager) (reply : option Z) : TimerManager * bool * option Z :=
  register_idle_timeout m reply.

Lemma foldl_delete_lookup (l : list TimeoutEvent) : forall (a : gmap TimeoutEvent Z) e,
  foldl (fun a e => delete e a) a l !! e = if decide (e ∈ l) then None else a !! e.
Proof.
  induction l as [|x l IH]; intros a e; simpl; [done|]. rewrite IH.
  destruct (decide (e ∈ l)), (decide (e ∈ x :: l)); try done.
  - exfalso. set_solver.
  - assert (e = x) as -> by set_solver. by rewrite lookup_delete_eq.
  - rewrite lookup_delete_ne; [done|]. set_solver.
Qed.

(** Reading the queue empties it, reports its events in order and forgets the
    handle of every kind that fired, and of no other. *)
Lemma check_timer_events_spec m :
  let '(m', events) := check_timer_events m in
  events = map TimerEvent.timeout_event m.(timeout_rx) /\ m'.(timeout_rx) = [] /\
  forall e, m'.(active_timers) !! e = if decide (e ∈ events) then None else m.(active_timers) !! e.
Proof. simpl. split_and!; [done..|]. intros e. apply foldl_delete_lookup. Qed.

End TimerManager.

Module TimingManager.
Import Timing.

Record TimingManager := {
  start_time : Instant;
  last_recv_time : Instant;
  fin_pending_eof : bool;
  timer_manager : TimerManager.TimerManager;
  unified_scheduler : UnifiedScheduler.UnifiedTimeoutScheduler;
}.

Implicit Types (t : TimingManager) (config : Config.Config).

Definition new (connection_id : Z) (now scheduler_now : Instant) : TimingManager := {|
  start_time := now; last_recv_time := now; fin_pending_eof := false;
  timer_manager := TimerManager.new connection_id;
  unified_scheduler := UnifiedScheduler.new scheduler_now;
|}.

Definition with_start_time (start : Instant) (connection_id : Z) (scheduler_now : Instant)
    : TimingManager := {|
  start_time := start; last_recv_time := start; fin_pending_eof := false;
  timer_manager := TimerManager.new connection_id;
  unified_scheduler := UnifiedScheduler.new scheduler_now;
|}.

Definition with_timers t (m : TimerManager.TimerManager) : TimingManager := {|
  start_time := t.(start_time); last_recv_time := t.(last_recv_time);
  fin_pending_eof := t.(fin_pending_eof); timer_manager := m;
  unified_scheduler := t.(unified_scheduler) |}.

Definition with_scheduler t (s : UnifiedScheduler.UnifiedTimeoutScheduler) : TimingManager := {|
  start_time := t.(start_time); last_recv_time := t.(last_recv_time);
  fin_pending_eof := t.(fin_pending_eof); timer_manager := t.(timer_manager);
  unified_scheduler := s |}.

(** ** Timers *)

Definition deliver t (fired : list (TimerEvent.TimerEventData TimeoutEvent)) : TimingManager :=
  with_timers t (TimerManager.deliver t.(timer_manager) fired).

Definition check_timer_events t : TimingManager * list TimeoutEvent :=
  let '(m, events) := TimerManager.check_timer_events t.(timer_manager) in (with_timers t m, events).

Definition register_timer t (timeout_event : TimeoutEvent) (reply : option Z)
    : TimingManager * bool * option Z :=
  let '(m, ok, old) := TimerManager.register_timer t.(timer_manager) timeout_event reply in
  (with_timers t m, ok, old).

Definition cancel_timer t (timeout_event : TimeoutEvent) (reply : Z -> option bool)
    : TimingManager * bool * option Z :=
  let '(m, b, h) := TimerManager.cancel_timer t.(timer_manager) timeout_event reply in
  (with_timers t m, b, h).

Definition cancel_all_timers t : TimingManager * list Z :=
  let '(m, hs) := TimerManager.cancel_all_timers t.(timer_manager) in (with_timers t m, hs).

Definition register_idle_timeout t (reply : option Z) : TimingManager * bool * option Z :=
  let '(m, ok, old) := TimerManager.register_idle_timeout t.(timer_manager) reply in
  (with_timers t m, ok, old).

Definition register_path_validation_timeout t (reply : option Z) : TimingManager * bool * option Z :=
  let '(m, ok, old) := TimerManager.register_path_validation_timeout t.(timer_manager) reply in
  (with_timers t m, ok, old).

Definition register_connection_timeout t (reply : option Z) : TimingManager * bool * option Z :=
  let '(m, ok, old) := TimerManager.register_connection_timeout t.(timer_manager) reply in
  (with_timers t m, ok, old).

Definition reset_idle_timeout t (reply : option Z) : TimingManager * bool * option Z :=
  let '(m, ok, old) := TimerManager.reset_idle_timeout t.(timer_manager) reply in
  (with_timers t m, ok, old).

(** ** Times *)

(** Also [touch_last_recv_time] and [on_packet_received]. *)
Definition update_last_recv_time t (time : Instant) : TimingManager := {|
  start_time := t.(start_time); last_recv_time := time; fin_pending_eof := t.(fin_pending_eof);
  timer_manager := t.(timer_manager); unified_scheduler := t.(unified_scheduler) |}.

Definition connection_duration t : Duration := duration_since t.(last_recv_time) t.(start_time).

Definition time_since_last_recv t (now : Instant) : Duration := duration_since now t.(last_recv_time).

Definition is_idle_timeout t (now : Instant) (idle_timeout : Duration) : bool :=
  idle_timeout <? time_since_last_recv t now.

Definition is_connection_timeout t (connection_timeout : Duration) : bool :=
  connection_timeout <? connection_duration t.

(** Also [mark_fin_processed] and [clear_fin_pending_eof]. *)
Definition set_fin_pending_eof t (pending : bool) : TimingManager := {|
  start_time := t.(start_time); last_recv_time := t.(last_recv_time); fin_pending_eof := pending;
  timer_manager := t.(timer_manager); unified_scheduler := t.(unified_scheduler) |}.

Definition reset t (now : Instant) : TimingManager := {|
  start_time := t.(start_time); last_recv_time := now; fin_pending_eof := false;
  timer_manager := t.(timer_manager); unified_scheduler := t.(unified_scheduler) |}.

Definition reset_all t (now : Instant) : TimingManager := {|
  start_time := now; last_recv_time := now; fin_pending_eof := false;
  timer_manager := t.(timer_manager); unified_scheduler := t.(unified_scheduler) |}.

(** ** Timeouts *)

Definition idle config : Duration := config.(Config.connection).(Config.idle_timeout).

Definition calculate_next_wakeup config (is_syn_received : bool) (rto_deadline : option Instant)
    (now : Instant) : Instant :=
  if is_syn_received then now + idle config
  else default (now + idle config) rto_deadline.

Definition check_idle_timeout t config (now : Instant) : bool :=
  idle config <? duration_since now t.(last_recv_time).

Definition check_path_validation_timeout t config (now : Instant) : bool :=
  idle config <? duration_since now t.(last_recv_time).

Definition check_timeouts t config (now : Instant) : option TimeoutEvent :=
  if check_idle_timeout t config now then Some IdleTimeout else None.

Definition time_until_next_timeout t config (now : Instant) : Duration :=
  saturating_sub (idle config) (time_since_last_recv t now).

Definition should_trigger_timeout_handling t config (now : Instant) : bool :=
  match check_timeouts t config now with Some _ => true | None => false end.

Definition check_connection_timeouts t config (now : Instant) : list TimeoutEvent :=
  (if check_idle_timeout t config now then [IdleTimeout] else []) ++
  (if check_path_validation_timeout t config now then [PathValidationTimeout] else []).

Definition next_connection_timeout_deadline t config : option Instant :=
  Some (t.(last_recv_time) + idle config).

(** ** The scheduler *)

Definition calculate_unified_wakeup t (layers : list UnifiedScheduler.dyn_layer)
    (real_now check_start check_end : Instant) : TimingManager * Instant :=
  let '(s, d) := UnifiedScheduler.calculate_unified_deadline t.(unified_scheduler) layers
                   real_now check_start check_end in
  (with_scheduler t s, d).

Definition check_unified_timeout_events t (layers : list UnifiedScheduler.dyn_layer)
    (real_now check_start check_end : Instant)
    : TimingManager * list UnifiedScheduler.dyn_layer * list UnifiedScheduler.TimeoutCheckResult :=
  let '(s, ls, rs) := UnifiedScheduler.check_unified_timeout_events t.(unified_scheduler) layers
                        real_now check_start check_end in
  (with_scheduler t s, ls, rs).

Definition cleanup_unified_scheduler t (now : Instant) : TimingManager :=
  with_scheduler t (UnifiedScheduler.cleanup_expired_data t.(unified_scheduler) now).

Definition reset_unified_scheduler_stats t : TimingManager :=
  with_scheduler t (UnifiedScheduler.reset_stats t.(unified_scheduler)).

#[global] Instance timing_layer : UnifiedScheduler.TimeoutLayer TimingManager := {
  next_deadline t := Some (t.(last_recv_time) + from_secs 30);
  check_timeout_events t _ :=
    let '(t', events) := check_timer_events t in (t', {| UnifiedScheduler.events := events |});
}.

(** The checks of the idle timeout agree with each other and with the
    deadline handed to the event loop: the timeout is reported at every time
    after the deadline and at none before or at it, and the remaining time is
    zero exactly from the deadline on.  The check of the path validation
    timeout is the same check: both are reported together or not at all. *)
Theorem idle_checks_agree t config now :
  0 < idle config ->
  (check_idle_timeout t config now = true <->
     exists d, next_connection_timeout_deadline t config = Some d /\ d < now) /\
  check_timeouts t config now =
    (if check_idle_timeout t config now then Some IdleTimeout else None) /\
  is_idle_timeout t now (idle config) = check_idle_timeout t config now /\
  should_trigger_timeout_handling t config now = check_idle_timeout t config now /\
  check_connection_timeouts t config now =
    (if check_idle_timeout t config now then [IdleTimeout; PathValidationTimeout] else []) /\
  (time_until_next_timeout t config now = 0 <->
     exists d, next_connection_timeout_deadline t config = Some d /\ d <= now).
Proof.
  intros Hi. unfold should_trigger_timeout_handling, check_connection_timeouts, check_timeouts,
    check_path_validation_timeout, is_idle_timeout, time_since_last_recv, time_until_next_timeout,
    time_since_last_recv, next_connection_timeout_deadline.
  fold (check_idle_timeout t config now). split_and!; try done.
  - unfold check_idle_timeout, duration_since, saturating_sub. rewrite Z.ltb_lt. split.
    + intros H. eexists. split; [done|]. lia.
    + intros (d & [= <-] & H). lia.
  - by destruct (check_idle_timeout t config now).
  - by destruct (check_idle_timeout t config now).
  - unfold duration_since, saturating_sub. split.
    + intros H. eexists. split; [done|]. lia.
    + intros (d & [= <-] & H). lia.
Qed.

Lemma idle_checks_agree_witness :
  let t := new 1 0 0 in
  check_idle_timeout t Config.default (from_secs 6) = true /\
  check_idle_timeout t Config.default (from_secs 5) = false /\
  (check_idle_timeout t Config.default (from_secs 6) = true <->
     exists d, next_connection_timeout_deadline t Config.default = Some d /\ d < from_secs 6).
Proof.
  split; [reflexivity|]. split; [reflexivity|].
  apply (idle_checks_agree (new 1 0 0) Config.default (from_secs 6)). done.
Defined.

(** The deadline the manager gives the scheduler ignores the configuration. *)
Lemma layer_deadline_fixed t :
  UnifiedScheduler.next_deadline t = Some (t.(last_recv_time) + from_secs 30).
Proof. done. Qed.

End TimingManager.

(** ** The manager and the timer task *)

Module TimerSystem.
Import Timing TimingWheel GlobalTimerTask.

Section system.
Context {wide : WheelBatch.Wide} {laws : WheelBatch.WideLaws}.

(** One endpoint's manager, whose channel is the unit, and the task; the other
    connections' channels are numbers. *)
Abbreviation Channel := (unit + Z)%type.
Abbreviation Task := (GlobalTimerTask TimeoutEvent Channel).

Record System := {
  manager : TimerManager.TimerManager;
  task : Task;
  spawned : list Z;                    (* handles whose cancellation was spawned *)
}.

Implicit Types (s : System) (e : TimeoutEvent).

Definition register s e (delay : Duration) : System :=
  let '(t', i) := register_timer s.(task) (TimerManager.registration s.(manager) e delay (inl ())) in
  let '(m', _, old) := TimerManager.register_timer s.(manager) e (Some i) in
  {| manager := m'; task := t'; spawned := s.(spawned) ++ option_list old |}.

Definition cancel s e : System * bool :=
  match s.(manager).(TimerManager.active_timers) !! e with
  | Some h =>
    let '(t', b) := cancel_timer s.(task) h in
    let '(m', r, _) := TimerManager.cancel_timer s.(manager) e (fun _ => Some b) in
    ({| manager := m'; task := t'; spawned := s.(spawned) |}, r)
  | None =>
    let '(m', r, _) := TimerManager.cancel_timer s.(manager) e (fun _ => None) in
    ({| manager := m'; task := s.(task); spawned := s.(spawned) |}, r)
  end.

(** The events that fired for this manager are queued on its channel. *)
Definition mine (l : list (Channel * TimerEvent.TimerEventData TimeoutEvent))
    : list (TimerEvent.TimerEventData TimeoutEvent) :=
  omap (fun x => match x.1 with inl _ => Some x.2 | inr _ => None end) l.

Definition advance s (now : Instant) : System :=
  let '(t', fired) := advance_timing_wheel s.(task) now in
  {| manager := TimerManager.deliver s.(manager) (mine fired); task := t'; spawned := s.(spawned) |}.

Definition read_events s : System * list TimeoutEvent :=
  let '(m', events) := TimerManager.check_timer_events s.(manager) in
  ({| manager := m'; task := s.(task); spawned := s.(spawned) |}, events).

(** A spawned cancellation runs. *)
Definition run_spawned s : System :=
  match s.(spawned) with
  | h :: rest => {| manager := s.(manager); task := (cancel_timer s.(task) h).1; spawned := rest |}
  | [] => s
  end.

(** A timer of this manager that will still fire. *)
Definition armed s e (i : Z) : Prop :=
  exists x, x ∈ pending s.(task).(timing_wheel) /\ x.(TimingWheel.id) = i /\
    x.(event).(TimerEvent.callback_tx) = inl () /\
    x.(event).(TimerEvent.data).(TimerEvent.timeout_event) = e.

(** Cancelling a kind of timer disarms the timer the manager holds for it:
    the manager forgets the handle, its timer no longer fires, other timers
    stay armed, and the answer tells whether it was still armed. *)
Theorem cancel_disarms now s e h :
  live now s.(task) -> s.(manager).(TimerManager.active_timers) !! e = Some h ->
  let '(s', b) := cancel s e in
  s'.(manager).(TimerManager.active_timers) = delete e s.(manager).(TimerManager.active_timers) /\
  (forall e' i, armed s' e' i <-> armed s e' i /\ i <> h) /\
  (b = true <-> exists x, x ∈ pending s.(task).(timing_wheel) /\ x.(TimingWheel.id) = h).
Proof.
  intros Hl Hh. unfold cancel. rewrite Hh. destruct (cancel_timer s.(task) h) as [t' b] eqn:Ec.
  destruct (GlobalTimerTask.live_consistent now s.(task) Hl) as [Ht _].
  unfold TimerManager.cancel_timer. rewrite Hh. simpl. split; [done|].
  unfold cancel_timer in Ec. destruct (TimingWheel.cancel_timer _ h) as [w b'] eqn:Ew.
  destruct (cancel_pending _ _ h w b' (ok_wheel _ Ht) (ok_entry _ Ht) Ew) as (_ & Hp & Hb).
  assert (Hw : t'.(timing_wheel) = w /\ b = b').
  { destruct b'; [destruct (_ !! h)|]; injection Ec as <- <-; done. }
  destruct Hw as [Hw <-]. unfold armed. simpl. rewrite Hw. split.
  - intros e' i. setoid_rewrite Hp. split.
    + intros (x & [H1 H2] & H3 & H4). split; [by exists x|congruence].
    + intros [(x & H1 & H2 & H3) H4]. exists x. split; [split; [done|congruence]|done].
  - rewrite Hb. split.
    + intros [c (x & Hx & Hi & _)%(ok_entry _ Ht)]. eauto.
    + intros (x & Hx & Hi). exists (conn x). apply (ok_entry _ Ht). eauto.
Qed.

End system.

#[local] Existing Instance WheelBatch.wrapping_wide.
#[local] Existing Instance WheelBatch.wrapping_wide_laws.

Definition example_system : option System :=
  match new 0 with
  | Done t => Some {| manager := TimerManager.new 7; task := t; spawned := [] |}
  | Panic => None
  end.

(** An event that is still queued when its kind is registered again makes the
    manager forget the new timer: it can no longer be cancelled and fires. *)
Lemma stale_event_forgets_newer :
  match example_system with
  | None => False
  | Some s =>
    let s1 := register s PathValidationTimeout (from_millis 20) in
    let s2 := advance s1 (from_millis 30) in
    let s3 := run_spawned (register s2 PathValidationTimeout (from_secs 5)) in
    let '(s4, events) := read_events s3 in
    let '(s5, b) := cancel s4 PathValidationTimeout in
    let s6 := advance s5 (from_secs 6) in
    events = [PathValidationTimeout] /\ b = false /\
    map TimerEvent.timeout_event s6.(manager).(TimerManager.timeout_rx) = [PathValidationTimeout]
  end.
Proof. vm_compute. done. Qed.

Lemma cancel_disarms_witness :
  exists s0, example_system = Some s0 /\
  let s := register s0 ConnectionTimeout (from_secs 5) in
  (cancel s ConnectionTimeout).2 = true /\
  forall e' i, armed (cancel s ConnectionTimeout).1 e' i <-> armed s e' i /\ i <> 1.
Proof.
  assert (H : (fun s => (cancel (register s ConnectionTimeout (from_secs 5)) ConnectionTimeout).2)
    <$> example_system = Some true) by (vm_compute; reflexivity).
  assert (H1 : (fun s => (register s ConnectionTimeout (from_secs 5)).(manager).(TimerManager.active_timers)
    !! ConnectionTimeout) <$> example_system = Some (Some 1)) by (vm_compute; reflexivity).
  unfold example_system in *. destruct (new 0) as [t0|] eqn:E0; [|discriminate H].
  eexists. split; [reflexivity|]. apply (f_equal (default false)) in H. apply (f_equal (default None)) in H1.
  assert (Hl : live 0 (register {| manager := TimerManager.new 7; task := t0; spawned := [] |}
      ConnectionTimeout (from_secs 5)).(task)).
  { exists t0. split; [done|]. eapply rtc_l; [|apply rtc_refl]. exists [].
    eapply (step_command t0 0 (RegisterTimer (TimerManager.registration (TimerManager.new 7)
      ConnectionTimeout (from_secs 5) (inl ())))); [done|].
    injection E0 as <-. reflexivity. }
  split; [exact H|].
  pose proof (cancel_disarms 0 (register {| manager := TimerManager.new 7; task := t0; spawned := [] |}
    ConnectionTimeout (from_secs 5)) ConnectionTimeout 1 Hl H1) as Hc.
  destruct (cancel _ ConnectionTimeout) as [s' b]. apply Hc.
Defined.

End TimerSystem.
