(* ===== verification/Endpoint.v ===== *)
(** * Endpoint: state and effects

    Models the types of [src/core/endpoint/types/] and [src/core/endpoint.rs]:
    an endpoint's identity, transport, channels and timing, and the small monad
    its asynchronous operations are written in.  An operation takes a world
    (the endpoint, the effects it had so far, and the number of readings of
    its environment) and may panic, fail with an [Error], or return a value.
    The environment [Env] answers what the code reads from outside: the clock,
    the random generator, whether a channel still has a receiver, and the
    replies of the timer task.  An [await] that only waits is not visible,
    so no theorem here excludes that a loop waits for room in a full channel. *)

From S2P Require Import Prelude BTreeMap Packet Config Frame SendBuffer RecvBuffer Rtt Congestion SackManager.
From S2P Require Import SimpleRetx Retransmission Packetizer Reliability Lifecycle UnifiedScheduler TimerTask TimingManager.

Module Endpoint.

Section endpoint.
Context {T : Type} `{CC : CongestionControl T} {SocketAddr : Type} `{!EqDecision SocketAddr}.

Abbreviation Reliability := (ReliabilityLayer.ReliabilityLayer T).
Abbreviation Manager := (Lifecycle.DefaultLifecycleManager SocketAddr).

(** ** [types/identity.rs], [types/transport.rs] *)

Record ConnectionIdentity := {
  local_cid : Z;                       (* u32 *)
  peer_cid : Z;                        (* u32 *)
  remote_addr : SocketAddr;
}.

Record TransportManager := {
  reliability : Reliability;
  peer_recv_window : Z;                (* u32 *)
}.

Definition transport_new (reliability : Reliability) : TransportManager :=
  {| reliability := reliability; peer_recv_window := 32 |}.

(** ** [endpoint.rs] *)

(** [stream_open] tells whether [tx_to_stream] still holds a sender. *)
Record Endpoint := {
  identity : ConnectionIdentity;
  timing : TimingManager.TimingManager;
  transport : TransportManager;
  stream_open : bool;
  lifecycle_manager : Manager;
  config : Config.Config;
}.

Implicit Types (e : Endpoint).

(** The variants of [crate::error::Error] an endpoint produces. *)
Inductive Error :=
| LifecycleError (e : Lifecycle.Error)
| ChannelClosed
| ConnectionTimeout
| FrameTypeMismatch
| InvalidFrame
| TimerError.

(** What an endpoint does to the outside. *)
Inductive effect :=
| SendFrames (addr : SocketAddr) (frames : list Frame.Frame)   (* a datagram *)
| UpdateAddr (cid : Z) (new_addr : SocketAddr)                 (* a socket command *)
| RemoveConnection (cid : Z)
| LifecycleEffect (eff : Lifecycle.effect (SocketAddr := SocketAddr))
| ToStream (data : list (list byte))
| CloseStream
| StartTimer (event : Timing.TimeoutEvent) (delay : Duration)
| CancelTimer (handle : Z).

(** Answers to the [n]-th reading. *)
Record Env := {
  clock : nat -> Instant;
  random : nat -> Z;                              (* rand::random::<u64>() *)
  channel_ok : nat -> bool;                       (* a send to the socket succeeds *)
  stream_ok : nat -> bool;                        (* a send to the user's stream succeeds *)
  register_reply : nat -> option Z;
  cancel_reply : nat -> Z -> option bool;
}.

Record World := {
  ep : Endpoint;
  log : list effect;
  reads : nat;
}.

Implicit Types (w : World).

Definition M (A : Type) : Type := World -> outcome (World * (A + Error)).

Definition ret {A} (a : A) : M A := fun w => Done (w, inl a).

Definition fail {A} (err : Error) : M A := fun w => Done (w, inr err).

Definition bind {A B} (m : M A) (f : A -> M B) : M B := fun w =>
  match m w with
  | Done (w', inl a) => f a w'
  | Done (w', inr err) => Done (w', inr err)
  | Panic => Panic
  end.

(** [if let Ok(..) = m] and [let _ = m]: the error as a value. *)
Definition attempt {A} (m : M A) : M (A + Error) := fun w =>
  match m w with
  | Done (w', r) => Done (w', inl r)
  | Panic => Panic
  end.

Definition panic {A} : M A := fun _ => Panic.

(** A computation that may panic and does not touch the world. *)
Definition lift {A} (o : outcome A) : M A := fun w =>
  match o with Done a => Done (w, inl a) | Panic => Panic end.

(** *** Updates *)

Definition with_identity e i : Endpoint := {|
  identity := i; timing := e.(timing); transport := e.(transport); stream_open := e.(stream_open);
  lifecycle_manager := e.(lifecycle_manager); config := e.(config) |}.

Definition with_timing e t : Endpoint := {|
  identity := e.(identity); timing := t; transport := e.(transport); stream_open := e.(stream_open);
  lifecycle_manager := e.(lifecycle_manager); config := e.(config) |}.

Definition with_transport e t : Endpoint := {|
  identity := e.(identity); timing := e.(timing); transport := t; stream_open := e.(stream_open);
  lifecycle_manager := e.(lifecycle_manager); config := e.(config) |}.

Definition with_stream e b : Endpoint := {|
  identity := e.(identity); timing := e.(timing); transport := e.(transport); stream_open := b;
  lifecycle_manager := e.(lifecycle_manager); config := e.(config) |}.

Definition with_lifecycle e m : Endpoint := {|
  identity := e.(identity); timing := e.(timing); transport := e.(transport);
  stream_open := e.(stream_open); lifecycle_manager := m; config := e.(config) |}.

Definition with_reliability e (rl : Reliability) : Endpoint :=
  with_transport e {| reliability := rl; peer_recv_window := e.(transport).(peer_recv_window) |}.

Definition set_ep w e : World := {| ep := e; log := w.(log); reads := w.(reads) |}.

Definition emitted w (effs : list effect) : World :=
  {| ep := w.(ep); log := w.(log) ++ effs; reads := w.(reads) |}.

Definition ticked w : World := {| ep := w.(ep); log := w.(log); reads := S w.(reads) |}.

(** *** Primitive operations *)

Definition get : M Endpoint := fun w => Done (w, inl w.(ep)).

Definition emit (eff : effect) : M unit := fun w => Done (emitted w [eff], inl tt).

Definition current_state e : Lifecycle.ConnectionState SocketAddr := e.(lifecycle_manager).(Lifecycle.current_state).

Definition rel e : Reliability := e.(transport).(reliability).

(** An operation of the lifecycle manager, with its effects. *)
Definition lifecycle (op : Manager -> Lifecycle.outcome_of) : M unit := fun w =>
  let '(r, m, effs) := op w.(ep).(lifecycle_manager) in
  Done (emitted (set_ep w (with_lifecycle w.(ep) m)) (map LifecycleEffect effs),
        match r with inl _ => inl tt | inr err => inr (LifecycleError err) end).

(** Operations of the reliability layer. *)
Definition reliability_op {A} (op : Reliability -> Reliability * A) : M A := fun w =>
  let '(rl, a) := op (rel w.(ep)) in Done (set_ep w (with_reliability w.(ep) rl), inl a).

Definition reliability_try {A} (op : Reliability -> outcome (Reliability * A)) : M A := fun w =>
  match op (rel w.(ep)) with
  | Done (rl, a) => Done (set_ep w (with_reliability w.(ep) rl), inl a)
  | Panic => Panic
  end.

Definition set_peer_recv_window (n : Z) : M unit := fun w =>
  Done (set_ep w (with_transport w.(ep) {| reliability := rel w.(ep); peer_recv_window := n |}), inl tt).

Definition set_peer_cid (n : Z) : M unit := fun w =>
  let i := w.(ep).(identity) in
  Done (set_ep w (with_identity w.(ep)
    {| local_cid := i.(local_cid); peer_cid := n; remote_addr := i.(remote_addr) |}), inl tt).

Definition set_remote_addr (a : SocketAddr) : M unit := fun w =>
  let i := w.(ep).(identity) in
  Done (set_ep w (with_identity w.(ep)
    {| local_cid := i.(local_cid); peer_cid := i.(peer_cid); remote_addr := a |}), inl tt).

Definition update_last_recv_time (t : Instant) : M unit := fun w =>
  Done (set_ep w (with_timing w.(ep) (TimingManager.update_last_recv_time w.(ep).(timing) t)), inl tt).

Definition set_fin_pending_eof (b : bool) : M unit := fun w =>
  Done (set_ep w (with_timing w.(ep) (TimingManager.set_fin_pending_eof w.(ep).(timing) b)), inl tt).

Definition cleanup_unified_scheduler (t : Instant) : M unit := fun w =>
  Done (set_ep w (with_timing w.(ep) (TimingManager.cleanup_unified_scheduler w.(ep).(timing) t)), inl tt).

(** The timer task sends events to the endpoint. *)
Definition timers_fired (fired : list (TimerEvent.TimerEventData Timing.TimeoutEvent)) : M unit := fun w =>
  Done (set_ep w (with_timing w.(ep) (TimingManager.deliver w.(ep).(timing) fired)), inl tt).

(** [self.timing.check_timeout_events(now).events] *)
Definition read_timer_events : M (list Timing.TimeoutEvent) := fun w =>
  let '(t, events) := TimingManager.check_timer_events w.(ep).(timing) in
  Done (set_ep w (with_timing w.(ep) t), inl events).

(** [tx_to_stream = None] *)
Definition close_stream : M unit := fun w =>
  Done (if w.(ep).(stream_open)
        then emitted (set_ep w (with_stream w.(ep) false)) [CloseStream] else w, inl tt).

Variable env : Env.

(** [Instant::now()] *)
Definition now : M Instant := fun w => Done (ticked w, inl (env.(clock) w.(reads))).

Definition rand : M Z := fun w => Done (ticked w, inl (env.(random) w.(reads))).

(** [channels.sender.send(TransportCommand::Send(batch)).await] *)
Definition send_batch (addr : SocketAddr) (frames : list Frame.Frame) : M unit := fun w =>
  if env.(channel_ok) w.(reads) then Done (emitted (ticked w) [SendFrames addr frames], inl tt)
  else Done (ticked w, inr ChannelClosed).

(** [let _ = command_tx.send(UpdateAddr { .. }).await] *)
Definition command_update_addr (cid : Z) (addr : SocketAddr) : M unit := fun w =>
  Done ((if env.(channel_ok) w.(reads) then emitted (ticked w) [UpdateAddr cid addr] else ticked w),
        inl tt).

(** [command_tx.try_send(RemoveConnection { .. })] *)
Definition command_remove_connection (cid : Z) : M unit := fun w =>
  Done ((if env.(channel_ok) w.(reads) then emitted (ticked w) [RemoveConnection cid] else ticked w),
        inl tt).

(** The user's stream; a failed send closes it. *)
Definition send_to_stream (data : list (list byte)) : M unit := fun w =>
  if w.(ep).(stream_open) then
    if env.(stream_ok) w.(reads) then Done (emitted (ticked w) [ToStream data], inl tt)
    else Done (set_ep (ticked w) (with_stream w.(ep) false), inl tt)
  else Done (w, inl tt).

(** Registers a timer; the handle it replaces is cancelled. *)
Definition register_timer (event : Timing.TimeoutEvent) (delay : Duration) : M bool := fun w =>
  let '(t, ok, old) := TimingManager.register_timer w.(ep).(timing) event (env.(register_reply) w.(reads)) in
  Done (emitted (ticked (set_ep w (with_timing w.(ep) t)))
          (StartTimer event delay :: map CancelTimer (option_list old)), inl ok).

Definition cancel_timer (event : Timing.TimeoutEvent) : M bool := fun w =>
  let '(t, b, handle) := TimingManager.cancel_timer w.(ep).(timing) event (env.(cancel_reply) w.(reads)) in
  Done (emitted (ticked (set_ep w (with_timing w.(ep) t))) (map CancelTimer (option_list handle)), inl b).

(** *** Evaluation *)

Lemma bind_ret {A B} (a : A) (f : A -> M B) w : bind (ret a) f w = f a w.
Proof. done. Qed.

Lemma bind_fail {A B} err (f : A -> M B) w : bind (fail err) f w = Done (w, inr err).
Proof. done. Qed.

Lemma bind_cong {A B} (m : M A) (f g : A -> M B) w :
  (forall a w', m w = Done (w', inl a) -> f a w' = g a w') -> bind m f w = bind m g w.
Proof. intros H. unfold bind. destruct (m w) as [[w' [a|err]]|]; [by apply H|done..]. Qed.

Lemma run_bind_inv {A B} (m : M A) (f : A -> M B) w w' r :
  bind m f w = Done (w', r) ->
  (exists err, m w = Done (w', inr err) /\ r = inr err) \/
  exists w1 a, m w = Done (w1, inl a) /\ f a w1 = Done (w', r).
Proof.
  unfold bind. destruct (m w) as [[w1 [a|err]]|]; [right; eauto|intros [= <- <-]; left; eauto|done].
Qed.

Lemma bind_bind {A B C} (m : M A) (f : A -> M B) (g : B -> M C) w :
  bind (bind m f) g w = bind m (fun a => bind (f a) g) w.
Proof. unfold bind. by destruct (m w) as [[w1 [a|err]]|]. Qed.

Lemma bind_ext {A B} (m : M A) (f g : A -> M B) w :
  (forall a w, f a w = g a w) -> bind m f w = bind m g w.
Proof. intros H. unfold bind. destruct (m w) as [[w1 [a|err]]|]; [apply H|done..]. Qed.

Lemma bind_get {B} (f : Endpoint -> M B) w : bind get f w = f w.(ep) w.
Proof. done. Qed.

Lemma bind_lift {A B} (a : A) (f : A -> M B) w : bind (lift (Done a)) f w = f a w.
Proof. done. Qed.

Lemma bind_now {B} (f : Instant -> M B) w : bind now f w = f (env.(clock) w.(reads)) (ticked w).
Proof. done. Qed.

Lemma bind_rand {B} (f : Z -> M B) w : bind rand f w = f (env.(random) w.(reads)) (ticked w).
Proof. done. Qed.

Lemma bind_lifecycle {B} op (f : unit -> M B) w :
  bind (lifecycle op) f w =
  let '(r, m, effs) := op w.(ep).(lifecycle_manager) in
  let w' := emitted (set_ep w (with_lifecycle w.(ep) m)) (map LifecycleEffect effs) in
  match r with inl _ => f tt w' | inr err => Done (w', inr (LifecycleError err)) end.
Proof. unfold bind, lifecycle. by destruct (op _) as [[[[]|] m] effs]. Qed.

Lemma bind_reliability_op {A B} (op : Reliability -> Reliability * A) (f : A -> M B) w :
  bind (reliability_op op) f w =
  let '(rl, a) := op (rel w.(ep)) in f a (set_ep w (with_reliability w.(ep) rl)).
Proof. unfold bind, reliability_op. by destruct (op _). Qed.

Lemma bind_reliability_try {A B} (op : Reliability -> outcome (Reliability * A)) (f : A -> M B) w :
  bind (reliability_try op) f w =
  match op (rel w.(ep)) with
  | Done (rl, a) => f a (set_ep w (with_reliability w.(ep) rl))
  | Panic => Panic
  end.
Proof. unfold bind, reliability_try. by destruct (op _) as [[]|]. Qed.

Lemma bind_attempt {A B} (m : M A) (f : A + Error -> M B) w :
  bind (attempt m) f w = match m w with Done (w', r) => f r w' | Panic => Panic end.
Proof. unfold bind, attempt. by destruct (m w) as [[w' r]|]. Qed.

(** ** Steps

    Every operation is a sequence of primitive steps.  A step has a kind, so
    that a theorem can say which kinds an operation takes; invariants of the
    endpoint are proved by induction on the steps. *)

(** [RSend] are the operations of the sending half, [RAck] is [on_ack_sent]. *)
Inductive reliability_kind := RSend | RAck | RPush (seq : Z) (payload : list byte) | RFin (seq : Z) | RReassemble.

Inductive reliability_step : reliability_kind -> Reliability -> Reliability -> Prop :=
| rs_packetize rl cid window t start frames rl' :
    ReliabilityLayer.packetize_stream_data rl cid window t start None = (rl', frames) ->
    reliability_step RSend rl rl'
| rs_zero_rtt rl cid window t start frame max groups rl' :
    ReliabilityLayer.packetize_zero_rtt_stream_data rl cid window t start frame max = Done (rl', groups) ->
    reliability_step RSend rl rl'
| rs_handle_ack rl next ranges t ctx frames rl' :
    ReliabilityLayer.handle_ack rl next ranges t ctx = Done (rl', frames) -> reliability_step RSend rl rl'
| rs_retransmit rl t ctx frames rl' :
    ReliabilityLayer.check_retransmissions rl t ctx = (rl', frames) -> reliability_step RSend rl rl'
| rs_receive_push rl seq payload b rl' :
    ReliabilityLayer.receive_push rl seq payload = (rl', b) -> reliability_step (RPush seq payload) rl rl'
| rs_receive_fin rl seq b rl' :
    ReliabilityLayer.receive_fin rl seq = (rl', b) -> reliability_step (RFin seq) rl rl'
| rs_reassemble rl r rl' : ReliabilityLayer.reassemble rl = (rl', r) -> reliability_step RReassemble rl rl'
| rs_ack_sent rl : reliability_step RAck rl (ReliabilityLayer.on_ack_sent rl)
| rs_write rl data n rl' :
    ReliabilityLayer.write_to_stream rl data = (rl', n) -> reliability_step RSend rl rl'
| rs_sequence rl n rl' :
    ReliabilityLayer.next_sequence_number rl = (rl', n) -> reliability_step RSend rl rl'
| rs_track rl frame t : reliability_step RSend rl (ReliabilityLayer.track_frame_in_flight rl frame t)
| rs_clear rl : reliability_step RSend rl (ReliabilityLayer.clear_in_flight_packets rl).

Inductive kind :=
| KClock | KLifecycle | KReliability (r : reliability_kind) | KWindow | KPeerCid | KRemoteAddr | KTiming
| KTimer (event : Timing.TimeoutEvent) | KCancel | KSend (frames : list Frame.Frame) | KCommand | KStream | KClose.

Inductive prim w : kind -> World -> Prop :=
| prim_tick : prim w KClock (ticked w)
| prim_lifecycle r m effs :
    Lifecycle.step w.(ep).(lifecycle_manager) r effs m ->
    prim w KLifecycle (emitted (set_ep w (with_lifecycle w.(ep) m)) (map LifecycleEffect effs))
| prim_reliability c rl :
    reliability_step c (rel w.(ep)) rl -> prim w (KReliability c) (set_ep w (with_reliability w.(ep) rl))
| prim_window n :
    prim w KWindow (set_ep w (with_transport w.(ep) {| reliability := rel w.(ep); peer_recv_window := n |}))
| prim_peer_cid n :
    prim w KPeerCid (set_ep w (with_identity w.(ep) {| local_cid := w.(ep).(identity).(local_cid);
      peer_cid := n; remote_addr := w.(ep).(identity).(remote_addr) |}))
| prim_remote_addr a :
    prim w KRemoteAddr (set_ep w (with_identity w.(ep) {| local_cid := w.(ep).(identity).(local_cid);
      peer_cid := w.(ep).(identity).(peer_cid); remote_addr := a |}))
| prim_recv_time t :
    prim w KTiming (set_ep w (with_timing w.(ep) (TimingManager.update_last_recv_time w.(ep).(timing) t)))
| prim_fin b :
    prim w KTiming (set_ep w (with_timing w.(ep) (TimingManager.set_fin_pending_eof w.(ep).(timing) b)))
| prim_cleanup t :
    prim w KTiming (set_ep w (with_timing w.(ep) (TimingManager.cleanup_unified_scheduler w.(ep).(timing) t)))
| prim_fired fired :
    prim w KTiming (set_ep w (with_timing w.(ep) (TimingManager.deliver w.(ep).(timing) fired)))
| prim_events :
    prim w KTiming (set_ep w (with_timing w.(ep) (TimingManager.check_timer_events w.(ep).(timing)).1))
| prim_register event delay reply t ok old :
    TimingManager.register_timer w.(ep).(timing) event reply = (t, ok, old) ->
    prim w (KTimer event) (emitted (ticked (set_ep w (with_timing w.(ep) t)))
      (StartTimer event delay :: map CancelTimer (option_list old)))
| prim_cancel event reply t b handle :
    TimingManager.cancel_timer w.(ep).(timing) event reply = (t, b, handle) ->
    prim w KCancel (emitted (ticked (set_ep w (with_timing w.(ep) t))) (map CancelTimer (option_list handle)))
| prim_send addr frames : prim w (KSend frames) (emitted (ticked w) [SendFrames addr frames])
| prim_command cid addr : prim w KCommand (emitted (ticked w) [UpdateAddr cid addr])
| prim_remove cid : prim w KCommand (emitted (ticked w) [RemoveConnection cid])
| prim_to_stream data : w.(ep).(stream_open) = true -> prim w KStream (emitted (ticked w) [ToStream data])
| prim_stream_lost : prim w KStream (set_ep (ticked w) (with_stream w.(ep) false))
| prim_close : prim w KClose (emitted (set_ep w (with_stream w.(ep) false)) [CloseStream]).

Definition steps (K : kind -> Prop) : World -> World -> Prop := rtc (fun w w' => exists k, K k /\ prim w k w').

(** Wherever an operation stops, with a value or an error, it got there by
    steps of the kinds in [K]. *)
Definition runs {A} (K : kind -> Prop) (m : M A) : Prop :=
  forall w w' r, m w = Done (w', r) -> steps K w w'.

Lemma runs_weaken {A} (K K' : kind -> Prop) (m : M A) :
  (forall k, K k -> K' k) -> runs K m -> runs K' m.
Proof.
  intros HK Hm w w' r E. apply Hm in E. induction E as [w|w1 w2 w3 (k & Hk & H1) _ IH]; [apply rtc_refl|].
  eapply rtc_l; [|exact IH]. eauto.
Qed.

Lemma runs_one {A} (K : kind -> Prop) (m : M A) :
  (forall w w' r, m w = Done (w', r) -> w' = w \/ exists k, K k /\ prim w k w') -> runs K m.
Proof. intros H w w' r E. destruct (H w w' r E) as [->|Hk]; [apply rtc_refl|by apply rtc_once]. Qed.

Lemma runs_bind {A B} K (m : M A) (f : A -> M B) :
  runs K m -> (forall a, runs K (f a)) -> runs K (bind m f).
Proof.
  intros Hm Hf w w' r. unfold bind. destruct (m w) as [[w1 [a|err]]|] eqn:E; intros H; try done.
  - etrans; [by eapply Hm|by eapply Hf].
  - injection H as <- <-. by eapply Hm.
Qed.

Lemma runs_ret {A} K (a : A) : runs K (ret a).
Proof. apply runs_one. intros w w' r [= <- <-]. by left. Qed.

Lemma runs_fail {A} K err : runs K (fail (A := A) err).
Proof. apply runs_one. intros w w' r [= <- <-]. by left. Qed.

Lemma runs_panic {A} K : runs K (panic (A := A)).
Proof. by intros w w' r. Qed.

Lemma runs_lift {A} K (o : outcome A) : runs K (lift o).
Proof. apply runs_one. unfold lift. intros w w' r. destruct o; [|done]. intros [= <- <-]. by left. Qed.

Lemma runs_attempt {A} K (m : M A) : runs K m -> runs K (attempt m).
Proof.
  intros Hm w w' r. unfold attempt. destruct (m w) as [[w1 r1]|] eqn:E; [|done].
  intros [= <- <-]. by eapply Hm.
Qed.

Lemma runs_get K : runs K get.
Proof. apply runs_one. intros w w' r [= <- <-]. by left. Qed.

Lemma runs_now (K : kind -> Prop) : K KClock -> runs K now.
Proof. intros HK. apply runs_one. intros w w' r [= <- <-]. right. exists KClock. split; [done|constructor]. Qed.

Lemma runs_rand (K : kind -> Prop) : K KClock -> runs K rand.
Proof. intros HK. apply runs_one. intros w w' r [= <- <-]. right. exists KClock. split; [done|constructor]. Qed.

Lemma runs_lifecycle (K : kind -> Prop) op :
  K KLifecycle -> (forall m r m' effs, op m = (r, m', effs) -> Lifecycle.step m r effs m') ->
  runs K (lifecycle op).
Proof.
  intros HK Hop. apply runs_one. intros w w' r. unfold lifecycle.
  destruct (op _) as [[r1 m] effs] eqn:E. intros [= <- <-]. right. exists KLifecycle.
  split; [done|]. eapply prim_lifecycle. by apply Hop.
Qed.

Lemma runs_reliability_op {A} (K : kind -> Prop) c (op : Reliability -> Reliability * A) :
  (forall rl, reliability_step c rl (op rl).1) -> K (KReliability c) -> runs K (reliability_op op).
Proof.
  intros Hop HK. apply runs_one. intros w w' r. unfold reliability_op. specialize (Hop (rel w.(ep))).
  destruct (op _) as [rl a]. intros [= <- <-]. right. exists (KReliability c). split; [done|by constructor].
Qed.

Lemma runs_reliability_try {A} (K : kind -> Prop) c (op : Reliability -> outcome (Reliability * A)) :
  (forall rl rl' a, op rl = Done (rl', a) -> reliability_step c rl rl') -> K (KReliability c) ->
  runs K (reliability_try op).
Proof.
  intros Hop HK. apply runs_one. intros w w' r. unfold reliability_try.
  destruct (op _) as [[rl a]|] eqn:E; [|done]. intros [= <- <-]. right. exists (KReliability c).
  split; [done|]. constructor. by eapply Hop.
Qed.

Lemma runs_set_peer_recv_window (K : kind -> Prop) n : K KWindow -> runs K (set_peer_recv_window n).
Proof. intros HK. apply runs_one. intros w w' r [= <- <-]. right. exists KWindow. split; [done|constructor]. Qed.

Lemma runs_set_peer_cid (K : kind -> Prop) n : K KPeerCid -> runs K (set_peer_cid n).
Proof. intros HK. apply runs_one. intros w w' r [= <- <-]. right. exists KPeerCid. split; [done|constructor]. Qed.

Lemma runs_set_remote_addr (K : kind -> Prop) a : K KRemoteAddr -> runs K (set_remote_addr a).
Proof. intros HK. apply runs_one. intros w w' r [= <- <-]. right. exists KRemoteAddr. split; [done|constructor]. Qed.

Lemma runs_update_last_recv_time (K : kind -> Prop) t : K KTiming -> runs K (update_last_recv_time t).
Proof. intros HK. apply runs_one. intros w w' r [= <- <-]. right. exists KTiming. split; [done|constructor]. Qed.

Lemma runs_set_fin_pending_eof (K : kind -> Prop) b : K KTiming -> runs K (set_fin_pending_eof b).
Proof. intros HK. apply runs_one. intros w w' r [= <- <-]. right. exists KTiming. split; [done|constructor]. Qed.

Lemma runs_cleanup (K : kind -> Prop) t : K KTiming -> runs K (cleanup_unified_scheduler t).
Proof. intros HK. apply runs_one. intros w w' r [= <- <-]. right. exists KTiming. split; [done|constructor]. Qed.

Lemma runs_timers_fired (K : kind -> Prop) fired : K KTiming -> runs K (timers_fired fired).
Proof. intros HK. apply runs_one. intros w w' r [= <- <-]. right. exists KTiming. split; [done|constructor]. Qed.

Lemma runs_read_timer_events (K : kind -> Prop) : K KTiming -> runs K read_timer_events.
Proof.
  intros HK. apply runs_one. intros w w' r. unfold read_timer_events. pose proof (prim_events w) as P.
  destruct (TimingManager.check_timer_events _) as [t evs]. intros [= <- <-]. right. by exists KTiming.
Qed.

Lemma runs_close_stream (K : kind -> Prop) : K KClose -> runs K close_stream.
Proof.
  intros HK. apply runs_one. intros w w' r. unfold close_stream. intros [= <- <-].
  destruct (stream_open _); [right|by left]. exists KClose. split; [done|constructor].
Qed.

Lemma runs_send_batch (K : kind -> Prop) addr frames : K KClock -> K (KSend frames) -> runs K (send_batch addr frames).
Proof.
  intros HK1 HK2. apply runs_one. intros w w' r. unfold send_batch.
  case_match; intros [= <- <-]; right; eexists; (split; [|constructor]); done.
Qed.

Lemma runs_command_update_addr (K : kind -> Prop) cid addr : K KClock -> K KCommand -> runs K (command_update_addr cid addr).
Proof.
  intros HK1 HK2. apply runs_one. intros w w' r. unfold command_update_addr. intros [= <- <-].
  case_match; right; eexists; (split; [|constructor]); done.
Qed.

Lemma runs_remove (K : kind -> Prop) cid : K KClock -> K KCommand -> runs K (command_remove_connection cid).
Proof.
  intros HK1 HK2. apply runs_one. intros w w' r. unfold command_remove_connection. intros [= <- <-].
  case_match; right; eexists; (split; [|constructor]); done.
Qed.

Lemma runs_send_to_stream (K : kind -> Prop) data : K KStream -> runs K (send_to_stream data).
Proof.
  intros HK. apply runs_one. intros w w' r. unfold send_to_stream.
  destruct (stream_open _) eqn:Eo; [case_match|]; intros [= <- <-]; [right..|by left];
    exists KStream; (split; [done|]); [by constructor|constructor].
Qed.

Lemma runs_register_timer (K : kind -> Prop) event delay : K (KTimer event) -> runs K (register_timer event delay).
Proof.
  intros HK. apply runs_one. intros w w' r. unfold register_timer.
  destruct (TimingManager.register_timer _ _ _) as [[t ok] old] eqn:E. intros [= <- <-]. right.
  exists (KTimer event). split; [done|]. by eapply prim_register.
Qed.

Lemma runs_cancel_timer (K : kind -> Prop) event : K KCancel -> runs K (cancel_timer event).
Proof.
  intros HK. apply runs_one. intros w w' r. unfold cancel_timer.
  destruct (TimingManager.cancel_timer _ _ _) as [[t b] h] eqn:E. intros [= <- <-]. right.
  exists KCancel. split; [done|]. by eapply prim_cancel.
Qed.

(** A relation that every step respects holds between the ends of a run. *)
Lemma steps_ind (K : kind -> Prop) (P : World -> Prop) w w' :
  (forall w1 k w2, K k -> prim w1 k w2 -> P w1 -> P w2) -> steps K w w' -> P w -> P w'.
Proof.
  intros H Hs Hw. eapply (rtc_preserves _ P); [|exact Hs|exact Hw].
  intros x y (k & Hk & Hp). by eapply H.
Qed.

End endpoint.

Arguments ConnectionIdentity : clear implicits.
Arguments TransportManager : clear implicits.
Arguments Endpoint : clear implicits.
Arguments World : clear implicits.
Arguments effect : clear implicits.
Arguments M : clear implicits.

End Endpoint.

Create HintDb runs.
Create Rewrite HintDb run.

#[export] Hint Rewrite @Endpoint.bind_ret @Endpoint.bind_fail @Endpoint.bind_bind @Endpoint.bind_get @Endpoint.bind_lift
  @Endpoint.bind_now @Endpoint.bind_rand @Endpoint.bind_lifecycle @Endpoint.bind_reliability_op
  @Endpoint.bind_reliability_try @Endpoint.bind_attempt : run.

(** Evaluate an operation as far as its primitive operations allow. *)
Ltac run := autorewrite with run; cbn beta iota.
Ltac run_in H := autorewrite with run in H; cbn beta iota in H.

#[export] Hint Resolve Endpoint.runs_ret Endpoint.runs_fail Endpoint.runs_panic Endpoint.runs_lift Endpoint.runs_get
  Endpoint.runs_now Endpoint.runs_rand Endpoint.runs_set_peer_recv_window Endpoint.runs_set_peer_cid
  Endpoint.runs_set_remote_addr Endpoint.runs_update_last_recv_time Endpoint.runs_set_fin_pending_eof
  Endpoint.runs_cleanup Endpoint.runs_timers_fired Endpoint.runs_read_timer_events Endpoint.runs_close_stream
  Endpoint.runs_send_batch Endpoint.runs_command_update_addr Endpoint.runs_remove Endpoint.runs_send_to_stream
  Endpoint.runs_register_timer Endpoint.runs_cancel_timer : runs.

#[export] Hint Constructors Lifecycle.step Endpoint.reliability_step : runs.

(** Decompose an operation into its primitive steps. *)
Ltac solve_runs :=
  repeat match goal with
  | |- Endpoint.runs _ (Endpoint.bind _ _) => apply Endpoint.runs_bind; [|intros]
  | |- Endpoint.runs _ (Endpoint.attempt _) => apply Endpoint.runs_attempt
  | |- Endpoint.runs _ (Endpoint.lifecycle _) =>
      apply Endpoint.runs_lifecycle; [done|intros; eauto with runs]
  | |- Endpoint.runs _ (Endpoint.reliability_op _) =>
      eapply Endpoint.runs_reliability_op; [intros; simpl; eauto using surjective_pairing with runs|try done]
  | |- Endpoint.runs _ (Endpoint.reliability_try _) =>
      eapply Endpoint.runs_reliability_try; [intros; eauto with runs|try done]
  | |- Endpoint.runs _ (match ?x with _ => _ end) => destruct x
  | |- Endpoint.runs _ (if ?x then _ else _) => destruct x
  | |- Endpoint.runs _ _ => solve [eauto with runs | auto with runs]
  end.

Declare Scope endpoint_scope.
Delimit Scope endpoint_scope with endpoint.

Notation "'await' x := m 'in' k" := (Endpoint.bind m (fun x => k))
  (at level 200, x pattern, m at level 100, k at level 200, right associativity) : endpoint_scope.
Notation "m >>! k" := (Endpoint.bind m (fun _ => k))
  (at level 100, k at level 200, right associativity) : endpoint_scope.
