(* ===== verification/EndpointParts.v ===== *)
(** * The parts of an endpoint, by their own methods

    The endpoint's operations reach into its parts directly; here are the
    methods the parts offer besides: the user's stream of the channel manager
    (types/channels.rs), the transport manager and its snapshot
    (types/transport.rs), the identity (types/identity.rs), and the timing
    manager's and the reliability layer's setters and readings. *)

From S2P Require Import Prelude BTreeMap Packet Config Frame SendBuffer RecvBuffer Rtt Congestion SackManager.
From S2P Require Import SimpleRetx Retransmission Packetizer Reliability Lifecycle UnifiedScheduler TimerTask TimingManager Endpoint.

Module EndpointParts.
Import Endpoint.
Open Scope endpoint_scope.

Section parts.
Context {T : Type} `{CC : CongestionControl T} {SocketAddr : Type} `{!EqDecision SocketAddr}.
Variable env : Env.
Abbreviation Op := (M T SocketAddr).
Implicit Types (w : World T SocketAddr) (e : Endpoint T SocketAddr) (t : TimingManager.TimingManager).

(** ** The user's stream *)

Definition close_user_stream : Op unit := close_stream.

Definition is_user_stream_closed e : bool := negb e.(stream_open).

(** [Result<(), ()>]; a failed send drops the sender. *)
Definition send_to_user_stream (data : list (list byte)) : Op (unit + unit) := fun w =>
  if w.(ep).(stream_open) then
    if env.(stream_ok) w.(reads) then Done (emitted (ticked w) [ToStream data], inl (inl tt))
    else Done (set_ep (ticked w) (with_stream w.(ep) false), inl (inr tt))
  else Done (w, inl (inr tt)).

(** What the event loop does with the channel itself is this method without
    its result, which is an error exactly when the stream is closed
    afterwards; closing twice is closing once. *)
Lemma send_to_user_stream_exact data w :
  exists w' r, send_to_user_stream data w = Done (w', inl r) /\ send_to_stream env data w = Done (w', inl tt) /\
    (is_user_stream_closed w'.(ep) = true <-> r = inr tt) /\
    (is_user_stream_closed w.(ep) = true -> w' = w).
Proof.
  unfold send_to_user_stream, send_to_stream, is_user_stream_closed.
  destruct (stream_open (ep w)) eqn:Eo; [destruct (stream_ok env (reads w))|]; eexists _, _; split_and!; try done;
    simpl; rewrite ?Eo; by split.
Qed.

Lemma close_user_stream_once w :
  exists w', close_user_stream w = Done (w', inl tt) /\ is_user_stream_closed w'.(ep) = true /\
    close_user_stream w' = Done (w', inl tt) /\
    forall data, send_to_user_stream data w' = Done (w', inl (inr tt)).
Proof.
  unfold close_user_stream, close_stream, is_user_stream_closed, send_to_user_stream. eexists. split; [done|].
  destruct (stream_open (ep w)) eqn:Eo; simpl; by rewrite ?Eo.
Qed.

(** ** The transport manager *)

Definition with_peer_window (rl : ReliabilityLayer.ReliabilityLayer T) (window : Z) : TransportManager T :=
  {| reliability := rl; peer_recv_window := window |}.

Record TransportStats := {
  stats_peer_recv_window : Z;
  stats_congestion_window : Z;
  stats_smoothed_rtt : option Duration;
  stats_rtt_var : option Duration;
  send_buffer_empty : bool;
  recv_buffer_empty : bool;
  in_flight_empty : bool;
}.

(** The estimator's readings may panic. *)
Definition transport_stats (tm : TransportManager T) : outcome TransportStats :=
  let rl := tm.(reliability) in
  outcome_bind (ReliabilityLayer.smoothed_rtt rl) (fun rtt =>
  outcome_bind (ReliabilityLayer.rtt_var rl) (fun var =>
  Done {| stats_peer_recv_window := tm.(peer_recv_window);
          stats_congestion_window := congestion_window rl.(ReliabilityLayer.congestion_control);
          stats_smoothed_rtt := rtt; stats_rtt_var := var;
          send_buffer_empty := ReliabilityLayer.is_send_buffer_empty rl;
          recv_buffer_empty := ReliabilityLayer.is_recv_buffer_empty rl;
          in_flight_empty := ReliabilityLayer.is_in_flight_empty rl |})).

(** ** The identity *)

Definition identity_new (local_cid peer_cid : Z) (remote_addr : SocketAddr) : ConnectionIdentity SocketAddr :=
  {| local_cid := local_cid; peer_cid := peer_cid; remote_addr := remote_addr |}.

Definition matches_local_cid (i : ConnectionIdentity SocketAddr) (cid : Z) : bool := i.(local_cid) =? cid.

Definition matches_peer_cid (i : ConnectionIdentity SocketAddr) (cid : Z) : bool := i.(peer_cid) =? cid.

Definition matches_remote_addr (i : ConnectionIdentity SocketAddr) (addr : SocketAddr) : bool :=
  bool_decide (i.(remote_addr) = addr).

(** An identity is told apart by what it was made of. *)
Lemma matches_exact (i : ConnectionIdentity SocketAddr) cid pid addr :
  matches_local_cid i cid && matches_peer_cid i pid && matches_remote_addr i addr = true <->
  i = identity_new cid pid addr.
Proof.
  unfold matches_local_cid, matches_peer_cid, matches_remote_addr, identity_new.
  rewrite !andb_true_iff, !Z.eqb_eq, bool_decide_eq_true. destruct i; simpl. split; [by intros [[-> ->] ->]|by intros [= -> -> ->]].
Qed.

(** ** The timing manager *)

Definition touch_last_recv_time t (now : Instant) : TimingManager.TimingManager := TimingManager.update_last_recv_time t now.

Definition on_packet_received t (now : Instant) : TimingManager.TimingManager := TimingManager.update_last_recv_time t now.

Definition mark_fin_processed t : TimingManager.TimingManager := TimingManager.set_fin_pending_eof t true.

Definition clear_fin_pending_eof t : TimingManager.TimingManager := TimingManager.set_fin_pending_eof t false.

(** A packet restarts the idle timeout: no check reports one before the
    configured time has passed again. *)
Lemma on_packet_received_restarts t config received checked :
  0 <= TimingManager.idle config -> checked <= received + TimingManager.idle config ->
  TimingManager.check_idle_timeout (on_packet_received t received) config checked = false.
Proof.
  intros Hi Hc. unfold TimingManager.check_idle_timeout, duration_since, saturating_sub, on_packet_received. simpl.
  apply Z.ltb_ge. lia.
Qed.

End parts.

End EndpointParts.
