(* ===== verification/Sender.v ===== *)
(** * Endpoint: construction and sending of frames

    Models [src/core/endpoint/core/frame.rs] and [core/sender.rs]: the frame
    factories, [PacketBuilder], which packs frames into datagrams, and the
    sending operations of the endpoint. *)

From S2P Require Import Prelude BTreeMap Packet Config Frame SendBuffer RecvBuffer Rtt Congestion SackManager.
From S2P Require Import SimpleRetx Retransmission Packetizer Reliability Lifecycle UnifiedScheduler TimerTask TimingManager Endpoint.

Module Sender.
Import Endpoint.
Open Scope endpoint_scope.

Section sender.
Context {T : Type} `{CC : CongestionControl T} {SocketAddr : Type} `{!EqDecision SocketAddr}.
Variable env : Env.

Abbreviation Op := (M T SocketAddr).
Abbreviation Reliability := (ReliabilityLayer.ReliabilityLayer T).

Implicit Types (e : Endpoint T SocketAddr) (w : World T SocketAddr) (frames : list Frame.Frame).

(** ** Frames *)

Definition create_syn_frame (config : Config.Config) (local_cid : Z) : Frame.Frame :=
  Frame.new_syn (Config.protocol_version config) local_cid 0.

Definition create_syn_ack_frame (config : Config.Config) (peer_cid local_cid : Z) : Frame.Frame :=
  Frame.new_syn_ack (Config.protocol_version config) local_cid peer_cid.

(** [Instant::now().duration_since(start_time).as_millis() as u32] *)
Definition timestamp_since (start_time now : Instant) : Z := as_u32 (as_millis (duration_since now start_time)).

Definition create_ack_frame (peer_cid : Z) (reliability : Reliability) (start_time now : Instant) : Frame.Frame :=
  let '(sack_ranges, recv_next, window_size) := ReliabilityLayer.get_ack_info reliability in
  Frame.new_ack peer_cid recv_next window_size sack_ranges (timestamp_since start_time now).

Definition create_fin_frame (peer_cid sequence_number : Z) (reliability : Reliability)
    (start_time now : Instant) : Frame.Frame :=
  let '(_, recv_next_sequence, recv_window_size) := ReliabilityLayer.get_ack_info reliability in
  Frame.new_fin peer_cid sequence_number (timestamp_since start_time now) recv_next_sequence recv_window_size.

Definition create_path_challenge_frame (peer_cid sequence_number : Z) (start_time : Instant)
    (challenge_data : Z) (now : Instant) : Frame.Frame :=
  Frame.new_path_challenge peer_cid sequence_number (timestamp_since start_time now) challenge_data.

Definition create_path_response_frame (peer_cid sequence_number : Z) (start_time : Instant)
    (challenge_data : Z) (now : Instant) : Frame.Frame :=
  Frame.new_path_response peer_cid sequence_number (timestamp_since start_time now) challenge_data.

(** ** Accessors of the endpoint *)

Definition peer_cid_of e : Z := e.(identity).(peer_cid).
Definition local_cid_of e : Z := e.(identity).(local_cid).
Definition remote_addr_of e : SocketAddr := e.(identity).(remote_addr).
Definition start_time_of e : Instant := e.(timing).(TimingManager.start_time).
Definition max_packet_size_of e : Z := Config.max_packet_size (Config.connection e.(config)).

Definition create_retransmission_context e : RetransmissionContext.RetransmissionContext :=
  let '(_, recv_next_sequence, recv_window_size) := ReliabilityLayer.get_ack_info (rel e) in
  {| RetransmissionContext.start_time := start_time_of e;
     RetransmissionContext.current_peer_cid := peer_cid_of e;
     RetransmissionContext.protocol_version := Config.protocol_version e.(config);
     RetransmissionContext.local_cid := local_cid_of e;
     RetransmissionContext.recv_next_sequence := recv_next_sequence;
     RetransmissionContext.recv_window_size := recv_window_size |}.

(** ** [PacketBuilder] *)

Record PacketBuilder := {
  frames : list Frame.Frame;
  current_size : Z;                    (* usize *)
  max_size : Z;                        (* usize *)
}.

Definition builder_new (max_size : Z) : PacketBuilder :=
  {| frames := []; current_size := 0; max_size := max_size |}.

Definition frame_size (f : Frame.Frame) : Z := Z.of_nat (Frame.encoded_size f).

Section builder.
Variable sender : list Frame.Frame -> Op unit.

Definition flush (b : PacketBuilder) : Op PacketBuilder :=
  match b.(frames) with
  | [] => ret b
  | _ => sender b.(frames) >>! ret {| frames := []; current_size := 0; max_size := b.(max_size) |}
  end.

Definition add_frame (b : PacketBuilder) (frame : Frame.Frame) : Op PacketBuilder :=
  let size := frame_size frame in
  await b := (if negb (match b.(frames) with [] => true | _ => false end) &&
                 (b.(max_size) <? b.(current_size) + size)
              then flush b else ret b) in
  ret {| frames := b.(frames) ++ [frame]; current_size := b.(current_size) + size;
         max_size := b.(max_size) |}.

Fixpoint add_frames (b : PacketBuilder) (fs : list Frame.Frame) : Op PacketBuilder :=
  match fs with
  | [] => ret b
  | frame :: fs => await b := add_frame b frame in add_frames b fs
  end.

Fixpoint send_multiple_packets (packets : list (list Frame.Frame)) : Op unit :=
  match packets with
  | [] => ret tt
  | packet_frames :: packets =>
    (match packet_frames with [] => ret tt | _ => sender packet_frames end) >>!
    send_multiple_packets packets
  end.

End builder.

(** ** Sending *)

Definition send_raw_frames (fs : list Frame.Frame) : Op unit :=
  match fs with
  | [] => ret tt
  | _ => await e := get in send_batch env (remote_addr_of e) fs
  end.

Definition send_frames (fs : list Frame.Frame) : Op unit :=
  match fs with
  | [] => ret tt
  | _ =>
    await e := get in
    await b := add_frames send_raw_frames (builder_new (max_packet_size_of e)) fs in
    await _ := flush send_raw_frames b in
    ret tt
  end.

Definition send_zero_rtt_packets (packet_groups : list (list Frame.Frame)) : Op unit :=
  match packet_groups with
  | [] => ret tt
  | _ => send_multiple_packets send_raw_frames packet_groups
  end.

Definition send_frame_to (frame : Frame.Frame) (remote_addr : SocketAddr) : Op unit :=
  send_batch env remote_addr [frame].

Definition packetize_and_send : Op unit :=
  await now1 := now env in
  await e := get in
  await frames_to_send := reliability_op (fun rl =>
    ReliabilityLayer.packetize_stream_data rl (peer_cid_of e) e.(transport).(peer_recv_window)
      now1 (start_time_of e) None) in
  await e := get in
  await frames_to_send :=
    (if Lifecycle.eq (current_state e) Lifecycle.Closing && negb (ReliabilityLayer.has_fin_in_flight (rel e))
     then
       await seq := reliability_op ReliabilityLayer.next_sequence_number in
       await e := get in
       await now2 := now env in
       let fin_frame := create_fin_frame (peer_cid_of e) seq (rel e) (start_time_of e) now2 in
       reliability_op (fun rl => (ReliabilityLayer.track_frame_in_flight rl fin_frame now1, tt)) >>!
       ret (frames_to_send ++ [fin_frame])
     else ret frames_to_send) in
  send_frames frames_to_send.

Definition send_initial_syn : Op unit :=
  await now1 := now env in
  await e := get in
  let syn_frame := create_syn_frame e.(config) (local_cid_of e) in
  await push_frames := reliability_op (fun rl =>
    ReliabilityLayer.packetize_stream_data rl (peer_cid_of e) e.(transport).(peer_recv_window)
      now1 (start_time_of e) None) in
  let frames_to_send := syn_frame :: push_frames in
  let total_size := foldr Z.add 0 (map frame_size frames_to_send) in
  if total_size <=? max_packet_size_of e then send_raw_frames frames_to_send else panic.

Definition send_syn_ack : Op unit :=
  await e := get in
  send_raw_frames [create_syn_ack_frame e.(config) (peer_cid_of e) (local_cid_of e)].

Definition send_standalone_ack : Op unit :=
  await e := get in
  if negb (ReliabilityLayer.is_ack_pending (rel e)) then ret tt
  else
    await now1 := now env in
    let frame := create_ack_frame (peer_cid_of e) (rel e) (start_time_of e) now1 in
    reliability_op (fun rl => (ReliabilityLayer.on_ack_sent rl, tt)) >>!
    send_raw_frames [frame].

(** ** Their steps *)

Definition sending (k : kind) : Prop := k = KClock \/ k = KReliability RAck \/ exists fs, k = KSend fs.

Lemma runs_send_raw_frames (K : kind -> Prop) fs : K KClock -> K (KSend fs) -> runs K (send_raw_frames fs).
Proof. intros. unfold send_raw_frames. solve_runs. Qed.

Lemma runs_add_frames (K : kind -> Prop) sender b fs :
  (forall l, runs K (sender l)) -> runs K (add_frames sender b fs).
Proof.
  intros Hs. revert b. induction fs as [|f fs IH]; intros b; simpl; [apply runs_ret|].
  apply runs_bind; [|done]. unfold add_frame, flush. solve_runs.
Qed.

Lemma runs_send_frames (K : kind -> Prop) fs : K KClock -> (forall g, K (KSend g)) -> runs K (send_frames fs).
Proof.
  intros H1 H2. pose proof (fun l => runs_send_raw_frames K l H1 (H2 l)) as Hr.
  unfold send_frames. destruct fs; [apply runs_ret|].
  apply runs_bind; [apply runs_get|intros e]. apply runs_bind; [by apply runs_add_frames|intros b].
  apply runs_bind; [|intros; apply runs_ret]. unfold flush. solve_runs.
Qed.

Lemma runs_send_zero_rtt_packets (K : kind -> Prop) groups :
  K KClock -> (forall g, K (KSend g)) -> runs K (send_zero_rtt_packets groups).
Proof.
  intros H1 H2. pose proof (fun l => runs_send_raw_frames K l H1 (H2 l)) as Hr.
  assert (H : runs K (send_multiple_packets send_raw_frames groups)).
  { induction groups as [|g gs IH]; simpl; [apply runs_ret|]. apply runs_bind; [|done]. solve_runs. }
  unfold send_zero_rtt_packets. destruct groups; [apply runs_ret|done].
Qed.

Lemma runs_send_frame_to (K : kind -> Prop) f addr : K KClock -> K (KSend [f]) -> runs K (send_frame_to f addr).
Proof. intros. unfold send_frame_to. solve_runs. Qed.

End sender.

#[export] Hint Resolve runs_send_raw_frames runs_send_frames runs_send_zero_rtt_packets runs_send_frame_to : runs.

Section sender.
Context {T : Type} `{CC : CongestionControl T} {SocketAddr : Type} `{!EqDecision SocketAddr}.
Variable env : Env.
Abbreviation Op := (M T SocketAddr).

Lemma runs_packetize_and_send (K : kind -> Prop) :
  K KClock -> K (KReliability RSend) -> (forall g, K (KSend g)) -> runs K (packetize_and_send env : Op unit).
Proof. intros. unfold packetize_and_send. solve_runs. Qed.

Lemma runs_send_initial_syn (K : kind -> Prop) :
  K KClock -> K (KReliability RSend) -> (forall g, K (KSend g)) -> runs K (send_initial_syn env : Op unit).
Proof. intros. unfold send_initial_syn. solve_runs. Qed.

Lemma runs_send_syn_ack (K : kind -> Prop) :
  K KClock -> (forall h, K (KSend [Frame.SynAck h])) -> runs K (send_syn_ack env : Op unit).
Proof. intros. unfold send_syn_ack. solve_runs. Qed.

Lemma create_ack_frame_ack cid (rl : ReliabilityLayer.ReliabilityLayer T) start t :
  exists h p, create_ack_frame cid rl start t = Frame.Ack h p.
Proof. unfold create_ack_frame. destruct (ReliabilityLayer.get_ack_info rl) as [[? ?] ?]. by eexists _, _. Qed.

Lemma runs_send_standalone_ack (K : kind -> Prop) :
  K KClock -> K (KReliability RAck) -> (forall h p, K (KSend [Frame.Ack h p])) ->
  runs K (send_standalone_ack env : Op unit).
Proof.
  intros. unfold send_standalone_ack. apply runs_bind; [apply runs_get|intros e]. case_match; [apply runs_ret|].
  apply runs_bind; [by apply runs_now|intros t].
  destruct (create_ack_frame_ack (peer_cid_of e) (rel e) (start_time_of e) t) as (h & p & ->). solve_runs.
Qed.

(** ** Packing *)

Definition total (fs : list Frame.Frame) : Z := foldr Z.add 0 (map frame_size fs).

Lemma total_app fs gs : total (fs ++ gs) = total fs + total gs.
Proof. unfold total. induction fs as [|f fs IH]; simpl; [done|]. simpl in IH. lia. Qed.

(** The datagrams of a builder that holds [cur] and is given [fs]. *)
Fixpoint split_from (max : Z) (cur fs : list Frame.Frame) : list (list Frame.Frame) :=
  match fs with
  | [] => match cur with [] => [] | _ => [cur] end
  | f :: fs =>
    match cur with
    | [] => split_from max [f] fs
    | _ => if max <? total cur + frame_size f then cur :: split_from max [f] fs
           else split_from max (cur ++ [f]) fs
    end
  end.

Definition split_packets (max : Z) (fs : list Frame.Frame) : list (list Frame.Frame) := split_from max [] fs.

(** A datagram: not empty, and within the limit unless a single frame is not. *)
Definition fits (max : Z) (g : list Frame.Frame) : Prop := g <> [] /\ (total g <= max \/ exists f, g = [f]).

(** No datagram could have taken the first frame of the next. *)
Fixpoint tight (max : Z) (groups : list (list Frame.Frame)) : Prop :=
  match groups with
  | g :: (((f :: _) :: _) as rest) => max < total g + frame_size f /\ tight max rest
  | _ => True
  end.

Lemma split_from_spec max : forall fs cur,
  (cur = [] \/ fits max cur) ->
  let groups := split_from max cur fs in
  concat groups = cur ++ fs /\ Forall (fits max) groups /\ tight max groups /\
  match cur with [] => True | f :: _ => exists g gs, groups = (f :: g) :: gs end.
Proof.
  induction fs as [|f fs IH]; intros cur Hcur; simpl.
  - destruct cur as [|f0 cur]; simpl; [done|]. destruct Hcur as [|Hf]; [done|].
    split_and!; [done|by constructor|done|by exists cur, []].
  - destruct cur as [|f0 cur].
    + assert (Hf : fits max [f]) by (split; [done|right; by exists f]).
      destruct (IH [f] (or_intror Hf)) as (H1 & H2 & H3 & _). split_and!; done.
    + destruct Hcur as [|Hf]; [done|]. set (c := f0 :: cur) in *.
      destruct (Z.ltb_spec max (total c + frame_size f)) as [Hm|Hm].
      * assert (Hf1 : fits max [f]) by (split; [done|right; by exists f]).
        destruct (IH [f] (or_intror Hf1)) as (H1 & H2 & H3 & g & gs & H4).
        split_and!.
        -- simpl. by rewrite H1.
        -- by constructor.
        -- rewrite H4 in *. simpl. done.
        -- by eexists _, _.
      * assert (Hf1 : fits max (c ++ [f])).
        { split; [by destruct c|]. left. rewrite total_app. unfold total at 2. simpl. lia. }
        destruct (IH (c ++ [f]) (or_intror Hf1)) as (H1 & H2 & H3 & g & gs & H4).
        split_and!; [by rewrite H1, <- app_assoc|done|done|]. by eexists _, _.
Qed.

(** The builder sends the datagrams of [split_from] one after the other. *)
Lemma builder_split sender fs : forall (b : PacketBuilder) (w : World T SocketAddr),
  b.(current_size) = total b.(frames) ->
  bind (add_frames sender b fs) (fun b => bind (flush sender b) (fun _ => ret tt)) w =
  send_multiple_packets sender (split_from b.(max_size) b.(frames) fs) w.
Proof.
  induction fs as [|f fs IH]; intros b w Hb; cbn [add_frames split_from].
  - unfold bind at 1, ret at 1. unfold flush. destruct (frames b) as [|f0 cur] eqn:Ef; [done|].
    cbn [send_multiple_packets]. by rewrite bind_bind.
  - rewrite bind_bind. unfold add_frame at 1. unfold flush. destruct b as [cur size max].
    cbn [frames current_size max_size] in *. subst size.
    assert (Hstep : forall (c : list Frame.Frame) (w : World T SocketAddr),
      bind (add_frames sender {| frames := c ++ [f]; current_size := total c + frame_size f; max_size := max |} fs)
        (fun b => bind (flush sender b) (fun _ => ret tt)) w =
      send_multiple_packets sender (split_from max (c ++ [f]) fs) w).
    { intros c w1. apply (IH {| frames := c ++ [f]; current_size := total c + frame_size f; max_size := max |}).
      simpl. rewrite total_app. unfold total at 3. simpl. lia. }
    destruct cur as [|f0 cur]; cbn [negb andb].
    + unfold bind at 2, ret at 1. unfold bind at 1, ret at 1. apply (Hstep []).
    + set (c := f0 :: cur) in *. destruct (max <? total c + frame_size f).
      * cbn [send_multiple_packets]. rewrite bind_bind. unfold c at 2.
        change (f0 :: cur) with c. rewrite bind_bind. apply bind_ext. intros [] w1.
        unfold bind at 1, ret at 1. unfold bind at 1, ret at 1. apply (Hstep []).
      * unfold bind at 2, ret at 1. unfold bind at 1, ret at 1. apply (Hstep c).
Qed.

Lemma send_raw_cons f g (w : World T SocketAddr) :
  send_raw_frames env (f :: g) w = send_batch env (remote_addr_of w.(ep)) (f :: g) w.
Proof. done. Qed.

(** Sending datagrams one after the other. *)
Lemma send_multiple_spec groups : forall (w : World T SocketAddr),
  Forall (fun g => g <> []) groups ->
  exists n w' r, send_multiple_packets (send_raw_frames env) groups w = Done (w', r) /\
    w'.(ep) = w.(ep) /\
    w'.(log) = w.(log) ++ map (SendFrames (remote_addr_of w.(ep))) (take n groups) /\
    (r = inl tt /\ n = length groups \/
     r = inr ChannelClosed /\ (n < length groups)%nat /\ env.(channel_ok) (w.(reads) + n)%nat = false).
Proof.
  induction groups as [|g groups IH]; intros w Hg.
  - exists 0%nat, w, (inl tt). split_and!; [done..|by rewrite app_nil_r|by left].
  - apply Forall_cons in Hg as [Hg Hgs]. destruct g as [|f g]; [done|].
    cbn [send_multiple_packets]. unfold bind at 1. rewrite send_raw_cons. unfold send_batch.
    destruct (channel_ok env (reads w)) eqn:Eo.
    + destruct (IH (emitted (ticked w) [SendFrames (remote_addr_of w.(ep)) (f :: g)]) Hgs)
        as (n & w' & r & E1 & E2 & E3 & E4).
      exists (S n), w', r. split_and!; [done..| |].
      * rewrite E3. simpl. by rewrite <- app_assoc.
      * simpl in E4. replace (reads w + S n)%nat with (S (reads w) + n)%nat by lia. simpl length.
        destruct E4 as [[-> ->]|(-> & ? & ?)]; [by left|right]. split_and!; [done|lia|done].
    + exists 0%nat, (ticked w), (inr ChannelClosed). split_and!; [done|done|by rewrite app_nil_r|].
      right. rewrite Nat.add_0_r. split_and!; [done|simpl; lia|done].
Qed.

Lemma send_frames_split fs (w : World T SocketAddr) :
  send_frames env fs w =
  send_multiple_packets (send_raw_frames env) (split_packets (max_packet_size_of w.(ep)) fs) w.
Proof.
  unfold send_frames. destruct fs as [|f fs]; [done|].
  unfold bind at 1, get at 1. by rewrite builder_split.
Qed.

(** C25: [send_frames] packs the frames into datagrams that carry exactly them,
    in order: no datagram is empty, none exceeds the packet size unless it is a
    single frame that does, and none could have taken the first frame of the
    next one.  They go to the peer's current address one after the other; the
    only error is a closed channel, and then a prefix of them was sent. *)
Theorem send_frames_spec fs (w : World T SocketAddr) :
  let max := max_packet_size_of w.(ep) in
  exists groups, concat groups = fs /\ Forall (fits max) groups /\ tight max groups /\
  exists n w' r, send_frames env fs w = Done (w', r) /\ w'.(ep) = w.(ep) /\
    w'.(log) = w.(log) ++ map (SendFrames (remote_addr_of w.(ep))) (take n groups) /\
    (r = inl tt /\ n = length groups \/
     r = inr ChannelClosed /\ (n < length groups)%nat /\ env.(channel_ok) (w.(reads) + n)%nat = false).
Proof.
  intros max. exists (split_packets max fs).
  destruct (split_from_spec max fs [] (or_introl eq_refl)) as (H1 & H2 & H3 & _).
  split_and!; [done..|]. rewrite send_frames_split. apply send_multiple_spec.
  eapply Forall_impl; [exact H2|]. by intros g [? _].
Qed.

End sender.

#[export] Hint Resolve runs_packetize_and_send runs_send_initial_syn runs_send_syn_ack
  runs_send_standalone_ack : runs.

End Sender.
