(* ===== verification/Handlers.v ===== *)
(** * Endpoint: handlers

    Models the processing of frames and commands:
    [src/core/endpoint/processing/operations.rs] (Module [Operations]),
    [processing/processors.rs] and [processors/{data,ack,connection,path}.rs]
    (Module [Processors]), the per-state handlers and the stream commands of
    [core/handlers.rs] (Modules [Legacy] and [Commands]).  Logging is left out;
    a [FrameProcessingContext] holds a clone of the state, as in the code. *)

From S2P Require Import Prelude BTreeMap Packet Config Frame SendBuffer RecvBuffer Rtt Congestion SackManager.
From S2P Require Import SimpleRetx Retransmission Packetizer Reliability Lifecycle UnifiedScheduler TimerTask TimingManager Endpoint Sender.

Module Operations.
Import Endpoint Sender.
Open Scope endpoint_scope.

Section operations.
Context {T : Type} `{CC : CongestionControl T} {SocketAddr : Type} `{!EqDecision SocketAddr}.
Variable env : Env.
Abbreviation Op := (M T SocketAddr).
Abbreviation Manager := (Lifecycle.DefaultLifecycleManager SocketAddr).

Definition transition_state (s : Lifecycle.ConnectionState SocketAddr) : Op unit :=
  lifecycle (fun m => Lifecycle.transition_to m s).

Definition begin_graceful_shutdown : Op unit := lifecycle Lifecycle.begin_graceful_shutdown.

Definition force_close : Op unit := lifecycle Lifecycle.force_close.

Definition start_path_validation (new_addr : SocketAddr) (challenge_data : Z) (notifier : Lifecycle.Sender)
    : Op unit :=
  lifecycle (fun m => Lifecycle.start_path_validation m new_addr challenge_data notifier).

(** The trait's [complete_path_validation]; the endpoint's own also cancels the
    timer. *)
Definition complete_path_validation (success : bool) : Op unit :=
  lifecycle (fun m => Lifecycle.complete_path_validation m success).

Definition endpoint_complete_path_validation (success : bool) : Op unit :=
  cancel_timer env Timing.PathValidationTimeout >>! complete_path_validation success.

Definition cancel_connection_timeout : Op unit :=
  cancel_timer env Timing.ConnectionTimeout >>! ret tt.

(** The channel of the notifier that [check_path_migration] creates; its
    receiver is dropped at once. *)
Definition dropped_channel : Lifecycle.Sender := -1.

Definition check_path_migration (src_addr : SocketAddr) : Op unit :=
  await e := get in
  if negb (bool_decide (src_addr = remote_addr_of e)) &&
     Lifecycle.eq (current_state e) Lifecycle.Established
  then
    await challenge_data := rand env in
    start_path_validation src_addr challenge_data dropped_channel >>!
    register_timer env Timing.PathValidationTimeout (from_secs 30) >>!
    await seq := reliability_op ReliabilityLayer.next_sequence_number in
    await now1 := now env in
    send_frame_to env (create_path_challenge_frame (peer_cid_of e) seq (start_time_of e) challenge_data now1)
      src_addr
  else ret tt.

Definition process_ack_and_get_retx_frames (recv_next_seq : Z) (sack_ranges : list (Z * Z)) (now1 : Instant)
    : Op (list Frame.Frame) :=
  let sack_ranges_converted := map (fun x => {| Sack.start := x.1; Sack.end_ := x.2 |}) sack_ranges in
  await e := get in
  let context := create_retransmission_context e in
  reliability_try (fun rl => ReliabilityLayer.handle_ack rl recv_next_seq sack_ranges_converted now1 context).

Definition receive_data_and_maybe_ack (seq : Z) (payload : list byte) : Op unit :=
  await accepted := reliability_op (fun rl => ReliabilityLayer.receive_push rl seq payload) in
  if accepted : bool then send_standalone_ack env else ret tt.

Definition receive_fin_and_ack (seq : Z) : Op bool :=
  await fin_received := reliability_op (fun rl => ReliabilityLayer.receive_fin rl seq) in
  (if fin_received : bool then send_standalone_ack env else ret tt) >>! ret fin_received.

Definition send_path_response (echo_seq challenge_data : Z) (target_addr : SocketAddr) : Op unit :=
  await e := get in
  await now1 := now env in
  send_frame_to env (create_path_response_frame (peer_cid_of e) echo_seq (start_time_of e) challenge_data now1)
    target_addr.

End operations.

End Operations.

Module FrameProcessingContext.
Import Endpoint Sender.

Section context.
Context {T SocketAddr : Type}.

Record FrameProcessingContext := {
  now : Instant;
  src_addr : SocketAddr;
  connection_state : Lifecycle.ConnectionState SocketAddr;
  local_cid : Z;
}.

Definition context_new (e : Endpoint T SocketAddr) (src : SocketAddr) (now1 : Instant)
    : FrameProcessingContext :=
  {| now := now1; src_addr := src; connection_state := Lifecycle.clone (current_state e);
     local_cid := local_cid_of e |}.

End context.

Arguments FrameProcessingContext : clear implicits.

End FrameProcessingContext.

(** ** [processors/data.rs] *)

Module PushProcessor.
Import Endpoint Sender Operations FrameProcessingContext.
Open Scope endpoint_scope.

Section processor.
Context {T : Type} `{CC : CongestionControl T} {SocketAddr : Type} `{!EqDecision SocketAddr}.
Variable env : Env.
Abbreviation Op := (M T SocketAddr).

Definition validate_frame_type (frame : Frame.Frame) : Op unit :=
  match frame with Frame.Push _ _ => ret tt | _ => fail InvalidFrame end.

Definition handle_push_in_syn_received (header : ShortHeader.ShortHeader) (payload : list byte) : Op unit :=
  await _ := reliability_op (fun rl =>
    ReliabilityLayer.receive_push rl header.(ShortHeader.sequence_number) payload) in
  ret tt.

Definition handle_push_in_established (header : ShortHeader.ShortHeader) (payload : list byte) : Op unit :=
  receive_data_and_maybe_ack env header.(ShortHeader.sequence_number) payload.

Definition handle_push_in_validating_path (header : ShortHeader.ShortHeader) (payload : list byte) : Op unit :=
  receive_data_and_maybe_ack env header.(ShortHeader.sequence_number) payload.

Definition handle_push_in_fin_wait (header : ShortHeader.ShortHeader) (payload : list byte) : Op unit :=
  receive_data_and_maybe_ack env header.(ShortHeader.sequence_number) payload.

Definition handle_push_in_closing (header : ShortHeader.ShortHeader) (payload : list byte) : Op unit :=
  receive_data_and_maybe_ack env header.(ShortHeader.sequence_number) payload.

Definition process_frame (frame : Frame.Frame) (src : SocketAddr) (now1 : Instant) : Op unit :=
  match frame with
  | Frame.Push header payload =>
    await e := get in
    match (context_new e src now1).(connection_state) with
    | Lifecycle.SynReceived => handle_push_in_syn_received header payload
    | Lifecycle.Established => handle_push_in_established header payload
    | Lifecycle.ValidatingPath _ _ _ => handle_push_in_validating_path header payload
    | Lifecycle.FinWait => handle_push_in_fin_wait header payload
    | Lifecycle.Closing => handle_push_in_closing header payload
    | Lifecycle.ClosingWait => handle_push_in_closing header payload
    | _ => ret tt
    end
  | _ => fail FrameTypeMismatch
  end.

End processor.

End PushProcessor.

(** ** [processors/ack.rs] *)

Module AckProcessor.
Import Endpoint Sender Operations FrameProcessingContext.
Open Scope endpoint_scope.

Section processor.
Context {T : Type} `{CC : CongestionControl T} {SocketAddr : Type} `{!EqDecision SocketAddr}.
Variable env : Env.
Abbreviation Op := (M T SocketAddr).

Definition validate_frame_type (frame : Frame.Frame) : Op unit :=
  match frame with Frame.Ack _ _ => ret tt | _ => fail InvalidFrame end.

Definition process_ack_common (header : ShortHeader.ShortHeader) (payload : list byte) (now1 : Instant)
    : Op unit :=
  set_peer_recv_window header.(ShortHeader.recv_window_size) >>!
  await sack_ranges := lift (Sack.decode_sack_ranges payload) in
  let sack_tuples := map (fun r => (r.(Sack.start), r.(Sack.end_))) sack_ranges in
  await frames_to_retx :=
    process_ack_and_get_retx_frames header.(ShortHeader.recv_next_sequence) sack_tuples now1 in
  match frames_to_retx with
  | [] => ret tt
  | _ => send_frames env frames_to_retx
  end.

Definition handle_ack_in_syn_received (header : ShortHeader.ShortHeader) (payload : list byte) (now1 : Instant) : Op unit :=
  process_ack_common header payload now1.

Definition handle_ack_in_established (header : ShortHeader.ShortHeader) (payload : list byte) (now1 : Instant) : Op unit :=
  process_ack_common header payload now1.

Definition handle_ack_in_validating_path (header : ShortHeader.ShortHeader) (payload : list byte) (now1 : Instant) : Op unit :=
  process_ack_common header payload now1.

Definition handle_ack_in_fin_wait (header : ShortHeader.ShortHeader) (payload : list byte) (now1 : Instant) : Op unit :=
  process_ack_common header payload now1.

Definition handle_ack_in_closing (header : ShortHeader.ShortHeader) (payload : list byte) (now1 : Instant) : Op unit :=
  process_ack_common header payload now1.

Definition handle_ack_in_closing_wait (header : ShortHeader.ShortHeader) (payload : list byte) (now1 : Instant) : Op unit :=
  process_ack_common header payload now1.

Definition process_ack_frame_internal (frame : Frame.Frame) (src : SocketAddr) (now1 : Instant) : Op unit :=
  match frame with
  | Frame.Ack header payload =>
    await e := get in
    match (context_new e src now1).(connection_state) with
    | Lifecycle.SynReceived => handle_ack_in_syn_received header payload now1
    | Lifecycle.Established => handle_ack_in_established header payload now1
    | Lifecycle.ValidatingPath _ _ _ => handle_ack_in_validating_path header payload now1
    | Lifecycle.FinWait => handle_ack_in_fin_wait header payload now1
    | Lifecycle.Closing => handle_ack_in_closing header payload now1
    | Lifecycle.ClosingWait => handle_ack_in_closing_wait header payload now1
    | _ => ret tt
    end
  | _ => fail FrameTypeMismatch
  end.

Definition process_frame (frame : Frame.Frame) (src : SocketAddr) (now1 : Instant) : Op unit :=
  process_ack_frame_internal frame src now1.

End processor.

End AckProcessor.

(** ** [processors/connection.rs] *)

Module ConnectionProcessor.
Import Endpoint Sender Operations FrameProcessingContext.
Open Scope endpoint_scope.

Section processor.
Context {T : Type} `{CC : CongestionControl T} {SocketAddr : Type} `{!EqDecision SocketAddr}.
Variable env : Env.
Abbreviation Op := (M T SocketAddr).

Definition validate_frame_type (frame : Frame.Frame) : Op unit :=
  match frame with
  | Frame.Syn _ | Frame.SynAck _ | Frame.Fin _ => ret tt
  | _ => fail InvalidFrame
  end.

Definition handle_syn_frame (header : LongHeader.LongHeader) (context : FrameProcessingContext SocketAddr) : Op unit :=
  match context.(connection_state) with
  | Lifecycle.SynReceived =>
    await e := get in
    if negb (ReliabilityLayer.is_send_buffer_empty (rel e)) then send_syn_ack env else ret tt
  | _ => ret tt
  end.

Definition handle_syn_ack_frame (header : LongHeader.LongHeader) (context : FrameProcessingContext SocketAddr) : Op unit :=
  match context.(connection_state) with
  | Lifecycle.Connecting =>
    cancel_connection_timeout env >>!
    transition_state Lifecycle.Established >>!
    set_peer_cid header.(LongHeader.source_cid) >>!
    await e := get in
    if negb (ReliabilityLayer.is_send_buffer_empty (rel e)) then packetize_and_send env
    else send_standalone_ack env
  | _ => ret tt
  end.

Definition handle_fin_in_syn_received (header : ShortHeader.ShortHeader) : Op unit :=
  await fin_received := receive_fin_and_ack env header.(ShortHeader.sequence_number) in
  if fin_received : bool then attempt (transition_state Lifecycle.FinWait) >>! ret tt else ret tt.

Definition handle_fin_in_established (header : ShortHeader.ShortHeader) : Op unit :=
  await _ := receive_fin_and_ack env header.(ShortHeader.sequence_number) in ret tt.

Definition handle_fin_in_validating_path (header : ShortHeader.ShortHeader) : Op unit :=
  await fin_received := receive_fin_and_ack env header.(ShortHeader.sequence_number) in
  if fin_received : bool then attempt (transition_state Lifecycle.FinWait) >>! ret tt else ret tt.

Definition handle_fin_in_fin_wait (header : ShortHeader.ShortHeader) : Op unit :=
  await _ := receive_fin_and_ack env header.(ShortHeader.sequence_number) in ret tt.

Definition handle_fin_in_closing (header : ShortHeader.ShortHeader) : Op unit :=
  await fin_received := receive_fin_and_ack env header.(ShortHeader.sequence_number) in
  if fin_received : bool then
    await e := get in
    match current_state e with
    | Lifecycle.Closing => attempt (transition_state Lifecycle.ClosingWait) >>! ret tt
    | _ => ret tt
    end
  else ret tt.

Definition handle_fin_frame (header : ShortHeader.ShortHeader) (context : FrameProcessingContext SocketAddr) : Op unit :=
  match context.(connection_state) with
  | Lifecycle.SynReceived => handle_fin_in_syn_received header
  | Lifecycle.Established => handle_fin_in_established header
  | Lifecycle.ValidatingPath _ _ _ => handle_fin_in_validating_path header
  | Lifecycle.FinWait => handle_fin_in_fin_wait header
  | Lifecycle.Closing => handle_fin_in_closing header
  | _ => ret tt
  end.

Definition process_connection_frame_internal (frame : Frame.Frame) (src : SocketAddr) (now1 : Instant) : Op unit :=
  await e := get in
  let context := context_new e src now1 in
  match frame with
  | Frame.Syn header => handle_syn_frame header context
  | Frame.SynAck header => handle_syn_ack_frame header context
  | Frame.Fin header => handle_fin_frame header context
  | _ => fail FrameTypeMismatch
  end.

Definition process_frame (frame : Frame.Frame) (src : SocketAddr) (now1 : Instant) : Op unit :=
  process_connection_frame_internal frame src now1.

End processor.

End ConnectionProcessor.

(** ** [processors/path.rs] *)

Module PathProcessor.
Import Endpoint Sender Operations FrameProcessingContext.
Open Scope endpoint_scope.

Section processor.
Context {T : Type} `{CC : CongestionControl T} {SocketAddr : Type} `{!EqDecision SocketAddr}.
Variable env : Env.
Abbreviation Op := (M T SocketAddr).

Definition validate_frame_type (frame : Frame.Frame) : Op unit :=
  match frame with
  | Frame.PathChallenge _ _ | Frame.PathResponse _ _ => ret tt
  | _ => fail InvalidFrame
  end.

Definition handle_path_challenge_frame (header : ShortHeader.ShortHeader) (challenge_data : Z)
    (context : FrameProcessingContext SocketAddr) : Op unit :=
  match context.(connection_state) with
  | Lifecycle.Closed => ret tt
  | _ => send_path_response env header.(ShortHeader.sequence_number) challenge_data context.(src_addr)
  end.

Definition handle_path_validation_response (src expected_addr : SocketAddr)
    (received_challenge expected_challenge : Z) (notifier : option Lifecycle.Sender) : Op unit :=
  if bool_decide (src = expected_addr) && (received_challenge =? expected_challenge) then
    complete_path_validation true >>!
    set_remote_addr expected_addr >>!
    (match notifier with
     | Some notifier => emit (LifecycleEffect (Lifecycle.Notify notifier (inl tt)))
     | None => ret tt
     end) >>!
    await e := get in
    command_update_addr env (local_cid_of e) expected_addr
  else ret tt.

Definition handle_path_response_frame (header : ShortHeader.ShortHeader) (challenge_data : Z)
    (context : FrameProcessingContext SocketAddr) : Op unit :=
  match context.(connection_state) with
  | Lifecycle.ValidatingPath new_addr expected_challenge notifier =>
    handle_path_validation_response context.(src_addr) new_addr challenge_data expected_challenge notifier
  | _ => ret tt
  end.

Definition process_path_frame_internal (frame : Frame.Frame) (src : SocketAddr) (now1 : Instant) : Op unit :=
  await e := get in
  let context := context_new e src now1 in
  match frame with
  | Frame.PathChallenge header challenge_data => handle_path_challenge_frame header challenge_data context
  | Frame.PathResponse header challenge_data => handle_path_response_frame header challenge_data context
  | _ => fail FrameTypeMismatch
  end.

Definition process_frame (frame : Frame.Frame) (src : SocketAddr) (now1 : Instant) : Op unit :=
  process_path_frame_internal frame src now1.

End processor.

End PathProcessor.

(** Unfold a processor down to what they do in each state. *)
Ltac unfold_ack :=
  unfold AckProcessor.process_frame, AckProcessor.process_ack_frame_internal, AckProcessor.handle_ack_in_syn_received,
    AckProcessor.handle_ack_in_established, AckProcessor.handle_ack_in_validating_path,
    AckProcessor.handle_ack_in_fin_wait, AckProcessor.handle_ack_in_closing, AckProcessor.handle_ack_in_closing_wait.

Ltac unfold_connection :=
  unfold ConnectionProcessor.process_frame, ConnectionProcessor.process_connection_frame_internal.

Ltac unfold_path := unfold PathProcessor.process_frame, PathProcessor.process_path_frame_internal.

(** ** [StaticFrameProcessorRegistry] and [EventDispatcher] *)

Module Processors.
Import Endpoint Sender Operations FrameProcessingContext.
Open Scope endpoint_scope.

Section registry.
Context {T : Type} `{CC : CongestionControl T} {SocketAddr : Type} `{!EqDecision SocketAddr}.
Variable env : Env.
Abbreviation Op := (M T SocketAddr).

Inductive ProcessorType := Push | Ack | Connection | Path | Ping.

Definition from_frame (frame : Frame.Frame) : option ProcessorType :=
  match frame with
  | Frame.Push _ _ => Some Push
  | Frame.Ack _ _ => Some Ack
  | Frame.Syn _ | Frame.SynAck _ | Frame.Fin _ => Some Connection
  | Frame.PathChallenge _ _ | Frame.PathResponse _ _ => Some Path
  | Frame.Ping _ => Some Ping
  end.

Definition route_frame (frame : Frame.Frame) (src : SocketAddr) (now1 : Instant) : Op unit :=
  update_last_recv_time now1 >>!
  check_path_migration env src >>!
  match from_frame frame with
  | Some Push => PushProcessor.validate_frame_type frame >>! PushProcessor.process_frame env frame src now1
  | Some Ack => AckProcessor.validate_frame_type frame >>! AckProcessor.process_frame env frame src now1
  | Some Connection =>
    ConnectionProcessor.validate_frame_type frame >>! ConnectionProcessor.process_frame env frame src now1
  | Some Path => PathProcessor.validate_frame_type frame >>! PathProcessor.process_frame env frame src now1
  | Some Ping => ret tt
  | None => fail FrameTypeMismatch
  end.

Definition dispatch_frame (frame : Frame.Frame) (src : SocketAddr) : Op unit :=
  await now1 := Endpoint.now env in route_frame frame src now1.

End registry.

End Processors.

(** ** [core/handlers.rs]: one handler per state

    The handlers from before the processors; nothing calls them any more. *)

Module Legacy.
Import Endpoint Sender Operations FrameProcessingContext.
Open Scope endpoint_scope.

Section legacy.
Context {T : Type} `{CC : CongestionControl T} {SocketAddr : Type} `{!EqDecision SocketAddr}.
Variable env : Env.
Abbreviation Op := (M T SocketAddr).

Definition handle_ack_frame (header : ShortHeader.ShortHeader) (payload : list byte) : Op unit :=
  set_peer_recv_window header.(ShortHeader.recv_window_size) >>!
  await sack_ranges := lift (Sack.decode_sack_ranges payload) in
  await now1 := Endpoint.now env in
  await e := get in
  let context := create_retransmission_context e in
  await frames_to_retx := reliability_try (fun rl =>
    ReliabilityLayer.handle_ack rl header.(ShortHeader.recv_next_sequence) sack_ranges now1 context) in
  match frames_to_retx with
  | [] => ret tt
  | _ => send_frames env frames_to_retx
  end.

Definition handle_path_challenge (header : ShortHeader.ShortHeader) (challenge_data : Z) (src : SocketAddr)
    : Op unit :=
  await e := get in
  await now1 := Endpoint.now env in
  send_frame_to env (create_path_response_frame (peer_cid_of e) header.(ShortHeader.sequence_number)
    (start_time_of e) challenge_data now1) src.

(** [if receive_push(..) { send_standalone_ack }] *)
Definition push_and_ack (header : ShortHeader.ShortHeader) (payload : list byte) : Op unit :=
  await accepted := reliability_op (fun rl =>
    ReliabilityLayer.receive_push rl header.(ShortHeader.sequence_number) payload) in
  if accepted : bool then send_standalone_ack env else ret tt.

(** [if receive_fin(..) { send_standalone_ack; next }] *)
Definition fin_and_ack (header : ShortHeader.ShortHeader) (next : Op unit) : Op unit :=
  await accepted := reliability_op (fun rl =>
    ReliabilityLayer.receive_fin rl header.(ShortHeader.sequence_number)) in
  if accepted : bool then send_standalone_ack env >>! next else ret tt.

Definition handle_frame_connecting (frame : Frame.Frame) (src : SocketAddr) : Op unit :=
  match frame with
  | Frame.SynAck header =>
    transition_state Lifecycle.Established >>!
    set_peer_cid header.(LongHeader.source_cid) >>!
    await e := get in
    if negb (ReliabilityLayer.is_send_buffer_empty (rel e)) then packetize_and_send env
    else send_standalone_ack env
  | Frame.PathChallenge header challenge_data => handle_path_challenge header challenge_data src
  | _ => ret tt
  end.

Definition handle_frame_syn_received (frame : Frame.Frame) (src : SocketAddr) : Op unit :=
  match frame with
  | Frame.Syn _ =>
    await e := get in
    if negb (ReliabilityLayer.is_send_buffer_empty (rel e)) then send_syn_ack env else ret tt
  | Frame.Push header payload =>
    await _ := reliability_op (fun rl =>
      ReliabilityLayer.receive_push rl header.(ShortHeader.sequence_number) payload) in
    ret tt
  | Frame.Ack header payload => handle_ack_frame header payload
  | Frame.Fin header => fin_and_ack header (attempt (transition_state Lifecycle.FinWait) >>! ret tt)
  | Frame.PathChallenge header challenge_data => handle_path_challenge header challenge_data src
  | _ => ret tt
  end.

Definition handle_frame_established (frame : Frame.Frame) (src : SocketAddr) : Op unit :=
  match frame with
  | Frame.Push header payload => push_and_ack header payload
  | Frame.Ack header payload => handle_ack_frame header payload
  | Frame.Fin header => fin_and_ack header (ret tt)
  | Frame.PathChallenge header challenge_data => handle_path_challenge header challenge_data src
  | _ => ret tt
  end.

Definition handle_frame_validating_path (frame : Frame.Frame) (src : SocketAddr) : Op unit :=
  match frame with
  | Frame.PathResponse _ challenge_data =>
    await e := get in
    match Lifecycle.clone (current_state e) with
    | Lifecycle.ValidatingPath new_addr expected_challenge notifier =>
      if bool_decide (src = new_addr) && (challenge_data =? expected_challenge) then
        endpoint_complete_path_validation env true >>!
        set_remote_addr new_addr >>!
        (match notifier with
         | Some notifier => emit (LifecycleEffect (Lifecycle.Notify notifier (inl tt)))
         | None => ret tt
         end) >>!
        await e := get in
        command_update_addr env (local_cid_of e) new_addr
      else ret tt
    | _ => ret tt
    end
  | Frame.Push header payload => push_and_ack header payload
  | Frame.Ack header payload => handle_ack_frame header payload
  | Frame.Fin header => fin_and_ack header (attempt (transition_state Lifecycle.FinWait) >>! ret tt)
  | Frame.PathChallenge header challenge_data => handle_path_challenge header challenge_data src
  | _ => ret tt
  end.

Definition handle_frame_closing (frame : Frame.Frame) (src : SocketAddr) : Op unit :=
  match frame with
  | Frame.Push header payload => push_and_ack header payload
  | Frame.Ack header payload => handle_ack_frame header payload
  | Frame.Fin header => fin_and_ack header (attempt (transition_state Lifecycle.ClosingWait) >>! ret tt)
  | Frame.PathChallenge header challenge_data => handle_path_challenge header challenge_data src
  | _ => ret tt
  end.

Definition handle_frame_closing_wait (frame : Frame.Frame) (src : SocketAddr) : Op unit :=
  match frame with
  | Frame.Ack header payload => handle_ack_frame header payload
  | Frame.PathChallenge header challenge_data => handle_path_challenge header challenge_data src
  | _ => ret tt
  end.

Definition handle_frame_fin_wait (frame : Frame.Frame) (src : SocketAddr) : Op unit :=
  match frame with
  | Frame.Push header payload => push_and_ack header payload
  | Frame.Ack header payload => handle_ack_frame header payload
  | Frame.Fin header => fin_and_ack header (ret tt)
  | Frame.PathChallenge header challenge_data => handle_path_challenge header challenge_data src
  | _ => ret tt
  end.

End legacy.

End Legacy.

(** ** [core/handlers.rs]: commands of the user's stream *)

Module Commands.
Import Endpoint Sender Operations.
Open Scope endpoint_scope.

Section commands.
Context {T : Type} `{CC : CongestionControl T} {SocketAddr : Type} `{!EqDecision SocketAddr}.
Variable env : Env.
Abbreviation Op := (M T SocketAddr).

Inductive StreamCommand :=
| SendData (data : list byte)
| Close
| Migrate (new_addr : SocketAddr) (notifier : Lifecycle.Sender).

(** [if let Ok(()) = op { .. }] *)
Definition if_ok (op : Op unit) (next : Op unit) : Op unit :=
  await r := attempt op in
  match r with inl _ => next | inr _ => ret tt end.

Definition clear_in_flight_packets : Op unit :=
  reliability_op (fun rl => (ReliabilityLayer.clear_in_flight_packets rl, tt)).

(** [if self.lifecycle_manager.should_close() { .. }] after a graceful shutdown *)
Definition cleanup_if_closed : Op unit :=
  await e := get in
  if Lifecycle.should_close (current_state e) then clear_in_flight_packets >>! close_stream else ret tt.

Definition shutdown : Op unit :=
  await e := get in
  match current_state e with
  | Lifecycle.SynReceived =>
    (if ReliabilityLayer.is_send_buffer_empty (rel e) then close_stream else ret tt) >>!
    if_ok begin_graceful_shutdown cleanup_if_closed
  | Lifecycle.Connecting =>
    if ReliabilityLayer.is_send_buffer_empty (rel e) then
      if_ok (transition_state Lifecycle.Closed) (clear_in_flight_packets >>! close_stream)
    else if_ok begin_graceful_shutdown cleanup_if_closed
  | _ => if_ok begin_graceful_shutdown cleanup_if_closed
  end.

Definition handle_stream_command (cmd : StreamCommand) : Op unit :=
  match cmd with
  | SendData data =>
    await e := get in
    if Lifecycle.eq (current_state e) Lifecycle.SynReceived then
      transition_state Lifecycle.Established >>!
      await _ := reliability_op (fun rl => ReliabilityLayer.write_to_stream rl data) in
      await e := get in
      let syn_ack_frame := create_syn_ack_frame e.(config) (peer_cid_of e) (local_cid_of e) in
      await now1 := Endpoint.now env in
      await packet_groups := reliability_try (fun rl =>
        ReliabilityLayer.packetize_zero_rtt_stream_data rl (peer_cid_of e) e.(transport).(peer_recv_window)
          now1 (start_time_of e) syn_ack_frame (Z.to_nat (max_packet_size_of e))) in
      send_zero_rtt_packets env packet_groups
    else
      await _ := reliability_op (fun rl => ReliabilityLayer.write_to_stream rl data) in ret tt
  | Close =>
    shutdown >>!
    await e := get in
    if negb (Lifecycle.should_close (current_state e)) then packetize_and_send env else ret tt
  | Migrate new_addr notifier =>
    await challenge_data := rand env in
    await r := attempt (start_path_validation new_addr challenge_data notifier) in
    match r with
    | inr _ => ret tt
    | inl _ =>
      await seq := reliability_op ReliabilityLayer.next_sequence_number in
      await e := get in
      await now1 := Endpoint.now env in
      send_frame_to env (create_path_challenge_frame (peer_cid_of e) seq (start_time_of e) challenge_data now1)
        new_addr
    end
  end.

End commands.

Arguments StreamCommand : clear implicits.

End Commands.
