(* ===== verification/EventLoop.v ===== *)
(** * Endpoint: timeouts, construction and the event loop

    Models the timeout handling of [src/core/endpoint.rs], the loop of
    [core/event_loop.rs] and [builder/constructors.rs].  What [select!] picks is
    an [event]: frames or commands that arrived (the first and those that
    [try_recv] finds behind it), the wakeup with the timer events that the timer
    task has sent by then, or that all channels are closed. *)

From S2P Require Import Prelude BTreeMap Packet Config Frame SendBuffer RecvBuffer Rtt Congestion SackManager.
From S2P Require Import SimpleRetx Retransmission Packetizer Reliability Lifecycle UnifiedScheduler TimerTask TimingManager Endpoint Sender.
From S2P Require Import Handlers.

Module EventLoop.
Import Endpoint Sender Operations.
Open Scope endpoint_scope.

Section loop.
Context {T : Type} `{CC : CongestionControl T} {SocketAddr : Type} `{!EqDecision SocketAddr}.
Variable env : Env.
Abbreviation Op := (M T SocketAddr).

(** ** Timeouts *)

Definition handle_path_validation_timeout : Op unit :=
  await e := get in
  match Lifecycle.clone (current_state e) with
  | Lifecycle.ValidatingPath _ _ notifier =>
    await _ := cancel_timer env Timing.PathValidationTimeout in
    (match notifier with
     | Some notifier =>
       emit (LifecycleEffect (Lifecycle.Notify notifier (inr Lifecycle.PathValidationTimeout)))
     | None => ret tt
     end) >>!
    transition_state Lifecycle.Established
  | _ => ret tt
  end.

(** The loop over the connection events. *)
Fixpoint handle_connection_events (events : list Timing.TimeoutEvent) : Op unit :=
  match events with
  | [] => ret tt
  | Timing.IdleTimeout :: _ => force_close >>! fail ConnectionTimeout
  | Timing.PathValidationTimeout :: events =>
    handle_path_validation_timeout >>! handle_connection_events events
  | Timing.ConnectionTimeout :: _ => force_close >>! fail ConnectionTimeout
  | Timing.RetransmissionTimeout :: events => handle_connection_events events
  end.

Definition handle_unified_timeout_events_impl (connection_events : list Timing.TimeoutEvent)
    (retransmission_frames : list Frame.Frame) : Op unit :=
  handle_connection_events connection_events >>!
  match retransmission_frames with
  | [] => ret tt
  | _ => send_frames env retransmission_frames
  end.

Definition check_all_timeouts (now1 : Instant) : Op unit :=
  await timing_events := read_timer_events in
  await e := get in
  let reliability_events := ReliabilityLayer.check_timeout_events (rel e) now1 in
  let needs_retransmission := existsb (fun ev => bool_decide (ev = Timing.RetransmissionTimeout)) reliability_events in
  let all_connection_events :=
    timing_events ++ List.filter (fun ev => negb (bool_decide (ev = Timing.RetransmissionTimeout))) reliability_events in
  await retransmission_frames :=
    (if needs_retransmission then
       await e := get in
       let context := create_retransmission_context e in
       reliability_op (fun rl => ReliabilityLayer.check_retransmissions rl now1 context)
     else ret []) in
  (match all_connection_events, retransmission_frames with
   | [], [] => ret tt
   | _, _ => handle_unified_timeout_events_impl all_connection_events retransmission_frames
   end) >>!
  await now2 := Endpoint.now env in
  cleanup_unified_scheduler now2.

Definition handle_timeout (now1 : Instant) : Op unit := check_all_timeouts now1.

Definition calculate_next_wakeup_time : Op Instant :=
  await e := get in
  let rto_deadline := ReliabilityLayer.next_reliability_timeout_deadline (rel e) in
  let connection_deadline := TimingManager.next_connection_timeout_deadline e.(timing) e.(config) in
  let earliest_deadline :=
    match rto_deadline, connection_deadline with
    | Some rto, Some conn => Some (Z.min rto conn)
    | Some rto, None => Some rto
    | None, Some conn => Some conn
    | None, None => None
    end in
  await now1 := Endpoint.now env in
  let fallback_interval := now1 + from_millis 50 in
  ret (Z.min (default fallback_interval earliest_deadline) fallback_interval).

(** ** The event loop *)

Inductive event :=
| FramesArrived (first : Frame.Frame * SocketAddr) (more : list (Frame.Frame * SocketAddr))
| CommandsArrived (first : Commands.StreamCommand SocketAddr) (more : list (Commands.StreamCommand SocketAddr))
| Wakeup (fired : list (TimerEvent.TimerEventData Timing.TimeoutEvent))
| ChannelsClosed.

Fixpoint dispatch_more (now1 : Instant) (more : list (Frame.Frame * SocketAddr)) : Op unit :=
  match more with
  | [] => ret tt
  | (frame, src_addr) :: more =>
    update_last_recv_time now1 >>!
    Processors.dispatch_frame env frame src_addr >>!
    dispatch_more now1 more
  end.

Fixpoint dispatch_commands (cmds : list (Commands.StreamCommand SocketAddr)) : Op unit :=
  match cmds with
  | [] => ret tt
  | cmd :: cmds => Commands.handle_stream_command env cmd >>! dispatch_commands cmds
  end.

(** The branches of [select!]; [false] is [break]. *)
Definition handle_event (ev : event) : Op bool :=
  match ev with
  | FramesArrived first more =>
    await now1 := Endpoint.now env in
    dispatch_more now1 (first :: more) >>! ret true
  | CommandsArrived first more => dispatch_commands (first :: more) >>! ret true
  | Wakeup fired => timers_fired fired >>! await now1 := Endpoint.now env in check_all_timeouts now1 >>! ret true
  | ChannelsClosed => ret false
  end.

(** The reaction to a FIN at the end of the received stream. *)
Definition fin_transition : Op unit :=
  await e := get in
  match current_state e with
  | Lifecycle.Established => attempt (transition_state Lifecycle.FinWait) >>! ret tt
  | Lifecycle.Closing => attempt (transition_state Lifecycle.ClosingWait) >>! ret tt
  | Lifecycle.SynReceived => attempt (transition_state Lifecycle.FinWait) >>! ret tt
  | _ => ret tt
  end.

Definition deliver_received : Op bool :=
  await (data_to_send, fin_seen) := reliability_op ReliabilityLayer.reassemble in
  (if fin_seen : bool then set_fin_pending_eof true else ret tt) >>!
  (match data_to_send with
   | Some ((_ :: _) as data_vec) => send_to_stream env data_vec
   | _ => ret tt
   end) >>!
  ret fin_seen.

Definition packetize_if_open : Op unit :=
  await e := get in
  if Lifecycle.eq (current_state e) Lifecycle.Established || Lifecycle.eq (current_state e) Lifecycle.FinWait ||
     Lifecycle.eq (current_state e) Lifecycle.Closing
  then packetize_and_send env else ret tt.

(** The deferred end of the user's stream. *)
Definition close_stream_after_fin : Op unit :=
  await e := get in
  if e.(timing).(TimingManager.fin_pending_eof) && ReliabilityLayer.is_recv_buffer_empty (rel e) &&
     e.(stream_open)
  then close_stream >>! set_fin_pending_eof false else ret tt.

Definition should_close : Op bool :=
  await e := get in
  await closed :=
    (if (Lifecycle.eq (current_state e) Lifecycle.Closing || Lifecycle.eq (current_state e) Lifecycle.ClosingWait) &&
        ReliabilityLayer.is_in_flight_empty (rel e)
     then
       await r := attempt (transition_state Lifecycle.Closed) in
       match r with
       | inl _ => Commands.clear_in_flight_packets >>! close_stream >>! ret true
       | inr _ => ret false
       end
     else ret false) in
  if closed : bool then ret true
  else await e := get in ret (Lifecycle.should_close (current_state e)).

(** What follows every event; [true] ends the loop. *)
Definition follow_up : Op bool :=
  await fin_seen := deliver_received in
  (if fin_seen : bool then fin_transition else ret tt) >>!
  packetize_if_open >>!
  close_stream_after_fin >>!
  should_close.

(** One turn of the loop; [true] ends it. *)
Definition iteration (ev : event) : Op bool :=
  await _ := calculate_next_wakeup_time in
  await go_on := handle_event ev in
  if go_on : bool then follow_up else ret true.

(** The loop on a sequence of events; [false] when it still waits for one. *)
Fixpoint run_loop (events : list event) : Op bool :=
  match events with
  | [] => ret false
  | ev :: events =>
    await stop := iteration ev in
    if stop : bool then ret true else run_loop events
  end.

(** [run] with the [ConnectionCleaner] that is dropped when it ends, with a
    result or an error. *)
Definition run (events : list event) : Op bool :=
  await e := get in
  await r := attempt (
    (if Lifecycle.eq (current_state e) Lifecycle.Connecting then send_initial_syn env else ret tt) >>!
    run_loop events) in
  match r with
  | inl false => ret false
  | inl true => command_remove_connection env (local_cid_of e) >>! ret true
  | inr err => command_remove_connection env (local_cid_of e) >>! fail err
  end.

(** ** [builder/constructors.rs] *)

Definition new_endpoint (cfg : Config.Config) (addr : SocketAddr) (local peer : Z)
    (rl : ReliabilityLayer.ReliabilityLayer T) (initial_state : Lifecycle.ConnectionState SocketAddr)
    : World T SocketAddr :=
  let '(_, manager, effs) :=
    Lifecycle.initialize (Lifecycle.new initial_state cfg (env.(clock) 0%nat)) local addr (env.(clock) 1%nat) in
  {| ep := {| identity := {| local_cid := local; peer_cid := peer; remote_addr := addr |};
              timing := TimingManager.new local (env.(clock) 2%nat) (env.(clock) 3%nat);
              transport := transport_new rl; stream_open := true;
              lifecycle_manager := manager; config := cfg |};
     log := map LifecycleEffect effs; reads := 4 |}.

Definition register_idle_timeout : Op unit :=
  await e := get in
  await ok := register_timer env Timing.IdleTimeout (TimingManager.idle e.(config)) in
  if ok : bool then ret tt else fail TimerError.

(** [congestion_control] is [Vegas::new(config)] in the code. *)
Definition new_client (cfg : Config.Config) (addr : SocketAddr) (local : Z) (congestion_control : T)
    (initial_data : option (list byte)) : outcome (World T SocketAddr * (unit + Error)) :=
  let rl := ReliabilityLayer.new cfg congestion_control in
  let rl := match initial_data with
            | Some data => (ReliabilityLayer.write_to_stream rl data).1
            | None => rl
            end in
  (register_idle_timeout >>!
   await _ := register_timer env Timing.ConnectionTimeout (from_secs 30) in
   ret tt)
    (new_endpoint cfg addr local 0 rl Lifecycle.Connecting).

Definition new_server (cfg : Config.Config) (addr : SocketAddr) (local peer : Z) (congestion_control : T)
    : outcome (World T SocketAddr * (unit + Error)) :=
  register_idle_timeout
    (new_endpoint cfg addr local peer (ReliabilityLayer.new cfg congestion_control) Lifecycle.SynReceived).

End loop.

Arguments event : clear implicits.

(** A server on the default configuration, with addresses as numbers. *)
Definition example_env : Env := {|
  clock := fun n => from_millis (Z.of_nat n); random := fun n => 42 + Z.of_nat n;
  channel_ok := fun _ => true; stream_ok := fun _ => true;
  register_reply := fun n => Some (Z.of_nat n); cancel_reply := fun _ _ => Some true |}.

Definition example_server : World Vegas.Vegas Z :=
  new_endpoint example_env Config.default 100 7 9
    (ReliabilityLayer.new Config.default (Vegas.new Config.default)) Lifecycle.SynReceived.

Lemma example_server_new :
  exists w, new_server example_env Config.default 100 7 9 (Vegas.new Config.default) = Done (w, inl tt) /\
    w.(ep).(transport) = example_server.(ep).(transport).
Proof. eexists. split; reflexivity. Qed.

(** The world after an operation. *)
Definition after {A} (w : World Vegas.Vegas Z) (m : M Vegas.Vegas Z A) : World Vegas.Vegas Z :=
  match m w with Done (w', _) => w' | Panic => w end.

(** The server once its user has written. *)
Definition example_established : World Vegas.Vegas Z :=
  after example_server (run_loop example_env [CommandsArrived (Commands.SendData [Byte.x61; Byte.x62]) []]).

End EventLoop.
