(* ===== verification/EndpointFacts.v ===== *)
(** * Endpoint: what its operations guarantee

    The steps of the handlers and of the loop of [Handlers] and [EventLoop],
    the invariants they preserve and what the handlers compute. *)

From S2P Require Import Prelude BTreeMap Packet Config Frame SendBuffer RecvBuffer Rtt Congestion SackManager.
From S2P Require Import SimpleRetx Retransmission Packetizer Reliability Lifecycle UnifiedScheduler TimerTask TimingManager Endpoint Sender.
From S2P Require Import Handlers EventLoop.

Module EndpointFacts.
Import Endpoint Sender Operations FrameProcessingContext Processors EventLoop.
Open Scope endpoint_scope.

(** Steps that leave the identity alone and do not start the idle timer. *)
Definition ordinary (k : kind) : Prop :=
  match k with KRemoteAddr | KPeerCid | KTimer Timing.IdleTimeout => False | _ => True end.

(** Steps that do not start the idle timer. *)
Definition not_idle (k : kind) : Prop :=
  match k with KTimer Timing.IdleTimeout => False | _ => True end.

(** ... and do not change the remote address. *)
Definition keeps_addr (k : kind) : Prop :=
  match k with KRemoteAddr | KTimer Timing.IdleTimeout => False | _ => True end.

Lemma ordinary_keeps k : ordinary k -> keeps_addr k.
Proof. by destruct k as [| | | | | | |[]| | | | |]. Qed.

Lemma keeps_not_idle k : keeps_addr k -> not_idle k.
Proof. by destruct k as [| | | | | | |[]| | | | |]. Qed.

#[local] Hint Extern 0 (ordinary _) => exact I : runs.
#[local] Hint Extern 0 (keeps_addr _) => exact I : runs.
#[local] Hint Extern 0 (not_idle _) => exact I : runs.

Section facts.
Context {T : Type} `{CC : CongestionControl T} {SocketAddr : Type} `{!EqDecision SocketAddr}.
Variable env : Env.
Abbreviation Op := (M T SocketAddr).
Implicit Types (w : World T SocketAddr).

(** ** Steps of the handlers *)

Lemma runs_check_path_migration src : runs ordinary (check_path_migration env src : Op unit).
Proof. unfold check_path_migration, start_path_validation. solve_runs. Qed.

Lemma runs_receive_data seq payload : runs ordinary (receive_data_and_maybe_ack env seq payload : Op unit).
Proof. unfold receive_data_and_maybe_ack. solve_runs. Qed.

Lemma runs_receive_fin seq : runs ordinary (receive_fin_and_ack env seq : Op bool).
Proof. unfold receive_fin_and_ack. solve_runs. Qed.

Lemma runs_send_path_response seq data addr : runs ordinary (send_path_response env seq data addr : Op unit).
Proof. unfold send_path_response. solve_runs. Qed.

#[local] Hint Resolve runs_check_path_migration runs_receive_data runs_receive_fin runs_send_path_response : runs.

Lemma runs_push frame src t : runs ordinary (PushProcessor.process_frame env frame src t : Op unit).
Proof.
  unfold PushProcessor.process_frame. destruct frame; try apply runs_fail.
  unfold PushProcessor.handle_push_in_syn_received, PushProcessor.handle_push_in_established,
    PushProcessor.handle_push_in_validating_path, PushProcessor.handle_push_in_fin_wait,
    PushProcessor.handle_push_in_closing. solve_runs.
Qed.

Lemma runs_ack frame src t : runs ordinary (AckProcessor.process_frame env frame src t : Op unit).
Proof.
  unfold_ack. destruct frame; try apply runs_fail.
  assert (H : runs ordinary (AckProcessor.process_ack_common env header payload t : Op unit)).
  { unfold AckProcessor.process_ack_common, process_ack_and_get_retx_frames. solve_runs. }
  solve_runs.
Qed.

Lemma runs_connection frame src t :
  runs keeps_addr (ConnectionProcessor.process_frame env frame src t : Op unit).
Proof.
  unfold_connection; unfold ConnectionProcessor.handle_syn_frame,
    ConnectionProcessor.handle_syn_ack_frame, ConnectionProcessor.handle_fin_frame,
    ConnectionProcessor.handle_fin_in_syn_received, ConnectionProcessor.handle_fin_in_established,
    ConnectionProcessor.handle_fin_in_validating_path, ConnectionProcessor.handle_fin_in_fin_wait,
    ConnectionProcessor.handle_fin_in_closing, receive_fin_and_ack, transition_state,
    cancel_connection_timeout.
  solve_runs.
Qed.

Lemma runs_path frame src t : runs not_idle (PathProcessor.process_frame env frame src t : Op unit).
Proof.
  unfold_path. apply runs_bind; [apply runs_get|intros e].
  unfold PathProcessor.handle_path_challenge_frame, PathProcessor.handle_path_response_frame,
    PathProcessor.handle_path_validation_response, complete_path_validation, context_new. simpl.
  destruct frame; try apply runs_fail.
  - destruct (Lifecycle.clone _); try apply runs_ret; unfold send_path_response; solve_runs.
  - destruct (current_state e); simpl; solve_runs.
Qed.

Lemma runs_dispatch frame src : runs not_idle (dispatch_frame env frame src : Op unit).
Proof.
  unfold dispatch_frame, route_frame. apply runs_bind; [solve_runs|intros t].
  apply runs_bind; [solve_runs|intros _].
  apply runs_bind; [eapply runs_weaken; [|apply runs_check_path_migration]|intros _].
  { intros k Hk. by apply keeps_not_idle, ordinary_keeps. }
  destruct (from_frame frame) as [[]|]; try apply runs_ret; try apply runs_fail; apply runs_bind; intros.
  all: try (destruct frame; simpl; apply runs_ret || apply runs_fail).
  - eapply runs_weaken; [|apply runs_push]. intros k Hk. by apply keeps_not_idle, ordinary_keeps.
  - eapply runs_weaken; [|apply runs_ack]. intros k Hk. by apply keeps_not_idle, ordinary_keeps.
  - eapply runs_weaken; [|apply runs_connection]. apply keeps_not_idle.
  - apply runs_path.
Qed.

Lemma runs_command cmd : runs ordinary (Commands.handle_stream_command env cmd : Op unit).
Proof.
  unfold Commands.handle_stream_command, Commands.shutdown, Commands.if_ok, Commands.cleanup_if_closed,
    Commands.clear_in_flight_packets, transition_state, begin_graceful_shutdown, start_path_validation.
  solve_runs.
Qed.

(** ** Steps of the loop *)

Lemma runs_connection_events events : runs ordinary (handle_connection_events env events : Op unit).
Proof.
  induction events as [|[] events IH]; simpl; [apply runs_ret| | |done|].
  - unfold force_close. solve_runs.
  - apply runs_bind; [|done]. unfold handle_path_validation_timeout, transition_state.
    apply runs_bind; [apply runs_get|intros e]. destruct (current_state e); simpl; solve_runs.
  - unfold force_close. solve_runs.
Qed.

#[local] Hint Resolve runs_connection_events runs_command : runs.

Lemma runs_check_all_timeouts t : runs ordinary (check_all_timeouts env t : Op unit).
Proof. unfold check_all_timeouts, handle_unified_timeout_events_impl. solve_runs. Qed.

Lemma runs_follow_up : runs ordinary (follow_up env : Op bool).
Proof.
  unfold follow_up, deliver_received, fin_transition, packetize_if_open, close_stream_after_fin, should_close,
    Commands.clear_in_flight_packets, transition_state. solve_runs.
Qed.

Lemma ordinary_not_idle k : ordinary k -> not_idle k.
Proof. intros H. by apply keeps_not_idle, ordinary_keeps. Qed.

Lemma runs_iteration ev : runs not_idle (iteration env ev : Op bool).
Proof.
  unfold iteration, calculate_next_wakeup_time. apply runs_bind; [solve_runs|intros _].
  apply runs_bind; [|intros []; [eapply runs_weaken; [apply ordinary_not_idle|apply runs_follow_up]|apply runs_ret]].
  unfold handle_event. destruct ev as [first more|first more|fired|].
  - apply runs_bind; [solve_runs|intros t]. apply runs_bind; [|intros; apply runs_ret].
    generalize (first :: more). intros l. induction l as [|[f a] l IH]; simpl; [apply runs_ret|].
    apply runs_bind; [solve_runs|intros _]. apply runs_bind; [apply runs_dispatch|done].
  - apply runs_bind; [|intros; apply runs_ret]. generalize (first :: more). intros l.
    induction l as [|c l IH]; simpl; [apply runs_ret|]. apply runs_bind; [|done].
    eapply runs_weaken; [apply ordinary_not_idle|apply runs_command].
  - apply runs_bind; [solve_runs|intros _]. apply runs_bind; [solve_runs|intros t].
    apply runs_bind; [|intros; apply runs_ret].
    eapply runs_weaken; [apply ordinary_not_idle|apply runs_check_all_timeouts].
  - apply runs_ret.
Qed.

Lemma runs_run_loop events : runs not_idle (run_loop env events : Op bool).
Proof.
  induction events as [|ev events IH]; simpl; [apply runs_ret|].
  apply runs_bind; [apply runs_iteration|intros []; [apply runs_ret|done]].
Qed.

Lemma runs_run events : runs not_idle (run env events : Op bool).
Proof.
  unfold run. apply runs_bind; [apply runs_get|intros e]. apply runs_bind.
  - apply runs_attempt, runs_bind; [solve_runs|intros _; apply runs_run_loop].
  - intros a. solve_runs.
Qed.

(** ** Invariants of every run *)

Definition quiet (eff : effect SocketAddr) : Prop :=
  match eff with
  | LifecycleEffect (Lifecycle.Notify _ _) => False
  | StartTimer Timing.IdleTimeout _ => False
  | _ => True
  end.

Lemma lifecycle_quiet effs :
  List.filter (Lifecycle.is_notify (SocketAddr := SocketAddr)) effs = [] -> Forall quiet (map LifecycleEffect effs).
Proof. induction effs as [|[] effs IH]; simpl; intros H; [constructor| |done]. constructor; [done|auto]. Qed.

Definition phase_of w : Z := Lifecycle.phase (current_state w.(ep)).

Lemma prim_forward w k w' :
  not_idle k -> prim w k w' ->
  phase_of w <= phase_of w' /\ exists l, w'.(log) = w.(log) ++ l /\ Forall quiet l.
Proof.
  intros Hk Hp. unfold phase_of, current_state.
  assert (Hnil : exists l, w.(log) = w.(log) ++ l /\ Forall quiet l) by (exists []; by rewrite app_nil_r).
  destruct Hp; simpl; try (split; [done|exact Hnil]).
  - apply Lifecycle.step_valid in H as (Hv & _ & Hn). apply Lifecycle.valid_phase in Hv.
    split; [done|]. eexists. split; [done|]. by apply lifecycle_quiet.
  - split; [done|]. eexists. split; [done|]. constructor; [by destruct event0|].
    destruct old; simpl; by repeat constructor.
  - split; [done|]. eexists. split; [done|]. destruct handle; simpl; by repeat constructor.
  - split; [done|]. eexists. split; [done|]. by repeat constructor.
  - split; [done|]. eexists. split; [done|]. by repeat constructor.
  - split; [done|]. eexists. split; [done|]. by repeat constructor.
  - split; [done|]. eexists. split; [done|]. by repeat constructor.
  - split; [done|]. eexists. split; [done|]. by repeat constructor.
Qed.

Lemma steps_forward w w' :
  steps not_idle w w' -> phase_of w <= phase_of w' /\ exists l, w'.(log) = w.(log) ++ l /\ Forall quiet l.
Proof.
  intros Hs. apply (steps_ind not_idle (fun w1 => phase_of w <= phase_of w1 /\
    exists l, w1.(log) = w.(log) ++ l /\ Forall quiet l) w w').
  - intros w1 k w2 Hk Hp (H1 & l & H2 & H3). destruct (prim_forward w1 k w2 Hk Hp) as (H4 & l' & H5 & H6).
    split; [lia|]. exists (l ++ l'). rewrite H5, H2, app_assoc. split; [done|]. by apply Forall_app.
  - done.
  - split; [done|]. exists []. by rewrite app_nil_r.
Qed.

(** C9: Whatever frames, commands and timeouts reach the loop, in any order and
    with any answers of the environment, the connection only moves forward
    through its phases, a closed connection stays closed, what was sent stays
    sent, the caller of [migrate] is never answered, and the idle timer is
    never started again. *)
Theorem run_moves_forward events w w' r :
  run env events w = Done (w', r) ->
  phase_of w <= phase_of w' /\
  (current_state w.(ep) = Lifecycle.Closed -> current_state w'.(ep) = Lifecycle.Closed) /\
  exists l, w'.(log) = w.(log) ++ l /\ Forall quiet l.
Proof.
  intros H%runs_run%steps_forward. destruct H as (H1 & H2). split_and!; [done| |done].
  unfold phase_of in H1. intros E. rewrite E in H1. simpl in H1. destruct (current_state (ep w')); simpl in *; done || lia.
Qed.

(** ** Frames that arrive *)

(** The endpoint's part of a world, after an operation. *)
Definition same_identity w w' : Prop := w'.(ep).(identity) = w.(ep).(identity).

Lemma prim_identity w k w' :
  ordinary k -> prim w k w' -> w'.(ep).(identity) = w.(ep).(identity).
Proof. intros Hk Hp. by destruct Hp. Qed.

Lemma steps_identity w w' : steps ordinary w w' -> w'.(ep).(identity) = w.(ep).(identity).
Proof.
  intros Hs. apply (steps_ind ordinary (fun w1 => w1.(ep).(identity) = w.(ep).(identity)) w w'); [|done..].
  intros w1 k w2 Hk Hp <-. by eapply prim_identity.
Qed.

Lemma prim_addr w k w' : keeps_addr k -> prim w k w' -> remote_addr_of w'.(ep) = remote_addr_of w.(ep).
Proof. intros Hk Hp. by destruct Hp. Qed.

Lemma steps_addr w w' : steps keeps_addr w w' -> remote_addr_of w'.(ep) = remote_addr_of w.(ep).
Proof.
  intros Hs. apply (steps_ind keeps_addr (fun w1 => remote_addr_of w1.(ep) = remote_addr_of w.(ep)) w w'); [|done..].
  intros w1 k w2 Hk Hp <-. by eapply prim_addr.
Qed.

(** What [check_path_migration] does on every branch. *)
Lemma check_path_migration_spec src w w' r :
  check_path_migration env src w = Done (w', r) ->
  w'.(ep).(identity) = w.(ep).(identity) /\ (r = inl tt \/ r = inr ChannelClosed) /\
  (w' = w /\ r = inl tt /\ (src = remote_addr_of w.(ep) \/ current_state w.(ep) <> Lifecycle.Established) \/
   src <> remote_addr_of w.(ep) /\ current_state w.(ep) = Lifecycle.Established /\
   current_state w'.(ep) =
     Lifecycle.ValidatingPath src (env.(random) w.(reads)) (Some dropped_channel) /\
   rel w'.(ep) = (ReliabilityLayer.next_sequence_number (rel w.(ep))).1).
Proof.
  intros H. split; [by eapply steps_identity, runs_check_path_migration|].
  revert H. unfold check_path_migration, start_path_validation. run.
  destruct (bool_decide_reflect (src = remote_addr_of w.(ep))) as [->|Hs]; simpl.
  { intros [= <- <-]. split; [by left|]. left. split_and!; [done..|by left]. }
  destruct (current_state w.(ep)) eqn:Es; simpl;
    try (intros [= <- <-]; split; [by left|]; left; split_and!; [done..|by right]).
  run. unfold Lifecycle.start_path_validation, current_state in *. cbn [ep ticked]. rewrite Es.
  cbn [Lifecycle.can_start_path_validation negb].
  rewrite Lifecycle.transition_to_spec, Es. cbn [Lifecycle.is_valid_transition].
  unfold bind at 1, register_timer at 1. destruct (TimingManager.register_timer _ _ _) as [[tm ok] old].
  run. unfold send_frame_to, send_batch. cbn. intros H.
  destruct (channel_ok env _); injection H as <- <-; simpl; (split; [auto|right; done]).
Qed.

(** The timing fields change only. *)
Lemma route_frame_head frame src t w :
  route_frame env frame src t w =
  bind (check_path_migration env src) (fun _ =>
    match frame with
    | Frame.Push _ _ => PushProcessor.process_frame env frame src t
    | Frame.Ack _ _ => AckProcessor.process_frame env frame src t
    | Frame.Syn _ | Frame.SynAck _ | Frame.Fin _ => ConnectionProcessor.process_frame env frame src t
    | Frame.PathChallenge _ _ | Frame.PathResponse _ _ => PathProcessor.process_frame env frame src t
    | Frame.Ping _ => ret tt
    end)
  (set_ep w (with_timing w.(ep) (TimingManager.update_last_recv_time w.(ep).(timing) t))).
Proof. by destruct frame. Qed.

(** [data] is the challenge sent to [src]: the one of the validation in
    progress, or the one that is drawn when a frame from an unknown address
    arrives in the established state. *)
Definition challenged w (src : SocketAddr) (data : Z) : Prop :=
  (exists notifier, current_state w.(ep) = Lifecycle.ValidatingPath src data notifier) \/
  current_state w.(ep) = Lifecycle.Established /\ data = env.(random) w.(reads).

(** C31: The peer's address changes only by a PATH_RESPONSE that comes from the
    new address and carries the challenge that was sent there, or that is drawn
    for it when the response is the first frame to come from there. *)
Theorem remote_addr_needs_response frame src t w w' r :
  route_frame env frame src t w = Done (w', r) ->
  remote_addr_of w'.(ep) <> remote_addr_of w.(ep) ->
  exists header data, frame = Frame.PathResponse header data /\ remote_addr_of w'.(ep) = src /\ challenged w src data.
Proof.
  unfold challenged.
  rewrite route_frame_head. set (w0 := set_ep w _).
  assert (E0 : remote_addr_of w.(ep) = remote_addr_of w0.(ep)) by done. rewrite E0.
  assert (Es0 : current_state w.(ep) = current_state w0.(ep)) by done. rewrite Es0.
  assert (Er0 : w.(reads) = w0.(reads)) by done. rewrite Er0. clearbody w0. clear w E0 Es0 Er0.
  unfold bind. destruct (check_path_migration env src w0) as [[w1 [[]|err]]|] eqn:Ec; [| |done].
  2: { intros [= <- <-] Hne. apply check_path_migration_spec in Ec as [Hi _].
       unfold remote_addr_of in Hne. by rewrite Hi in Hne. }
  apply check_path_migration_spec in Ec as (Hi & _ & Hc).
  assert (Ea : remote_addr_of w1.(ep) = remote_addr_of w0.(ep)) by (unfold remote_addr_of; by rewrite Hi).
  rewrite <- Ea. intros H Hne. destruct frame as [h p|h p|h|h|h|h|h data|h data].
  - exfalso. apply Hne. eapply steps_addr, runs_weaken; [apply ordinary_keeps|apply runs_push|exact H].
  - exfalso. apply Hne. eapply steps_addr, runs_weaken; [apply ordinary_keeps|apply runs_ack|exact H].
  - by injection H as <- <-.
  - exfalso. apply Hne. eapply steps_addr, runs_connection, H.
  - exfalso. apply Hne. eapply steps_addr, runs_connection, H.
  - exfalso. apply Hne. eapply steps_addr, runs_connection, H.
  - exfalso. apply Hne. eapply steps_addr, runs_weaken; [apply ordinary_keeps| |exact H].
    unfold_path; unfold PathProcessor.handle_path_challenge_frame, send_path_response.
    unfold PathProcessor.handle_path_challenge_frame. solve_runs.
  - exists h, data. split; [done|]. revert H. unfold_path. unfold bind at 1, get at 1.
    unfold PathProcessor.handle_path_response_frame, context_new. cbn [connection_state src_addr].
    destruct (current_state w1.(ep)) as [| | |addr chal n| | | |] eqn:Es; simpl;
      try (intros [= <- <-]; done).
    unfold PathProcessor.handle_path_validation_response.
    destruct (bool_decide_reflect (src = addr)) as [<-|]; [|by intros [= <- <-]].
    destruct (Z.eqb_spec data chal) as [<-|]; [|by intros [= <- <-]]. simpl.
    unfold bind at 1, complete_path_validation, lifecycle, Lifecycle.complete_path_validation.
    unfold current_state in Es. rewrite Es. cbn [Lifecycle.is_path_validating negb].
    rewrite Lifecycle.transition_to_spec, Es. cbn [Lifecycle.is_valid_transition].
    unfold bind, set_remote_addr, ret, get, command_update_addr. cbn -[map app]. intros H.
    assert (Hr : remote_addr_of w'.(ep) = src) by (destruct (channel_ok env _); injection H as <- <-; done).
    split; [done|]. destruct Hc as [(-> & _ & _)|(_ & He & Hv & _)].
    + left. exists n. done.
    + right. split; [done|]. by injection Hv.
Qed.

End facts.

Definition example_events : list (event Z) :=
  [CommandsArrived (Commands.SendData [Byte.x61; Byte.x62]) [];
   FramesArrived (Frame.new_push 7 0 0 100 5 [Byte.x63], 100) []; CommandsArrived Commands.Close [];
   Wakeup []].

Lemma run_moves_forward_witness :
  let w := example_server in
  let w' := after w (run example_env example_events) in
  run example_env example_events w = Done (w', inl false) /\
  phase_of w <= phase_of w' /\
  (current_state w.(ep) = Lifecycle.Closed -> current_state w'.(ep) = Lifecycle.Closed) /\
  exists l, w'.(log) = w.(log) ++ l /\ Forall quiet l.
Proof.
  intros w w'.
  assert (H : run example_env example_events w = Done (w', inl false)) by (vm_compute; reflexivity).
  clearbody w'. clearbody w. split; [exact H|]. exact (run_moves_forward example_env example_events w w' (inl false) H).
Defined.

(** A frame from a new address starts a validation; the response that ends it. *)
Definition example_response : Frame.Frame := Frame.new_path_response 7 1 10 (42 + 8).

Lemma remote_addr_needs_response_witness :
  let w := example_established in
  exists w', route_frame example_env example_response 200 0 w = Done (w', inl tt) /\
  remote_addr_of w'.(ep) <> remote_addr_of w.(ep) /\
  exists header data, example_response = Frame.PathResponse header data /\ remote_addr_of w'.(ep) = 200 /\ challenged example_env w 200 data.
Proof.
  intros w. set (w' := after w (route_frame example_env example_response 200 0)). exists w'.
  assert (H : route_frame example_env example_response 200 0 w = Done (w', inl tt)) by (vm_compute; reflexivity).
  assert (Hne : remote_addr_of w'.(ep) <> remote_addr_of w.(ep)) by (vm_compute; discriminate).
  clearbody w'. clearbody w. split; [exact H|split; [exact Hne|]].
  exact (remote_addr_needs_response example_env example_response 200 0 w w' (inl tt) H Hne).
Defined.

End EndpointFacts.
