(* ===== verification/ProcessorTraits.v ===== *)
(** * The interfaces of the frame processors

    [core/endpoint/processing/processors.rs] gives each processor two traits,
    the unified and the type-safe one, and an adapter that makes a dynamic
    processor of a unified one.  The endpoint routes frames by static dispatch
    ([Processors.route_frame]).  Here are the traits, the four processors as
    their implementations, and what they promise: the two interfaces agree,
    each frame has one processor, and static dispatch is dynamic dispatch
    over the adapters. *)

From S2P Require Import Prelude BTreeMap Packet Config Frame SendBuffer RecvBuffer Rtt Congestion.
From S2P Require Import SackManager SimpleRetx Retransmission Packetizer Reliability Lifecycle UnifiedScheduler TimerTask.
From S2P Require Import TimingManager Endpoint Sender Handlers.

Module ProcessorTraits.
Import Endpoint Sender Operations FrameProcessingContext Processors.
Open Scope endpoint_scope.

Section traits.
Context {T : Type} `{CC : CongestionControl T} {SocketAddr : Type} `{!EqDecision SocketAddr}.
Variable env : Env.
Abbreviation Op := (M T SocketAddr).
Implicit Types (w : World T SocketAddr) (frame : Frame.Frame) (src : SocketAddr).

(** ** The traits *)

Record UnifiedFrameProcessor := {
  can_handle : Frame.Frame -> bool;
  process_frame : Frame.Frame -> SocketAddr -> Instant -> Op unit;
}.

(** The default method. *)
Definition validate_frame (p : UnifiedFrameProcessor) frame : Op unit :=
  if p.(can_handle) frame then ret tt else fail InvalidFrame.

(** [TypeSafeFrameProcessor] with its [TypeSafeFrameValidator]. *)
Record TypeSafeFrameProcessor := {
  validate_frame_type : Frame.Frame -> Op unit;
  type_safe_process_frame : Frame.Frame -> SocketAddr -> Instant -> Op unit;
}.

Record DynamicFrameProcessor := {
  dyn_can_handle : Frame.Frame -> bool;
  dyn_process_frame : Frame.Frame -> SocketAddr -> Instant -> Op unit;
}.

Definition ProcessorAdapter (p : UnifiedFrameProcessor) : DynamicFrameProcessor :=
  {| dyn_can_handle := p.(can_handle); dyn_process_frame := p.(process_frame) |}.

(** ** The implementations *)

Definition push_unified : UnifiedFrameProcessor :=
  {| can_handle frame := match frame with Frame.Push _ _ => true | _ => false end;
     process_frame := PushProcessor.process_frame env |}.

(** Its own copy of the dispatch on the state; [unreachable!()] behind the
    validation. *)
Definition push_type_safe_process frame src (now1 : Instant) : Op unit :=
  PushProcessor.validate_frame_type frame >>!
  match frame with
  | Frame.Push header payload =>
    await e := get in
    match (context_new e src now1).(connection_state) with
    | Lifecycle.SynReceived => PushProcessor.handle_push_in_syn_received header payload
    | Lifecycle.Established => PushProcessor.handle_push_in_established env header payload
    | Lifecycle.ValidatingPath _ _ _ => PushProcessor.handle_push_in_validating_path env header payload
    | Lifecycle.FinWait => PushProcessor.handle_push_in_fin_wait env header payload
    | Lifecycle.Closing => PushProcessor.handle_push_in_closing env header payload
    | Lifecycle.ClosingWait => PushProcessor.handle_push_in_closing env header payload
    | _ => ret tt
    end
  | _ => panic
  end.

Definition push_type_safe : TypeSafeFrameProcessor :=
  {| validate_frame_type := PushProcessor.validate_frame_type; type_safe_process_frame := push_type_safe_process |}.

Definition ack_unified : UnifiedFrameProcessor :=
  {| can_handle frame := match frame with Frame.Ack _ _ => true | _ => false end;
     process_frame := AckProcessor.process_frame env |}.

Definition ack_type_safe_process frame src (now1 : Instant) : Op unit :=
  AckProcessor.validate_frame_type frame >>! AckProcessor.process_ack_frame_internal env frame src now1.

Definition ack_type_safe : TypeSafeFrameProcessor :=
  {| validate_frame_type := AckProcessor.validate_frame_type; type_safe_process_frame := ack_type_safe_process |}.

Definition connection_unified : UnifiedFrameProcessor :=
  {| can_handle frame := match frame with Frame.Syn _ | Frame.SynAck _ | Frame.Fin _ => true | _ => false end;
     process_frame := ConnectionProcessor.process_frame env |}.

Definition connection_type_safe_process frame src (now1 : Instant) : Op unit :=
  ConnectionProcessor.validate_frame_type frame >>!
  ConnectionProcessor.process_connection_frame_internal env frame src now1.

Definition connection_type_safe : TypeSafeFrameProcessor :=
  {| validate_frame_type := ConnectionProcessor.validate_frame_type;
     type_safe_process_frame := connection_type_safe_process |}.

Definition path_unified : UnifiedFrameProcessor :=
  {| can_handle frame := match frame with Frame.PathChallenge _ _ | Frame.PathResponse _ _ => true | _ => false end;
     process_frame := PathProcessor.process_frame env |}.

Definition path_type_safe_process frame src (now1 : Instant) : Op unit :=
  PathProcessor.validate_frame_type frame >>! PathProcessor.process_path_frame_internal env frame src now1.

Definition path_type_safe : TypeSafeFrameProcessor :=
  {| validate_frame_type := PathProcessor.validate_frame_type; type_safe_process_frame := path_type_safe_process |}.

(** ** What the processor of one kind of frame promises

    It takes its kind of frame and no other.  Its two interfaces do the same
    with a frame they take; one they do not take is an error, of another kind
    for each, and changes nothing. *)

Class Implements (kind : ProcessorType) (u : UnifiedFrameProcessor) (s : TypeSafeFrameProcessor) : Prop := {
  takes_kind frame : u.(can_handle) frame = true <-> from_frame frame = Some kind;
  validates frame w : s.(validate_frame_type) frame w = validate_frame u frame w;
  takes_both_ways frame src now1 w :
    u.(can_handle) frame = true -> s.(type_safe_process_frame) frame src now1 w = u.(process_frame) frame src now1 w;
  refuses frame src now1 w :
    u.(can_handle) frame = false ->
    s.(type_safe_process_frame) frame src now1 w = Done (w, inr InvalidFrame) /\
    u.(process_frame) frame src now1 w = Done (w, inr FrameTypeMismatch);
}.

#[export] Instance push_implements : Implements Push push_unified push_type_safe.
Proof. constructor; intros []; by simpl. Qed.

#[export] Instance ack_implements : Implements Ack ack_unified ack_type_safe.
Proof. constructor; intros []; by simpl. Qed.

#[export] Instance connection_implements : Implements Connection connection_unified connection_type_safe.
Proof. constructor; intros []; by simpl. Qed.

#[export] Instance path_implements : Implements Path path_unified path_type_safe.
Proof. constructor; intros []; by simpl. Qed.

(** The type-safe interface in one equation. *)
Lemma type_safe_exact kind u s frame src now1 w `{!Implements kind u s} :
  s.(type_safe_process_frame) frame src now1 w =
    bind (validate_frame u frame) (fun _ => u.(process_frame) frame src now1) w.
Proof.
  unfold validate_frame. destruct (can_handle u frame) eqn:E.
  - rewrite bind_ret. by apply takes_both_ways.
  - rewrite bind_fail. by apply (proj1 (refuses frame src now1 w E)).
Qed.

(** ** Dispatch *)

Definition registry : list UnifiedFrameProcessor := [push_unified; ack_unified; connection_unified; path_unified].

(** Every frame but PING is taken by exactly one processor, PING by none. *)
Lemma one_processor frame :
  length (filter (fun p => can_handle p frame = true) registry) =
    match frame with Frame.Ping _ => 0%nat | _ => 1%nat end.
Proof. by destruct frame. Qed.

(** Dynamic dispatch: the first adapter that takes the frame. *)
Definition dispatch_dynamic (processors : list DynamicFrameProcessor) frame src (now1 : Instant) : Op unit :=
  match find (fun p => p.(dyn_can_handle) frame) processors with
  | Some p => p.(dyn_process_frame) frame src now1
  | None => ret tt
  end.

(** The registry's static dispatch is dynamic dispatch over the adapters; the
    validation it makes first never fails. *)
Lemma route_frame_dynamic frame src now1 w :
  route_frame env frame src now1 w =
    (update_last_recv_time now1 >>! check_path_migration env src >>!
     dispatch_dynamic (map ProcessorAdapter registry) frame src now1) w.
Proof.
  unfold route_frame. apply bind_cong. intros [] w1 _. apply bind_cong. intros [] w2 _. by destruct frame.
Qed.

(** In any order of the processors. *)
Lemma dispatch_order_irrelevant processors frame src now1 w :
  processors ≡ₚ registry ->
  dispatch_dynamic (map ProcessorAdapter processors) frame src now1 w =
    dispatch_dynamic (map ProcessorAdapter registry) frame src now1 w.
Proof.
  intros Hp. unfold dispatch_dynamic.
  assert (Hone : forall p q, p ∈ registry -> q ∈ registry -> can_handle p frame = true -> can_handle q frame = true -> p = q).
  { intros p q Hp1 Hq1 E1 E2. unfold registry in *. set_unfold. 
    destruct Hp1 as [->|[->|[->|[->|[]]]]], Hq1 as [->|[->|[->|[->|[]]]]]; try done; exfalso;
      clear -E1 E2; by destruct frame. }
  assert (Hfind : forall l, match find (fun p => dyn_can_handle p frame) (map ProcessorAdapter l) with
    | Some d => exists p, p ∈ l /\ d = ProcessorAdapter p /\ can_handle p frame = true
    | None => forall p, p ∈ l -> can_handle p frame = false end).
  { induction l as [|p l IH]; simpl; [intros p Hp0; by apply elem_of_nil in Hp0|].
    destruct (can_handle p frame) eqn:E; [exists p; split; [left|done]|].
    destruct (find _ _) as [d|]; [destruct IH as (q & Hq & ?); exists q; split; [by right|done]|].
    intros q [->|Hq]%elem_of_cons; [done|by apply IH]. }
  pose proof (Hfind processors) as H1. pose proof (Hfind registry) as H2.
  destruct (find _ (map ProcessorAdapter processors)) as [d1|], (find _ (map ProcessorAdapter registry)) as [d2|]; [| | |done].
  - destruct H1 as (p & Hp1 & -> & E1), H2 as (q & Hq & -> & E2). rewrite Hp in Hp1. by rewrite (Hone p q).
  - destruct H1 as (p & Hp1 & -> & E1). rewrite Hp in Hp1. by rewrite (H2 p Hp1) in E1.
  - destruct H2 as (p & Hp1 & -> & E1). rewrite <- Hp in Hp1. by rewrite (H1 p Hp1) in E1.
Qed.

End traits.

End ProcessorTraits.
