(* ===== verification/EndpointErrors.v ===== *)
(** * Endpoint: errors and timeouts

    Which errors the handlers and the loop of the endpoint end with, what a
    timeout check does, and when the loop stops. *)

From S2P Require Import Prelude BTreeMap Packet Config Frame SendBuffer RecvBuffer Rtt Congestion.
From S2P Require Import SackManager SimpleRetx Retransmission Packetizer Reliability Lifecycle UnifiedScheduler TimerTask.
From S2P Require Import TimingManager Endpoint Sender Handlers EventLoop EndpointFacts.

Module EndpointErrors.
Import Endpoint Sender Operations FrameProcessingContext Processors EventLoop.
Open Scope endpoint_scope.

Create HintDb fails.

Section logic.
Context {T : Type} `{CC : CongestionControl T} {SocketAddr : Type} `{!EqDecision SocketAddr}.
Implicit Types (w : World T SocketAddr) (E : Error -> World T SocketAddr -> Prop).

(** The errors an operation can end with, and the world it leaves. *)
Definition fails {A} E (m : M T SocketAddr A) : Prop := forall w w' err, m w = Done (w', inr err) -> E err w'.

Lemma fails_ret {A} E (a : A) : fails E (ret a).
Proof. by intros w w' err. Qed.

Lemma fails_fail {A} E err : (forall w, E err w) -> fails E (fail (A := A) err).
Proof. by intros H w w' err' [= <- <-]. Qed.

Lemma fails_bind {A B} E (m : M T SocketAddr A) (f : A -> M T SocketAddr B) :
  fails E m -> (forall a, fails E (f a)) -> fails E (bind m f).
Proof.
  intros Hm Hf w w' err. unfold bind. destruct (m w) as [[w1 [a|e]]|] eqn:Em; [apply Hf| |done].
  intros [= <- <-]. by eapply Hm.
Qed.

Lemma fails_weaken {A} E E' (m : M T SocketAddr A) :
  (forall err w, E err w -> E' err w) -> fails E m -> fails E' m.
Proof. intros H Hm w w' err Hw. by eapply H, Hm. Qed.

Lemma fails_attempt {A} E (m : M T SocketAddr A) : fails E (attempt m).
Proof. intros w w' err. unfold attempt. by destruct (m w) as [[? ?]|]. Qed.

(** Operations that only return values. *)
Lemma fails_panic {A} E : fails E (panic (A := A)).
Proof. by intros w w' err. Qed.

Lemma fails_lift {A} E (o : outcome A) : fails E (lift o).
Proof. intros w w' err. unfold lift. by destruct o. Qed.

Lemma fails_get E : fails E get.
Proof. by intros w w' err. Qed.

Lemma fails_emit E eff : fails E (emit eff).
Proof. by intros w w' err. Qed.

Lemma fails_reliability_op {A} E (op : _ -> _ * A) : fails E (reliability_op op).
Proof. intros w w' err. unfold reliability_op. by destruct (op _). Qed.

Lemma fails_reliability_try {A} E (op : _ -> outcome (_ * A)) : fails E (reliability_try op).
Proof. intros w w' err. unfold reliability_try. by destruct (op _) as [[? ?]|]. Qed.

Lemma fails_set_peer_recv_window E n : fails E (set_peer_recv_window n).
Proof. by intros w w' err. Qed.

Lemma fails_set_peer_cid E n : fails E (set_peer_cid n).
Proof. by intros w w' err. Qed.

Lemma fails_set_remote_addr E a : fails E (set_remote_addr a).
Proof. by intros w w' err. Qed.

Lemma fails_update_last_recv_time E t : fails E (update_last_recv_time t).
Proof. by intros w w' err. Qed.

Lemma fails_set_fin_pending_eof E b : fails E (set_fin_pending_eof b).
Proof. by intros w w' err. Qed.

Lemma fails_cleanup E t : fails E (cleanup_unified_scheduler t).
Proof. by intros w w' err. Qed.

Lemma fails_timers_fired E l : fails E (timers_fired l).
Proof. by intros w w' err. Qed.

Lemma fails_read_timer_events E : fails E read_timer_events.
Proof. intros w w' err. unfold read_timer_events. by destruct (TimingManager.check_timer_events _). Qed.

Lemma fails_close_stream E : fails E close_stream.
Proof. by intros w w' err. Qed.

Variable env : Env.

Lemma fails_now E : fails E (Endpoint.now env).
Proof. by intros w w' err. Qed.

Lemma fails_rand E : fails E (rand env).
Proof. by intros w w' err. Qed.

Lemma fails_command_update_addr E cid addr : fails E (command_update_addr env cid addr).
Proof. by intros w w' err. Qed.

Lemma fails_command_remove E cid : fails E (command_remove_connection env cid).
Proof. by intros w w' err. Qed.

Lemma fails_send_to_stream E data : fails E (send_to_stream env data).
Proof. intros w w' err. unfold send_to_stream. by repeat case_match. Qed.

Lemma fails_register_timer E event delay : fails E (register_timer env event delay).
Proof. intros w w' err. unfold register_timer. by destruct (TimingManager.register_timer _ _ _) as [[? ?] ?]. Qed.

Lemma fails_cancel_timer E event : fails E (cancel_timer env event).
Proof. intros w w' err. unfold cancel_timer. by destruct (TimingManager.cancel_timer _ _ _) as [[? ?] ?]. Qed.

Lemma fails_send_batch E addr fs : (forall w, E ChannelClosed w) -> fails E (send_batch env addr fs).
Proof. intros H w w' err. unfold send_batch. case_match; [done|]. by intros [= <- <-]. Qed.

(** A transition that is valid succeeds. *)
Lemma transition_state_ok s w :
  Lifecycle.is_valid_transition (current_state w.(ep)) s = true ->
  exists effs, transition_state s w =
    Done (emitted (set_ep w (with_lifecycle w.(ep) (Lifecycle.with_state w.(ep).(lifecycle_manager) s)))
            (map LifecycleEffect effs), inl tt).
Proof.
  intros H. unfold transition_state, lifecycle. rewrite Lifecycle.transition_to_spec.
  unfold current_state in H. rewrite H. by eexists.
Qed.

Lemma force_close_ok w :
  exists effs, force_close w =
    Done (emitted (set_ep w (with_lifecycle w.(ep)
            (Lifecycle.with_state w.(ep).(lifecycle_manager) Lifecycle.Closed)))
            (map LifecycleEffect effs), inl tt).
Proof.
  unfold force_close, lifecycle, Lifecycle.force_close. rewrite Lifecycle.transition_to_spec.
  assert (H : Lifecycle.is_valid_transition (Lifecycle.current_state w.(ep).(lifecycle_manager))
    Lifecycle.Closed = true) by by destruct (Lifecycle.current_state _). rewrite H. by eexists.
Qed.

End logic.

#[local] Hint Resolve fails_ret fails_fail fails_attempt fails_panic fails_lift fails_get fails_emit
  fails_reliability_op fails_reliability_try fails_set_peer_recv_window fails_set_peer_cid
  fails_set_remote_addr fails_update_last_recv_time fails_set_fin_pending_eof fails_cleanup
  fails_timers_fired fails_read_timer_events fails_close_stream fails_now fails_rand
  fails_command_update_addr fails_command_remove fails_send_to_stream fails_register_timer
  fails_cancel_timer fails_send_batch : fails.

(** Decompose an operation into the primitive operations that fail. *)
Ltac solve_fails :=
  repeat match goal with
  | |- fails _ (bind _ _) => apply fails_bind; [|intros]
  | |- fails _ (match ?x with _ => _ end) => destruct x
  | |- fails _ (if ?x then _ else _) => destruct x
  | |- fails _ _ => solve [eauto with fails]
  end.

Section errors.
Context {T : Type} `{CC : CongestionControl T} {SocketAddr : Type} `{!EqDecision SocketAddr}.
Variable env : Env.
Abbreviation Op := (M T SocketAddr).
Implicit Types (w : World T SocketAddr).

Variable E : Error -> World T SocketAddr -> Prop.
Hypothesis Hclosed : forall w, E ChannelClosed w.

Lemma fails_send_raw_frames fs : fails E (send_raw_frames env fs : Op unit).
Proof using CC Hclosed. unfold send_raw_frames. solve_fails. Qed.

#[local] Hint Resolve fails_send_raw_frames : fails.

Lemma fails_send_frames fs : fails E (send_frames env fs : Op unit).
Proof using CC Hclosed.
  unfold send_frames. destruct fs as [|f fs]; [apply fails_ret|].
  apply fails_bind; [apply fails_get|intros e].
  apply fails_bind; [|intros b; unfold flush; solve_fails].
  generalize (f :: fs), (builder_new (max_packet_size_of e)).
  intros l. induction l as [|x l IH]; intros b; simpl; [apply fails_ret|].
  apply fails_bind; [|done]. unfold add_frame, flush. solve_fails.
Qed.

#[local] Hint Resolve fails_send_frames : fails.

Lemma fails_send_zero_rtt groups : fails E (send_zero_rtt_packets env groups : Op unit).
Proof using CC Hclosed.
  unfold send_zero_rtt_packets. destruct groups as [|g gs]; [apply fails_ret|].
  generalize (g :: gs). intros l. induction l as [|x l IH]; simpl; [apply fails_ret|].
  apply fails_bind; [solve_fails|done].
Qed.

#[local] Hint Resolve fails_send_zero_rtt : fails.

Lemma fails_packetize_and_send : fails E (packetize_and_send env : Op unit).
Proof using CC Hclosed. unfold packetize_and_send. solve_fails. Qed.

Lemma fails_send_initial_syn : fails E (send_initial_syn env : Op unit).
Proof using CC Hclosed. unfold send_initial_syn. solve_fails. Qed.

Lemma fails_send_syn_ack : fails E (send_syn_ack env : Op unit).
Proof using CC Hclosed. unfold send_syn_ack. solve_fails. Qed.

Lemma fails_send_standalone_ack : fails E (send_standalone_ack env : Op unit).
Proof using CC Hclosed. unfold send_standalone_ack. solve_fails. Qed.

#[local] Hint Resolve fails_packetize_and_send fails_send_initial_syn fails_send_syn_ack
  fails_send_standalone_ack : fails.

(** ** Handlers *)

Lemma fails_check_path_migration src : fails E (check_path_migration env src : Op unit).
Proof using CC Hclosed.
  intros w w' err H. apply EndpointFacts.check_path_migration_spec in H as (_ & [|H] & _); [done|].
  by injection H as ->.
Qed.

Lemma fails_push frame src t :
  from_frame frame = Some Push -> fails E (PushProcessor.process_frame env frame src t : Op unit).
Proof using CC Hclosed.
  destruct frame; try done. intros _. unfold PushProcessor.process_frame,
    PushProcessor.handle_push_in_syn_received, PushProcessor.handle_push_in_established,
    PushProcessor.handle_push_in_validating_path, PushProcessor.handle_push_in_fin_wait,
    PushProcessor.handle_push_in_closing, receive_data_and_maybe_ack. solve_fails.
Qed.

Lemma fails_ack frame src t :
  from_frame frame = Some Ack -> fails E (AckProcessor.process_frame env frame src t : Op unit).
Proof using CC Hclosed.
  destruct frame; try done. intros _. unfold_ack; unfold AckProcessor.process_ack_common, process_ack_and_get_retx_frames. solve_fails.
Qed.

(** The transition of a SYN-ACK is valid where it is made. *)
Lemma fails_connection frame src t :
  from_frame frame = Some Connection -> fails E (ConnectionProcessor.process_frame env frame src t : Op unit).
Proof using CC Hclosed.
  destruct frame; try done; intros _; unfold_connection.
  - apply fails_bind; [apply fails_get|intros e]. unfold ConnectionProcessor.handle_syn_frame. solve_fails.
  - intros w w' err. unfold bind at 1, get at 1. unfold ConnectionProcessor.handle_syn_ack_frame, context_new.
    cbn [connection_state]. destruct (current_state w.(ep)) eqn:Es; simpl; try done.
    unfold cancel_connection_timeout. run. unfold bind at 1, cancel_timer at 1.
    destruct (TimingManager.cancel_timer _ _ _) as [[tm b] hd]. run. unfold bind at 1.
    match goal with |- context [transition_state _ ?w0] =>
      destruct (transition_state_ok Lifecycle.Established w0) as [effs ->]; [by unfold current_state in *; simpl; rewrite Es|] end.
    match goal with |- ?m _ = _ -> _ => enough (Hf : fails E m) by apply Hf end. solve_fails.
  - apply fails_bind; [apply fails_get|intros e]. unfold ConnectionProcessor.handle_fin_frame,
      ConnectionProcessor.handle_fin_in_syn_received, ConnectionProcessor.handle_fin_in_established,
      ConnectionProcessor.handle_fin_in_validating_path, ConnectionProcessor.handle_fin_in_fin_wait,
      ConnectionProcessor.handle_fin_in_closing, receive_fin_and_ack. solve_fails.
Qed.

Lemma fails_path frame src t :
  from_frame frame = Some Path -> fails E (PathProcessor.process_frame env frame src t : Op unit).
Proof using CC Hclosed.
  destruct frame; try done; intros _; unfold_path.
  - apply fails_bind; [apply fails_get|intros e].
    unfold PathProcessor.handle_path_challenge_frame, send_path_response, send_frame_to. solve_fails.
  - intros w w' err. unfold bind at 1, get at 1. unfold PathProcessor.handle_path_response_frame, context_new.
    cbn [connection_state src_addr]. destruct (current_state w.(ep)) eqn:Es; simpl; try done.
    unfold PathProcessor.handle_path_validation_response. case_match; [|done].
    unfold bind at 1, complete_path_validation at 1, lifecycle at 1, Lifecycle.complete_path_validation.
    unfold current_state in Es. rewrite Es. cbn [Lifecycle.is_path_validating negb].
    rewrite Lifecycle.transition_to_spec, Es. cbn [Lifecycle.is_valid_transition].
    match goal with |- ?m _ = _ -> _ => enough (Hf : fails E m) by apply Hf end. solve_fails.
Qed.

Lemma fails_route frame src t : fails E (route_frame env frame src t : Op unit).
Proof using CC Hclosed.
  intros w w' err. rewrite EndpointFacts.route_frame_head.
  match goal with |- ?m _ = _ -> _ => enough (Hf : fails E m) by apply Hf end.
  apply fails_bind; [apply fails_check_path_migration|intros _].
  destruct frame; first [by apply fails_push|by apply fails_ack|by apply fails_connection|by apply fails_path
    |apply fails_ret].
Qed.

Lemma fails_dispatch frame src : fails E (dispatch_frame env frame src : Op unit).
Proof using CC Hclosed. apply fails_bind; [solve_fails|intros t; apply fails_route]. Qed.

(** ** Commands *)

Lemma fails_if_ok op next : fails E next -> fails E (Commands.if_ok op next : Op unit).
Proof using CC. intros H. unfold Commands.if_ok. solve_fails. Qed.

Lemma fails_command cmd : fails E (Commands.handle_stream_command env cmd : Op unit).
Proof using CC Hclosed.
  destruct cmd as [data| |new_addr notifier]; unfold Commands.handle_stream_command.
  - intros w w' err. unfold bind at 1, get at 1.
    destruct (Lifecycle.eq (current_state w.(ep)) Lifecycle.SynReceived) eqn:Eq.
    + unfold bind at 1.
      destruct (transition_state_ok Lifecycle.Established w) as [effs ->].
      { destruct (current_state w.(ep)); done. }
      match goal with |- ?m _ = _ -> _ => enough (Hf : fails E m) by apply Hf end. solve_fails.
    + match goal with |- ?m _ = _ -> _ => enough (Hf : fails E m) by apply Hf end. solve_fails.
  - apply fails_bind; [|intros; solve_fails].
    assert (Hc : fails E (Commands.cleanup_if_closed : Op unit)).
    { unfold Commands.cleanup_if_closed, Commands.clear_in_flight_packets. solve_fails. }
    unfold Commands.shutdown, Commands.clear_in_flight_packets.
    apply fails_bind; [apply fails_get|intros e].
    destruct (current_state e); repeat case_match; first [by apply fails_if_ok
      |apply fails_if_ok; solve_fails|apply fails_bind; [solve_fails|intros; by apply fails_if_ok]].
  - unfold send_frame_to. solve_fails.
Qed.

End errors.

(** ** Timeouts *)

Section timeouts.
Context {T : Type} `{CC : CongestionControl T} {SocketAddr : Type} `{!EqDecision SocketAddr}.
Variable env : Env.
Abbreviation Op := (M T SocketAddr).
Implicit Types (w : World T SocketAddr) (l : list (effect SocketAddr)).

(** The datagrams among the effects. *)
Definition datagrams l : list (list Frame.Frame) :=
  omap (fun eff => match eff with SendFrames _ fs => Some fs | _ => None end) l.

Lemma datagrams_app l1 l2 : datagrams (l1 ++ l2) = datagrams l1 ++ datagrams l2.
Proof. apply omap_app. Qed.

Lemma datagrams_lifecycle effs : datagrams (map LifecycleEffect effs) = [].
Proof. by induction effs. Qed.

Lemma datagrams_cancel hs : datagrams (map CancelTimer hs) = [].
Proof. by induction hs. Qed.

Lemma datagrams_send addr gs : datagrams (map (SendFrames addr) gs) = gs.
Proof. induction gs as [|g gs IH]; simpl; [done|by f_equal]. Qed.

(** What [send_frames] sends. *)
Lemma send_frames_sent fs w :
  exists w' r l, send_frames env fs w = Done (w', r) /\ w'.(ep) = w.(ep) /\ w'.(log) = w.(log) ++ l /\
    concat (datagrams l) `prefix_of` fs /\
    (r = inl tt /\ concat (datagrams l) = fs \/ r = inr ChannelClosed).
Proof.
  destruct (split_from_spec (max_packet_size_of w.(ep)) fs [] (or_introl eq_refl)) as (H1 & H2 & _ & _).
  destruct (send_multiple_spec env (split_packets (max_packet_size_of w.(ep)) fs) w) as
    (n & w' & r & E1 & E2 & E3 & E4).
  { eapply Forall_impl; [exact H2|]. by intros g [? _]. }
  exists w', r, (map (SendFrames (remote_addr_of w.(ep))) (take n (split_packets (max_packet_size_of w.(ep)) fs))).
  rewrite send_frames_split, datagrams_send. change ([] ++ fs) with fs in H1. split_and!; [done..| |].
  - rewrite <- H1 at 2. exists (concat (drop n (split_packets (max_packet_size_of w.(ep)) fs))).
    by rewrite <- concat_app, take_drop.
  - destruct E4 as [[-> ->]|(-> & _)]; [left|by right]. by rewrite take_ge.
Qed.

Definition fatal (ev : Timing.TimeoutEvent) : bool :=
  match ev with Timing.IdleTimeout | Timing.ConnectionTimeout => true | _ => false end.

Definition path_event (ev : Timing.TimeoutEvent) : bool :=
  match ev with Timing.PathValidationTimeout => true | _ => false end.

(** The state after the path validation timed out. *)
Definition path_timed_out (s : Lifecycle.ConnectionState SocketAddr) : Lifecycle.ConnectionState SocketAddr :=
  match s with Lifecycle.ValidatingPath _ _ _ => Lifecycle.Established | s => s end.

(** An operation of the lifecycle and the timers: it sends no frame and leaves
    the identity, the reliability layer and the channels alone. *)
Record control_only w w' : Prop := {
  co_identity : w'.(ep).(identity) = w.(ep).(identity);
  co_transport : w'.(ep).(transport) = w.(ep).(transport);
  co_config : w'.(ep).(config) = w.(ep).(config);
  co_start : start_time_of w'.(ep) = start_time_of w.(ep);
  co_log : exists l, w'.(log) = w.(log) ++ l /\ datagrams l = [];
}.

Lemma control_refl w : control_only w w.
Proof. split; try done. exists []. by rewrite app_nil_r. Qed.

Lemma control_trans w1 w2 w3 : control_only w1 w2 -> control_only w2 w3 -> control_only w1 w3.
Proof.
  intros [A1 A2 A3 A4 (l1 & A5 & A6)] [B1 B2 B3 B4 (l2 & B5 & B6)]. split; try congruence.
  exists (l1 ++ l2). rewrite B5, A5, app_assoc, datagrams_app, A6, B6. done.
Qed.

Lemma path_timeout_spec w :
  exists w', handle_path_validation_timeout env w = Done (w', inl tt) /\ control_only w w' /\
    current_state w'.(ep) = path_timed_out (current_state w.(ep)).
Proof.
  unfold handle_path_validation_timeout, bind at 1, get at 1.
  destruct (current_state w.(ep)) as [| | |addr data n| | | |] eqn:Es; simpl;
    try (exists w; split_and!; [done|apply control_refl|done]).
  unfold bind at 1, cancel_timer at 1. destruct (TimingManager.cancel_timer _ _ _) as [[tm b] hd] eqn:Et.
  run. match goal with |- context [transition_state _ ?w0] =>
    destruct (transition_state_ok Lifecycle.Established w0) as [effs ->] end.
  { unfold current_state in *. simpl. by rewrite Es. }
  eexists. split; [done|]. split; [|done]. split; simpl; try done.
  - unfold TimingManager.cancel_timer in Et. destruct (TimerManager.cancel_timer _ _ _) as [[? ?] ?].
    by injection Et as <- _ _.
  - eexists. rewrite <- app_assoc. split; [done|]. by rewrite datagrams_app, datagrams_cancel, datagrams_lifecycle.
Qed.

Lemma connection_events_spec events : forall w,
  exists w' r, handle_connection_events env events w = Done (w', r) /\ control_only w w' /\
    if existsb fatal events then r = inr ConnectionTimeout /\ current_state w'.(ep) = Lifecycle.Closed
    else r = inl tt /\ current_state w'.(ep) =
           (if existsb path_event events then path_timed_out (current_state w.(ep)) else current_state w.(ep)).
Proof.
  induction events as [|ev events IH]; intros w.
  { exists w, (inl tt). split_and!; [done|apply control_refl|done..]. }
  assert (Hf : exists w', bind force_close (fun _ => fail (A := unit) ConnectionTimeout) w =
      Done (w', inr ConnectionTimeout) /\ control_only w w' /\ current_state w'.(ep) = Lifecycle.Closed).
  { unfold bind. destruct (force_close_ok w) as [effs ->]. eexists. split; [done|]. split; [|done].
    split; simpl; try done. eexists. split; [done|]. apply datagrams_lifecycle. }
  destruct ev; cbn [handle_connection_events existsb fatal path_event orb].
  - destruct Hf as (w' & -> & Hc & Hs). exists w', (inr ConnectionTimeout). done.
  - unfold bind. destruct (path_timeout_spec w) as (w1 & -> & Hc1 & Hs1).
    destruct (IH w1) as (w' & r & -> & Hc & H). exists w', r. split_and!; [done|exact (control_trans _ _ _ Hc1 Hc)|].
    rewrite Hs1 in H. destruct (existsb fatal events); [done|]. destruct H as [-> ->]. split; [done|].
    destruct (existsb path_event events); [|done]. destruct (current_state w.(ep)); done.
  - destruct (IH w) as (w' & r & -> & Hc & H). exists w', r. done.
  - destruct Hf as (w' & -> & Hc & Hs). exists w', (inr ConnectionTimeout). done.
Qed.

(** The timer events that wait for the endpoint. *)
Definition queued w : list Timing.TimeoutEvent :=
  map TimerEvent.timeout_event w.(ep).(timing).(TimingManager.timer_manager).(TimerManager.timeout_rx).

(** What a timeout check of the reliability layer has to resend. *)
Definition due_frames w (t : Instant) : ReliabilityLayer.ReliabilityLayer T * list Frame.Frame :=
  match ReliabilityLayer.check_timeout_events (rel w.(ep)) t with
  | [] => (rel w.(ep), [])
  | _ => ReliabilityLayer.check_retransmissions (rel w.(ep)) t (create_retransmission_context w.(ep))
  end.

(** The reliability layer's part of the check. *)
Lemma resend_step {B} t (f : list Frame.Frame -> Op B) w :
  bind (if existsb (fun ev => bool_decide (ev = Timing.RetransmissionTimeout))
             (ReliabilityLayer.check_timeout_events (rel w.(ep)) t)
        then bind get (fun e => reliability_op (fun rl =>
               ReliabilityLayer.check_retransmissions rl t (create_retransmission_context e)))
        else ret []) f w =
  f (due_frames w t).2 (set_ep w (with_reliability w.(ep) (due_frames w t).1)).
Proof.
  unfold due_frames, ReliabilityLayer.check_timeout_events.
  destruct (ReliabilityLayer.RM.has_retransmission_timeout _ _ _); simpl; run.
  - by destruct (ReliabilityLayer.check_retransmissions _ _ _).
  - destruct w as [[i0 t0 transport0 ? ? ?] ? ?]. unfold set_ep, with_reliability, rel, with_transport. simpl.
    by destruct transport0.
Qed.

Lemma handle_events_spec events fs w :
  exists w' r l, handle_unified_timeout_events_impl env events fs w = Done (w', r) /\
    w'.(log) = w.(log) ++ l /\ rel w'.(ep) = rel w.(ep) /\
    if existsb fatal events then
      r = inr ConnectionTimeout /\ current_state w'.(ep) = Lifecycle.Closed /\ datagrams l = []
    else
      current_state w'.(ep) =
        (if existsb path_event events then path_timed_out (current_state w.(ep)) else current_state w.(ep)) /\
      concat (datagrams l) `prefix_of` fs /\ (r = inl tt /\ concat (datagrams l) = fs \/ r = inr ChannelClosed).
Proof.
  unfold handle_unified_timeout_events_impl, bind.
  destruct (connection_events_spec events w) as (w1 & r & -> & [_ Ht _ _ (l & Hl & Hd)] & H).
  assert (Hr : rel w1.(ep) = rel w.(ep)) by (unfold rel; by rewrite Ht).
  destruct (existsb fatal events); destruct H as [-> Hs]; [by exists w1, (inr ConnectionTimeout), l|].
  destruct fs as [|f fs].
  { exists w1, (inl tt), l. rewrite Hd. split_and!; [done..|by left]. }
  destruct (send_frames_sent (f :: fs) w1) as (w' & r & l' & -> & Ee & Hl' & Hp & Hr').
  exists w', r, (l ++ l'). rewrite Ee, Hl', Hl, datagrams_app, Hd. split_and!; [done|by rewrite app_assoc|done..].
Qed.

(** C12: a timeout check closes the connection with [ConnectionTimeout] exactly
    when an idle or connection timer event waits for it, whatever arrived in
    the meantime, and then sends nothing.  Otherwise a path validation timeout
    ends the validation, no other state changes, and exactly the frames that
    the reliability layer has due are sent, unless the channel is closed. *)
Theorem check_all_timeouts_exact t w :
  exists w' r l, check_all_timeouts env t w = Done (w', r) /\ w'.(log) = w.(log) ++ l /\
    rel w'.(ep) = (due_frames w t).1 /\
    if existsb fatal (queued w) then
      r = inr ConnectionTimeout /\ current_state w'.(ep) = Lifecycle.Closed /\ datagrams l = []
    else
      current_state w'.(ep) =
        (if existsb path_event (queued w) then path_timed_out (current_state w.(ep)) else current_state w.(ep)) /\
      concat (datagrams l) `prefix_of` (due_frames w t).2 /\
      (r = inl tt /\ concat (datagrams l) = (due_frames w t).2 \/ r = inr ChannelClosed).
Proof.
  unfold check_all_timeouts. unfold bind at 1, read_timer_events at 1.
  unfold TimingManager.check_timer_events, TimerManager.check_timer_events.
  set (w1 := set_ep w _). fold (queued w). set (events := queued w). run.
  assert (Hd : due_frames w t = due_frames w1 t) by done.
  assert (Hw : current_state w.(ep) = current_state w1.(ep) /\ w.(log) = w1.(log)) by done.
  destruct Hw as [-> ->]. rewrite Hd. clearbody w1 events. clear Hd w.
  rewrite resend_step. set (w2 := set_ep w1 _).
  assert (Hw : current_state w1.(ep) = current_state w2.(ep) /\ w1.(log) = w2.(log) /\
    rel w2.(ep) = (due_frames w1 t).1) by done. destruct Hw as (-> & -> & <-).
  set (fs := (due_frames w1 t).2). clearbody w2 fs.
  assert (Hn : List.filter (fun ev => negb (bool_decide (ev = Timing.RetransmissionTimeout)))
    (ReliabilityLayer.check_timeout_events (rel w1.(ep)) t) = []).
  { unfold ReliabilityLayer.check_timeout_events. by case_match. }
  rewrite Hn, app_nil_r. clear Hn w1.
  assert (He : (match events, fs with [], [] => ret tt | _, _ => handle_unified_timeout_events_impl env events fs end) w2
    = handle_unified_timeout_events_impl env events fs w2) by (by destruct events, fs).
  unfold bind. rewrite He. destruct (handle_events_spec events fs w2) as (w' & r & l & -> & H1 & H2 & H3).
  destruct (existsb fatal events) eqn:Ef.
  - destruct H3 as (-> & H3 & H4). by exists w', (inr ConnectionTimeout), l.
  - destruct H3 as (H3 & H4 & [[-> H5]| ->]).
    + eexists _, (inl tt), l. split_and!; [done..|by left].
    + exists w', (inr ChannelClosed), l. split_and!; [done..|by right].
Qed.

End timeouts.

(** ** The end of the loop *)

Section loop.
Context {T : Type} `{CC : CongestionControl T} {SocketAddr : Type} `{!EqDecision SocketAddr}.
Variable env : Env.
Abbreviation Op := (M T SocketAddr).
Implicit Types (w : World T SocketAddr).

(** How the loop fails: the channel to the socket is closed, or a timer closed
    the connection. *)
Definition ended (err : Error) w : Prop :=
  err = ChannelClosed \/ err = ConnectionTimeout /\ current_state w.(ep) = Lifecycle.Closed.

Lemma ended_closed w : ended ChannelClosed w.
Proof. by left. Qed.

#[local] Hint Resolve ended_closed fails_dispatch fails_command fails_packetize_and_send fails_send_initial_syn : fails.

Lemma fails_check_all_timeouts t : fails ended (check_all_timeouts env t : Op unit).
Proof.
  unfold check_all_timeouts.
  apply fails_bind; [solve_fails|intros evs]. apply fails_bind; [solve_fails|intros e].
  apply fails_bind; [case_match; solve_fails|intros fs].
  apply fails_bind; [|intros; solve_fails].
  assert (H : forall l, fails ended (handle_unified_timeout_events_impl env l fs : Op unit)).
  { intros l w w' err E. destruct (handle_events_spec env l fs w) as (w1 & r & l1 & E1 & _ & _ & H).
    rewrite E in E1. injection E1 as <- <-. destruct (existsb fatal l).
    - destruct H as ([= ->] & H & _). by right.
    - destruct H as (_ & _ & [[? _]|[= ->]]); [done|by left]. }
  repeat case_match; first [apply H|apply fails_ret].
Qed.

Lemma fails_handle_event ev : fails ended (handle_event env ev : Op bool).
Proof.
  destruct ev as [first more|first more|fired|]; unfold handle_event.
  - apply fails_bind; [solve_fails|intros t]. apply fails_bind; [|intros; solve_fails].
    generalize (first :: more). intros l. induction l as [|[f a] l IH]; simpl; solve_fails.
  - apply fails_bind; [|intros; solve_fails].
    generalize (first :: more). intros l. induction l as [|c l IH]; simpl; solve_fails.
  - apply fails_bind; [solve_fails|intros _]. apply fails_bind; [solve_fails|intros t].
    apply fails_bind; [apply fails_check_all_timeouts|intros; solve_fails].
  - solve_fails.
Qed.

Lemma fails_follow_up : fails ended (follow_up env : Op bool).
Proof.
  unfold follow_up, deliver_received, fin_transition, packetize_if_open, close_stream_after_fin, should_close,
    Commands.clear_in_flight_packets. solve_fails.
Qed.

Lemma fails_run_loop events : fails ended (run_loop env events : Op bool).
Proof.
  induction events as [|ev events IH]; simpl; [apply fails_ret|]. unfold iteration, calculate_next_wakeup_time.
  apply fails_bind; [|intros []; [apply fails_ret|done]]. apply fails_bind; [solve_fails|intros _].
  apply fails_bind; [apply fails_handle_event|intros []; [apply fails_follow_up|apply fails_ret]].
Qed.

(** The loop stops only in the closed state. *)
Lemma should_close_true w w' :
  should_close w = Done (w', inl true) -> current_state w'.(ep) = Lifecycle.Closed.
Proof.
  unfold should_close. rewrite bind_get. intros [(? & _ & ?)|(w1 & [] & Hc & H)]%run_bind_inv; [done| |].
  - injection H as <-. case_match; [|done]. rewrite bind_attempt in Hc.
    destruct (transition_state_ok Lifecycle.Closed w) as [effs Et]; [by destruct (current_state _)|].
    rewrite Et in Hc. unfold Commands.clear_in_flight_packets, close_stream, bind, ret in Hc. simpl in Hc.
    injection Hc as <-. by case_match.
  - rewrite bind_get in H. injection H as <- H. by destruct (current_state w1.(ep)).
Qed.

Lemma follow_up_true w w' :
  follow_up env w = Done (w', inl true) -> current_state w'.(ep) = Lifecycle.Closed.
Proof.
  unfold follow_up. do 4 (intros [(? & _ & ?)|(? & ? & _ & H)]%run_bind_inv; [done|revert H]). apply should_close_true.
Qed.

Lemma iteration_true ev w w' :
  iteration env ev w = Done (w', inl true) -> current_state w'.(ep) = Lifecycle.Closed \/ ev = ChannelsClosed.
Proof.
  unfold iteration. intros [(? & _ & ?)|(w1 & t & _ & H)]%run_bind_inv; [done|revert H].
  intros [(? & _ & ?)|(w2 & [] & Hh & H)]%run_bind_inv; [done|left; by apply follow_up_true in H|right].
  destruct ev; [exfalso; revert Hh; unfold handle_event..|done];
    repeat (intros [(? & _ & ?)|(? & ? & _ & H')]%run_bind_inv; [done|revert H']); done.
Qed.

Lemma run_loop_true events w w' :
  run_loop env events w = Done (w', inl true) ->
  current_state w'.(ep) = Lifecycle.Closed \/ ChannelsClosed ∈ events.
Proof.
  revert w. induction events as [|ev events IH]; intros w; [done|]. simpl.
  intros [(? & _ & ?)|(w1 & [] & Hi & H)]%run_bind_inv; [done| |].
  - injection H as <-. apply iteration_true in Hi as [?| ->]; [by left|right; left].
  - apply IH in H as [?|?]; [by left|right; by right].
Qed.

(** Why the loop ended, or that it did not. *)
Definition explained (events : list (event SocketAddr)) w' (r : bool + Error) : Prop :=
  match r with
  | inl true => current_state w'.(ep) = Lifecycle.Closed \/ ChannelsClosed ∈ events
  | inl false => True
  | inr err => err = ChannelClosed \/ err = ConnectionTimeout /\ current_state w'.(ep) = Lifecycle.Closed
  end.

Definition removal_requested (cid : Z) w' : Prop := exists l, w'.(log) = l ++ [RemoveConnection cid].

(** C11: the loop of an endpoint ends only in the closed state, because all its
    channels are closed, because the channel to the socket is, or because a
    timer closed the connection, which is then closed; and whenever it ends
    the socket is asked to remove the connection, unless that channel is closed
    or full. *)
Theorem run_ends events w w' r :
  run env events w = Done (w', r) ->
  explained events w' r /\
  (r <> inl false -> removal_requested (local_cid_of w.(ep)) w' \/ exists n, env.(channel_ok) n = false).
Proof.
  unfold explained, removal_requested, run. unfold bind at 1, get at 1. rewrite bind_attempt.
  match goal with |- match ?m _ with Done _ => _ | Panic => _ end = _ -> _ =>
    assert (Hf : fails ended m); [|assert (Ht : forall w1, m w = Done (w1, inl true) ->
      current_state w1.(ep) = Lifecycle.Closed \/ ChannelsClosed ∈ events)] end.
  { apply fails_bind; [solve_fails|intros _; apply fails_run_loop]. }
  { intros w1 [(? & _ & ?)|(? & ? & _ & H)]%run_bind_inv; [done|]. by eapply run_loop_true. }
  destruct (bind _ _ w) as [[w1 [[]|err]]|] eqn:E; [| | |done].
  - unfold bind, command_remove_connection, ret. specialize (Ht _ eq_refl).
    destruct (channel_ok env (reads w1)) eqn:Ec; intros [= <- <-]; (split; [done|intros _]).
    + left. by eexists.
    + right. by eexists.
  - intros [= <- <-]. by split.
  - apply Hf in E. unfold bind, command_remove_connection, fail.
    destruct (channel_ok env (reads w1)) eqn:Ec; intros [= <- <-]; (split; [done|intros _]).
    + left. by eexists.
    + right. by eexists.
Qed.

(** ** Closing *)

(** Sending leaves the endpoint alone. *)
Lemma send_frames_ep fs w :
  exists w' r, send_frames env fs w = Done (w', r) /\ w'.(ep) = w.(ep) /\ (r = inl tt \/ r = inr ChannelClosed).
Proof.
  destruct (send_frames_sent env fs w) as (w' & r & l & E & He & _ & _ & Hr). exists w', r.
  split_and!; [done..|]. destruct Hr as [[? _]|?]; auto.
Qed.

Lemma packetize_closing w :
  current_state w.(ep) = Lifecycle.Closing ->
  exists w' r, packetize_and_send env w = Done (w', r) /\ (r = inl tt \/ r = inr ChannelClosed) /\
    current_state w'.(ep) = Lifecycle.Closing /\ ReliabilityLayer.has_fin_in_flight (rel w'.(ep)) = true.
Proof.
  intros Hs. unfold packetize_and_send. run. cbn [ep ticked].
  destruct (ReliabilityLayer.packetize_stream_data _ _ _ _ _ _) as [rl fs]. run. cbn [ep set_ep].
  set (e1 := with_reliability w.(ep) rl). change (current_state e1) with (current_state w.(ep)). rewrite Hs.
  cbn [Lifecycle.eq andb]. destruct (ReliabilityLayer.has_fin_in_flight (rel e1)) eqn:Ef; cbn [negb].
  - run. match goal with |- context [send_frames env _ ?w0] =>
      destruct (send_frames_ep fs w0) as (w' & r & -> & He & Hr) end.
    exists w', r. rewrite He. done.
  - run. unfold ReliabilityLayer.next_sequence_number at 1. run. cbn [ep set_ep ticked].
    match goal with |- context [send_frames env ?fs ?w0] =>
      destruct (send_frames_ep fs w0) as (w' & r & -> & He & Hr) end.
    exists w', r. rewrite He. split_and!; [done..|]. unfold create_fin_frame. cbn -[ReliabilityLayer.get_ack_info].
    destruct (ReliabilityLayer.get_ack_info _) as [[? ?] ?]. apply RetransmissionManager.fin_tracked.
Qed.

(** Delivering to the user's stream changes the receive buffer, the stream and
    the end-of-stream flag. *)
Lemma deliver_received_spec w :
  let rl := (ReliabilityLayer.reassemble (rel w.(ep))).1 in
  exists w', deliver_received env w = Done (w', inl (ReliabilityLayer.reassemble (rel w.(ep))).2.2) /\
    rel w'.(ep) = rl /\ current_state w'.(ep) = current_state w.(ep).
Proof.
  unfold deliver_received. run. destruct (ReliabilityLayer.reassemble _) as [rl [data fin]]. simpl.
  unfold bind, set_fin_pending_eof, send_to_stream, ret. destruct fin; simpl;
    destruct data as [[|d ds]|]; simpl; repeat case_match; simplify_eq/=; eexists; done.
Qed.

Lemma close_after_fin_spec w :
  exists w', close_stream_after_fin w = Done (w', inl tt) /\ rel w'.(ep) = rel w.(ep) /\
    current_state w'.(ep) = current_state w.(ep).
Proof.
  unfold close_stream_after_fin, bind, get, close_stream, set_fin_pending_eof, ret.
  destruct (_ && _); simpl; [|by exists w]. eexists. split; [done|]. by destruct (stream_open _).
Qed.

(** The end of a turn in the state after the peer's FIN. *)
Lemma closing_wait_turn w :
  current_state w.(ep) = Lifecycle.ClosingWait ->
  exists w' r, bind (packetize_if_open env) (fun _ => bind close_stream_after_fin (fun _ => should_close)) w =
      Done (w', r) /\
    if ReliabilityLayer.is_in_flight_empty (rel w.(ep)) then
      r = inl true /\ current_state w'.(ep) = Lifecycle.Closed /\ w'.(ep).(stream_open) = false /\
      rel w'.(ep) = ReliabilityLayer.clear_in_flight_packets (rel w.(ep))
    else r = inl false /\ current_state w'.(ep) = Lifecycle.ClosingWait /\ rel w'.(ep) = rel w.(ep).
Proof.
  intros Hs. unfold packetize_if_open. rewrite bind_bind, bind_get, Hs. cbn [Lifecycle.eq orb]. rewrite bind_ret.
  destruct (close_after_fin_spec w) as (w1 & E1 & <- & Hs1). unfold bind at 1. rewrite E1. rewrite Hs in Hs1. clear E1 Hs w.
  unfold should_close. rewrite bind_get, Hs1. cbn [Lifecycle.eq orb andb].
  destruct (ReliabilityLayer.is_in_flight_empty (rel w1.(ep))).
  - rewrite bind_bind, bind_attempt.
    destruct (transition_state_ok Lifecycle.Closed w1) as [effs ->]; [by rewrite Hs1|].
    unfold Commands.clear_in_flight_packets, close_stream, bind, ret. simpl.
    destruct (stream_open _) eqn:Eo; eexists _, _; split_and!; done.
  - rewrite bind_ret, bind_get. eexists _, _. split; [done|]. by rewrite Hs1.
Qed.

(** The three ways a turn can end for a closing connection with the reliability
    layer [rl]: waiting for acknowledgements, closed, or with a FIN of its own
    in flight. *)
Definition waits rl w' (r : bool + Error) : Prop :=
  r = inl false /\ current_state w'.(ep) = Lifecycle.ClosingWait /\ rel w'.(ep) = rl.

Definition closes rl w' (r : bool + Error) : Prop :=
  r = inl true /\ current_state w'.(ep) = Lifecycle.Closed /\ w'.(ep).(stream_open) = false /\
  rel w'.(ep) = ReliabilityLayer.clear_in_flight_packets rl.

Definition stays w' (r : bool + Error) : Prop :=
  (r = inl false \/ r = inr ChannelClosed) /\ current_state w'.(ep) = Lifecycle.Closing /\
  ReliabilityLayer.has_fin_in_flight (rel w'.(ep)) = true.

Definition finishes rl w' (r : bool + Error) : Prop :=
  if ReliabilityLayer.is_in_flight_empty rl then closes rl w' r else waits rl w' r.

(** C35: how a closing connection ends.  In the closing state, as long as the
    peer's FIN has not been reassembled, every turn of the loop leaves a FIN of
    its own in flight, sending a new one when the last was acknowledged, and
    the connection stays there.  With the peer's FIN, or in the state after it,
    the turn closes the connection and the user's stream when nothing is in
    flight, and waits for acknowledgements otherwise. *)
Theorem closing_follow_up w :
  let (rl, result) := ReliabilityLayer.reassemble (rel w.(ep)) in
  current_state w.(ep) = Lifecycle.Closing \/ current_state w.(ep) = Lifecycle.ClosingWait ->
  exists w' r, follow_up env w = Done (w', r) /\
    if Lifecycle.eq (current_state w.(ep)) Lifecycle.Closing && negb result.2 then stays w' r else finishes rl w' r.
Proof.
  destruct (ReliabilityLayer.reassemble (rel w.(ep))) as [rl [data fin]] eqn:Er. intros Hs.
  destruct (deliver_received_spec w) as (w1 & Ed & Hr1 & Hs1). rewrite Er in Ed, Hr1. simpl in Ed, Hr1.
  unfold follow_up. unfold bind at 1. rewrite Ed. rewrite <- Hs1 in *. clear Ed Hs1 Er.
  assert (Hturn : forall w2, current_state w2.(ep) = Lifecycle.ClosingWait -> rel w2.(ep) = rl ->
    exists w' r, bind (packetize_if_open env) (fun _ => bind close_stream_after_fin (fun _ => should_close)) w2 =
      Done (w', r) /\ finishes rl w' r).
  { unfold finishes, closes, waits. intros w2 Hc Hr. destruct (closing_wait_turn w2 Hc) as (w' & r & -> & H). rewrite Hr in H. by exists w', r. }
  destruct Hs as [Hs|Hs]; rewrite Hs; cbn [Lifecycle.eq andb snd].
  - destruct fin; cbn [negb].
    + unfold fin_transition. rewrite bind_bind, bind_get, Hs, bind_bind, bind_attempt.
      destruct (transition_state_ok Lifecycle.ClosingWait w1) as [effs ->]; [by rewrite Hs|]. by apply Hturn.
    + rewrite bind_ret. unfold packetize_if_open at 1. rewrite bind_bind, bind_get, Hs. cbn [Lifecycle.eq orb].
      destruct (packetize_closing w1 Hs) as (w2 & r & E2 & Hr & Hs2 & Hf). unfold bind at 1. rewrite E2.
      destruct Hr as [-> | ->]; [|exists w2, (inr ChannelClosed); unfold stays; auto].
      destruct (close_after_fin_spec w2) as (w3 & E3 & Hr3 & Hs3). unfold bind at 1. rewrite E3.
      unfold should_close. rewrite bind_get, Hs3, Hs2, Hr3. cbn [Lifecycle.eq orb andb].
      unfold ReliabilityLayer.has_fin_in_flight in Hf. unfold ReliabilityLayer.is_in_flight_empty.
      rewrite (RetransmissionManager.fin_in_flight_not_empty _ Hf), bind_ret, bind_get.
      exists w3, (inl false). rewrite Hs3, Hs2. split; [done|]. unfold stays. rewrite Hr3, Hs3. auto.
  - assert (Hfin : bind (if fin then fin_transition else ret tt) (fun _ =>
        bind (packetize_if_open env) (fun _ => bind close_stream_after_fin (fun _ => should_close))) w1 =
      bind (packetize_if_open env) (fun _ => bind close_stream_after_fin (fun _ => should_close)) w1).
    { destruct fin; [|done]. unfold fin_transition. by rewrite bind_bind, bind_get, Hs. }
    rewrite Hfin. by apply Hturn.
Qed.

End loop.

(** The idle timer fires although a frame has just arrived. *)
Definition example_idle : list (event Z) :=
  [FramesArrived (Frame.new_push 7 0 0 100 5 [Byte.x63], 100) [];
   Wakeup [{| TimerEvent.connection_id := 7; TimerEvent.timeout_event := Timing.IdleTimeout |}]].

Lemma run_ends_witness :
  let w' := after example_established (run example_env example_idle) in
  run example_env example_idle example_established = Done (w', inr ConnectionTimeout) /\
  explained example_idle w' (inr ConnectionTimeout) /\
  (inr ConnectionTimeout <> inl false -> removal_requested (local_cid_of example_established.(ep)) w' \/
   exists n, example_env.(channel_ok) n = false).
Proof.
  intros w'.
  assert (H : run example_env example_idle example_established = Done (w', inr ConnectionTimeout))
    by (vm_compute; reflexivity).
  clearbody w'. split; [exact H|].
  exact (run_ends example_env example_idle example_established w' (inr ConnectionTimeout) H).
Defined.

(** The server after its user closed the connection. *)
Definition example_closing : World Vegas.Vegas Z :=
  after example_established (run_loop example_env [CommandsArrived Commands.Close []]).

Lemma closing_follow_up_witness :
  current_state example_closing.(ep) = Lifecycle.Closing /\
  exists w' r, follow_up example_env example_closing = Done (w', r) /\ stays w' r.
Proof.
  assert (Hs : current_state example_closing.(ep) = Lifecycle.Closing) by (vm_compute; reflexivity).
  split; [exact Hs|].
  assert (Hf : snd (snd (ReliabilityLayer.reassemble (rel example_closing.(ep)))) = false) by (vm_compute; reflexivity).
  pose proof (closing_follow_up example_env example_closing) as H.
  destruct (ReliabilityLayer.reassemble (rel example_closing.(ep))) as [rl result]. simpl in Hf.
  destruct (H (or_introl Hs)) as (w' & r & E & Hr). rewrite Hs, Hf in Hr. exact (ex_intro _ w' (ex_intro _ r (conj E Hr))).
Defined.

End EndpointErrors.
