(* ===== verification/EndpointFrames.v ===== *)
(** * Endpoint: what a frame does

    Data frames and their acknowledgements, and the agreement of the frame
    processors with the handlers they replaced. *)

From S2P Require Import Prelude BTreeMap Packet Config Frame SendBuffer RecvBuffer Rtt Congestion.
From S2P Require Import SackManager SimpleRetx Retransmission Packetizer Reliability Lifecycle UnifiedScheduler TimerTask.
From S2P Require Import TimingManager Endpoint Sender Handlers EventLoop EndpointFacts.

Module EndpointFrames.
Import Endpoint Sender Operations FrameProcessingContext Processors EventLoop.
Open Scope endpoint_scope.

(** The ranges of a well-formed receive buffer survive their encoding and cover
    exactly the buffered packets. *)
Lemma separated_ordered l : ReceiveBuffer.separated l -> Forall (fun r => r.(Sack.start) <= r.(Sack.end_)) l.
Proof. induction 1; constructor; done || constructor. Qed.

Lemma ack_ranges rb :
  ReceiveBuffer.wf rb ->
  Sack.decode_sack_ranges (Sack.encode_sack_ranges (ReceiveBuffer.get_sack_ranges rb)) =
    Done (ReceiveBuffer.get_sack_ranges rb) /\
  forall k, Sack.covers (ReceiveBuffer.get_sack_ranges rb) k <-> is_Some (ReceiveBuffer.received rb !! k).
Proof.
  intros Hwf.
  assert (Hu : Forall u32_ok (BTreeMap.keys (ReceiveBuffer.received rb))).
  { apply Forall_forall. intros k Hk. apply BTreeMap.elem_of_keys in Hk as [p Hp].
    by apply (ReceiveBuffer.wf_keys _ Hwf) in Hp as [_ ?]. }
  destruct (ReceiveBuffer.finish_covers _ (BTreeMap.entries_ascending (ReceiveBuffer.received rb)) Hu) as [Hsep Hc].
  change (ReceiveBuffer.finish _) with (ReceiveBuffer.get_sack_ranges rb) in *. split.
  - rewrite <- (app_nil_r (Sack.encode_sack_ranges _)). apply Sack.decode_encode_sack; [|by_decide].
    apply separated_ordered in Hsep. apply Forall_forall. intros r Hr. pose proof (proj1 (Forall_forall _ _) Hsep r Hr) as Hle. simpl in Hle.
    split; apply (proj1 (Forall_forall _ _) Hu), Hc; exists r; (split; [done|simpl; lia]).
  - intros k. rewrite Hc. apply BTreeMap.elem_of_keys.
Qed.

Section frames.
Context {T : Type} `{CC : CongestionControl T} {SocketAddr : Type} `{!EqDecision SocketAddr}.
Variable env : Env.
Abbreviation Op := (M T SocketAddr).
Implicit Types (w : World T SocketAddr) (rl : ReliabilityLayer.ReliabilityLayer T).

(** ** Data *)

Definition no_migration (src : SocketAddr) w : Prop :=
  src = remote_addr_of w.(ep) \/ current_state w.(ep) <> Lifecycle.Established.

(** Without a change of address a frame goes to its processor. *)
Lemma route_frame_direct frame src t w :
  no_migration src w ->
  route_frame env frame src t w =
  match frame with
  | Frame.Push _ _ => PushProcessor.process_frame env frame src t
  | Frame.Ack _ _ => AckProcessor.process_frame env frame src t
  | Frame.Syn _ | Frame.SynAck _ | Frame.Fin _ => ConnectionProcessor.process_frame env frame src t
  | Frame.PathChallenge _ _ | Frame.PathResponse _ _ => PathProcessor.process_frame env frame src t
  | Frame.Ping _ => ret tt
  end (set_ep w (with_timing w.(ep) (TimingManager.update_last_recv_time w.(ep).(timing) t))).
Proof.
  intros Hm. rewrite EndpointFacts.route_frame_head. set (w0 := set_ep w _).
  assert (Hc : check_path_migration env src w0 = Done (w0, inl tt)).
  { unfold check_path_migration. rewrite bind_get. cbn [ep]. change (remote_addr_of w0.(ep)) with (remote_addr_of w.(ep)).
    change (current_state w0.(ep)) with (current_state w.(ep)). destruct Hm as [->|Hm].
    - by rewrite bool_decide_true.
    - assert (E : Lifecycle.eq (current_state w.(ep)) Lifecycle.Established = false) by by destruct (current_state _).
      by rewrite E, andb_false_r. }
  unfold bind. by rewrite Hc.
Qed.

Lemma send_ack_spec w :
  ReliabilityLayer.is_ack_pending (rel w.(ep)) = true ->
  exists w' r, send_standalone_ack env w = Done (w', r) /\ current_state w'.(ep) = current_state w.(ep) /\
    rel w'.(ep) = ReliabilityLayer.on_ack_sent (rel w.(ep)) /\
    let ack := create_ack_frame (peer_cid_of w.(ep)) (rel w.(ep)) (start_time_of w.(ep)) (env.(clock) w.(reads)) in
    (r = inl tt /\ w'.(log) = w.(log) ++ [SendFrames (remote_addr_of w.(ep)) [ack]] \/
     r = inr ChannelClosed /\ w'.(log) = w.(log)).
Proof.
  intros Hp. unfold send_standalone_ack. run. rewrite Hp. cbn [negb]. run. cbn [ep ticked].
  unfold send_raw_frames. rewrite bind_get. unfold send_batch. destruct (channel_ok env _); eexists _, _;
    (split; [done|]); split_and!; try done; [left|right]; done.
Qed.

(** What a PUSH does to the reliability layer. *)
Lemma receive_push_accepted rl seq p :
  let '(rl', accepted) := ReliabilityLayer.receive_push rl seq p in
  accepted = true ->
  ReliabilityLayer.is_ack_pending rl' = true /\
  ReliabilityLayer.recv_buffer rl' = (ReceiveBuffer.receive_push (ReliabilityLayer.recv_buffer rl) seq p).1 /\
  ReceiveBuffer.received (ReliabilityLayer.recv_buffer rl') !! seq = Some (ReceiveBuffer.Push p).
Proof.
  unfold ReliabilityLayer.receive_push, ReceiveBuffer.receive_push, ReceiveBuffer.receive_packet.
  repeat case_match; simplify_eq/=; try done. intros _. by rewrite lookup_insert_eq.
Qed.

(** An ACK for the buffer of [rl]: its ranges decode to exactly the packets
    buffered, and [seq] is one of them. *)
Definition full_ack (e : Endpoint T SocketAddr) rl (seq : Z) (f : Frame.Frame) : Prop :=
  let rb := ReliabilityLayer.recv_buffer rl in
  match f with
  | Frame.Ack header payload =>
    ShortHeader.connection_id header = peer_cid_of e /\
    ShortHeader.recv_next_sequence header = ReceiveBuffer.next_sequence rb /\
    ShortHeader.recv_window_size header = ReceiveBuffer.window_size rb /\
    exists ranges, Sack.decode_sack_ranges payload = Done ranges /\ Sack.covers ranges seq /\
      forall k, Sack.covers ranges k <-> is_Some (ReceiveBuffer.received rb !! k)
  | _ => False
  end.

(** [receive_data_and_maybe_ack] on every branch. *)
Lemma receive_data_spec seq p w :
  let (rl, accepted) := ReliabilityLayer.receive_push (rel w.(ep)) seq p in
  ReceiveBuffer.wf (ReliabilityLayer.recv_buffer (rel w.(ep))) -> u32_ok seq ->
  exists w' r, receive_data_and_maybe_ack env seq p w = Done (w', r) /\
    current_state w'.(ep) = current_state w.(ep) /\
    if accepted then
      rel w'.(ep) = ReliabilityLayer.on_ack_sent rl /\
      exists ack, full_ack w.(ep) rl seq ack /\
        (r = inl tt /\ w'.(log) = w.(log) ++ [SendFrames (remote_addr_of w.(ep)) [ack]] \/
         r = inr ChannelClosed /\ w'.(log) = w.(log))
    else (r = inl tt /\ w'.(log) = w.(log)) /\ rel w'.(ep) = rl.
Proof.
  pose proof (receive_push_accepted (rel w.(ep)) seq p) as Ha.
  destruct (ReliabilityLayer.receive_push (rel w.(ep)) seq p) as [rl accepted] eqn:Er. intros Hwf Hu.
  unfold receive_data_and_maybe_ack. rewrite bind_reliability_op, Er. set (w1 := set_ep w _).
  destruct accepted; [|exists w1, (inl tt); done]. destruct (Ha eq_refl) as (Hp & Hb & Hl).
  destruct (send_ack_spec w1 Hp) as (w' & r & -> & Hs & Hr & Hsent). exists w', r. split_and!; [done..|].
  change (rel w1.(ep)) with rl in Hsent. unfold create_ack_frame, ReliabilityLayer.get_ack_info, Frame.new_ack in Hsent.
  assert (Hwf' : ReceiveBuffer.wf (ReliabilityLayer.recv_buffer rl))
    by (rewrite Hb; by apply ReceiveBuffer.receive_packet_wf).
  destruct (ack_ranges _ Hwf') as [H1 H2].
  eexists. split; [|exact Hsent]. split_and!; [done..|]. eexists. split_and!; [exact H1|apply H2; eauto|exact H2].
Qed.

(** C13: a PUSH from the peer's address, in every state.  In [Connecting] and
    [Closed] it is ignored.  In [SynReceived] it goes to the receive buffer
    and nothing is sent, whether the buffer takes it or not.  In
    [Established], [ValidatingPath], [FinWait], [Closing] and [ClosingWait] it
    goes to the receive buffer; when that takes it, one ACK is made at once
    whose SACK ranges decode to exactly the packets buffered then, the new one
    among them, and it is sent to the peer in a datagram of its own, or, when
    the channel to the socket is closed, the operation ends with that error
    and nothing is sent; when the buffer refuses the PUSH (a duplicate, or
    data after the FIN) nothing is sent.  The state of the connection does not
    change.  (From another address a PUSH first starts a path validation; that
    case is not part of this theorem.) *)
Theorem push_acknowledged h p src t w :
  let seq := ShortHeader.sequence_number h in
  let (rl, accepted) := ReliabilityLayer.receive_push (rel w.(ep)) seq p in
  no_migration src w -> ReceiveBuffer.wf (ReliabilityLayer.recv_buffer (rel w.(ep))) -> u32_ok seq ->
  exists w' r, route_frame env (Frame.Push h p) src t w = Done (w', r) /\
    current_state w'.(ep) = current_state w.(ep) /\
    let silent := r = inl tt /\ w'.(log) = w.(log) in
    match current_state w.(ep) with
    | Lifecycle.Connecting | Lifecycle.Closed => silent /\ rel w'.(ep) = rel w.(ep)
    | Lifecycle.SynReceived => silent /\ rel w'.(ep) = rl
    | _ =>
      if accepted then
        rel w'.(ep) = ReliabilityLayer.on_ack_sent rl /\
        exists ack, full_ack w.(ep) rl seq ack /\
          (r = inl tt /\ w'.(log) = w.(log) ++ [SendFrames (remote_addr_of w.(ep)) [ack]] \/
           r = inr ChannelClosed /\ w'.(log) = w.(log))
      else silent /\ rel w'.(ep) = rl
    end.
Proof.
  intros seq. destruct (ReliabilityLayer.receive_push (rel w.(ep)) seq p) as [rl accepted] eqn:Er.
  intros Hm Hwf Hu. rewrite (route_frame_direct _ _ _ _ Hm). set (w0 := set_ep w _).
  pose proof (receive_data_spec seq p w0) as Hd. change (rel w0.(ep)) with (rel w.(ep)) in Hd. rewrite Er in Hd.
  specialize (Hd Hwf Hu). unfold PushProcessor.process_frame. rewrite bind_get. unfold context_new.
  cbn [connection_state]. change (current_state w0.(ep)) with (current_state w.(ep)).
  destruct (current_state w.(ep)) eqn:Es; cbn [Lifecycle.clone];
    unfold PushProcessor.handle_push_in_established, PushProcessor.handle_push_in_validating_path,
      PushProcessor.handle_push_in_fin_wait, PushProcessor.handle_push_in_closing;
    try (destruct Hd as (w' & r & H1 & H2 & H3); exists w', r; split; [exact H1|split; [|exact H3]];
         rewrite H2; exact Es).
  - exists w0, (inl tt). done.
  - unfold PushProcessor.handle_push_in_syn_received. rewrite bind_reliability_op.
    change (rel w0.(ep)) with (rel w.(ep)). fold seq. rewrite Er. eexists _, (inl tt). split; [done|]. done.
  - exists w0, (inl tt). done.
Qed.

(** ** The processors and the handlers they replaced *)

(** The processor of a frame, without the migration check. *)
Definition processed (frame : Frame.Frame) (src : SocketAddr) (t : Instant) : Op unit :=
  match frame with
  | Frame.Push _ _ => PushProcessor.process_frame env frame src t
  | Frame.Ack _ _ => AckProcessor.process_frame env frame src t
  | Frame.Syn _ | Frame.SynAck _ | Frame.Fin _ => ConnectionProcessor.process_frame env frame src t
  | Frame.PathChallenge _ _ | Frame.PathResponse _ _ => PathProcessor.process_frame env frame src t
  | Frame.Ping _ => ret tt
  end.

(** The old handler of the current state. *)
Definition by_state (frame : Frame.Frame) (src : SocketAddr) : Op unit :=
  await e := get in
  match current_state e with
  | Lifecycle.Connecting => Legacy.handle_frame_connecting env frame src
  | Lifecycle.SynReceived => Legacy.handle_frame_syn_received env frame src
  | Lifecycle.Established => Legacy.handle_frame_established env frame src
  | Lifecycle.ValidatingPath _ _ _ => Legacy.handle_frame_validating_path env frame src
  | Lifecycle.Closing => Legacy.handle_frame_closing env frame src
  | Lifecycle.ClosingWait => Legacy.handle_frame_closing_wait env frame src
  | Lifecycle.FinWait => Legacy.handle_frame_fin_wait env frame src
  | Lifecycle.Closed => ret tt
  end.

Lemma ack_keeps_lifecycle w w' r :
  send_standalone_ack env w = Done (w', r) -> w'.(ep).(lifecycle_manager) = w.(ep).(lifecycle_manager).
Proof.
  intros H. assert (Hr : runs sending (send_standalone_ack env : Op unit))
    by (apply runs_send_standalone_ack; unfold sending; eauto).
  apply Hr in H. apply (steps_ind sending (fun w1 => w1.(ep).(lifecycle_manager) = w.(ep).(lifecycle_manager)) w w');
    [|done..]. intros w1 k w2 Hk Hp <-. by destruct Hk as [->|[->|[fs ->]]]; inversion Hp.
Qed.

Lemma cancel_keeps_lifecycle event w w' r :
  cancel_timer env event w = Done (w', r) -> w'.(ep).(lifecycle_manager) = w.(ep).(lifecycle_manager).
Proof. unfold cancel_timer. destruct (TimingManager.cancel_timer _ _ _) as [[? ?] ?]. by intros [= <- <-]. Qed.

Lemma ack_agrees h p t w :
  t = env.(clock) w.(reads) ->
  AckProcessor.process_ack_common env h p t (ticked w) = Legacy.handle_ack_frame env h p w.
Proof.
  intros ->. unfold AckProcessor.process_ack_common, Legacy.handle_ack_frame, process_ack_and_get_retx_frames.
  unfold bind at 1, set_peer_recv_window at 1. unfold bind at 4, set_peer_recv_window at 1. run.
  destruct (Sack.decode_sack_ranges p) as [ranges|]; [|done]. run.
  assert (E : map (fun x => {| Sack.start := x.1; Sack.end_ := x.2 |})
    (map (fun r => (Sack.start r, Sack.end_ r)) ranges) = ranges).
  { rewrite map_map. rewrite <- (map_id ranges) at 2. apply map_ext. by intros []. }
  by rewrite E.
Qed.

Lemma fin_agrees h (next : Op unit) w :
  bind (receive_fin_and_ack env (ShortHeader.sequence_number h))
    (fun fin_received => if fin_received then next else ret tt) w = Legacy.fin_and_ack env h next w.
Proof.
  unfold receive_fin_and_ack, Legacy.fin_and_ack. rewrite bind_bind, !bind_reliability_op.
  destruct (ReliabilityLayer.receive_fin _ _) as [rl []]; [|done]. rewrite bind_bind. apply bind_ext.
  intros [] w1. by rewrite bind_ret.
Qed.

Lemma fin_only_agrees h w :
  bind (receive_fin_and_ack env (ShortHeader.sequence_number h)) (fun _ => ret tt) w =
  Legacy.fin_and_ack env h (ret tt) w.
Proof. rewrite <- fin_agrees. apply bind_ext. by intros []. Qed.

Lemma fin_closing_agrees h w :
  current_state w.(ep) = Lifecycle.Closing ->
  ConnectionProcessor.handle_fin_in_closing env h w =
  Legacy.fin_and_ack env h (attempt (transition_state Lifecycle.ClosingWait) >>! ret tt) w.
Proof.
  intros Hs. unfold ConnectionProcessor.handle_fin_in_closing, receive_fin_and_ack, Legacy.fin_and_ack.
  rewrite bind_bind, !bind_reliability_op. destruct (ReliabilityLayer.receive_fin _ _) as [rl []]; [|done].
  rewrite bind_bind. apply bind_cong. intros [] w2 Ha%ack_keeps_lifecycle. rewrite bind_ret, bind_get.
  assert (E : current_state w2.(ep) = Lifecycle.Closing) by (unfold current_state in *; by rewrite Ha). by rewrite E.
Qed.

Lemma syn_ack_agrees h src t w :
  current_state w.(ep) = Lifecycle.Connecting ->
  ConnectionProcessor.handle_syn_ack_frame env h
    {| now := t; src_addr := src; connection_state := Lifecycle.Connecting; local_cid := local_cid_of w.(ep) |} w =
  bind (cancel_connection_timeout env) (fun _ => by_state (Frame.SynAck h) src) w.
Proof.
  intros Hs. unfold ConnectionProcessor.handle_syn_ack_frame, cancel_connection_timeout. cbn [connection_state].
  rewrite !bind_bind. apply bind_cong. intros b w1 Hc%cancel_keeps_lifecycle. rewrite !bind_ret. unfold by_state.
  rewrite bind_get. assert (E : current_state w1.(ep) = Lifecycle.Connecting) by (unfold current_state in *; by rewrite Hc).
  by rewrite E.
Qed.

Lemma path_response_agrees h data addr challenge n src t w :
  current_state w.(ep) = Lifecycle.ValidatingPath addr challenge n ->
  let response := PathProcessor.process_frame env (Frame.PathResponse h data) src t in
  let old := Legacy.handle_frame_validating_path env (Frame.PathResponse h data) src in
  if bool_decide (src = addr) && (data =? challenge) then
    old w = bind (cancel_timer env Timing.PathValidationTimeout) (fun _ => response) w
  else response w = Done (w, inl tt) /\ old w = Done (w, inl tt).
Proof.
  intros Hs response old. unfold response, old, Legacy.handle_frame_validating_path; unfold_path.
  rewrite !bind_get. unfold context_new, PathProcessor.handle_path_response_frame,
    PathProcessor.handle_path_validation_response. cbn [connection_state src_addr]. rewrite Hs. cbn [Lifecycle.clone].
  destruct (bool_decide (src = addr) && (data =? challenge)) eqn:Ec; [|done].
  unfold endpoint_complete_path_validation. rewrite bind_bind. apply bind_cong. intros b w1 Hc%cancel_keeps_lifecycle.
  rewrite bind_get. assert (E : current_state w1.(ep) = Lifecycle.ValidatingPath addr challenge n)
    by (unfold current_state in *; by rewrite Hc).
  rewrite E. cbn [Lifecycle.clone]. by rewrite Ec.
Qed.

(** C14: the frame processors do what the per-state handlers they replaced did,
    except in three cases: a SYN-ACK also cancels the connection timer, data is
    accepted after the peer's FIN, and a successful path validation no longer
    cancels its timer.  An ACK uses the clock reading of its arrival. *)
Theorem processors_agree_with_handlers frame src w :
  let t := env.(clock) w.(reads) in
  match current_state w.(ep), frame with
  | Lifecycle.Connecting, Frame.SynAck _ =>
      processed frame src t w = bind (cancel_connection_timeout env) (fun _ => by_state frame src) w
  | Lifecycle.ClosingWait, Frame.Push h p =>
      processed frame src t w = receive_data_and_maybe_ack env (ShortHeader.sequence_number h) p w /\
      by_state frame src w = Done (w, inl tt)
  | Lifecycle.ValidatingPath addr challenge _, Frame.PathResponse _ data =>
      if bool_decide (src = addr) && (data =? challenge) then
        by_state frame src w =
        bind (cancel_timer env Timing.PathValidationTimeout) (fun _ => processed frame src t) w
      else processed frame src t w = Done (w, inl tt) /\ by_state frame src w = Done (w, inl tt)
  | Lifecycle.Connecting, Frame.Ack _ _ | Lifecycle.Closed, Frame.Ack _ _ =>
      processed frame src t w = Done (w, inl tt) /\ by_state frame src w = Done (w, inl tt)
  | _, Frame.Ack _ _ => processed frame src t (ticked w) = by_state frame src w
  | _, _ => processed frame src t w = by_state frame src w
  end.
Proof.
  intros t. assert (Hb : by_state frame src w = match current_state w.(ep) with
    | Lifecycle.Connecting => Legacy.handle_frame_connecting env frame src
    | Lifecycle.SynReceived => Legacy.handle_frame_syn_received env frame src
    | Lifecycle.Established => Legacy.handle_frame_established env frame src
    | Lifecycle.ValidatingPath _ _ _ => Legacy.handle_frame_validating_path env frame src
    | Lifecycle.Closing => Legacy.handle_frame_closing env frame src
    | Lifecycle.ClosingWait => Legacy.handle_frame_closing_wait env frame src
    | Lifecycle.FinWait => Legacy.handle_frame_fin_wait env frame src
    | Lifecycle.Closed => ret tt end w) by done.
  rewrite Hb. clear Hb.
  destruct frame as [h p|h p|h|h|h|h|h d|h d]; unfold processed, PushProcessor.process_frame; unfold_ack; unfold_connection; unfold_path;
    rewrite ?bind_get; unfold context_new;
    cbn [connection_state ep ticked]; destruct (current_state w.(ep)) eqn:Es; cbn [Lifecycle.clone].
  all: try done.
  1-6: by apply ack_agrees.
  - by apply syn_ack_agrees.
  - apply fin_agrees.
  - apply fin_only_agrees.
  - apply fin_agrees.
  - by apply fin_closing_agrees.
  - apply fin_only_agrees.
  - pose proof (path_response_agrees h d _ _ _ src t w Es) as H. cbn zeta in H.
    unfold PathProcessor.process_frame, PathProcessor.process_path_frame_internal in H. destruct (_ && _); [exact H|].
    rewrite bind_get in H. unfold context_new in H. by rewrite Es in H.
Qed.

End frames.

Definition example_push : ShortHeader.ShortHeader := {|
  ShortHeader.command := Command.Push; ShortHeader.connection_id := 7; ShortHeader.payload_length := 1;
  ShortHeader.recv_window_size := 100; ShortHeader.timestamp := 5; ShortHeader.sequence_number := 3;
  ShortHeader.recv_next_sequence := 0 |}.

Lemma push_acknowledged_witness :
  let w := example_established in
  let (rl, accepted) := ReliabilityLayer.receive_push (rel w.(ep)) 3 [Byte.x63] in
  accepted = true /\
  exists w' r, route_frame example_env (Frame.Push example_push [Byte.x63]) 100 0 w = Done (w', r) /\
    rel w'.(ep) = ReliabilityLayer.on_ack_sent rl /\
    exists ack, full_ack w.(ep) rl 3 ack /\
      (r = inl tt /\ w'.(log) = w.(log) ++ [SendFrames (remote_addr_of w.(ep)) [ack]] \/
       r = inr ChannelClosed /\ w'.(log) = w.(log)).
Proof.
  intros w.
  assert (Ha : snd (ReliabilityLayer.receive_push (rel w.(ep)) 3 [Byte.x63]) = true) by (vm_compute; reflexivity).
  assert (Hs : current_state w.(ep) = Lifecycle.Established) by (vm_compute; reflexivity).
  assert (Hm : no_migration 100 w) by (left; vm_compute; reflexivity).
  assert (Hwf : ReceiveBuffer.wf (ReliabilityLayer.recv_buffer (rel w.(ep)))).
  { assert (E : ReliabilityLayer.recv_buffer (rel w.(ep)) = ReceiveBuffer.new 256) by (vm_compute; reflexivity).
    rewrite E. apply ReceiveBuffer.new_wf. }
  assert (Hu : u32_ok 3) by by_decide.
  pose proof (push_acknowledged example_env example_push [Byte.x63] 100 0 w) as H.
  cbv zeta in H. change (ShortHeader.sequence_number example_push) with 3 in H. clearbody w.
  destruct (ReliabilityLayer.receive_push (rel w.(ep)) 3 [Byte.x63]) as [rl accepted]. simpl in Ha. subst accepted.
  specialize (H Hm Hwf Hu). rewrite Hs in H. destruct H as (w' & r & H1 & _ & H2).
  split; [reflexivity|exact (ex_intro _ w' (ex_intro _ r (conj H1 H2)))].
Defined.

End EndpointFrames.
