(* ===== verification/Provenance.v ===== *)
(** * Where frames come from

    The retransmission managers resend only what they were given: a property
    of the stored descriptions that holds when frames are tracked holds for
    every frame they hand out later. *)

From S2P Require Import Prelude BTreeMap Packet Config Frame SendBuffer RecvBuffer Rtt Congestion SackManager.
From S2P Require Import SimpleRetx Retransmission Packetizer Reliability.

Module Provenance.
Import RetransmissionFrameInfo.
Module RM := RetransmissionManager.
Module Simple := SimpleRetransmissionManager.

Section provenance.
Variable P : RetransmissionFrameInfo -> Prop.

(** All values of a map. *)
Definition values_ok {A} (Q : A -> Prop) (m : gmap Z A) : Prop := forall k p, m !! k = Some p -> Q p.

Definition sack_known : gmap Z SackManager.SackInFlightPacket -> Prop :=
  values_ok (fun p => P p.(SackManager.frame_info)).

Definition simple_known : gmap Z Simple.SimpleInFlightPacket -> Prop :=
  values_ok (fun p => P p.(Simple.frame_info)).

Definition known (r : RM.RetransmissionManager) : Prop :=
  sack_known (SackManager.in_flight_packets (RM.sack_manager r)) /\ simple_known (RM.simple_retx_manager r).

(** A frame rebuilt in a context from a description that satisfies [P]. *)
Definition rebuilt (context : RetransmissionContext.RetransmissionContext) (f : Frame.Frame) : Prop :=
  exists info now, P info /\ f = reconstruct_frame info context now.

Lemma remove_all_known {A} (Q : A -> Prop) (m : gmap Z A) ks :
  values_ok Q m -> values_ok Q (BTreeMap.remove_all m ks).
Proof. intros H k p. rewrite BTreeMap.lookup_remove_all. case_decide; [done|apply H]. Qed.

Lemma insert_known {A} (Q : A -> Prop) (m : gmap Z A) j a :
  Q a -> values_ok Q m -> values_ok Q (<[j := a]> m).
Proof. intros Ha Hm k p [[_ <-]|[_ ?]]%lookup_insert_Some; eauto. Qed.

Lemma rebuilt_list {A} (l : list A) (info : A -> RetransmissionFrameInfo) context now (keep : A -> bool) :
  (forall a, a ∈ l -> P (info a)) ->
  Forall (rebuilt context) (map (fun a => reconstruct_frame (info a) context now) (List.filter keep l)).
Proof.
  intros H. apply Forall_forall. intros f Hf. apply list_elem_of_In, in_map_iff in Hf as (a & <- & Ha).
  apply filter_In in Ha as [Ha%list_elem_of_In _]. exists (info a), now. auto.
Qed.

(** ** The SACK manager *)

Lemma fast_known threshold now context ks m frames :
  sack_known m -> Forall (rebuilt context) frames ->
  let '(m', frames') := fold_left (SackManager.fast_one threshold now context) ks (m, frames) in
  sack_known m' /\ Forall (rebuilt context) frames'.
Proof.
  revert m frames. induction ks as [|k ks IH]; intros m frames Hm Hf; [done|]. cbn [fold_left].
  unfold SackManager.fast_one at 2. destruct (m !! k) as [p|] eqn:E; [|by apply IH].
  pose proof (Hm _ _ E) as Hp. destruct (_ <=? _); apply IH; try done;
    try (by apply insert_known).
  apply Forall_app. split; [done|]. constructor; [|done]. exists p.(SackManager.frame_info), now. done.
Qed.

Lemma sack_process_ack_known s rns ranges now context :
  sack_known (SackManager.in_flight_packets s) ->
  let '(s', result) := SackManager.process_ack s rns ranges now context in
  sack_known (SackManager.in_flight_packets s') /\ Forall (rebuilt context) (SackManager.frames_to_retransmit result).
Proof.
  intros Hs. destruct (SackManager.process_ack_spec s rns ranges now context)
    as (sacked & ds & _ & _ & _ & s' & frames & -> & H). cbn [SackManager.frames_to_retransmit].
  set (m2 := BTreeMap.remove_all _ sacked) in H.
  assert (Hm2 : sack_known m2) by (apply remove_all_known, remove_all_known, Hs).
  clearbody m2. destruct sacked as [|q sacked].
  - by injection H as -> ->.
  - unfold SackManager.check_fast_retransmission in H. destruct (list_max _); [|by injection H as -> ->].
    match type of H with context [fold_left (SackManager.fast_one ?t _ _) ?ks ?st] =>
      pose proof (fast_known t now context ks m2 [] Hm2) as Hk end.
    change (SackManager.in_flight_packets (SackManager.with_in_flight s m2)) with m2 in H.
    destruct (fold_left _ _ _) as [m' fs]. injection H as -> ->. by apply Hk.
Qed.

Lemma check_for_rto_known s rto now context :
  sack_known (SackManager.in_flight_packets s) ->
  let '(s', frames) := SackManager.check_for_rto s rto now context in
  sack_known (SackManager.in_flight_packets s') /\ Forall (rebuilt context) frames.
Proof.
  intros Hs. unfold SackManager.check_for_rto. split.
  - intros k p. simpl. rewrite lookup_fmap. destruct (_ !! k) as [q|] eqn:E; [|done]. simpl.
    intros [= <-]. apply Hs in E. by case_match.
  - apply rebuilt_list. intros p [k Hk]%BTreeMap.elem_of_values. by eapply Hs.
Qed.

(** ** Both managers *)

Lemma process_ack_known r rns ranges now context :
  known r ->
  let '(r', result) := RM.process_ack r rns ranges now context in
  known r' /\ Forall (rebuilt context) (RM.frames_to_retransmit result).
Proof.
  intros [Hs Hm]. unfold RM.process_ack.
  pose proof (sack_process_ack_known (RM.sack_manager r) rns ranges now context Hs) as H.
  destruct (SackManager.process_ack _ _ _ _ _) as [s' res]. destruct H as [H1 H2].
  destruct (Simple.acknowledge_up_to_spec (RM.simple_retx_manager r) rns) as (k1 & -> & _).
  destruct (Simple.acknowledge_sack_ranges_spec (BTreeMap.remove_all (RM.simple_retx_manager r) k1) ranges)
    as (k2 & -> & _).
  split; [|done]. split; [done|]. apply remove_all_known, remove_all_known, Hm.
Qed.

Lemma check_timeouts_known r rto now context :
  known r ->
  let '(r', (_, frames)) := RM.check_retransmission_timeouts r rto now context in
  known r' /\ Forall (rebuilt context) frames.
Proof.
  intros [Hs Hm]. unfold RM.check_retransmission_timeouts.
  pose proof (check_for_rto_known (RM.sack_manager r) rto now context Hs) as H.
  destruct (SackManager.check_for_rto _ _ _ _) as [s' f1]. destruct H as [H1 H2].
  pose proof (Simple.check_spec (RM.simple_retx_manager r) now context) as H.
  destruct (Simple.check_for_retransmissions _ _ _) as [m' f2]. destruct H as [H3 ->]. split.
  - split; [done|]. intros k p Hk. simpl in Hk. rewrite H3 in Hk.
    destruct (RM.simple_retx_manager r !! k) as [q|] eqn:E; [|done]. simpl in Hk. apply Hm in E.
    unfold Simple.after_check in Hk. repeat case_match; by simplify_eq.
  - apply Forall_app. split; [done|].
    apply (rebuilt_list _ (fun x : Z * Simple.SimpleInFlightPacket => Simple.frame_info x.2)).
    intros [k p] Hk%BTreeMap.elem_of_entries. by eapply Hm.
Qed.

(** What is tracked of a frame satisfies [P]. *)
Definition tracks_ok (f : Frame.Frame) : Prop := forall info, from_frame f = Some info -> P info.

Lemma add_known r f now : tracks_ok f -> known r -> known (RM.add_in_flight_packet r f now).
Proof.
  intros Hf [Hs Hm]. unfold RM.add_in_flight_packet. destruct (Frame.reliability_mode_with_config _ _).
  - split; [|done]. unfold SackManager.add_in_flight_packet. simpl.
    destruct (Frame.sequence_number f); [|done]. destruct (from_frame f) eqn:E; [|done].
    apply insert_known; [by apply Hf|done].
  - split; [done|]. unfold Simple.add_packet. simpl.
    destruct (Frame.sequence_number f); [|done]. destruct (Frame.reliability_mode f); try done.
    destruct (from_frame f) eqn:E; [|done].
    apply insert_known; [by apply Hf|done].
  - done.
Qed.

Lemma track_all_known r fs now :
  Forall tracks_ok fs -> known r -> known (ReliabilityLayer.track_all r fs now).
Proof.
  intros Hfs. unfold ReliabilityLayer.track_all. revert r.
  induction Hfs as [|f fs Hf _ IH]; intros r Hr; [done|]. apply IH. by apply add_known.
Qed.

Lemma clear_known r : known (RM.clear r).
Proof.
  split; intros k p Hk; [change ((∅ : gmap Z SackManager.SackInFlightPacket) !! k = Some p) in Hk
    |change ((∅ : gmap Z Simple.SimpleInFlightPacket) !! k = Some p) in Hk]; by rewrite lookup_empty in Hk.
Qed.

End provenance.

Lemma known_mono (P Q : RetransmissionFrameInfo -> Prop) r :
  (forall info, P info -> Q info) -> known P r -> known Q r.
Proof. intros H [H1 H2]. split; intros k p Hk; eauto. Qed.

End Provenance.
