(* ===== verification/StreamSender.v ===== *)
(** * The byte stream: the sending endpoint

    What an endpoint uses its sequence numbers for, and that every PUSH, FIN
    and PATH_CHALLENGE frame it ever sends, retransmissions included, carries
    what its number was used for. *)

From S2P Require Import Prelude BTreeMap Packet Config Frame SendBuffer RecvBuffer Rtt Congestion.
From S2P Require Import SackManager SimpleRetx Retransmission Packetizer Reliability Provenance Lifecycle UnifiedScheduler TimerTask.
From S2P Require Import TimingManager Endpoint Sender Handlers EventLoop EndpointFacts EndpointErrors.

Module StreamSender.
Import Endpoint Sender Operations FrameProcessingContext Processors EventLoop.
Open Scope endpoint_scope.

(** What one sequence number was used for; [None] is a PATH_CHALLENGE. *)
Definition item : Type := option ReceiveBuffer.PacketOrFin.

Implicit Type items : list item.

Definition push_item (payload : list byte) : item := Some (ReceiveBuffer.Push payload).

Definition fin_item : item := Some ReceiveBuffer.Fin.

Definition item_bytes (it : item) : list byte :=
  match it with Some (ReceiveBuffer.Push payload) => payload | _ => [] end.

Definition bytes_of items : list byte := concat (map item_bytes items).

(** Number [seq] was used for [it]. *)
Definition used items (seq : Z) (it : item) : Prop :=
  exists i, items !! i = Some it /\ seq = as_u32 (Z.of_nat i).

(** A PUSH, FIN or PATH_CHALLENGE frame carries what its number was used for. *)
Definition numbered items (f : Frame.Frame) : Prop :=
  match f with
  | Frame.Push header payload => used items (ShortHeader.sequence_number header) (push_item payload)
  | Frame.Fin header => used items (ShortHeader.sequence_number header) fin_item
  | Frame.PathChallenge header _ => used items (ShortHeader.sequence_number header) None
  | _ => True
  end.

Lemma bytes_of_app items items' : bytes_of (items ++ items') = bytes_of items ++ bytes_of items'.
Proof. unfold bytes_of. by rewrite map_app, concat_app. Qed.

Lemma used_app items items' seq it : used items seq it -> used (items ++ items') seq it.
Proof. intros (i & H & ?). exists i. split; [by apply lookup_app_l_Some|done]. Qed.

Lemma numbered_app items items' f : numbered items f -> numbered (items ++ items') f.
Proof. destruct f; simpl; eauto using used_app. Qed.

Lemma numbered_all_app items items' fs :
  Forall (numbered items) fs -> Forall (numbered (items ++ items')) fs.
Proof. intros H. eapply Forall_impl; [exact H|]. apply numbered_app. Qed.

(** The number handed out last. *)
Lemma used_last items it : used (items ++ [it]) (as_u32 (len items)) it.
Proof. exists (length items). split; [|done]. by rewrite lookup_app_r, Nat.sub_diag. Qed.

(** ** Descriptions of frames in flight *)

Definition described items (info : RetransmissionFrameInfo.RetransmissionFrameInfo) : Prop :=
  forall context now, numbered items (RetransmissionFrameInfo.reconstruct_frame info context now).

Lemma numbered_body items f g :
  RetransmissionFrameInfo.body f = RetransmissionFrameInfo.body g -> numbered items g -> numbered items f.
Proof.
  unfold RetransmissionFrameInfo.body.
  destruct f as [h p|h p|h|h|h|h|h d|h d], g as [h' p'|h' p'|h'|h'|h'|h'|h' d'|h' d']; try done; simpl;
    try (intros [=]; fail).
  - by intros [= -> ->].
  - by intros [= ->].
  - by intros [= -> _].
Qed.

Lemma numbered_tracks items f : numbered items f -> Provenance.tracks_ok (described items) f.
Proof.
  intros Hf info Hi context now. eapply numbered_body; [|exact Hf].
  by apply RetransmissionFrameInfo.reconstruct_body.
Qed.

Lemma rebuilt_numbered items context fs :
  Forall (Provenance.rebuilt (described items) context) fs -> Forall (numbered items) fs.
Proof. intros H. eapply Forall_impl; [exact H|]. intros f (info & t & Hi & ->). apply Hi. Qed.

Lemma described_app items items' info : described items info -> described (items ++ items') info.
Proof. intros H context now. by apply numbered_app. Qed.

(** ** The layer *)

Section layer.
Context {T : Type} `{CC : CongestionControl T}.
Implicit Types (rl : ReliabilityLayer.ReliabilityLayer T).

(** The numbers handed out so far were used for [items], and the bytes in them
    and in the send buffer are [accepted]. *)
Record sends items (accepted : list byte) rl : Prop := {
  snd_wf : SendBuffer.wf (ReliabilityLayer.send_buffer rl);
  snd_config : ReliabilityLayer.payload_limit_ok (ReliabilityLayer.config rl);
  snd_counter : ReliabilityLayer.sequence_number_counter rl = as_u32 (len items);
  snd_known : Provenance.known (described items) (ReliabilityLayer.retransmission_manager rl);
  snd_bytes : accepted = bytes_of items ++ SendBuffer.content (ReliabilityLayer.send_buffer rl);
}.

Lemma new_sends cfg cc : ReliabilityLayer.payload_limit_ok cfg -> sends [] [] (ReliabilityLayer.new cfg cc).
Proof.
  intros Hc. constructor; simpl; [apply SendBuffer.new_buffer_wf, Hc|done..].
Qed.

Lemma write_sends items accepted rl data rl' n :
  sends items accepted rl -> ReliabilityLayer.write_to_stream rl data = (rl', n) ->
  sends items (accepted ++ take (Z.to_nat n) data) rl'.
Proof.
  intros [Hwf Hc Hn Hk Hb] E. unfold ReliabilityLayer.write_to_stream in E.
  pose proof (SendBuffer.write_to_stream_spec (ReliabilityLayer.send_buffer rl) data Hwf) as Hw.
  destruct (SendBuffer.write_to_stream _ _) as [sb m]. injection E as <- <-. destruct Hw as (Hwf' & _ & _ & Hcont).
  constructor; simpl; try done. by rewrite Hb, Hcont, app_assoc.
Qed.

(** *** Cutting data into frames *)

Lemma len_pushes chunks : len (map push_item chunks) = len chunks.
Proof. unfold len. by rewrite length_map. Qed.

Lemma bytes_of_pushes chunks : bytes_of (map push_item chunks) = concat chunks.
Proof. unfold bytes_of. rewrite map_map. simpl. by rewrite map_id. Qed.

Lemma len_concat (chunks : list (list byte)) :
  Forall (fun c => 0 < len c) chunks -> len chunks <= len (concat chunks).
Proof.
  induction 1 as [|c chunks Hc _ IH]; [done|]. cbn [concat]. rewrite len_cons, len_app. lia.
Qed.

Lemma push_frames_numbered context items chunks :
  Forall (numbered (items ++ map push_item chunks))
    (Packetizer.push_frames context (as_u32 (len items)) chunks).
Proof.
  revert items. induction chunks as [|c chunks IH]; intros items; simpl; [constructor|]. constructor.
  - cbn. replace (items ++ push_item c :: map push_item chunks) with ((items ++ [push_item c]) ++ map push_item chunks)
      by by rewrite <- app_assoc. apply used_app, used_last.
  - replace (items ++ push_item c :: map push_item chunks) with ((items ++ [push_item c]) ++ map push_item chunks)
      by by rewrite <- app_assoc.
    replace (as_u32 (as_u32 (len items) + 1)) with (as_u32 (len (items ++ [push_item c]))); [apply IH|].
    rewrite len_app. unfold as_u32. rewrite Zplus_mod_idemp_l. f_equal.
Qed.

(** What [packetize] uses new numbers for. *)
Lemma packetize_sends items accepted rl context sb' counter' frames :
  sends items accepted rl -> 0 < Packetizer.max_payload_size context ->
  Packetizer.packetize context (ReliabilityLayer.send_buffer rl)
    (ReliabilityLayer.sequence_number_counter rl) None = (sb', counter', frames) ->
  exists new, SendBuffer.wf sb' /\ counter' = as_u32 (len (items ++ new)) /\
    Forall (numbered (items ++ new)) frames /\ accepted = bytes_of (items ++ new) ++ SendBuffer.content sb' /\
    len new <= len (bytes_of new).
Proof.
  intros [Hwf Hc Hn Hk Hb] Hmax E. unfold Packetizer.packetize in E.
  destruct (Packetizer.packetize_loop_spec (Z.to_nat (Packetizer.permit context)) context
    (ReliabilityLayer.send_buffer rl) (ReliabilityLayer.sequence_number_counter rl) [] Hwf Hmax)
    as (chunks & sb & Ep & H1 & H2 & H3 & _); [rewrite Hn; apply as_u32_ok|].
  rewrite Ep in E. injection E as <- <- <-. exists (map push_item chunks). split_and!; [done| | | |].
  - rewrite Hn, len_app, len_pushes. unfold as_u32. by rewrite Zplus_mod_idemp_l.
  - rewrite Hn. apply push_frames_numbered.
  - by rewrite Hb, H2, bytes_of_app, bytes_of_pushes, app_assoc.
  - rewrite bytes_of_pushes, len_pushes. apply len_concat.
    eapply Forall_impl; [exact H3|]. simpl. lia.
Qed.

(** The frames of a step are tracked. *)
Lemma track_sends items accepted rl sb counter frames now :
  SendBuffer.wf sb -> ReliabilityLayer.payload_limit_ok (ReliabilityLayer.config rl) ->
  counter = as_u32 (len items) -> accepted = bytes_of items ++ SendBuffer.content sb ->
  Provenance.known (described items) (ReliabilityLayer.retransmission_manager rl) ->
  Forall (numbered items) frames ->
  sends items accepted (ReliabilityLayer.with_send rl sb counter
    (ReliabilityLayer.track_all (ReliabilityLayer.retransmission_manager rl) frames now)).
Proof.
  intros. constructor; simpl; try done. apply Provenance.track_all_known; [|done].
  eapply Forall_impl; [done|]. apply numbered_tracks.
Qed.

Lemma known_app items items' rm :
  Provenance.known (described items) rm -> Provenance.known (described (items ++ items')) rm.
Proof. apply Provenance.known_mono. intros info. apply described_app. Qed.

Lemma stream_data_sends items accepted rl cid window t start rl' frames :
  sends items accepted rl ->
  ReliabilityLayer.packetize_stream_data rl cid window t start None = (rl', frames) ->
  exists new, sends (items ++ new) accepted rl' /\ Forall (numbered (items ++ new)) frames /\
    len new <= len (bytes_of new).
Proof.
  intros Hs E. unfold ReliabilityLayer.packetize_stream_data in E.
  destruct (Packetizer.packetize _ _ _ _) as [[sb counter] fs] eqn:Ep. injection E as <- <-.
  eapply packetize_sends in Ep; [|exact Hs|exact (proj1 (snd_config _ _ _ Hs))].
  destruct Ep as (new & H1 & H2 & H3 & H4 & H5).
  exists new. split_and!; [|done..]. apply track_sends; try done; [apply Hs|]. apply known_app, Hs.
Qed.

(** Grouping into 0-RTT datagrams keeps the frames. *)
Lemma zero_rtt_keeps context sb counter syn_ack max sb' counter' groups :
  Packetizer.packetize_zero_rtt context sb counter syn_ack max = Done (sb', counter', groups) ->
  exists frames, Packetizer.packetize context sb counter None = (sb', counter', frames) /\
    forall P, P syn_ack -> Forall P frames -> Forall (Forall P) groups.
Proof.
  intros (frames & H & Ec)%Packetizer.packetize_zero_rtt_concat. exists frames. split; [done|].
  intros P Hs Hfs. apply Forall_concat. rewrite Ec. by constructor.
Qed.

Lemma zero_rtt_sends items accepted rl cid window t start syn_ack max rl' groups :
  sends items accepted rl -> numbered items syn_ack ->
  ReliabilityLayer.packetize_zero_rtt_stream_data rl cid window t start syn_ack max = Done (rl', groups) ->
  exists new, sends (items ++ new) accepted rl' /\ Forall (Forall (numbered (items ++ new))) groups /\
    len new <= len (bytes_of new).
Proof.
  intros Hs Hsyn E. unfold ReliabilityLayer.packetize_zero_rtt_stream_data in E.
  destruct (Packetizer.packetize_zero_rtt _ _ _ _ _) as [[[sb counter] gs]|] eqn:Ep; [|done].
  injection E as <- <-.
  apply zero_rtt_keeps in Ep as (frames & Ep & Hgs).
  eapply packetize_sends in Ep; [|exact Hs|exact (proj1 (snd_config _ _ _ Hs))].
  destruct Ep as (new & H1 & H2 & H3 & H4 & H5).
  specialize (Hgs _ (numbered_app _ new _ Hsyn) H3). exists new. split_and!; [|done..].
  rewrite (ReliabilityLayer.fold_track_all (ReliabilityLayer.retransmission_manager rl) gs t).
  apply track_sends; try done; [apply Hs|apply known_app, Hs|by apply Forall_concat].
Qed.

(** *** Acknowledgements, timeouts and single numbers *)

Lemma known_control items accepted rl rtt cc rm :
  sends items accepted rl -> Provenance.known (described items) rm ->
  sends items accepted (ReliabilityLayer.with_control rl rtt cc rm).
Proof. by intros [] ?; constructor. Qed.

Lemma handle_ack_sends items accepted rl rns ranges t context rl' frames :
  sends items accepted rl -> ReliabilityLayer.handle_ack rl rns ranges t context = Done (rl', frames) ->
  sends items accepted rl' /\ Forall (numbered items) frames.
Proof.
  intros Hs E. unfold ReliabilityLayer.handle_ack in E.
  pose proof (Provenance.process_ack_known (described items) _ rns ranges t context (snd_known _ _ _ Hs)) as H.
  destruct (RetransmissionManager.process_ack _ _ _ _ _) as [rm res]. destruct H as [H1 H2].
  destruct (ReliabilityLayer.handle_samples _ _ _ _) as [[rtt cc]|]; [|done]. injection E as <- <-.
  split; [by apply known_control|by eapply rebuilt_numbered].
Qed.

Lemma check_retransmissions_sends items accepted rl t context rl' frames :
  sends items accepted rl -> ReliabilityLayer.check_retransmissions rl t context = (rl', frames) ->
  sends items accepted rl' /\ Forall (numbered items) frames.
Proof.
  intros Hs E. unfold ReliabilityLayer.check_retransmissions in E.
  pose proof (Provenance.check_timeouts_known (described items) _ (RttEstimator.rto (ReliabilityLayer.rto_estimator rl))
    t context (snd_known _ _ _ Hs)) as H.
  destruct (RetransmissionManager.check_retransmission_timeouts _ _ _ _) as [rm [ev fs]]. destruct H as [H1 H2].
  injection E as <- <-. split; [|by eapply rebuilt_numbered].
  unfold ReliabilityLayer.react_to_resend. case_match; by apply known_control.
Qed.

Lemma next_number_sends items accepted rl it :
  sends items accepted rl -> item_bytes it = [] ->
  sends (items ++ [it]) accepted (ReliabilityLayer.next_sequence_number rl).1 /\
  used (items ++ [it]) (ReliabilityLayer.next_sequence_number rl).2 it.
Proof.
  intros [Hwf Hc Hn Hk Hb] Hit. split; [|simpl; rewrite Hn; apply used_last].
  constructor; simpl; [done..| |by apply known_app|].
  - rewrite Hn, len_app. unfold as_u32. by rewrite Zplus_mod_idemp_l.
  - rewrite bytes_of_app, Hb. unfold bytes_of at 3. simpl. by rewrite Hit, !app_nil_r.
Qed.

Lemma track_one_sends items accepted rl f t :
  sends items accepted rl -> numbered items f -> sends items accepted (ReliabilityLayer.track_frame_in_flight rl f t).
Proof.
  intros [] Hf. constructor; simpl; try done. apply Provenance.add_known; [|done]. by apply numbered_tracks.
Qed.

Lemma clear_sends items accepted rl :
  sends items accepted rl -> sends items accepted (ReliabilityLayer.clear_in_flight_packets rl).
Proof. intros []. constructor; simpl; done. Qed.

(** The receiving half leaves the sending half alone. *)
Lemma receiving_sends items accepted c rl rl' :
  match c with RSend => False | _ => True end ->
  reliability_step c rl rl' -> sends items accepted rl -> sends items accepted rl'.
Proof.
  intros Hc H [H1 H2 H3 H4 H5]. destruct H; try done.
  - unfold ReliabilityLayer.receive_push in H. destruct (ReceiveBuffer.receive_push _ _ _) as [rb []];
      injection H as <- _; by constructor.
  - unfold ReliabilityLayer.receive_fin in H. destruct (ReceiveBuffer.receive_fin _ _) as [rb []];
      injection H as <- _; by constructor.
  - unfold ReliabilityLayer.reassemble in H. destruct (ReceiveBuffer.reassemble _) as [rb res].
    injection H as <- _. by constructor.
Qed.

End layer.

(** ** The endpoint *)

Definition frames_in {SocketAddr} (l : list (effect SocketAddr)) : list Frame.Frame :=
  flat_map (fun eff => match eff with SendFrames _ fs => fs | _ => [] end) l.

Lemma frames_in_lifecycle {SocketAddr} (effs : list Lifecycle.effect) :
  frames_in (SocketAddr := SocketAddr) (map LifecycleEffect effs) = [].
Proof. by induction effs. Qed.

Definition carries_data (f : Frame.Frame) : bool :=
  match f with Frame.Push _ _ | Frame.Fin _ => true | _ => false end.

Definition uses_number (f : Frame.Frame) : bool :=
  match f with Frame.PathChallenge _ _ => true | _ => carries_data f end.

Lemma numberless_numbered items fs :
  forallb (fun f => negb (uses_number f)) fs = true -> Forall (numbered items) fs.
Proof.
  intros H. apply Forall_forall. intros f Hf. rewrite forallb_forall in H.
  apply list_elem_of_In, H in Hf. by destruct f.
Qed.

(** Steps that leave the sending half alone. *)
Definition calm (k : kind) : Prop :=
  match k with
  | KReliability RSend => False
  | KSend fs => forallb (fun f => negb (uses_number f)) fs = true
  | _ => True
  end.

#[local] Hint Extern 0 (calm _) => exact I : runs.
#[local] Hint Extern 0 (calm (KSend _)) => reflexivity : runs.

Section endpoint.
Context {T : Type} `{CC : CongestionControl T} {SocketAddr : Type} `{!EqDecision SocketAddr}.
Variable env : Env.
Abbreviation Op := (M T SocketAddr).
Implicit Types (w : World T SocketAddr) (accepted : list byte) (pending : list Frame.Frame) (credit : Z).

(** The sender's invariant.  [accepted] are the bytes taken from the user so
    far, [pending] frames about to be sent.  Numbers are used for bytes or
    cost a reading of the environment each; [credit] readings are not used up
    yet. *)
Definition sender_ok accepted pending credit w : Prop :=
  exists items, sends items accepted (rel w.(ep)) /\ Forall (numbered items) pending /\
    Forall (numbered items) (frames_in w.(log)) /\
    len items + credit <= len (bytes_of items) + Z.of_nat w.(reads).

Definition hoare {A} (P : World T SocketAddr -> Prop) (m : Op A) (Q : A -> World T SocketAddr -> Prop)
    (E : World T SocketAddr -> Prop) : Prop :=
  forall w w' r, P w -> m w = Done (w', r) -> match r with inl a => Q a w' | inr _ => E w' end.

Lemma hoare_bind {A B} P (m : Op A) (f : A -> Op B) Q R E :
  hoare P m Q E -> (forall a, hoare (Q a) (f a) R E) -> hoare P (bind m f) R E.
Proof.
  intros Hm Hf w w' r HP [(err & E1 & ->)|(w1 & a & E1 & E2)]%run_bind_inv.
  - exact (Hm _ _ _ HP E1).
  - exact (Hf a _ _ _ (Hm _ _ _ HP E1) E2).
Qed.

Lemma hoare_pre {A} (P P' : World T SocketAddr -> Prop) (m : Op A) Q E :
  (forall w, P w -> P' w) -> hoare P' m Q E -> hoare P m Q E.
Proof. intros H Hm w w' r HP. apply Hm. auto. Qed.

Lemma hoare_post {A} (P : World T SocketAddr -> Prop) (m : Op A) (Q Q' : A -> _ -> Prop) E :
  (forall a w, Q a w -> Q' a w) -> hoare P m Q E -> hoare P m Q' E.
Proof. intros H Hm w w' [a|err] HP E1; [apply H|]; exact (Hm _ _ _ HP E1). Qed.

Lemma hoare_ret {A} (a : A) (P : World T SocketAddr -> Prop) E : hoare P (ret a) (fun _ => P) E.
Proof. by intros w w' r HP [= <- <-]. Qed.

Lemma hoare_value {A} (a : A) (P : World T SocketAddr -> Prop) (Q : A -> _ -> Prop) E :
  (forall w, P w -> Q a w) -> hoare P (ret a) Q E.
Proof. intros H w w' r HP [= <- <-]. auto. Qed.

Lemma hoare_get {B} P (f : Endpoint T SocketAddr -> Op B) Q E :
  (forall e, hoare P (f e) Q E) -> hoare P (bind get f) Q E.
Proof. intros H. apply hoare_bind with (Q := fun _ => P); [|exact H]. by intros w w' r HP [= <- <-]. Qed.

Lemma hoare_attempt {A} P (m : Op A) E : hoare P m (fun _ => E) E -> hoare P (attempt m) (fun _ => E) E.
Proof.
  intros Hm w w' r HP. unfold attempt. destruct (m w) as [[w1 r1]|] eqn:E1; [|done].
  intros [= <- <-]. pose proof (Hm _ _ _ HP E1). by destruct r1.
Qed.

(** *** Weakening *)

Lemma sender_ok_weaken accepted pending credit w :
  0 <= credit -> sender_ok accepted pending credit w -> sender_ok accepted [] 0 w.
Proof. intros Hc (items & H1 & _ & H2 & H3). exists items. split_and!; [done..|lia]. Qed.

Lemma sender_ok_credit accepted pending credit credit' w :
  credit' <= credit -> sender_ok accepted pending credit w -> sender_ok accepted pending credit' w.
Proof. intros Hc (items & H1 & H2 & H3 & H4). exists items. split_and!; [done..|lia]. Qed.

Lemma sender_ok_calm accepted pending credit w k w' :
  calm k -> prim w k w' -> sender_ok accepted pending credit w -> sender_ok accepted pending credit w'.
Proof.
  intros Hk Hp (items & H1 & H2 & H3 & H4). exists items.
  assert (Hlog : forall l, frames_in l = [] -> Forall (numbered items) (frames_in (w.(log) ++ l))).
  { intros l Hl. unfold frames_in in *. by rewrite flat_map_app, Hl, app_nil_r. }
  destruct Hp; simpl in *; split_and!; try done; try lia; try (apply Hlog; done).
  - apply Hlog, frames_in_lifecycle.
  - refine (receiving_sends _ _ c _ _ _ H H1). by destruct c.
  - apply Hlog. by destruct old.
  - apply Hlog. by destruct handle.
  - unfold frames_in. rewrite flat_map_app. apply Forall_app. split; [done|]. simpl. rewrite app_nil_r.
    by apply numberless_numbered.
Qed.

Lemma hoare_runs {A} accepted pending credit (m : Op A) :
  0 <= credit -> runs calm m ->
  hoare (sender_ok accepted pending credit) m (fun _ => sender_ok accepted pending credit) (sender_ok accepted [] 0).
Proof.
  intros Hc Hm w w' r HP Hr. apply Hm in Hr.
  assert (H : sender_ok accepted pending credit w').
  { eapply (steps_ind calm); [|exact Hr|exact HP]. intros w1 k w2. apply sender_ok_calm. }
  destruct r; [done|]. by eapply sender_ok_weaken.
Qed.

(** An operation that keeps the invariant, whatever it returns. *)
Definition keeps {A} (m : Op A) : Prop :=
  forall accepted, hoare (sender_ok accepted [] 0) m (fun _ => sender_ok accepted [] 0) (sender_ok accepted [] 0).

Lemma keeps_runs {A} (m : Op A) : runs calm m -> keeps m.
Proof. intros H accepted. by apply hoare_runs. Qed.

Lemma keeps_bind {A B} (m : Op A) (f : A -> Op B) : keeps m -> (forall a, keeps (f a)) -> keeps (bind m f).
Proof. intros Hm Hf accepted. eapply hoare_bind; [apply Hm|]. intros a. apply Hf. Qed.

Lemma keeps_attempt {A} (m : Op A) : keeps m -> keeps (attempt m).
Proof. intros Hm accepted. apply hoare_attempt, Hm. Qed.

Lemma keeps_fail {A} err : keeps (fail (A := A) err).
Proof. apply keeps_runs, runs_fail. Qed.

Lemma keeps_ret {A} (a : A) : keeps (ret a).
Proof. apply keeps_runs, runs_ret. Qed.

(** *** Sending what is pending *)

Lemma sender_ok_ticked accepted pending credit w :
  sender_ok accepted pending credit w -> sender_ok accepted pending (credit + 1) (ticked w).
Proof. intros (items & H1 & H2 & H3 & H4). exists items. split_and!; try done. simpl. lia. Qed.

Lemma sender_ok_sent accepted g rest credit w addr :
  0 <= credit -> sender_ok accepted (g ++ rest) credit w ->
  sender_ok accepted rest credit (emitted (ticked w) [SendFrames addr g]).
Proof.
  intros Hc (items & H1 & H2 & H3 & H4). apply Forall_app in H2 as [H2 H2']. exists items. split_and!; try done.
  - simpl. unfold frames_in in *. rewrite flat_map_app. apply Forall_app. split; [done|]. simpl. by rewrite app_nil_r.
  - simpl. lia.
Qed.

Lemma hoare_now accepted pending credit :
  hoare (sender_ok accepted pending credit) (Endpoint.now env) (fun _ => sender_ok accepted pending (credit + 1))
    (sender_ok accepted [] 0).
Proof. intros w w' r HP [= <- <-]. by apply sender_ok_ticked. Qed.

Lemma hoare_rand accepted pending credit :
  hoare (sender_ok accepted pending credit) (rand env) (fun _ => sender_ok accepted pending (credit + 1))
    (sender_ok accepted [] 0).
Proof. intros w w' r HP [= <- <-]. by apply sender_ok_ticked. Qed.

Lemma hoare_send_batch accepted addr g rest credit :
  0 <= credit ->
  hoare (sender_ok accepted (g ++ rest) credit) (send_batch env addr g)
    (fun _ => sender_ok accepted rest credit) (sender_ok accepted [] 0).
Proof.
  intros Hc w w' r HP. unfold send_batch. destruct (channel_ok env _); intros [= <- <-].
  - by apply sender_ok_sent.
  - apply (sender_ok_ticked _ _ _ _) in HP. eapply sender_ok_weaken; [|exact HP]. lia.
Qed.

Lemma hoare_send_raw accepted g rest credit :
  0 <= credit ->
  hoare (sender_ok accepted (g ++ rest) credit) (send_raw_frames env g)
    (fun _ => sender_ok accepted rest credit) (sender_ok accepted [] 0).
Proof.
  intros Hc. unfold send_raw_frames. destruct g as [|f g]; [apply hoare_ret|].
  apply hoare_get. intros e. by apply hoare_send_batch.
Qed.

Lemma hoare_send_multiple accepted groups credit :
  0 <= credit ->
  hoare (sender_ok accepted (concat groups) credit) (send_multiple_packets (send_raw_frames env) groups)
    (fun _ => sender_ok accepted [] credit) (sender_ok accepted [] 0).
Proof.
  intros Hc. induction groups as [|g groups IH]; [apply hoare_ret|]. cbn [send_multiple_packets concat].
  eapply hoare_bind with (Q := fun _ => sender_ok accepted (concat groups) credit); [|by intros _].
  destruct g as [|f g]; [apply hoare_ret|by apply hoare_send_raw].
Qed.

Lemma hoare_send_frames accepted fs credit :
  0 <= credit ->
  hoare (sender_ok accepted fs credit) (send_frames env fs)
    (fun _ => sender_ok accepted [] credit) (sender_ok accepted [] 0).
Proof.
  intros Hc w w' r HP E. rewrite send_frames_split in E.
  refine (hoare_send_multiple accepted _ credit Hc w w' r _ E).
  unfold split_packets. by rewrite (proj1 (split_from_spec _ fs [] (or_introl eq_refl))).
Qed.

Lemma hoare_send_zero_rtt accepted groups credit :
  0 <= credit ->
  hoare (sender_ok accepted (concat groups) credit) (send_zero_rtt_packets env groups)
    (fun _ => sender_ok accepted [] credit) (sender_ok accepted [] 0).
Proof.
  intros Hc. unfold send_zero_rtt_packets. destruct groups; [apply hoare_ret|by apply hoare_send_multiple].
Qed.

(** *** The operations of the layer *)

Lemma hoare_reliability_op {A} accepted pending credit accepted' credit' (P : A -> list Frame.Frame)
    (op : ReliabilityLayer.ReliabilityLayer T -> _ * A) :
  (forall items rl, sends items accepted rl -> Forall (numbered items) pending ->
     let '(rl', a) := op rl in
     exists new, sends (items ++ new) accepted' rl' /\ Forall (numbered (items ++ new)) (P a) /\
       len new + credit' <= len (bytes_of new) + credit) ->
  hoare (sender_ok accepted pending credit) (reliability_op op) (fun a => sender_ok accepted' (P a) credit')
    (sender_ok accepted [] 0).
Proof.
  intros H w w' r (items & H1 & H2 & H3 & H4). unfold reliability_op. specialize (H items _ H1 H2).
  destruct (op _) as [rl' a]. destruct H as (new & H5 & H6 & H7). intros [= <- <-].
  exists (items ++ new). split_and!; [done..|by apply numbered_all_app|].
  rewrite bytes_of_app, !len_app. simpl. lia.
Qed.

Lemma hoare_reliability_try {A} accepted pending credit (P : A -> list Frame.Frame)
    (op : ReliabilityLayer.ReliabilityLayer T -> outcome (_ * A)) :
  (forall items rl rl' a, sends items accepted rl -> Forall (numbered items) pending -> op rl = Done (rl', a) ->
     exists new, sends (items ++ new) accepted rl' /\ Forall (numbered (items ++ new)) (P a) /\
       len new <= len (bytes_of new)) ->
  hoare (sender_ok accepted pending credit) (reliability_try op) (fun a => sender_ok accepted (P a) credit)
    (sender_ok accepted [] 0).
Proof.
  intros H w w' r (items & H1 & H2 & H3 & H4). unfold reliability_try.
  destruct (op _) as [[rl' a]|] eqn:E; [|done]. destruct (H items _ _ _ H1 H2 E) as (new & H5 & H6 & H7).
  intros [= <- <-]. exists (items ++ new). split_and!; [done..|by apply numbered_all_app|].
  rewrite bytes_of_app, !len_app. simpl. lia.
Qed.

Lemma hoare_packetize accepted credit cid window t start :
  hoare (sender_ok accepted [] credit)
    (reliability_op (fun rl => ReliabilityLayer.packetize_stream_data rl cid window t start None))
    (fun fs => sender_ok accepted fs credit) (sender_ok accepted [] 0).
Proof.
  apply hoare_reliability_op with (P := fun fs => fs). intros items rl Hs _.
  destruct (ReliabilityLayer.packetize_stream_data _ _ _ _ _ _) as [rl' fs] eqn:E.
  apply (stream_data_sends items accepted) in E as (new & H1 & H2 & H3); [|done]. exists new. split_and!; [done..|lia].
Qed.

Lemma hoare_track accepted fs f credit t :
  f ∈ fs ->
  hoare (sender_ok accepted fs credit)
    (reliability_op (fun rl => (ReliabilityLayer.track_frame_in_flight rl f t, tt)))
    (fun _ => sender_ok accepted fs credit) (sender_ok accepted [] 0).
Proof.
  intros Hf. apply hoare_reliability_op with (P := fun _ => fs). intros items rl Hs Hfs. exists [].
  rewrite !app_nil_r. split_and!; [|done|done]. apply track_one_sends; [done|]. by eapply Forall_forall in Hfs.
Qed.

(** A number for a FIN, and any FIN that carries it. *)
Lemma hoare_fin_number accepted fs credit :
  hoare (sender_ok accepted fs (credit + 1)) (reliability_op ReliabilityLayer.next_sequence_number)
    (fun seq => sender_ok accepted (fs ++ [Frame.new_fin 0 seq 0 0 0]) credit) (sender_ok accepted [] 0).
Proof.
  apply hoare_reliability_op with (P := fun seq => fs ++ [Frame.new_fin 0 seq 0 0 0]). intros items rl Hs Hfs.
  destruct (next_number_sends items accepted rl fin_item Hs eq_refl) as [H1 H2].
  destruct (ReliabilityLayer.next_sequence_number rl) as [rl' seq]. exists [fin_item]. split_and!; [done| |].
  - apply Forall_app. split; [by apply numbered_all_app|by repeat constructor].
  - unfold bytes_of; simpl. unfold len; simpl. lia.
Qed.

Lemma sender_ok_fin accepted fs credit w cid seq (rl : ReliabilityLayer.ReliabilityLayer T) start now1 :
  sender_ok accepted (fs ++ [Frame.new_fin 0 seq 0 0 0]) credit w ->
  sender_ok accepted (fs ++ [create_fin_frame cid seq rl start now1]) credit w.
Proof.
  intros (items & H1 & H2 & H3 & H4). exists items. split_and!; try done.
  apply Forall_app in H2 as [H2 H5]. apply Forall_app. split; [done|].
  apply Forall_cons in H5 as [H5 _]. by repeat constructor.
Qed.

(** A number for a PATH_CHALLENGE, and any challenge that carries it. *)
Lemma hoare_challenge_number accepted credit :
  hoare (sender_ok accepted [] (credit + 1)) (reliability_op ReliabilityLayer.next_sequence_number)
    (fun seq => sender_ok accepted [Frame.new_path_challenge 0 seq 0 0] credit) (sender_ok accepted [] 0).
Proof.
  apply hoare_reliability_op with (P := fun seq => [Frame.new_path_challenge 0 seq 0 0]). intros items rl Hs _.
  destruct (next_number_sends items accepted rl None Hs eq_refl) as [H1 H2].
  destruct (ReliabilityLayer.next_sequence_number rl) as [rl' seq]. exists [None]. split_and!; [done|by repeat constructor|].
  unfold bytes_of; simpl. unfold len; simpl. lia.
Qed.

Lemma sender_ok_challenge accepted credit w cid seq start data now1 :
  sender_ok accepted [Frame.new_path_challenge 0 seq 0 0] credit w ->
  sender_ok accepted [create_path_challenge_frame cid seq start data now1] credit w.
Proof.
  intros (items & H1 & H2 & H3 & H4). exists items. split_and!; try done.
  apply Forall_cons in H2 as [H2 _]. by repeat constructor.
Qed.

Lemma keeps_clear : keeps Commands.clear_in_flight_packets.
Proof.
  intros accepted. apply hoare_reliability_op with (P := fun _ => []). intros items rl Hs _. exists [].
  rewrite !app_nil_r. split_and!; [by apply clear_sends|done|done].
Qed.

(** *** The operations that send *)

Lemma keeps_packetize_and_send : keeps (packetize_and_send env).
Proof.
  intros accepted. unfold packetize_and_send. eapply hoare_bind; [apply hoare_now|intros t].
  apply hoare_get. intros e. eapply hoare_bind; [apply hoare_packetize|intros fs]. cbn beta.
  apply hoare_get. intros e1.
  apply hoare_bind with (Q := fun fs => sender_ok accepted fs 0).
  - case_match; [|apply hoare_value; intros w; by apply sender_ok_credit].
    eapply hoare_bind; [apply hoare_fin_number|intros seq]. cbn beta. apply hoare_get. intros e2.
    eapply hoare_bind; [apply hoare_now|intros t2]. cbn beta.
    set (fin := create_fin_frame _ _ _ _ _).
    apply hoare_bind with (Q := fun _ => sender_ok accepted (fs ++ [fin]) (0 + 1)).
    + apply hoare_pre with (P' := sender_ok accepted (fs ++ [fin]) (0 + 1)); [intros w; apply sender_ok_fin|].
      apply hoare_track, elem_of_app. right. left.
    + intros []. apply hoare_value. intros w. by apply sender_ok_credit.
  - intros fs'. by apply hoare_send_frames.
Qed.

Lemma keeps_send_initial_syn : keeps (send_initial_syn env).
Proof.
  intros accepted. unfold send_initial_syn. eapply hoare_bind; [apply hoare_now|intros t].
  apply hoare_get. intros e. eapply hoare_bind; [apply hoare_packetize|intros fs]. cbn beta.
  case_match; [|by intros w w' r].
  set (syn := create_syn_frame _ _).
  apply hoare_post with (Q := fun _ => sender_ok accepted [] (0 + 1)); [intros _ w; by apply sender_ok_weaken|].
  apply hoare_pre with (P' := sender_ok accepted ((syn :: fs) ++ []) (0 + 1)); [|by apply hoare_send_raw].
  intros w (items & H1 & H2 & H3 & H4). exists items. rewrite app_nil_r. split_and!; [done| |done..]. by constructor.
Qed.

Lemma keeps_process_ack h p t : keeps (AckProcessor.process_ack_common env h p t).
Proof.
  unfold AckProcessor.process_ack_common, process_ack_and_get_retx_frames.
  apply keeps_bind; [apply keeps_runs; solve_runs|intros _].
  apply keeps_bind; [apply keeps_runs; solve_runs|intros ranges]. intros accepted.
  apply hoare_bind with (Q := fun fs => sender_ok accepted fs 0).
  - apply hoare_get. intros e. apply hoare_reliability_try with (P := fun fs => fs).
    intros items rl rl' fs Hs _ E. apply (handle_ack_sends items accepted) in E as [H1 H2]; [|done].
    exists []. by rewrite !app_nil_r.
  - intros fs. destruct fs as [|f fs]; [apply hoare_ret|by apply hoare_send_frames].
Qed.

(** A challenge is sent with the number just handed out. *)
Lemma hoare_send_challenge accepted cid seq start data now1 addr :
  hoare (sender_ok accepted [Frame.new_path_challenge 0 seq 0 0] (0 + 1))
    (send_frame_to env (create_path_challenge_frame cid seq start data now1) addr)
    (fun _ => sender_ok accepted [] 0) (sender_ok accepted [] 0).
Proof.
  unfold send_frame_to. apply hoare_post with (Q := fun _ => sender_ok accepted [] (0 + 1));
    [intros _ w; by apply sender_ok_weaken|].
  apply hoare_pre with (P' := sender_ok accepted ([create_path_challenge_frame cid seq start data now1] ++ []) (0 + 1));
    [intros w; apply sender_ok_challenge|by apply hoare_send_batch].
Qed.

Lemma keeps_check_path_migration src : keeps (check_path_migration env src).
Proof.
  unfold check_path_migration. intros accepted. apply hoare_get. intros e. case_match; [|apply hoare_ret].
  eapply hoare_bind; [apply hoare_rand|intros data]. cbn beta.
  eapply hoare_bind; [apply hoare_runs; [done|unfold start_path_validation; solve_runs]|intros ?]. cbn beta.
  eapply hoare_bind; [apply hoare_runs; [done|solve_runs]|intros ?]. cbn beta.
  eapply hoare_bind; [apply (hoare_challenge_number accepted 0)|intros seq]. cbn beta.
  eapply hoare_bind; [apply hoare_now|intros t]. apply hoare_send_challenge.
Qed.

Lemma calm_connection_events events : runs calm (handle_connection_events env events : Op unit).
Proof.
  induction events as [|[] events IH]; simpl; [apply runs_ret| | |done|].
  - unfold force_close. solve_runs.
  - apply runs_bind; [|done]. unfold handle_path_validation_timeout, transition_state.
    apply runs_bind; [apply runs_get|intros e]. destruct (current_state e); simpl; solve_runs.
  - unfold force_close. solve_runs.
Qed.

(** *** Frames that arrive *)

Ltac solve_keeps :=
  repeat match goal with
  | |- keeps (bind _ _) => apply keeps_bind; [|intros]
  | |- keeps (attempt _) => apply keeps_attempt
  | |- keeps (packetize_and_send _) => apply keeps_packetize_and_send
  | |- keeps Commands.clear_in_flight_packets => apply keeps_clear
  | |- keeps (match ?x with _ => _ end) => destruct x
  | |- keeps _ => solve [apply keeps_runs; solve_runs]
  end.

Lemma calm_receive_data seq payload : runs calm (receive_data_and_maybe_ack env seq payload : Op unit).
Proof. unfold receive_data_and_maybe_ack. solve_runs. Qed.

Lemma calm_push frame src t : runs calm (PushProcessor.process_frame env frame src t : Op unit).
Proof.
  pose proof calm_receive_data as H. unfold PushProcessor.process_frame. destruct frame; try apply runs_fail.
  unfold PushProcessor.handle_push_in_syn_received, PushProcessor.handle_push_in_established,
    PushProcessor.handle_push_in_validating_path, PushProcessor.handle_push_in_fin_wait,
    PushProcessor.handle_push_in_closing. solve_runs.
Qed.

Lemma keeps_connection frame src t : keeps (ConnectionProcessor.process_frame env frame src t).
Proof.
  unfold_connection; unfold ConnectionProcessor.handle_syn_frame,
    ConnectionProcessor.handle_syn_ack_frame, ConnectionProcessor.handle_fin_frame,
    ConnectionProcessor.handle_fin_in_syn_received, ConnectionProcessor.handle_fin_in_established,
    ConnectionProcessor.handle_fin_in_validating_path, ConnectionProcessor.handle_fin_in_fin_wait,
    ConnectionProcessor.handle_fin_in_closing, receive_fin_and_ack, transition_state, cancel_connection_timeout.
  solve_keeps.
Qed.

Lemma calm_path frame src t : runs calm (PathProcessor.process_frame env frame src t : Op unit).
Proof.
  unfold_path. apply runs_bind; [apply runs_get|intros e].
  unfold PathProcessor.handle_path_challenge_frame, PathProcessor.handle_path_response_frame,
    PathProcessor.handle_path_validation_response, complete_path_validation, context_new, send_path_response,
    send_frame_to. simpl.
  destruct frame; try apply runs_fail.
  - destruct (Lifecycle.clone _); try apply runs_ret; solve_runs.
  - destruct (current_state e); simpl; solve_runs.
Qed.

Lemma keeps_ack frame src t : keeps (AckProcessor.process_frame env frame src t).
Proof.
  unfold_ack. destruct frame; try apply keeps_fail.
  apply keeps_bind; [apply keeps_runs, runs_get|intros e].
  destruct (connection_state _); apply keeps_ret || apply keeps_process_ack.
Qed.

Lemma keeps_dispatch frame src : keeps (dispatch_frame env frame src).
Proof.
  unfold dispatch_frame, route_frame. apply keeps_bind; [apply keeps_runs; solve_runs|intros t].
  apply keeps_bind; [apply keeps_runs; solve_runs|intros _].
  apply keeps_bind; [apply keeps_check_path_migration|intros _].
  destruct (from_frame frame) as [[]|]; try apply keeps_ret; try apply keeps_fail;
    apply keeps_bind; intros; try (destruct frame; simpl; apply keeps_ret || apply keeps_fail).
  - apply keeps_runs, calm_push.
  - apply keeps_ack.
  - apply keeps_connection.
  - apply keeps_runs, calm_path.
Qed.

Lemma keeps_dispatch_more t more : keeps (dispatch_more env t more).
Proof.
  induction more as [|[f a] more IH]; simpl; [apply keeps_ret|].
  apply keeps_bind; [apply keeps_runs; solve_runs|intros _]. apply keeps_bind; [apply keeps_dispatch|done].
Qed.

(** *** Timeouts *)

Lemma keeps_check_all_timeouts t : keeps (check_all_timeouts env t).
Proof.
  unfold check_all_timeouts. apply keeps_bind; [apply keeps_runs; solve_runs|intros timer_events].
  intros accepted. apply hoare_get. intros e.
  apply hoare_bind with (Q := fun fs => sender_ok accepted fs 0).
  - case_match; [|by apply hoare_value]. apply hoare_get. intros e1. apply hoare_reliability_op with (P := fun fs => fs).
    intros items rl Hs _. destruct (ReliabilityLayer.check_retransmissions _ _ _) as [rl' fs] eqn:E.
    apply (check_retransmissions_sends items accepted) in E as [H1 H2]; [|done]. exists [].
    by rewrite !app_nil_r.
  - intros fs. apply hoare_bind with (Q := fun _ => sender_ok accepted [] 0).
    + assert (H : forall events, hoare (sender_ok accepted fs 0) (handle_unified_timeout_events_impl env events fs)
        (fun _ => sender_ok accepted [] 0) (sender_ok accepted [] 0)).
      { intros events. unfold handle_unified_timeout_events_impl.
        apply hoare_bind with (Q := fun _ => sender_ok accepted fs 0);
          [by apply hoare_runs, calm_connection_events|intros _].
        destruct fs as [|f fs]; [apply hoare_ret|by apply hoare_send_frames]. }
      repeat case_match; try apply H. by apply hoare_value.
    + intros _. apply hoare_bind with (Q := fun _ => sender_ok accepted [] 0); [apply hoare_runs; [done|solve_runs]|].
      intros t2. apply hoare_runs; [done|solve_runs].
Qed.

(** *** Commands *)

(** The bytes a command offers. *)
Definition offered (cmd : Commands.StreamCommand SocketAddr) : list byte :=
  match cmd with Commands.SendData data => data | _ => [] end.

Lemma hoare_write accepted data :
  hoare (sender_ok accepted [] 0) (reliability_op (fun rl => ReliabilityLayer.write_to_stream rl data))
    (fun n => sender_ok (accepted ++ take (Z.to_nat n) data) [] 0) (sender_ok accepted [] 0).
Proof.
  intros w w' r (items & H1 & H2 & H3 & H4). unfold reliability_op.
  destruct (ReliabilityLayer.write_to_stream _ _) as [rl' n] eqn:E. intros [= <- <-].
  exists items. split_and!; try done. by eapply write_sends.
Qed.

Lemma hoare_zero_rtt accepted cid window t start config peer local max :
  hoare (sender_ok accepted [] 0)
    (reliability_try (fun rl => ReliabilityLayer.packetize_zero_rtt_stream_data rl cid window t start
      (create_syn_ack_frame config peer local) max))
    (fun groups => sender_ok accepted (concat groups) 0) (sender_ok accepted [] 0).
Proof.
  apply hoare_reliability_try with (P := fun groups => concat groups). intros items rl rl' groups Hs _ E.
  apply (zero_rtt_sends items accepted) in E as (new & H1 & H2 & H3); [|done..].
  exists new. split_and!; [done|by apply Forall_concat|done].
Qed.

(** The invariant after [data] was offered: some of it was accepted. *)
Definition took accepted (data : list byte) w : Prop :=
  exists n, sender_ok (accepted ++ take n data) [] 0 w.

Lemma took_nothing accepted data w : sender_ok accepted [] 0 w -> took accepted data w.
Proof. intros H. exists 0%nat. by rewrite take_0, app_nil_r. Qed.

Lemma keeps_took {A} accepted data (m : Op A) :
  keeps m -> hoare (took accepted data) m (fun _ => took accepted data) (took accepted data).
Proof. intros Hm w w' r [n Hn] E. pose proof (Hm _ w w' r Hn E). destruct r; by exists n. Qed.

Lemma keeps_takes_nothing {A} accepted data (m : Op A) :
  keeps m -> hoare (sender_ok accepted [] 0) m (fun _ => took accepted data) (took accepted data).
Proof. intros Hm w w' r HP E. pose proof (Hm _ w w' r HP E). destruct r; by apply took_nothing. Qed.

Lemma hoare_write_took accepted data :
  hoare (sender_ok accepted [] 0) (reliability_op (fun rl => ReliabilityLayer.write_to_stream rl data))
    (fun _ => took accepted data) (took accepted data).
Proof.
  intros w w' r HP E. pose proof (hoare_write accepted data w w' r HP E) as H.
  destruct r as [n|]; [by exists (Z.to_nat n)|by apply took_nothing].
Qed.

Lemma keeps_send_zero_rtt cid window (start : Instant) config peer local max :
  keeps (await t := Endpoint.now env in
    await groups := reliability_try (fun rl => ReliabilityLayer.packetize_zero_rtt_stream_data rl cid window t start
      (create_syn_ack_frame config peer local) max) in
    send_zero_rtt_packets env groups).
Proof.
  intros accepted. apply hoare_bind with (Q := fun _ => sender_ok accepted [] 0); [apply hoare_runs; [done|solve_runs]|].
  intros t. eapply hoare_bind; [apply hoare_zero_rtt|intros groups]. by apply hoare_send_zero_rtt.
Qed.

(** Of the bytes a command offers, some are accepted. *)
Lemma command_takes cmd accepted :
  hoare (sender_ok accepted [] 0) (Commands.handle_stream_command env cmd)
    (fun _ => took accepted (offered cmd)) (took accepted (offered cmd)).
Proof.
  destruct cmd as [data| |addr notifier]; cbn [Commands.handle_stream_command offered].
  - apply hoare_get. intros e. case_match.
    + apply hoare_bind with (Q := fun _ => sender_ok accepted [] 0).
      { assert (Hk : keeps (transition_state Lifecycle.Established)) by (unfold transition_state; solve_keeps).
        intros w w' r HP E. pose proof (Hk accepted w w' r HP E). destruct r; [done|by apply took_nothing]. }
      intros _. eapply hoare_bind; [apply hoare_write_took|intros n]. cbn beta. apply hoare_get. intros e1.
      apply keeps_took, keeps_send_zero_rtt.
    + eapply hoare_bind; [apply hoare_write_took|intros n]. by apply hoare_value.
  - apply keeps_takes_nothing. apply keeps_bind; [|intros _].
    + unfold Commands.shutdown, Commands.if_ok, Commands.cleanup_if_closed, transition_state, begin_graceful_shutdown.
      solve_keeps.
    + solve_keeps.
  - apply keeps_takes_nothing. intros accepted'.
    eapply hoare_bind; [apply hoare_rand|intros data]. cbn beta.
    apply hoare_bind with (Q := fun _ => sender_ok accepted' [] 1).
    + apply hoare_runs; [done|]. unfold start_path_validation. solve_runs.
    + intros []; [|apply hoare_value; intros w; by apply sender_ok_weaken].
      eapply hoare_bind; [apply (hoare_challenge_number accepted' 0)|intros seq]. cbn beta. apply hoare_get. intros e.
      eapply hoare_bind; [apply hoare_now|intros t]. apply hoare_send_challenge.
Qed.


(** *** The loop *)

(** [accepted] consists of a piece from the front of each of the offers. *)
Fixpoint takes (offers : list (list byte)) (accepted : list byte) : Prop :=
  match offers with
  | [] => accepted = []
  | data :: offers => exists n rest, accepted = take n data ++ rest /\ takes offers rest
  end.

Lemma takes_app ds ds' a a' : takes ds a -> takes ds' a' -> takes (ds ++ ds') (a ++ a').
Proof.
  revert a. induction ds as [|d ds IH]; simpl; intros a; [by intros ->|].
  intros (n & rest & -> & H) H'. exists n, (rest ++ a'). rewrite app_assoc. auto.
Qed.

Lemma takes_nothing ds : takes ds [].
Proof. induction ds as [|d ds IH]; simpl; [done|]. by exists 0%nat, []. Qed.

Lemma takes_bound ds a : takes ds a -> len a <= len (concat ds).
Proof.
  revert a. induction ds as [|d ds IH]; simpl; intros a; [by intros ->|].
  intros (n & rest & -> & H%IH). rewrite !len_app. unfold len in *. rewrite length_take. lia.
Qed.

Definition progress accepted (ds : list (list byte)) w : Prop :=
  exists more, takes ds more /\ sender_ok (accepted ++ more) [] 0 w.

Lemma progress_more accepted more ds ds' w :
  takes ds more -> progress (accepted ++ more) ds' w -> progress accepted (ds ++ ds') w.
Proof. intros H (m & H1 & H2). exists (more ++ m). rewrite app_assoc. split; [by apply takes_app|done]. Qed.

Lemma progress_start accepted ds w : sender_ok accepted [] 0 w -> progress accepted ds w.
Proof. intros H. exists []. rewrite app_nil_r. split; [apply takes_nothing|done]. Qed.

Definition offers {A} (ds : list (list byte)) (m : Op A) : Prop :=
  forall accepted, hoare (sender_ok accepted [] 0) m (fun _ => progress accepted ds) (progress accepted ds).

Lemma keeps_offers {A} (m : Op A) : keeps m -> offers [] m.
Proof. intros H accepted w w' r HP E. pose proof (H accepted w w' r HP E). by destruct r; apply progress_start. Qed.

Lemma offers_bind {A B} ds ds' (m : Op A) (f : A -> Op B) :
  offers ds m -> (forall a, offers ds' (f a)) -> offers (ds ++ ds') (bind m f).
Proof.
  intros Hm Hf accepted w w' r HP [(err & E & ->)|(w1 & a & E1 & E2)]%run_bind_inv.
  - destruct (Hm accepted _ _ _ HP E) as (more & H1 & H2).
    eapply progress_more; [done|]. by apply progress_start.
  - destruct (Hm accepted _ _ _ HP E1) as (more & H1 & H2). pose proof (Hf a _ _ _ _ H2 E2).
    destruct r; by eapply progress_more.
Qed.

Lemma offers_attempt {A} ds (m : Op A) : offers ds m -> offers ds (attempt m).
Proof. intros Hm accepted. apply hoare_attempt, Hm. Qed.

Lemma offers_command cmd : offers [offered cmd] (Commands.handle_stream_command env cmd).
Proof.
  intros accepted w w' r HP E. pose proof (command_takes cmd accepted w w' r HP E) as H.
  assert (Ht : took accepted (offered cmd) w' -> progress accepted [offered cmd] w').
  { intros [n Hn]. exists (take n (offered cmd)). split; [|done]. exists n, []. by rewrite app_nil_r. }
  destruct r; auto.
Qed.

Lemma offers_commands cmds : offers (map offered cmds) (dispatch_commands env cmds).
Proof.
  induction cmds as [|cmd cmds IH]; cbn [dispatch_commands map]; [apply keeps_offers, keeps_ret|].
  change (offered cmd :: map offered cmds) with ([offered cmd] ++ map offered cmds).
  apply offers_bind; [apply offers_command|done].
Qed.

Lemma keeps_follow_up : keeps (follow_up env).
Proof.
  unfold follow_up, deliver_received, fin_transition, packetize_if_open, close_stream_after_fin, should_close,
    transition_state. solve_keeps.
Qed.

(** What the user offers in an event. *)
Definition event_offers (ev : event SocketAddr) : list (list byte) :=
  match ev with CommandsArrived first more => map offered (first :: more) | _ => [] end.

Lemma offers_iteration ev : offers (event_offers ev) (iteration env ev).
Proof.
  unfold iteration. change (event_offers ev) with ([] ++ event_offers ev). apply offers_bind.
  { apply keeps_offers. unfold calculate_next_wakeup_time. solve_keeps. }
  intros _. rewrite <- (app_nil_r (event_offers ev)). apply offers_bind.
  - destruct ev as [first more|first more|fired|]; cbn [handle_event event_offers].
    + apply keeps_offers. apply keeps_bind; [apply keeps_runs; solve_runs|intros t].
      apply keeps_bind; [apply keeps_dispatch_more|intros; apply keeps_ret].
    + rewrite <- (app_nil_r (map _ _)). apply offers_bind; [apply offers_commands|].
      intros. apply keeps_offers, keeps_ret.
    + apply keeps_offers. apply keeps_bind; [apply keeps_runs; solve_runs|intros _].
      apply keeps_bind; [apply keeps_runs; solve_runs|intros t].
      apply keeps_bind; [apply keeps_check_all_timeouts|intros; apply keeps_ret].
    + apply keeps_offers, keeps_ret.
  - intros []; apply keeps_offers; [apply keeps_follow_up|apply keeps_ret].
Qed.

Lemma offers_run_loop events : offers (flat_map event_offers events) (run_loop env events).
Proof.
  induction events as [|ev events IH]; cbn [run_loop flat_map]; [apply keeps_offers, keeps_ret|].
  apply offers_bind; [apply offers_iteration|]. intros []; [|done].
  intros accepted. apply hoare_value. intros w. apply progress_start.
Qed.

(** A run of the sender. *)
Lemma offers_run events : offers (flat_map event_offers events) (run env events).
Proof.
  unfold run. rewrite <- (app_nil_r (flat_map _ _)). change (flat_map event_offers events ++ []) with ([] ++ (flat_map event_offers events ++ [])).
  apply offers_bind; [apply keeps_offers, keeps_runs, runs_get|intros e]. apply offers_bind.
  - apply offers_attempt. change (flat_map event_offers events) with ([] ++ flat_map event_offers events).
    apply offers_bind; [|intros _; apply offers_run_loop]. apply keeps_offers.
    case_match; [apply keeps_send_initial_syn|apply keeps_ret].
  - intros r. apply keeps_offers. solve_keeps.
Qed.

(** *** A fresh endpoint *)

Lemma new_endpoint_ok cfg addr local peer rl initial_state accepted :
  sends [] accepted rl -> sender_ok accepted [] 0 (new_endpoint env cfg addr local peer rl initial_state).
Proof.
  intros Hs. unfold new_endpoint. destruct (Lifecycle.initialize _ _ _ _) as [[r manager] effs].
  exists []. split_and!; [done|done| |]; simpl; [|unfold len, bytes_of; simpl; lia].
  by rewrite frames_in_lifecycle.
Qed.

Lemma new_client_ok cfg addr local cc data w r :
  ReliabilityLayer.payload_limit_ok cfg -> new_client env cfg addr local cc data = Done (w, r) ->
  progress [] [default [] data] w.
Proof.
  intros Hc E. unfold new_client in E.
  match type of E with ?m ?w0 = _ => assert (Hk : keeps m) by (unfold register_idle_timeout; solve_keeps);
    assert (Hw : exists accepted, takes [default [] data] accepted /\ sender_ok accepted [] 0 w0) end.
  { destruct data as [data|]; cbn [default].
    - destruct (ReliabilityLayer.write_to_stream _ data) as [rl n] eqn:Ew. exists (take (Z.to_nat n) data).
      split; [exists (Z.to_nat n), []; by rewrite app_nil_r|]. apply new_endpoint_ok.
      change (take (Z.to_nat n) data) with ([] ++ take (Z.to_nat n) data). eapply write_sends; [|exact Ew].
      by apply new_sends.
    - exists []. split; [by exists 0%nat, []|]. by apply new_endpoint_ok, new_sends. }
  destruct Hw as (accepted & Ht & Hs). exists accepted. split; [done|].
  pose proof (Hk accepted _ _ _ Hs E). by destruct r.
Qed.

Lemma new_server_ok cfg addr local peer cc w r :
  ReliabilityLayer.payload_limit_ok cfg -> new_server env cfg addr local peer cc = Done (w, r) ->
  sender_ok [] [] 0 w.
Proof.
  intros Hc E. unfold new_server in E.
  assert (Hk : keeps (register_idle_timeout env)) by (unfold register_idle_timeout; solve_keeps).
  pose proof (Hk [] _ _ _ (new_endpoint_ok cfg addr local peer _ Lifecycle.SynReceived [] (new_sends cfg cc Hc)) E).
  by destruct r.
Qed.

End endpoint.

End StreamSender.
