(* ===== verification/StreamReceiver.v ===== *)
(** * The byte stream: the receiving endpoint

    An endpoint to which only frames of one stream arrive hands over to its
    user exactly the payloads of the stream, in order and from the start. *)

From S2P Require Import Prelude BTreeMap Packet Config Frame SendBuffer RecvBuffer Rtt Congestion.
From S2P Require Import SackManager SimpleRetx Retransmission Packetizer Reliability Lifecycle UnifiedScheduler TimerTask.
From S2P Require Import TimingManager Endpoint Sender Handlers EventLoop.

Module StreamReceiver.
Import Endpoint Sender Operations FrameProcessingContext Processors EventLoop.
Open Scope endpoint_scope.

(** What was handed to the user's stream. *)
Definition to_user {SocketAddr} (l : list (effect SocketAddr)) : list (list byte) :=
  flat_map (fun eff => match eff with ToStream data => data | _ => [] end) l.

Section receiver.
Context {T : Type} `{CC : CongestionControl T} {SocketAddr : Type} `{!EqDecision SocketAddr}.
Variable env : Env.
Abbreviation Op := (M T SocketAddr).
Implicit Types (w : World T SocketAddr).

(** What each number of the stream carries. *)
Variable stream : Z -> option ReceiveBuffer.PacketOrFin.
Hypothesis stream_range : forall k p, stream k = Some p -> 0 <= k < u32_MAX.

Definition in_stream (f : Frame.Frame) : Prop :=
  match f with
  | Frame.Push h p => stream (ShortHeader.sequence_number h) = Some (ReceiveBuffer.Push p)
  | Frame.Fin h => stream (ShortHeader.sequence_number h) = Some ReceiveBuffer.Fin
  | _ => True
  end.

(** Steps that receive only packets of the stream and deliver nothing. *)
Definition arrives (k : kind) : Prop :=
  match k with
  | KReliability (RPush seq p) => stream seq = Some (ReceiveBuffer.Push p)
  | KReliability (RFin seq) => stream seq = Some ReceiveBuffer.Fin
  | KReliability RReassemble | KStream => False
  | _ => True
  end.

#[local] Hint Extern 0 (arrives _) => exact I : runs.
#[local] Hint Extern 1 (arrives _) => assumption : runs.

Definition recv w : ReceiveBuffer.ReceiveBuffer := ReliabilityLayer.recv_buffer (rel w.(ep)).

(** [delivered] are the payloads reassembled so far. *)
Record receiving (delivered : list (list byte)) w : Prop := {
  rcv_wf : ReceiveBuffer.wf (recv w);
  rcv_buffered : forall k p, ReceiveBuffer.received (recv w) !! k = Some p -> stream k = Some p;
  rcv_next : ReceiveBuffer.fin_reached (recv w) = false -> ReceiveBuffer.next_sequence (recv w) = len delivered;
  rcv_stream : forall i d, delivered !! i = Some d -> stream (Z.of_nat i) = Some (ReceiveBuffer.Push d);
  rcv_user : to_user w.(log) `prefix_of` delivered;
  rcv_open : w.(ep).(stream_open) = true -> to_user w.(log) = delivered;
}.

(** *** Steps *)

Lemma to_user_app (l l' : list (effect SocketAddr)) : to_user (l ++ l') = to_user l ++ to_user l'.
Proof. apply flat_map_app. Qed.

Lemma to_user_lifecycle (effs : list Lifecycle.effect) : to_user (SocketAddr := SocketAddr) (map LifecycleEffect effs) = [].
Proof. by induction effs. Qed.

(** The invariant looks at the buffer, the stream and what was handed over. *)
Lemma receiving_same delivered w w' :
  recv w' = recv w -> (w'.(ep).(stream_open) = true -> w.(ep).(stream_open) = true) ->
  to_user w'.(log) = to_user w.(log) -> receiving delivered w -> receiving delivered w'.
Proof. intros E1 E2 E3 []. constructor; rewrite ?E1, ?E3; auto. Qed.

Lemma sending_recv c rl (rl' : ReliabilityLayer.ReliabilityLayer T) :
  match c with RSend | RAck => True | _ => False end -> reliability_step c rl rl' ->
  ReliabilityLayer.recv_buffer rl' = ReliabilityLayer.recv_buffer rl.
Proof.
  intros Hc H. destruct H; try done.
  - unfold ReliabilityLayer.packetize_stream_data in H. destruct (Packetizer.packetize _ _ _ _) as [[? ?] ?].
    by injection H as <- _.
  - unfold ReliabilityLayer.packetize_zero_rtt_stream_data in H.
    destruct (Packetizer.packetize_zero_rtt _ _ _ _ _) as [[[? ?] ?]|]; [|done]. by injection H as <- _.
  - unfold ReliabilityLayer.handle_ack in H. destruct (RetransmissionManager.process_ack _ _ _ _ _) as [rm res].
    destruct (ReliabilityLayer.handle_samples _ _ _ _) as [[rtt cc]|]; [|done]. by injection H as <- _.
  - unfold ReliabilityLayer.check_retransmissions in H.
    destruct (RetransmissionManager.check_retransmission_timeouts _ _ _ _) as [rm [ev fs]]. injection H as <- _.
    unfold ReliabilityLayer.react_to_resend. by case_match.
  - unfold ReliabilityLayer.write_to_stream in H. destruct (SendBuffer.write_to_stream _ _). by injection H as <- _.
  - by injection H as <- _.
Qed.

(** A packet of the stream arrives. *)
Lemma receiving_packet delivered w rl' seq p :
  stream seq = Some p ->
  ReliabilityLayer.recv_buffer rl' = (ReceiveBuffer.receive_packet (recv w) seq p).1 ->
  receiving delivered w -> receiving delivered (set_ep w (with_reliability w.(ep) rl')).
Proof.
  intros Hs E [H1 H2 H3 H4 H5 H6]. pose proof (stream_range _ _ Hs) as Hr.
  assert (Er : recv (set_ep w (with_reliability w.(ep) rl')) = (ReceiveBuffer.receive_packet (recv w) seq p).1) by done.
  destruct (ReceiveBuffer.receive_packet_frame (recv w) seq p) as [En Ef].
  constructor; rewrite ?Er; try done.
  - apply ReceiveBuffer.receive_packet_wf; [done|]. unfold u32_ok, u32_MAX in *. lia.
  - intros k q [Hq|[-> ->]]%ReceiveBuffer.receive_packet_lookup; auto.
  - by rewrite En, Ef.
Qed.

Lemma prim_receiving delivered w k w' :
  arrives k -> prim w k w' -> receiving delivered w -> receiving delivered w'.
Proof.
  intros Hk Hp. destruct Hp; try done; try (apply receiving_same; simpl; rewrite ?to_user_app; simpl;
    rewrite ?app_nil_r, ?to_user_lifecycle, ?app_nil_r; done).
  - destruct c; try done; try (by apply receiving_same; [eapply sending_recv; [|exact H]|..]).
    + inversion H as [| | | |? ? ? b ? E| | | | | | |]; subst. eapply receiving_packet; [exact Hk|].
      unfold ReliabilityLayer.receive_push, ReceiveBuffer.receive_push in E. unfold recv.
      by destruct (ReceiveBuffer.receive_packet _ _ _) as [rb []]; injection E as <- _.
    + inversion H as [| | | | |? ? b ? E| | | | | |]; subst. eapply receiving_packet; [exact Hk|].
      unfold ReliabilityLayer.receive_fin, ReceiveBuffer.receive_fin in E. unfold recv.
      by destruct (ReceiveBuffer.receive_packet _ _ _) as [rb []]; injection E as <- _.
  - apply receiving_same; try done. simpl. rewrite to_user_app. by destruct old; simpl; rewrite app_nil_r.
  - apply receiving_same; try done. simpl. rewrite to_user_app. by destruct handle; simpl; rewrite app_nil_r.
Qed.

Lemma runs_receiving {A} delivered (m : Op A) w w' r :
  runs arrives m -> m w = Done (w', r) -> receiving delivered w -> receiving delivered w'.
Proof. intros Hm E. eapply steps_ind; [|eapply Hm, E]. intros w1 k w2. apply prim_receiving. Qed.

(** *** Delivery *)

(** The payloads that [reassemble] takes out of the buffer continue the
    delivered ones. *)
Lemma reassemble_receiving delivered w :
  receiving delivered w ->
  exists d rl fin, ReliabilityLayer.reassemble (rel w.(ep)) = (rl, (match d with [] => None | _ => Some d end, fin)) /\
    let rb := ReliabilityLayer.recv_buffer rl in
    ReceiveBuffer.wf rb /\ (forall k p, ReceiveBuffer.received rb !! k = Some p -> stream k = Some p) /\
    (ReceiveBuffer.fin_reached rb = false -> ReceiveBuffer.next_sequence rb = len (delivered ++ d)) /\
    (forall i x, (delivered ++ d) !! i = Some x -> stream (Z.of_nat i) = Some (ReceiveBuffer.Push x)).
Proof.
  intros [Hwf Hbuf Hnext Hstr _ _]. unfold ReliabilityLayer.reassemble, ReceiveBuffer.reassemble. fold (recv w).
  destruct (ReceiveBuffer.fin_reached (recv w)) eqn:Ef.
  { exists [], (ReliabilityLayer.with_recv (rel (ep w)) (recv w)), false. simpl. rewrite app_nil_r, Ef. by split_and!. }
  assert (Htop : ReceiveBuffer.received (recv w) !! u32_MAX = None).
  { destruct (_ !! u32_MAX) eqn:E; [|done]. apply Hbuf, stream_range in E. lia. }
  destruct (ReceiveBuffer.reassemble_loop_spec (size (ReceiveBuffer.received (recv w))) (recv w) [] Hwf Ef
    (Nat.le_refl _) Htop) as (d & rb & fin & -> & Hwf' & Hcont & _ & Hfin & Hspec).
  simpl app. exists d, (ReliabilityLayer.with_recv (rel (ep w)) rb), fin. split; [by destruct d|].
  specialize (Hnext eq_refl). rewrite Hnext in *. simpl. split_and!; [done| | |].
  - intros k p Hk. destruct fin; [by rewrite (ReceiveBuffer.wf_fin _ Hwf' Hfin), lookup_empty in Hk|].
    destruct Hspec as (Hn' & _ & Hsame). pose proof (ReceiveBuffer.wf_keys _ Hwf' _ _ Hk) as [Hge _].
    rewrite Hsame in Hk by lia. auto.
  - intros Hf. destruct fin; [congruence|]. destruct Hspec as (-> & _). by rewrite len_app.
  - intros i x [Hi|[Hge Hi]]%lookup_app_Some; [auto|]. specialize (Hcont _ _ Hi).
    apply Hbuf in Hcont. rewrite <- Hcont. f_equal. unfold len. lia.
Qed.

Lemma deliver_receiving delivered w w' r :
  deliver_received env w = Done (w', r) -> receiving delivered w -> exists d, receiving (delivered ++ d) w'.
Proof.
  intros E Hw. destruct (reassemble_receiving delivered w Hw) as (d & rl & fin & Er & H1 & H2 & H3 & H4).
  unfold deliver_received in E. rewrite bind_reliability_op, Er in E. exists d.
  set (w1 := set_ep w (with_reliability w.(ep) rl)) in E.
  assert (Hstart : forall w2, recv w2 = ReliabilityLayer.recv_buffer rl ->
    to_user w2.(log) `prefix_of` delivered ++ d ->
    (w2.(ep).(stream_open) = true -> to_user w2.(log) = delivered ++ d) -> receiving (delivered ++ d) w2).
  { intros w2 Eb Hp Ho. constructor; rewrite ?Eb; done. }
  destruct Hw as [_ _ _ _ Hpre Hopen].
  assert (Hpre' : to_user w.(log) `prefix_of` delivered ++ d) by by apply prefix_app_r.
  assert (E2 : exists w2, bind (match match d with [] => None | _ => Some d end with
      | Some ((_ :: _) as data) => send_to_stream env data | _ => ret tt end) (fun _ => ret fin) w2 = Done (w', r) /\
    recv w2 = ReliabilityLayer.recv_buffer rl /\ w2.(log) = w.(log) /\ w2.(ep).(stream_open) = w.(ep).(stream_open)).
  { destruct fin; unfold bind at 1 in E.
    - unfold set_fin_pending_eof in E. by eexists.
    - unfold ret in E at 1. by eexists. }
  clear E. destruct E2 as (w2 & E & Eb & El & Eo). destruct d as [|x d].
  - unfold bind, ret in E. injection E as <- _. apply Hstart; [done|by rewrite El|]. rewrite El, Eo, app_nil_r. done.
  - unfold bind, send_to_stream in E. destruct (stream_open w2.(ep)) eqn:Ew2.
    + rewrite <- Eo in Hopen. destruct (stream_ok env _); injection E as <- _; apply Hstart; simpl; try done.
      * rewrite to_user_app, El, Hopen by done. simpl. by rewrite app_nil_r.
      * intros _. rewrite to_user_app, El, Hopen by done. simpl. by rewrite app_nil_r.
      * by rewrite El.
    + injection E as <- _. apply Hstart; [done|by rewrite El|by rewrite Ew2].
Qed.

(** *** Frames that arrive *)

Lemma arrives_receive_data seq payload :
  stream seq = Some (ReceiveBuffer.Push payload) -> runs arrives (receive_data_and_maybe_ack env seq payload : Op unit).
Proof. intros H. unfold receive_data_and_maybe_ack. solve_runs. Qed.

Lemma arrives_push frame src t : in_stream frame -> runs arrives (PushProcessor.process_frame env frame src t : Op unit).
Proof.
  unfold PushProcessor.process_frame. destruct frame as [h p|h p|h|h|h|h|h d|h d]; intros Hf; try apply runs_fail.
  pose proof (arrives_receive_data _ _ Hf) as H. simpl in Hf.
  unfold PushProcessor.handle_push_in_syn_received, PushProcessor.handle_push_in_established,
    PushProcessor.handle_push_in_validating_path, PushProcessor.handle_push_in_fin_wait,
    PushProcessor.handle_push_in_closing. solve_runs.
Qed.

Lemma arrives_connection frame src t :
  in_stream frame -> runs arrives (ConnectionProcessor.process_frame env frame src t : Op unit).
Proof.
  unfold_connection. destruct frame as [h p|h p|h|h|h|h|h d|h d]; intros Hf; try apply runs_fail;
    simpl in Hf; unfold ConnectionProcessor.handle_syn_frame,
    ConnectionProcessor.handle_syn_ack_frame, ConnectionProcessor.handle_fin_frame,
    ConnectionProcessor.handle_fin_in_syn_received, ConnectionProcessor.handle_fin_in_established,
    ConnectionProcessor.handle_fin_in_validating_path, ConnectionProcessor.handle_fin_in_fin_wait,
    ConnectionProcessor.handle_fin_in_closing, receive_fin_and_ack, transition_state, cancel_connection_timeout.
  all: solve_runs.
Qed.

Lemma arrives_dispatch frame src : in_stream frame -> runs arrives (dispatch_frame env frame src : Op unit).
Proof.
  intros Hf. unfold dispatch_frame, route_frame. apply runs_bind; [solve_runs|intros t].
  apply runs_bind; [solve_runs|intros _]. apply runs_bind; [|intros _].
  { unfold check_path_migration, start_path_validation, send_frame_to. solve_runs. }
  destruct (from_frame frame) as [[]|]; try apply runs_ret; try apply runs_fail; apply runs_bind; intros;
    try (destruct frame; simpl; apply runs_ret || apply runs_fail).
  - by apply arrives_push.
  - unfold_ack. destruct frame; try apply runs_fail.
    unfold AckProcessor.process_ack_common, process_ack_and_get_retx_frames. solve_runs.
  - by apply arrives_connection.
  - unfold_path. apply runs_bind; [apply runs_get|intros e].
    unfold PathProcessor.handle_path_challenge_frame, PathProcessor.handle_path_response_frame,
      PathProcessor.handle_path_validation_response, complete_path_validation, context_new, send_path_response,
      send_frame_to. simpl.
    destruct frame; try apply runs_fail.
    + destruct (Lifecycle.clone _); try apply runs_ret; solve_runs.
    + destruct (current_state e); simpl; solve_runs.
Qed.

(** *** The loop *)

Lemma arrives_command cmd : runs arrives (Commands.handle_stream_command env cmd : Op unit).
Proof.
  unfold Commands.handle_stream_command, Commands.shutdown, Commands.if_ok, Commands.cleanup_if_closed,
    Commands.clear_in_flight_packets, transition_state, begin_graceful_shutdown, start_path_validation, send_frame_to.
  solve_runs.
Qed.

Lemma arrives_connection_events events : runs arrives (handle_connection_events env events : Op unit).
Proof.
  induction events as [|[] events IH]; simpl; [apply runs_ret| | |done|].
  - unfold force_close. solve_runs.
  - apply runs_bind; [|done]. unfold handle_path_validation_timeout, transition_state.
    apply runs_bind; [apply runs_get|intros e]. destruct (current_state e); simpl; solve_runs.
  - unfold force_close. solve_runs.
Qed.

Lemma arrives_check_all_timeouts t : runs arrives (check_all_timeouts env t : Op unit).
Proof.
  pose proof arrives_connection_events. unfold check_all_timeouts, handle_unified_timeout_events_impl. solve_runs.
Qed.

(** Only frames of the stream arrive. *)
Definition event_in_stream (ev : event SocketAddr) : Prop :=
  match ev with FramesArrived first more => Forall (fun x => in_stream x.1) (first :: more) | _ => True end.

Lemma arrives_handle_event ev : event_in_stream ev -> runs arrives (handle_event env ev : Op bool).
Proof.
  intros Hev. unfold handle_event. destruct ev as [first more|first more|fired|].
  - cbn [event_in_stream] in Hev. apply runs_bind; [solve_runs|intros t]. apply runs_bind; [|intros; apply runs_ret].
    induction Hev as [|[f a] l Hf _ IH]; simpl; [apply runs_ret|].
    apply runs_bind; [solve_runs|intros _]. apply runs_bind; [by apply arrives_dispatch|done].
  - apply runs_bind; [|intros; apply runs_ret]. generalize (first :: more). intros l.
    induction l as [|c l IH]; simpl; [apply runs_ret|]. apply runs_bind; [apply arrives_command|done].
  - apply runs_bind; [solve_runs|intros _]. apply runs_bind; [solve_runs|intros t].
    apply runs_bind; [apply arrives_check_all_timeouts|intros; apply runs_ret].
  - apply runs_ret.
Qed.

Definition delivers {A} (m : Op A) : Prop :=
  forall w w' r delivered, m w = Done (w', r) -> receiving delivered w -> exists d, receiving (delivered ++ d) w'.

Lemma delivers_runs {A} (m : Op A) : runs arrives m -> delivers m.
Proof. intros Hm w w' r delivered E Hw. exists []. rewrite app_nil_r. by eapply runs_receiving. Qed.

Lemma delivers_bind {A B} (m : Op A) (f : A -> Op B) :
  delivers m -> (forall a, delivers (f a)) -> delivers (bind m f).
Proof.
  intros Hm Hf w w' r delivered [(err & E & ->)|(w1 & a & E1 & E2)]%run_bind_inv Hw; [by eapply Hm|].
  destruct (Hm _ _ _ _ E1 Hw) as [d Hd]. destruct (Hf a _ _ _ _ E2 Hd) as [d' Hd'].
  exists (d ++ d'). by rewrite app_assoc.
Qed.

Lemma delivers_iteration ev : event_in_stream ev -> delivers (iteration env ev).
Proof.
  intros Hev. unfold iteration. apply delivers_bind.
  { apply delivers_runs. unfold calculate_next_wakeup_time. solve_runs. }
  intros _. apply delivers_bind; [by apply delivers_runs, arrives_handle_event|].
  intros []; [|apply delivers_runs, runs_ret]. unfold follow_up.
  apply delivers_bind; [intros w w' r delivered; apply deliver_receiving|]. intros fin. apply delivers_runs.
  unfold fin_transition, packetize_if_open, close_stream_after_fin, should_close, Commands.clear_in_flight_packets,
    transition_state. solve_runs.
Qed.

Lemma delivers_run events : Forall event_in_stream events -> delivers (run env events).
Proof.
  intros Hev. unfold run. apply delivers_bind; [apply delivers_runs, runs_get|intros e]. apply delivers_bind.
  - assert (Hm : forall (m : Op bool), delivers m -> delivers (attempt m)).
    { intros m Hm w w' r delivered. unfold attempt. destruct (m w) as [[w1 r1]|] eqn:E; [|done].
      intros [= <- <-]. by apply (Hm _ _ _ _ E). }
    apply Hm, delivers_bind; [apply delivers_runs; solve_runs|intros _].
    induction Hev as [|ev events Hev _ IH]; simpl; [apply delivers_runs, runs_ret|].
    apply delivers_bind; [by apply delivers_iteration|]. intros []; [apply delivers_runs, runs_ret|done].
  - intros r. apply delivers_runs. solve_runs.
Qed.

(** *** A fresh endpoint *)

Lemma new_endpoint_receiving cfg addr local peer rl initial_state cap :
  ReliabilityLayer.recv_buffer rl = ReceiveBuffer.new cap ->
  receiving [] (new_endpoint env cfg addr local peer rl initial_state).
Proof.
  intros Hb. unfold new_endpoint. destruct (Lifecycle.initialize _ _ _ _) as [[r manager] effs].
  constructor; unfold recv, rel, transport_new; simpl; rewrite ?Hb, ?to_user_lifecycle; done.
Qed.

End receiver.

End StreamReceiver.
