(* ===== verification/UserStream.v ===== *)
(** * The user's stream

    Models [src/core/stream.rs]: the handle through which the user reads and
    writes.  The channels are tokio's: the one from the endpoint is the queue
    of its messages and whether its sender is gone, of the one to the endpoint
    only the answer of [try_send] matters. *)

From S2P Require Import Prelude Frame Congestion Lifecycle Endpoint Handlers.

Module UserStream.

(** [Poll<T>] *)
Inductive Poll (A : Type) :=
| Ready (a : A)
| Pending.

Arguments Ready {A}.
Arguments Pending {A}.

Record Stream := { read_buffer : list (list byte) (* VecDeque<Bytes> *) }.

(** [rx_from_endpoint]: the messages queued, and whether the sender is gone. *)
Record Receiver := {
  messages : list (list (list byte));
  sender_gone : bool;
}.

Implicit Types (s : Stream) (rx : Receiver).

(** ** Operations *)

Definition new : Stream := {| read_buffer := [] |}.

(** The first part of the loop of [poll_read]: the bytes copied from the first
    chunk, if any. *)
Definition read_front (buffer : list (list byte)) (remaining : Z) : list (list byte) * list byte :=
  match buffer with
  | [] => ([], [])
  | current_chunk :: rest =>
    let n := Z.to_nat (Z.min (len current_chunk) remaining) in
    (match drop n current_chunk with [] => rest | chunk => chunk :: rest end, take n current_chunk)
  end.

(** [poll_read] with room for [remaining] bytes; every turn of the loop takes a
    message out of the channel.  [Ready []] is the end of the stream. *)
Fixpoint poll_loop (buffer : list (list byte)) (queue : list (list (list byte))) (gone : bool) (remaining : Z)
    : list (list byte) * list (list (list byte)) * Poll (list byte) :=
  match read_front buffer remaining with
  | (buffer, (_ :: _) as data) => (buffer, queue, Ready data)
  | (buffer, []) =>
    match queue with
    | data_vec :: queue => poll_loop (buffer ++ data_vec) queue gone remaining
    | [] => (buffer, [], if gone then Ready [] else Pending)
    end
  end.

Definition poll_read s rx (remaining : Z) : Stream * Receiver * Poll (list byte) :=
  let '(buffer, queue, result) := poll_loop s.(read_buffer) rx.(messages) rx.(sender_gone) remaining in
  ({| read_buffer := buffer |}, {| messages := queue; sender_gone := rx.(sender_gone) |}, result).

(** The answers of [try_send]. *)
Inductive try_send := Sent | Full | Closed.

Inductive IoError := BrokenPipe.

(** The answer, and the command that was sent. *)
Definition poll_write {SocketAddr} (buf : list byte) (answer : try_send)
    : Poll (Z + IoError) * list (Commands.StreamCommand SocketAddr) :=
  match answer with
  | Sent => (Ready (inl (len buf)), [Commands.SendData buf])
  | Full => (Pending, [])
  | Closed => (Ready (inr BrokenPipe), [])
  end.

Definition poll_flush : Poll (unit + IoError) := Ready (inl tt).

Definition poll_shutdown {SocketAddr} (answer : try_send)
    : Poll (unit + IoError) * list (Commands.StreamCommand SocketAddr) :=
  (Ready (inl tt), match answer with Sent => [Commands.Close] | _ => [] end).

(** [sent]: whether the command reached the endpoint; [reply]: what came back
    on the notifier, if it was used. *)
Definition migrate {SocketAddr} (addr : SocketAddr) (notifier : Lifecycle.Sender) (sent : bool)
    (reply : option (unit + Endpoint.Error)) : (unit + Endpoint.Error) * list (Commands.StreamCommand SocketAddr) :=
  if sent then
    (match reply with Some r => r | None => inr Endpoint.ChannelClosed end, [Commands.Migrate addr notifier])
  else (inr Endpoint.ChannelClosed, []).

(** ** Reading *)

(** The bytes that wait for the user. *)
Definition waiting s rx : list byte := concat s.(read_buffer) ++ concat (concat rx.(messages)).

Definition read_bytes (p : Poll (list byte)) : list byte := match p with Ready data => data | Pending => [] end.

Lemma read_front_spec buffer remaining :
  let '(buffer', data) := read_front buffer remaining in
  concat buffer = data ++ concat buffer' /\ len data <= Z.max 0 remaining.
Proof.
  destruct buffer as [|c rest]; [split; [done|unfold len; simpl; lia]|]. unfold read_front.
  set (n := Z.to_nat (Z.min (len c) remaining)). split.
  - rewrite <- (take_drop n c) at 1. simpl concat. rewrite <- app_assoc. f_equal. by destruct (drop n c).
  - unfold len in *. rewrite length_take. unfold n. lia.
Qed.

Lemma poll_loop_spec queue gone remaining : forall buffer,
  let '(buffer', queue', result) := poll_loop buffer queue gone remaining in
  concat buffer ++ concat (concat queue) = read_bytes result ++ concat buffer' ++ concat (concat queue') /\
  len (read_bytes result) <= Z.max 0 remaining /\
  (result = Pending -> gone = false /\ queue' = []) /\
  (result = Ready [] -> gone = true /\ queue' = []).
Proof.
  induction queue as [|m queue IH]; intros buffer; cbn [poll_loop];
    pose proof (read_front_spec buffer remaining) as Hf;
    destruct (read_front buffer remaining) as [buffer' [|x data]]; destruct Hf as [-> Hlen];
    try (split_and!; [by rewrite <- app_assoc|done|done|done]).
  - destruct gone; simpl; split_and!; try done; unfold len; simpl; lia.
  - specialize (IH (buffer' ++ m)). destruct (poll_loop _ _ _ _) as [[b q] r].
    destruct IH as [H1 H2]. split; [|done]. rewrite <- H1. simpl. by rewrite !concat_app, <- app_assoc.
Qed.

(** With room and without empty chunks, data that waits is handed over. *)
Definition chunks_ok (l : list (list byte)) : Prop := Forall (fun c => c <> []) l.

Lemma read_front_ok buffer remaining :
  chunks_ok buffer ->
  let '(buffer', data) := read_front buffer remaining in
  chunks_ok buffer' /\ (0 < remaining -> data = [] -> buffer = []).
Proof.
  intros Hb. destruct buffer as [|c rest]; [done|]. apply Forall_cons in Hb as [Hc Hb]. unfold read_front.
  set (n := Z.to_nat (Z.min (len c) remaining)). split.
  - destruct (drop n c) eqn:E; [done|by constructor].
  - intros Hr. destruct c as [|x c]; [done|].
    assert (Hn : (0 < n)%nat) by (unfold n; rewrite len_cons; pose proof (len_nonneg c); lia).
    by destruct n; [lia|].
Qed.

Lemma poll_loop_ok queue gone remaining : forall buffer,
  chunks_ok buffer -> chunks_ok (concat queue) ->
  let '(buffer', queue', result) := poll_loop buffer queue gone remaining in
  chunks_ok buffer' /\ chunks_ok (concat queue') /\
  (0 < remaining -> read_bytes result = [] -> buffer' = [] /\ queue' = []).
Proof.
  induction queue as [|m queue IH]; intros buffer Hb Hq; cbn [poll_loop];
    pose proof (read_front_ok buffer remaining Hb) as Hf;
    pose proof (read_front_spec buffer remaining) as Hs;
    destruct (read_front buffer remaining) as [buffer' [|x data]]; destruct Hf as [Hb' He]; try done.
  - split_and!; [done|done|]. intros Hr _. specialize (He Hr eq_refl) as ->. destruct Hs as [Hs _].
    split; [|done]. destruct Hb' as [|c l Hc _]; [done|]. by destruct c.
  - cbn [concat] in Hq. apply Forall_app in Hq as [Hm Hq]. apply IH; [|done]. by apply Forall_app.
Qed.

(** ** Runs *)

(** The endpoint hands over a message, or is gone; the user reads. *)
Inductive event :=
| Deliver (data : list (list byte))
| EndpointGone
| Read (remaining : Z).

Record reader := {
  stream : Stream;
  rx : Receiver;
  bytes_read : list byte;
  end_seen : bool;
}.

Definition start : reader :=
  {| stream := new; rx := {| messages := []; sender_gone := false |}; bytes_read := []; end_seen := false |}.

Definition step (r : reader) (ev : event) : reader :=
  match ev with
  | Deliver data =>
    if r.(rx).(sender_gone) then r else
    {| stream := r.(stream); rx := {| messages := r.(rx).(messages) ++ [data]; sender_gone := false |};
       bytes_read := r.(bytes_read); end_seen := r.(end_seen) |}
  | EndpointGone =>
    {| stream := r.(stream); rx := {| messages := r.(rx).(messages); sender_gone := true |};
       bytes_read := r.(bytes_read); end_seen := r.(end_seen) |}
  | Read remaining =>
    let '(s, rx, result) := poll_read r.(stream) r.(rx) remaining in
    {| stream := s; rx := rx; bytes_read := r.(bytes_read) ++ read_bytes result;
       end_seen := r.(end_seen) || (if result is Ready [] then 0 <? remaining else false) |}
  end.

Definition run (evs : list event) : reader := fold_left step evs start.

(** What the endpoint delivered before it was gone. *)
Fixpoint delivered (evs : list event) : list (list byte) :=
  match evs with
  | Deliver data :: evs => data ++ delivered evs
  | Read _ :: evs => delivered evs
  | EndpointGone :: _ | [] => []
  end.

Lemma read_conserves r remaining :
  let r' := step r (Read remaining) in
  r'.(bytes_read) ++ waiting r'.(stream) r'.(rx) = r.(bytes_read) ++ waiting r.(stream) r.(rx) /\
  r'.(rx).(sender_gone) = r.(rx).(sender_gone).
Proof.
  simpl. unfold poll_read. pose proof (poll_loop_spec (messages (rx r)) (sender_gone (rx r)) remaining
    (read_buffer (stream r))) as H.
  destruct (poll_loop _ _ _ _) as [[b q] p]. destruct H as [H _]. split; [|done].
  unfold waiting. simpl. by rewrite H, <- app_assoc.
Qed.

Lemma fold_conserves evs : forall r,
  let r' := fold_left step evs r in
  r'.(bytes_read) ++ waiting r'.(stream) r'.(rx) =
  r.(bytes_read) ++ waiting r.(stream) r.(rx) ++ (if r.(rx).(sender_gone) then [] else concat (delivered evs)).
Proof.
  induction evs as [|ev evs IH]; intros r; cbn [fold_left].
  - simpl. by destruct (sender_gone _); rewrite !app_nil_r.
  - cbv zeta in IH. rewrite IH. destruct ev as [data| |remaining].
    + simpl. destruct (sender_gone (rx r)) eqn:Eg; [by rewrite Eg|]. unfold waiting. simpl.
      by rewrite !concat_app, <- !app_assoc; simpl; rewrite app_nil_r.
    + simpl. unfold waiting. simpl. by destruct (sender_gone _).
    + pose proof (read_conserves r remaining) as [H1 H2]. cbv zeta in H1, H2. rewrite !app_assoc, H1, H2. done.
Qed.

Lemma reads_conserve evs :
  let r := run evs in concat (delivered evs) = r.(bytes_read) ++ waiting r.(stream) r.(rx).
Proof. intros r. unfold r, run. pose proof (fold_conserves evs start) as H. cbv zeta in H. by rewrite H. Qed.

(** Once the end was seen nothing waits. *)
Definition drained (r : reader) : Prop :=
  chunks_ok r.(stream).(read_buffer) /\ chunks_ok (concat r.(rx).(messages)) /\
  (r.(end_seen) = true -> r.(rx).(sender_gone) = true /\ waiting r.(stream) r.(rx) = []).

Lemma step_drained r ev :
  (match ev with Deliver data => chunks_ok data | _ => True end) -> drained r -> drained (step r ev).
Proof.
  intros Hev (H1 & H2 & H3). destruct ev as [data| |remaining]; simpl.
  - destruct (sender_gone (rx r)) eqn:Eg; [by split_and!; [..|rewrite Eg]|]. split_and!; [done| |].
    + simpl. rewrite concat_app. simpl. rewrite app_nil_r. by apply Forall_app.
    + intros He. apply H3 in He as [? _]. congruence.
  - split_and!; [done..|]. intros He. by apply H3 in He as [_ ?].
  - unfold poll_read.
    pose proof (poll_loop_spec (messages (rx r)) (sender_gone (rx r)) remaining (read_buffer (stream r))) as Hs.
    pose proof (poll_loop_ok (messages (rx r)) (sender_gone (rx r)) remaining (read_buffer (stream r)) H1 H2) as Ho.
    destruct (poll_loop _ _ _ _) as [[b q] p]. destruct Hs as (Hs & _ & _ & Hend), Ho as (Hb & Hq & He).
    split_and!; [done..|]. intros [Hseen|Hseen]%orb_true_iff.
    + apply H3 in Hseen as [Hg Hw]. split; [done|]. unfold waiting in *. simpl. rewrite Hw in Hs.
      by apply eq_sym, app_eq_nil in Hs as [_ ?].
    + destruct p as [[|]|]; try done. apply Z.ltb_lt in Hseen. destruct (Hend eq_refl) as [Hg _]. split; [done|].
      by destruct (He Hseen eq_refl) as [-> ->].
Qed.

Lemma run_drained evs :
  Forall (fun ev => match ev with Deliver data => chunks_ok data | _ => True end) evs -> drained (run evs).
Proof.
  intros Hevs. unfold run. assert (H : drained start) by (split_and!; by try constructor).
  revert H. generalize start. induction Hevs as [|ev evs Hev _ IH]; intros r Hr; [done|]. simpl.
  by apply IH, step_drained.
Qed.

(** ** Properties *)

(** The user reads a byte stream.  Whatever messages arrive and whenever he
    reads, with buffers of any size, he gets the bytes delivered, in order and
    each once, and those he has not got wait for him.  Without empty chunks,
    when a read into a buffer with room reports the end, the endpoint is gone
    and he has got everything. *)
Theorem reads_deliver evs :
  let r := run evs in
  concat (delivered evs) = r.(bytes_read) ++ waiting r.(stream) r.(rx) /\
  (Forall (fun ev => match ev with Deliver data => chunks_ok data | _ => True end) evs ->
   r.(end_seen) = true -> r.(bytes_read) = concat (delivered evs)).
Proof.
  intros r. pose proof (reads_conserve evs) as Hc. fold r in Hc. cbv zeta in Hc. split; [done|].
  intros Hevs Hend. destruct (run_drained evs Hevs) as (_ & _ & H). apply H in Hend as [_ Hw].
  fold r in Hw. by rewrite Hc, Hw, app_nil_r.
Qed.

Lemma reads_deliver_witness :
  let evs := [Deliver [[Byte.x61; Byte.x62]; [Byte.x63]]; Read 1; EndpointGone; Read 5; Read 5; Read 5] in
  let r := run evs in
  r.(end_seen) = true /\ concat (delivered evs) = r.(bytes_read) ++ waiting r.(stream) r.(rx) /\
  r.(bytes_read) = [Byte.x61; Byte.x62; Byte.x63].
Proof.
  intros evs r. split; [reflexivity|]. destruct (reads_deliver evs) as [H1 H2]. split; [exact H1|].
  apply H2; [|reflexivity]. by repeat constructor.
Defined.

(** An empty chunk at the front hides the data behind it: the read reports the
    end of the stream although bytes wait. *)
Lemma end_after_empty_chunk :
  let r := run [Deliver [[]; [Byte.x61]]; EndpointGone; Read 5] in
  r.(end_seen) = true /\ r.(bytes_read) = [] /\ waiting r.(stream) r.(rx) = [Byte.x61].
Proof. done. Qed.

(** ... and so does the read that takes them out of the channel. *)
Lemma empty_chunk_in_buffer :
  poll_read {| read_buffer := [[]; [Byte.x61]] |} {| messages := []; sender_gone := false |} 5 =
  ({| read_buffer := [[Byte.x61]] |}, {| messages := []; sender_gone := false |}, Pending).
Proof. done. Qed.

(** A read without room waits for data although some is there. *)
Lemma read_without_room :
  (poll_read {| read_buffer := [[Byte.x61]] |} {| messages := []; sender_gone := false |} 0).2 = Pending.
Proof. done. Qed.


End UserStream.
