(* ===== verification/EndToEnd.v ===== *)
(** * The byte stream, from one endpoint's user to the other's

    Two endpoints, each with its loop, its reliability layer and its timers,
    and a network that loses, duplicates, reorders and delays frames at will. *)

From S2P Require Import Prelude BTreeMap Packet Config Frame SendBuffer RecvBuffer Rtt Congestion.
From S2P Require Import SackManager SimpleRetx Retransmission Packetizer Reliability Lifecycle UnifiedScheduler TimerTask.
From S2P Require Import TimingManager Endpoint Sender Handlers EventLoop StreamSender StreamReceiver UserStream.

Module EndToEnd.
Import Endpoint EventLoop StreamSender StreamReceiver.

#[local] Hint Extern 0 (arrives _ _) => exact I : runs.

Section theorem.
Context {T : Type} `{CC : CongestionControl T} {SocketAddr : Type} `{!EqDecision SocketAddr}.
Implicit Types (w : World T SocketAddr) (env : Env).

(** A fresh endpoint, and what its user offered when it was made. *)
Inductive fresh env : list (list byte) -> World T SocketAddr -> Prop :=
| fresh_client cfg addr local cc data w :
    ReliabilityLayer.payload_limit_ok cfg -> new_client env cfg addr local cc data = Done (w, inl tt) ->
    fresh env [default [] data] w
| fresh_server cfg addr local peer cc w :
    ReliabilityLayer.payload_limit_ok cfg -> new_server env cfg addr local peer cc = Done (w, inl tt) ->
    fresh env [] w.

Lemma fresh_sends env offered w : fresh env offered w -> progress [] offered w.
Proof.
  destruct 1 as [cfg addr local cc data w Hc E|cfg addr local peer cc w Hc E].
  - by eapply new_client_ok.
  - exists []. split; [done|]. by eapply new_server_ok.
Qed.

(** An endpoint that expects any stream. *)
Definition expectant w : Prop :=
  forall stream, (forall k p, stream k = Some p -> 0 <= k < u32_MAX) -> receiving stream [] w.

Lemma new_client_expectant env cfg addr local cc data w :
  new_client env cfg addr local cc data = Done (w, inl tt) -> expectant w.
Proof.
  intros E stream Hs. unfold new_client in E.
  match type of E with ?m ?w0 = _ => eapply (runs_receiving stream Hs [] m w0); [|exact E|] end.
  - unfold register_idle_timeout. solve_runs.
  - apply new_endpoint_receiving with (cap := Config.recv_buffer_capacity_packets (Config.connection cfg)).
    destruct data as [data|]; [|done]. unfold ReliabilityLayer.write_to_stream. by destruct (SendBuffer.write_to_stream _ _).
Qed.

Lemma new_server_expectant env cfg addr local peer cc w :
  new_server env cfg addr local peer cc = Done (w, inl tt) -> expectant w.
Proof.
  intros E stream Hs. unfold new_server in E. eapply (runs_receiving stream Hs []); [|exact E|].
  - unfold register_idle_timeout. solve_runs.
  - by apply new_endpoint_receiving with (cap := Config.recv_buffer_capacity_packets (Config.connection cfg)).
Qed.

Lemma fresh_expectant env offered w : fresh env offered w -> expectant w.
Proof. destruct 1; [by eapply new_client_expectant|by eapply new_server_expectant]. Qed.

(** The frames that arrive in an event. *)
Definition arrived (ev : event SocketAddr) : list Frame.Frame :=
  match ev with FramesArrived first more => map fst (first :: more) | _ => [] end.

(** What the numbers of the sender stand for at the receiver. *)
Definition stream_of (items : list item) (k : Z) : option ReceiveBuffer.PacketOrFin :=
  if k <? 0 then None else mjoin (items !! Z.to_nat k).

Lemma stream_of_range items k p : len items < u32_MAX -> stream_of items k = Some p -> 0 <= k < u32_MAX.
Proof.
  unfold stream_of. destruct (Z.ltb_spec k 0); [done|]. intros Hl Hk.
  destruct (items !! Z.to_nat k) eqn:E; [|done]. apply lookup_lt_Some in E. unfold len, item in *. lia.
Qed.

Lemma used_stream items seq p :
  len items < u32_MAX -> used items seq (Some p) -> stream_of items seq = Some p.
Proof.
  intros Hl (i & Hi & ->). pose proof (lookup_lt_Some _ _ _ Hi) as Hlt. unfold len, u32_MAX in Hl.
  rewrite as_u32_id by (unfold u32_ok; lia). unfold stream_of. destruct (Z.ltb_spec (Z.of_nat i) 0); [lia|].
  rewrite Nat2Z.id. unfold item in *. by rewrite Hi.
Qed.

Lemma numbered_stream items f :
  len items < u32_MAX -> numbered items f -> in_stream (stream_of items) f.
Proof. intros Hl. destruct f; simpl; try done; by apply used_stream. Qed.

(** Delivered payloads are the first items. *)
Lemma delivered_prefix items delivered :
  (forall i d, delivered !! i = Some d -> stream_of items (Z.of_nat i) = Some (ReceiveBuffer.Push d)) ->
  concat delivered `prefix_of` bytes_of items.
Proof.
  intros H. assert (Hi : forall i d, delivered !! i = Some d -> items !! i = Some (push_item d)).
  { intros i d Hd%H. unfold stream_of in Hd. destruct (_ <? _); [done|]. rewrite Nat2Z.id in Hd.
    destruct (items !! i) as [[p|]|]; [|done..]. by injection Hd as ->. }
  clear H. revert items Hi. induction delivered as [|d delivered IH]; intros items Hi; [apply prefix_nil|].
  destruct items as [|it items]; [by specialize (Hi 0%nat d eq_refl)|].
  pose proof (Hi 0%nat d eq_refl) as [= ->]. unfold bytes_of. simpl. apply prefix_app.
  apply IH. intros i x Hx. apply (Hi (S i) x Hx).
Qed.

(** What the numbers of a sender's frames stand for. *)
Lemma sender_items env offered w events w' r :
  fresh env offered w -> run env events w = Done (w', r) ->
  let written := offered ++ flat_map event_offers events in
  len (concat written) + Z.of_nat w'.(reads) < u32_MAX ->
  exists accepted items, takes written accepted /\ len items < u32_MAX /\
    Forall (numbered items) (frames_in w'.(log)) /\ bytes_of items `prefix_of` accepted.
Proof.
  intros Hw Erun written Hlen.
  destruct (fresh_sends _ _ _ Hw) as (a & Ha & Hs).
  assert (Hp : progress a (flat_map event_offers events) w').
  { pose proof (offers_run env events a _ _ _ Hs Erun). by destruct r. }
  destruct Hp as (b & Hb & items & Hsend & _ & Hnum & Hbudget). exists (a ++ b), items.
  assert (Ht : takes written (a ++ b)) by by apply takes_app.
  pose proof (snd_bytes _ _ _ Hsend) as E. simpl in E. split_and!; [done| |done|rewrite E; by eexists].
  pose proof (takes_bound _ _ Ht) as H. rewrite E, len_app in H.
  pose proof (len_nonneg (SendBuffer.content (ReliabilityLayer.send_buffer (rel (ep w'))))). lia.
Qed.

(** A receiver that gets only the sender's PUSH and FIN frames has handed over
    the payloads of the sender's first numbers. *)
Lemma receiver_delivers env' items sent v events' v' r' :
  len items < u32_MAX -> Forall (numbered items) sent -> expectant v -> run env' events' v = Done (v', r') ->
  (forall f, f ∈ flat_map arrived events' -> carries_data f = true -> f ∈ sent) ->
  exists d, receiving (stream_of items) d v'.
Proof.
  intros Hitems Hnum Hv Erun' Harr.
  pose proof (fun k p => stream_of_range items k p Hitems) as Hrange.
  assert (Hev : Forall (event_in_stream (stream_of items)) events').
  2: { destruct (delivers_run env' (stream_of items) Hrange events' Hev _ _ _ _ Erun' (Hv _ Hrange)) as [d Hd]. eauto. }
  apply Forall_forall. intros ev Hev. destruct ev as [first more| | |]; try done. cbn [event_in_stream].
  apply Forall_forall. intros x Hx. destruct (carries_data x.1) eqn:Ec; [|by destruct (x.1)].
  apply numbered_stream; [done|]. apply (proj1 (Forall_forall _ _) Hnum), Harr; [|done].
  apply list_elem_of_In, in_flat_map. exists (FramesArrived first more).
  split; [by apply list_elem_of_In|]. simpl. apply (in_map fst (first :: more)). by apply list_elem_of_In.
Qed.

(** What a sender's user wrote, for every such receiver. *)
Lemma stream_received env offered w events w' r :
  fresh env offered w -> run env events w = Done (w', r) ->
  let written := offered ++ flat_map event_offers events in
  len (concat written) + Z.of_nat w'.(reads) < u32_MAX ->
  exists accepted, takes written accepted /\
    forall env' v events' v' r', expectant v -> run env' events' v = Done (v', r') ->
      (forall f, f ∈ flat_map arrived events' -> carries_data f = true -> f ∈ frames_in w'.(log)) ->
      forall reads, UserStream.delivered reads `prefix_of` to_user v'.(log) ->
        (UserStream.run reads).(UserStream.bytes_read) `prefix_of` accepted.
Proof.
  intros Hw Erun written Hlen.
  destruct (sender_items env offered w events w' r Hw Erun Hlen) as (accepted & items & Ht & Hitems & Hnum & Hbytes).
  exists accepted. split; [done|]. intros env' v events' v' r' Hv Erun' Harr.
  destruct (receiver_delivers env' items _ v events' v' r' Hitems Hnum Hv Erun' Harr) as [d Hd].
  intros reads [later Hreads].
  pose proof (UserStream.reads_conserve reads) as Hc. cbv zeta in Hc.
  trans (concat (to_user v'.(log))); [rewrite Hreads, concat_app, Hc, <- app_assoc; by eexists|].
  etrans; [|exact Hbytes]. etrans; [|by apply delivered_prefix; apply (rcv_stream _ _ _ Hd)].
  destruct (rcv_user _ _ _ Hd) as [rest ->]. rewrite concat_app. by apply prefix_app_r.
Qed.

(** C2: the byte stream, from user to user.  Two fresh endpoints run on any
    events; the sender may receive anything, the receiver any PUSH and FIN
    frames that the sender sent, however lost, repeated, reordered or delayed,
    and anything else.  Then the bytes the receiver's user reads are a prefix of
    the bytes accepted from the sender's user, which are made of a piece from
    the front of each piece of data he wrote.  The bound keeps the
    sequence numbers from wrapping: each is used for a byte at least or for a
    FIN or challenge, which cost a reading of the environment. *)
Theorem stream_end_to_end env offered w events w' r env' offered' v events' v' r' :
  fresh env offered w -> run env events w = Done (w', r) ->
  fresh env' offered' v -> run env' events' v = Done (v', r') ->
  (forall f, f ∈ flat_map arrived events' -> carries_data f = true -> f ∈ frames_in w'.(log)) ->
  let written := offered ++ flat_map event_offers events in
  len (concat written) + Z.of_nat w'.(reads) < u32_MAX ->
  exists accepted, takes written accepted /\
    forall reads, UserStream.delivered reads `prefix_of` to_user v'.(log) ->
      (UserStream.run reads).(UserStream.bytes_read) `prefix_of` accepted.
Proof.
  intros Hw Erun Hv Erun' Harr written Hlen.
  destruct (stream_received env offered w events w' r Hw Erun Hlen) as (accepted & Ht & Hall).
  exists accepted. split; [done|]. eapply Hall; [by eapply fresh_expectant|done..].
Qed.

(** C30: a path challenge breaks the stream.  It takes a number of the stream;
    nothing is ever sent under that number again, so whatever arrives of a sender that
    has sent a challenge, in whatever order, retransmissions included, no
    receiver hands over more pieces of data than there are numbers below the
    challenge's. *)
Theorem path_challenge_blocks_stream env offered w events w' r env' offered' v events' v' r' h data :
  fresh env offered w -> run env events w = Done (w', r) ->
  fresh env' offered' v -> run env' events' v = Done (v', r') ->
  (forall f, f ∈ flat_map arrived events' -> carries_data f = true -> f ∈ frames_in w'.(log)) ->
  len (concat (offered ++ flat_map event_offers events)) + Z.of_nat w'.(reads) < u32_MAX ->
  Frame.PathChallenge h data ∈ frames_in w'.(log) ->
  len (to_user v'.(log)) <= ShortHeader.sequence_number h.
Proof.
  intros Hw Erun Hv Erun' Harr Hlen Hch.
  destruct (sender_items env offered w events w' r Hw Erun Hlen) as (accepted & items & Ht & Hitems & Hnum & Hbytes).
  destruct (receiver_delivers env' items _ v events' v' r' Hitems Hnum (fresh_expectant _ _ _ Hv) Erun' Harr) as [d Hd].
  destruct (proj1 (Forall_forall _ _) Hnum _ Hch) as (i & Hi & ->).
  pose proof (lookup_lt_Some _ _ _ Hi) as Hlt. unfold item, len, u32_MAX in *.
  rewrite as_u32_id by (unfold u32_ok; lia).
  destruct (rcv_user _ _ _ Hd) as [rest E]. destruct (Z.le_gt_cases (Z.of_nat (length (to_user v'.(log)))) (Z.of_nat i)) as [|Hgt];
    [done|exfalso].
  destruct (lookup_lt_is_Some_2 d i) as [p Hp]; [rewrite E, length_app; lia|].
  pose proof (rcv_stream _ _ _ Hd i p Hp) as Hs. unfold stream_of in Hs.
  destruct (Z.ltb_spec (Z.of_nat i) 0); [done|]. rewrite Nat2Z.id in Hs. unfold item in *. by rewrite Hi in Hs.
Qed.

End theorem.

(** A client that writes before and after the handshake, and a server that
    gets all its frames, the last one first and twice. *)
Definition example_client : World Vegas.Vegas Z :=
  match new_client example_env Config.default 100 7 (Vegas.new Config.default) (Some [Byte.x61; Byte.x62]) with
  | Done (w, _) => w
  | Panic => example_server
  end.

Definition example_writes : list (event Z) :=
  [FramesArrived (Frame.new_syn_ack 1 9 7, 100) [];
   CommandsArrived (Commands.SendData [Byte.x63]) [Commands.SendData [Byte.x64; Byte.x65]];
   CommandsArrived Commands.Close []].

Definition example_sent : list Frame.Frame :=
  frames_in (after example_client (run example_env example_writes)).(log).

Definition reordered (sent : list Frame.Frame) : list (event Z) :=
  match rev sent with
  | [] => []
  | f :: fs => [FramesArrived (f, 100) [(f, 100)]; Wakeup []; FramesArrived (f, 100) (map (fun f => (f, 100)) fs)]
  end.

Lemma reordered_sent sent f : f ∈ flat_map arrived (reordered sent) -> f ∈ sent.
Proof.
  unfold reordered. rewrite <- (rev_involutive sent) at 2. generalize (rev sent). intros [|g fs]; [done|].
  simpl. rewrite app_nil_r, map_map. simpl. rewrite map_id, !elem_of_cons, elem_of_app, list_elem_of_singleton.
  rewrite (list_elem_of_In (rev fs)), <- in_rev, <- list_elem_of_In. tauto.
Qed.

Definition example_arrivals : list (event Z) := reordered example_sent.

Definition example_reader : World Vegas.Vegas Z :=
  match new_server example_env Config.default 100 9 7 (Vegas.new Config.default) with
  | Done (w, _) => w
  | Panic => example_server
  end.

Lemma stream_end_to_end_witness :
  let v' := after example_reader (run example_env example_arrivals) in
  concat (to_user v'.(log)) = [Byte.x61; Byte.x62; Byte.x63; Byte.x64; Byte.x65] /\
  exists accepted, takes [[Byte.x61; Byte.x62]; [Byte.x63]; [Byte.x64; Byte.x65]; []] accepted /\
    forall reads, UserStream.delivered reads `prefix_of` to_user v'.(log) ->
      (UserStream.run reads).(UserStream.bytes_read) `prefix_of` accepted.
Proof.
  intros v'. split; [vm_compute; reflexivity|].
  assert (Hw : fresh example_env [[Byte.x61; Byte.x62]] example_client).
  { apply (fresh_client example_env Config.default 100 7 (Vegas.new Config.default) (Some [Byte.x61; Byte.x62]));
      [by_decide|reflexivity]. }
  assert (Hv : fresh example_env [] example_reader).
  { apply (fresh_server example_env Config.default 100 9 7 (Vegas.new Config.default)); [by_decide|reflexivity]. }
  assert (Ev : run example_env example_arrivals example_reader = Done (v', inl false)) by (vm_compute; reflexivity).
  set (w' := after example_client (run example_env example_writes)).
  assert (Ew : exists r, run example_env example_writes example_client = Done (w', r)).
  { exists (inl false). vm_compute. reflexivity. }
  destruct Ew as [r Ew].
  assert (Hin : forall f, f ∈ flat_map arrived example_arrivals -> f ∈ frames_in w'.(log)).
  { exact (reordered_sent example_sent). }
  assert (Hlen : len (concat ([[Byte.x61; Byte.x62]] ++ flat_map event_offers example_writes)) + Z.of_nat w'.(reads) <
    u32_MAX) by (vm_compute; reflexivity).
  clearbody v' w'.
  exact (stream_end_to_end example_env [[Byte.x61; Byte.x62]] example_client example_writes w' r
    example_env [] example_reader example_arrivals v' (inl false) Hw Ew Hv Ev (fun f Hf _ => Hin f Hf) Hlen).
Defined.

(** A client that migrates between two writes, and a server that gets every
    frame it sent, once and in order: what was written after the migration is
    sent and never handed over. *)
Definition example_migration : list (event Z) :=
  [FramesArrived (Frame.new_syn_ack 1 9 7, 100) []; CommandsArrived (Commands.Migrate 200 0) [];
   FramesArrived (Frame.new_path_response 7 0 0 56, 200) []; CommandsArrived (Commands.SendData [Byte.x63]) []].

Definition migrated_client : World Vegas.Vegas Z := after example_client (run example_env example_migration).

Definition one_by_one (sent : list Frame.Frame) : list (event Z) := map (fun f => FramesArrived (f, 100) []) sent.

Lemma one_by_one_sent sent f : f ∈ flat_map arrived (one_by_one sent) -> f ∈ sent.
Proof. induction sent as [|g sent IH]; simpl; [done|]. rewrite !elem_of_cons. tauto. Qed.

Definition migrated_arrivals : list (event Z) := one_by_one (frames_in migrated_client.(log)).

Definition migrated_challenge : ShortHeader.ShortHeader :=
  match frames_in migrated_client.(log) !! 2%nat with
  | Some (Frame.PathChallenge h _) => h
  | _ => ShortHeader.Build_ShortHeader Command.Push 0 0 0 0 0 0
  end.

Lemma path_challenge_blocks_stream_witness :
  let v' := after example_reader (run example_env migrated_arrivals) in
  flat_map (fun f => match f with Frame.Push _ p => p | _ => [] end) (frames_in migrated_client.(log)) =
    [Byte.x61; Byte.x62; Byte.x63] /\
  to_user v'.(log) = [[Byte.x61; Byte.x62]] /\
  len (to_user v'.(log)) <= ShortHeader.sequence_number migrated_challenge.
Proof.
  intros v'. split; [vm_compute; reflexivity|]. split; [vm_compute; reflexivity|].
  assert (Hw : fresh example_env [[Byte.x61; Byte.x62]] example_client).
  { apply (fresh_client example_env Config.default 100 7 (Vegas.new Config.default) (Some [Byte.x61; Byte.x62]));
      [by_decide|reflexivity]. }
  assert (Hv : fresh example_env [] example_reader).
  { apply (fresh_server example_env Config.default 100 9 7 (Vegas.new Config.default)); [by_decide|reflexivity]. }
  assert (Ev : run example_env migrated_arrivals example_reader = Done (v', inl false)) by (vm_compute; reflexivity).
  assert (Ew : run example_env example_migration example_client = Done (migrated_client, inl false)) by (vm_compute; reflexivity).
  assert (Hin : forall f, f ∈ flat_map arrived migrated_arrivals -> f ∈ frames_in migrated_client.(log)).
  { exact (one_by_one_sent (frames_in migrated_client.(log))). }
  assert (Hlen : len (concat ([[Byte.x61; Byte.x62]] ++ flat_map event_offers example_migration)) +
    Z.of_nat migrated_client.(reads) < u32_MAX) by (vm_compute; reflexivity).
  assert (Hch : frames_in migrated_client.(log) !! 2%nat = Some (Frame.PathChallenge migrated_challenge 56))
    by (vm_compute; reflexivity).
  apply list_elem_of_lookup_2 in Hch. clearbody v'.
  exact (path_challenge_blocks_stream example_env [[Byte.x61; Byte.x62]] example_client example_migration migrated_client
    (inl false) example_env [] example_reader migrated_arrivals v' (inl false) migrated_challenge 56
    Hw Ew Hv Ev (fun f Hf _ => Hin f Hf) Hlen Hch).
Defined.

End EndToEnd.
