(* ===== verification/Delivery.v ===== *)
(** * Delivery

    The counterpart of the safety of the byte stream: what arrives without a
    gap is handed over, at once.  A server endpoint whose channels are open and
    to which data of one stream arrives, in any order and any number of times,
    keeps running, and after every turn of its loop its user has got all
    payloads up to the first missing number. *)

From S2P Require Import Prelude BTreeMap Packet Config Frame SendBuffer RecvBuffer Rtt Congestion.
From S2P Require Import SackManager SimpleRetx Retransmission Packetizer Reliability Lifecycle UnifiedScheduler TimerTask.
From S2P Require Import TimingManager Endpoint Sender Handlers EventLoop EndpointFacts EndpointFrames StreamSender StreamReceiver UserStream.
From S2P Require Import EndToEnd.

Module Delivery.
Import Endpoint Sender Operations Processors EventLoop StreamSender StreamReceiver.
Open Scope endpoint_scope.

Section receiver.
Context {T : Type} `{CC : CongestionControl T} {SocketAddr : Type} `{!EqDecision SocketAddr}.
Variable env : Env.
Abbreviation Op := (M T SocketAddr).
Implicit Types (w : World T SocketAddr) (e : Endpoint T SocketAddr).

(** ** Total correctness

    From [P] the operation returns a value, and then [Q] holds. *)

Definition returns {A} (P : World T SocketAddr -> Prop) (m : Op A) (Q : A -> World T SocketAddr -> Prop) : Prop :=
  forall w, P w -> exists w' a, m w = Done (w', inl a) /\ Q a w'.

Lemma returns_bind {A B} P (m : Op A) R (f : A -> Op B) Q :
  returns P m R -> (forall a, returns (R a) (f a) Q) -> returns P (bind m f) Q.
Proof.
  intros Hm Hf w Hw. destruct (Hm w Hw) as (w1 & a & E1 & H1). destruct (Hf a w1 H1) as (w2 & b & E2 & H2).
  exists w2, b. split; [|done]. unfold bind. by rewrite E1.
Qed.

Lemma returns_ret {A} (P : World T SocketAddr -> Prop) (a : A) : returns P (ret a) (fun b w => b = a /\ P w).
Proof. intros w Hw. by exists w, a. Qed.

Lemma returns_post {A} P (m : Op A) Q (Q' : A -> World T SocketAddr -> Prop) :
  (forall a w, Q a w -> Q' a w) -> returns P m Q -> returns P m Q'.
Proof. intros HQ Hm w Hw. destruct (Hm w Hw) as (w' & a & E & H). eauto. Qed.

(** An invariant of the steps of an operation that cannot fail. *)
Lemma returns_runs {A} (K : kind -> Prop) (P : World T SocketAddr -> Prop) (m : Op A) :
  (forall w k w', K k -> prim w k w' -> P w -> P w') -> runs K m ->
  (forall w, P w -> exists w' a, m w = Done (w', inl a)) -> returns P m (fun _ => P).
Proof.
  intros HK Hm Ht w Hw. destruct (Ht w Hw) as (w' & a & E). exists w', a. split; [done|].
  eapply steps_ind; [exact HK|by eapply Hm|done].
Qed.

(** ** A receiver between two events *)

Variable stream : Z -> option ReceiveBuffer.PacketOrFin.
Hypothesis stream_range : forall k p, stream k = Some p -> 0 <= k < u32_MAX.
Variable peer : SocketAddr.

Definition data_state (s : Lifecycle.ConnectionState SocketAddr) : Prop :=
  s = Lifecycle.SynReceived \/ s = Lifecycle.Established.

(** [got]: the numbers that have arrived; [handed]: the payloads handed over. *)
Record ready (got : Z -> Prop) (handed : list (list byte)) w : Prop := {
  rd_receiving : receiving stream handed w;
  rd_state : data_state (current_state w.(ep));
  rd_peer : remote_addr_of w.(ep) = peer;
  rd_open : w.(ep).(stream_open) = true;
  rd_eof : w.(ep).(timing).(TimingManager.fin_pending_eof) = false;
  rd_live : ReceiveBuffer.fin_reached (recv w) = false;
  rd_data : forall k p, ReceiveBuffer.received (recv w) !! k = Some p -> exists x, p = ReceiveBuffer.Push x;
  rd_got : forall k, got k -> k < ReceiveBuffer.next_sequence (recv w) \/ is_Some (ReceiveBuffer.received (recv w) !! k);
}.

(** Steps that leave all this alone. *)
Definition aside (k : kind) : Prop :=
  match k with KClock | KReliability RSend | KReliability RAck | KSend _ => True | _ => False end.

#[local] Hint Extern 0 (aside _) => exact I : runs.

Lemma aside_ready got handed w k w' : aside k -> prim w k w' -> ready got handed w -> ready got handed w'.
Proof.
  intros Hk Hp Hw. pose proof (rd_receiving _ _ _ Hw) as Hr.
  assert (Hr' : receiving stream handed w').
  { eapply prim_receiving; [exact stream_range| |exact Hp|exact Hr]. by destruct k as [| |[]| | | | | | | | | |]. }
  destruct Hp; try done; destruct Hw; try (by constructor).
  assert (E : recv (set_ep w (with_reliability w.(ep) rl)) = recv w).
  { destruct c; try done; by eapply sending_recv; [|exact H]. }
  constructor; rewrite ?E; done.
Qed.

Hypothesis open : forall n, env.(channel_ok) n = true.
Hypothesis user_open : forall n, env.(stream_ok) n = true.

Lemma send_batch_total addr fs w : exists w', send_batch env addr fs w = Done (w', inl tt).
Proof. unfold send_batch. rewrite open. by eexists. Qed.

Lemma send_frames_total fs w : exists w', send_frames env fs w = Done (w', inl tt).
Proof.
  rewrite send_frames_split. destruct (send_multiple_spec env (split_packets (max_packet_size_of w.(ep)) fs) w)
    as (n & w' & r & -> & _ & _ & Hr).
  { destruct (split_from_spec (max_packet_size_of w.(ep)) fs [] (or_introl eq_refl)) as (_ & H2 & _).
    eapply Forall_impl; [exact H2|]. by intros g [? _]. }
  destruct Hr as [[-> _]|(_ & _ & Hf)]; [by exists w'|]. by rewrite open in Hf.
Qed.

Lemma send_ack_total w : exists w', send_standalone_ack env w = Done (w', inl tt).
Proof.
  unfold send_standalone_ack. run. case_match; [by exists w|]. run. unfold send_raw_frames. run. apply send_batch_total.
Qed.

Lemma aside_returns {A} got handed (m : Op A) :
  runs aside m -> (forall w, ready got handed w -> exists w' a, m w = Done (w', inl a)) ->
  returns (ready got handed) m (fun _ => ready got handed).
Proof. intros Hm. apply returns_runs with aside; [|done]. intros w k w'. apply aside_ready. Qed.

(** ** A PUSH arrives *)

Lemma ready_timing got handed w t :
  ready got handed w ->
  ready got handed (set_ep w (with_timing w.(ep) (TimingManager.update_last_recv_time w.(ep).(timing) t))).
Proof. intros []. constructor; try done. by apply receiving_same with w. Qed.

Lemma receive_push_ready got handed seq p w :
  stream seq = Some (ReceiveBuffer.Push p) -> ready got handed w ->
  ready (fun k => got k \/ k = seq) handed
    (set_ep w (with_reliability w.(ep) (ReliabilityLayer.receive_push (rel w.(ep)) seq p).1)).
Proof.
  intros Hs [H1 H2 H3 H4 H5 H6 H7 H8].
  assert (E : ReliabilityLayer.recv_buffer (ReliabilityLayer.receive_push (rel w.(ep)) seq p).1 =
    (ReceiveBuffer.receive_packet (recv w) seq (ReceiveBuffer.Push p)).1).
  { unfold ReliabilityLayer.receive_push, ReceiveBuffer.receive_push, recv.
    by destruct (ReceiveBuffer.receive_packet _ _ _) as [rb []]. }
  set (rl := (ReliabilityLayer.receive_push _ _ _).1) in *.
  assert (Er : recv (set_ep w (with_reliability w.(ep) rl)) =
    (ReceiveBuffer.receive_packet (recv w) seq (ReceiveBuffer.Push p)).1) by done.
  destruct (ReceiveBuffer.receive_packet_frame (recv w) seq (ReceiveBuffer.Push p)) as [En Ef].
  constructor; try done; rewrite ?Er.
  - by eapply receiving_packet.
  - by rewrite Ef.
  - intros k q [Hq|[_ ->]]%ReceiveBuffer.receive_packet_lookup; [by eapply H7|by eexists].
  - rewrite En. unfold ReceiveBuffer.receive_packet. rewrite H6. cbn [orb].
    destruct (Z.ltb_spec seq (ReceiveBuffer.next_sequence (recv w))) as [Hlt|Hge]; cbn [fst].
    { intros k [Hk| ->]; [by apply H8|by left]. }
    destruct (ReceiveBuffer.received (recv w) !! seq) as [q|] eqn:Eq; cbn [fst].
    { intros k [Hk| ->]; [by apply H8|right; by eexists]. }
    simpl. intros k [Hk| ->]; [|right; rewrite lookup_insert_eq; by eexists].
    destruct (H8 k Hk) as [Hl|Hl]; [by left|right]. rewrite lookup_insert_is_Some'. by right.
Qed.

Lemma dispatch_push_ready got handed h p :
  stream (ShortHeader.sequence_number h) = Some (ReceiveBuffer.Push p) ->
  returns (ready got handed) (Processors.dispatch_frame env (Frame.Push h p) peer)
    (fun _ => ready (fun k => got k \/ k = ShortHeader.sequence_number h) handed).
Proof.
  intros Hs w Hw. unfold Processors.dispatch_frame. rewrite bind_now.
  assert (Hw0 : ready got handed (ticked w)) by (eapply (aside_ready _ _ w KClock); [done|constructor|done]).
  rewrite EndpointFrames.route_frame_direct by (left; symmetry; apply Hw).
  apply ready_timing with (t := clock env (reads w)) in Hw0. set (w0 := set_ep (ticked w) _) in *.
  pose proof (receive_push_ready _ _ _ p _ Hs Hw0) as Hw1.
  unfold PushProcessor.process_frame. rewrite bind_get. unfold FrameProcessingContext.context_new.
  cbn [FrameProcessingContext.connection_state]. change (current_state w0.(ep)) with (current_state w.(ep)).
  destruct (rd_state _ _ _ Hw) as [-> | ->]; cbn [Lifecycle.clone];
    unfold PushProcessor.handle_push_in_syn_received, PushProcessor.handle_push_in_established, receive_data_and_maybe_ack;
    rewrite bind_reliability_op; destruct (ReliabilityLayer.receive_push _ _ _) as [rl accepted]; cbn [fst] in Hw1.
  - by eexists _, tt.
  - destruct accepted; [|by eexists _, tt].
    apply (aside_returns _ _ (send_standalone_ack env)); [|intros w2 _; destruct (send_ack_total w2); eauto|exact Hw1].
    apply runs_send_standalone_ack; done.
Qed.

Lemma ready_weaken (got got' : Z -> Prop) handed w :
  (forall k, got' k -> got k) -> ready got handed w -> ready got' handed w.
Proof. intros H []. constructor; auto. Qed.

Definition number (f : Frame.Frame) : Z :=
  match f with Frame.Push h _ => ShortHeader.sequence_number h | _ => 0 end.

(** A PUSH of the stream, from the peer. *)
Definition data_frame (x : Frame.Frame * SocketAddr) : Prop :=
  match x.1 with
  | Frame.Push h p => stream (ShortHeader.sequence_number h) = Some (ReceiveBuffer.Push p)
  | _ => False
  end /\ x.2 = peer.

Lemma dispatch_more_ready t more : Forall data_frame more -> forall got handed,
  returns (ready got handed) (dispatch_more env t more)
    (fun _ => ready (fun k => got k \/ k ∈ map (fun x => number x.1) more) handed).
Proof.
  induction 1 as [|[f a] more [Hf Ha] _ IH]; intros got handed; cbn [dispatch_more].
  - intros w Hw. exists w, tt. split; [done|]. eapply ready_weaken; [|exact Hw]. intros k [Hk|Hk%elem_of_nil]; done.
  - destruct f as [h p| | | | | | |]; try done. cbn [fst snd] in Hf, Ha. subst a.
    apply returns_bind with (fun _ => ready got handed).
    { intros w Hw. exists (set_ep w (with_timing w.(ep) (TimingManager.update_last_recv_time w.(ep).(timing) t))), tt.
      split; [done|]. by apply ready_timing. }
    intros u0. eapply returns_bind; [by apply dispatch_push_ready|]. intros u2. cbn beta.
    eapply returns_post; [|apply IH]. intros u1 w. apply ready_weaken. intros k. cbn [map number fst].
    rewrite elem_of_cons. tauto.
Qed.

(** ** The reaction to it *)

(** Nothing that could be handed over is held back. *)
Definition caught_up (got : Z -> Prop) (handed : list (list byte)) : Prop :=
  forall k, (forall i, 0 <= i < k -> got i) -> k <= len handed.

Lemma reassemble_ready got handed w : ready got handed w ->
  exists d rl, ReliabilityLayer.reassemble (rel w.(ep)) = (rl, (match d with [] => None | _ => Some d end, false)) /\
    let rb := ReliabilityLayer.recv_buffer rl in
    ReceiveBuffer.fin_reached rb = false /\
    (forall k p, ReceiveBuffer.received rb !! k = Some p -> exists x, p = ReceiveBuffer.Push x) /\
    (forall k, got k -> k < ReceiveBuffer.next_sequence rb \/ is_Some (ReceiveBuffer.received rb !! k)) /\
    ReceiveBuffer.received rb !! ReceiveBuffer.next_sequence rb = None /\
    ReceiveBuffer.next_sequence rb = len (handed ++ d).
Proof.
  intros [[Hwf Hbuf Hnext _ _ _] _ _ _ _ Hlive Hdata Hgot]. unfold ReliabilityLayer.reassemble, ReceiveBuffer.reassemble.
  fold (recv w). rewrite Hlive.
  assert (Htop : ReceiveBuffer.received (recv w) !! u32_MAX = None).
  { destruct (_ !! u32_MAX) eqn:E; [|done]. apply Hbuf, stream_range in E. lia. }
  destruct (ReceiveBuffer.reassemble_loop_spec (size (ReceiveBuffer.received (recv w))) (recv w) [] Hwf Hlive
    (Nat.le_refl _) Htop) as (d & rb & fin & -> & Hwf' & _ & _ & Hfin & Hspec).
  destruct fin; [by apply Hdata in Hspec as [x ?]|]. destruct Hspec as (Hn & Hnone & Hsame). simpl app.
  exists d, (ReliabilityLayer.with_recv (rel (ep w)) rb). split; [by destruct d|]. simpl.
  assert (Hkeep : forall k p, ReceiveBuffer.received rb !! k = Some p -> ReceiveBuffer.received (recv w) !! k = Some p).
  { intros k p Hk. pose proof (ReceiveBuffer.wf_keys _ Hwf' _ _ Hk) as [Hge _]. rewrite <- Hsame; [done|lia]. }
  split_and!; [done|by eauto| | |].
  - intros k [Hk|Hk]%Hgot; [left; pose proof (len_nonneg d); rewrite Hn; lia|].
    destruct (Z.lt_ge_cases k (ReceiveBuffer.next_sequence rb)) as [|Hge]; [by left|right]. rewrite Hsame; [done|lia].
  - by rewrite Hn, Hsame by lia.
  - by rewrite Hn, len_app, Hnext.
Qed.

Lemma deliver_ready got handed w : ready got handed w ->
  exists w' d, deliver_received env w = Done (w', inl false) /\ ready got (handed ++ d) w' /\ caught_up got (handed ++ d).
Proof.
  intros Hw. destruct (reassemble_ready got handed w Hw) as (d & rl & Er & H1 & H2 & H3 & H4 & H5).
  pose proof Hw as [Hr Hst Hp Ho Heof _ _ _].
  assert (Hd : exists w', deliver_received env w = Done (w', inl false) /\ recv w' = ReliabilityLayer.recv_buffer rl /\
    w'.(ep).(lifecycle_manager) = w.(ep).(lifecycle_manager) /\ w'.(ep).(identity) = w.(ep).(identity) /\
    w'.(ep).(stream_open) = true /\ w'.(ep).(timing) = w.(ep).(timing) /\ to_user w'.(log) = to_user w.(log) ++ d).
  { unfold deliver_received. rewrite bind_reliability_op, Er. unfold bind at 1, ret at 1.
    destruct d as [|x d]; [eexists; split; [done|]; split_and!; try done; by rewrite app_nil_r|].
    unfold bind, send_to_stream. cbn [ep stream_open set_ep with_reliability with_transport]. rewrite Ho, user_open.
    eexists. split; [done|]. split_and!; try done. simpl. rewrite to_user_app. simpl. by rewrite app_nil_r. }
  destruct Hd as (w' & E & Eb & El & Ei & Eo & Et & Eu).
  destruct (deliver_receiving env stream stream_range handed w w' _ E Hr) as [d' Hr'].
  assert (d' = d) as ->.
  { pose proof (rcv_open _ _ _ Hr' Eo) as Hu. rewrite Eu, (rcv_open _ _ _ Hr Ho) in Hu. by apply app_inv_head in Hu. }
  exists w', d. split; [done|]. split.
  - constructor; rewrite ?Eb; try done.
    + unfold current_state. by rewrite El.
    + unfold remote_addr_of. by rewrite Ei.
    + by rewrite Et.
  - intros k Hk. destruct (Z.le_gt_cases k (len (handed ++ d))) as [|Hgt]; [done|]. exfalso.
    pose proof (len_nonneg (handed ++ d)). destruct (H3 (len (handed ++ d))) as [Hlt|Hs]; [apply Hk; lia|lia|].
    rewrite <- H5, H4 in Hs. by destruct Hs.
Qed.

#[local] Hint Extern 0 (aside _) => exact I : runs.

Lemma packetize_ready got handed : returns (ready got handed) (packetize_if_open env) (fun _ => ready got handed).
Proof.
  apply aside_returns; [unfold packetize_if_open; solve_runs|]. intros w Hw. unfold packetize_if_open. rewrite bind_get.
  destruct (rd_state _ _ _ Hw) as [E|E]; rewrite E; cbn [Lifecycle.eq orb]; [by eexists _, tt|].
  unfold packetize_and_send. run. cbn [ep ticked].
  destruct (ReliabilityLayer.packetize_stream_data _ _ _ _ _ _) as [rl fs]. rewrite bind_get.
  match goal with |- context [current_state (ep ?w1)] => change (current_state (ep w1)) with (current_state (ep w)) end.
  rewrite E. cbn [Lifecycle.eq andb]. unfold bind, ret. destruct (send_frames_total fs (set_ep (ticked w)
    (with_reliability (ep w) rl))) as [w' ->]. by eexists _, tt.
Qed.

Lemma follow_up_ready got handed w : ready got handed w ->
  exists w' d, follow_up env w = Done (w', inl false) /\ ready got (handed ++ d) w' /\ caught_up got (handed ++ d).
Proof.
  intros Hw. destruct (deliver_ready got handed w Hw) as (w1 & d & E1 & Hw1 & Hc).
  destruct (packetize_ready _ _ w1 Hw1) as (w2 & u & E2 & Hw2). exists w2, d. split; [|done].
  unfold follow_up. unfold bind at 1. rewrite E1. unfold bind at 1, ret at 1. unfold bind at 1. rewrite E2.
  unfold close_stream_after_fin. rewrite bind_bind, bind_get, (rd_eof _ _ _ Hw2). cbn [andb]. unfold bind at 1, ret at 1.
  unfold should_close. rewrite bind_get.
  by destruct (rd_state _ _ _ Hw2) as [E|E]; rewrite E; cbn [Lifecycle.eq orb andb]; unfold bind, get, ret; rewrite E.
Qed.

(** ** The loop *)

Definition data_event (ev : event SocketAddr) : Prop :=
  match ev with FramesArrived first more => Forall data_frame (first :: more) | _ => False end.

Definition numbers (ev : event SocketAddr) : list Z := map number (EndToEnd.arrived ev).

Lemma wakeup_ready got handed : returns (ready got handed) (calculate_next_wakeup_time env) (fun _ => ready got handed).
Proof.
  apply aside_returns; [unfold calculate_next_wakeup_time; solve_runs|]. intros w _.
  unfold calculate_next_wakeup_time. run. by eexists _, _.
Qed.

Lemma iteration_ready ev got handed w : data_event ev -> ready got handed w ->
  exists w' d, iteration env ev w = Done (w', inl false) /\
    ready (fun k => got k \/ k ∈ numbers ev) (handed ++ d) w' /\
    caught_up (fun k => got k \/ k ∈ numbers ev) (handed ++ d).
Proof.
  intros Hev Hw. destruct ev as [first more| | |]; try done. cbn [data_event] in Hev.
  destruct (wakeup_ready got handed w Hw) as (w1 & t & E1 & Hw1).
  assert (Hw2 : ready got handed (ticked w1)) by (eapply (aside_ready _ _ w1 KClock); [done|constructor|done]).
  destruct (dispatch_more_ready (clock env (reads w1)) _ Hev got handed _ Hw2) as (w3 & u & E3 & Hw3).
  destruct (follow_up_ready _ _ w3 Hw3) as (w4 & d & E4 & Hw4 & Hc).
  assert (En : map (fun x => number x.1) (first :: more) = numbers (FramesArrived first more))
    by (unfold numbers, EndToEnd.arrived; by rewrite map_map).
  rewrite En in *. exists w4, d. split; [|done]. unfold iteration. unfold bind at 1. rewrite E1.
  cbn [handle_event]. rewrite bind_bind, bind_now, bind_bind. unfold bind at 1. by rewrite E3.
Qed.

Lemma run_loop_app events more w w1 :
  run_loop env events w = Done (w1, inl false) -> run_loop env (events ++ more) w = run_loop env more w1.
Proof.
  revert w. induction events as [|ev events IH]; intros w; cbn [run_loop app]; [by intros [= ->]|].
  unfold bind. destruct (iteration env ev w) as [[w2 [[]|]]|]; try done. apply IH.
Qed.

Lemma run_loop_ready events : Forall data_event events -> forall got handed w,
  ready got handed w -> caught_up got handed ->
  exists w' d, run_loop env events w = Done (w', inl false) /\
    ready (fun k => got k \/ k ∈ flat_map numbers events) (handed ++ d) w' /\
    caught_up (fun k => got k \/ k ∈ flat_map numbers events) (handed ++ d).
Proof.
  induction 1 as [|ev events Hev _ IH]; intros got handed w Hw Hc; cbn [run_loop].
  - exists w, []. rewrite app_nil_r. split; [done|]. split.
    + eapply ready_weaken; [|exact Hw]. intros k [Hk|Hk%elem_of_nil]; done.
    + intros k Hk. apply Hc. intros i Hi. by destruct (Hk i Hi) as [|?%elem_of_nil].
  - destruct (iteration_ready ev got handed w Hev Hw) as (w1 & d1 & E1 & Hw1 & Hc1).
    destruct (IH _ _ _ Hw1 Hc1) as (w2 & d2 & E2 & Hw2 & Hc2). exists w2, (d1 ++ d2). rewrite app_assoc.
    split; [unfold bind; rewrite E1; exact E2|].
    assert (Hiff : forall k, got k \/ k ∈ numbers ev ++ flat_map numbers events <->
      (got k \/ k ∈ numbers ev) \/ k ∈ flat_map numbers events) by (intros k; rewrite elem_of_app; tauto).
    cbn [flat_map]. split.
    + eapply ready_weaken; [|exact Hw2]. intros k. apply Hiff.
    + intros k Hk. apply Hc2. intros i Hi. by apply Hiff, Hk.
Qed.

End receiver.

(** ** A new server *)

Section server.
Context {T : Type} `{CC : CongestionControl T} {SocketAddr : Type} `{!EqDecision SocketAddr}.
Implicit Types (w v : World T SocketAddr) (env : Env).

Lemma new_server_ready env cfg addr local peer cc v stream :
  (forall k p, stream k = Some p -> 0 <= k < u32_MAX) ->
  new_server env cfg addr local peer cc = Done (v, inl tt) ->
  ready stream addr (fun _ => False) [] v /\ current_state v.(ep) = Lifecycle.SynReceived.
Proof.
  intros Hs E. pose proof (EndToEnd.new_server_expectant _ _ _ _ _ _ _ E stream Hs) as Hr.
  unfold new_server, register_idle_timeout, register_timer, new_endpoint in E.
  destruct (Lifecycle.initialize _ _ _ _) as [[r manager] effs] eqn:Ei.
  assert (Em : Lifecycle.current_state manager = Lifecycle.SynReceived).
  { unfold Lifecycle.initialize in Ei. by injection Ei as _ <- _. }
  rewrite bind_get in E. unfold bind at 1 in E. cbn [ep reads timing set_ep] in E.
  destruct (TimingManager.register_timer _ _ _) as [[t ok] old] eqn:Et.
  assert (Hf : TimingManager.fin_pending_eof t = false).
  { unfold TimingManager.register_timer in Et. repeat case_match; simplify_eq/=; done. }
  destruct ok; [|done]. injection E as <-. split; [|exact Em]. constructor; try done.
  left. exact Em.
Qed.

(** Data of a sender arrives from [addr]. *)
Definition brings (addr : SocketAddr) (sent : list Frame.Frame) (ev : event SocketAddr) : Prop :=
  match ev with
  | FramesArrived first more =>
    Forall (fun x => x.1 ∈ sent /\ match x.1 with Frame.Push _ _ => True | _ => False end /\ x.2 = addr) (first :: more)
  | _ => False
  end.

(** What the sender's numbers stand for, and the server when [events'] have
    brought some of them. *)
Lemma delivered_run env offered w events w' r env' cfg addr local peer cc v events' :
  EndToEnd.fresh env offered w -> run env events w = Done (w', r) ->
  new_server env' cfg addr local peer cc = Done (v, inl tt) ->
  (forall n, env'.(channel_ok) n = true) -> (forall n, env'.(stream_ok) n = true) ->
  Forall (brings addr (frames_in w'.(log))) events' ->
  let written := offered ++ flat_map event_offers events in
  len (concat written) + Z.of_nat w'.(reads) < u32_MAX ->
  exists accepted items v1 d, takes written accepted /\ len items < u32_MAX /\
    Forall (numbered items) (frames_in w'.(log)) /\ bytes_of items `prefix_of` accepted /\
    (forall more, run_loop env' more v1 = run_loop env' (events' ++ more) v) /\ current_state v.(ep) = Lifecycle.SynReceived /\
    ready (EndToEnd.stream_of items) addr (fun k => k ∈ flat_map numbers events') d v1 /\
    caught_up (fun k => k ∈ flat_map numbers events') d.
Proof.
  intros Hw Erun Ev Hopen Huser Hbr written Hlen.
  destruct (EndToEnd.sender_items env offered w events w' r Hw Erun Hlen) as (accepted & items & Ht & Hitems & Hnum & Hbytes).
  pose proof (fun k p => EndToEnd.stream_of_range items k p Hitems) as Hrange.
  assert (Hdata : Forall (data_event (EndToEnd.stream_of items) addr) events').
  { eapply Forall_impl; [exact Hbr|]. intros [first more| | |]; try done. cbn [brings data_event]. intros Hx.
    eapply Forall_impl; [exact Hx|]. intros [f a] (H1 & H2 & H3). simpl in *. split; [|exact H3]. simpl.
    destruct f; try done. apply EndToEnd.used_stream; [done|]. exact (proj1 (Forall_forall _ _) Hnum _ H1). }
  destruct (new_server_ready _ _ _ _ _ _ _ _ Hrange Ev) as [Hready Hsyn].
  destruct (run_loop_ready env' _ Hrange addr Hopen Huser events' Hdata _ _ _ Hready) as (v1 & d & El & Hr & Hc).
  { intros i Hi. destruct (Z.le_gt_cases i 0) as [|Hgt]; [done|]. by destruct (Hi 0); lia. }
  exists accepted, items, v1, d. split_and!; try done.
  - intros more. by rewrite (run_loop_app env' events' more v v1 El).
  - eapply ready_weaken; [|exact Hr]. intros i Hi. by right.
  - intros k Hk. apply Hc. intros i Hi. right. by apply Hk.
Qed.

(** The loop of a new server is its run, while it goes on. *)
Lemma run_server env events v v' :
  current_state v.(ep) = Lifecycle.SynReceived -> run_loop env events v = Done (v', inl false) ->
  run env events v = Done (v', inl false).
Proof. intros Hs E. unfold run. rewrite bind_get, Hs. cbn [Lifecycle.eq]. rewrite bind_attempt, bind_ret. by rewrite E. Qed.

(** C3: delivery.  A sender runs on any events; PUSH frames that it sent
    arrive at a new server whose channels are open, in any order, in any
    grouping and any number of times.  Then the server's loop keeps running,
    and as soon as the numbers below [k] are among what arrived, its user has
    been handed the payloads of all of them, each once and in order: the
    front of what the sender's user wrote. *)
Theorem stream_delivered env offered w events w' r env' cfg addr local peer cc v events' k :
  EndToEnd.fresh env offered w -> run env events w = Done (w', r) ->
  new_server env' cfg addr local peer cc = Done (v, inl tt) ->
  (forall n, env'.(channel_ok) n = true) -> (forall n, env'.(stream_ok) n = true) ->
  Forall (brings addr (frames_in w'.(log))) events' ->
  (forall i, 0 <= i < k -> i ∈ flat_map numbers events') ->
  let written := offered ++ flat_map event_offers events in
  len (concat written) + Z.of_nat w'.(reads) < u32_MAX ->
  exists accepted v', takes written accepted /\ run env' events' v = Done (v', inl false) /\
    let handed := to_user v'.(log) in
    k <= len handed /\ concat handed `prefix_of` accepted /\
    forall h p, Frame.Push h p ∈ frames_in w'.(log) -> ShortHeader.sequence_number h < len handed ->
      handed !! Z.to_nat (ShortHeader.sequence_number h) = Some p.
Proof.
  intros Hw Erun Ev Hopen Huser Hbr Hk written Hlen.
  destruct (delivered_run env offered w events w' r env' cfg addr local peer cc v events' Hw Erun Ev Hopen Huser Hbr Hlen)
    as (accepted & items & v' & d & Ht & Hitems & Hnum & Hbytes & El & Hsyn & Hr & Hc).
  exists accepted, v'. split; [done|]. split.
  { apply run_server; [done|]. rewrite <- (app_nil_r events'), <- El. done. }
  pose proof (rd_receiving _ _ _ _ _ Hr) as Hrec.
  pose proof (rcv_open _ _ _ Hrec (rd_open _ _ _ _ _ Hr)) as ->. split; [by apply Hc|split].
  - etrans; [|exact Hbytes]. apply EndToEnd.delivered_prefix. apply Hrec.
  - intros h p Hf Hlt. pose proof (EndToEnd.used_stream _ _ _ Hitems (proj1 (Forall_forall _ _) Hnum _ Hf)) as Hs.
    pose proof (EndToEnd.stream_of_range _ _ _ Hitems Hs) as [Hge _].
    destruct (lookup_lt_is_Some_2 d (Z.to_nat (ShortHeader.sequence_number h))) as [x Hx]; [unfold len in Hlt; lia|].
    rewrite Hx. pose proof (rcv_stream _ _ _ Hrec _ _ Hx) as Hs'. rewrite Z2Nat.id in Hs' by done.
    rewrite Hs in Hs'. by injection Hs' as ->.
Qed.

End server.

(** ** An example: the client's data arrives backwards, then once more *)

Definition pushes (sent : list Frame.Frame) : list Frame.Frame :=
  List.filter (fun f => match f with Frame.Push _ _ => true | _ => false end) sent.

Definition backwards_and_again (data : list Frame.Frame) : list (event Z) :=
  map (fun f => FramesArrived (f, 100) []) (rev data) ++
  match data with [] => [] | f :: fs => [FramesArrived (f, 100) (map (fun f => (f, 100)) fs)] end.

Lemma backwards_brings sent : Forall (brings 100 sent) (backwards_and_again (pushes sent)).
Proof.
  assert (H : forall f, f ∈ pushes sent -> f ∈ sent /\ match f with Frame.Push _ _ => True | _ => False end /\ 100 = 100).
  { intros f Hf. apply list_elem_of_In, filter_In in Hf as [H1 H2]. split; [by apply list_elem_of_In|]. by destruct f. }
  revert H. generalize (pushes sent). intros data H. unfold backwards_and_again. apply Forall_app. split.
  - apply Forall_forall. intros ev (f & -> & Hf)%list_elem_of_fmap. constructor; [|constructor]. apply H.
    rewrite list_elem_of_In. apply in_rev. by apply list_elem_of_In.
  - destruct data as [|f fs]; constructor; [|constructor]. constructor; [apply H; left|].
    apply Forall_forall. intros x (g & -> & Hg)%list_elem_of_fmap. apply H. by right.
Qed.

Definition example_deliveries : list (event Z) := backwards_and_again (pushes EndToEnd.example_sent).

Lemma example_numbers i : 0 <= i < 3 -> i ∈ flat_map numbers example_deliveries.
Proof.
  assert (E : flat_map numbers example_deliveries = [2; 1; 0; 0; 1; 2]) by (vm_compute; reflexivity).
  intros Hi. rewrite E. assert (H : i = 0 \/ i = 1 \/ i = 2) by lia.
  destruct H as [->|[->| ->]]; rewrite !elem_of_cons; tauto.
Qed.

Lemma stream_delivered_witness :
  exists accepted v',
    takes [[Byte.x61; Byte.x62]; [Byte.x63]; [Byte.x64; Byte.x65]; []] accepted /\
    run example_env example_deliveries EndToEnd.example_reader = Done (v', inl false) /\
    3 <= len (to_user v'.(log)) /\ concat (to_user v'.(log)) `prefix_of` accepted.
Proof.
  set (w' := after EndToEnd.example_client (run example_env EndToEnd.example_writes)).
  assert (Hw : EndToEnd.fresh example_env [[Byte.x61; Byte.x62]] EndToEnd.example_client).
  { apply (EndToEnd.fresh_client example_env Config.default 100 7 (Vegas.new Config.default) (Some [Byte.x61; Byte.x62]));
      [by_decide|reflexivity]. }
  assert (Ew : run example_env EndToEnd.example_writes EndToEnd.example_client = Done (w', inl false)) by (vm_compute; reflexivity).
  assert (Ev : new_server example_env Config.default 100 9 7 (Vegas.new Config.default) = Done (EndToEnd.example_reader, inl tt))
    by (vm_compute; reflexivity).
  assert (Hk : forall i, 0 <= i < 3 -> i ∈ flat_map numbers example_deliveries).
  { exact example_numbers. }
  assert (Hlen : len (concat ([[Byte.x61; Byte.x62]] ++ flat_map event_offers EndToEnd.example_writes)) + Z.of_nat w'.(reads) <
    u32_MAX) by (vm_compute; reflexivity).
  assert (Hbr : Forall (brings 100 (frames_in w'.(log))) example_deliveries) by exact (backwards_brings EndToEnd.example_sent).
  clearbody w'.
  destruct (stream_delivered example_env [[Byte.x61; Byte.x62]] EndToEnd.example_client EndToEnd.example_writes w' (inl false)
    example_env Config.default 100 9 7 (Vegas.new Config.default) EndToEnd.example_reader example_deliveries 3
    Hw Ew Ev (fun _ => eq_refl) (fun _ => eq_refl) Hbr Hk Hlen) as (accepted & v' & Ht & Er & Hl & Hp & _).
  exists accepted, v'. split; [exact Ht|split; [exact Er|split; [exact Hl|exact Hp]]].
Defined.

End Delivery.
