(* ===== verification/EndOfStream.v ===== *)
(** * The end of the stream

    [Delivery] hands over what arrives without a gap; here is what follows.
    When the FIN that ends the stream arrives behind all of it, the server
    endpoint closes the user's stream in the same turn of its loop: the user
    has got everything, and sees the end. *)

From S2P Require Import Prelude BTreeMap Packet Config Frame SendBuffer RecvBuffer Rtt Congestion.
From S2P Require Import SackManager SimpleRetx Retransmission Packetizer Reliability Lifecycle UnifiedScheduler TimerTask.
From S2P Require Import TimingManager Endpoint Sender Handlers EventLoop EndpointFacts EndpointFrames StreamSender StreamReceiver UserStream.
From S2P Require Import EndToEnd Delivery.

Module EndOfStream.
Import Endpoint Sender Operations Processors EventLoop StreamSender StreamReceiver Delivery.
Open Scope endpoint_scope.

Section receiver.
Context {T : Type} `{CC : CongestionControl T} {SocketAddr : Type} `{!EqDecision SocketAddr}.
Variable env : Env.
Abbreviation Op := (M T SocketAddr).
Implicit Types (w : World T SocketAddr) (e : Endpoint T SocketAddr).

Variable stream : Z -> option ReceiveBuffer.PacketOrFin.
Hypothesis stream_range : forall k p, stream k = Some p -> 0 <= k < u32_MAX.
Variable peer : SocketAddr.
Hypothesis open : forall n, env.(channel_ok) n = true.

(** ** The FIN is next in the buffer *)

Definition ending_state (s : Lifecycle.ConnectionState SocketAddr) : Prop :=
  s = Lifecycle.SynReceived \/ s = Lifecycle.Established \/ s = Lifecycle.FinWait.

Record ending (handed : list (list byte)) w : Prop := {
  en_handed : to_user w.(log) = handed;
  en_state : ending_state (current_state w.(ep));
  en_open : w.(ep).(stream_open) = true;
  en_wf : ReceiveBuffer.wf (recv w);
  en_live : ReceiveBuffer.fin_reached (recv w) = false;
  en_top : ReceiveBuffer.received (recv w) !! u32_MAX = None;
  en_fin : ReceiveBuffer.received (recv w) !! ReceiveBuffer.next_sequence (recv w) = Some ReceiveBuffer.Fin;
}.

(** The invariant looks at the buffer, the state, the stream and what was
    handed over. *)
Lemma ending_same handed w w' :
  recv w' = recv w -> to_user w'.(log) = to_user w.(log) -> w'.(ep).(stream_open) = w.(ep).(stream_open) ->
  ending_state (current_state w'.(ep)) -> ending handed w -> ending handed w'.
Proof. intros E1 E2 E3 Hs []. constructor; rewrite ?E1, ?E2, ?E3; done. Qed.

Lemma aside_ending handed w k w' : aside k -> prim w k w' -> ending handed w -> ending handed w'.
Proof.
  intros Hk Hp Hw. pose proof (en_state _ _ Hw) as Hs.
  destruct Hp; try done; (eapply ending_same; [| | |exact Hs|exact Hw]); simpl; try done.
  - destruct c; try done; by eapply sending_recv; [|exact H].
  - by rewrite to_user_app, app_nil_r.
Qed.

#[local] Hint Extern 0 (aside _) => exact I : runs.

Lemma aside_keeps {A} handed (m : Op A) w w' r : runs aside m -> m w = Done (w', r) -> ending handed w -> ending handed w'.
Proof. intros Hm E. eapply steps_ind; [|eapply Hm, E]. intros w1 k w2. apply aside_ending. Qed.

(** ** The FIN arrives *)

(** When everything below the FIN has arrived, it has been handed over. *)
Lemma handed_all got handed seq w :
  ready stream peer got handed w -> stream seq = Some ReceiveBuffer.Fin -> (forall i, 0 <= i < seq -> got i) ->
  caught_up got handed -> len handed = seq.
Proof.
  intros Hw Hs Hall Hc. pose proof (stream_range _ _ Hs) as Hseq. pose proof (rd_receiving _ _ _ _ _ Hw) as Hr.
  apply Z.le_antisymm; [|by apply Hc]. destruct (Z.le_gt_cases (len handed) seq) as [|Hgt]; [done|exfalso].
  destruct (lookup_lt_is_Some_2 handed (Z.to_nat seq)) as [x Hx]; [unfold len in Hgt; lia|].
  apply (rcv_stream _ _ _ Hr) in Hx. by rewrite Z2Nat.id, Hs in Hx by lia.
Qed.

Lemma receive_fin_ending got handed seq w :
  ready stream peer got handed w -> stream seq = Some ReceiveBuffer.Fin -> (forall i, 0 <= i < seq -> got i) ->
  caught_up got handed ->
  exists rl, ReliabilityLayer.receive_fin (rel w.(ep)) seq = (rl, true) /\
    ending handed (set_ep w (with_reliability w.(ep) rl)).
Proof.
  intros Hw Hs Hall Hc. pose proof (handed_all _ _ _ _ Hw Hs Hall Hc) as Hk.
  destruct Hw as [Hr Hst Hp Ho Heof Hlive Hdata Hgot]. pose proof (stream_range _ _ Hs) as Hseq.
  pose proof (rcv_next _ _ _ Hr Hlive) as Hnext. pose proof (rcv_open _ _ _ Hr Ho) as Hu.
  assert (Hnone : ReceiveBuffer.received (recv w) !! seq = None).
  { destruct (_ !! seq) as [p|] eqn:E; [exfalso|done]. pose proof (rcv_buffered _ _ _ Hr _ _ E) as Hs'.
    apply Hdata in E as [x ->]. by rewrite Hs in Hs'. }
  unfold ReliabilityLayer.receive_fin, ReceiveBuffer.receive_fin, ReceiveBuffer.receive_packet. fold (recv w).
  rewrite Hlive, Hnext, Hk, Z.ltb_irrefl, Hnone. cbn [orb]. eexists. split; [done|].
  pose proof (ReceiveBuffer.receive_packet_wf (recv w) seq ReceiveBuffer.Fin (rcv_wf _ _ _ Hr)) as Hwf.
  unfold ReceiveBuffer.receive_packet in Hwf. rewrite Hlive, Hnext, Hk, Z.ltb_irrefl, Hnone in Hwf.
  constructor; try done.
  - destruct Hst as [E|E]; [left|right; left]; exact E.
  - apply Hwf. unfold u32_ok, u32_MAX in *. lia.
  - change (<[seq := ReceiveBuffer.Fin]> (ReceiveBuffer.received (recv w)) !! u32_MAX = None).
    rewrite lookup_insert_ne by lia. destruct (_ !! u32_MAX) eqn:E; [|done]. apply (rcv_buffered _ _ _ Hr), stream_range in E. lia.
  - change (<[seq := ReceiveBuffer.Fin]> (ReceiveBuffer.received (recv w)) !! ReceiveBuffer.next_sequence (recv w) = Some ReceiveBuffer.Fin).
    rewrite Hnext, Hk. apply lookup_insert_eq.
Qed.

(** The transition to FinWait, attempted, changes the state at most. *)
Lemma fin_wait_transition w : ending_state (current_state w.(ep)) ->
  exists w', (attempt (transition_state Lifecycle.FinWait) >>! ret tt) w = Done (w', inl tt) /\
    ending_state (current_state w'.(ep)) /\ recv w' = recv w /\ to_user w'.(log) = to_user w.(log) /\
    w'.(ep).(stream_open) = w.(ep).(stream_open) /\ w'.(ep).(timing) = w.(ep).(timing).
Proof.
  intros Hs. unfold transition_state, lifecycle, Lifecycle.transition_to, bind, attempt, ret, current_state in *.
  destruct Hs as [E|[E|E]]; rewrite E; cbn [Lifecycle.clone Lifecycle.interrupt_path_validation Lifecycle.execute_transition
    Lifecycle.is_valid_transition negb]; (eexists; split; [done|]); simpl; rewrite to_user_app, to_user_lifecycle, app_nil_r;
    (split; [by right; right|done]).
Qed.

Lemma fin_arrives got handed h w :
  ready stream peer got handed w -> stream (ShortHeader.sequence_number h) = Some ReceiveBuffer.Fin ->
  (forall i, 0 <= i < ShortHeader.sequence_number h -> got i) -> caught_up got handed ->
  exists w', dispatch_frame env (Frame.Fin h) peer w = Done (w', inl tt) /\ ending handed w'.
Proof.
  intros Hw Hs Hall Hc. unfold dispatch_frame. rewrite bind_now.
  assert (Hw0 : ready stream peer got handed (ticked w))
    by (eapply (aside_ready stream stream_range peer _ _ w KClock); [done|constructor|done]).
  rewrite EndpointFrames.route_frame_direct by (left; symmetry; apply Hw).
  apply (ready_timing stream peer) with (t := clock env (reads w)) in Hw0. set (w0 := set_ep (ticked w) _) in *.
  destruct (receive_fin_ending _ _ _ _ Hw0 Hs Hall Hc) as (rl & Er & Hw1). set (w1 := set_ep w0 _) in Hw1.
  assert (Hfin : exists w2, receive_fin_and_ack env (ShortHeader.sequence_number h) w0 = Done (w2, inl true) /\ ending handed w2).
  { unfold receive_fin_and_ack. rewrite bind_reliability_op, Er. fold w1.
    destruct (send_ack_total env open w1) as [w2 E2]. exists w2. unfold bind at 1. rewrite E2. split; [done|].
    refine (aside_keeps _ (send_standalone_ack env) w1 w2 _ _ E2 Hw1). by apply runs_send_standalone_ack. }
  destruct Hfin as (w2 & E2 & Hw2). unfold_connection. rewrite bind_get. unfold FrameProcessingContext.context_new.
  unfold ConnectionProcessor.handle_fin_frame. cbn [FrameProcessingContext.connection_state].
  change (current_state w0.(ep)) with (current_state w.(ep)).
  destruct (rd_state _ _ _ _ _ Hw) as [-> | ->]; cbn [Lifecycle.clone];
    unfold ConnectionProcessor.handle_fin_in_syn_received, ConnectionProcessor.handle_fin_in_established;
    unfold bind at 1; rewrite E2; [|by eauto].
  destruct (fin_wait_transition w2 (en_state _ _ Hw2)) as (w3 & E3 & H1 & H2 & H3 & H4 & _). exists w3. split; [done|].
  by apply ending_same with w2.
Qed.

(** ** The reaction to it *)

Lemma reassemble_fin handed w : ending handed w ->
  exists rl, ReliabilityLayer.reassemble (rel w.(ep)) = (rl, (None, true)) /\
    ReliabilityLayer.is_recv_buffer_empty rl = true.
Proof.
  intros [_ _ _ Hwf Hlive Htop Hfin]. unfold ReliabilityLayer.reassemble, ReceiveBuffer.reassemble.
  fold (recv w). rewrite Hlive.
  destruct (ReceiveBuffer.reassemble_loop_spec (size (ReceiveBuffer.received (recv w))) (recv w) [] Hwf Hlive
    (Nat.le_refl _) Htop) as (d & rb & fin & -> & Hwf' & Hcont & _ & Ef & Hspec).
  destruct d as [|x d]; [|pose proof (Hcont 0%nat x eq_refl) as H0; rewrite Z.add_0_r, Hfin in H0; done].
  unfold len in Hspec. simpl in Hspec. rewrite Z.add_0_r in Hspec.
  destruct fin; [|destruct Hspec as (_ & Hn & _); by rewrite Hfin in Hn].
  eexists. split; [done|]. unfold ReliabilityLayer.is_recv_buffer_empty, ReceiveBuffer.is_empty. simpl.
  rewrite (ReceiveBuffer.wf_fin _ Hwf' Ef). done.
Qed.

(** The stream has ended: the user has got [handed], and the end. *)
Definition ended (handed : list (list byte)) w : Prop :=
  to_user w.(log) = handed /\ CloseStream ∈ w.(log) /\ w.(ep).(stream_open) = false.

(** Between the FIN's delivery and the end of the turn. *)
Record draining handed w : Prop := {
  dr_handed : to_user w.(log) = handed;
  dr_state : ending_state (current_state w.(ep));
  dr_open : w.(ep).(stream_open) = true;
  dr_empty : ReceiveBuffer.is_empty (recv w) = true;
  dr_eof : w.(ep).(timing).(TimingManager.fin_pending_eof) = true;
}.

Lemma aside_draining handed w k w' : aside k -> prim w k w' -> draining handed w -> draining handed w'.
Proof.
  intros Hk Hp []. destruct Hp; try done; constructor; simpl; rewrite ?to_user_app, ?app_nil_r; try done.
  assert (E : recv (set_ep w (with_reliability w.(ep) rl)) = recv w) by (destruct c; try done; by eapply sending_recv; [|exact H]).
  by rewrite E.
Qed.

Lemma deliver_fin handed w : ending handed w ->
  exists w', deliver_received env w = Done (w', inl true) /\ draining handed w'.
Proof.
  intros Hw. destruct (reassemble_fin _ _ Hw) as (rl & Er & Hempty). destruct Hw.
  unfold deliver_received. rewrite bind_reliability_op, Er. unfold set_fin_pending_eof, bind, ret. eexists. by split.
Qed.

Lemma fin_transition_draining handed w : draining handed w ->
  exists w', fin_transition w = Done (w', inl tt) /\ draining handed w'.
Proof.
  intros Hw. pose proof Hw as [Hu Hs Ho He Hf]. destruct (fin_wait_transition w Hs) as (w' & E & H1 & H2 & H3 & H4 & H5).
  unfold fin_transition. rewrite bind_get.
  destruct Hs as [Es|[Es|Es]]; rewrite Es; [exists w'|exists w'|by exists w]; (split; [exact E|]);
    constructor; by rewrite ?H2, ?H3, ?H4, ?H5.
Qed.

Lemma packetize_draining handed w : draining handed w ->
  exists w', packetize_if_open env w = Done (w', inl tt) /\ draining handed w'.
Proof.
  intros Hw. assert (Ht : exists w', packetize_if_open env w = Done (w', inl tt)).
  { unfold packetize_if_open. rewrite bind_get.
    destruct (dr_state _ _ Hw) as [E|[E|E]]; rewrite E; cbn [Lifecycle.eq orb]; [by eexists|..];
      unfold packetize_and_send; run; cbn [ep ticked];
      destruct (ReliabilityLayer.packetize_stream_data _ _ _ _ _ _) as [rl fs]; rewrite bind_get;
      match goal with |- context [current_state (ep ?w1)] => change (current_state (ep w1)) with (current_state (ep w)) end;
      rewrite E; cbn [Lifecycle.eq andb]; unfold bind, ret;
      destruct (send_frames_total env open fs (set_ep (ticked w) (with_reliability (ep w) rl))) as [w' ->]; by eexists. }
  destruct Ht as [w' E]. exists w'. split; [done|].
  assert (Hm : runs aside (packetize_if_open env : Op unit)) by (unfold packetize_if_open; solve_runs).
  eapply steps_ind; [|exact (Hm _ _ _ E)|exact Hw]. intros w1 k w2. apply aside_draining.
Qed.

Lemma follow_up_ending handed w : ending handed w ->
  exists w', follow_up env w = Done (w', inl false) /\ ended handed w'.
Proof.
  intros Hw. destruct (deliver_fin _ _ Hw) as (w1 & E1 & Hw1).
  destruct (fin_transition_draining _ _ Hw1) as (w2 & E2 & Hw2).
  destruct (packetize_draining _ _ Hw2) as (w3 & E3 & [Hu Hs Ho Hempty Heof]).
  unfold follow_up. unfold bind at 1. rewrite E1. unfold bind at 1. rewrite E2. unfold bind at 1. rewrite E3.
  unfold close_stream_after_fin. rewrite bind_bind, bind_get, Heof. unfold ReliabilityLayer.is_recv_buffer_empty.
  change (ReliabilityLayer.recv_buffer (rel (ep w3))) with (recv w3). rewrite Hempty, Ho. cbn [andb].
  unfold close_stream, set_fin_pending_eof, should_close, bind, get, ret. rewrite Ho. cbn [ep emitted set_ep].
  match goal with |- context [current_state ?e] => change (current_state e) with (current_state (ep w3)) end.
  destruct Hs as [E|[E|E]]; rewrite E; cbn [Lifecycle.eq orb andb]; cbn [ep emitted set_ep];
    (match goal with |- context [current_state ?e] => change (current_state e) with (current_state (ep w3)) end);
    rewrite E; cbn [Lifecycle.should_close]; (eexists; split; [done|]); (split; [|split; [|done]]); simpl;
    rewrite ?to_user_app, ?app_nil_r; try done; apply elem_of_app; right; left.
Qed.

(** One turn of the loop, in which the FIN arrives. *)
Lemma iteration_fin got handed h w :
  ready stream peer got handed w -> stream (ShortHeader.sequence_number h) = Some ReceiveBuffer.Fin ->
  (forall i, 0 <= i < ShortHeader.sequence_number h -> got i) -> caught_up got handed ->
  exists w', iteration env (FramesArrived (Frame.Fin h, peer) []) w = Done (w', inl false) /\ ended handed w'.
Proof.
  intros Hw Hs Hall Hc.
  destruct (wakeup_ready env stream stream_range peer got handed w Hw) as (w1 & t & E1 & Hw1).
  assert (Hw2 : ready stream peer got handed (ticked w1))
    by (eapply (aside_ready stream stream_range peer _ _ w1 KClock); [done|constructor|done]).
  apply (ready_timing stream peer) with (t := clock env (reads w1)) in Hw2. set (w2 := set_ep (ticked w1) _) in Hw2.
  destruct (fin_arrives _ _ h _ Hw2 Hs Hall Hc) as (w3 & E3 & Hw3).
  destruct (follow_up_ending _ _ Hw3) as (w4 & E4 & Hw4). exists w4. split; [|done].
  unfold iteration. unfold bind at 1. rewrite E1. cbn [handle_event]. rewrite bind_bind, bind_now, bind_bind.
  cbn [dispatch_more]. rewrite bind_bind. unfold bind at 1, update_last_recv_time. fold w2. rewrite bind_bind. unfold bind at 1. rewrite E3.
  by rewrite bind_ret, bind_ret.
Qed.

End receiver.

(** C4: the end of the stream.  As in [stream_delivered], and then the
    sender's FIN arrives, when all numbers below it have.  Then the server's
    loop keeps running, and in that very turn it closes its user's stream:
    the user has been handed exactly the payloads below the FIN, the front
    of what the sender's user wrote, and then sees the end. *)
Theorem stream_ends {T} `{CC : CongestionControl T} {SocketAddr : Type} `{!EqDecision SocketAddr}
    env offered (w : World T SocketAddr) events w' r env' cfg addr local peer cc (v : World T SocketAddr) events' h :
  EndToEnd.fresh env offered w -> run env events w = Done (w', r) ->
  new_server env' cfg addr local peer cc = Done (v, inl tt) ->
  (forall n, env'.(channel_ok) n = true) -> (forall n, env'.(stream_ok) n = true) ->
  Forall (brings addr (frames_in w'.(log))) events' ->
  Frame.Fin h ∈ frames_in w'.(log) ->
  (forall i, 0 <= i < ShortHeader.sequence_number h -> i ∈ flat_map numbers events') ->
  let written := offered ++ flat_map event_offers events in
  len (concat written) + Z.of_nat w'.(reads) < u32_MAX ->
  exists accepted v', takes written accepted /\
    run env' (events' ++ [FramesArrived (Frame.Fin h, addr) []]) v = Done (v', inl false) /\
    len (to_user v'.(log)) = ShortHeader.sequence_number h /\ concat (to_user v'.(log)) `prefix_of` accepted /\
    ended (to_user v'.(log)) v'.
Proof.
  intros Hw Erun Ev Hopen Huser Hbr Hfin Hk written Hlen.
  destruct (delivered_run env offered w events w' r env' cfg addr local peer cc v events' Hw Erun Ev Hopen Huser Hbr Hlen)
    as (accepted & items & v1 & d & Ht & Hitems & Hnum & Hbytes & El & Hsyn & Hr & Hc).
  pose proof (fun k p => EndToEnd.stream_of_range items k p Hitems) as Hrange.
  pose proof (EndToEnd.used_stream _ _ _ Hitems (proj1 (Forall_forall _ _) Hnum _ Hfin)) as Hs.
  destruct (iteration_fin env' _ Hrange addr Hopen _ d h v1 Hr Hs Hk Hc) as (v' & E & Hu & Hclose).
  exists accepted, v'. split; [done|]. split.
  { apply run_server; [done|]. rewrite <- El. cbn [run_loop]. unfold bind. by rewrite E. }
  rewrite Hu. split; [by eapply handed_all|]. split; [|done].
  etrans; [|exact Hbytes]. apply EndToEnd.delivered_prefix. apply (rd_receiving _ _ _ _ _ Hr).
Qed.

(** The client's data arrives backwards, then once more, and then its FIN. *)
Definition example_fin : ShortHeader.ShortHeader :=
  match List.filter (fun f => match f with Frame.Fin _ => true | _ => false end) EndToEnd.example_sent with
  | Frame.Fin h :: _ => h
  | _ => ShortHeader.Build_ShortHeader Command.Fin 0 0 0 0 0 0
  end.

Lemma stream_ends_witness :
  exists accepted v',
    takes [[Byte.x61; Byte.x62]; [Byte.x63]; [Byte.x64; Byte.x65]; []] accepted /\
    run example_env (example_deliveries ++ [FramesArrived (Frame.Fin example_fin, 100) []]) EndToEnd.example_reader =
      Done (v', inl false) /\
    len (to_user v'.(log)) = 3 /\ concat (to_user v'.(log)) `prefix_of` accepted /\ ended (to_user v'.(log)) v'.
Proof.
  set (w' := after EndToEnd.example_client (run example_env EndToEnd.example_writes)).
  assert (Hw : EndToEnd.fresh example_env [[Byte.x61; Byte.x62]] EndToEnd.example_client).
  { apply (EndToEnd.fresh_client example_env Config.default 100 7 (Vegas.new Config.default) (Some [Byte.x61; Byte.x62]));
      [by_decide|reflexivity]. }
  assert (Ew : run example_env EndToEnd.example_writes EndToEnd.example_client = Done (w', inl false)) by (vm_compute; reflexivity).
  assert (Ev : new_server example_env Config.default 100 9 7 (Vegas.new Config.default) = Done (EndToEnd.example_reader, inl tt))
    by (vm_compute; reflexivity).
  assert (En : ShortHeader.sequence_number example_fin = 3) by (vm_compute; reflexivity).
  assert (Hk : forall i, 0 <= i < ShortHeader.sequence_number example_fin -> i ∈ flat_map numbers example_deliveries).
  { rewrite En. exact example_numbers. }
  assert (Hlen : len (concat ([[Byte.x61; Byte.x62]] ++ flat_map event_offers EndToEnd.example_writes)) + Z.of_nat w'.(reads) <
    u32_MAX) by (vm_compute; reflexivity).
  assert (Hbr : Forall (brings 100 (frames_in w'.(log))) example_deliveries) by exact (backwards_brings EndToEnd.example_sent).
  assert (Hfin : Frame.Fin example_fin ∈ frames_in w'.(log)).
  { apply (list_elem_of_lookup_2 _ 4%nat). vm_compute. reflexivity. }
  rewrite <- En. clearbody w'.
  exact (stream_ends example_env [[Byte.x61; Byte.x62]] EndToEnd.example_client EndToEnd.example_writes w' (inl false)
    example_env Config.default 100 9 7 (Vegas.new Config.default) EndToEnd.example_reader example_deliveries example_fin
    Hw Ew Ev (fun _ => eq_refl) (fun _ => eq_refl) Hbr Hfin Hk Hlen).
Defined.

End EndOfStream.
