(* ===== verification/Transport.v ===== *)
(** * Transport: the sender task and the manager

    Models [src/socket/transport/{command,sender,manager}.rs] over any type
    of transports.  The sockets behind a transport ([udp.rs]) are I/O; their
    serialisation of frames is in [Frame]. *)

From S2P Require Import Prelude.

Module Transport.

Section transport.
Context {Tr Batch Addr : Type}.

Inductive TransportCommand :=
| Send (batch : Batch)
| SwapTransport (new_transport : Tr).

(** ** [transport_sender_task] *)

(** The task: its transport and what it passed to which transport. *)
Record Task := {
  transport : Tr;
  sent : list (Tr * Batch);
}.

Implicit Types (t : Task) (queue : list TransportCommand).

Definition MAX_BATCH_SIZE : nat := 64.

(** The inner loop, with room for [n] more batches: [try_recv] takes the next
    command, whatever it is. *)
Fixpoint drain (n : nat) queue : list Batch * list TransportCommand :=
  match n, queue with
  | S n, Send batch :: queue => let '(batches, rest) := drain n queue in (batch :: batches, rest)
  | S _, SwapTransport _ :: queue => ([], queue)
  | S _, [] => ([], [])
  | O, _ => ([], queue)
  end.

(** One turn of the outer loop on the commands that are in the channel. *)
Definition turn t queue : Task * list TransportCommand :=
  match queue with
  | [] => (t, [])
  | Send batch :: queue =>
    let '(batches, queue) := drain (MAX_BATCH_SIZE - 1) queue in
    ({| transport := t.(transport); sent := t.(sent) ++ map (fun b => (t.(transport), b)) (batch :: batches) |}, queue)
  | SwapTransport new_transport :: queue => ({| transport := new_transport; sent := t.(sent) |}, queue)
  end.

(** ** [TransportManager] *)

Record TransportManager := { manager_transport : Tr }.

Inductive Error := Io | ChannelClosed.

(** [bound]: the new transport and its address, if binding succeeded;
    [channel_open]: whether the task still receives commands. *)
Definition rebind (m : TransportManager) (bound : option (Tr * option Addr)) (channel_open : bool)
    : TransportManager * (Addr + Error) * list TransportCommand :=
  match bound with
  | None => (m, inr Io, [])
  | Some (_, None) => (m, inr Io, [])
  | Some (new_transport, Some actual_addr) =>
    if channel_open
    then ({| manager_transport := new_transport |}, inl actual_addr, [SwapTransport new_transport])
    else (m, inr ChannelClosed, [])
  end.

(** ** Runs *)

(** Commands arrive at any time; [Turn] is a turn of the task. *)
Inductive event := Arrive (command : TransportCommand) | Turn.

Definition step (st : Task * list TransportCommand) (ev : event) : Task * list TransportCommand :=
  match ev with
  | Arrive command => (st.1, st.2 ++ [command])
  | Turn => turn st.1 st.2
  end.

Definition run (initial : Tr) (evs : list event) : Task * list TransportCommand :=
  fold_left step evs ({| transport := initial; sent := [] |}, []).

Definition batches_of queue : list Batch := omap (fun c => match c with Send b => Some b | _ => None end) queue.

Definition arrived (evs : list event) : list TransportCommand :=
  omap (fun ev => match ev with Arrive c => Some c | Turn => None end) evs.

Lemma drain_batches n queue : let '(batches, rest) := drain n queue in batches_of queue = batches ++ batches_of rest.
Proof.
  revert queue. induction n as [|n IH]; intros queue; [done|]. destruct queue as [|[b|tr] queue]; try done. simpl.
  specialize (IH queue). destruct (drain n queue) as [batches rest]. simpl. unfold batches_of in *. simpl. by rewrite IH.
Qed.

Lemma turn_batches t queue :
  let '(t', queue') := turn t queue in
  map snd t'.(sent) ++ batches_of queue' = map snd t.(sent) ++ batches_of queue.
Proof.
  destruct queue as [|[b|tr] queue]; try done. unfold turn.
  pose proof (drain_batches (MAX_BATCH_SIZE - 1) queue) as H. destruct (drain _ queue) as [batches rest].
  simpl. rewrite map_app, <- app_assoc. simpl. unfold batches_of in *. simpl. rewrite H, map_map. simpl. by rewrite map_id.
Qed.

Lemma fold_batches evs : forall st,
  let '(t', queue') := fold_left step evs st in
  map snd t'.(sent) ++ batches_of queue' = map snd st.1.(sent) ++ batches_of (st.2 ++ arrived evs).
Proof.
  induction evs as [|ev evs IH]; intros [t queue]; simpl; [by rewrite app_nil_r|]. destruct ev as [c|].
  - specialize (IH (t, queue ++ [c])). simpl in IH. by rewrite <- app_assoc in IH.
  - specialize (IH (turn t queue)). pose proof (turn_batches t queue) as H. simpl.
    destruct (fold_left step evs (turn t queue)) as [t' queue']. destruct (turn t queue) as [t1 q1]. simpl in IH.
    rewrite IH. unfold batches_of in *. rewrite !omap_app, !app_assoc. by rewrite H.
Qed.

(** The sender task loses no datagram.  Whenever commands arrive, each batch
    is passed on exactly once and in the order of arrival, or still waits in
    the channel. *)
Theorem sender_task_complete initial evs :
  let '(t, queue) := run initial evs in
  map snd t.(sent) ++ batches_of queue = batches_of (arrived evs).
Proof.
  unfold run. pose proof (fold_batches evs ({| transport := initial; sent := [] |}, [])) as H.
  by destruct (fold_left step evs _) as [t queue].
Qed.

(** A swap that waits behind a batch is taken out of the channel by the inner
    loop and forgotten: the task keeps its transport.  Meanwhile [rebind] has
    reported success and the manager receives on the new one. *)
Theorem swap_behind_batch_lost initial new_transport addr batch :
  let '(m, result, commands) := rebind {| manager_transport := initial |} (Some (new_transport, Some addr)) true in
  let '(t, queue) := run initial ([Arrive (Send batch)] ++ map Arrive commands ++ [Turn]) in
  result = inl addr /\ m.(manager_transport) = new_transport /\ t.(transport) = initial /\ queue = [].
Proof. done. Qed.

(** ... and one that the task finds first takes effect. *)
Lemma swap_first t new_transport queue :
  turn t (SwapTransport new_transport :: queue) = ({| transport := new_transport; sent := t.(sent) |}, queue).
Proof. done. Qed.

End transport.

End Transport.
