(* ===== verification/Udp.v ===== *)
(** * Transport over UDP

    Models [src/socket/transport/udp.rs] and the datagrams of
    [src/socket/transport.rs] over any type of sockets.  The operating system
    answers through the arguments [os_send] and [os_bind]; the frames of a
    datagram are coded by [Frame]. *)

From S2P Require Import Prelude Packet Frame.

Module Udp.

Section udp.
Context {Socket SocketAddr : Type}.

Record FrameBatch := { batch_addr : SocketAddr; batch_frames : list Frame.Frame }.

Record ReceivedDatagram := { remote_addr : SocketAddr; frames : list Frame.Frame }.

Inductive UdpTransportCommand :=
| Send (batch : FrameBatch)
| GetLocalAddr
| Rebind (new_addr : SocketAddr).

Inductive response :=
| SendResponse (ok : bool)
| LocalAddrResponse (addr : option SocketAddr)
| RebindResponse (addr : option SocketAddr).

(** What the actor and the receiver share, and the socket's address as the
    system knows it. *)
Record Transport := {
  shared_socket : Socket;
  local_addr : SocketAddr;
}.

(** A datagram that was passed to a socket. *)
Definition packet : Type := Socket * (SocketAddr * list byte).

Implicit Types (t : Transport) (batch : FrameBatch).

(** ** The send actor *)

Definition handle_send t batch (os_send : bool) : bool * list packet :=
  match batch.(batch_frames) with
  | [] => (true, [])
  | frames => (os_send, [(t.(shared_socket), (batch.(batch_addr), Frame.serialize_frames frames))])
  end.

(** [os_bind]: the new socket and, if it can be had, its address. *)
Definition handle_rebind t (os_bind : option (Socket * option SocketAddr)) : Transport * option SocketAddr :=
  match os_bind with
  | Some (new_socket, Some actual_addr) =>
    ({| shared_socket := new_socket; local_addr := actual_addr |}, Some actual_addr)
  | _ => (t, None)
  end.

(** One turn of the actor's loop. *)
Definition handle_command t (command : UdpTransportCommand) (os_send : bool) (os_addr : option SocketAddr)
    (os_bind : option (Socket * option SocketAddr)) : Transport * response * list packet :=
  match command with
  | Send batch => let '(ok, sent) := handle_send t batch os_send in (t, SendResponse ok, sent)
  | GetLocalAddr => (t, LocalAddrResponse os_addr, [])
  | Rebind _ => let '(t, addr) := handle_rebind t os_bind in (t, RebindResponse addr, [])
  end.

(** ** The receiver task *)

Definition BUFFER_SIZE : nat := 2048.
Definition DATAGRAM_CAPACITY : nat := 1024.

(** [recv_from] cuts what does not fit the buffer. *)
Definition receive (payload : list byte) : outcome (list Frame.Frame) :=
  Frame.deserialize_frames (take BUFFER_SIZE payload).

(** One datagram from the socket; [try_send] drops it when the channel to the
    event loop is full. *)
Definition receive_datagram (queue : list ReceivedDatagram) (addr : SocketAddr) (payload : list byte)
    : outcome (list ReceivedDatagram) :=
  match receive payload with
  | Panic => Panic
  | Done frames =>
    let received := {| remote_addr := addr; frames := frames |} in
    Done (if (length queue <? DATAGRAM_CAPACITY)%nat then queue ++ [received] else queue)
  end.

Definition recv_frames (queue : list ReceivedDatagram) : option (ReceivedDatagram * list ReceivedDatagram) :=
  match queue with [] => None | datagram :: queue => Some (datagram, queue) end.

(** ** Facts *)

(** What the receiver decodes has the fields of Rust's types. *)
Lemma receive_ok payload :
  exists frames, receive payload = Done frames /\ Forall (fun f => u32_ok (Frame.destination_cid f)) frames.
Proof.
  destruct (Frame.deserialize_loop_total (length (take BUFFER_SIZE payload)) (take BUFFER_SIZE payload) [])
    as (frames & tail & Hd & _ & _ & Hok); [done|].
  exists frames. split; [exact Hd|]. eapply Forall_impl; [exact Hok|]. intros f [Hh _].
  unfold Frame.header_ok, ShortHeader.ok, LongHeader.ok in Hh. by destruct f; simpl; apply Hh.
Qed.

(** The receiver never panics, and its queue never grows beyond the capacity. *)
Lemma receive_datagram_bounded queue addr payload :
  (length queue <= DATAGRAM_CAPACITY)%nat ->
  exists queue', receive_datagram queue addr payload = Done queue' /\ (length queue' <= DATAGRAM_CAPACITY)%nat.
Proof.
  intros Hq. unfold receive_datagram. destruct (receive_ok payload) as (frames & -> & _).
  eexists. split; [done|]. destruct (Nat.ltb_spec (length queue) DATAGRAM_CAPACITY); [|done].
  rewrite length_app. simpl. lia.
Qed.

(** C20: a batch is received as it was sent.  The one datagram that the actor
    sends for a batch of well-formed frames arrives, through a queue with
    room, as a datagram with exactly these frames, as long as it does not
    exceed the receiver's buffer. *)
Theorem udp_roundtrip t batch socket dest payload queue src :
  Forall Frame.ok batch.(batch_frames) ->
  (length (Frame.serialize_frames batch.(batch_frames)) <= BUFFER_SIZE)%nat ->
  (length queue < DATAGRAM_CAPACITY)%nat ->
  (handle_send t batch true).2 = [(socket, (dest, payload))] ->
  dest = batch.(batch_addr) /\ socket = t.(shared_socket) /\
  receive_datagram queue src payload = Done (queue ++ [{| remote_addr := src; frames := batch.(batch_frames) |}]).
Proof.
  intros Hok Hsize Hq Hsend.
  assert (Hp : socket = t.(shared_socket) /\ dest = batch.(batch_addr) /\ payload = Frame.serialize_frames batch.(batch_frames)).
  { unfold handle_send in Hsend. destruct batch.(batch_frames); [done|]. by injection Hsend as <- <- <-. }
  destruct Hp as (-> & -> & ->). split; [done|]. split; [done|].
  unfold receive_datagram, receive. rewrite take_ge by done.
  pose proof (Frame.deserialize_loop_encode batch.(batch_frames)
    (length (Frame.serialize_frames batch.(batch_frames))) [] [] Hok) as Hd. rewrite app_nil_r in Hd.
  unfold Frame.deserialize_frames. rewrite Hd; [|by exists []|done]. apply Nat.ltb_lt in Hq as ->. done.
Qed.

(** A longer datagram loses frames: the configuration may allow more bytes
    than the receiver's buffer holds. *)
Lemma large_datagram_cut fs :
  (BUFFER_SIZE < length (Frame.serialize_frames fs))%nat -> receive (Frame.serialize_frames fs) <> Done fs.
Proof.
  intros Hsize Hr.
  destruct (Frame.deserialize_loop_total (length (take BUFFER_SIZE (Frame.serialize_frames fs)))
    (take BUFFER_SIZE (Frame.serialize_frames fs)) []) as (fs' & tail & Hd & Heq & _); [done|].
  unfold receive, Frame.deserialize_frames in Hr. rewrite Hd in Hr. injection Hr as ->.
  apply (f_equal length) in Heq. rewrite length_app, length_take in Heq. lia.
Qed.

End udp.

Lemma udp_roundtrip_witness :
  let fs := [Frame.new_syn 1 5 0; Frame.new_push 0 0 0 10 0 [Byte.x61]] in
  exists payload,
    receive_datagram [] 7 payload = Done [{| remote_addr := 7; frames := fs |}].
Proof.
  intros fs. set (t := {| shared_socket := 1; local_addr := 2 |}). set (batch := {| batch_addr := 3; batch_frames := fs |}).
  exists (Frame.serialize_frames fs).
  apply (udp_roundtrip t batch 1 3 (Frame.serialize_frames fs) [] 7); [by_decide|by_decide|by_decide|reflexivity].
Defined.

End Udp.
