(* ===== verification/InitialData.v ===== *)
(** * 0-RTT data

    Models [src/socket/handle/initial_data.rs], and shows that the check it
    makes is the one that the client's first datagram needs. *)

From S2P Require Import Prelude Packet Config Frame SendBuffer RecvBuffer Congestion Packetizer Reliability.
From S2P Require Import Lifecycle TimingManager Endpoint Sender Handlers EventLoop.

Module InitialData.

Inductive Error := InitialDataTooLarge.

(** [usize::div_ceil] for a positive divisor. *)
Definition div_ceil (a b : Z) : Z := (a + b - 1) / b.

(** [InitialData::new]; panics on a payload size of 0.  Sizes stay far below
    the width of a [usize]. *)
Definition new (data : list byte) (config : Config.Config) : outcome (list byte + Error) :=
  match data with
  | [] => Done (inl [])
  | _ =>
    let syn_overhead := 1 + Z.of_nat LongHeader.ENCODED_SIZE in
    let max_payload_per_push := Config.max_payload_size (Config.connection config) in
    if max_payload_per_push =? 0 then Panic else
    let num_push_frames := div_ceil (len data) max_payload_per_push in
    let push_header_overhead := num_push_frames * (1 + Z.of_nat ShortHeader.ENCODED_SIZE) in
    let total_size := syn_overhead + push_header_overhead + len data in
    if Config.max_packet_size (Config.connection config) <? total_size then Done (inr InitialDataTooLarge)
    else Done (inl data)
  end.

Definition into_bytes (data : list byte) : list byte := data.

(** ** The size of the frames *)

Lemma div_ceil_small a b : 0 < a <= b -> div_ceil a b = 1.
Proof. intros H. unfold div_ceil. symmetry. apply (Z.div_unique _ _ _ (a - 1)); lia. Qed.

Lemma div_ceil_step a b : 0 < b -> div_ceil a b = 1 + div_ceil (a - b) b.
Proof. intros H. unfold div_ceil. replace (a + b - 1) with (a - b + b - 1 + 1 * b) by lia. rewrite Z.div_add by lia. lia. Qed.

Lemma div_ceil_le a a' b : 0 < b -> a <= a' -> div_ceil a b <= div_ceil a' b.
Proof. intros. apply Z.div_le_mono; lia. Qed.

Lemma div_ceil_nonneg a b : 0 < b -> 0 <= a -> 0 <= div_ceil a b.
Proof. intros. apply Z.div_pos; lia. Qed.

(** A PUSH frame adds 21 bytes to its payload. *)
Lemma push_frame_size peer seq next window t chunk :
  Sender.frame_size (Frame.new_push peer seq next window t chunk) = 21 + len chunk.
Proof. unfold Sender.frame_size, Frame.encoded_size, len. simpl. lia. Qed.

Lemma total_push_frames context seq chunks :
  Sender.total (Packetizer.push_frames context seq chunks) = 21 * len chunks + len (concat chunks).
Proof.
  revert seq. induction chunks as [|c chunks IH]; intros seq; [done|].
  change (Sender.total (Packetizer.push_frames context seq (c :: chunks))) with
    (Sender.frame_size (Frame.new_push context.(Packetizer.peer_cid) seq context.(Packetizer.ack_info).1
       context.(Packetizer.ack_info).2 context.(Packetizer.timestamp) c) +
     Sender.total (Packetizer.push_frames context (as_u32 (seq + 1)) chunks)).
  rewrite push_frame_size, IH. simpl concat. rewrite len_cons, len_app. lia.
Qed.

(** One write is cut into full chunks and the rest. *)
Lemma loop_chunks n context : 0 < context.(Packetizer.max_payload_size) -> forall sb counter frames,
  (length sb.(SendBuffer.stream_buffer) <= 1)%nat ->
  exists chunks, (Packetizer.packetize_loop n context sb counter frames).2 =
      frames ++ Packetizer.push_frames context counter chunks /\
    len (concat chunks) <= len (SendBuffer.content sb) /\
    len chunks <= div_ceil (len (SendBuffer.content sb)) context.(Packetizer.max_payload_size).
Proof.
  intros Hmax. set (max := context.(Packetizer.max_payload_size)) in *.
  induction n as [|n IH]; intros sb counter frames Hone.
  { exists []. rewrite app_nil_r. split_and!; [done|apply len_nonneg|apply div_ceil_nonneg; [done|apply len_nonneg]]. }
  assert (Hstop : exists chunks : list (list byte), frames = frames ++ Packetizer.push_frames context counter chunks /\
    len (concat chunks) <= len (SendBuffer.content sb) /\ len chunks <= div_ceil (len (SendBuffer.content sb)) max).
  { exists []. rewrite app_nil_r. split_and!; [done|apply len_nonneg|apply div_ceil_nonneg; [done|apply len_nonneg]]. }
  cbn [Packetizer.packetize_loop]. destruct (SendBuffer.is_stream_buffer_empty sb) eqn:Ee; [done|].
  unfold SendBuffer.create_chunk. fold max. destruct sb as [[|c [|? ?]] size cap]; [done| |simpl in Hone; lia].
  unfold SendBuffer.content in *. cbn [SendBuffer.stream_buffer SendBuffer.take_chunk] in *.
  pose proof (len_nonneg c). destruct (Z.eqb_spec (Z.min (len c) max) 0); [done|].
  simpl concat in *. rewrite app_nil_r in *. destruct (Z.leb_spec (len c) (Z.min (len c) max)).
  - edestruct (IH (SendBuffer.Build_SendBuffer [] (size - len c) cap)) as (chunks & -> & H1 & H2); [simpl; lia|].
    exists (c :: chunks). unfold SendBuffer.content in H1, H2. simpl concat in *. rewrite <- app_assoc.
    split; [done|]. rewrite len_app, len_cons. change (len []) with 0 in H1, H2.
    pose proof (len_nonneg (concat chunks)). rewrite (div_ceil_small (len c)) by lia.
    assert (Hz : div_ceil 0 max = 0) by (unfold div_ceil; apply Z.div_small; lia). lia.
  - set (front := take (Z.to_nat (Z.min (len c) max)) c). set (back := drop (Z.to_nat (Z.min (len c) max)) c).
    assert (Hfront : len front = max) by (unfold front, len in *; rewrite length_take; lia).
    assert (Hback : len back = len c - max) by (unfold back, len in *; rewrite length_drop; lia).
    edestruct (IH (SendBuffer.Build_SendBuffer [back] (size - len front) cap)) as (chunks & -> & H1 & H2); [simpl; lia|].
    exists (front :: chunks). unfold SendBuffer.content in H1, H2. simpl concat in *. rewrite app_nil_r, Hback in *.
    rewrite <- app_assoc. split; [done|]. rewrite len_app, len_cons, Hfront. rewrite (div_ceil_step (len c)) by done. lia.
Qed.

Section client.
Context {T : Type} `{CC : CongestionControl T} {SocketAddr : Type} `{!EqDecision SocketAddr}.
Variable env : Endpoint.Env.
Implicit Types (w : Endpoint.World T SocketAddr).
Import Endpoint.

(** Starting timers leaves the layer and the configuration alone. *)
Lemma timers_keep w w' :
  steps (fun k => exists event, k = KTimer event) w w' ->
  rel w'.(ep) = rel w.(ep) /\ w'.(ep).(config) = w.(ep).(config).
Proof.
  intros H. apply (steps_ind _ (fun w1 => rel w1.(ep) = rel w.(ep) /\ w1.(ep).(config) = w.(ep).(config)) w w') in H;
    [done| |done]. intros w1 k w2 (event & ->) Hp. by inversion Hp.
Qed.

(** A fresh client holds the initial data as one chunk at most. *)
Lemma new_client_layer cfg addr local cc data w r :
  EventLoop.new_client env cfg addr local cc (Some data) = Done (w, r) ->
  w.(ep).(config) = cfg /\ ReliabilityLayer.config (rel w.(ep)) = cfg /\
  let sb := ReliabilityLayer.send_buffer (rel w.(ep)) in
  (length sb.(SendBuffer.stream_buffer) <= 1)%nat /\ len (SendBuffer.content sb) <= len data.
Proof.
  intros E. unfold EventLoop.new_client in E.
  match type of E with ?m ?w0 = _ =>
    assert (Hm : runs (fun k => exists event, k = KTimer event) m) by
      (unfold EventLoop.register_idle_timeout; solve_runs; eauto) end.
  apply Hm in E as Hs.
  apply timers_keep in Hs as [-> ->]. clear E.
  unfold EventLoop.new_endpoint. destruct (Lifecycle.initialize _ _ _ _) as [[? manager] effs].
  unfold ReliabilityLayer.write_to_stream, SendBuffer.write_to_stream, rel, transport_new.
  simpl. unfold saturating_sub. destruct (_ =? 0); simpl; [split_and!; try done; [lia|apply len_nonneg]|].
  split_and!; try done. unfold SendBuffer.content. simpl. rewrite app_nil_r. unfold len.
  case_match; [rewrite length_take|]; lia.
Qed.

(** C21: what [InitialData::new] accepts fits the client's first datagram.  The
    client whose configuration the data was checked against does not panic on
    the assertion of [send_initial_syn]. *)
Theorem initial_data_fits cfg addr local cc data accepted w :
  0 < Config.max_payload_size (Config.connection cfg) ->
  1 + Z.of_nat LongHeader.ENCODED_SIZE <= Config.max_packet_size (Config.connection cfg) ->
  new data cfg = Done (inl accepted) ->
  EventLoop.new_client env cfg addr local cc (Some (into_bytes accepted)) = Done (w, inl tt) ->
  Sender.send_initial_syn env w <> Panic.
Proof.
  intros Hmax Hsyn Hnew Hw. apply new_client_layer in Hw as (Hcfg & Hlcfg & Hone & Hlen).
  unfold Sender.send_initial_syn. run. cbn [ep ticked].
  unfold ReliabilityLayer.packetize_stream_data, Packetizer.packetize.
  set (context := ReliabilityLayer.packetizer_context _ _ _ _ _).
  assert (Hcm : Packetizer.max_payload_size context = Config.max_payload_size (Config.connection cfg))
    by (unfold context, ReliabilityLayer.packetizer_context; simpl; by rewrite Hlcfg).
  pose proof (loop_chunks (Z.to_nat (Packetizer.permit context)) context) as Hloop. rewrite Hcm in Hloop.
  specialize (Hloop Hmax _ (ReliabilityLayer.sequence_number_counter (rel w.(ep))) [] Hone).
  destruct (Packetizer.packetize_loop _ _ _ _ _) as [[sb counter] frames]. simpl in Hloop.
  destruct Hloop as (chunks & -> & H1 & H2). run.
  set (chunk_frames := Packetizer.push_frames _ _ _).
  change (foldr Z.add 0 (map Sender.frame_size (Sender.create_syn_frame (config (ep w)) (Sender.local_cid_of (ep w)) :: chunk_frames)))
    with (10 + Sender.total chunk_frames).
  assert (Htotal : 10 + Sender.total chunk_frames <= Config.max_packet_size (Config.connection cfg)).
  { unfold chunk_frames. rewrite total_push_frames. unfold new in Hnew. destruct accepted as [|x accepted].
    - change (len (into_bytes [])) with 0 in Hlen. pose proof (len_nonneg (concat chunks)).
      pose proof (div_ceil_le _ 0 _ Hmax Hlen) as Hle.
      assert (Hz : div_ceil 0 (Config.max_payload_size (Config.connection cfg)) = 0)
        by (unfold div_ceil; apply Z.div_small; lia). change (1 + Z.of_nat LongHeader.ENCODED_SIZE) with 10 in Hsyn. lia.
    - destruct data as [|y data]; [done|]. destruct (Z.eqb_spec (Config.max_payload_size (Config.connection cfg)) 0); [lia|].
      destruct (Z.ltb_spec (Config.max_packet_size (Config.connection cfg))
        (1 + Z.of_nat LongHeader.ENCODED_SIZE +
         div_ceil (len (y :: data)) (Config.max_payload_size (Config.connection cfg)) * (1 + Z.of_nat ShortHeader.ENCODED_SIZE) +
         len (y :: data))) as [|Hfit]; [done|]. injection Hnew as <- <-.
      change (1 + Z.of_nat LongHeader.ENCODED_SIZE) with 10 in Hfit. change (1 + Z.of_nat ShortHeader.ENCODED_SIZE) with 21 in Hfit.
      pose proof (div_ceil_le _ _ _ Hmax Hlen) as Hle. unfold into_bytes in *. lia. }
  unfold Sender.max_packet_size_of. rewrite Hcfg. apply Z.leb_le in Htotal as ->.
  unfold Sender.send_raw_frames, bind, get, send_batch. by destruct (channel_ok env _).
Qed.

End client.

Lemma initial_data_fits_witness :
  exists accepted w,
    new [Byte.x61; Byte.x62; Byte.x63] Config.default = Done (inl accepted) /\
    EventLoop.new_client EventLoop.example_env Config.default 100 7 (Vegas.new Config.default) (Some (into_bytes accepted)) =
      Done (w, inl tt) /\
    Sender.send_initial_syn EventLoop.example_env w <> Panic.
Proof.
  set (w := match EventLoop.new_client EventLoop.example_env Config.default 100 7 (Vegas.new Config.default)
                    (Some [Byte.x61; Byte.x62; Byte.x63]) with Done (w, _) => w | Panic => EventLoop.example_server end).
  exists [Byte.x61; Byte.x62; Byte.x63], w.
  assert (Hnew : new [Byte.x61; Byte.x62; Byte.x63] Config.default = Done (inl [Byte.x61; Byte.x62; Byte.x63]))
    by reflexivity.
  assert (Hw : EventLoop.new_client EventLoop.example_env Config.default 100 7 (Vegas.new Config.default)
    (Some (into_bytes [Byte.x61; Byte.x62; Byte.x63])) = Done (w, inl tt)) by (vm_compute; reflexivity).
  clearbody w. split; [exact Hnew|]. split; [exact Hw|].
  apply (initial_data_fits EventLoop.example_env Config.default 100 7 (Vegas.new Config.default)
    [Byte.x61; Byte.x62; Byte.x63] [Byte.x61; Byte.x62; Byte.x63] w); [reflexivity|by_decide|exact Hnew|exact Hw].
Defined.

End InitialData.
