(* ===== verification/Routing.v ===== *)
(** * Socket: draining pool and frame router

    Models [src/socket/event_loop/{draining,routing}.rs].  A [HashMap] is a
    [gmap]; what the code takes from its iteration order and from the default
    hasher is the interface [HashedAddr].  A call takes the clock reading
    [now] that it makes, and [ok], the outcomes of its sends to endpoints in
    their order: a send fails when the endpoint has dropped its receiver. *)

From stdpp Require Import gmap.
From S2P Require Import Prelude Packet Frame.

(** ** The draining pool *)

Module DrainingPool.

Record DrainingPool := { cids : gmap Z Instant; timeout : Duration }.

Definition new (timeout : Duration) : DrainingPool := {| cids := ∅; timeout := timeout |}.

Definition insert (now : Instant) (p : DrainingPool) (cid : Z) : DrainingPool :=
  {| cids := <[cid := now]> p.(cids); timeout := p.(timeout) |}.

Definition contains (p : DrainingPool) (cid : Z) : bool := bool_decide (is_Some (p.(cids) !! cid)).

Definition cleanup (now : Instant) (p : DrainingPool) : DrainingPool :=
  if bool_decide (size p.(cids) = 0%nat) then p else
  {| cids := filter (fun entry => duration_since now entry.2 < p.(timeout)) p.(cids); timeout := p.(timeout) |}.

Lemma contains_insert now p cid c : contains (insert now p cid) c = bool_decide (c = cid) || contains p c.
Proof.
  unfold contains, insert. simpl. destruct (decide (c = cid)) as [->|Hne].
  - rewrite lookup_insert_eq. by rewrite !bool_decide_eq_true_2 by done.
  - rewrite lookup_insert_ne by done. by rewrite (bool_decide_eq_false_2 (c = cid)).
Qed.

(** [cleanup] removes exactly the entries whose time is over. *)
Lemma lookup_cleanup now p cid start_time :
  (cleanup now p).(cids) !! cid = Some start_time <->
  p.(cids) !! cid = Some start_time /\ duration_since now start_time < p.(timeout).
Proof.
  unfold cleanup. case_bool_decide as Hsize; simpl.
  - apply map_size_empty_inv in Hsize. rewrite Hsize, lookup_empty. naive_solver.
  - by rewrite map_lookup_filter_Some.
Qed.

Lemma timeout_cleanup now p : (cleanup now p).(timeout) = p.(timeout).
Proof. unfold cleanup. by case_bool_decide. Qed.

End DrainingPool.

(** ** The frame router *)

(** What the code uses of the standard library's [Hash] and [HashMap] on
    addresses: a hash of 64 bits, and some order of iteration. *)
Class HashedAddr (SocketAddr : Type) `{Countable SocketAddr} := {
  address_hash : SocketAddr -> Z;
  iter : gmap SocketAddr Z -> list (SocketAddr * Z);
  address_hash_ok addr : u64_ok (address_hash addr);
  iter_ok m : iter m ≡ₚ map_to_list m;
}.

Module FrameRouter.

(** [sender] identifies the channel to the endpoint. *)
Record ConnectionMeta := { sender : nat }.

Section router.
Context {SocketAddr : Type} `{HashedAddr SocketAddr}.

Record PendingFrame := {
  frame : Frame.Frame;
  remote_addr : SocketAddr;
  arrival_time : Instant;
}.

Record FrameRouter := {
  active_connections : gmap Z ConnectionMeta;
  address_routing : gmap SocketAddr Z;
  draining_pool : DrainingPool.DrainingPool;
  pending_frames : gmap Z (list PendingFrame);
}.

Inductive RoutingResult := Dispatched | ConnectionNotFound | ConnectionDraining | FrameCached.

(** A frame that was put into the channel of an endpoint. *)
Definition delivery : Type := nat * (Frame.Frame * SocketAddr).

Implicit Types (r : FrameRouter) (addr : SocketAddr) (ok : nat -> bool) (m : gmap Z (list PendingFrame)).

Definition new (draining_pool : DrainingPool.DrainingPool) : FrameRouter :=
  {| active_connections := ∅; address_routing := ∅; draining_pool := draining_pool; pending_frames := ∅ |}.

Definition with_addresses r (routing : gmap SocketAddr Z) : FrameRouter :=
  {| active_connections := r.(active_connections); address_routing := routing;
     draining_pool := r.(draining_pool); pending_frames := r.(pending_frames) |}.

Definition with_pending r m : FrameRouter :=
  {| active_connections := r.(active_connections); address_routing := r.(address_routing);
     draining_pool := r.(draining_pool); pending_frames := m |}.

Definition with_draining r (pool : DrainingPool.DrainingPool) : FrameRouter :=
  {| active_connections := r.(active_connections); address_routing := r.(address_routing);
     draining_pool := pool; pending_frames := r.(pending_frames) |}.

Definition get_cache_key (cid : Z) addr : Z :=
  if negb (cid =? 0) then cid else Z.lor (address_hash addr) (Z.shiftl 1 63).

(** The loops that look for the address of a connection. *)
Definition find_address (routing : gmap SocketAddr Z) (cid : Z) : option SocketAddr :=
  fst <$> List.find (fun entry => entry.2 =? cid) (iter routing).

Definition remove_found (routing : gmap SocketAddr Z) (cid : Z) : gmap SocketAddr Z :=
  match find_address routing cid with
  | Some addr => delete addr routing
  | None => routing
  end.

Definition remove_connection_by_cid (now : Instant) r (cid : Z) : FrameRouter :=
  match r.(active_connections) !! cid with
  | None => r
  | Some _ =>
    {| active_connections := delete cid r.(active_connections);
       address_routing := remove_found r.(address_routing) cid;
       draining_pool := DrainingPool.insert now r.(draining_pool) cid;
       pending_frames := r.(pending_frames) |}
  end.

Definition update_connection_address r (cid : Z) (new_addr : SocketAddr) : FrameRouter :=
  with_addresses r (<[new_addr := cid]> (remove_found r.(address_routing) cid)).

Definition connection_exists r (cid : Z) : bool := bool_decide (is_Some (r.(active_connections) !! cid)).

Definition is_draining r (cid : Z) : bool := DrainingPool.contains r.(draining_pool) cid.

Definition cleanup_draining_pool (now : Instant) r : FrameRouter :=
  with_draining r (DrainingPool.cleanup now r.(draining_pool)).

(** [entry(key).or_default().push(pending_frame)] *)
Definition push_pending (key : Z) (pending_frame : PendingFrame) m : gmap Z (list PendingFrame) :=
  <[key := default [] (m !! key) ++ [pending_frame]]> m.

Definition cache_early_frame (now : Instant) r (cid : Z) (f : Frame.Frame) addr : FrameRouter :=
  let pending_frame := {| frame := f; remote_addr := addr; arrival_time := now |} in
  with_pending r (push_pending (get_cache_key cid addr) pending_frame r.(pending_frames)).

Definition is_push (f : Frame.Frame) : bool := match f with Frame.Push _ _ => true | _ => false end.

(** [ok] answers the sends to endpoints.  The code awaits them on a channel of
    128 frames: a send to a full channel waits until the endpoint takes a frame
    or drops its receiver, and the socket's loop with it.  That waiting is not
    modelled: a send is one step with its answer. *)
Definition dispatch_frame ok (now : Instant) r (f : Frame.Frame) addr : FrameRouter * list delivery * RoutingResult :=
  let cid := Frame.destination_cid f in
  match (if negb (cid =? 0) then r.(active_connections) !! cid else None) with
  | Some meta =>
    if ok 0%nat then (r, [(meta.(sender), (f, addr))], Dispatched)
    else (remove_connection_by_cid now r cid, [], ConnectionNotFound)
  | None =>
    let unrouted r :=
      if DrainingPool.contains r.(draining_pool) cid then (r, [], ConnectionDraining)
      else if is_push f then (cache_early_frame now r cid f addr, [], FrameCached)
      else (r, [], ConnectionNotFound) in
    match r.(address_routing) !! addr with
    | Some existing_cid =>
      match r.(active_connections) !! existing_cid with
      | Some meta =>
        if ok 0%nat then (r, [(meta.(sender), (f, addr))], Dispatched)
        else (remove_connection_by_cid now r existing_cid, [], ConnectionNotFound)
      | None => unrouted (with_addresses r (delete addr r.(address_routing)))
      end
    | None => unrouted r
    end
  end.

(** The loop over the frames that were cached under one key: [n] sends have
    been made before; as in [dispatch_frame], waiting is not modelled. *)
Fixpoint forward_pending ok (channel : nat) addr (key : Z) (n : nat) (pending : list PendingFrame) m
    : list delivery * nat * gmap Z (list PendingFrame) :=
  match pending with
  | [] => ([], n, m)
  | pf :: pending =>
    if bool_decide (pf.(remote_addr) = addr) then
      if ok n then
        let '(sent, n', m') := forward_pending ok channel addr key (S n) pending m in
        ((channel, (pf.(frame), pf.(remote_addr))) :: sent, n', m')
      else ([], S n, m)
    else forward_pending ok channel addr key n pending (push_pending key pf m)
  end.

Fixpoint forward_keys ok (channel : nat) addr (n : nat) (keys : list Z) m
    : list delivery * gmap Z (list PendingFrame) :=
  match keys with
  | [] => ([], m)
  | key :: keys =>
    match m !! key with
    | None => forward_keys ok channel addr n keys m
    | Some pending =>
      let '(sent, n, m) := forward_pending ok channel addr key n pending (delete key m) in
      let '(sent', m) := forward_keys ok channel addr n keys m in
      (sent ++ sent', m)
    end
  end.

Definition forward_cached_frames ok r (cid : Z) addr : FrameRouter * list delivery :=
  let keys_to_check := (if negb (cid =? 0) then [cid] else []) ++ [get_cache_key 0 addr] in
  match r.(active_connections) !! cid with
  | None => (r, [])
  | Some meta =>
    let '(sent, m) := forward_keys ok meta.(sender) addr 0 keys_to_check r.(pending_frames) in
    (with_pending r m, sent)
  end.

Definition register_connection ok (now : Instant) r (cid : Z) addr (meta : ConnectionMeta)
    : FrameRouter * list delivery :=
  let r :=
    match r.(address_routing) !! addr with
    | Some old_cid => if negb (old_cid =? cid) then remove_connection_by_cid now r old_cid else r
    | None => r
    end in
  forward_cached_frames ok
    {| active_connections := <[cid := meta]> r.(active_connections);
       address_routing := <[addr := cid]> r.(address_routing);
       draining_pool := r.(draining_pool); pending_frames := r.(pending_frames) |} cid addr.

Definition cleanup_expired_frames (now : Instant) r (max_age : Duration) : FrameRouter :=
  with_pending r (omap (fun frames =>
    match filter (fun pf => duration_since now pf.(arrival_time) < max_age) frames with
    | [] => None
    | frames => Some frames
    end) r.(pending_frames)).

End router.
Arguments FrameRouter : clear implicits.
Arguments FrameRouter SocketAddr {_ _}.
Arguments PendingFrame : clear implicits.
Arguments delivery : clear implicits.

(** ** What the router holds back *)

Section facts.
Context {SocketAddr : Type} `{HA : HashedAddr SocketAddr}.
Implicit Types (r : FrameRouter SocketAddr) (addr : SocketAddr) (ok : nat -> bool)
  (m : gmap Z (list (PendingFrame SocketAddr))) (pf : PendingFrame SocketAddr).

(** All the cached frames, in some order. *)
Definition contents m : list (PendingFrame SocketAddr) := flat_map snd (map_to_list m).

Definition arrival pf : Frame.Frame * SocketAddr := (pf.(frame), pf.(remote_addr)).

Definition cached r : list (Frame.Frame * SocketAddr) := map arrival (contents r.(pending_frames)).

Lemma contents_insert key l m : m !! key = None -> contents (<[key := l]> m) ≡ₚ l ++ contents m.
Proof. intros Hm. unfold contents. by rewrite map_to_list_insert by done. Qed.

Lemma contents_delete key l m : m !! key = Some l -> contents m ≡ₚ l ++ contents (delete key m).
Proof. intros Hm. unfold contents. by rewrite <- (map_to_list_delete _ _ _ Hm). Qed.

Lemma contents_push key pf m : contents (push_pending key pf m) ≡ₚ pf :: contents m.
Proof.
  unfold push_pending. destruct (m !! key) as [l|] eqn:E; simpl.
  - rewrite <- insert_delete_eq, contents_insert by apply lookup_delete_eq. rewrite (contents_delete _ _ _ E).
    rewrite <- app_assoc. simpl. by rewrite Permutation_middle.
  - by rewrite contents_insert.
Qed.

Definition push_all (key : Z) (kept : list (PendingFrame SocketAddr)) m :=
  fold_left (fun m pf => push_pending key pf m) kept m.

Lemma contents_push_all key kept : forall m, contents (push_all key kept m) ≡ₚ kept ++ contents m.
Proof.
  induction kept as [|pf kept IH]; intros m; [done|].
  change (push_all key (pf :: kept) m) with (push_all key kept (push_pending key pf m)).
  rewrite IH, contents_push. simpl. by rewrite Permutation_middle.
Qed.

Lemma lookup_push_all key kept m :
  push_all key kept m = match kept with [] => m | _ => <[key := default [] (m !! key) ++ kept]> m end.
Proof.
  revert m. induction kept as [|pf kept IH]; intros m; [done|].
  change (push_all key (pf :: kept) m) with (push_all key kept (push_pending key pf m)). rewrite IH. unfold push_pending. destruct kept as [|pf' kept]; [done|].
  rewrite lookup_insert_eq, insert_insert_eq. simpl. by rewrite <- app_assoc.
Qed.

(** The loop over one list of cached frames stops at the first failed send;
    until then it sends the frames of its address and puts back the others. *)
Lemma forward_pending_spec ok channel addr key pending : forall n m,
  exists k sent,
    forward_pending ok channel addr key n pending m =
      (map (fun pf => (channel, arrival pf)) (filter (fun pf => pf.(remote_addr) = addr) (take k pending)), sent,
       push_all key (filter (fun pf => pf.(remote_addr) <> addr) (take k pending)) m) /\
    ((forall i, ok i = true) -> take k pending = pending).
Proof.
  induction pending as [|pf pending IH]; intros n m.
  { exists 0%nat, n. by split. }
  simpl. case_bool_decide as Haddr.
  - destruct (ok n) eqn:Hok.
    + destruct (IH (S n) m) as (k & sent & -> & Hall). exists (S k), sent. simpl.
      rewrite filter_cons_True, filter_cons_False by (done || tauto). split; [done|]. intros Hopen. by rewrite Hall.
    + exists 0%nat, (S n). split; [done|]. intros Hopen. by rewrite Hopen in Hok.
  - destruct (IH n (push_pending key pf m)) as (k & sent & -> & Hall). exists (S k), sent. simpl.
    rewrite filter_cons_False, filter_cons_True by done. split; [done|]. intros Hopen. by rewrite Hall.
Qed.

Lemma filter_partition_perm addr (l : list (PendingFrame SocketAddr)) :
  filter (fun pf => pf.(remote_addr) = addr) l ++ filter (fun pf => pf.(remote_addr) <> addr) l ≡ₚ l.
Proof.
  induction l as [|pf l IH]; [done|]. rewrite !filter_cons. destruct (decide (pf.(remote_addr) = addr)) as [Ha|Ha].
  - rewrite decide_False by tauto. simpl. by rewrite IH.
  - rewrite decide_True by done. rewrite <- Permutation_middle. by rewrite IH.
Qed.

(** Forwarding sends what it takes out of the cache. *)
Lemma forward_keys_conserve ok channel addr keys : forall n m,
  let '(sent, m') := forward_keys ok channel addr n keys m in
  map snd sent ++ map arrival (contents m') ⊆+ map arrival (contents m).
Proof.
  induction keys as [|key keys IH]; intros n m; simpl; [done|].
  destruct (m !! key) as [pending|] eqn:E; [|by apply IH].
  destruct (forward_pending_spec ok channel addr key pending n (delete key m)) as (k & n' & -> & _).
  specialize (IH n' (push_all key (filter (fun pf => pf.(remote_addr) <> addr) (take k pending)) (delete key m))).
  destruct (forward_keys ok channel addr n' keys _) as [sent' m']. rewrite map_app, map_map, <- app_assoc. simpl.
  etrans; [apply submseteq_skips_l, IH|]. rewrite contents_push_all, (contents_delete _ _ _ E), <- map_app, app_assoc.
  rewrite filter_partition_perm. by apply (fmap_submseteq arrival), submseteq_skips_r, submseteq_take.
Qed.

Lemma pending_remove now r cid : (remove_connection_by_cid now r cid).(pending_frames) = r.(pending_frames).
Proof. unfold remove_connection_by_cid. by destruct (_ !! _). Qed.

(** ... so a registration does too, *)
Lemma register_conserve ok now r cid addr meta :
  let '(r', sent) := register_connection ok now r cid addr meta in map snd sent ++ cached r' ⊆+ cached r.
Proof.
  unfold register_connection, forward_cached_frames. simpl. rewrite lookup_insert_eq.
  match goal with |- context [forward_keys ok ?c ?a ?n ?ks ?m] =>
    pose proof (forward_keys_conserve ok c a ks n m) as Hf; destruct (forward_keys ok c a n ks m) as [sent m'] end.
  etrans; [exact Hf|]. unfold cached. destruct (r.(address_routing) !! addr) as [old|]; [|done].
  destruct (negb _); by rewrite ?pending_remove.
Qed.

(** ... and dispatching adds the frame that arrived. *)
Lemma dispatch_conserve ok now r f addr :
  let '(r', sent, _) := dispatch_frame ok now r f addr in map snd sent ++ cached r' ⊆+ (f, addr) :: cached r.
Proof.
  assert (Hsent : forall c : nat, map snd [(c, (f, addr))] ++ cached r ⊆+ (f, addr) :: cached r) by done.
  assert (Hun : forall r1, cached r1 = cached r ->
    let '(r', sent, _) :=
      (if DrainingPool.contains r1.(draining_pool) (Frame.destination_cid f) then (r1, [], ConnectionDraining)
       else if is_push f then (cache_early_frame now r1 (Frame.destination_cid f) f addr, [], FrameCached)
       else (r1, [], ConnectionNotFound)) in
    map snd (sent : list (delivery SocketAddr)) ++ cached r' ⊆+ (f, addr) :: cached r).
  { intros r1 <-. destruct (DrainingPool.contains _ _); [by apply submseteq_cons|]. destruct (is_push f); [|by apply submseteq_cons].
    unfold cached, cache_early_frame. simpl. by rewrite contents_push. }
  assert (Hrm : forall c, cached (remove_connection_by_cid now r c) ⊆+ (f, addr) :: cached r).
  { intros c. unfold cached. rewrite pending_remove. by apply submseteq_cons. }
  unfold dispatch_frame. cbv zeta.
  destruct (if negb (Frame.destination_cid f =? 0) then _ else None) as [meta|]; [destruct (ok 0%nat); [apply Hsent|apply Hrm]|].
  destruct (r.(address_routing) !! addr) as [c|]; [|by apply Hun].
  destruct (r.(active_connections) !! c) as [meta|]; [destruct (ok 0%nat); [apply Hsent|apply Hrm]|by apply Hun].
Qed.

(** The clean-up keeps exactly the frames that are young enough. *)
Lemma cleanup_expired_contents now r max_age :
  contents (cleanup_expired_frames now r max_age).(pending_frames) ≡ₚ
  filter (fun pf => duration_since now pf.(arrival_time) < max_age) (contents r.(pending_frames)).
Proof.
  unfold cleanup_expired_frames. simpl. set (young := fun pf : PendingFrame SocketAddr => _ < max_age).
  induction r.(pending_frames) as [|key l m Hm IH] using map_ind; [done|].
  rewrite contents_insert, filter_app by done. destruct (filter young l) as [|pf l'] eqn:E.
  - rewrite omap_insert_None by (by rewrite E). rewrite delete_id by (by rewrite lookup_omap, Hm). done.
  - rewrite (omap_insert_Some _ _ _ _ (pf :: l')) by (by rewrite E). rewrite contents_insert by (by rewrite lookup_omap, Hm).
    by rewrite IH.
Qed.

End facts.

(** ** The invariant of the router *)

Section invariant.
Context {SocketAddr : Type} `{HA : HashedAddr SocketAddr}.
Implicit Types (r : FrameRouter SocketAddr) (addr : SocketAddr) (ok : nat -> bool)
  (m : gmap Z (list (PendingFrame SocketAddr))) (pf : PendingFrame SocketAddr).

(** A PUSH frame that is cached where its destination and its source say. *)
Record fits (key : Z) pf : Prop := {
  fits_push : is_push pf.(frame) = true;
  fits_cid : u32_ok (Frame.destination_cid pf.(frame));
  fits_key : key = get_cache_key (Frame.destination_cid pf.(frame)) pf.(remote_addr);
}.

Definition caches_ok m : Prop := map_Forall (fun key l => l <> [] /\ Forall (fits key) l) m.

(** No cached list is empty, the frames are where they belong, and no
    connection has an id that is draining. *)
Record router_ok r : Prop := {
  ok_caches : caches_ok r.(pending_frames);
  ok_disjoint cid : is_Some (r.(active_connections) !! cid) -> is_draining r cid = false;
}.

Lemma zero_key addr : get_cache_key 0 addr = Z.lor (address_hash addr) (Z.shiftl 1 63).
Proof. done. Qed.

(** The keys of addresses are out of the range of connection ids. *)
Lemma zero_key_large addr : 2 ^ 63 <= get_cache_key 0 addr.
Proof.
  rewrite zero_key. pose proof (address_hash_ok addr) as [Hh _]. change (Z.shiftl 1 63) with (2 ^ 63).
  destruct (Z.lt_ge_cases (Z.lor (address_hash addr) (2 ^ 63)) (2 ^ 63)) as [Hlt|]; [|done].
  assert (Hb : Z.testbit (Z.lor (address_hash addr) (2 ^ 63)) 63 = true).
  { rewrite Z.lor_spec, (Z.pow2_bits_true 63) by lia. apply orb_true_r. }
  assert (H0 : 0 <= Z.lor (address_hash addr) (2 ^ 63)) by (apply Z.lor_nonneg; lia).
  rewrite Z.testbit_true, Z.div_small in Hb by lia. done.
Qed.

(** The key tells the frames for one id from all others, *)
Lemma fits_for_cid cid pf : u32_ok cid -> cid <> 0 -> fits cid pf -> Frame.destination_cid pf.(frame) = cid.
Proof.
  intros Hcid Hne [_ _ Hkey]. unfold get_cache_key in Hkey. destruct (Z.eqb_spec (Frame.destination_cid pf.(frame)) 0) as [E|E].
  - pose proof (zero_key_large pf.(remote_addr)) as Hl. rewrite zero_key in Hl. simpl in Hkey. unfold u32_ok in Hcid. lia.
  - by simpl in Hkey.
Qed.

(** ... and the frames for no id. *)
Lemma fits_for_zero addr pf : fits (get_cache_key 0 addr) pf -> Frame.destination_cid pf.(frame) = 0.
Proof.
  intros [_ Hcid Hkey]. pose proof (zero_key_large addr). unfold get_cache_key in Hkey at 2.
  destruct (Z.eqb_spec (Frame.destination_cid pf.(frame)) 0) as [E|E]; [done|]. simpl negb in Hkey. cbv iota in Hkey.
  unfold u32_ok in Hcid. lia.
Qed.

Lemma caches_push key pf m : caches_ok m -> fits key pf -> caches_ok (push_pending key pf m).
Proof.
  intros Hm Hpf. apply map_Forall_insert_2; [|done]. split; [by destruct (default [] (m !! key))|].
  apply Forall_app. split; [|by constructor]. destruct (m !! key) as [l|] eqn:E; [by apply Hm in E as []|constructor].
Qed.

Lemma caches_push_all key kept : forall m, caches_ok m -> Forall (fits key) kept -> caches_ok (push_all key kept m).
Proof.
  induction kept as [|pf kept IH]; intros m Hm Hk; [done|]. inversion Hk; subst.
  change (push_all key (pf :: kept) m) with (push_all key kept (push_pending key pf m)). auto using caches_push.
Qed.

Lemma caches_forward ok channel addr keys : forall n m,
  caches_ok m -> caches_ok (forward_keys ok channel addr n keys m).2.
Proof.
  induction keys as [|key keys IH]; intros n m Hm; simpl; [done|].
  destruct (m !! key) as [pending|] eqn:E; [|by apply IH].
  destruct (forward_pending_spec ok channel addr key pending n (delete key m)) as (k & n' & -> & _).
  specialize (IH n' (push_all key (filter (fun pf => pf.(remote_addr) <> addr) (take k pending)) (delete key m))).
  destruct (forward_keys ok channel addr n' keys _) as [sent' m']. simpl in *. apply IH, caches_push_all.
  - by apply map_Forall_delete.
  - apply Hm in E as [_ Hl]. apply Forall_forall. intros pf Hpf. rewrite Forall_forall in Hl. apply Hl.
    apply list_elem_of_filter in Hpf as [_ Hpf]. apply elem_of_take in Hpf as (i & Hi & _). by eapply list_elem_of_lookup_2.
Qed.

Lemma new_ok pool : router_ok (new pool).
Proof. split; [apply map_Forall_empty|]. simpl. intros cid [? H1]. by rewrite lookup_empty in H1. Qed.

Lemma remove_ok now r cid : router_ok r -> router_ok (remove_connection_by_cid now r cid).
Proof.
  intros Hr. unfold remove_connection_by_cid. destruct (r.(active_connections) !! cid) as [old|] eqn:E; [|done].
  split; [apply Hr|]. simpl. intros c [meta Hc]. apply lookup_delete_Some in Hc as [Hne Hc].
  unfold is_draining. simpl. rewrite DrainingPool.contains_insert, bool_decide_eq_false_2 by congruence.
  simpl. apply (ok_disjoint _ Hr). by eexists.
Qed.

Lemma draining_remove now r cid c : c <> cid -> is_draining (remove_connection_by_cid now r cid) c = is_draining r c.
Proof.
  intros Hne. unfold remove_connection_by_cid. destruct (_ !! _); [|done]. unfold is_draining. simpl.
  by rewrite DrainingPool.contains_insert, bool_decide_eq_false_2.
Qed.

Lemma cache_early_ok now r f addr :
  router_ok r -> is_push f = true -> u32_ok (Frame.destination_cid f) ->
  router_ok (cache_early_frame now r (Frame.destination_cid f) f addr).
Proof. intros Hr Hf Hcid. split; [|apply (ok_disjoint _ Hr)]. apply caches_push; [apply Hr|done]. Qed.

Lemma dispatch_ok ok now r f addr :
  router_ok r -> u32_ok (Frame.destination_cid f) -> router_ok (dispatch_frame ok now r f addr).1.1.
Proof.
  intros Hr Hcid. unfold dispatch_frame. cbv zeta.
  assert (Hun : forall r1, router_ok r1 -> router_ok
      (if DrainingPool.contains r1.(draining_pool) (Frame.destination_cid f) then (r1, [] : list (delivery SocketAddr), ConnectionDraining)
       else if is_push f then (cache_early_frame now r1 (Frame.destination_cid f) f addr, [], FrameCached)
       else (r1, [], ConnectionNotFound)).1.1).
  { intros r1 Hr1. destruct (DrainingPool.contains _ _); [done|]. destruct (is_push f) eqn:Ef; [|done]. by apply cache_early_ok. }
  destruct (if negb (Frame.destination_cid f =? 0) then _ else None) as [meta|];
    [destruct (ok 0%nat); [done|by apply remove_ok]|].
  destruct (r.(address_routing) !! addr) as [c|]; [|by apply Hun].
  destruct (r.(active_connections) !! c) as [meta|]; [destruct (ok 0%nat); [done|by apply remove_ok]|].
  apply Hun. by split; apply Hr.
Qed.

Lemma register_ok ok now r cid addr meta :
  router_ok r -> is_draining r cid = false -> router_ok (register_connection ok now r cid addr meta).1.
Proof.
  intros Hr Hfree. unfold register_connection, forward_cached_frames.
  set (r1 := match _ with Some _ => _ | None => r end).
  assert (H1 : router_ok r1 /\ is_draining r1 cid = false).
  { subst r1. destruct (r.(address_routing) !! addr) as [old|]; [|done]. destruct (Z.eqb_spec old cid); simpl; [done|].
    split; [by apply remove_ok|]. by rewrite draining_remove. }
  destruct H1 as [H1 Hf1]. cbn [active_connections address_routing draining_pool pending_frames]. rewrite lookup_insert_eq.
  match goal with |- context [forward_keys ok ?c ?a ?n ?ks ?m] =>
    pose proof (caches_forward ok c a ks n m (ok_caches _ H1)) as Hc; destruct (forward_keys ok c a n ks m) as [sent m'] end.
  split; [done|]. simpl. intros c [x Hx]. destruct (decide (c = cid)) as [->|Hne]; [done|].
  rewrite lookup_insert_ne in Hx by done. apply (ok_disjoint _ H1). by eexists.
Qed.

Lemma update_address_ok r cid addr : router_ok r -> router_ok (update_connection_address r cid addr).
Proof. intros Hr. split; apply Hr. Qed.

Lemma cleanup_draining_ok now r : router_ok r -> router_ok (cleanup_draining_pool now r).
Proof.
  intros Hr. split; [apply Hr|]. intros cid Hcid. apply (ok_disjoint _ Hr) in Hcid.
  unfold is_draining, DrainingPool.contains in *. simpl. apply bool_decide_eq_false in Hcid. apply bool_decide_eq_false.
  intros [t Ht]. apply DrainingPool.lookup_cleanup in Ht as [Ht _]. apply Hcid. by eexists.
Qed.

Lemma cleanup_expired_ok now r max_age : router_ok r -> router_ok (cleanup_expired_frames now r max_age).
Proof.
  intros Hr. split; [|apply (ok_disjoint _ Hr)]. intros key l Hl. simpl in Hl. apply lookup_omap_Some in Hl as (l0 & Hf & H0).
  apply (ok_caches _ Hr) in H0 as [_ H0]. destruct (filter _ l0) as [|pf l1] eqn:E; [done|]. injection Hf as <-.
  split; [done|]. rewrite <- E. apply Forall_forall. intros x Hx. apply list_elem_of_filter in Hx as [_ Hx].
  by rewrite Forall_forall in H0; apply H0.
Qed.

End invariant.

(** ** What a registration delivers *)

Section delivery.
Context {SocketAddr : Type} `{HA : HashedAddr SocketAddr}.
Implicit Types (r : FrameRouter SocketAddr) (addr : SocketAddr) (ok : nat -> bool)
  (m : gmap Z (list (PendingFrame SocketAddr))) (pf : PendingFrame SocketAddr).

Definition keys_for (cid : Z) addr : list Z := (if negb (cid =? 0) then [cid] else []) ++ [get_cache_key 0 addr].

(** The frames from [addr] under a key, in the order of their arrival. *)
Definition waiting m addr (key : Z) : list (PendingFrame SocketAddr) :=
  filter (fun pf => pf.(remote_addr) = addr) (default [] (m !! key)).

Lemma forward_keys_open ok channel addr keys : (forall i, ok i = true) -> NoDup keys -> forall n m,
  let '(sent, m') := forward_keys ok channel addr n keys m in
  sent = map (fun pf => (channel, arrival pf)) (flat_map (waiting m addr) keys) /\
  forall key, waiting m' addr key = (if bool_decide (key ∈ keys) then [] else waiting m addr key).
Proof.
  intros Hopen Hnd. induction Hnd as [|key keys Hnew Hnd IH]; intros n m; simpl; [done|].
  assert (Hother : forall m1, (forall key', key' <> key -> m1 !! key' = m !! key') ->
      flat_map (waiting m1 addr) keys = flat_map (waiting m addr) keys).
  { intros m1 H1. clear -Hnew H1. induction keys as [|k keys IH]; [done|]. simpl. apply not_elem_of_cons in Hnew as [Hne Hnew].
    rewrite IH by done. unfold waiting. by rewrite H1 by done. }
  destruct (m !! key) as [pending|] eqn:E.
  - destruct (forward_pending_spec ok channel addr key pending n (delete key m)) as (k & n' & -> & Hall).
    rewrite Hall by done. set (m1 := push_all key _ (delete key m)).
    assert (Hm1 : forall key', key' <> key -> m1 !! key' = m !! key').
    { intros key' Hne. unfold m1. rewrite lookup_push_all. destruct (filter _ _); by rewrite ?lookup_insert_ne, lookup_delete_ne. }
    assert (Hkey : waiting m1 addr key = []).
    { unfold waiting, m1. rewrite lookup_push_all. destruct (filter (fun pf => pf.(remote_addr) <> addr) pending) as [|x l] eqn:Ef.
      - by rewrite lookup_delete_eq.
      - rewrite lookup_insert_eq, lookup_delete_eq. simpl default. rewrite <- Ef, list_filter_filter.
        apply filter_none, Forall_forall. tauto. }
    specialize (IH n' m1). destruct (forward_keys ok channel addr n' keys m1) as [sent' m']. destruct IH as [-> Hm'].
    split; [unfold waiting at 2; rewrite E; simpl; by rewrite map_app, Hother|].
    intros key'. rewrite Hm'.
    destruct (decide (key' = key)) as [->|Hne].
    + rewrite (bool_decide_eq_true_2 (key ∈ key :: keys)) by set_solver. by case_bool_decide.
    + unfold waiting. rewrite Hm1 by done. by rewrite (bool_decide_ext (key' ∈ key :: keys) (key' ∈ keys)) by set_solver.
  - specialize (IH n m). destruct (forward_keys ok channel addr n keys m) as [sent' m']. destruct IH as [-> Hm'].
    split; [unfold waiting at 2; by rewrite E|]. intros key'. rewrite Hm'.
    destruct (decide (key' = key)) as [->|Hne].
    + rewrite (bool_decide_eq_true_2 (key ∈ key :: keys)) by set_solver. unfold waiting. rewrite E. by case_bool_decide.
    + by rewrite (bool_decide_ext (key' ∈ key :: keys) (key' ∈ keys)) by set_solver.
Qed.

Lemma keys_nodup cid addr : u32_ok cid -> NoDup (keys_for cid addr).
Proof.
  intros Hcid. unfold keys_for. pose proof (zero_key_large addr). unfold u32_ok in Hcid.
  destruct (negb _); simpl; repeat constructor; set_solver by lia.
Qed.

Lemma elem_of_contents m pf : pf ∈ contents m <-> exists key l, m !! key = Some l /\ pf ∈ l.
Proof.
  unfold contents. rewrite list_elem_of_In, in_flat_map. split.
  - intros ([key l] & Hkl & Hpf). exists key, l. rewrite <- elem_of_map_to_list, !list_elem_of_In. done.
  - intros (key & l & Hkl & Hpf). exists (key, l). rewrite <- !list_elem_of_In. by rewrite elem_of_map_to_list.
Qed.

(** What a new connection may get of the cache: frames from its address that
    name it or no connection. *)
Definition meant_for (cid : Z) addr pf : Prop :=
  pf.(remote_addr) = addr /\ (Frame.destination_cid pf.(frame) = 0 \/ Frame.destination_cid pf.(frame) = cid).

Lemma waiting_meant m cid addr key pf :
  caches_ok m -> u32_ok cid -> key ∈ keys_for cid addr -> pf ∈ waiting m addr key -> meant_for cid addr pf.
Proof.
  intros Hm Hcid Hkey Hpf. unfold waiting in Hpf. apply list_elem_of_filter in Hpf as [Haddr Hpf]. split; [done|].
  destruct (m !! key) as [l|] eqn:E; [|by apply elem_of_nil in Hpf]. apply Hm in E as [_ Hl].
  rewrite Forall_forall in Hl. specialize (Hl _ Hpf). unfold keys_for in Hkey. rewrite elem_of_app in Hkey.
  destruct Hkey as [Hkey|Hkey].
  - destruct (Z.eqb_spec cid 0) as [E0|E0]; simpl in Hkey; [by apply elem_of_nil in Hkey|].
    apply list_elem_of_singleton in Hkey as ->. right. by apply fits_for_cid.
  - apply list_elem_of_singleton in Hkey as ->. left. by eapply fits_for_zero.
Qed.

Lemma meant_waiting m cid addr pf :
  caches_ok m -> pf ∈ contents m -> meant_for cid addr pf -> exists key, key ∈ keys_for cid addr /\ pf ∈ waiting m addr key.
Proof.
  intros Hm Hpf [Haddr Hdest]. apply elem_of_contents in Hpf as (key & l & Hl & Hpf).
  pose proof (Hm _ _ Hl) as [_ Hfits]. rewrite Forall_forall in Hfits. destruct (Hfits _ Hpf) as [_ _ Hkey].
  exists key. split.
  - rewrite Haddr in Hkey. unfold keys_for. destruct Hdest as [Hd|Hd]; rewrite Hd in Hkey; [set_solver|].
    unfold get_cache_key in Hkey |- *. destruct (Z.eqb_spec cid 0); simpl in *; set_solver.
  - unfold waiting. rewrite Hl. simpl. by apply list_elem_of_filter.
Qed.

Lemma register_forwards ok now r cid addr meta :
  exists r1, pending_frames r1 = pending_frames r /\
  register_connection ok now r cid addr meta =
    (let '(sent, m) := forward_keys ok meta.(sender) addr 0 (keys_for cid addr) r.(pending_frames) in
     (with_pending r1 m, sent)).
Proof.
  unfold register_connection, forward_cached_frames.
  set (r1 := match _ with Some _ => _ | None => r end).
  assert (H1 : r1.(pending_frames) = r.(pending_frames)).
  { subst r1. destruct (_ !! addr) as [old|]; [|done]. destruct (negb _); by rewrite ?pending_remove. }
  cbn [active_connections address_routing draining_pool pending_frames]. rewrite lookup_insert_eq.
  exists {| active_connections := <[cid := meta]> r1.(active_connections); address_routing := <[addr := cid]> r1.(address_routing);
            draining_pool := r1.(draining_pool); pending_frames := r1.(pending_frames) |}.
  split; [done|]. unfold keys_for. by rewrite H1.
Qed.

(** Whatever happens to the channel, a connection gets only what is meant for it. *)
Lemma forward_keys_meant ok channel cid addr (keys : list Z) : u32_ok cid -> forall n m,
  caches_ok m -> keys ⊆ keys_for cid addr ->
  Forall (fun d => d.1 = channel /\ exists pf, d.2 = arrival pf /\ is_push pf.(frame) = true /\ meant_for cid addr pf)
    (forward_keys ok channel addr n keys m).1.
Proof.
  intros Hcid. induction keys as [|key keys IH]; intros n m Hm Hkeys; simpl; [done|].
  destruct (m !! key) as [pending|] eqn:E; [|apply IH; set_solver].
  destruct (forward_pending_spec ok channel addr key pending n (delete key m)) as (k & n' & -> & _).
  set (m1 := push_all key _ (delete key m)).
  assert (Hpend : forall pf, pf ∈ take k pending -> pf ∈ pending).
  { intros pf Hpf. apply elem_of_take in Hpf as (i & Hi & _). by eapply list_elem_of_lookup_2. }
  pose proof (Hm _ _ E) as [_ Hl]. rewrite Forall_forall in Hl.
  assert (H1 : caches_ok m1).
  { apply caches_push_all; [by apply map_Forall_delete|]. apply Forall_forall. intros pf Hpf.
    apply list_elem_of_filter in Hpf as [_ Hpf]. auto. }
  specialize (IH n' m1 H1). destruct (forward_keys ok channel addr n' keys m1) as [sent' m']. simpl in *.
  apply Forall_app. split; [|apply IH; set_solver]. apply Forall_forall. intros d Hd.
  apply list_elem_of_fmap in Hd as (pf & -> & Hpf). apply list_elem_of_filter in Hpf as [Haddr Hpf]. split; [done|].
  exists pf. split; [done|]. split; [by apply Hl, Hpend|]. apply (waiting_meant m cid addr key); [done..|set_solver|].
  unfold waiting. rewrite E. apply list_elem_of_filter. auto.
Qed.

End delivery.

(** ** Theorems *)

Section theorems.
Context {SocketAddr : Type} `{HA : HashedAddr SocketAddr}.
Implicit Types (r : FrameRouter SocketAddr) (addr : SocketAddr) (ok : nat -> bool) (pf : PendingFrame SocketAddr).

Lemma register_open ok now r cid addr meta :
  router_ok r -> u32_ok cid -> (forall i, ok i = true) ->
  let '(r', sent) := register_connection ok now r cid addr meta in
  sent = map (fun pf => (meta.(sender), arrival pf)) (flat_map (waiting r.(pending_frames) addr) (keys_for cid addr)) /\
  (forall pf, pf ∈ contents r.(pending_frames) -> meant_for cid addr pf -> (meta.(sender), arrival pf) ∈ sent) /\
  (forall pf, pf ∈ contents r'.(pending_frames) -> ~ meant_for cid addr pf).
Proof.
  intros Hr Hcid Hopen. destruct (register_forwards ok now r cid addr meta) as (r1 & _ & ->).
  pose proof (forward_keys_open ok meta.(sender) addr _ Hopen (keys_nodup cid addr Hcid) 0 r.(pending_frames)) as H1.
  pose proof (caches_forward ok meta.(sender) addr (keys_for cid addr) 0 _ (ok_caches _ Hr)) as H2.
  destruct (forward_keys ok _ addr 0 _ _) as [sent m]. destruct H1 as [-> Hm]. split; [done|]. split.
  - intros pf Hpf Hmeant. destruct (meant_waiting _ _ _ _ (ok_caches _ Hr) Hpf Hmeant) as (key & Hkey & Hw).
    apply list_elem_of_fmap. exists pf. split; [done|]. apply list_elem_of_In, in_flat_map. exists key.
    by rewrite <- !list_elem_of_In.
  - intros pf Hpf Hmeant. destruct (meant_waiting _ _ _ _ H2 Hpf Hmeant) as (key & Hkey & Hw).
    rewrite Hm, bool_decide_eq_true_2 in Hw by done. by apply elem_of_nil in Hw.
Qed.

(** Frames that came before their connection are handed to it.  When a
    connection is registered, its endpoint gets every cached frame that its
    address sent to its id or, as 0-RTT data, to no id, each list in the order
    of arrival, and none of them stays in the cache. *)
Theorem register_delivers_cached ok now r cid addr meta :
  router_ok r -> u32_ok cid -> (forall i, ok i = true) ->
  let '(r', sent) := register_connection ok now r cid addr meta in
  sent = map (fun pf => (meta.(sender), arrival pf)) (flat_map (waiting r.(pending_frames) addr) (keys_for cid addr)) /\
  (forall pf, pf ∈ contents r.(pending_frames) -> meant_for cid addr pf -> (meta.(sender), arrival pf) ∈ sent) /\
  (forall pf, pf ∈ contents r'.(pending_frames) -> ~ meant_for cid addr pf).
Proof. apply register_open. Qed.

(** Cached frames never reach a connection they are not meant for: a
    frame that a registration forwards goes to the new endpoint, came from the
    address of the connection, and names its id or none. *)
Theorem cached_frames_isolated ok now r cid addr meta :
  router_ok r -> u32_ok cid ->
  Forall (fun d => d.1 = meta.(sender) /\ exists pf, d.2 = arrival pf /\ is_push pf.(frame) = true /\ meant_for cid addr pf)
    (register_connection ok now r cid addr meta).2.
Proof.
  intros Hr Hcid. destruct (register_forwards ok now r cid addr meta) as (r1 & _ & ->).
  pose proof (forward_keys_meant ok meta.(sender) cid addr (keys_for cid addr) Hcid 0 _ (ok_caches _ Hr) (reflexivity _)) as H1.
  by destruct (forward_keys ok _ addr 0 _ _).
Qed.

(** A frame for the id of a connection reaches it from any address, *)
Lemma dispatch_by_cid ok now r f addr meta :
  Frame.destination_cid f <> 0 -> r.(active_connections) !! Frame.destination_cid f = Some meta -> ok 0%nat = true ->
  dispatch_frame ok now r f addr = (r, [(meta.(sender), (f, addr))], Dispatched).
Proof. intros Hne Hact Hok. unfold dispatch_frame. apply Z.eqb_neq in Hne. by rewrite Hne, Hact, Hok. Qed.

(** ... one for a draining id is dropped if its address has no connection, *)
Lemma dispatch_draining ok now r f addr :
  router_ok r -> is_draining r (Frame.destination_cid f) = true -> r.(address_routing) !! addr = None ->
  dispatch_frame ok now r f addr = (r, [], ConnectionDraining).
Proof.
  intros Hr Hdrain Haddr. unfold dispatch_frame. rewrite Haddr. unfold is_draining in Hdrain. rewrite Hdrain.
  destruct (r.(active_connections) !! Frame.destination_cid f) as [meta|] eqn:E; [|by destruct (negb _)].
  assert (Hd : is_draining r (Frame.destination_cid f) = false) by (apply (ok_disjoint _ Hr); by eexists).
  unfold is_draining in Hd. congruence.
Qed.

(** ... but goes to a newer connection of the same address: a delayed frame of
    a closed connection is handed to its successor. *)
Lemma draining_frame_misdelivered ok now r f addr cid meta :
  router_ok r -> is_draining r (Frame.destination_cid f) = true ->
  r.(address_routing) !! addr = Some cid -> r.(active_connections) !! cid = Some meta -> ok 0%nat = true ->
  dispatch_frame ok now r f addr = (r, [(meta.(sender), (f, addr))], Dispatched) /\ Frame.destination_cid f <> cid.
Proof.
  intros Hr Hdrain Haddr Hact Hok. unfold dispatch_frame. rewrite Haddr, Hact, Hok.
  assert (Hnone : r.(active_connections) !! Frame.destination_cid f = None).
  { destruct (r.(active_connections) !! Frame.destination_cid f) eqn:E; [|done]. rewrite (ok_disjoint _ Hr) in Hdrain; [done|rewrite E; by eexists]. }
  rewrite Hnone. split; [by destruct (negb _)|]. intros E. by rewrite E, Hact in Hnone.
Qed.

(** A SYN from the address of a connection closes it. *)
Lemma register_replaces ok now r cid addr meta old_cid old :
  r.(address_routing) !! addr = Some old_cid -> r.(active_connections) !! old_cid = Some old -> old_cid <> cid ->
  let '(r', _) := register_connection ok now r cid addr meta in
  r'.(active_connections) !! old_cid = None /\ is_draining r' old_cid = true /\
  r'.(active_connections) !! cid = Some meta /\ r'.(address_routing) !! addr = Some cid.
Proof.
  intros Haddr Hold Hne. unfold register_connection, forward_cached_frames. rewrite Haddr.
  apply Z.eqb_neq in Hne as Hb. rewrite Hb. simpl negb. cbv iota. unfold remove_connection_by_cid. rewrite Hold.
  cbn [active_connections address_routing draining_pool pending_frames]. rewrite lookup_insert_eq.
  destruct (forward_keys _ _ _ _ _ _) as [sent m]. cbn [with_pending active_connections address_routing draining_pool].
  rewrite lookup_insert_ne, lookup_delete_eq by done. rewrite !lookup_insert_eq. split; [done|]. split; [|done].
  unfold is_draining. simpl. rewrite DrainingPool.contains_insert, bool_decide_eq_true_2 by done. done.
Qed.

End theorems.

(** Addresses as numbers, with a poor hash. *)
#[global] Instance example_hash : HashedAddr Z.
Proof.
  refine {| address_hash := fun addr => addr mod 16; iter := map_to_list |}; [|done].
  intros addr. unfold u64_ok. pose proof (Z.mod_pos_bound addr 16). lia.
Defined.

(** A router that has cached frames of two clients and for a connection. *)
Definition example_early : list (Frame.Frame * Z) :=
  [(Frame.new_push 0 0 0 10 0 [Byte.x61], 100); (Frame.new_push 5 1 0 10 0 [Byte.x62], 100);
   (Frame.new_push 0 0 0 10 0 [Byte.x7a], 116); (Frame.new_push 0 2 0 10 0 [Byte.x63], 100)].

Definition example_router : FrameRouter Z :=
  fold_left (fun r '(f, addr) => (dispatch_frame (fun _ => true) 0 r f addr).1.1) example_early
    (new (DrainingPool.new (from_secs 5))).

Lemma example_router_ok : router_ok example_router.
Proof.
  unfold example_router, example_early. cbn [fold_left].
  repeat (apply dispatch_ok; [|by_decide]). apply new_ok.
Qed.

Lemma register_delivers_cached_witness :
  let '(r', sent) := register_connection (fun _ => true) 1 example_router 5 100 {| sender := 7 |} in
  map (fun d => (d.1, Frame.destination_cid d.2.1)) sent = [(7%nat, 5); (7%nat, 0); (7%nat, 0)] /\
  (forall pf, pf ∈ contents r'.(pending_frames) -> ~ meant_for 5 100 pf).
Proof.
  pose proof (register_delivers_cached (fun _ => true) 1 example_router 5 100 {| sender := 7 |}
    example_router_ok ltac:(by_decide) (fun _ => eq_refl)) as Hd.
  assert (Hs : map (fun d => (d.1, Frame.destination_cid d.2.1))
    (register_connection (fun _ => true) 1 example_router 5 100 {| sender := 7 |}).2 = [(7%nat, 5); (7%nat, 0); (7%nat, 0)])
    by (vm_compute; reflexivity).
  destruct (register_connection _ _ _ _ _ _) as [r' sent]. destruct Hd as (_ & _ & Hd). split; [exact Hs|exact Hd].
Defined.

Lemma cached_frames_isolated_witness :
  Forall (fun d => d.1 = 7%nat /\ exists pf, d.2 = arrival pf /\ is_push pf.(frame) = true /\ meant_for 5 100 pf)
    (register_connection (fun n => Nat.eqb n 0) 1 example_router 5 100 {| sender := 7 |}).2.
Proof.
  apply (cached_frames_isolated (fun n => Nat.eqb n 0) 1 example_router 5 100 {| sender := 7 |});
    [exact example_router_ok|by_decide].
Defined.

End FrameRouter.
