(* ===== verification/Socket.v ===== *)
(** * Socket: session coordinator and event loop

    Models [src/socket/event_loop.rs], [src/socket/event_loop/session_coordinator.rs]
    and [src/socket/command.rs]: how datagrams and commands create, find,
    move and remove connections.  Router and draining pool are those of
    [Routing], the transport manager that of [Transport], the datagrams those
    of [Udp], and a connection is created by [EventLoop].

    The outside answers through an [Env], one answer per operation ([ops]
    counts them); what the socket does to the outside is its [log].  A send to
    an endpoint is one step with its answer: the code awaits it on a bounded
    channel, and the time the loop may wait there is not modelled.  The loop
    that draws connection ids runs as long as ids collide: it gets [fuel], and
    [Looping] stands for a run that needs more. *)

From S2P Require Import Prelude Packet Config Frame Congestion Lifecycle TimingManager Endpoint EventLoop Transport Routing Udp.

Module Socket.

Abbreviation Connection SocketAddr := (Endpoint.World Vegas.Vegas SocketAddr).

Section socket.
Context {SocketAddr : Type} `{HA : HashedAddr SocketAddr} {Tr : Type}.

Record Env := {
  clock : nat -> Instant;
  random : nat -> nat -> Z;                  (* rand::random::<u32>() *)
  send_ok : nat -> nat -> bool;              (* send to an endpoint that may be gone *)
  try_send_ok : nat -> nat -> bool;          (* try_send to a new endpoint *)
  accept_ok : nat -> bool;                   (* try_send to the listener *)
  endpoint_env : nat -> Endpoint.Env;
  bind : nat -> SocketAddr -> option (Tr * option SocketAddr);
  transport_open : nat -> bool;
  transport_addr : nat -> Tr -> option SocketAddr;
}.

Inductive Error := EndpointError (e : Endpoint.Error) | ChannelClosed | TransportError (e : Transport.Error).

(** [config] is the socket's; [command_tx], [accept_tx] and [timer_handle]
    are channels and have no state here. *)
Record SocketSessionCoordinator := {
  transport_manager : @Transport.TransportManager Tr;
  frame_router : FrameRouter.FrameRouter SocketAddr;
  config : Config.Config;
}.

Inductive effect :=
| Delivered (d : FrameRouter.delivery SocketAddr)        (* into the channel of an endpoint *)
| Spawned (channel : nat) (cid : Z) (endpoint : Connection SocketAddr) (* a new endpoint task *)
| Accepted (channel : nat) (addr : SocketAddr)           (* its stream given to the listener *)
| ToTransport (commands : list (@Transport.TransportCommand Tr (list Frame.Frame)))
| ConnectResponse (result : nat + Error)
| RebindResponse (result : unit + Error)
| LocalAddrResponse (result : option SocketAddr).

Record World := {
  coordinator : SocketSessionCoordinator;
  channels : nat;                            (* created so far *)
  ops : nat;
  log : list effect;
}.

Inductive result (A : Type) := Returned (w : World) (a : A) | Looping | Panicked.
#[global] Arguments Returned {A} w a.
#[global] Arguments Looping {A}.
#[global] Arguments Panicked {A}.

Variable env : Env.
Variable fuel : nat.
Implicit Types (w : World) (addr : SocketAddr) (r : FrameRouter.FrameRouter SocketAddr).

Definition router w : FrameRouter.FrameRouter SocketAddr := w.(coordinator).(frame_router).

(** One operation: a new router and what it did. *)
Definition acted w r (effects : list effect) : World :=
  {| coordinator := {| transport_manager := w.(coordinator).(transport_manager); frame_router := r;
                       config := w.(coordinator).(config) |};
     channels := w.(channels); ops := S w.(ops); log := w.(log) ++ effects |}.

Definition with_channel w : World :=
  {| coordinator := w.(coordinator); channels := S w.(channels); ops := w.(ops); log := w.(log) |}.

Definition now w : Instant := env.(clock) w.(ops).

(** ** [session_coordinator.rs] *)

Fixpoint generate_loop (fuel : nat) (candidate_cid : nat -> Z) r : option Z :=
  match fuel with
  | O => None
  | S fuel =>
    if negb (FrameRouter.connection_exists r (candidate_cid 0%nat)) && negb (FrameRouter.is_draining r (candidate_cid 0%nat))
    then Some (candidate_cid 0%nat)
    else generate_loop fuel (fun n => candidate_cid (S n)) r
  end.

Definition generate_unique_connection_id w : option Z :=
  generate_loop fuel (env.(random) w.(ops)) (router w).

Definition validate_protocol_version w (client_version : Z) : bool :=
  client_version =? w.(coordinator).(config).(Config.protocol_version).

(** Sends the PUSH frames; [n] counts the sends. *)
Fixpoint handle_zero_rtt_frames (try_send : nat -> bool) (n : nat) (channel : nat) addr (frames : list Frame.Frame)
    : list (FrameRouter.delivery SocketAddr) :=
  match frames with
  | [] => []
  | frame :: frames =>
    if FrameRouter.is_push frame then
      (if try_send n then [(channel, (frame, addr))] else []) ++
      handle_zero_rtt_frames try_send (S n) channel addr frames
    else handle_zero_rtt_frames try_send n channel addr frames
  end.

Definition create_server_endpoint w (local_cid peer_cid : Z) addr : outcome (Connection SocketAddr * (unit + Endpoint.Error)) :=
  EventLoop.new_server (env.(endpoint_env) w.(ops)) w.(coordinator).(config) addr local_cid peer_cid
    (Vegas.new w.(coordinator).(config)).

Definition register_connection_to_router w (local_cid : Z) addr (channel : nat) : World :=
  let '(r, sent) := FrameRouter.register_connection (env.(send_ok) w.(ops)) (now w) (router w) local_cid addr
                      {| FrameRouter.sender := channel |} in
  acted w r (map Delivered sent).

Definition send_connection_to_user w (channel : nat) addr (local_cid : Z) : World * (unit + Error) :=
  if env.(accept_ok) w.(ops) then (acted w (router w) [Accepted channel addr], inl tt)
  else (acted w (FrameRouter.remove_connection_by_cid (now w) (router w) local_cid) [], inr ChannelClosed).

Definition handle_new_connection w (frames : list Frame.Frame) addr : result (unit + Error) :=
  match frames with
  | [] => Returned w (inl tt)
  | Frame.Syn header :: frames =>
    if negb (validate_protocol_version w header.(LongHeader.protocol_version)) then Returned w (inl tt) else
    let peer_cid := header.(LongHeader.source_cid) in
    match generate_unique_connection_id w with
    | None => Looping
    | Some local_cid =>
      let channel := w.(channels) in
      match create_server_endpoint w local_cid peer_cid addr with
      | Panic => Panicked
      | Done (_, inr e) => Returned (acted (with_channel w) (router w) []) (inr (EndpointError e))
      | Done (endpoint, inl _) =>
        let zero_rtt := handle_zero_rtt_frames (env.(try_send_ok) w.(ops)) 0 channel addr frames in
        let w := acted (with_channel w) (router w) (map Delivered zero_rtt ++ [Spawned channel local_cid endpoint]) in
        let w := register_connection_to_router w local_cid addr channel in
        let '(w, result) := send_connection_to_user w channel addr local_cid in
        Returned w result
      end
    end
  | _ :: _ => Returned w (inl tt)
  end.

Definition create_client_connection w addr (cfg : Config.Config) (initial_data : option (list byte))
    : result (nat + Error) :=
  match generate_unique_connection_id w with
  | None => Looping
  | Some local_cid =>
    let channel := w.(channels) in
    match EventLoop.new_client (env.(endpoint_env) w.(ops)) cfg addr local_cid (Vegas.new cfg) initial_data with
    | Panic => Panicked
    | Done (_, inr e) => Returned (acted (with_channel w) (router w) []) (inr (EndpointError e))
    | Done (endpoint, inl _) =>
      let w := acted (with_channel w) (router w) [Spawned channel local_cid endpoint] in
      Returned (register_connection_to_router w local_cid addr channel) (inl channel)
    end
  end.

Definition dispatch_frame w (frame : Frame.Frame) addr : World :=
  let '(r, sent, _) := FrameRouter.dispatch_frame (env.(send_ok) w.(ops)) (now w) (router w) frame addr in
  acted w r (map Delivered sent).

(** ** [event_loop.rs] *)

Inductive SocketActorCommand :=
| Connect (remote_addr : SocketAddr) (cfg : Config.Config) (initial_data : option (list byte))
| Rebind (new_local_addr : SocketAddr)
| UpdateAddr (cid : Z) (new_addr : SocketAddr)
| RemoveConnection (cid : Z)
| GetLocalAddr.

Definition respond w (effects : list effect) : World := acted w (router w) effects.

Definition handle_rebind w (new_addr : SocketAddr) : World :=
  let '(manager, res, commands) :=
    Transport.rebind w.(coordinator).(transport_manager) (env.(bind) w.(ops) new_addr) (env.(transport_open) w.(ops)) in
  let w := {| coordinator := {| transport_manager := manager; frame_router := router w;
                                config := w.(coordinator).(config) |};
              channels := w.(channels); ops := w.(ops); log := w.(log) |} in
  respond w [ToTransport commands;
             RebindResponse (match res with inl _ => inl tt | inr e => inr (TransportError e) end)].

Definition handle_actor_command w (command : SocketActorCommand) : result unit :=
  match command with
  | Connect remote_addr cfg initial_data =>
    match create_client_connection w remote_addr cfg initial_data with
    | Returned w res => Returned (respond w [ConnectResponse res]) tt
    | Looping => Looping
    | Panicked => Panicked
    end
  | Rebind new_local_addr => Returned (handle_rebind w new_local_addr) tt
  | UpdateAddr cid new_addr => Returned (acted w (FrameRouter.update_connection_address (router w) cid new_addr) []) tt
  | RemoveConnection cid => Returned (acted w (FrameRouter.remove_connection_by_cid (now w) (router w) cid) []) tt
  | GetLocalAddr =>
    Returned (respond w [LocalAddrResponse
      (env.(transport_addr) w.(ops) w.(coordinator).(transport_manager).(Transport.manager_transport))]) tt
  end.

Fixpoint dispatch_frames w (frames : list Frame.Frame) addr : World :=
  match frames with
  | [] => w
  | frame :: frames => dispatch_frames (dispatch_frame w frame addr) frames addr
  end.

Definition handle_datagram w (frames : list Frame.Frame) addr : result unit :=
  match frames with
  | Frame.Syn _ :: _ =>
    match handle_new_connection w frames addr with
    | Returned w _ => Returned w tt
    | Looping => Looping
    | Panicked => Panicked
    end
  | _ => Returned (dispatch_frames w frames addr) tt
  end.

Definition cleanup_tick w : World :=
  let w := acted w (FrameRouter.cleanup_draining_pool (now w) (router w)) [] in
  acted w (FrameRouter.cleanup_expired_frames (now w) (router w) (from_secs 5)) [].

(** The branches of [select!]. *)
Inductive input :=
| Command (command : SocketActorCommand)
| Datagram (payload : list byte) (addr : SocketAddr)
| CleanupTick.

Definition step w (i : input) : result unit :=
  match i with
  | Command command => handle_actor_command w command
  | Datagram payload addr =>
    match Udp.receive payload with
    | Done frames => handle_datagram w frames addr
    | Panic => Panicked
    end
  | CleanupTick => Returned (cleanup_tick w) tt
  end.

Fixpoint run w (inputs : list input) : result unit :=
  match inputs with
  | [] => Returned w tt
  | i :: inputs =>
    match step w i with
    | Returned w _ => run w inputs
    | Looping => Looping
    | Panicked => Panicked
    end
  end.

(** ** [handle.rs]: the socket that [bind] creates *)

Definition new_socket (transport : Tr) (cfg : Config.Config) : World :=
  {| coordinator := {| transport_manager := {| Transport.manager_transport := transport |};
                       frame_router := FrameRouter.new (DrainingPool.new cfg.(Config.connection).(Config.drain_timeout));
                       config := cfg |};
     channels := 0; ops := 0; log := [] |}.

End socket.

Arguments World : clear implicits.
Arguments World SocketAddr {_ _} Tr.
Arguments Env : clear implicits.
Arguments input : clear implicits.
Arguments effect : clear implicits.

(** ** What arrives and what is delivered *)

Section facts.
Context {SocketAddr : Type} `{HA : HashedAddr SocketAddr} {Tr : Type}.
Variable env : Env SocketAddr Tr.
Variable fuel : nat.
Implicit Types (w : World SocketAddr Tr) (addr : SocketAddr).

Definition frames_of (payload : list byte) : list Frame.Frame :=
  match Udp.receive payload with Done frames => frames | Panic => [] end.

Definition arrived (i : input SocketAddr) : list (Frame.Frame * SocketAddr) :=
  match i with Datagram payload addr => map (fun f => (f, addr)) (frames_of payload) | _ => [] end.

Definition delivery_of (e : effect SocketAddr Tr) : option (FrameRouter.delivery SocketAddr) :=
  match e with Delivered d => Some d | _ => None end.

Definition delivered w : list (FrameRouter.delivery SocketAddr) := omap delivery_of w.(log).

(** The endpoints that were started, with their channels and ids. *)
Definition spawn_of (e : effect SocketAddr Tr) : option (nat * (Z * Connection SocketAddr)) :=
  match e with Spawned channel cid endpoint => Some (channel, (cid, endpoint)) | _ => None end.

Definition spawned w : list (nat * (Z * Connection SocketAddr)) := omap spawn_of w.(log).

(** Every frame that is in the socket or has left it to an endpoint. *)
Definition held w : list (Frame.Frame * SocketAddr) := map snd (delivered w) ++ FrameRouter.cached (router w).

Lemma delivered_acted w r effects : delivered (acted w r effects) =
  delivered w ++ omap delivery_of effects.
Proof. unfold delivered. simpl. by rewrite omap_app. Qed.

Lemma delivered_map (sent : list (FrameRouter.delivery SocketAddr)) :
  omap delivery_of (map Delivered sent) = sent.
Proof. induction sent as [|d sent IH]; [done|]. cbn. f_equal. exact IH. Qed.

(** An operation delivers what it takes out of the cache, and [new]. *)
Lemma held_acted w r effects new :
  map snd (omap delivery_of effects) ++ FrameRouter.cached r ⊆+ new ++ FrameRouter.cached (router w) ->
  held (acted w r effects) ⊆+ new ++ held w.
Proof.
  intros Hs. unfold held. rewrite delivered_acted, map_app, <- app_assoc.
  etrans; [apply submseteq_skips_l, Hs|]. rewrite !app_assoc. by rewrite (Permutation_app_comm (map snd (delivered w)) new).
Qed.

Lemma held_quiet w r effects :
  omap delivery_of effects = [] -> FrameRouter.cached r ⊆+ FrameRouter.cached (router w) ->
  held (acted w r effects) ⊆+ held w.
Proof. intros He Hr. apply (held_acted w r effects []). by rewrite He. Qed.

Lemma held_register w cid addr channel : held (register_connection_to_router env w cid addr channel) ⊆+ held w.
Proof.
  unfold register_connection_to_router.
  pose proof (FrameRouter.register_conserve (send_ok env (ops w)) (now env w) (router w) cid addr
    {| FrameRouter.sender := channel |}) as Hc.
  destruct (FrameRouter.register_connection _ _ _ _ _ _) as [r sent]. apply (held_acted w r _ []). by rewrite delivered_map.
Qed.

Lemma held_dispatch w f addr : held (dispatch_frame env w f addr) ⊆+ (f, addr) :: held w.
Proof.
  unfold dispatch_frame.
  pose proof (FrameRouter.dispatch_conserve (send_ok env (ops w)) (now env w) (router w) f addr) as Hc.
  destruct (FrameRouter.dispatch_frame _ _ _ _ _) as [[r sent] ?]. apply (held_acted w r _ [(f, addr)]). by rewrite delivered_map.
Qed.

Lemma held_dispatch_all frames addr : forall w,
  held (dispatch_frames env w frames addr) ⊆+ map (fun f => (f, addr)) frames ++ held w.
Proof.
  induction frames as [|f frames IH]; intros w; simpl; [done|]. etrans; [apply IH|].
  etrans; [apply submseteq_skips_l, held_dispatch|]. by rewrite <- Permutation_middle.
Qed.

Lemma zero_rtt_sublist try_send channel addr frames : forall n,
  map snd (handle_zero_rtt_frames try_send n channel addr frames) ⊆+ map (fun f => (f, addr)) frames.
Proof.
  induction frames as [|f frames IH]; intros n; simpl; [done|]. destruct (FrameRouter.is_push f).
  - destruct (try_send n); simpl; [by apply submseteq_skip|by apply submseteq_cons].
  - by apply submseteq_cons.
Qed.

Lemma cached_remove t (r : FrameRouter.FrameRouter SocketAddr) cid :
  FrameRouter.cached (FrameRouter.remove_connection_by_cid t r cid) = FrameRouter.cached r.
Proof. unfold FrameRouter.cached. by rewrite FrameRouter.pending_remove. Qed.

Lemma cached_cleanup t (r : FrameRouter.FrameRouter SocketAddr) d :
  FrameRouter.cached (FrameRouter.cleanup_expired_frames t r d) ⊆+ FrameRouter.cached r.
Proof.
  unfold FrameRouter.cached. rewrite FrameRouter.cleanup_expired_contents.
  apply (fmap_submseteq FrameRouter.arrival), sublist_submseteq, sublist_filter.
Qed.

Lemma held_to_user w channel addr cid : held (send_connection_to_user env w channel addr cid).1 ⊆+ held w.
Proof.
  unfold send_connection_to_user. destruct (accept_ok env (ops w)); simpl; apply held_quiet; try done.
  by rewrite cached_remove.
Qed.

Lemma held_new_connection w frames addr w' r :
  handle_new_connection env fuel w frames addr = Returned w' r -> held w' ⊆+ map (fun f => (f, addr)) frames ++ held w.
Proof.
  unfold handle_new_connection. assert (Hid : held w ⊆+ map (fun f => (f, addr)) frames ++ held w) by by apply submseteq_inserts_l.
  destruct frames as [|[header| | | | | | |] frames]; try (intros [= <- <-]; done).
  destruct (negb _); [intros [= <- <-]; done|]. destruct (generate_unique_connection_id env fuel w) as [cid|]; [|done].
  destruct (create_server_endpoint _ _ _ _ _) as [[endpoint [_|e]]|]; [|intros [= <- <-]|done].
  - set (w1 := acted (with_channel w) _ _). intros E.
    assert (H1 : held w1 ⊆+ map (fun f => (f, addr)) frames ++ held w).
    { apply (held_acted (with_channel w)). rewrite omap_app, delivered_map. simpl. rewrite app_nil_r.
      apply submseteq_skips_r, zero_rtt_sublist. }
    pose proof (held_to_user (register_connection_to_router env w1 cid addr (channels w)) (channels w) addr cid) as Hu.
    destruct (send_connection_to_user _ _ _ _ _) as [w2 res]. injection E as <- <-. simpl in *.
    etrans; [exact Hu|]. etrans; [apply held_register|]. etrans; [exact H1|]. by apply submseteq_cons.
  - etrans; [|exact Hid]. by apply (held_quiet (with_channel w)).
Qed.

Lemma held_client w addr cfg data w' r :
  create_client_connection env fuel w addr cfg data = Returned w' r -> held w' ⊆+ held w.
Proof.
  unfold create_client_connection. destruct (generate_unique_connection_id env fuel w) as [cid|]; [|done].
  destruct (EventLoop.new_client _ _ _ _ _ _) as [[endpoint [_|e]]|]; [|intros [= <- <-]|done].
  - set (w1 := acted (with_channel w) _ _). intros [= <- <-]. etrans; [apply held_register|]. by apply (held_quiet (with_channel w)).
  - by apply (held_quiet (with_channel w)).
Qed.

Lemma held_command w command w' u : handle_actor_command env fuel w command = Returned w' u -> held w' ⊆+ held w.
Proof.
  destruct command as [addr cfg data|addr|cid addr|cid|]; simpl.
  - destruct (create_client_connection _ _ _ _ _ _) as [w1 r| |] eqn:E; [|done..]. intros [= <-].
    etrans; [|by eapply held_client]. by apply held_quiet.
  - intros [= <-]. unfold handle_rebind. destruct (Transport.rebind _ _ _) as [[manager res] commands].
    by etrans; [by apply held_quiet|].
  - intros [= <-]. by apply held_quiet.
  - intros [= <-]. apply held_quiet; [done|]. by rewrite cached_remove.
  - intros [= <-]. by apply held_quiet.
Qed.

Lemma held_step w i w' u : step env fuel w i = Returned w' u -> held w' ⊆+ arrived i ++ held w.
Proof.
  destruct i as [command|payload addr|]; simpl.
  - apply held_command.
  - unfold frames_of. destruct (Udp.receive payload) as [frames|]; [|done]. unfold handle_datagram.
    assert (Hd : Returned (dispatch_frames env w frames addr) tt = Returned w' u ->
      held w' ⊆+ map (fun f => (f, addr)) frames ++ held w) by (intros [= <-]; apply held_dispatch_all).
    destruct frames as [|[header| | | | | | |] frames]; try exact Hd.
    destruct (handle_new_connection _ _ _ _ _) as [w1 r| |] eqn:E; [|done..]. intros [= <-]. by eapply held_new_connection.
  - intros [= <-]. unfold cleanup_tick. etrans; [apply held_quiet; [done|apply cached_cleanup]|]. by apply held_quiet.
Qed.

Lemma held_run inputs : forall w w' u,
  run env fuel w inputs = Returned w' u -> held w' ⊆+ flat_map arrived inputs ++ held w.
Proof.
  induction inputs as [|i inputs IH]; simpl; intros w w' u; [by intros [= <-]|].
  destruct (step env fuel w i) as [w1 []| |] eqn:E; [|done..]. intros Hrun. apply IH in Hrun.
  etrans; [exact Hrun|]. etrans; [by eapply submseteq_skips_l, held_step|].
  rewrite !app_assoc. apply submseteq_skips_r. by rewrite Permutation_app_comm.
Qed.

End facts.

(** ** Runs as moves

    What the proofs below use of a run: it is a sequence of moves, one per
    operation. *)

Section moves.
Context {SocketAddr : Type} `{HA : HashedAddr SocketAddr} {Tr : Type}.
Variable env : Env SocketAddr Tr.
Variable fuel : nat.
Implicit Types (w : World SocketAddr Tr) (addr : SocketAddr) (r : FrameRouter.FrameRouter SocketAddr).

(** Operations of the router that neither deliver nor register. *)
Inductive quiet (t : Instant) r : FrameRouter.FrameRouter SocketAddr -> Prop :=
| quiet_same : quiet t r r
| quiet_remove cid : quiet t r (FrameRouter.remove_connection_by_cid t r cid)
| quiet_update cid addr : quiet t r (FrameRouter.update_connection_address r cid addr)
| quiet_cleanup : quiet t r (FrameRouter.cleanup_draining_pool t r)
| quiet_expired max_age : quiet t r (FrameRouter.cleanup_expired_frames t r max_age).

(** An id that the coordinator may give to a new connection. *)
Definition fresh r (cid : Z) : Prop :=
  FrameRouter.connection_exists r cid = false /\ FrameRouter.is_draining r cid = false.

(** An endpoint for [cid] and [addr], as one of its constructors made it. *)
Definition started (cid : Z) addr (endpoint : Connection SocketAddr) : Prop :=
  exists env' cfg,
    (exists peer, EventLoop.new_server env' cfg addr cid peer (Vegas.new cfg) = Done (endpoint, inl tt)) \/
    (exists data, EventLoop.new_client env' cfg addr cid (Vegas.new cfg) data = Done (endpoint, inl tt)).

Inductive move w : World SocketAddr Tr -> Prop :=
| move_quiet w' effects :
    quiet (now env w) (router w) (router w') -> w'.(ops) = S w.(ops) -> (w.(channels) <= w'.(channels))%nat ->
    w'.(log) = w.(log) ++ effects -> omap delivery_of effects = [] -> omap spawn_of effects = [] -> move w w'
| move_dispatch f addr :
    u32_ok (Frame.destination_cid f) -> move w (dispatch_frame env w f addr)
| move_spawn zero_rtt cid addr endpoint :
    fresh (router w) cid -> started cid addr endpoint -> Forall (fun d => d.1 = w.(channels)) zero_rtt ->
    move w (acted (with_channel w) (router w) (map Delivered zero_rtt ++ [Spawned w.(channels) cid endpoint]))
| move_register cid addr channel endpoint :
    fresh (router w) cid -> (channel, (cid, endpoint)) ∈ spawned w ->
    move w (register_connection_to_router env w cid addr channel).

Lemma new_server_started cfg addr local peer cc env' :
  exists (endpoint : Connection SocketAddr) res, EventLoop.new_server env' cfg addr local peer cc = Done (endpoint, res) /\
    endpoint.(Endpoint.ep).(Endpoint.identity) =
      {| Endpoint.local_cid := local; Endpoint.peer_cid := peer; Endpoint.remote_addr := addr |}.
Proof.
  unfold EventLoop.new_server, EventLoop.register_idle_timeout, Endpoint.bind, Endpoint.get, Endpoint.register_timer.
  destruct (TimingManager.register_timer _ _ _) as [[t ok] old]. unfold EventLoop.new_endpoint.
  destruct (Lifecycle.initialize _ _ _ _) as [[? manager] effs]. destruct ok; by do 2 eexists.
Qed.

Lemma new_client_started cfg addr local cc data env' :
  exists (endpoint : Connection SocketAddr) res, EventLoop.new_client env' cfg addr local cc data = Done (endpoint, res) /\
    endpoint.(Endpoint.ep).(Endpoint.identity) =
      {| Endpoint.local_cid := local; Endpoint.peer_cid := 0; Endpoint.remote_addr := addr |}.
Proof.
  unfold EventLoop.new_client, EventLoop.register_idle_timeout, Endpoint.bind, Endpoint.get, Endpoint.register_timer.
  destruct (TimingManager.register_timer _ _ _) as [[t ok] old]. unfold EventLoop.new_endpoint.
  destruct (Lifecycle.initialize _ _ _ _) as [[? manager] effs]. destruct ok.
  - cbn -[TimingManager.register_timer]. match goal with |- context [TimingManager.register_timer ?a ?b ?c] =>
      destruct (TimingManager.register_timer a b c) as [[t' ok'] old'] end. by do 2 eexists.
  - by do 2 eexists.
Qed.

Lemma started_identity cid addr endpoint : started cid addr endpoint ->
  Endpoint.local_cid endpoint.(Endpoint.ep).(Endpoint.identity) = cid /\
  Endpoint.remote_addr endpoint.(Endpoint.ep).(Endpoint.identity) = addr.
Proof.
  intros (env' & cfg & [[peer E]|[data E]]).
  - destruct (new_server_started cfg addr cid peer (Vegas.new cfg) env') as (e & res & E' & Hid).
    rewrite E in E'. injection E' as <- _. by rewrite Hid.
  - destruct (new_client_started cfg addr cid (Vegas.new cfg) data env') as (e & res & E' & Hid).
    rewrite E in E'. injection E' as <- _. by rewrite Hid.
Qed.

Lemma generate_loop_fresh n : forall candidate r cid, generate_loop n candidate r = Some cid -> fresh r cid.
Proof.
  induction n as [|n IH]; intros candidate r cid; simpl; [done|].
  destruct (FrameRouter.connection_exists r (candidate 0%nat)) eqn:E1; simpl; [by apply IH|].
  destruct (FrameRouter.is_draining r (candidate 0%nat)) eqn:E2; simpl; [by apply IH|]. by intros [= <-].
Qed.

Lemma zero_rtt_channel try_send channel addr frames : forall n,
  Forall (fun d => d.1 = channel) (handle_zero_rtt_frames try_send n channel addr frames).
Proof.
  induction frames as [|f frames IH]; intros n; simpl; [done|]. destruct (FrameRouter.is_push f); [|done].
  apply Forall_app. split; [|done]. by destruct (try_send n); repeat constructor.
Qed.

Lemma spawned_acted w r effects : spawned (acted w r effects) = spawned w ++ omap spawn_of effects.
Proof. unfold spawned. simpl. by rewrite omap_app. Qed.

Lemma no_spawn_map (sent : list (FrameRouter.delivery SocketAddr)) :
  omap (@spawn_of SocketAddr Tr) (map Delivered sent) = [].
Proof. induction sent as [|d sent IH]; [done|]. exact IH. Qed.

Lemma quiet_acted w r effects :
  quiet (now env w) (router w) r -> omap delivery_of effects = [] -> omap spawn_of effects = [] -> move w (acted w r effects).
Proof. intros. by apply move_quiet with effects. Qed.

#[local] Hint Constructors quiet : core.

(** A new connection is started, then registered. *)
Lemma spawn_moves w cid addr endpoint zero_rtt :
  fresh (router w) cid -> started cid addr endpoint -> Forall (fun d => d.1 = w.(channels)) zero_rtt ->
  rtc move w (register_connection_to_router env
    (acted (with_channel w) (router w) (map Delivered zero_rtt ++ [Spawned w.(channels) cid endpoint])) cid addr w.(channels)).
Proof.
  intros Hf Hs Hz. eapply rtc_l; [by eapply move_spawn|]. apply rtc_once. eapply move_register; [done|].
  rewrite spawned_acted, omap_app, no_spawn_map. simpl. apply elem_of_app. right. apply list_elem_of_singleton. done.
Qed.

Lemma failed_moves w : move w (acted (with_channel w) (router w) []).
Proof. apply move_quiet with []; simpl; [apply quiet_same|lia..|by rewrite app_nil_r|done|done]. Qed.

Lemma new_connection_moves w frames addr w' res :
  handle_new_connection env fuel w frames addr = Returned w' res -> rtc move w w'.
Proof.
  unfold handle_new_connection. destruct frames as [|frame frames]; [by intros [= <- <-]|].
  destruct frame as [| | |header| | | |]; try by intros [= <- <-].
  destruct (negb _); [by intros [= <- <-]|].
  destruct (generate_unique_connection_id env fuel w) as [cid|] eqn:Eg; [|done]. apply generate_loop_fresh in Eg.
  unfold create_server_endpoint. destruct (new_server_started (config (coordinator w)) addr cid
    (LongHeader.source_cid header) (Vegas.new (config (coordinator w))) (endpoint_env env (ops w))) as (endpoint & res0 & Enew & _).
  rewrite Enew. destruct res0 as [[]|e]; [|intros [= <- <-]; apply rtc_once, failed_moves].
  assert (Hst : started cid addr endpoint) by (do 2 eexists; left; by eexists).
  pose proof (spawn_moves w cid addr endpoint _ Eg Hst (zero_rtt_channel (try_send_ok env (ops w)) (channels w) addr frames 0)) as Hm.
  set (w1 := register_connection_to_router _ _ _ _ _) in *. unfold send_connection_to_user.
  destruct (accept_ok env (ops w1)); intros [= <- <-]; (eapply rtc_r; [exact Hm|by apply quiet_acted]).
Qed.

Lemma client_moves w addr cfg data w' res : create_client_connection env fuel w addr cfg data = Returned w' res -> rtc move w w'.
Proof.
  unfold create_client_connection. destruct (generate_unique_connection_id env fuel w) as [cid|] eqn:Eg; [|done].
  apply generate_loop_fresh in Eg. destruct (new_client_started cfg addr cid (Vegas.new cfg) data (endpoint_env env (ops w)))
    as (endpoint & res0 & Enew & _).
  rewrite Enew. destruct res0 as [[]|e]; [|intros [= <- <-]; apply rtc_once, failed_moves]. intros [= <- <-].
  apply (spawn_moves w cid addr endpoint []); [done| |done]. do 2 eexists. right. by eexists.
Qed.

Lemma command_moves w command w' u : handle_actor_command env fuel w command = Returned w' u -> rtc move w w'.
Proof.
  destruct command as [addr cfg data|addr|cid addr|cid|]; simpl.
  - destruct (create_client_connection _ _ _ _ _ _) as [w1 r| |] eqn:E; [|done..]. intros [= <-].
    eapply rtc_r; [by eapply client_moves|by apply quiet_acted].
  - intros [= <-]. apply rtc_once. unfold handle_rebind. destruct (Transport.rebind _ _ _) as [[manager res] commands].
    by eapply move_quiet.
  - intros [= <-]. by apply rtc_once, quiet_acted.
  - intros [= <-]. by apply rtc_once, quiet_acted.
  - intros [= <-]. by apply rtc_once, quiet_acted.
Qed.

Lemma dispatch_moves frames addr : Forall (fun f => u32_ok (Frame.destination_cid f)) frames ->
  forall w, rtc move w (dispatch_frames env w frames addr).
Proof.
  induction 1 as [|f frames Hf _ IH]; intros w; simpl; [done|]. eapply rtc_l; [by apply move_dispatch|apply IH].
Qed.

Lemma step_moves w i w' u : step env fuel w i = Returned w' u -> rtc move w w'.
Proof.
  destruct i as [command|payload addr|]; simpl.
  - apply command_moves.
  - destruct (Udp.receive_ok payload) as (frames & -> & Hok). unfold handle_datagram.
    assert (Hd : Returned (dispatch_frames env w frames addr) tt = Returned w' u -> rtc move w w')
      by (intros [= <-]; by apply dispatch_moves).
    destruct frames as [|[header| | | | | | |] frames]; try exact Hd.
    destruct (handle_new_connection _ _ _ _ _) as [w1 r| |] eqn:E; [|done..]. intros [= <-]. by eapply new_connection_moves.
  - intros [= <-]. unfold cleanup_tick. apply (rtc_l _ _ (acted w (FrameRouter.cleanup_draining_pool (now env w) (router w)) []));
      [apply quiet_acted; [apply quiet_cleanup|done|done]|].
    apply rtc_once, quiet_acted; [apply quiet_expired|done|done].
Qed.

Lemma run_moves inputs : forall w w' u, run env fuel w inputs = Returned w' u -> rtc move w w'.
Proof.
  induction inputs as [|i inputs IH]; simpl; intros w w' u; [by intros [= <-]|].
  destruct (step env fuel w i) as [w1 []| |] eqn:E; [|done..]. intros Hrun. apply IH in Hrun.
  etrans; [by eapply step_moves|done].
Qed.

End moves.

End Socket.
