(* ===== verification/SocketFacts.v ===== *)
(** * Properties of the socket

    The invariant of the connection table, the reuse of connection ids, the
    termination of the event loop and what a new connection receives, by
    induction on the moves of a run ([Socket]). *)

From S2P Require Import Prelude Packet Config Frame Congestion Lifecycle TimingManager Endpoint EventLoop Transport Routing Udp Socket.

Module SocketFacts.
Import Socket.

Section facts.
Context {SocketAddr : Type} `{HA : HashedAddr SocketAddr} {Tr : Type}.
Variable env : Env SocketAddr Tr.
Variable fuel : nat.
Implicit Types (w : World SocketAddr Tr) (addr : SocketAddr) (r : FrameRouter.FrameRouter SocketAddr).

(** ** The router's part of a move *)

Lemma quiet_ok t r r' : quiet t r r' -> FrameRouter.router_ok r -> FrameRouter.router_ok r'.
Proof.
  destruct 1; auto using FrameRouter.remove_ok, FrameRouter.update_address_ok, FrameRouter.cleanup_draining_ok,
    FrameRouter.cleanup_expired_ok.
Qed.

Lemma remove_active t r cid : (FrameRouter.remove_connection_by_cid t r cid).(FrameRouter.active_connections) =
  delete cid r.(FrameRouter.active_connections).
Proof.
  unfold FrameRouter.remove_connection_by_cid. destruct (_ !! cid) eqn:E; [done|]. by rewrite delete_id.
Qed.

Lemma quiet_active t r r' : quiet t r r' ->
  r'.(FrameRouter.active_connections) ⊆ r.(FrameRouter.active_connections).
Proof. destruct 1; try done. rewrite remove_active. apply delete_subseteq. Qed.

(** A frame is delivered to a connection of the table: to the one it names,
    or, if it names none, to the one of its address. *)
Lemma dispatch_target ok t r f addr d :
  d ∈ (FrameRouter.dispatch_frame ok t r f addr).1.2 ->
  d.2 = (f, addr) /\ exists cid meta, r.(FrameRouter.active_connections) !! cid = Some meta /\ d.1 = meta.(FrameRouter.sender) /\
    (cid = Frame.destination_cid f \/
     r.(FrameRouter.address_routing) !! addr = Some cid /\
     (Frame.destination_cid f = 0 \/ r.(FrameRouter.active_connections) !! Frame.destination_cid f = None)).
Proof.
  unfold FrameRouter.dispatch_frame. cbv zeta.
  assert (Hun : forall r1, d ∈ (if DrainingPool.contains r1.(FrameRouter.draining_pool) (Frame.destination_cid f) then (r1, [], FrameRouter.ConnectionDraining)
       else if FrameRouter.is_push f then (FrameRouter.cache_early_frame t r1 (Frame.destination_cid f) f addr, [], FrameRouter.FrameCached)
       else (r1, [], FrameRouter.ConnectionNotFound)).1.2 -> False).
  { intros r1. destruct (DrainingPool.contains _ _); [|destruct (FrameRouter.is_push f)]; apply not_elem_of_nil. }
  destruct (if negb (Frame.destination_cid f =? 0) then _ else None) as [meta|] eqn:E1.
  - destruct (Z.eqb_spec (Frame.destination_cid f) 0); [done|]. simpl in E1.
    destruct (ok 0%nat); simpl; [|by intros ?%not_elem_of_nil]. intros ->%list_elem_of_singleton. split; [done|]. eauto 10.
  - assert (Hnone : Frame.destination_cid f = 0 \/ r.(FrameRouter.active_connections) !! Frame.destination_cid f = None).
    { destruct (Z.eqb_spec (Frame.destination_cid f) 0); [by left|by right]. }
    destruct (r.(FrameRouter.address_routing) !! addr) as [c|] eqn:E2; [|intros Hd; by apply Hun in Hd].
    destruct (r.(FrameRouter.active_connections) !! c) as [meta|] eqn:E3; [|intros Hd; by apply Hun in Hd].
    destruct (ok 0%nat); simpl; [|by intros ?%not_elem_of_nil]. intros ->%list_elem_of_singleton. split; [done|].
    exists c, meta. auto 10.
Qed.

Lemma dispatch_active ok t r f addr :
  (FrameRouter.dispatch_frame ok t r f addr).1.1.(FrameRouter.active_connections) ⊆ r.(FrameRouter.active_connections).
Proof.
  unfold FrameRouter.dispatch_frame. cbv zeta.
  assert (Hun : forall r1, r1.(FrameRouter.active_connections) = r.(FrameRouter.active_connections) ->
    (if DrainingPool.contains r1.(FrameRouter.draining_pool) (Frame.destination_cid f) then (r1, [] : list (FrameRouter.delivery SocketAddr), FrameRouter.ConnectionDraining)
       else if FrameRouter.is_push f then (FrameRouter.cache_early_frame t r1 (Frame.destination_cid f) f addr, [], FrameRouter.FrameCached)
       else (r1, [], FrameRouter.ConnectionNotFound)).1.1.(FrameRouter.active_connections) ⊆ r.(FrameRouter.active_connections)).
  { intros r1 <-. destruct (DrainingPool.contains _ _); [done|]. by destruct (FrameRouter.is_push f). }
  destruct (if negb (Frame.destination_cid f =? 0) then _ else None) as [meta|].
  { destruct (ok 0%nat); [done|]. simpl. rewrite remove_active. apply delete_subseteq. }
  destruct (r.(FrameRouter.address_routing) !! addr) as [c|]; [|by apply Hun].
  destruct (r.(FrameRouter.active_connections) !! c) as [meta|]; [|by apply Hun].
  destruct (ok 0%nat); [done|]. simpl. rewrite remove_active. apply delete_subseteq.
Qed.

Lemma register_active ok t r cid addr meta :
  (FrameRouter.register_connection ok t r cid addr meta).1.(FrameRouter.active_connections) ⊆
  <[cid := meta]> r.(FrameRouter.active_connections).
Proof.
  unfold FrameRouter.register_connection, FrameRouter.forward_cached_frames. cbn [FrameRouter.active_connections].
  rewrite lookup_insert_eq. destruct (FrameRouter.forward_keys _ _ _ _ _ _) as [sent m]. simpl.
  destruct (_ !! addr) as [old|]; [|done]. destruct (negb _); [|done]. rewrite remove_active.
  apply insert_mono, delete_subseteq.
Qed.

Lemma register_channel ok t r cid addr meta d :
  d ∈ (FrameRouter.register_connection ok t r cid addr meta).2 -> d.1 = meta.(FrameRouter.sender).
Proof.
  destruct (FrameRouter.register_forwards ok t r cid addr meta) as (r1 & _ & ->).
  assert (H1 : forall keys n m, Forall (fun d => d.1 = meta.(FrameRouter.sender))
    (FrameRouter.forward_keys ok meta.(FrameRouter.sender) addr n keys m).1).
  { induction keys as [|key keys IH]; intros n m; simpl; [done|]. destruct (m !! key) as [pending|]; [|apply IH].
    destruct (FrameRouter.forward_pending_spec ok meta.(FrameRouter.sender) addr key pending n (delete key m)) as (k & n' & -> & _).
    match goal with |- context [FrameRouter.forward_keys ok ?c ?a n' keys ?m1] => specialize (IH n' m1);
      destruct (FrameRouter.forward_keys ok c a n' keys m1) as [sent' m'] end. simpl in *.
    apply Forall_app. split; [|done]. apply Forall_forall. intros x Hx. by apply list_elem_of_fmap in Hx as (? & -> & _). }
  specialize (H1 (FrameRouter.keys_for cid addr) 0%nat r.(FrameRouter.pending_frames)).
  destruct (FrameRouter.forward_keys _ _ _ _ _ _) as [sent m]. rewrite Forall_forall in H1. apply H1.
Qed.

(** ** Connections and draining ids

    The table of connections and the draining pool of a router, and what
    happens to them at time [t]. *)

Definition core r : gmap Z FrameRouter.ConnectionMeta * DrainingPool.DrainingPool :=
  (r.(FrameRouter.active_connections), r.(FrameRouter.draining_pool)).

Inductive core_step (t : Instant) : gmap Z FrameRouter.ConnectionMeta * DrainingPool.DrainingPool ->
    gmap Z FrameRouter.ConnectionMeta * DrainingPool.DrainingPool -> Prop :=
| core_remove active pool cid meta :
    active !! cid = Some meta -> core_step t (active, pool) (delete cid active, DrainingPool.insert t pool cid)
| core_cleanup active pool : core_step t (active, pool) (active, DrainingPool.cleanup t pool).

Lemma remove_core t r cid : rtc (core_step t) (core r) (core (FrameRouter.remove_connection_by_cid t r cid)).
Proof.
  unfold core, FrameRouter.remove_connection_by_cid. destruct (_ !! cid) eqn:E; [|done]. simpl.
  apply rtc_once. by econstructor.
Qed.

Lemma quiet_core t r r' : quiet t r r' -> rtc (core_step t) (core r) (core r').
Proof. destruct 1; try done; [apply remove_core|]. unfold core. simpl. apply rtc_once. constructor. Qed.

Lemma dispatch_core ok t r f addr : rtc (core_step t) (core r) (core (FrameRouter.dispatch_frame ok t r f addr).1.1).
Proof.
  unfold FrameRouter.dispatch_frame. cbv zeta.
  assert (Hun : forall r1, core r1 = core r -> rtc (core_step t) (core r)
    (core (if DrainingPool.contains r1.(FrameRouter.draining_pool) (Frame.destination_cid f) then (r1, [] : list (FrameRouter.delivery SocketAddr), FrameRouter.ConnectionDraining)
       else if FrameRouter.is_push f then (FrameRouter.cache_early_frame t r1 (Frame.destination_cid f) f addr, [], FrameRouter.FrameCached)
       else (r1, [], FrameRouter.ConnectionNotFound)).1.1)).
  { intros r1 <-. destruct (DrainingPool.contains _ _); [done|]. by destruct (FrameRouter.is_push f). }
  destruct (if negb (Frame.destination_cid f =? 0) then _ else None) as [meta|]; [destruct (ok 0%nat); [done|apply remove_core]|].
  destruct (r.(FrameRouter.address_routing) !! addr) as [c|]; [|by apply Hun].
  destruct (r.(FrameRouter.active_connections) !! c) as [meta|]; [|by apply Hun].
  destruct (ok 0%nat); [done|apply remove_core].
Qed.

Lemma register_core ok t r cid addr meta :
  exists active pool, rtc (core_step t) (core r) (active, pool) /\
    core (FrameRouter.register_connection ok t r cid addr meta).1 = (<[cid := meta]> active, pool).
Proof.
  unfold FrameRouter.register_connection, FrameRouter.forward_cached_frames. cbn [FrameRouter.active_connections].
  rewrite lookup_insert_eq. destruct (FrameRouter.forward_keys _ _ _ _ _ _) as [sent m]. unfold core at 2. simpl.
  do 2 eexists. split; [|reflexivity]. destruct (_ !! addr) as [old|]; [|done].
  destruct (negb _); [apply (remove_core t r old)|done].
Qed.

(** An id is in use from its registration until it has drained. *)
Definition in_use (c : gmap Z FrameRouter.ConnectionMeta * DrainingPool.DrainingPool) (cid : Z) : Prop :=
  is_Some (c.1 !! cid) \/ is_Some (c.2.(DrainingPool.cids) !! cid).

Lemma steps_in_use t c c' cid : rtc (core_step t) c c' -> in_use c' cid -> in_use c cid.
Proof.
  induction 1 as [|c1 c2 c3 Hs _ IH]; [done|]. intros H3. apply IH in H3. destruct Hs as [active pool cid' meta Ha|active pool].
  - unfold in_use in *. simpl in *. destruct (decide (cid = cid')) as [->|Hne]; [left; by eexists|].
    by rewrite lookup_delete_ne, lookup_insert_ne in H3.
  - destruct H3 as [H3|[t1 H3]]; [by left|right]. apply DrainingPool.lookup_cleanup in H3 as [H3 _]. by eexists.
Qed.

Lemma steps_active t c c' : rtc (core_step t) c c' -> c'.1 ⊆ c.1.
Proof.
  induction 1 as [|c1 c2 c3 Hs _ IH]; [done|]. etrans; [exact IH|]. destruct Hs; [|done]. apply delete_subseteq.
Qed.

Lemma steps_timeout t c c' : rtc (core_step t) c c' -> c'.2.(DrainingPool.timeout) = c.2.(DrainingPool.timeout).
Proof.
  induction 1 as [|c1 c2 c3 Hs _ IH]; [done|]. rewrite IH. destruct Hs; [done|]. apply DrainingPool.timeout_cleanup.
Qed.

Lemma fresh_not_in_use r cid : fresh r cid <-> ~ in_use (core r) cid.
Proof.
  unfold fresh, in_use, FrameRouter.connection_exists, FrameRouter.is_draining, DrainingPool.contains. simpl.
  rewrite !bool_decide_eq_false. tauto.
Qed.

(** An id that was in use at [since] may be used again at [t] only if the
    time for draining is over. *)
Definition guarded (since : Instant) (cid : Z) (t : Instant)
    (c : gmap Z FrameRouter.ConnectionMeta * DrainingPool.DrainingPool) : Prop :=
  is_Some (c.1 !! cid) \/ (exists start_time, c.2.(DrainingPool.cids) !! cid = Some start_time /\ since <= start_time) \/
  c.2.(DrainingPool.timeout) <= duration_since t since.

Lemma steps_guarded since cid t c c' : since <= t -> rtc (core_step t) c c' -> guarded since cid t c -> guarded since cid t c'.
Proof.
  intros Ht. induction 1 as [|c1 c2 c3 Hs _ IH]; [done|]. intros Hg. apply IH. clear IH.
  destruct Hs as [active pool cid' meta Ha|active pool]; unfold guarded in *; simpl in *.
  - destruct (decide (cid = cid')) as [->|Hne].
    + right. left. exists t. by rewrite lookup_insert_eq.
    + by rewrite lookup_delete_ne, lookup_insert_ne.
  - rewrite DrainingPool.timeout_cleanup. destruct Hg as [Hg|[(t1 & H1 & Hle)|Hg]]; [by left| |by right; right].
    destruct (Z.lt_ge_cases (duration_since t t1) pool.(DrainingPool.timeout)) as [Hlt|Hge].
    + right. left. exists t1. by rewrite DrainingPool.lookup_cleanup.
    + right. right. unfold duration_since, saturating_sub in *. lia.
Qed.

Lemma guarded_later since cid t t' c : t <= t' -> guarded since cid t c -> guarded since cid t' c.
Proof.
  intros Ht [Hg|[Hg|Hg]]; [by left|by right; left|right; right]. unfold duration_since, saturating_sub in *. lia.
Qed.

(** What a move does to the table. *)
Lemma move_core w w' : move env w w' ->
  rtc (core_step (now env w)) (core (router w)) (core (router w')) \/
  exists cid meta endpoint active pool, (meta.(FrameRouter.sender), (cid, endpoint)) ∈ spawned w /\
    rtc (core_step (now env w)) (core (router w)) (active, pool) /\ core (router w') = (<[cid := meta]> active, pool).
Proof.
  destruct 1 as [w' effects Hq|f addr|zero_rtt cid addr endpoint|cid addr channel endpoint Hf Hin].
  - left. by apply quiet_core.
  - left. unfold dispatch_frame. pose proof (dispatch_core (send_ok env (ops w)) (now env w) (router w) f addr) as H1.
    by destruct (FrameRouter.dispatch_frame _ _ _ _ _) as [[r sent] ?].
  - by left.
  - right. unfold register_connection_to_router.
    destruct (register_core (send_ok env (ops w)) (now env w) (router w) cid addr {| FrameRouter.sender := channel |})
      as (active & pool & Hs & Hc). destruct (FrameRouter.register_connection _ _ _ _ _ _) as [r sent].
    by exists cid, {| FrameRouter.sender := channel |}, endpoint, active, pool.
Qed.

Lemma move_ops w w' : move env w w' -> w'.(ops) = S w.(ops).
Proof.
  destruct 1; try done.
  - unfold dispatch_frame. by destruct (FrameRouter.dispatch_frame _ _ _ _ _) as [[r sent] ?].
  - unfold register_connection_to_router. by destruct (FrameRouter.register_connection _ _ _ _ _ _).
Qed.

End facts.

(** ** The reuse of connection ids *)

Section reuse.
Context {SocketAddr : Type} `{HA : HashedAddr SocketAddr} {Tr : Type}.
Variable env : Env SocketAddr Tr.
Variable fuel : nat.
Implicit Types (w : World SocketAddr Tr).

Definition drain_timeout w : Duration := (router w).(FrameRouter.draining_pool).(DrainingPool.timeout).

Lemma run_timeout w w' : rtc (move env) w w' ->
  (router w').(FrameRouter.draining_pool).(DrainingPool.timeout) = (router w).(FrameRouter.draining_pool).(DrainingPool.timeout).
Proof.
  induction 1 as [|w1 w2 w3 Hm _ IH]; [done|]. rewrite IH.
  destruct (move_core env w1 w2 Hm) as [Hs|(cid & meta & e & active & pool & _ & Hs & Hc)].
  - by apply steps_timeout in Hs.
  - apply steps_timeout in Hs. unfold core in Hc. injection Hc as _ Hp. by rewrite Hp.
Qed.

Lemma run_guarded w w' since cid :
  (forall m n, (m <= n)%nat -> env.(clock) m <= env.(clock) n) -> since <= now env w -> rtc (move env) w w' ->
  guarded since cid (now env w) (core (router w)) -> guarded since cid (now env w') (core (router w')).
Proof.
  intros Hclock Hsince Hrun. revert Hsince. induction Hrun as [|w1 w2 w3 Hm _ IH]; [done|]. intros Hsince Hg.
  assert (Hnow : now env w1 <= now env w2) by (unfold now; rewrite (move_ops _ _ _ Hm); apply Hclock; lia).
  apply IH; [lia|]. apply (guarded_later _ _ (now env w1)); [done|].
  destruct (move_core env w1 w2 Hm) as [Hs|(cid' & meta & e & active & pool & _ & Hs & Hc)].
  - by eapply steps_guarded.
  - eapply steps_guarded in Hg; [|exact Hsince|exact Hs]. rewrite Hc. unfold guarded in *. simpl in *.
    destruct (decide (cid = cid')) as [->|Hne]; [left; rewrite lookup_insert_eq; by eexists|]. by rewrite lookup_insert_ne.
Qed.

(** C19: connection ids are not reused too early.  However a socket goes on
    after a moment at which an id belongs to a connection, the coordinator
    gives this id to a new connection only when the drain timeout has passed
    since that moment: packets that are delayed for less never meet a
    successor with the same id. *)
Theorem cid_not_reused w inputs w' cid :
  (forall m n, (m <= n)%nat -> env.(clock) m <= env.(clock) n) ->
  FrameRouter.connection_exists (router w) cid = true ->
  run env fuel w inputs = Returned w' tt ->
  generate_unique_connection_id env fuel w' = Some cid ->
  drain_timeout w <= duration_since (now env w') (now env w).
Proof.
  intros Hclock Hact Hrun Hgen. apply run_moves in Hrun. apply generate_loop_fresh, fresh_not_in_use in Hgen.
  apply bool_decide_eq_true in Hact. unfold drain_timeout. rewrite <- (run_timeout _ _ Hrun).
  destruct (run_guarded w w' (now env w) cid Hclock (Z.le_refl _) Hrun) as [Ha|[(t1 & Ht & _)|Hd]]; [by left| | |done].
  - destruct Hgen. by left.
  - destruct Hgen. right. by eexists.
Qed.

End reuse.

(** ** The connection table *)

Section table.
Context {SocketAddr : Type} `{HA : HashedAddr SocketAddr} {Tr : Type}.
Variable env : Env SocketAddr Tr.
Variable fuel : nat.
Implicit Types (w : World SocketAddr Tr) (addr : SocketAddr).

(** Each connection has the channel of an endpoint that was started for its
    id; each endpoint has a channel of its own; frames are put into channels
    of endpoints only; ids in use were given to endpoints. *)
Record socket_ok w : Prop := {
  so_router : FrameRouter.router_ok (router w);
  so_active cid meta : (router w).(FrameRouter.active_connections) !! cid = Some meta ->
    exists endpoint, (meta.(FrameRouter.sender), (cid, endpoint)) ∈ spawned w;
  so_nodup : NoDup (map fst (spawned w));
  so_bound : Forall (fun s => s.1 < w.(channels))%nat (spawned w);
  so_started : Forall (fun s => exists addr, started s.2.1 addr s.2.2) (spawned w);
  so_delivered : Forall (fun d => d.1 ∈ map fst (spawned w)) (delivered w);
  so_used cid : in_use (core (router w)) cid -> cid ∈ map (fun s => s.2.1) (spawned w);
}.

(** A move that starts no endpoint. *)
Lemma same_spawned_ok w w' sent :
  socket_ok w -> FrameRouter.router_ok (router w') -> spawned w' = spawned w -> (w.(channels) <= w'.(channels))%nat ->
  delivered w' = delivered w ++ sent -> Forall (fun d => d.1 ∈ map fst (spawned w)) sent ->
  (forall cid meta, (router w').(FrameRouter.active_connections) !! cid = Some meta ->
    exists endpoint, (meta.(FrameRouter.sender), (cid, endpoint)) ∈ spawned w) ->
  (forall cid, in_use (core (router w')) cid -> cid ∈ map (fun s => s.2.1) (spawned w)) -> socket_ok w'.
Proof.
  intros Hw Hr Hs Hc Hd Hsent Hact Huse. split; rewrite ?Hs; try apply Hw; try done.
  - eapply Forall_impl; [apply Hw|]. simpl. lia.
  - rewrite Hd. apply Forall_app. split; [apply Hw|done].
Qed.

Lemma steps_socket_ok w t c : socket_ok w -> rtc (core_step t) (core (router w)) c ->
  (forall cid meta, c.1 !! cid = Some meta -> exists endpoint, (meta.(FrameRouter.sender), (cid, endpoint)) ∈ spawned w) /\
  (forall cid, in_use c cid -> cid ∈ map (fun s => s.2.1) (spawned w)).
Proof.
  intros Hw Hs. split.
  - intros cid meta Hc. apply (so_active _ Hw). apply steps_active in Hs. by eapply lookup_weaken.
  - intros cid Hc. apply (so_used _ Hw). by eapply steps_in_use.
Qed.

Lemma new_socket_ok transport cfg : socket_ok (new_socket (SocketAddr := SocketAddr) (Tr := Tr) transport cfg).
Proof.
  split.
  - apply FrameRouter.new_ok.
  - intros cid meta Hc. simpl in Hc. by rewrite lookup_empty in Hc.
  - apply NoDup_nil_2.
  - apply Forall_nil_2.
  - apply Forall_nil_2.
  - apply Forall_nil_2.
  - intros cid [[? Hc]|[? Hc]]; simpl in Hc; by rewrite lookup_empty in Hc.
Qed.

Lemma move_socket_ok w w' : move env w w' -> socket_ok w -> socket_ok w'.
Proof.
  intros Hm Hw. destruct Hm as [w' effects Hq Hops Hc Hlog Hdel Hspawn|f addr Hf|zero_rtt cid addr endpoint Hf Hst Hz|cid addr channel endpoint Hf Hin].
  - apply quiet_core in Hq as Hs. apply (steps_socket_ok w) in Hs as [Ha Hu]; [|done].
    apply (same_spawned_ok w w' []); try done.
    + by eapply quiet_ok, Hw.
    + unfold spawned. by rewrite Hlog, omap_app, Hspawn, app_nil_r.
    + unfold delivered. by rewrite Hlog, omap_app, Hdel.
  - unfold dispatch_frame.
    pose proof (dispatch_core (send_ok env (ops w)) (now env w) (router w) f addr) as Hs.
    pose proof (FrameRouter.dispatch_ok (send_ok env (ops w)) (now env w) (router w) f addr (so_router _ Hw) Hf) as Hok.
    pose proof (dispatch_target (send_ok env (ops w)) (now env w) (router w) f addr) as Ht.
    destruct (FrameRouter.dispatch_frame _ _ _ _ _) as [[r sent] res]. simpl in *.
    apply (steps_socket_ok w) in Hs as [Ha Hu]; [|done]. apply (same_spawned_ok w _ sent); try done.
    + by rewrite spawned_acted, no_spawn_map, app_nil_r.
    + by rewrite delivered_acted, delivered_map.
    + apply Forall_forall. intros d Hd. apply Ht in Hd as (_ & cid & meta & Hact & -> & _).
      apply (so_active _ Hw) in Hact as [e He].
      apply list_elem_of_fmap. by exists (meta.(FrameRouter.sender), (cid, e)).
  - assert (Hsp : spawned (acted (with_channel w) (router w) (map Delivered zero_rtt ++ [Spawned (channels w) cid endpoint])) =
      spawned w ++ [(channels w, (cid, endpoint))]) by (rewrite spawned_acted, omap_app, no_spawn_map; done).
    assert (Hlast : channels w ∈ map fst (spawned w ++ [(channels w, (cid, endpoint))]))
      by (rewrite map_app; apply elem_of_app; right; by apply list_elem_of_singleton).
    split; rewrite ?Hsp; simpl.
    + apply Hw.
    + intros c meta Ha. apply (so_active _ Hw) in Ha as [e He]. exists e. apply elem_of_app. by left.
    + rewrite map_app. apply NoDup_app. split; [apply Hw|]. split; [|apply NoDup_singleton].
      intros x Hx ->%list_elem_of_singleton. apply list_elem_of_fmap in Hx as (s & Hs & Hx).
      pose proof (so_bound _ Hw) as Hb. rewrite Forall_forall in Hb. apply Hb in Hx. simpl in *. lia.
    + apply Forall_app. split; [eapply Forall_impl; [apply Hw|simpl; lia]|]. repeat constructor.
    + apply Forall_app. split; [apply Hw|]. constructor; [by exists addr|done].
    + rewrite delivered_acted, omap_app, delivered_map. simpl. rewrite app_nil_r. apply Forall_app. split.
      * eapply Forall_impl; [apply Hw|]. intros d Hd. rewrite map_app. apply elem_of_app. by left.
      * eapply Forall_impl; [exact Hz|]. by intros d ->.
    + intros c Hc. rewrite map_app. apply elem_of_app. left. by apply (so_used _ Hw).
  - unfold register_connection_to_router.
    destruct (register_core (send_ok env (ops w)) (now env w) (router w) cid addr {| FrameRouter.sender := channel |})
      as (active & pool & Hs & Hc).
    pose proof (FrameRouter.register_ok (send_ok env (ops w)) (now env w) (router w) cid addr
      {| FrameRouter.sender := channel |} (so_router _ Hw) (proj2 Hf)) as Hok.
    pose proof (register_channel (send_ok env (ops w)) (now env w) (router w) cid addr {| FrameRouter.sender := channel |}) as Ht.
    destruct (FrameRouter.register_connection _ _ _ _ _ _) as [r sent]. simpl in *.
    apply (steps_socket_ok w) in Hs as [Ha Hu]; [|done]. injection Hc as Hact Hpool.
    assert (Hch : channel ∈ map fst (spawned w)) by (apply list_elem_of_fmap; by exists (channel, (cid, endpoint))).
    assert (Hcid : cid ∈ map (fun s => s.2.1) (spawned w)) by (apply list_elem_of_fmap; by exists (channel, (cid, endpoint))).
    apply (same_spawned_ok w _ sent); try done.
    + by rewrite spawned_acted, no_spawn_map, app_nil_r.
    + by rewrite delivered_acted, delivered_map.
    + apply Forall_forall. intros d ->%Ht. done.
    + unfold router. simpl. rewrite Hact. intros c meta. destruct (decide (c = cid)) as [->|Hne].
      * rewrite lookup_insert_eq. intros [= <-]. by exists endpoint.
      * rewrite lookup_insert_ne by done. apply Ha.
    + unfold in_use, core, router. simpl. rewrite Hact, Hpool. intros c [Hc|Hc].
      * destruct (decide (c = cid)) as [->|Hne]; [done|]. rewrite lookup_insert_ne in Hc by done. apply Hu. by left.
      * apply Hu. by right.
Qed.

Lemma moves_socket_ok w w' : rtc (move env) w w' -> socket_ok w -> socket_ok w'.
Proof. induction 1 as [|w1 w2 w3 Hm _ IH]; [done|]. intros Hw. by eapply IH, move_socket_ok. Qed.

Lemma run_socket_ok inputs w w' u : socket_ok w -> run env fuel w inputs = Returned w' u -> socket_ok w'.
Proof. intros Hw Hrun. apply run_moves in Hrun. by eapply moves_socket_ok. Qed.

(** C16: the connection table is sound.  Whatever datagrams and commands a
    socket gets: every connection of its table leads to the endpoint that was
    started for its id, different connections lead to different endpoints, no
    id is both in use and draining, and frames are put into the channels of
    endpoints only. *)
Theorem connection_table_sound transport cfg inputs w :
  run env fuel (new_socket transport cfg) inputs = Returned w tt ->
  (forall cid meta, (router w).(FrameRouter.active_connections) !! cid = Some meta ->
    FrameRouter.is_draining (router w) cid = false /\
    exists endpoint, (meta.(FrameRouter.sender), (cid, endpoint)) ∈ spawned w /\
      Endpoint.local_cid endpoint.(Endpoint.ep).(Endpoint.identity) = cid) /\
  (forall cid1 cid2 meta1 meta2,
    (router w).(FrameRouter.active_connections) !! cid1 = Some meta1 ->
    (router w).(FrameRouter.active_connections) !! cid2 = Some meta2 ->
    meta1.(FrameRouter.sender) = meta2.(FrameRouter.sender) -> cid1 = cid2) /\
  socket_ok w.
Proof.
  intros Hrun. apply run_socket_ok in Hrun as Hw; [|apply new_socket_ok]. split; [|split; [|done]].
  - intros cid meta Ha. split; [apply (FrameRouter.ok_disjoint _ (so_router _ Hw)); by eexists|].
    apply (so_active _ Hw) in Ha as [e He]. exists e. split; [done|].
    pose proof (so_started _ Hw) as Hs. rewrite Forall_forall in Hs.
    apply Hs in He as [addr He]. by destruct (started_identity _ _ _ He).
  - intros cid1 cid2 meta1 meta2 H1 H2 Heq. apply (so_active _ Hw) in H1 as [e1 H1], H2 as [e2 H2]. rewrite Heq in H1.
    apply list_elem_of_lookup in H1 as [i Hi], H2 as [j Hj].
    assert (i = j) as ->; [|congruence]. eapply NoDup_lookup; [apply (so_nodup _ Hw)| |]; rewrite list_lookup_fmap.
    + by rewrite Hi.
    + by rewrite Hj.
Qed.

End table.

(** ** Termination *)

Section termination.
Context {SocketAddr : Type} `{HA : HashedAddr SocketAddr} {Tr : Type}.
Variable env : Env SocketAddr Tr.
Variable fuel : nat.
Implicit Types (w : World SocketAddr Tr) (addr : SocketAddr).

Lemma generate_loop_none n : forall candidate (r : FrameRouter.FrameRouter SocketAddr),
  generate_loop n candidate r = None -> forall i, (i < n)%nat -> in_use (core r) (candidate i).
Proof.
  induction n as [|n IH]; intros candidate r Hg i Hi; [lia|]. simpl in Hg.
  destruct (FrameRouter.connection_exists r (candidate 0%nat)) eqn:E1, (FrameRouter.is_draining r (candidate 0%nat)) eqn:E2;
    simpl in Hg; try done; (destruct i as [|i]; [|apply (IH _ _ Hg); lia]).
  - left. by apply bool_decide_eq_true in E1.
  - left. by apply bool_decide_eq_true in E1.
  - right. by apply bool_decide_eq_true in E2.
Qed.

Lemma spawned_bound w : socket_ok w -> (length (spawned w) <= w.(channels))%nat.
Proof.
  intros Hw. rewrite <- (length_fmap fst (spawned w)), <- (length_seq (channels w) 0).
  apply submseteq_length, NoDup_submseteq; [apply Hw|]. intros x Hx. apply list_elem_of_fmap in Hx as (s & -> & Hs).
  pose proof (so_bound _ Hw) as Hb. rewrite Forall_forall in Hb. apply Hb in Hs. apply elem_of_seq. lia.
Qed.

(** Distinct candidates exhaust the ids in use. *)
Lemma generate_total w :
  socket_ok w -> (w.(channels) < fuel)%nat ->
  (forall i j, (i < fuel)%nat -> (j < fuel)%nat -> env.(random) w.(ops) i = env.(random) w.(ops) j -> i = j) ->
  is_Some (generate_unique_connection_id env fuel w).
Proof.
  intros Hw Hfuel Hinj. destruct (generate_unique_connection_id env fuel w) as [cid|] eqn:E; [by eexists|exfalso].
  assert (Hsub : map (env.(random) w.(ops)) (seq 0 fuel) ⊆+ map (fun s => s.2.1) (spawned w)).
  { apply NoDup_submseteq.
    - apply NoDup_fmap_2_strong; [|apply NoDup_seq]. intros i j Hi%elem_of_seq Hj%elem_of_seq. apply Hinj; lia.
    - intros x Hx. apply list_elem_of_fmap in Hx as (i & -> & Hi%elem_of_seq). apply (so_used _ Hw).
      by eapply generate_loop_none; [exact E|lia]. }
  apply submseteq_length in Hsub. rewrite !length_map, length_seq in Hsub. pose proof (spawned_bound w Hw). lia.
Qed.

Lemma channels_register w cid addr channel :
  channels (register_connection_to_router env w cid addr channel) = channels w.
Proof. unfold register_connection_to_router. by destruct (FrameRouter.register_connection _ _ _ _ _ _). Qed.

Lemma channels_dispatch frames addr : forall w, channels (dispatch_frames env w frames addr) = channels w.
Proof.
  induction frames as [|f frames IH]; intros w; simpl; [done|]. rewrite IH. unfold dispatch_frame.
  by destruct (FrameRouter.dispatch_frame _ _ _ _ _) as [[r sent] ?].
Qed.

(** A new connection returns if an id can be found, and takes one channel. *)
Lemma new_connection_total w frames addr :
  is_Some (generate_unique_connection_id env fuel w) ->
  exists w' res, handle_new_connection env fuel w frames addr = Returned w' res /\ (w'.(channels) <= S w.(channels))%nat.
Proof.
  intros [cid Hg]. unfold handle_new_connection. destruct frames as [|frame frames]; [do 2 eexists; split; [reflexivity|lia]|].
  destruct frame as [| | |header| | | |]; try (do 2 eexists; split; [reflexivity|lia]).
  destruct (negb _); [do 2 eexists; split; [reflexivity|lia]|]. rewrite Hg. unfold create_server_endpoint.
  destruct (new_server_started (config (coordinator w)) addr cid (LongHeader.source_cid header)
    (Vegas.new (config (coordinator w))) (endpoint_env env (ops w))) as (endpoint & res & -> & _).
  destruct res as [_|e]; [|do 2 eexists; split; [reflexivity|simpl; lia]].
  set (w1 := register_connection_to_router _ _ _ _ _). unfold send_connection_to_user.
  assert (H1 : channels w1 = S (channels w)) by apply channels_register.
  destruct (accept_ok env (ops w1)); (do 2 eexists; split; [reflexivity|simpl; lia]).
Qed.

Lemma step_total w i :
  is_Some (generate_unique_connection_id env fuel w) ->
  exists w', step env fuel w i = Returned w' tt /\ (w'.(channels) <= S w.(channels))%nat.
Proof.
  intros Hg. destruct i as [command|payload addr|]; simpl.
  - destruct command as [addr cfg data|addr|cid addr|cid|]; simpl; try (eexists; split; [reflexivity|simpl; lia]).
    + destruct Hg as [cid Hg]. unfold create_client_connection. rewrite Hg.
      destruct (new_client_started cfg addr cid (Vegas.new cfg) data (endpoint_env env (ops w))) as (endpoint & res & -> & _).
      destruct res as [_|e]; (eexists; split; [reflexivity|]); simpl; rewrite ?channels_register; simpl; lia.
    + unfold handle_rebind. destruct (Transport.rebind _ _ _) as [[manager res] commands]. eexists. split; [reflexivity|simpl; lia].
  - destruct (Udp.receive_ok payload) as (frames & -> & _). unfold handle_datagram.
    assert (Hd : exists w', Returned (dispatch_frames env w frames addr) tt = Returned w' tt /\ (channels w' <= S (channels w))%nat)
      by (eexists; split; [done|]; rewrite channels_dispatch; lia).
    destruct frames as [|frame frames]; [exact Hd|]. destruct frame as [| | |header| | | |]; try exact Hd.
    destruct (new_connection_total w (Frame.Syn header :: frames) addr Hg) as (w' & res & -> & Hc). by exists w'.
  - eexists. split; [reflexivity|simpl; lia].
Qed.

Lemma run_total inputs : forall w,
  socket_ok w -> (w.(channels) + length inputs <= fuel)%nat ->
  (forall n i j, (i < fuel)%nat -> (j < fuel)%nat -> env.(random) n i = env.(random) n j -> i = j) ->
  exists w', run env fuel w inputs = Returned w' tt.
Proof.
  induction inputs as [|i inputs IH]; simpl; intros w Hw Hfuel Hinj; [by eexists|].
  destruct (step_total w i) as (w1 & E & Hc); [apply generate_total; [done|lia|apply Hinj]|]. rewrite E.
  apply IH; [|lia|done]. apply step_moves in E. by eapply moves_socket_ok.
Qed.

(** C15: the socket never panics, and its search for a free connection id ends.
    No sequence of datagrams, whatever bytes they hold, and of commands makes
    a handler of the event loop panic or draw ids for ever, if the random
    generator yields at least as many different ids in a row as there are
    inputs; and the loop's tables are sound afterwards.  The theorem does not say that the
    loop cannot wait: each send of a frame to an endpoint is taken to return,
    with success or not, while the code awaits a bounded channel and waits
    when the endpoint does not take its frames. *)
Theorem socket_never_panics transport cfg inputs :
  (length inputs <= fuel)%nat ->
  (forall n i j, (i < fuel)%nat -> (j < fuel)%nat -> env.(random) n i = env.(random) n j -> i = j) ->
  exists w, run env fuel (new_socket transport cfg) inputs = Returned w tt /\ socket_ok w.
Proof.
  intros Hfuel Hinj. destruct (run_total inputs (new_socket transport cfg)) as [w Hrun]; [apply new_socket_ok|done|done|].
  exists w. split; [done|]. eapply run_socket_ok; [apply new_socket_ok|done].
Qed.

Definition received (inputs : list (input SocketAddr)) : list (Frame.Frame * SocketAddr) := flat_map arrived inputs.

(** C17: the socket neither makes up nor duplicates frames.  The frames that
    the endpoints have got, together with the frames that still wait in the
    cache, are frames of the datagrams that arrived, each with its source
    address and at most as often as it arrived. *)
Theorem socket_conserves_frames transport cfg inputs w :
  run env fuel (new_socket transport cfg) inputs = Returned w tt ->
  map snd (delivered w) ++ FrameRouter.cached (router w) ⊆+ received inputs.
Proof.
  intros Hrun. apply held_run in Hrun. unfold held in Hrun at 1. by rewrite app_nil_r in Hrun.
Qed.

End termination.

(** ** A new connection *)

Section accept.
Context {SocketAddr : Type} `{HA : HashedAddr SocketAddr} {Tr : Type}.
Variable env : Env SocketAddr Tr.
Variable fuel : nat.
Implicit Types (w : World SocketAddr Tr) (addr : SocketAddr).

Definition pushes (frames : list Frame.Frame) : list Frame.Frame := List.filter FrameRouter.is_push frames.

Lemma zero_rtt_all try_send channel addr frames : (forall n, try_send n = true) -> forall n,
  handle_zero_rtt_frames try_send n channel addr frames = map (fun f => (channel, (f, addr))) (pushes frames).
Proof.
  intros Hok. induction frames as [|f frames IH]; intros n; simpl; [done|]. destruct (FrameRouter.is_push f); [|apply IH].
  rewrite Hok, IH. done.
Qed.

Lemma waits_meant m cid addr pf :
  FrameRouter.caches_ok m -> u32_ok cid ->
  pf ∈ flat_map (FrameRouter.waiting m addr) (FrameRouter.keys_for cid addr) ->
  pf ∈ FrameRouter.contents m /\ FrameRouter.meant_for cid addr pf.
Proof.
  intros Hm Hcid Hpf. rewrite list_elem_of_In, in_flat_map in Hpf. destruct Hpf as (key & Hk & Hpf). apply list_elem_of_In in Hk, Hpf.
  split; [|by eapply FrameRouter.waiting_meant]. apply FrameRouter.elem_of_contents. unfold FrameRouter.waiting in Hpf.
  apply list_elem_of_filter in Hpf as [_ Hpf]. destruct (m !! key) as [l|] eqn:E; [by exists key, l|by apply elem_of_nil in Hpf].
Qed.

Lemma register_tables ok t (r : FrameRouter.FrameRouter SocketAddr) cid addr meta :
  let r' := (FrameRouter.register_connection ok t r cid addr meta).1 in
  r'.(FrameRouter.active_connections) !! cid = Some meta /\ r'.(FrameRouter.address_routing) !! addr = Some cid.
Proof.
  unfold FrameRouter.register_connection, FrameRouter.forward_cached_frames. cbn [FrameRouter.active_connections].
  rewrite lookup_insert_eq. destruct (FrameRouter.forward_keys _ _ _ _ _ _) as [sent m]. simpl. by rewrite !lookup_insert_eq.
Qed.

(** C18: 0-RTT data reaches the new connection.  When a SYN carries the socket's
    protocol version, an id is drawn, the endpoint is constructed without an
    error, and every send to the endpoint, waiting or not, and the send to the
    listener succeed, the SYN starts one endpoint, between a fresh local id
    and the client's id; it gets the PUSH frames that came with the SYN, in
    their order, then those that had come before it from the same address;
    then it is the connection of its id and of the address, and its stream is
    given to the listener.  (A SYN of another version is refused, and frames
    whose send fails are dropped.) *)
Theorem syn_accepted w header frames addr cid endpoint :
  socket_ok w -> u32_ok cid ->
  header.(LongHeader.protocol_version) = w.(coordinator).(config).(Config.protocol_version) ->
  generate_unique_connection_id env fuel w = Some cid ->
  create_server_endpoint env w cid header.(LongHeader.source_cid) addr = Done (endpoint, inl tt) ->
  (forall n i, env.(try_send_ok) n i = true) -> (forall n i, env.(send_ok) n i = true) -> (forall n, env.(accept_ok) n = true) ->
  exists w' early,
    handle_datagram env fuel w (Frame.Syn header :: frames) addr = Returned w' tt /\
    w'.(log) = w.(log) ++ map (fun f => Delivered (w.(channels), (f, addr))) (pushes frames) ++ [Spawned w.(channels) cid endpoint] ++
      map (fun f => Delivered (w.(channels), (f, addr))) early ++ [Accepted w.(channels) addr] /\
    (forall f, f ∈ early <-> exists pf, pf ∈ FrameRouter.contents (router w).(FrameRouter.pending_frames) /\
      FrameRouter.meant_for cid addr pf /\ f = pf.(FrameRouter.frame)) /\
    endpoint.(Endpoint.ep).(Endpoint.identity) =
      {| Endpoint.local_cid := cid; Endpoint.peer_cid := header.(LongHeader.source_cid); Endpoint.remote_addr := addr |} /\
    fresh (router w) cid /\
    (router w').(FrameRouter.active_connections) !! cid = Some {| FrameRouter.sender := w.(channels) |} /\
    (router w').(FrameRouter.address_routing) !! addr = Some cid.
Proof.
  intros Hw Hcid Hver Hgen Hnew Htry Hsend Hacc.
  pose proof (generate_loop_fresh _ _ _ _ Hgen) as Hfresh.
  pose proof (new_server_started (config (coordinator w)) addr cid (LongHeader.source_cid header)
    (Vegas.new (config (coordinator w))) (endpoint_env env (ops w))) as (endpoint' & res & Hnew' & Hid).
  unfold create_server_endpoint in Hnew. rewrite Hnew in Hnew'. injection Hnew' as <- <-.
  unfold handle_datagram, handle_new_connection, validate_protocol_version. rewrite Hver, Z.eqb_refl, Hgen.
  unfold create_server_endpoint. rewrite Hnew, zero_rtt_all by auto. simpl negb. cbv iota.
  set (w1 := acted (with_channel w) _ _). set (meta := {| FrameRouter.sender := channels w |}).
  set (ok := send_ok env (ops w1)).
  pose proof (FrameRouter.register_open ok (now env w1) (router w1) cid addr meta (so_router _ Hw) Hcid (Hsend (ops w1))) as Hopen.
  pose proof (register_tables ok (now env w1) (router w1) cid addr meta) as Htab.
  unfold register_connection_to_router. fold meta ok.
  destruct (FrameRouter.register_connection ok (now env w1) (router w1) cid addr meta) as [r sent].
  destruct Hopen as (Hsent & Hall & _). unfold send_connection_to_user. rewrite Hacc.
  set (waits := flat_map (FrameRouter.waiting (FrameRouter.pending_frames (router w)) addr) (FrameRouter.keys_for cid addr)) in *.
  assert (Hlog : map Delivered sent = map (fun f => Delivered (channels w, (f, addr))) (map FrameRouter.frame waits) :> list (effect SocketAddr Tr)).
  { rewrite Hsent, !map_map. apply map_ext_in. intros pf Hpf. unfold FrameRouter.arrival. do 3 f_equal.
    apply list_elem_of_In, waits_meant in Hpf; [by destruct Hpf as (_ & Haddr & _)|apply (FrameRouter.ok_caches _ (so_router _ Hw))|done]. }
  eexists _, (map FrameRouter.frame waits). split; [reflexivity|]. split; [simpl; rewrite Hlog, <- !app_assoc, map_map; reflexivity|].
  split; [|split; [done|split; [done|exact Htab]]]. intros f. rewrite list_elem_of_fmap. split.
  - intros (pf & -> & Hpf). exists pf. by apply waits_meant in Hpf as [Hc Hm]; [|apply (FrameRouter.ok_caches _ (so_router _ Hw))|done].
  - intros (pf & Hpf & Hm & ->). exists pf. split; [done|].
    destruct (FrameRouter.meant_waiting _ cid addr pf (FrameRouter.ok_caches _ (so_router _ Hw)) Hpf Hm) as (key & Hk & Hwt).
    apply list_elem_of_In, in_flat_map. exists key. by rewrite <- !list_elem_of_In.
Qed.

End accept.

(** ** Examples

    A clock of one second per operation, and a generator that starts with the
    same ids each time. *)

Definition example_outside : Env Z unit := {|
  clock := fun n => from_secs (Z.of_nat n); random := fun _ k => 5 + Z.of_nat k;
  send_ok := fun _ _ => true; try_send_ok := fun _ _ => true; accept_ok := fun _ => true;
  endpoint_env := fun _ => EventLoop.example_env; bind := fun _ _ => Some (tt, Some 9);
  transport_open := fun _ => true; transport_addr := fun _ _ => Some 9 |}.

Definition example_datagram : list byte :=
  Frame.serialize_frames [Frame.new_syn 1 77 0; Frame.new_push 0 0 0 10 0 [Byte.x61]].

(** Early data, then the SYN, a second client, garbage, and commands. *)
Definition example_inputs : list (input Z) :=
  [Datagram (Frame.serialize_frames [Frame.new_push 0 1 0 10 0 [Byte.x62]]) 100; Datagram example_datagram 100;
   Datagram example_datagram 101; Datagram [Byte.xff; Byte.x00] 102; Command (Connect 200 Config.default None);
   Command (Rebind 9); Command (UpdateAddr 5 103); CleanupTick].

Definition world_after (inputs : list (input Z)) : World Z unit :=
  match run example_outside 20 (new_socket tt Config.default) inputs with
  | Returned w _ => w
  | _ => new_socket tt Config.default
  end.

Lemma socket_never_panics_witness :
  exists w, run example_outside 20 (new_socket tt Config.default) example_inputs = Returned w tt /\ socket_ok w.
Proof. apply (socket_never_panics example_outside 20 tt Config.default example_inputs); [by_decide|simpl; lia]. Defined.

Lemma connection_table_sound_witness :
  let w := world_after example_inputs in
  map fst (map_to_list (router w).(FrameRouter.active_connections)) ≡ₚ [5; 6; 7] /\
  forall cid meta, (router w).(FrameRouter.active_connections) !! cid = Some meta ->
    FrameRouter.is_draining (router w) cid = false /\
    exists endpoint, (meta.(FrameRouter.sender), (cid, endpoint)) ∈ spawned w /\
      Endpoint.local_cid endpoint.(Endpoint.ep).(Endpoint.identity) = cid.
Proof.
  intros w. split; [vm_compute; solve_Permutation|].
  assert (Hrun : run example_outside 20 (new_socket tt Config.default) example_inputs = Returned w tt) by (vm_compute; reflexivity).
  clearbody w. exact (proj1 (connection_table_sound example_outside 20 tt Config.default example_inputs w Hrun)).
Defined.

Lemma socket_conserves_frames_witness :
  let w := world_after example_inputs in
  length (delivered w) = 3%nat /\ map snd (delivered w) ++ FrameRouter.cached (router w) ⊆+ received example_inputs.
Proof.
  intros w. split; [vm_compute; reflexivity|].
  assert (Hrun : run example_outside 20 (new_socket tt Config.default) example_inputs = Returned w tt) by (vm_compute; reflexivity).
  clearbody w. exact (socket_conserves_frames example_outside 20 tt Config.default example_inputs w Hrun).
Defined.

Lemma cid_not_reused_witness :
  let w := world_after [Command (Connect 200 Config.default None)] in
  let inputs := [Command (RemoveConnection 5); CleanupTick; CleanupTick; CleanupTick] in
  exists w', run example_outside 20 w inputs = Returned w' tt /\
    generate_unique_connection_id example_outside 20 w' = Some 5 /\
    from_secs 3 <= duration_since (now example_outside w') (now example_outside w).
Proof.
  intros w inputs. set (w' := match run example_outside 20 w inputs with Returned w' _ => w' | _ => w end).
  assert (Hrun : run example_outside 20 w inputs = Returned w' tt) by (vm_compute; reflexivity).
  assert (Hgen : generate_unique_connection_id example_outside 20 w' = Some 5) by (vm_compute; reflexivity).
  assert (Hact : FrameRouter.connection_exists (router w) 5 = true) by (vm_compute; reflexivity).
  assert (Htimeout : drain_timeout w = from_secs 3) by (vm_compute; reflexivity).
  clearbody w'. clearbody w. exists w'. split; [exact Hrun|]. split; [exact Hgen|]. rewrite <- Htimeout.
  apply (cid_not_reused example_outside 20 w inputs w' 5); [|exact Hact|exact Hrun|exact Hgen].
  intros m n Hmn. simpl. unfold from_secs. lia.
Defined.

Lemma syn_accepted_witness :
  let w := world_after (take 1 example_inputs) in
  let header := {| LongHeader.command := Command.Syn; LongHeader.protocol_version := 1;
                   LongHeader.destination_cid := 0; LongHeader.source_cid := 77 |} in
  let push := Frame.new_push 0 0 0 10 0 [Byte.x61] in
  exists w', handle_datagram example_outside 20 w [Frame.Syn header; push] 100 = Returned w' tt /\
    (router w').(FrameRouter.address_routing) !! 100 = Some 5.
Proof.
  intros w header push.
  assert (Hrun : run example_outside 20 (new_socket tt Config.default) (take 1 example_inputs) = Returned w tt)
    by (vm_compute; reflexivity).
  set (endpoint := match create_server_endpoint example_outside w 5 77 100 with Done (e, _) => e | Panic => EventLoop.example_server end).
  assert (Hnew : create_server_endpoint example_outside w 5 77 100 = Done (endpoint, inl tt)) by (vm_compute; reflexivity).
  assert (Hgen : generate_unique_connection_id example_outside 20 w = Some 5) by (vm_compute; reflexivity).
  assert (Hver : 1 = w.(coordinator).(config).(Config.protocol_version)) by (vm_compute; reflexivity).
  clearbody endpoint. clearbody w.
  assert (Hok : socket_ok w) by exact (run_socket_ok example_outside 20 _ _ w tt (new_socket_ok tt Config.default) Hrun).
  destruct (syn_accepted example_outside 20 w header [push] 100 5 endpoint Hok ltac:(by_decide) Hver Hgen Hnew
    (fun _ _ => eq_refl) (fun _ _ => eq_refl) (fun _ => eq_refl)) as (w' & early & Hd & _ & _ & _ & _ & _ & Haddr).
  exists w'. split; [exact Hd|exact Haddr].
Defined.

End SocketFacts.
