(* ===== verification/Handle.v ===== *)
(** * Errors and the socket's handle

    Models [src/error.rs] and the methods of [src/socket/handle.rs].  A method
    sends one command to the socket's event loop ([Socket]) and waits for its
    answer; other inputs may be taken before the command is. *)

From Stdlib Require Import Strings.String.
From S2P Require Import Prelude Packet Config Frame Congestion Lifecycle Endpoint EventLoop Transport Routing Udp InitialData Socket SocketFacts.

(** ** [error.rs] *)

Module Errors.

Section errors.
Context {SocketAddr OsError AddrParseError : Type}.

Record ProcessorErrorContext := {
  processor_name : string;
  connection_id : Z;
  src_addr : SocketAddr;
  connection_state : string;
  timestamp : Instant;
  additional_info : option string;
}.

Definition new_context (name : string) (cid : Z) (addr : SocketAddr) (state : string) (time : Instant) : ProcessorErrorContext :=
  {| processor_name := name; connection_id := cid; src_addr := addr; connection_state := state; timestamp := time;
     additional_info := None |}.

Definition with_info (c : ProcessorErrorContext) (info : string) : ProcessorErrorContext :=
  {| processor_name := c.(processor_name); connection_id := c.(connection_id); src_addr := c.(src_addr);
     connection_state := c.(connection_state); timestamp := c.(timestamp); additional_info := Some info |}.

Record FrameTypeMismatchError := { expected : string; actual : string; context : ProcessorErrorContext }.

(** The kinds of [std::io::ErrorKind] that are used, and [std::io::Error]: one
    of the system, a bare kind, or a kind with a payload. *)
Inductive ErrorKind :=
| InvalidInput | ConnectionReset | ConnectionAbortedKind | TimedOut | InvalidData | BrokenPipe | Other | NotConnectedKind.

Inductive IoError := Os (e : OsError) | Simple (kind : ErrorKind) | Custom (kind : ErrorKind) (e : AddrParseError).

Inductive Error :=
| Io (e : IoError)
| AddressParse (e : AddrParseError)
| InvalidPacket
| InvalidFrame (text : string)
| FrameTypeMismatch (err : FrameTypeMismatchError)
| ConnectionClosed
| InitialDataTooLarge
| ConnectionAborted
| ConnectionTimeout
| PathValidationTimeout
| NotConnected
| ChannelClosed
| TimerError (text : string)
| MessageTooLarge.

(** [impl From<Error> for std::io::Error] *)
Definition into_io (err : Error) : IoError :=
  match err with
  | Io e => e
  | AddressParse e => Custom InvalidInput e
  | ConnectionClosed => Simple ConnectionReset
  | ConnectionAborted => Simple ConnectionAbortedKind
  | ConnectionTimeout => Simple TimedOut
  | PathValidationTimeout => Simple TimedOut
  | InvalidPacket => Simple InvalidData
  | InvalidFrame _ => Simple InvalidData
  | FrameTypeMismatch _ => Simple InvalidData
  | ChannelClosed => Simple BrokenPipe
  | TimerError _ => Simple Other
  | MessageTooLarge => Simple InvalidInput
  | NotConnected => Simple NotConnectedKind
  | InitialDataTooLarge => Simple InvalidInput
  end.

(** A caller who sees a connection fail cannot take it for a bad argument: only
    what he passed himself becomes [InvalidInput]. *)
Lemma invalid_input_is_callers err :
  (exists k, into_io err = Simple k /\ k = InvalidInput) \/ (exists e, into_io err = Custom InvalidInput e) ->
  match err with Io _ | AddressParse _ | MessageTooLarge | InitialDataTooLarge => True | _ => False end.
Proof. destruct err; simpl; naive_solver. Qed.

End errors.
End Errors.

(** ** [handle.rs] *)

Module Handle.
Import Socket.

Section handle.
Context {SocketAddr : Type} `{HA : HashedAddr SocketAddr} {Tr : Type}.
Variable env : Env SocketAddr Tr.
Variable fuel : nat.
Implicit Types (w : World SocketAddr Tr) (addr : SocketAddr).

(** [bound]: the transport, if it could be bound. *)
Definition bind (bound : option Tr) : option (World SocketAddr Tr) :=
  match bound with
  | None => None
  | Some transport => Some (new_socket transport Config.default)
  end.

(** The answer among the effects of a step. *)
Fixpoint answer {A} (pick : effect SocketAddr Tr -> option A) (effects : list (effect SocketAddr Tr)) : option A :=
  match effects with
  | [] => None
  | e :: effects => match pick e with Some a => Some a | None => answer pick effects end
  end.

(** One command, behind the inputs [before]; [sent] is false when the event
    loop is gone. *)
Definition ask {A} (command : SocketActorCommand) (pick : effect SocketAddr Tr -> option (A + Error))
    (sent : bool) (before : list (input SocketAddr)) w : result (A + Error) :=
  if negb sent then Returned w (inr ChannelClosed) else
  match run env fuel w before with
  | Returned w1 _ =>
    match step env fuel w1 (Command command) with
    | Returned w2 _ =>
      Returned w2 (match answer pick (drop (length w1.(log)) w2.(log)) with
                   | Some response => response
                   | None => inr ChannelClosed
                   end)
    | Looping => Looping
    | Panicked => Panicked
    end
  | Looping => Looping
  | Panicked => Panicked
  end.

Definition connect_response (e : effect SocketAddr Tr) : option (nat + Error) :=
  match e with ConnectResponse res => Some res | _ => None end.

Definition rebind_response (e : effect SocketAddr Tr) : option (unit + Error) :=
  match e with RebindResponse res => Some res | _ => None end.

Definition local_addr_response (e : effect SocketAddr Tr) : option (SocketAddr + Error) :=
  match e with
  | LocalAddrResponse (Some addr) => Some (inl addr)
  | LocalAddrResponse None => Some (inr (TransportError Transport.Io))
  | _ => None
  end.

Definition rebind new_local_addr := ask (Rebind new_local_addr) rebind_response.

(** [initial_data] is what [InitialData.new] returned. *)
Definition connect_with_config remote_addr config (initial_data : option (list byte)) :=
  ask (Connect remote_addr config initial_data) connect_response.

Definition connect remote_addr := connect_with_config remote_addr Config.default None.

Definition local_addr := ask GetLocalAddr local_addr_response.

(** [TransportListener::accept] on the streams that wait, or [None] while it
    has to wait itself; [open]: the event loop lives. *)
Definition accept (queue : list (nat * SocketAddr)) (open : bool)
    : option (((nat * SocketAddr) + Error) * list (nat * SocketAddr)) :=
  match queue with
  | stream :: queue => Some (inl stream, queue)
  | [] => if open then None else Some (inr ChannelClosed, [])
  end.

(** ** Facts *)

Lemma answer_app {A} (pick : effect SocketAddr Tr -> option A) l e a :
  Forall (fun x => pick x = None) l -> pick e = Some a -> answer pick (l ++ [e]) = Some a.
Proof. induction 1 as [|x l Hx _ IH]; simpl; intros He; [by rewrite He|]. rewrite Hx. by apply IH. Qed.

(** What a new connection does before its answer. *)
Lemma client_log w addr cfg data w' res :
  create_client_connection env fuel w addr cfg data = Returned w' res ->
  exists effects, w'.(log) = w.(log) ++ effects /\ Forall (fun e => connect_response e = None) effects /\
    match res with
    | inl channel => exists cid endpoint,
        channel = w.(channels) /\ fresh (router w) cid /\
        EventLoop.new_client (env.(endpoint_env) w.(ops)) cfg addr cid (Vegas.new cfg) data = Done (endpoint, inl tt) /\
        (channel, (cid, endpoint)) ∈ spawned w' /\
        (router w').(FrameRouter.active_connections) !! cid = Some {| FrameRouter.sender := channel |} /\
        (router w').(FrameRouter.address_routing) !! addr = Some cid
    | inr err => (exists e, err = EndpointError e) /\ effects = [] /\ router w' = router w
    end.
Proof.
  unfold create_client_connection. destruct (generate_unique_connection_id env fuel w) as [cid|] eqn:Eg; [|done].
  apply generate_loop_fresh in Eg.
  destruct (EventLoop.new_client _ _ _ _ _ _) as [[endpoint [[]|err]]|] eqn:En; [| |done]; intros [= <- <-].
  2:{ exists []. split; [done|]. split; [done|]. split; [by eexists|done]. }
  unfold register_connection_to_router. set (w1 := acted _ _ _).
  pose proof (SocketFacts.register_tables (send_ok env (ops w1)) (now env w1) (router w1) cid addr
    {| FrameRouter.sender := w.(channels) |}) as [Ha Hr].
  destruct (FrameRouter.register_connection _ _ _ _ _ _) as [r sent]. simpl in Ha, Hr.
  exists (Spawned (channels w) cid endpoint :: map Delivered sent). split; [simpl; by rewrite <- app_assoc|]. split.
  - constructor; [done|]. apply Forall_map, Forall_true. done.
  - exists cid, endpoint. split_and!; try done. rewrite spawned_acted. apply elem_of_app. left.
    unfold w1. rewrite spawned_acted. apply elem_of_app. right. by apply list_elem_of_singleton.
Qed.

(** The actor answers each command: a method fails with [ChannelClosed] only
    if its command could not be sent.  What [connect] returns is the stream of
    a new endpoint, made of the caller's configuration and data, to which the
    frames for its id and those from the address are led. *)
Theorem connect_spec remote_addr cfg data before w w' res :
  connect_with_config remote_addr cfg data true before w = Returned w' res ->
  exists w1, run env fuel w before = Returned w1 tt /\
    match res with
    | inl channel => exists cid endpoint, fresh (router w1) cid /\
        EventLoop.new_client (env.(endpoint_env) w1.(ops)) cfg remote_addr cid (Vegas.new cfg) data = Done (endpoint, inl tt) /\
        (channel, (cid, endpoint)) ∈ spawned w' /\
        (router w').(FrameRouter.active_connections) !! cid = Some {| FrameRouter.sender := channel |} /\
        (router w').(FrameRouter.address_routing) !! remote_addr = Some cid
    | inr err => (exists e, err = EndpointError e) /\ router w' = router w1
    end.
Proof.
  unfold connect_with_config, ask. simpl negb. cbv iota.
  destruct (run env fuel w before) as [w1 []| |]; [|done..]. simpl.
  destruct (create_client_connection env fuel w1 remote_addr cfg data) as [w2 r| |] eqn:E; [|done..].
  apply client_log in E as (effects & Hlog & Hnone & Hr). simpl. rewrite Hlog, <- app_assoc, drop_app_length.
  rewrite (answer_app connect_response effects (ConnectResponse r) r) by done. intros [= <- <-]. exists w1. split; [done|].
  destruct r as [channel|err].
  - destruct Hr as (cid & endpoint & -> & Hf & Hn & Hs & Ha & Hd). exists cid, endpoint. split_and!; try done.
    unfold respond. rewrite spawned_acted. apply elem_of_app. by left.
  - by destruct Hr as (He & _ & Hr).
Qed.

Theorem rebind_answered new_addr before w w' res :
  rebind new_addr true before w = Returned w' res -> res <> inr ChannelClosed.
Proof.
  unfold rebind, ask. simpl negb. cbv iota. destruct (run env fuel w before) as [w1 []| |]; [|done..]. simpl.
  unfold handle_rebind. destruct (Transport.rebind _ _ _) as [[manager r] commands]. simpl.
  rewrite drop_app_length. simpl. intros [= <- <-]. by destruct r.
Qed.

Theorem local_addr_answered before w w' res :
  local_addr true before w = Returned w' res -> res <> inr ChannelClosed.
Proof.
  unfold local_addr, ask. simpl negb. cbv iota. destruct (run env fuel w before) as [w1 []| |]; [|done..]. simpl.
  rewrite drop_app_length. simpl. destruct (transport_addr _ _ _); by intros [= <- <-].
Qed.

End handle.
End Handle.
