(* ===== verification/EventPool.v ===== *)
(** * Timer events: the object pool and the event factory

    Models [src/timer/event/pool.rs], [src/timer/event/traits.rs] and
    [src/timer/event/memory_pool.rs].  The queue of the pool is the
    [SegQueue] of the crossbeam crate and the vectors are those of the wide
    crate: both are interfaces with laws. *)

From S2P Require Import Prelude WheelBatch TimerTask.

(** ** Interfaces *)

(** An unbounded FIFO; [content] is the list of its elements. *)
Class SegQueue (Q : Type -> Type) := {
  seg_new {A} : Q A;
  seg_push {A} : Q A -> A -> Q A;
  seg_pop {A} : Q A -> option (A * Q A);
  seg_len {A} : Q A -> Z;
  content {A} : Q A -> list A;
  content_new {A} : content (seg_new (A := A)) = [];
  content_push {A} (q : Q A) x : content (seg_push q x) = content q ++ [x];
  content_pop {A} (q : Q A) :
    match seg_pop q with
    | Some (x, q') => content q = x :: content q'
    | None => content q = []
    end;
  content_len {A} (q : Q A) : seg_len q = len (content q);
}.

(** [u32x8::new(a).to_array()] and [u32x4::new(a).to_array()]. *)
Class PoolLanes := {
  u32x8 : list Z -> list Z;
  u32x4 : list Z -> list Z;
  u32x8_id a : length a = 8%nat -> Forall u32_ok a -> u32x8 a = a;
  u32x4_id a : length a = 4%nat -> Forall u32_ok a -> u32x4 a = a;
}.

Module EventPool.
Import TimerEvent.

Record PoolConfig := {
  max_size : Z;
  initial_size : nat;
  enable_batch_optimization : bool;
}.

Definition default_config : PoolConfig :=
  {| max_size := 1024; initial_size := 64; enable_batch_optimization := true |}.

Definition capacity_config (max_size : Z) : PoolConfig :=
  {| max_size := max_size; initial_size := Z.to_nat (Z.min (Z.max (max_size / 16) 4) 64);
     enable_batch_optimization := true |}.

Record PoolStats := { stat_current_size : Z; stat_max_size : Z; stat_initial_size : nat }.

Section pool.
(** [default] is [E::default()]. *)
Context {E : Type} (default : E) {Q : Type -> Type} `{HQ : SegQueue Q} `{HL : PoolLanes}.

Abbreviation Data := (@TimerEventData E).
Abbreviation Request := (Z * E)%type.

Record TimerEventPool := { pool : Q Data; config : PoolConfig }.

Implicit Types (p : TimerEventPool) (obj : Data) (requests : list Request).

Definition with_pool p (q : Q Data) : TimerEventPool := {| pool := q; config := p.(config) |}.

Fixpoint push_dummies (n : nat) (q : Q Data) : Q Data :=
  match n with
  | O => q
  | S n => push_dummies n (seg_push q (create_event 0 default))
  end.

Definition new (config : PoolConfig) : TimerEventPool :=
  {| pool := push_dummies config.(initial_size) seg_new; config := config |}.

Definition new_default : TimerEventPool := new default_config.

Definition with_capacity (max_size : Z) : TimerEventPool := new (capacity_config max_size).

(** The two assignments to an object of the pool. *)
Definition reuse obj (connection_id : Z) (timeout_event : E) : Data :=
  let obj := {| TimerEvent.connection_id := connection_id; TimerEvent.timeout_event := obj.(TimerEvent.timeout_event) |} in
  {| TimerEvent.connection_id := obj.(TimerEvent.connection_id); TimerEvent.timeout_event := timeout_event |}.

Definition acquire p (connection_id : Z) (timeout_event : E) : Data * TimerEventPool :=
  match seg_pop p.(pool) with
  | Some (obj, q) => (reuse obj connection_id timeout_event, with_pool p q)
  | None => (create_event connection_id timeout_event, p)
  end.

Definition release p obj : TimerEventPool :=
  if seg_len p.(pool) <? p.(config).(max_size) then with_pool p (seg_push p.(pool) obj) else p.

Fixpoint acquire_each p requests : list Data * TimerEventPool :=
  match requests with
  | [] => ([], p)
  | (conn_id, event) :: requests =>
    let '(obj, p) := acquire p conn_id event in
    let '(objs, p) := acquire_each p requests in (obj :: objs, p)
  end.

(** Takes at most [n] objects out of the pool. *)
Fixpoint pop_up_to (n : nat) (q : Q Data) : list Data * Q Data :=
  match n with
  | O => ([], q)
  | S n =>
    match seg_pop q with
    | Some (obj, q) => let '(objs, q) := pop_up_to n q in (obj :: objs, q)
    | None => ([], q)
    end
  end.

(** [slice[i..i + n]]; panics out of range. *)
Definition slice {A} (l : list A) (i n : nat) : outcome (list A) :=
  if (i + n <=? length l)%nat then Done (take n (drop i l)) else Panic.

(** [simd_process_chunk] and [simd_process_chunk_4], by their lanes. *)
Definition simd_process_chunk (lanes : list Z -> list Z) (n : nat) (start_index : nat) requests (result : list Data)
    : outcome (list Data) :=
  outcome_bind (slice requests start_index n) (fun rs =>
  outcome_bind (slice result start_index n) (fun chunk =>
  let processed_ids := lanes (map fst rs) in
  Done (take start_index result ++
        zip_with (fun obj r => reuse obj r.1 r.2) chunk (zip processed_ids (map snd rs)) ++
        drop (start_index + n) result))).

(** [simd_create_chunk] and [simd_create_chunk_4]. *)
Definition simd_create_chunk (lanes : list Z -> list Z) (n : nat) (start_index : nat) requests (target_vec : list Data)
    : outcome (list Data) :=
  outcome_bind (slice requests start_index n) (fun rs =>
  let processed_ids := lanes (map fst rs) in
  Done (target_vec ++ map (fun r => create_event r.1 r.2) (zip processed_ids (map snd rs)))).

(** [while i + n <= bound]: the iterations are at most [bound]. *)
Fixpoint while_chunks (fuel n bound : nat) (body : nat -> list Data -> outcome (list Data)) (i : nat) (result : list Data)
    : outcome (nat * list Data) :=
  match fuel with
  | O => Done (i, result)
  | S fuel =>
    if (i + n <=? bound)%nat then
      outcome_bind (body i result) (fun result => while_chunks fuel n bound body (i + n) result)
    else Done (i, result)
  end.

(** The scalar loops do one element as a chunk of its own. *)
Definition simd_update_and_create requests (result : list Data) : outcome (list Data) :=
  let total_requests := length requests in
  let acquired_count := length result in
  let loop n bound body st := while_chunks bound n bound body st.1 st.2 in
  outcome_bind (loop 8%nat acquired_count (fun i res => simd_process_chunk u32x8 8 i requests res) (0%nat, result)) (fun st =>
  outcome_bind (loop 4%nat acquired_count (fun i res => simd_process_chunk u32x4 4 i requests res) st) (fun st =>
  outcome_bind (loop 1%nat acquired_count (fun i res => simd_process_chunk (fun ids => ids) 1 i requests res) st) (fun st =>
  let result := st.2 in
  outcome_bind (loop 8%nat total_requests (fun j v => simd_create_chunk u32x8 8 j requests v) (acquired_count, [])) (fun st =>
  outcome_bind (loop 4%nat total_requests (fun j v => simd_create_chunk u32x4 4 j requests v) st) (fun st =>
  outcome_bind (loop 1%nat total_requests (fun j v => simd_create_chunk (fun ids => ids) 1 j requests v) st) (fun st =>
  Done (result ++ st.2))))))).

Definition batch_acquire p requests : outcome (list Data * TimerEventPool) :=
  match p.(config).(enable_batch_optimization), requests with
  | false, _ | _, [] => Done (acquire_each p requests)
  | true, _ =>
    let '(result, q) := pop_up_to (length requests) p.(pool) in
    outcome_bind (simd_update_and_create requests result) (fun result => Done (result, with_pool p q))
  end.

Definition batch_release p (objects : list Data) : TimerEventPool :=
  let current_len := seg_len p.(pool) in
  let available_capacity := saturating_sub p.(config).(max_size) current_len in
  let to_release := Z.min (len objects) available_capacity in
  with_pool p (fold_left seg_push (take (Z.to_nat to_release) objects) p.(pool)).

Definition stats p : PoolStats :=
  {| stat_current_size := seg_len p.(pool); stat_max_size := p.(config).(max_size);
     stat_initial_size := p.(config).(initial_size) |}.

(** ** What the pool holds *)

Definition objects p : list Data := content p.(pool).

Definition fresh (r : Request) : Data := create_event r.1 r.2.

Lemma reuse_fresh obj cid event : reuse obj cid event = create_event cid event.
Proof. done. Qed.

Lemma content_dummies n : forall q, content (push_dummies n q) = content q ++ replicate n (create_event 0 default).
Proof.
  induction n as [|n IH]; intros q; simpl; [by rewrite app_nil_r|]. rewrite IH, content_push, <- app_assoc. done.
Qed.

Lemma acquire_spec p cid event :
  (acquire p cid event).1 = create_event cid event /\ objects (acquire p cid event).2 = drop 1 (objects p) /\
  (acquire p cid event).2.(config) = p.(config).
Proof.
  unfold acquire, objects. pose proof (content_pop p.(pool)) as Hp. destruct (seg_pop p.(pool)) as [[obj q]|]; simpl; rewrite Hp; done.
Qed.

Lemma acquire_each_spec requests : forall p,
  (acquire_each p requests).1 = map fresh requests /\
  objects (acquire_each p requests).2 = drop (length requests) (objects p) /\
  (acquire_each p requests).2.(config) = p.(config).
Proof.
  induction requests as [|[cid event] requests IH]; intros p; simpl; [done|].
  pose proof (acquire_spec p cid event) as (H1 & H2 & H3). destruct (acquire p cid event) as [obj p1]. simpl in *.
  specialize (IH p1) as (I1 & I2 & I3). destruct (acquire_each p1 requests) as [objs p2]. simpl in *.
  rewrite H1, I1, I2, H2, drop_drop, I3, H3. done.
Qed.

Lemma pop_up_to_spec n : forall q : Q Data,
  (pop_up_to n q).1 = take n (content q) /\ content (pop_up_to n q).2 = drop n (content q).
Proof.
  induction n as [|n IH]; intros q; simpl; [done|]. pose proof (content_pop q) as Hp.
  destruct (seg_pop q) as [[obj q1]|]; [|by rewrite Hp]. specialize (IH q1) as [I1 I2].
  destruct (pop_up_to n q1) as [objs q2]. simpl in *. by rewrite Hp, I1, I2.
Qed.

Lemma content_push_all l : forall q : Q Data, content (fold_left seg_push l q) = content q ++ l.
Proof.
  induction l as [|x l IH]; intros q; simpl; [by rewrite app_nil_r|]. by rewrite IH, content_push, <- app_assoc.
Qed.

(** ** The chunked loops *)

Lemma while_chunks_spec (P : nat -> list Data -> Prop) n bound body : (0 < n)%nat ->
  (forall i res, (i + n <= bound)%nat -> P i res -> exists res', body i res = Done res' /\ P (i + n)%nat res') ->
  forall fuel i res, (i <= bound)%nat -> (bound <= i + fuel)%nat -> P i res ->
  exists i' res', while_chunks fuel n bound body i res = Done (i', res') /\ P i' res' /\ (i' <= bound)%nat /\ (bound < i' + n)%nat.
Proof.
  intros Hn Hbody. induction fuel as [|fuel IH]; intros i res Hi Hf HP; simpl.
  - exists i, res. split_and!; [done..|lia].
  - destruct (Nat.leb_spec (i + n) bound) as [Hle|Hgt]; [|exists i, res; split_and!; [done..|lia]].
    destruct (Hbody i res Hle HP) as (res' & -> & HP'). simpl. apply IH; [lia..|done].
Qed.

Lemma slice_ok {A} (l : list A) i n : (i + n <= length l)%nat -> slice l i n = Done (take n (drop i l)).
Proof. intros H. unfold slice. by apply Nat.leb_le in H as ->. Qed.

Lemma take_add_drop {A} (l : list A) i n : take (i + n) l = take i l ++ take n (drop i l).
Proof. by rewrite take_take_drop. Qed.

Lemma zip_fresh (chunk : list Data) (rs : list Request) :
  length chunk = length rs -> zip_with (fun obj r => reuse obj r.1 r.2) chunk (zip (map fst rs) (map snd rs)) = map fresh rs.
Proof.
  revert chunk. induction rs as [|[a b] rs IH]; intros [|c chunk] Hl; try done. simpl. rewrite IH by (simpl in Hl; lia). done.
Qed.

Lemma zip_create (rs : list Request) : map (fun r => create_event r.1 r.2) (zip (map fst rs) (map snd rs)) = map fresh rs.
Proof. induction rs as [|[a b] rs IH]; simpl; [done|]. by rewrite IH. Qed.

Lemma ids_ok requests i n : Forall (fun r => u32_ok r.1) requests -> Forall u32_ok (map fst (take n (drop i requests))).
Proof. intros H. apply Forall_fmap. by apply Forall_take, Forall_drop. Qed.

(** Updating a chunk of recycled objects. *)
Lemma process_chunk_spec lanes n requests (old : list Data) i :
  (forall a, length a = n -> Forall u32_ok a -> lanes a = a) ->
  Forall (fun r => u32_ok r.1) requests -> (length old <= length requests)%nat -> (i + n <= length old)%nat ->
  simd_process_chunk lanes n i requests (map fresh (take i requests) ++ drop i old) =
    Done (map fresh (take (i + n) requests) ++ drop (i + n) old).
Proof.
  intros Hlanes Hids Hold Hi. unfold simd_process_chunk.
  assert (Hlen : length (map fresh (take i requests)) = i) by (rewrite length_map, length_take; lia).
  rewrite !slice_ok by (rewrite ?length_app, ?length_drop; lia). simpl.
  assert (Hrs : length (take n (drop i requests)) = n) by (rewrite length_take, length_drop; lia).
  rewrite Hlanes by (rewrite ?length_map; auto using ids_ok). rewrite (drop_app_length' (map fresh _) _ i) by done.
  rewrite zip_fresh by (rewrite !length_take, !length_drop; lia).
  rewrite (take_app_length' (map fresh _) _ i) by done. rewrite drop_app_ge by lia. rewrite Hlen, drop_drop.
  rewrite take_add_drop, map_app, <- app_assoc. do 3 f_equal. f_equal. lia.
Qed.

(** Creating a chunk of new objects. *)
Lemma create_slice_spec lanes n requests a i :
  (forall l, length l = n -> Forall u32_ok l -> lanes l = l) ->
  Forall (fun r => u32_ok r.1) requests -> (a <= i)%nat -> (i + n <= length requests)%nat ->
  simd_create_chunk lanes n i requests (map fresh (take (i - a) (drop a requests))) =
    Done (map fresh (take (i + n - a) (drop a requests))).
Proof.
  intros Hlanes Hids Ha Hi. unfold simd_create_chunk. rewrite slice_ok by done. simpl.
  assert (Hrs : length (take n (drop i requests)) = n) by (rewrite length_take, length_drop; lia).
  rewrite Hlanes by (rewrite ?length_map; auto using ids_ok). rewrite zip_create, <- map_app. do 2 f_equal.
  replace (i + n - a)%nat with ((i - a) + n)%nat by lia. rewrite take_add_drop, drop_drop. do 3 f_equal. lia.
Qed.

Lemma one_lane (l : list Z) : length l = 1%nat -> Forall u32_ok l -> (fun ids : list Z => ids) l = l.
Proof. done. Qed.

(** The vector code makes exactly the objects that were asked for. *)
Lemma simd_update_and_create_spec requests (old : list Data) :
  Forall (fun r => u32_ok r.1) requests -> (length old <= length requests)%nat ->
  simd_update_and_create requests old = Done (map fresh requests).
Proof.
  intros Hids Hold. unfold simd_update_and_create. cbv zeta. cbn [fst snd].
  set (P := fun i res => res = map fresh (take i requests) ++ drop i old).
  set (C := fun i res => (length old <= i)%nat /\ res = map fresh (take (i - length old) (drop (length old) requests))).
  assert (HP : forall lanes n, (forall a, length a = n -> Forall u32_ok a -> lanes a = a) -> forall i res,
    (i + n <= length old)%nat -> P i res ->
    exists res', simd_process_chunk lanes n i requests res = Done res' /\ P (i + n)%nat res').
  { intros lanes n Hl i res Hi ->. eexists. split; [by apply process_chunk_spec|done]. }
  assert (HC : forall lanes n, (forall a, length a = n -> Forall u32_ok a -> lanes a = a) -> forall i res,
    (i + n <= length requests)%nat -> C i res ->
    exists res', simd_create_chunk lanes n i requests res = Done res' /\ C (i + n)%nat res').
  { intros lanes n Hl i res Hi [Ha ->]. eexists. split; [by apply create_slice_spec|]. split; [lia|done]. }
  destruct (while_chunks_spec P 8 _ _ ltac:(lia) (HP u32x8 8%nat u32x8_id) (length old) 0 old) as (i1 & r1 & E1 & H1 & B1 & _);
    [lia|lia|done|]. rewrite E1. cbn [outcome_bind fst snd].
  destruct (while_chunks_spec P 4 _ _ ltac:(lia) (HP u32x4 4%nat u32x4_id) (length old) i1 r1) as (i2 & r2 & E2 & H2 & B2 & _);
    [lia|lia|done|]. rewrite E2. cbn [outcome_bind fst snd].
  destruct (while_chunks_spec P 1 _ _ ltac:(lia) (HP _ 1%nat one_lane) (length old) i2 r2) as (i3 & r3 & E3 & H3 & B3 & L3);
    [lia|lia|done|]. rewrite E3. cbn [outcome_bind fst snd].
  destruct (while_chunks_spec C 8 _ _ ltac:(lia) (HC u32x8 8%nat u32x8_id) (length requests) (length old) []) as (j1 & c1 & F1 & G1 & D1 & _);
    [lia|lia|unfold C; rewrite Nat.sub_diag; done|]. rewrite F1. cbn [outcome_bind fst snd].
  destruct (while_chunks_spec C 4 _ _ ltac:(lia) (HC u32x4 4%nat u32x4_id) (length requests) j1 c1) as (j2 & c2 & F2 & G2 & D2 & _);
    [lia|lia|done|]. rewrite F2. cbn [outcome_bind fst snd].
  destruct (while_chunks_spec C 1 _ _ ltac:(lia) (HC _ 1%nat one_lane) (length requests) j2 c2) as (j3 & c3 & F3 & G3 & D3 & L3');
    [lia|lia|done|]. rewrite F3. cbn [outcome_bind fst snd].
  assert (i3 = length old) as -> by lia. assert (j3 = length requests) as -> by lia.
  destruct G3 as [_ ->]. rewrite H3, drop_all, app_nil_r, <- map_app.
  rewrite (take_ge (drop _ _)) by (rewrite length_drop; lia). by rewrite take_drop.
Qed.

(** ** The size of the pool *)

Inductive op :=
| Acquire (connection_id : Z) (timeout_event : E)
| Release (obj : Data)
| BatchAcquire (requests : list Request)
| BatchRelease (objs : list Data).

(** The pool after an operation; [None] for a panic. *)
Definition run_op p (o : op) : option TimerEventPool :=
  match o with
  | Acquire cid event => Some (acquire p cid event).2
  | Release obj => Some (release p obj)
  | BatchAcquire requests => match batch_acquire p requests with Done (_, p) => Some p | Panic => None end
  | BatchRelease objs => Some (batch_release p objs)
  end.

Fixpoint run_ops p (ops : list op) : option TimerEventPool :=
  match ops with
  | [] => Some p
  | o :: ops => match run_op p o with Some p => run_ops p ops | None => None end
  end.

Definition op_ok (o : op) : Prop :=
  match o with BatchAcquire requests => Forall (fun r => u32_ok r.1) requests | _ => True end.

Lemma batch_acquire_pool p requests : Forall (fun r => u32_ok r.1) requests ->
  exists p', batch_acquire p requests = Done (map fresh requests, p') /\
    objects p' = drop (length requests) (objects p) /\ p'.(config) = p.(config).
Proof.
  intros Hids. pose proof (acquire_each_spec requests p) as (H1 & H2 & H3).
  assert (Heach : exists p', Done (acquire_each p requests) = Done (map fresh requests, p') /\
    objects p' = drop (length requests) (objects p) /\ p'.(config) = p.(config)).
  { exists (acquire_each p requests).2. split; [|done]. by rewrite <- H1, <- surjective_pairing. }
  unfold batch_acquire. destruct p.(config).(enable_batch_optimization), requests as [|r requests]; try exact Heach.
  pose proof (pop_up_to_spec (length (r :: requests)) p.(pool)) as [P1 P2].
  destruct (pop_up_to (length (r :: requests)) p.(pool)) as [result q]. cbn [fst snd] in P1, P2.
  rewrite simd_update_and_create_spec; [|done|rewrite P1, length_take; lia]. simpl outcome_bind.
  eexists. by split; [reflexivity|].
Qed.

Lemma run_op_bounded p o : op_ok o -> exists p', run_op p o = Some p' /\ p'.(config) = p.(config) /\
  len (objects p') <= Z.max p.(config).(max_size) (len (objects p)).
Proof.
  intros Ho. assert (Hdrop : forall n, len (drop n (objects p)) <= len (objects p)) by (intros n; unfold len; rewrite length_drop; lia).
  destruct o as [cid event|obj|requests|objs]; simpl.
  - pose proof (acquire_spec p cid event) as (_ & H2 & H3). eexists. split; [done|]. split; [done|]. rewrite H2. specialize (Hdrop 1%nat). lia.
  - eexists. split; [done|]. unfold release, objects. destruct (Z.ltb_spec (seg_len p.(pool)) p.(config).(max_size)) as [Hlt|]; [|split; [done|lia]].
    split; [done|]. simpl. rewrite content_push, len_app. rewrite content_len in Hlt. change (len [obj]) with 1. lia.
  - destruct (batch_acquire_pool p requests Ho) as (p' & -> & H2 & H3). eexists. split; [done|]. split; [done|].
    rewrite H2. specialize (Hdrop (length requests)). lia.
  - eexists. split; [done|]. split; [done|]. unfold objects, batch_release. simpl. rewrite content_push_all, len_app, content_len.
    unfold saturating_sub, len. rewrite length_take. lia.
Qed.

(** The pool never fails and never outgrows its limit.  No sequence of its
    operations panics, and at any time it holds at most the configured number
    of objects, or those it was filled with at the start. *)
Theorem pool_bounded cfg ops : Forall op_ok ops ->
  exists p, run_ops (new cfg) ops = Some p /\ (stats p).(stat_current_size) <= Z.max cfg.(max_size) (Z.of_nat cfg.(initial_size)).
Proof.
  intros Hops. assert (H0 : len (objects (new cfg)) = Z.of_nat cfg.(initial_size)).
  { unfold objects, new. simpl. rewrite content_dummies, content_new. unfold len. simpl. by rewrite length_replicate. }
  enough (Hrun : forall p, p.(config) = cfg -> len (objects p) <= Z.max cfg.(max_size) (Z.of_nat cfg.(initial_size)) ->
    exists p', run_ops p ops = Some p' /\ len (objects p') <= Z.max cfg.(max_size) (Z.of_nat cfg.(initial_size))).
  { destruct (Hrun (new cfg) eq_refl) as (p & Hp & Hlen); [lia|]. exists p. split; [done|]. unfold stats. simpl. by rewrite content_len. }
  clear H0. induction Hops as [|o ops Ho _ IH]; intros p Hp Hlen; simpl; [by eexists|].
  destruct (run_op_bounded p o Ho) as (p1 & -> & Hc & Hb). apply IH; [congruence|]. rewrite Hp in Hb. lia.
Qed.

(** C40: The pool is transparent.  A batch from the pool, with recycled objects
    and vector arithmetic, is exactly the events asked for, in order: no object
    keeps the connection or the event of its last use.  It gives the events and
    leaves the pool as taking them one by one does. *)
Theorem batch_acquire_sequential p requests :
  Forall (fun r => u32_ok r.1) requests ->
  exists p', batch_acquire p requests = Done (map fresh requests, p') /\
    (acquire_each p requests).1 = map fresh requests /\
    objects p' = objects (acquire_each p requests).2 /\ p'.(config) = p.(config).
Proof.
  intros Hids. pose proof (acquire_each_spec requests p) as (H1 & H2 & H3).
  destruct (batch_acquire_pool p requests Hids) as (p' & E' & Ho & Hc). exists p'. by rewrite H2.
Qed.

End pool.

(** ** [traits.rs]: the event factory

    [size_of] and [needs_drop] are those of the type of the events. *)

Section factory.
Context {E : Type} {Q : Type -> Type} `{HQ : SegQueue Q} `{HL : PoolLanes} (size_of : Z) (needs_drop : bool).
Implicit Types (p : @TimerEventPool E Q).

Definition is_copy_like : bool := (size_of <=? 64) && negb needs_drop.

Definition should_use_pool : bool := negb is_copy_like && ((64 <? size_of) || needs_drop).

Definition dispatch_create_single (connection_id : Z) (timeout_event : E) : @TimerEventData E :=
  if is_copy_like then create_event connection_id timeout_event else create_event connection_id timeout_event.

Definition create_batch_copy_optimized (requests : list (Z * E)) : list (@TimerEventData E) :=
  map (fun r => create_event r.1 r.2) requests.

Definition create_batch_clone_based (requests : list (Z * E)) : list (@TimerEventData E) :=
  map (fun r => create_event r.1 r.2) requests.

Definition dispatch_create_batch (requests : list (Z * E)) : list (@TimerEventData E) :=
  if is_copy_like then create_batch_copy_optimized requests else create_batch_clone_based requests.

Definition create_with_pool p (connection_id : Z) (timeout_event : E) : @TimerEventData E * TimerEventPool :=
  if should_use_pool then acquire p connection_id timeout_event
  else (dispatch_create_single connection_id timeout_event, p).

Definition batch_create_with_pool p (requests : list (Z * E)) : outcome (list (@TimerEventData E) * TimerEventPool) :=
  if should_use_pool then batch_acquire p requests else Done (dispatch_create_batch requests, p).

Definition return_to_pool p (event : @TimerEventData E) : TimerEventPool :=
  if should_use_pool then release p event else p.

Definition batch_return_to_pool p (events : list (@TimerEventData E)) : TimerEventPool :=
  if should_use_pool then batch_release p events else p.

(** Whatever the strategy, the events are those asked for. *)
Lemma factory_transparent p requests : Forall (fun r => u32_ok r.1) requests ->
  exists p', batch_create_with_pool p requests = Done (map fresh requests, p') /\ dispatch_create_batch requests = map fresh requests.
Proof.
  intros Hids. unfold batch_create_with_pool, dispatch_create_batch.
  destruct (batch_acquire_pool p requests Hids) as (p' & E' & _). exists (if should_use_pool then p' else p).
  destruct should_use_pool; [by rewrite E'; destruct is_copy_like|by destruct is_copy_like].
Qed.

End factory.

(** ** [memory_pool.rs] *)

Section processor.
Context {E : Type} (default : E) {Q : Type -> Type} `{HQ : SegQueue Q} `{HL : PoolLanes}.

Record OptimizedBatchProcessor := {
  event_pool : @TimerEventPool E Q;
  batch_threshold : nat;
  processed_count : Z;
  small_batch_count : Z;
  large_batch_count : Z;
}.

Implicit Types (bp : OptimizedBatchProcessor).

Definition processor_new (pool_size : Z) (batch_threshold : nat) : OptimizedBatchProcessor :=
  {| event_pool := new default {| max_size := pool_size; initial_size := Z.to_nat (pool_size / 4);
                                  enable_batch_optimization := true |};
     batch_threshold := batch_threshold; processed_count := 0; small_batch_count := 0; large_batch_count := 0 |}.

(** The counters are atomic [usize]: additions wrap around. *)
Definition create_events_optimized bp (requests : list (Z * E)) : outcome (list (@TimerEventData E) * OptimizedBatchProcessor) :=
  let batch_size := length requests in
  let processed := as_u64 (bp.(processed_count) + Z.of_nat batch_size) in
  if (bp.(batch_threshold) <=? batch_size)%nat then
    outcome_bind (batch_acquire bp.(event_pool) requests) (fun '(events, p) =>
    Done (events, {| event_pool := p; batch_threshold := bp.(batch_threshold); processed_count := processed;
                     small_batch_count := bp.(small_batch_count);
                     large_batch_count := as_u64 (bp.(large_batch_count) + 1) |}))
  else
    let '(events, p) := acquire_each bp.(event_pool) requests in
    Done (events, {| event_pool := p; batch_threshold := bp.(batch_threshold); processed_count := processed;
                     small_batch_count := as_u64 (bp.(small_batch_count) + 1);
                     large_batch_count := bp.(large_batch_count) |}).

Definition process_completed bp (events : list (@TimerEventData E)) : OptimizedBatchProcessor :=
  {| event_pool := batch_release bp.(event_pool) events; batch_threshold := bp.(batch_threshold);
     processed_count := bp.(processed_count); small_batch_count := bp.(small_batch_count);
     large_batch_count := bp.(large_batch_count) |}.

Lemma create_events_spec bp requests : Forall (fun r => u32_ok r.1) requests ->
  exists bp', create_events_optimized bp requests = Done (map fresh requests, bp').
Proof.
  intros Hids. unfold create_events_optimized. destruct (_ <=? _)%nat.
  - destruct (batch_acquire_pool bp.(event_pool) requests Hids) as (p' & -> & _). by eexists.
  - pose proof (acquire_each_spec requests bp.(event_pool)) as (H1 & _). destruct (acquire_each _ _) as [events p].
    simpl in H1. subst. by eexists.
Qed.

End processor.

(** ** Examples: lists as queues *)

#[global] Instance list_queue : SegQueue list.
Proof.
  refine {| seg_new A := []; seg_push A q x := q ++ [x];
            seg_pop A q := match q with [] => None | x :: q => Some (x, q) end;
            seg_len A q := len q; content A q := q |}; try done. by intros A [|].
Defined.

#[global] Instance plain_lanes : PoolLanes.
Proof. by refine {| u32x8 := fun a => a; u32x4 := fun a => a |}. Defined.

Lemma batch_acquire_sequential_witness :
  let p := new (Q := list) 0 {| max_size := 4; initial_size := 5; enable_batch_optimization := true |} in
  let requests := map (fun n => (n, 10 * n)) (seqZ 1 14) in
  exists p', batch_acquire p requests = Done (map fresh requests, p') /\
    (acquire_each p requests).1 = map fresh requests /\
    objects p' = objects (acquire_each p requests).2 /\ p'.(config) = p.(config).
Proof. intros p requests. apply (batch_acquire_sequential p requests). by_decide. Defined.

Lemma pool_bounded_witness :
  exists p, run_ops (Q := list) (new 0 {| max_size := 2; initial_size := 1; enable_batch_optimization := true |})
      [Release (create_event 1 1); BatchRelease [create_event 1 1; create_event 2 2]; BatchAcquire [(3, 3)]] = Some p /\
    (stats p).(stat_current_size) <= 2.
Proof.
  apply (pool_bounded 0 {| max_size := 2; initial_size := 1; enable_batch_optimization := true |}).
  apply Forall_cons. split; [exact I|]. apply Forall_cons. split; [exact I|]. apply Forall_cons. split; [|apply Forall_nil_2].
  change (Forall (fun r : Z * Z => u32_ok r.1) [(3, 3)]). by_decide.
Defined.

End EventPool.
