(* ===== verification/EventDispatch.v ===== *)
(** * Timer events: ring buffers and batch dispatchers

    Models [src/timer/event/lockfree_ring.rs] and [src/timer/event/zero_copy.rs],
    as used by one thread at a time.  The queue of a ring buffer is the
    [ArrayQueue] of the crossbeam crate, an interface with laws; the counters
    are atomic [usize] and wrap around. *)

From S2P Require Import Prelude Float WheelBatch TimerTask EventPool.

(** A FIFO of fixed capacity. *)
Class ArrayQueue (Q : Type -> Type) := {
  aq_new {A} : nat -> Q A;
  aq_push {A} : Q A -> A -> option (Q A);      (* [None]: full *)
  aq_pop {A} : Q A -> option (A * Q A);
  aq_len {A} : Q A -> nat;
  aq_content {A} : Q A -> list A;
  aq_capacity {A} : Q A -> nat;
  aq_content_new {A} n : (0 < n)%nat -> aq_content (aq_new (A := A) n) = [] /\ aq_capacity (aq_new (A := A) n) = n;
  aq_content_push {A} (q : Q A) x :
    match aq_push q x with
    | Some q' => (length (aq_content q) < aq_capacity q)%nat /\ aq_content q' = aq_content q ++ [x] /\ aq_capacity q' = aq_capacity q
    | None => (aq_capacity q <= length (aq_content q))%nat
    end;
  aq_content_pop {A} (q : Q A) :
    match aq_pop q with
    | Some (x, q') => aq_content q = x :: aq_content q' /\ aq_capacity q' = aq_capacity q
    | None => aq_content q = []
    end;
  aq_content_len {A} (q : Q A) : aq_len q = length (aq_content q);
}.

(** [size_of::<TimerEventData<E>>()], which the compiler chooses; the data hold
    a connection id and so some bytes. *)
Class EventSize (E : Type) := {
  event_size : Z;
  event_size_pos : 0 < event_size;
}.

Definition isize_MAX : Z := 2 ^ 63 - 1.

Module RingBuffer.
Import TimerEvent.

Section ring.
Context {E : Type} `{!EventSize E} {Q : Type -> Type} `{HQ : ArrayQueue Q}.

Abbreviation Data := (@TimerEventData E).

Record RingBuffer := {
  queue : Q Data;
  capacity : nat;
  write_count : Z;
  read_count : Z;
}.

Implicit Types (rb : RingBuffer) (event : Data) (events : list Data).

Definition new (capacity : nat) : RingBuffer :=
  let capacity := Nat.max capacity 1 in
  {| queue := aq_new capacity; capacity := capacity; write_count := 0; read_count := 0 |}.

Definition counted rb (q : Q Data) (written read : nat) : RingBuffer :=
  {| queue := q; capacity := rb.(capacity); write_count := as_u64 (rb.(write_count) + Z.of_nat written);
     read_count := as_u64 (rb.(read_count) + Z.of_nat read) |}.

(** [true] for [Ok]; a full buffer gives the event back. *)
Definition try_write rb event : RingBuffer * bool :=
  match aq_push rb.(queue) event with
  | Some q => (counted rb q 1 0, true)
  | None => (rb, false)
  end.

Definition try_read rb : RingBuffer * option Data :=
  match aq_pop rb.(queue) with
  | Some (event, q) => (counted rb q 0 1, Some event)
  | None => (rb, None)
  end.

Fixpoint push_while (q : Q Data) events : Q Data * nat :=
  match events with
  | [] => (q, 0%nat)
  | event :: events =>
    match aq_push q event with
    | Some q => let '(q, written) := push_while q events in (q, S written)
    | None => (q, 0%nat)
    end
  end.

Definition batch_write rb events : RingBuffer * nat :=
  match events with
  | [] => (rb, 0%nat)
  | _ => let '(q, written) := push_while rb.(queue) events in (counted rb q written 0, written)
  end.

Fixpoint pop_while (n : nat) (q : Q Data) : Q Data * list Data :=
  match n with
  | O => (q, [])
  | S n =>
    match aq_pop q with
    | Some (event, q) => let '(q, events) := pop_while n q in (q, event :: events)
    | None => (q, [])
    end
  end.

(** [Vec::with_capacity(n)] for event data does not panic with "capacity
    overflow". *)
Definition capacity_fits (n : nat) : bool := Z.of_nat n * event_size (E := E) <=? isize_MAX.

(** Room for [max_events] is reserved before any event is taken. *)
Definition batch_read rb (max_events : nat) : outcome (RingBuffer * list Data) :=
  if capacity_fits max_events then
    let '(q, events) := pop_while max_events rb.(queue) in Done (counted rb q 0 (length events), events)
  else Panic.

Definition utilization rb : spec_float :=
  Float.f64_div (Float.f64_of_Z (Z.of_nat (aq_len rb.(queue)))) (Float.f64_of_Z (Z.of_nat rb.(capacity))).

Definition is_empty rb : bool := (aq_len rb.(queue) =? 0)%nat.
Definition is_full rb : bool := (aq_len rb.(queue) =? aq_capacity rb.(queue))%nat.
Definition ring_len rb : nat := aq_len rb.(queue).

(** ** The buffer as a list *)

Definition contents rb : list Data := aq_content rb.(queue).

Definition ring_ok rb : Prop :=
  (0 < rb.(capacity))%nat /\ aq_capacity rb.(queue) = rb.(capacity) /\ (length (contents rb) <= rb.(capacity))%nat.

(** What fits of a batch. *)
Definition room rb events : list Data := take (rb.(capacity) - length (contents rb)) events.

Lemma ring_new_ok n : ring_ok (new n) /\ contents (new n) = [].
Proof.
  pose proof (aq_content_new (Q := Q) (A := Data) (Nat.max n 1)) as Hn. destruct Hn as [H1 H2]; [lia|].
  unfold ring_ok, contents, new. simpl. rewrite H1, H2. simpl. split_and!; (lia || done).
Qed.

Lemma push_while_spec events : forall q : Q Data, (length (aq_content q) <= aq_capacity q)%nat ->
  let '(q', written) := push_while q events in
  aq_content q' = aq_content q ++ take (aq_capacity q - length (aq_content q)) events /\
  aq_capacity q' = aq_capacity q /\ written = length (take (aq_capacity q - length (aq_content q)) events).
Proof.
  induction events as [|event events IH]; intros q Hq; simpl; [by rewrite take_nil, app_nil_r|].
  pose proof (aq_content_push q event) as Hp. destruct (aq_push q event) as [q1|].
  - destruct Hp as (Hlt & Hc & Hcap). specialize (IH q1). rewrite Hc, Hcap, length_app in IH. simpl in IH.
    specialize (IH ltac:(lia)). destruct (push_while q1 events) as [q2 written]. destruct IH as (I1 & I2 & I3).
    replace (aq_capacity q - length (aq_content q))%nat with (S (aq_capacity q - (length (aq_content q) + 1))) by lia.
    simpl. rewrite I1, I2, <- app_assoc. simpl. auto.
  - replace (aq_capacity q - length (aq_content q))%nat with 0%nat by lia. by rewrite app_nil_r.
Qed.

(** A batch is written as far as there is room, *)
Lemma batch_write_spec rb events : ring_ok rb ->
  let '(rb', written) := batch_write rb events in
  ring_ok rb' /\ rb'.(capacity) = rb.(capacity) /\ contents rb' = contents rb ++ room rb events /\ written = length (room rb events).
Proof.
  intros (Hpos & Hcap & Hlen). unfold batch_write, room. pose proof (push_while_spec events rb.(queue)) as Hp.
  rewrite Hcap in Hp. specialize (Hp Hlen). fold (contents rb) in Hp. destruct events as [|event events].
  { rewrite take_nil, app_nil_r. done. }
  destruct (push_while rb.(queue) (event :: events)) as [q written]. destruct Hp as (H1 & H2 & H3).
  unfold ring_ok, contents in *. simpl. rewrite H1, H2. split_and!; try done; rewrite length_app, length_take; lia.
Qed.

(** ... a single event unless the buffer is full, *)
Lemma try_write_spec rb event : ring_ok rb ->
  let '(rb', ok) := try_write rb event in
  ring_ok rb' /\ rb'.(capacity) = rb.(capacity) /\
  if ok then contents rb' = contents rb ++ [event] else rb' = rb /\ length (contents rb) = rb.(capacity).
Proof.
  intros (Hpos & Hcap & Hlen). unfold try_write. pose proof (aq_content_push rb.(queue) event) as Hp. rewrite Hcap in Hp.
  destruct (aq_push rb.(queue) event) as [q|]; unfold ring_ok, contents in *; simpl.
  - destruct Hp as (Hlt & -> & Hc). rewrite length_app, Hc. simpl. split_and!; (done || lia).
  - split_and!; try done. lia.
Qed.

Lemma pop_while_spec n : forall q : Q Data,
  let '(q', events) := pop_while n q in
  aq_content q = events ++ aq_content q' /\ aq_capacity q' = aq_capacity q /\ events = take n (aq_content q).
Proof.
  induction n as [|n IH]; intros q; simpl; [done|]. pose proof (aq_content_pop q) as Hp. destruct (aq_pop q) as [[event q1]|].
  - destruct Hp as [Hc Hcap]. specialize (IH q1). destruct (pop_while n q1) as [q2 events]. destruct IH as (I1 & I2 & I3).
    rewrite Hc, I2, Hcap. simpl. split_and!; [by rewrite I1|done|by rewrite I3].
  - by rewrite Hp.
Qed.

Lemma capacity_fits_le n m : (n <= m)%nat -> capacity_fits m = true -> capacity_fits n = true.
Proof.
  unfold capacity_fits. rewrite !Z.leb_le. pose proof (event_size_pos (E := E)) as Hpos. nia.
Qed.

(** ... and reading takes the oldest events, *)
Lemma batch_read_spec rb n : ring_ok rb -> capacity_fits n = true ->
  exists rb' events, batch_read rb n = Done (rb', events) /\
  ring_ok rb' /\ rb'.(capacity) = rb.(capacity) /\ contents rb = events ++ contents rb' /\ events = take n (contents rb).
Proof.
  intros (Hpos & Hcap & Hlen) Hn. unfold batch_read. rewrite Hn. pose proof (pop_while_spec n rb.(queue)) as Hp.
  destruct (pop_while n rb.(queue)) as [q events]. destruct Hp as (H1 & H2 & H3). do 2 eexists. split; [done|].
  unfold ring_ok, contents in *. simpl.
  rewrite H1, length_app in Hlen. split_and!; try done; [congruence|lia].
Qed.

(** ... unless more are asked for than a vector can have room for, whatever
    the buffer holds. *)
Lemma batch_read_overflow rb n : capacity_fits n = false <-> batch_read rb n = Panic.
Proof. unfold batch_read. destruct (capacity_fits n); [|done]. by destruct (pop_while n _). Qed.

End ring.
Arguments RingBuffer : clear implicits.
Arguments RingBuffer E Q.

(** A list with its capacity as a queue. *)
Definition BoundedList (A : Type) : Type := nat * list A.

#[global] Instance bounded_list : ArrayQueue BoundedList.
Proof.
  refine {| aq_new A n := (n, []);
            aq_push A q x := if (length q.2 <? q.1)%nat then Some (q.1, q.2 ++ [x]) else None;
            aq_pop A q := match q.2 with [] => None | x :: l => Some (x, (q.1, l)) end;
            aq_len A q := length q.2; aq_content A q := q.2; aq_capacity A q := q.1 |}; try done.
  - intros A [n l] x. simpl. destruct (Nat.ltb_spec (length l) n); [done|lia].
  - by intros A [n [|]].
Defined.

End RingBuffer.

Module EventSlot.
Import TimerEvent.

Section slot.
Context {E : Type} `{!EventSize E} {Q : Type -> Type} `{HQ : ArrayQueue Q}.

Abbreviation Data := (@TimerEventData E).

Record EventSlot := {
  ring_buffer : RingBuffer.RingBuffer E Q;
  written_count : Z;
  failed_writes : Z;
}.

Implicit Types (s : EventSlot).

Definition new (capacity : nat) : EventSlot :=
  {| ring_buffer := RingBuffer.new capacity; written_count := 0; failed_writes := 0 |}.

(** [write_event], and [try_write_event], which gives a refused event back. *)
Definition write_event s (event : Data) : EventSlot * bool :=
  let '(rb, ok) := RingBuffer.try_write s.(ring_buffer) event in
  if ok : bool then
    ({| ring_buffer := rb; written_count := as_u64 (s.(written_count) + 1); failed_writes := s.(failed_writes) |}, true)
  else ({| ring_buffer := rb; written_count := s.(written_count); failed_writes := as_u64 (s.(failed_writes) + 1) |}, false).

Definition batch_write_events s (events : list Data) : EventSlot * nat :=
  let '(rb, written) := RingBuffer.batch_write s.(ring_buffer) events in
  ({| ring_buffer := rb; written_count := as_u64 (s.(written_count) + Z.of_nat written);
      failed_writes := s.(failed_writes) |}, written).

Definition with_ring s (rb : RingBuffer.RingBuffer E Q) : EventSlot :=
  {| ring_buffer := rb; written_count := s.(written_count); failed_writes := s.(failed_writes) |}.

Definition try_read s : EventSlot * option Data :=
  let '(rb, event) := RingBuffer.try_read s.(ring_buffer) in (with_ring s rb, event).

Definition batch_read s (max_events : nat) : outcome (EventSlot * list Data) :=
  outcome_bind (RingBuffer.batch_read s.(ring_buffer) max_events) (fun '(rb, events) => Done (with_ring s rb, events)).

Definition get_stats s : Z * Z * spec_float :=
  (s.(written_count), s.(failed_writes), RingBuffer.utilization s.(ring_buffer)).

(** ** A slot as a list *)

Definition contents s : list Data := RingBuffer.contents s.(ring_buffer).
Definition slot_ok s : Prop := RingBuffer.ring_ok s.(ring_buffer).
Definition slot_full s : Prop := length (contents s) = s.(ring_buffer).(RingBuffer.capacity).

Lemma slot_new_ok n : slot_ok (new n) /\ contents (new n) = [].
Proof. apply RingBuffer.ring_new_ok. Qed.

Lemma write_event_spec s event : slot_ok s ->
  let '(s', ok) := write_event s event in
  slot_ok s' /\ contents s' = contents s ++ (if ok : bool then [event] else []) /\ (ok = false -> slot_full s') /\
  (slot_full s -> slot_full s').
Proof.
  intros Hok. unfold write_event. pose proof (RingBuffer.try_write_spec _ event Hok) as H.
  destruct (RingBuffer.try_write _ event) as [rb [|]]; unfold slot_ok, contents, slot_full in *; simpl; destruct H as (H1 & H2 & H3).
  - rewrite H2, H3. split_and!; try done. intros Hf. destruct H1 as (_ & _ & H1). rewrite H3, H2, length_app in H1. simpl in H1. exfalso. change (contents s) with (RingBuffer.contents s.(ring_buffer)) in Hf. lia.
  - destruct H3 as [-> H3]. by rewrite app_nil_r.
Qed.

Lemma batch_write_events_spec s events : slot_ok s ->
  let '(s', written) := batch_write_events s events in
  slot_ok s' /\ exists placed, placed `prefix_of` events /\ contents s' = contents s ++ placed /\ written = length placed.
Proof.
  intros Hok. unfold batch_write_events. pose proof (RingBuffer.batch_write_spec _ events Hok) as H.
  destruct (RingBuffer.batch_write _ events) as [rb written]. destruct H as (H1 & H2 & H3 & H4). split; [done|].
  eexists. split; [|split; [exact H3|exact H4]]. apply prefix_take.
Qed.

Lemma slot_read_spec s n : slot_ok s -> RingBuffer.capacity_fits (E := E) n = true ->
  exists s' events, batch_read s n = Done (s', events) /\
  slot_ok s' /\ contents s = events ++ contents s' /\ events = take n (contents s).
Proof.
  intros Hok Hn. unfold batch_read. destruct (RingBuffer.batch_read_spec _ n Hok Hn) as (rb & events & -> & H1 & H2 & H3 & H4).
  by exists (with_ring s rb), events.
Qed.

End slot.
Arguments EventSlot : clear implicits.
Arguments EventSlot E Q.

End EventSlot.

Module Dispatcher.
Import TimerEvent.

Section dispatcher.
Context {E : Type} `{!EventSize E} (default : E) {Q P : Type -> Type} `{HQ : ArrayQueue Q} `{HP : SegQueue P} `{HL : PoolLanes}.

Abbreviation Data := (@TimerEventData E).
Abbreviation Slot := (EventSlot.EventSlot E Q).

Record SmartZeroCopyDispatcher := {
  event_slots : list Slot;
  batch_processor : @EventPool.OptimizedBatchProcessor E P;
  dispatch_index : nat;
  batch_threshold : nat;
  total_dispatched : Z;
  total_rejected : Z;
}.

Implicit Types (d : SmartZeroCopyDispatcher) (slots : list Slot) (events : list Data).

Definition new (slot_capacity dispatcher_count : nat) (pool_size : Z) : SmartZeroCopyDispatcher :=
  {| event_slots := replicate dispatcher_count (EventSlot.new slot_capacity);
     batch_processor := EventPool.processor_new default pool_size 32; dispatch_index := 0;
     batch_threshold := 32; total_dispatched := 0; total_rejected := 0 |}.

Definition f64_MAX : spec_float := S754_finite false (2 ^ 53 - 1) 971.

(** The selection loop: [n] more slots to look at, from the [i]th on. *)
Fixpoint select_slot (n i start_index : nat) slots (min_utilization : spec_float) (best : nat) : outcome nat :=
  match n with
  | O => Done best
  | S n =>
    let idx := ((start_index + i) mod length slots)%nat in
    match slots !! idx with
    | None => Panic
    | Some slot =>
      let '(_, _, utilization) := EventSlot.get_stats slot in
      if SFltb utilization min_utilization then select_slot n (S i) start_index slots utilization idx
      else select_slot n (S i) start_index slots min_utilization best
    end
  end.

Definition write_slot slots (i : nat) events : outcome (list Slot * nat) :=
  match slots !! i with
  | None => Panic
  | Some slot => let '(slot, written) := EventSlot.batch_write_events slot events in Done (<[i := slot]> slots, written)
  end.

(** The loop over the events that the first batch did not take, and what
    follows it. *)
Fixpoint spread (events_per_dispatcher : nat) events slots (current : nat) (current_batch : list Data) (total : nat)
    : outcome (list Slot * nat) :=
  match events with
  | [] =>
    match current_batch with
    | [] => Done (slots, total)
    | _ => outcome_bind (write_slot slots current current_batch) (fun '(slots, n) => Done (slots, (total + n)%nat))
    end
  | event :: events =>
    let current_batch := current_batch ++ [event] in
    if (events_per_dispatcher <=? length current_batch)%nat then
      outcome_bind (write_slot slots current current_batch) (fun '(slots, n) =>
        spread events_per_dispatcher events slots ((current + 1) mod length slots)%nat [] (total + n))
    else spread events_per_dispatcher events slots current current_batch total
  end.

Definition dispatch_large_batch slots events (best_dispatcher : nat) : outcome (list Slot * nat) :=
  let dispatcher_count := length slots in
  let events_per_dispatcher := (length events / dispatcher_count)%nat in
  let best_batch_size := Nat.min (events_per_dispatcher * 2) (length events) in
  let best_batch := take best_batch_size events in
  outcome_bind (match best_batch with
                | [] => Done (slots, 0%nat)
                | _ => write_slot slots best_dispatcher best_batch
                end) (fun '(slots, total_dispatched) =>
  spread events_per_dispatcher (drop best_batch_size events) slots ((best_dispatcher + 1) mod dispatcher_count)%nat [] total_dispatched).

(** The loop that tries every slot for one event; [fuel] slots are left, and
    running out of it is not a result of the code ([place_spec]). *)
Fixpoint place (fuel : nat) slots (event : Data) (original current : nat) : outcome (list Slot * nat * bool) :=
  match fuel with
  | O => Panic
  | S fuel =>
    match slots !! current with
    | None => Panic
    | Some slot =>
      let '(slot, ok) := EventSlot.write_event slot event in
      let slots := <[current := slot]> slots in
      let current := ((current + 1) mod length slots)%nat in
      if ok : bool then Done (slots, current, true)
      else if (current =? original)%nat then Done (slots, current, false)
      else place fuel slots event original current
    end
  end.

Fixpoint dispatch_small_batch slots events (current : nat) (dispatched_count : nat) : outcome (list Slot * nat) :=
  match events with
  | [] => Done (slots, dispatched_count)
  | event :: events =>
    outcome_bind (place (length slots) slots event current current) (fun '(slots, current, placed) =>
    if placed : bool then dispatch_small_batch slots events current (S dispatched_count)
    else Done (slots, dispatched_count))
  end.

Definition batch_dispatch_events d events : outcome (SmartZeroCopyDispatcher * nat) :=
  match events with
  | [] => Done (d, 0%nat)
  | _ =>
    let events_len := length events in
    let slots := d.(event_slots) in
    let dispatcher_count := length slots in
    if (dispatcher_count =? 0)%nat then Panic else
    let start_index := d.(dispatch_index) in
    outcome_bind (select_slot (Nat.min 3 dispatcher_count) 0 start_index slots f64_MAX (start_index mod dispatcher_count)%nat)
      (fun best_dispatcher =>
    outcome_bind (if (d.(batch_threshold) <=? events_len)%nat then dispatch_large_batch slots events best_dispatcher
                  else dispatch_small_batch slots events best_dispatcher 0) (fun '(slots, dispatched) =>
    Done ({| event_slots := slots; batch_processor := d.(batch_processor);
             dispatch_index := ((best_dispatcher + 1) mod dispatcher_count)%nat; batch_threshold := d.(batch_threshold);
             total_dispatched := as_u64 (d.(total_dispatched) + Z.of_nat dispatched);
             total_rejected := as_u64 (d.(total_rejected) + Z.of_nat (events_len - dispatched)) |}, dispatched)))
  end.

Definition with_processor d (bp : @EventPool.OptimizedBatchProcessor E P) : SmartZeroCopyDispatcher :=
  {| event_slots := d.(event_slots); batch_processor := bp; dispatch_index := d.(dispatch_index);
     batch_threshold := d.(batch_threshold); total_dispatched := d.(total_dispatched); total_rejected := d.(total_rejected) |}.

Definition create_and_dispatch_events d (requests : list (Z * E)) : outcome (SmartZeroCopyDispatcher * nat) :=
  match requests with
  | [] => Done (d, 0%nat)
  | _ =>
    if (length requests <=? 64)%nat then
      batch_dispatch_events d (map (fun r => create_event r.1 r.2) requests)
    else
      outcome_bind (EventPool.create_events_optimized d.(batch_processor) requests) (fun '(events, bp) =>
      batch_dispatch_events (with_processor d bp) events)
  end.

Fixpoint consume_slots (max_events_per_slot : nat) slots : outcome (list Slot * list Data) :=
  match slots with
  | [] => Done ([], [])
  | slot :: slots =>
    outcome_bind (EventSlot.batch_read slot max_events_per_slot) (fun '(slot, events) =>
    outcome_bind (consume_slots max_events_per_slot slots) (fun '(slots, all_events) =>
    Done (slot :: slots, events ++ all_events)))
  end.

Definition batch_consume_events d (max_events_per_slot : nat) : outcome (SmartZeroCopyDispatcher * list Data) :=
  outcome_bind (consume_slots max_events_per_slot d.(event_slots)) (fun '(slots, events) =>
  Done ({| event_slots := slots; batch_processor := d.(batch_processor); dispatch_index := d.(dispatch_index);
           batch_threshold := d.(batch_threshold); total_dispatched := d.(total_dispatched);
           total_rejected := d.(total_rejected) |}, events)).

Definition batch_return_to_pool d events : SmartZeroCopyDispatcher :=
  with_processor d (EventPool.process_completed d.(batch_processor) events).

(** ** The events in the slots *)

Definition held slots : list Data := concat (map EventSlot.contents slots).

Definition slots_ok slots : Prop := Forall EventSlot.slot_ok slots.

(** [slots'] are [slots] with [n] of the [events] added. *)
Definition adds slots slots' (n : nat) events : Prop :=
  slots_ok slots' /\ length slots' = length slots /\
  exists placed, placed `sublist_of` events /\ n = length placed /\ held slots' ≡ₚ held slots ++ placed.

Lemma held_insert slots i slot slot' placed : slots !! i = Some slot ->
  EventSlot.contents slot' = EventSlot.contents slot ++ placed ->
  held (<[i := slot']> slots) ≡ₚ held slots ++ placed.
Proof.
  intros Hi Hc. unfold held. rewrite <- (take_drop_middle slots i slot Hi) at 2.
  rewrite insert_take_drop by (by eapply lookup_lt_Some). rewrite !map_app, !concat_app. simpl. rewrite Hc.
  rewrite <- !app_assoc. apply Permutation_app_head, Permutation_app_head. apply Permutation_app_comm.
Qed.

Lemma adds_insert slots i slot slot' placed events : slots_ok slots -> slots !! i = Some slot ->
  EventSlot.slot_ok slot' -> EventSlot.contents slot' = EventSlot.contents slot ++ placed -> placed `sublist_of` events ->
  adds slots (<[i := slot']> slots) (length placed) events.
Proof.
  intros Hs Hi Hok Hc Hp. split; [by apply Forall_insert|]. split; [apply length_insert|].
  exists placed. split_and!; [done..|by apply (held_insert _ _ slot)].
Qed.

Lemma adds_nil slots events : slots_ok slots -> adds slots slots 0 events.
Proof. intros Hs. split_and!; [done..|]. exists []. rewrite app_nil_r. split_and!; [apply sublist_nil_l|done..]. Qed.

Lemma adds_trans s1 s2 s3 n m e1 e2 : adds s1 s2 n e1 -> adds s2 s3 m e2 -> adds s1 s3 (n + m) (e1 ++ e2).
Proof.
  intros (A1 & A2 & p & P1 & -> & P3) (B1 & B2 & q & Q1 & -> & Q3). split; [done|]. split; [congruence|].
  exists (p ++ q). split; [by apply sublist_app|]. split; [by rewrite length_app|].
  rewrite Q3, P3, <- app_assoc. done.
Qed.

Lemma adds_bound s1 s2 n e : adds s1 s2 n e -> (n <= length e)%nat.
Proof. intros (_ & _ & p & P1 & -> & _). by apply sublist_length. Qed.

Lemma write_slot_spec slots i events : slots_ok slots -> (i < length slots)%nat ->
  exists slots' n, write_slot slots i events = Done (slots', n) /\ adds slots slots' n events.
Proof.
  intros Hs Hi. apply lookup_lt_is_Some in Hi as [slot Hi]. unfold write_slot. rewrite Hi.
  pose proof (EventSlot.batch_write_events_spec slot events (Forall_lookup_1 _ _ _ _ Hs Hi)) as H.
  destruct (EventSlot.batch_write_events slot events) as [slot' n]. destruct H as (Hok & placed & Hp & Hc & ->).
  do 2 eexists. split; [done|]. apply (adds_insert _ _ slot); try done. destruct Hp as [k ->]. by apply sublist_inserts_r.
Qed.

Lemma spread_spec per events : forall slots current batch total, slots_ok slots -> (current < length slots)%nat ->
  exists slots' n, spread per events slots current batch total = Done (slots', (total + n)%nat) /\
    adds slots slots' n (batch ++ events).
Proof.
  induction events as [|event events IH]; intros slots current batch total Hs Hc; simpl.
  - destruct batch as [|x batch]; [exists slots, 0%nat; rewrite Nat.add_0_r; split; [done|by apply adds_nil]|].
    destruct (write_slot_spec slots current (x :: batch) Hs Hc) as (slots' & n & -> & Ha). exists slots', n.
    rewrite app_nil_r. done.
  - replace (batch ++ event :: events) with ((batch ++ [event]) ++ events) by (by rewrite <- app_assoc).
    destruct (_ <=? _)%nat; [|by apply IH].
    destruct (write_slot_spec slots current (batch ++ [event]) Hs Hc) as (s1 & n & -> & Ha). simpl.
    pose proof Ha as (Hs1 & Hl & _). destruct (IH s1 ((current + 1) mod length s1)%nat [] (total + n)%nat Hs1) as (s2 & m & E2 & Hb).
    { apply Nat.mod_upper_bound. lia. }
    exists s2, (n + m)%nat. rewrite E2, Nat.add_assoc. split; [done|]. by apply adds_trans with s1.
Qed.

Lemma large_batch_spec slots events best : slots_ok slots -> (best < length slots)%nat ->
  exists slots' n, dispatch_large_batch slots events best = Done (slots', n) /\ adds slots slots' n events.
Proof.
  intros Hs Hb. unfold dispatch_large_batch. set (k := Nat.min _ _).
  assert (H1 : exists s1 n, match take k events with [] => Done (slots, 0%nat) | _ => write_slot slots best (take k events) end
    = Done (s1, n) /\ adds slots s1 n (take k events)).
  { destruct (take k events); [exists slots, 0%nat; split; [done|by apply adds_nil]|by apply write_slot_spec]. }
  destruct H1 as (s1 & n & -> & Ha). simpl. pose proof Ha as (Hs1 & Hl & _).
  destruct (spread_spec (length events / length slots) (drop k events) s1 ((best + 1) mod length slots)%nat [] n Hs1) as (s2 & m & E2 & Hb2).
  { rewrite Hl. apply Nat.mod_upper_bound. lia. }
  exists s2, (n + m)%nat. split; [done|]. rewrite <- (take_drop k events). by apply adds_trans with s1.
Qed.

(** Trying every slot in turn. *)
Definition at_slot slots (original k : nat) : nat := ((original + k) mod length slots)%nat.

Lemma at_slot_next n original k : (0 < n)%nat -> (((original + k) mod n + 1) mod n = (original + S k) mod n)%nat.
Proof. intros Hn. rewrite Nat.Div0.add_mod_idemp_l. f_equal. lia. Qed.

Lemma at_slot_original n original k : (original < n)%nat -> (k < n)%nat ->
  ((original + S k) mod n = original)%nat -> S k = n.
Proof.
  intros Ho Hk Hm. destruct (Nat.lt_ge_cases (original + S k) n) as [Hlt|Hge]; [rewrite Nat.mod_small in Hm by done; lia|].
  replace (original + S k)%nat with ((original + S k - n) + 1 * n)%nat in Hm by lia.
  rewrite Nat.Div0.mod_add, Nat.mod_small in Hm; lia.
Qed.

Lemma at_slot_all slots original i : (original < length slots)%nat -> (i < length slots)%nat ->
  exists j, (j < length slots)%nat /\ at_slot slots original j = i.
Proof.
  intros Ho Hi. unfold at_slot. destruct (Nat.le_gt_cases original i).
  - exists (i - original)%nat. split; [lia|]. rewrite Nat.mod_small; lia.
  - exists (i + length slots - original)%nat. split; [lia|].
    replace (original + (i + length slots - original))%nat with (i + 1 * length slots)%nat by lia.
    rewrite Nat.Div0.mod_add, Nat.mod_small; lia.
Qed.

Definition all_full slots : Prop := Forall EventSlot.slot_full slots.

(** The first [k] slots that were tried are full. *)
Definition tried slots (original k : nat) : Prop :=
  forall j slot, (j < k)%nat -> slots !! at_slot slots original j = Some slot -> EventSlot.slot_full slot.

Lemma tried_all slots original : (original < length slots)%nat -> tried slots original (length slots) -> all_full slots.
Proof.
  intros Ho Ht. apply Forall_lookup. intros i slot Hi.
  destruct (at_slot_all slots original i Ho (lookup_lt_Some _ _ _ Hi)) as (j & Hj & <-). by apply (Ht j).
Qed.

Lemma tried_next slots original k slot slot' : tried slots original k ->
  slots !! at_slot slots original k = Some slot -> EventSlot.slot_full slot' ->
  tried (<[at_slot slots original k := slot']> slots) original (S k).
Proof.
  intros Ht Hk Hf j s Hj. unfold tried, at_slot in *. rewrite length_insert.
  destruct (decide ((original + j) mod length slots = (original + k) mod length slots)%nat) as [->|Hne].
  - rewrite list_lookup_insert_eq by (by eapply lookup_lt_Some). by intros [= <-].
  - rewrite list_lookup_insert_ne by done. apply Ht. destruct (decide (j = k)) as [->|]; [done|lia].
Qed.

(** With as many turns as there are slots, the loop ends: the event is placed,
    or every slot is full. *)
Lemma place_spec event original : forall fuel slots k, slots_ok slots -> (original < length slots)%nat ->
  (k + fuel = length slots)%nat -> (0 < fuel)%nat -> tried slots original k ->
  exists slots' current' placed, place fuel slots event original (at_slot slots original k) = Done (slots', current', placed) /\
    adds slots slots' (if placed : bool then 1 else 0) [event] /\ (current' < length slots')%nat /\
    (placed = false -> all_full slots').
Proof.
  induction fuel as [|fuel IH]; intros slots k Hs Ho Hk Hf Ht; [lia|]. simpl.
  assert (Hn : (at_slot slots original k < length slots)%nat) by (apply Nat.mod_upper_bound; lia).
  apply lookup_lt_is_Some in Hn as [slot Hi]. rewrite Hi.
  pose proof (EventSlot.write_event_spec slot event (Forall_lookup_1 _ _ _ _ Hs Hi)) as Hw.
  destruct (EventSlot.write_event slot event) as [slot' ok]. destruct Hw as (Hok & Hc & Hfull & _).
  assert (Hadd : adds slots (<[at_slot slots original k := slot']> slots) (if ok then 1 else 0) [event]).
  { destruct ok; [apply (adds_insert _ _ slot slot' [event])|apply (adds_insert _ _ slot slot' [])];
      try done; apply sublist_nil_l. }
  rewrite length_insert. replace ((at_slot slots original k + 1) mod length slots)%nat with ((original + S k) mod length slots)%nat
    by (unfold at_slot; rewrite at_slot_next; lia). destruct ok.
  - do 3 eexists. split; [done|]. split; [done|]. rewrite length_insert. split; [apply Nat.mod_upper_bound; lia|done].
  - specialize (Hfull eq_refl). pose proof (tried_next _ _ _ _ slot' Ht Hi Hfull) as Ht'.
    destruct (Nat.eqb_spec ((original + S k) mod length slots) original) as [Heq|Hne].
    + do 3 eexists. split; [done|]. split; [done|]. rewrite length_insert. split; [apply Nat.mod_upper_bound; lia|]. intros _.
      apply (tried_all _ original); [by rewrite length_insert|]. rewrite length_insert.
      rewrite <- (at_slot_original (length slots) original k); [done|done|lia|done].
    + set (s1 := <[at_slot slots original k := slot']> slots) in *.
      assert (Hl : length s1 = length slots) by apply length_insert.
      destruct fuel as [|fuel].
      { exfalso. apply Hne. replace (S k) with (length slots) by lia.
        rewrite <- (Nat.mul_1_l (length slots)) at 1. rewrite Nat.Div0.mod_add. by apply Nat.mod_small. }
      destruct (IH s1 (S k)) as (s2 & c & placed & E2 & Ha & Hc2 & Hp); [apply Hadd|lia|lia|lia|done|].
      unfold at_slot in E2 at 1. rewrite Hl in E2. exists s2, c, placed. split; [exact E2|]. split; [|by split].
      apply (adds_trans slots s1 s2 0 _ [] [event]); [|exact Ha]. destruct Hadd as (A1 & A2 & p & A3 & A4 & A5).
      split_and!; [done..|]. exists p. split_and!; [|done..]. destruct p; [done|discriminate].
Qed.

Lemma small_batch_spec events : forall slots current count, slots_ok slots -> (current < length slots)%nat ->
  exists slots' n, dispatch_small_batch slots events current count = Done (slots', (count + n)%nat) /\
    adds slots slots' n events /\ ((n < length events)%nat -> all_full slots').
Proof.
  induction events as [|event events IH]; intros slots current count Hs Hc; simpl.
  - exists slots, 0%nat. rewrite Nat.add_0_r. split; [done|]. split; [by apply adds_nil|lia].
  - destruct (place_spec event current (length slots) slots 0 Hs Hc) as (s1 & c1 & placed & E1 & Ha & Hc1 & Hp);
      [lia|lia|intros j ? ?; lia|].
    unfold at_slot in E1. rewrite Nat.add_0_r, Nat.mod_small in E1 by done. rewrite E1. simpl. destruct placed.
    + destruct (IH s1 c1 (S count) (proj1 Ha) Hc1) as (s2 & n & E2 & Hb & Hfull).
      exists s2, (1 + n)%nat. rewrite E2, Nat.add_succ_r. split; [done|]. split; [exact (adds_trans slots s1 s2 1 n [event] events Ha Hb)|].
      intros Hn. apply Hfull. simpl in Hn. lia.
    + exists s1, 0%nat. rewrite Nat.add_0_r. split; [done|]. split; [|auto].
      destruct Ha as (A1 & A2 & p & A3 & A4 & A5). split_and!; [done..|]. exists p. split_and!; [|done..].
      destruct p; [apply sublist_nil_l|discriminate].
Qed.

Lemma select_slot_spec n : forall i start slots m best, (best < length slots)%nat ->
  exists b, select_slot n i start slots m best = Done b /\ (b < length slots)%nat.
Proof.
  induction n as [|n IH]; intros i start slots m best Hb; simpl; [by eexists|].
  assert (Hn : ((start + i) mod length slots < length slots)%nat) by (apply Nat.mod_upper_bound; lia).
  pose proof Hn as Hl. apply lookup_lt_is_Some in Hl as [slot ->].
  simpl. destruct (SFltb _ m); by apply IH.
Qed.

Definition dispatcher_ok d : Prop := slots_ok d.(event_slots) /\ d.(event_slots) <> [].

Lemma dispatch_spec d events : dispatcher_ok d ->
  exists d' n, batch_dispatch_events d events = Done (d', n) /\ dispatcher_ok d' /\
    adds d.(event_slots) d'.(event_slots) n events /\ d'.(batch_processor) = d.(batch_processor) /\
    (events <> [] -> d'.(total_dispatched) = as_u64 (d.(total_dispatched) + Z.of_nat n) /\
      d'.(total_rejected) = as_u64 (d.(total_rejected) + Z.of_nat (length events - n))) /\
    ((length events < d.(batch_threshold))%nat -> (n < length events)%nat -> all_full d'.(event_slots)).
Proof.
  intros [Hs Hne]. unfold batch_dispatch_events. destruct events as [|e events].
  { exists d, 0%nat. split_and!; try done; [by apply adds_nil|simpl; lia]. }
  cbv zeta. set (es := e :: events). set (slots := d.(event_slots)) in *. assert (Hlen : (0 < length slots)%nat) by (destruct slots; [done|simpl; lia]).
  replace (length slots =? 0)%nat with false by (symmetry; apply Nat.eqb_neq; lia).
  destruct (select_slot_spec (Nat.min 3 (length slots)) 0 d.(dispatch_index) slots f64_MAX (d.(dispatch_index) mod length slots)%nat)
    as (best & -> & Hb); [apply Nat.mod_upper_bound; lia|]. cbn [outcome_bind].
  assert (H : exists s1 n, (if (d.(batch_threshold) <=? length es)%nat then dispatch_large_batch slots es best
      else dispatch_small_batch slots es best 0) = Done (s1, n) /\ adds slots s1 n es /\
      ((length es < d.(batch_threshold))%nat -> (n < length es)%nat -> all_full s1)).
  { destruct (Nat.leb_spec d.(batch_threshold) (length es)).
    - destruct (large_batch_spec slots es best Hs Hb) as (s1 & n & E1 & Ha). exists s1, n. split_and!; [done..|lia].
    - destruct (small_batch_spec es slots best 0 Hs Hb) as (s1 & n & E1 & Ha & Hf). exists s1, n. auto. }
  destruct H as (s1 & n & -> & Ha & Hf). cbn [outcome_bind]. do 2 eexists. split; [done|]. simpl.
  pose proof Ha as (Hs1 & Hl & _). split; [split; [done|]|].
  - simpl. intros ->. simpl in Hl. lia.
  - split; [exact Ha|]. split; [done|]. split; [intros _; split; reflexivity|exact Hf].
Qed.

Lemma consume_slots_spec n slots : slots_ok slots -> RingBuffer.capacity_fits (E := E) n = true ->
  exists slots' events, consume_slots n slots = Done (slots', events) /\
  slots_ok slots' /\ length slots' = length slots /\ held slots ≡ₚ events ++ held slots' /\
  (Forall (fun s => (length (EventSlot.contents s) <= n)%nat) slots -> events = held slots /\ held slots' = []).
Proof.
  intros Hs Hn. induction Hs as [|s slots Hs _ IH]; simpl.
  { exists [], []. split_and!; try done. constructor. }
  destruct (EventSlot.slot_read_spec s n Hs Hn) as (s' & es & -> & R1 & R2 & R3).
  destruct IH as (slots' & all & -> & I1 & I2 & I3 & I4). cbn [outcome_bind]. do 2 eexists. split; [done|].
  split; [by constructor|]. split; [simpl; congruence|]. unfold held in *. simpl. split.
  - rewrite R2, I3, <- !app_assoc. apply Permutation_app_head.
    rewrite !app_assoc. apply Permutation_app_tail. apply Permutation_app_comm.
  - inversion 1 as [|? ? Hl Hls]; subst. destruct (I4 Hls) as [-> ->]. rewrite app_nil_r, take_ge by done.
    split; [done|]. rewrite take_ge in R2 by done. apply (f_equal length) in R2. rewrite length_app in R2.
    destruct (EventSlot.contents s'); [done|simpl in R2; lia].
Qed.

Lemma batch_consume_spec d n : dispatcher_ok d -> RingBuffer.capacity_fits (E := E) n = true ->
  exists d' events, batch_consume_events d n = Done (d', events) /\ dispatcher_ok d' /\
    held d.(event_slots) ≡ₚ events ++ held d'.(event_slots).
Proof.
  intros [Hs Hne] Hn. unfold batch_consume_events.
  destruct (consume_slots_spec n _ Hs Hn) as (slots & events & -> & C1 & C2 & C3 & _). cbn [outcome_bind].
  do 2 eexists. split; [done|]. split; [|done]. split; [done|]. simpl.
  intros E0. rewrite E0 in C2. by destruct d.(event_slots).
Qed.

(** A request for more events than a vector can have room for panics at the
    first slot, however few events the slots hold. *)
Lemma consume_too_many d n : d.(event_slots) <> [] -> isize_MAX < Z.of_nat n * event_size (E := E) ->
  batch_consume_events d n = Panic.
Proof.
  intros Hne Hn%Z.leb_gt. unfold batch_consume_events. destruct d.(event_slots) as [|s slots]; [done|].
  simpl. unfold EventSlot.batch_read.
  by rewrite (proj1 (RingBuffer.batch_read_overflow (EventSlot.ring_buffer s) n) Hn).
Qed.

(** What every dispatch of requests does. *)
Lemma create_and_dispatch_spec d requests : dispatcher_ok d -> Forall (fun r => u32_ok r.1) requests ->
  exists d' n, create_and_dispatch_events d requests = Done (d', n) /\ dispatcher_ok d' /\
    adds d.(event_slots) d'.(event_slots) n (map EventPool.fresh requests).
Proof.
  intros Hd Hids. unfold create_and_dispatch_events. destruct requests as [|r requests].
  { exists d, 0%nat. split; [done|]. split; [done|]. apply adds_nil, Hd. }
  destruct (_ <=? _)%nat.
  - destruct (dispatch_spec d (map EventPool.fresh (r :: requests)) Hd) as (d' & n & E' & Hok & Ha & _). by exists d', n.
  - destruct (EventPool.create_events_spec d.(batch_processor) (r :: requests) Hids) as (bp & ->). cbn [outcome_bind].
    destruct (dispatch_spec (with_processor d bp) (map EventPool.fresh (r :: requests)) Hd) as (d' & n & E' & Hok & Ha & _).
    by exists d', n.
Qed.

(** ** Histories *)

Inductive op :=
| Dispatch (requests : list (Z * E))
| Consume (max_events_per_slot : nat)
| Return (events : list Data).

(** The dispatcher after some operations, with the number of events it
    reported as dispatched and the events it handed out; [None] for a panic. *)
Fixpoint run d (ops : list op) : option (SmartZeroCopyDispatcher * nat * list Data) :=
  match ops with
  | [] => Some (d, 0%nat, [])
  | Dispatch requests :: ops =>
    match create_and_dispatch_events d requests with
    | Done (d, n) => '(d, m, events) ← run d ops; Some (d, (n + m)%nat, events)
    | Panic => None
    end
  | Consume k :: ops =>
    match batch_consume_events d k with
    | Done (d, events) => '(d, m, events') ← run d ops; Some (d, m, events ++ events')
    | Panic => None
    end
  | Return events :: ops => run (batch_return_to_pool d events) ops
  end.

(** The connection ids are 32-bit numbers, and a vector can have room for the
    events asked for. *)
Definition op_ok (o : op) : Prop :=
  match o with
  | Dispatch requests => Forall (fun r => u32_ok r.1) requests
  | Consume k => RingBuffer.capacity_fits (E := E) k = true
  | Return _ => True
  end.

Definition requested (ops : list op) : list Data :=
  concat (map (fun o => match o with Dispatch requests => map EventPool.fresh requests | _ => [] end) ops).

Lemma history_conserves ops : forall d, Forall op_ok ops -> dispatcher_ok d ->
  exists d' n consumed accepted, run d ops = Some (d', n, consumed) /\ dispatcher_ok d' /\
    accepted `sublist_of` requested ops /\ n = length accepted /\
    held d.(event_slots) ++ accepted ≡ₚ consumed ++ held d'.(event_slots).
Proof.
  induction ops as [|o ops IH]; intros d Hops Hd; simpl.
  { exists d, 0%nat, [], []. rewrite app_nil_r. done. }
  inversion Hops as [|? ? Ho Hops']; subst. unfold requested. simpl. destruct o as [requests|k|events].
  - destruct (create_and_dispatch_spec d requests Hd Ho) as (d1 & n1 & -> & Hd1 & _ & _ & p & P1 & -> & P3).
    destruct (IH d1 Hops' Hd1) as (d2 & n2 & consumed & accepted & -> & Hd2 & Hsub & -> & Hp).
    exists d2, (length p + length accepted)%nat, consumed, (p ++ accepted). split_and!; [done..| | |].
    + by apply sublist_app.
    + by rewrite length_app.
    + by rewrite <- Hp, P3, <- app_assoc.
  - destruct (batch_consume_spec d k Hd Ho) as (d1 & events & -> & Hd1 & C3).
    destruct (IH d1 Hops' Hd1) as (d2 & n & consumed & accepted & -> & Hd2 & Hsub & -> & Hp).
    exists d2, (length accepted), (events ++ consumed), accepted. split_and!; [done..|].
    by rewrite C3, <- !app_assoc, Hp.
  - exact (IH (batch_return_to_pool d events) Hops' Hd).
Qed.

Lemma new_slots slot_capacity dispatcher_count pool_size : (0 < dispatcher_count)%nat ->
  dispatcher_ok (new slot_capacity dispatcher_count pool_size) /\
  held (new slot_capacity dispatcher_count pool_size).(event_slots) = [].
Proof.
  intros Hn. destruct (EventSlot.slot_new_ok (E := E) (Q := Q) slot_capacity) as [Hok Hc]. unfold dispatcher_ok, slots_ok, held. simpl. split; [split|].
  - by apply Forall_replicate.
  - by destruct dispatcher_count; [lia|].
  - clear Hn. induction dispatcher_count as [|n IH]; simpl; [done|]. by rewrite Hc, IH.
Qed.

(** C39: No event is lost or duplicated by the dispatcher.  For a dispatcher
    created with at least one slot, and operations that ask for no more events
    at once than a vector can have room for ([capacity_fits]): whatever
    batches are dispatched and consumed, and whatever objects go back to its
    pool, no operation panics; the number it reports is that of the events it
    accepted, which are events it was asked for, in their order, with their
    connection and payload; and each accepted event is handed out exactly once
    or still in a slot.  Without slots a dispatch divides by zero
    ([dispatch_without_slots]), and a larger request panics
    ([consume_too_many]). *)
Theorem dispatcher_conserves slot_capacity dispatcher_count pool_size ops :
  (0 < dispatcher_count)%nat -> Forall op_ok ops ->
  exists d n consumed accepted, run (new slot_capacity dispatcher_count pool_size) ops = Some (d, n, consumed) /\
    accepted `sublist_of` requested ops /\ n = length accepted /\ consumed ++ held d.(event_slots) ≡ₚ accepted.
Proof.
  intros Hn Hops. destruct (new_slots slot_capacity dispatcher_count pool_size Hn) as [Hd H0].
  destruct (history_conserves ops _ Hops Hd) as (d & n & consumed & accepted & Hrun & _ & Hsub & Hlen & Hp).
  rewrite H0 in Hp. exists d, n, consumed, accepted. by rewrite <- Hp.
Qed.

(** A small batch is refused only by a full dispatcher.  Below the batch
    threshold the loop over the slots ends for each event, its result is
    counted, and when fewer events are dispatched than were given every slot
    is at its capacity. *)
Theorem small_batch_fills d events : dispatcher_ok d -> (length events < d.(batch_threshold))%nat -> events <> [] ->
  exists d' n, batch_dispatch_events d events = Done (d', n) /\ (n <= length events)%nat /\
    d'.(total_dispatched) = as_u64 (d.(total_dispatched) + Z.of_nat n) /\
    d'.(total_rejected) = as_u64 (d.(total_rejected) + Z.of_nat (length events - n)) /\
    ((n < length events)%nat -> Forall EventSlot.slot_full d'.(event_slots)).
Proof.
  intros Hd Hlen Hne. destruct (dispatch_spec d events Hd) as (d' & n & E' & _ & Ha & _ & Hc & Hf).
  destruct (Hc Hne) as [C1 C2]. exists d', n. split_and!; [done|by eapply adds_bound|done..|exact (Hf Hlen)].
Qed.

End dispatcher.

(** ** Examples *)

(** A [u64] payload beside the connection id. *)
#[local] Instance example_size : EventSize Z := {| event_size := 16; event_size_pos := eq_refl |}.

Lemma dispatcher_conserves_witness :
  exists d n consumed accepted,
    run (Q := RingBuffer.BoundedList) (P := list) (new 0 4 2 8) [Dispatch [(1, 10); (2, 20)]; Consume 4; Dispatch [(3, 30)]]
      = Some (d, n, consumed) /\
    accepted `sublist_of` requested [Dispatch [(1, 10); (2, 20)]; Consume 4; Dispatch [(3, 30)]] /\
    n = length accepted /\ consumed ++ held d.(event_slots) ≡ₚ accepted.
Proof.
  apply (dispatcher_conserves (Q := RingBuffer.BoundedList) (P := list) 0 4 2 8); [lia|].
  apply Forall_cons. split; [change (Forall (fun r : Z * Z => u32_ok r.1) [(1, 10); (2, 20)]); by_decide|].
  apply Forall_cons. split; [vm_compute; reflexivity|]. apply Forall_cons. split; [|apply Forall_nil_2].
  change (Forall (fun r : Z * Z => u32_ok r.1) [(3, 30)]). by_decide.
Defined.

(** Two slots of one event each take two of three. *)
Definition two_slots : SmartZeroCopyDispatcher (E := Z) (Q := RingBuffer.BoundedList) (P := list) := new 0 1 2 8.

Lemma small_batch_fills_witness :
  let events := [create_event 1 1; create_event 2 2; create_event 3 3] in
  exists d' n, batch_dispatch_events two_slots events = Done (d', n) /\ (n <= length events)%nat /\
    d'.(total_dispatched) = as_u64 (0 + Z.of_nat n) /\
    d'.(total_rejected) = as_u64 (0 + Z.of_nat (length events - n)) /\
    ((n < length events)%nat -> Forall EventSlot.slot_full d'.(event_slots)).
Proof.
  intros events. apply (small_batch_fills two_slots events); [|simpl; lia|done].
  exact (proj1 (new_slots (Q := RingBuffer.BoundedList) (P := list) 0 1 2 8 ltac:(lia))).
Defined.

(** A large batch is refused in part although there is room: with two slots of
    32, all 40 events go to the first one. *)
Lemma large_batch_rejects_with_room :
  let events := replicate 40 (create_event 1 1) in
  match batch_dispatch_events (new (Q := RingBuffer.BoundedList) (P := list) 0 32 2 8) events with
  | Done (d, n) => (n =? 32)%nat && forallb (fun s => (length (EventSlot.contents s) =? 0)%nat) (drop 1 d.(event_slots))
  | Panic => false
  end = true.
Proof. vm_compute. reflexivity. Qed.

(** Without slots, a dispatch divides by zero. *)
Lemma dispatch_without_slots : batch_dispatch_events (new (Q := RingBuffer.BoundedList) (P := list) 0 32 0 8) [create_event 1 1] = Panic.
Proof. vm_compute. reflexivity. Qed.

End Dispatcher.

(** ** [lockfree_ring.rs]: a dispatcher that writes a batch to one buffer *)

Module RingDispatcher.

Section dispatcher.
Context {E : Type} `{!EventSize E} {Q : Type -> Type} `{HQ : ArrayQueue Q}.

Abbreviation Data := (@TimerEvent.TimerEventData E).
Abbreviation Ring := (RingBuffer.RingBuffer E Q).

Record OptimizedZeroCopyDispatcher := {
  ring_buffers : list Ring;
  dispatch_index : nat;
  total_dispatched : Z;
  total_rejected : Z;
}.

Implicit Types (d : OptimizedZeroCopyDispatcher) (rings : list Ring) (events : list Data).

Definition new (buffer_capacity dispatcher_count : nat) : OptimizedZeroCopyDispatcher :=
  {| ring_buffers := replicate dispatcher_count (RingBuffer.new buffer_capacity); dispatch_index := 0;
     total_dispatched := 0; total_rejected := 0 |}.

(** [for i in 1..=n], from the [i]th on. *)
Fixpoint select_ring (n i start_index : nat) rings (min_utilization : spec_float) (best : nat) : outcome nat :=
  match n with
  | O => Done best
  | S n =>
    let idx := ((start_index + i) mod length rings)%nat in
    match rings !! idx with
    | None => Panic
    | Some rb =>
      let utilization := RingBuffer.utilization rb in
      if SFltb utilization min_utilization then select_ring n (S i) start_index rings utilization idx
      else select_ring n (S i) start_index rings min_utilization best
    end
  end.

Definition batch_dispatch_events d events : outcome (OptimizedZeroCopyDispatcher * nat) :=
  match events with
  | [] => Done (d, 0%nat)
  | _ =>
    let events_len := length events in
    let rings := d.(ring_buffers) in
    let dispatcher_count := length rings in
    if (dispatcher_count =? 0)%nat then Panic else
    let start_index := d.(dispatch_index) in
    let best := (start_index mod dispatcher_count)%nat in
    match rings !! best with
    | None => Panic
    | Some rb =>
      outcome_bind (select_ring (Nat.min 3 dispatcher_count) 1 start_index rings (RingBuffer.utilization rb) best) (fun best =>
      match rings !! best with
      | None => Panic
      | Some rb =>
        let '(rb, dispatched) := RingBuffer.batch_write rb events in
        Done ({| ring_buffers := <[best := rb]> rings; dispatch_index := ((best + 1) mod dispatcher_count)%nat;
                 total_dispatched := as_u64 (d.(total_dispatched) + Z.of_nat dispatched);
                 total_rejected := as_u64 (d.(total_rejected) + Z.of_nat (events_len - dispatched)) |}, dispatched)
      end)
    end
  end.

Fixpoint consume_rings (n : nat) rings : outcome (list Ring * list Data) :=
  match rings with
  | [] => Done ([], [])
  | rb :: rings =>
    outcome_bind (RingBuffer.batch_read rb n) (fun '(rb, events) =>
    outcome_bind (consume_rings n rings) (fun '(rings, all_events) => Done (rb :: rings, events ++ all_events)))
  end.

Definition batch_consume_events d (max_events_per_buffer : nat) : outcome (OptimizedZeroCopyDispatcher * list Data) :=
  outcome_bind (consume_rings max_events_per_buffer d.(ring_buffers)) (fun '(rings, events) =>
  Done ({| ring_buffers := rings; dispatch_index := d.(dispatch_index); total_dispatched := d.(total_dispatched);
           total_rejected := d.(total_rejected) |}, events)).

Lemma select_ring_spec n : forall i start rings m best, (best < length rings)%nat ->
  exists b, select_ring n i start rings m best = Done b /\ (b < length rings)%nat.
Proof.
  induction n as [|n IH]; intros i start rings m best Hb; simpl; [by eexists|].
  assert (Hn : ((start + i) mod length rings < length rings)%nat) by (apply Nat.mod_upper_bound; lia).
  pose proof Hn as Hl. apply lookup_lt_is_Some in Hl as [rb ->]. destruct (SFltb _ m); by apply IH.
Qed.

(** The beginning of a batch goes to the end of one buffer, as far as it has
    room; the others are left alone. *)
Lemma ring_dispatch_spec d events : Forall RingBuffer.ring_ok d.(ring_buffers) -> d.(ring_buffers) <> [] -> events <> [] ->
  exists d' n i rb rb', batch_dispatch_events d events = Done (d', n) /\ Forall RingBuffer.ring_ok d'.(ring_buffers) /\
    d.(ring_buffers) !! i = Some rb /\ d'.(ring_buffers) = <[i := rb']> d.(ring_buffers) /\
    RingBuffer.contents rb' = RingBuffer.contents rb ++ RingBuffer.room rb events /\ n = length (RingBuffer.room rb events).
Proof.
  intros Hok Hne He. unfold batch_dispatch_events. destruct events as [|e events]; [done|]. cbv zeta.
  set (es := e :: events). set (rings := d.(ring_buffers)) in *. assert (Hl : (0 < length rings)%nat) by (destruct rings; [done|simpl; lia]).
  replace (length rings =? 0)%nat with false by (symmetry; apply Nat.eqb_neq; lia).
  assert (Hm : (d.(dispatch_index) mod length rings < length rings)%nat) by (apply Nat.mod_upper_bound; lia).
  pose proof Hm as Hm'. apply lookup_lt_is_Some in Hm' as [rb0 ->].
  destruct (select_ring_spec (Nat.min 3 (length rings)) 1 d.(dispatch_index) rings (RingBuffer.utilization rb0) _ Hm) as (best & -> & Hb).
  cbn [outcome_bind]. apply lookup_lt_is_Some in Hb as [rb Hb]. rewrite Hb.
  pose proof (RingBuffer.batch_write_spec rb es (Forall_lookup_1 _ _ _ _ Hok Hb)) as Hw.
  destruct (RingBuffer.batch_write rb es) as [rb' n]. destruct Hw as (W1 & W2 & W3 & W4).
  do 2 eexists. exists best, rb, rb'. split; [reflexivity|]. simpl. split; [by apply Forall_insert|done].
Qed.

End dispatcher.
End RingDispatcher.
