(* ===== verification/ParallelTimer.v ===== *)
(** * Parallel batch processing of timers

    Models [src/timer/parallel/]: the strategy and mode selectors, the vector
    processor, the Rayon executor, the memory pool, the asynchronous dispatcher
    and [HybridParallelTimerSystem], which processes a batch of timer entries
    with them.  The environment of a call ([Call]) is the time, whether a tokio
    runtime is running, how long the call takes and the order in which spawned
    tasks run.  Rayon's [par_chunks(..).map(..).collect()] yields the results in
    the order of the chunks, whichever thread computes them. *)

From S2P Require Import Prelude Float TimingWheel WheelBatch TimerTask EventPool EventDispatch.

Module Strategy.

Inductive OptimalParallelStrategy := SIMDOnly | SIMDWithRayon | FullHybrid.

Definition choose_optimal_strategy (cpu_cores batch_size : nat) : OptimalParallelStrategy :=
  if (batch_size <=? 256)%nat then SIMDOnly
  else if (batch_size <=? 1023)%nat then SIMDOnly
  else if (batch_size <=? 4095)%nat then if (2 <=? cpu_cores)%nat then FullHybrid else SIMDOnly
  else if (2 <=? cpu_cores)%nat then FullHybrid else SIMDOnly.

Inductive ExecutionMode := SingleThreadDirect | SingleThreadAsync | MultiThreadParallel.

Record ExecutionModeSelector := {
  thread_count : nat;
  in_tokio_runtime : bool;
  bypass_threshold : nat;
}.

Definition selector_new (num_cpus : nat) : ExecutionModeSelector :=
  {| thread_count := num_cpus; in_tokio_runtime := false; bypass_threshold := 128 |}.

Definition choose_mode (sel : ExecutionModeSelector) (in_runtime : bool) (size : nat) : ExecutionModeSelector * ExecutionMode :=
  let sel := {| thread_count := sel.(thread_count); in_tokio_runtime := in_runtime;
                bypass_threshold := sel.(bypass_threshold) |} in
  (sel,
   if (sel.(thread_count) =? 1)%nat && negb in_runtime && (size <=? sel.(bypass_threshold))%nat then SingleThreadDirect
   else if (size <=? 64)%nat then SingleThreadDirect
   else if (sel.(bypass_threshold) <? size)%nat && (1 <? sel.(thread_count))%nat then MultiThreadParallel
   else SingleThreadAsync).

Definition should_bypass_async (sel : ExecutionModeSelector) (in_runtime : bool) (size : nat) : ExecutionModeSelector * bool :=
  let '(sel, mode) := choose_mode sel in_runtime size in
  (sel, match mode with SingleThreadDirect => true | _ => false end).

(** Two of the strategies are in use. *)
Lemma never_rayon_only cores size : choose_optimal_strategy cores size <> SIMDWithRayon.
Proof. unfold choose_optimal_strategy. by repeat case_match. Qed.

End Strategy.

Module BatchProcessors.
Import TimingWheel.

Section processors.
Context {E Tx : Type}.

Abbreviation Entry := (TimerEntry (TimerEvent.TimerEvent E Tx)).
Abbreviation Data := (@TimerEvent.TimerEventData E).

Record ProcessedTimerData := {
  entry_id : Z;
  connection_id : Z;
  timeout_event : E;
  expiry_time : Instant;
  slot_index : nat;
}.

Implicit Types (entries : list Entry).

Definition processed (i : nat) (entry : Entry) : ProcessedTimerData :=
  {| entry_id := entry.(TimingWheel.id);
     connection_id := entry.(TimingWheel.event).(TimerEvent.data).(TimerEvent.connection_id);
     timeout_event := entry.(TimingWheel.event).(TimerEvent.data).(TimerEvent.timeout_event);
     expiry_time := entry.(TimingWheel.expiry_time); slot_index := i |}.

(** ** [simd_processor.rs] *)

Record SIMDTimerProcessor := { result_cache : list ProcessedTimerData }.

Definition simd_new : SIMDTimerProcessor := {| result_cache := [] |}.

(** [while i + n <= l.len()] over the elements of a vector; what is computed
    from them is dropped. *)
Fixpoint scan {A} (fuel n : nat) (l : list A) (i : nat) : outcome nat :=
  match fuel with
  | O => Done i
  | S fuel =>
    if (i + n <=? length l)%nat then outcome_bind (EventPool.slice l i n) (fun _ => scan fuel n l (i + n))
    else Done i
  end.

Definition simd_process_connection_ids (connection_ids : list Z) : outcome unit :=
  outcome_bind (scan (length connection_ids) 8 connection_ids 0) (fun _ => Done tt).

Definition simd_process_timestamps (timestamps : list Z) : outcome unit :=
  outcome_bind (scan (length timestamps) 4 timestamps 0) (fun _ => Done tt).

Definition process_batch (now : Instant) (sp : SIMDTimerProcessor) entries
    : outcome (SIMDTimerProcessor * list ProcessedTimerData) :=
  let connection_ids := map (fun entry : Entry => entry.(TimingWheel.event).(TimerEvent.data).(TimerEvent.connection_id)) entries in
  outcome_bind (simd_process_connection_ids connection_ids) (fun _ =>
  let expiry_times := map (fun entry : Entry => as_u64 (duration_since now entry.(TimingWheel.expiry_time))) entries in
  outcome_bind (simd_process_timestamps expiry_times) (fun _ =>
  let sp := {| result_cache := imap processed entries |} in Done (sp, sp.(result_cache)))).

(** ** [rayon_executor.rs] *)

Record RayonBatchExecutor := { chunk_size : nat; thread_pool_size : nat }.

Definition executor_new (cpu_cores : nat) : RayonBatchExecutor :=
  {| chunk_size := Nat.max 512 (cpu_cores * 64); thread_pool_size := cpu_cores |}.

(** [par_chunks(n)]; there are at most as many chunks as elements. *)
Fixpoint chunks {A} (fuel n : nat) (l : list A) : list (list A) :=
  match fuel, l with
  | S fuel, _ :: _ => take n l :: chunks fuel n (drop n l)
  | _, _ => []
  end.

Definition par_chunks {A} (n : nat) (l : list A) : outcome (list (list A)) :=
  if (n =? 0)%nat then Panic else Done (chunks (length l) n l).

Fixpoint map_outcome {A B} (f : A -> outcome B) (l : list A) : outcome (list B) :=
  match l with
  | [] => Done []
  | x :: l => outcome_bind (f x) (fun y => outcome_bind (map_outcome f l) (fun ys => Done (y :: ys)))
  end.

(** Each chunk is processed by a clone of the processor, a new one. *)
Definition parallel_process_with_simd_sync (now : Instant) (ex : RayonBatchExecutor) entries : outcome (list ProcessedTimerData) :=
  outcome_bind (par_chunks ex.(chunk_size) entries) (fun parts =>
  outcome_bind (map_outcome (fun chunk => outcome_bind (process_batch now simd_new chunk) (fun r => Done r.2)) parts)
    (fun results => Done (concat results))).

(** ** [memory.rs] *)

Record MemoryPool := {
  data_buffers : list (list ProcessedTimerData);
  current_buffer_index : Z;
  buffer_count : nat;
}.

Definition pool_new (buffer_count : nat) : MemoryPool :=
  {| data_buffers := replicate buffer_count []; current_buffer_index := 0; buffer_count := buffer_count |}.

(** The pool with its counter advanced, and the buffer that is next; the caller
    writes to it after it is cleared. *)
Definition get_data_buffer (p : MemoryPool) : outcome (MemoryPool * nat) :=
  if (p.(buffer_count) =? 0)%nat then Panic else
  let index := Z.to_nat (p.(current_buffer_index) mod Z.of_nat p.(buffer_count)) in
  if (index <? length p.(data_buffers))%nat then
    Done ({| data_buffers := <[index := []]> p.(data_buffers);
             current_buffer_index := as_u64 (p.(current_buffer_index) + 1); buffer_count := p.(buffer_count) |}, index)
  else Panic.

Record ZeroAllocProcessor := {
  memory_pool : MemoryPool;
  stack_buffer : list ProcessedTimerData;   (* 64 of them *)
  stack_usage : nat;
}.

(** [default] is [E::default()]. *)
Definition zero_alloc_new (default : E) (now : Instant) : ZeroAllocProcessor :=
  {| memory_pool := pool_new 4;
     stack_buffer := replicate 64 {| entry_id := 0; connection_id := 0; timeout_event := default; expiry_time := now; slot_index := 0 |};
     stack_usage := 0 |}.

(** [self.stack_buffer[i] = ..] for the entries from the [i]th on. *)
Fixpoint fill_stack (i : nat) entries (buffer : list ProcessedTimerData) : outcome (list ProcessedTimerData) :=
  match entries with
  | [] => Done buffer
  | entry :: entries =>
    if (i <? length buffer)%nat then fill_stack (S i) entries (<[i := processed i entry]> buffer) else Panic
  end.

Definition process_small_batch (z : ZeroAllocProcessor) entries : outcome (ZeroAllocProcessor * list ProcessedTimerData) :=
  if (length entries <=? 64)%nat then
    outcome_bind (fill_stack 0 entries z.(stack_buffer)) (fun buffer =>
    outcome_bind (EventPool.slice buffer 0 (length entries)) (fun result =>
    Done ({| memory_pool := z.(memory_pool); stack_buffer := buffer; stack_usage := length entries |}, result)))
  else Done (z, []).

Fixpoint push_processed (i : nat) entries (buffer : list ProcessedTimerData) : list ProcessedTimerData :=
  match entries with
  | [] => buffer
  | entry :: entries => push_processed (S i) entries (buffer ++ [processed i entry])
  end.

Definition process_large_batch (z : ZeroAllocProcessor) entries : outcome (ZeroAllocProcessor * list ProcessedTimerData) :=
  outcome_bind (get_data_buffer z.(memory_pool)) (fun '(pool, index) =>
  match pool.(data_buffers) !! index with
  | None => Panic
  | Some buffer =>
    let buffer := push_processed 0 entries buffer in
    let pool := {| data_buffers := <[index := buffer]> pool.(data_buffers);
                   current_buffer_index := pool.(current_buffer_index); buffer_count := pool.(buffer_count) |} in
    Done ({| memory_pool := pool; stack_buffer := z.(stack_buffer); stack_usage := z.(stack_usage) |}, buffer)
  end).

(** ** [zero_copy.rs]: delivery by reference, and [single_thread_bypass.rs] *)

Record RefEventHandler := { handler : Data -> bool; processed_count : Z }.

Definition handler_new (handler : Data -> bool) : RefEventHandler := {| handler := handler; processed_count := 0 |}.

Definition deliver_event_ref (h : RefEventHandler) (event : Data) : RefEventHandler * bool :=
  let success := h.(handler) event in
  (if success then {| handler := h.(handler); processed_count := as_u64 (h.(processed_count) + 1) |} else h, success).

Fixpoint count_delivered (f : Data -> bool) (events : list Data) : nat :=
  match events with
  | [] => 0%nat
  | event :: events => if f event then S (count_delivered f events) else count_delivered f events
  end.

Definition batch_deliver_event_refs (h : RefEventHandler) (events : list Data) : RefEventHandler * nat :=
  let delivered_count := count_delivered h.(handler) events in
  ({| handler := h.(handler); processed_count := as_u64 (h.(processed_count) + Z.of_nat delivered_count) |}, delivered_count).

Definition dispatch_events_bypass (data : list ProcessedTimerData) (h : RefEventHandler) : RefEventHandler * nat :=
  batch_deliver_event_refs h (map (fun d => TimerEvent.create_event d.(connection_id) d.(timeout_event)) data).

(** ** What the processors compute *)

Lemma scan_ok {A} n (l : list A) : forall fuel i, exists j, scan fuel n l i = Done j.
Proof.
  induction fuel as [|fuel IH]; intros i; simpl; [by eexists|]. destruct (Nat.leb_spec (i + n) (length l)); [|by eexists].
  rewrite EventPool.slice_ok by done. apply IH.
Qed.

Lemma process_batch_spec now sp entries :
  process_batch now sp entries = Done ({| result_cache := imap processed entries |}, imap processed entries).
Proof.
  unfold process_batch, simd_process_connection_ids, simd_process_timestamps.
  match goal with |- context [scan ?f 8 ?l 0] => destruct (scan_ok 8 l f 0) as [? ->] end. simpl.
  match goal with |- context [scan ?f 4 ?l 0] => by destruct (scan_ok 4 l f 0) as [? ->] end.
Qed.

Lemma map_outcome_done {A B} (f : A -> outcome B) (g : A -> B) l : (forall x, f x = Done (g x)) -> map_outcome f l = Done (map g l).
Proof. intros Hf. induction l as [|x l IH]; simpl; [done|]. by rewrite Hf, IH. Qed.

(** The chunks have the elements of the list in order. *)
Lemma chunks_concat {A} n fuel : forall l : list A, (0 < n)%nat -> (length l <= fuel)%nat -> concat (chunks fuel n l) = l.
Proof.
  induction fuel as [|fuel IH]; intros [|x l] Hn Hl; simpl in *; try done; [lia|].
  rewrite IH; [by rewrite take_drop|done|]. rewrite length_drop. simpl. lia.
Qed.

(** The position of an entry in its chunk. *)
Definition in_chunk (n i : nat) : nat := (i mod n)%nat.

Lemma chunks_imap {A B} (f : nat -> A -> B) n fuel : forall l : list A, (0 < n)%nat -> (length l <= fuel)%nat ->
  concat (map (imap f) (chunks fuel n l)) = imap (fun i x => f (in_chunk n i) x) l.
Proof.
  induction fuel as [|fuel IH]; intros [|x l] Hn Hl; try done; [simpl in Hl; lia|].
  assert (Hd : (length (drop n (x :: l)) <= fuel)%nat) by (rewrite length_drop; simpl in *; lia).
  cbn [chunks map concat]. rewrite (IH (drop n (x :: l)) Hn Hd).
  rewrite <- (take_drop n (x :: l)) at 3. rewrite imap_app. f_equal.
  - apply imap_ext. intros i y Hi. apply lookup_take_Some in Hi as [_ Hi]. unfold in_chunk. by rewrite Nat.mod_small.
  - apply imap_ext. intros i y Hi. simpl. rewrite length_take. unfold in_chunk.
    assert (n <= length (x :: l))%nat as Hle.
    { apply lookup_lt_Some in Hi. rewrite length_drop in Hi. lia. }
    rewrite Nat.min_l by done. f_equal. replace (n + i)%nat with (i + 1 * n)%nat by lia. by rewrite Nat.Div0.mod_add.
Qed.

Lemma parallel_spec now cores entries :
  parallel_process_with_simd_sync now (executor_new cores) entries =
    Done (imap (fun i entry => processed (in_chunk (Nat.max 512 (cores * 64)) i) entry) entries).
Proof.
  unfold parallel_process_with_simd_sync, par_chunks. cbn [executor_new chunk_size].
  set (n := Nat.max 512 (cores * 64)). assert (0 < n)%nat by lia.
  replace (n =? 0)%nat with false by (symmetry; apply Nat.eqb_neq; lia). cbn [outcome_bind].
  rewrite (map_outcome_done _ (imap processed)).
  - cbn [outcome_bind]. by rewrite chunks_imap.
  - intros chunk. by rewrite process_batch_spec.
Qed.

(** What an event is made of. *)
Definition request (d : ProcessedTimerData) : Z * E := (d.(connection_id), d.(timeout_event)).

Definition entry_request (entry : Entry) : Z * E :=
  (entry.(TimingWheel.event).(TimerEvent.data).(TimerEvent.connection_id),
   entry.(TimingWheel.event).(TimerEvent.data).(TimerEvent.timeout_event)).

Lemma requests_of_processed (f : nat -> nat) entries :
  map request (imap (fun i entry => processed (f i) entry) entries) = map entry_request entries.
Proof.
  revert f. induction entries as [|entry entries IH]; intros f; simpl; [done|]. f_equal. exact (IH (fun i => f (S i))).
Qed.

(** ** The buffers *)

Definition zero_alloc_ok (z : ZeroAllocProcessor) : Prop :=
  length z.(stack_buffer) = 64%nat /\ (0 < z.(memory_pool).(buffer_count))%nat /\
  length z.(memory_pool).(data_buffers) = z.(memory_pool).(buffer_count).

Lemma zero_alloc_new_ok default now : zero_alloc_ok (zero_alloc_new default now).
Proof. split; [apply length_replicate|]. split; [simpl; lia|apply length_replicate]. Qed.

Lemma fill_stack_spec entries : forall i buffer, (i + length entries <= length buffer)%nat ->
  fill_stack i entries buffer =
    Done (take i buffer ++ imap (fun j => processed (i + j)%nat) entries ++ drop (i + length entries) buffer).
Proof.
  induction entries as [|entry entries IH]; intros i buffer Hl; simpl in *; [by rewrite Nat.add_0_r, take_drop|].
  destruct (Nat.ltb_spec i (length buffer)); [|lia]. rewrite IH by (rewrite length_insert; lia).
  rewrite (take_S_r _ i (processed i entry)) by (by apply list_lookup_insert_eq). rewrite take_insert_ge by done.
  rewrite <- app_assoc. simpl. rewrite Nat.add_0_r. do 4 f_equal; [|rewrite drop_insert_lt by lia; f_equal; lia].
  apply imap_ext. intros j x _. simpl. by rewrite Nat.add_succ_r.
Qed.

Lemma push_processed_spec entries : forall i buffer,
  push_processed i entries buffer = buffer ++ imap (fun j => processed (i + j)%nat) entries.
Proof.
  induction entries as [|entry entries IH]; intros i buffer; simpl; [by rewrite app_nil_r|].
  rewrite IH, <- app_assoc, Nat.add_0_r. simpl. do 2 f_equal. apply imap_ext. intros j x _. simpl. by rewrite Nat.add_succ_r.
Qed.

Lemma small_batch_data z entries : zero_alloc_ok z -> (length entries <= 64)%nat ->
  exists z', process_small_batch z entries = Done (z', imap processed entries) /\ zero_alloc_ok z'.
Proof.
  intros (H1 & H2 & H3) Hl. unfold process_small_batch. destruct (Nat.leb_spec (length entries) 64); [|lia].
  rewrite fill_stack_spec by lia. cbn [outcome_bind].
  rewrite take_0, app_nil_l. rewrite EventPool.slice_ok by (rewrite length_app, length_imap; lia). cbn [outcome_bind].
  rewrite drop_0, (take_app_length' (imap _ entries)) by (symmetry; apply length_imap). eexists. split; [reflexivity|].
  split; [|done]. cbn [stack_buffer]. rewrite length_app, length_imap, length_drop. lia.
Qed.

Lemma large_batch_data z entries : zero_alloc_ok z ->
  exists z', process_large_batch z entries = Done (z', imap processed entries) /\ zero_alloc_ok z'.
Proof.
  intros (H1 & H2 & H3). unfold process_large_batch, get_data_buffer. set (p := z.(memory_pool)) in *.
  replace (p.(buffer_count) =? 0)%nat with false by (symmetry; apply Nat.eqb_neq; lia).
  set (i := Z.to_nat _). assert (i < length p.(data_buffers))%nat.
  { rewrite H3. unfold i. pose proof (Z.mod_pos_bound p.(current_buffer_index) (Z.of_nat p.(buffer_count))). lia. }
  destruct (Nat.ltb_spec i (length p.(data_buffers))); [|lia]. cbn [outcome_bind data_buffers].
  rewrite list_lookup_insert_eq by done. rewrite push_processed_spec. eexists. split; [reflexivity|].
  split_and!; simpl; [done..|]. by rewrite !length_insert.
Qed.

Lemma count_delivered_le f events : (count_delivered f events <= length events)%nat.
Proof. induction events as [|x l IH]; simpl; [lia|]. destruct (f x); lia. Qed.

Lemma count_delivered_all f events : (forall x, f x = true) -> count_delivered f events = length events.
Proof. intros Hf. induction events as [|x l IH]; simpl; [done|]. by rewrite Hf, IH. Qed.

(** Parallel processing is sequential processing.  Whatever the number of
    cores, the Rayon executor returns the data of every entry, in the order of
    the batch, as one pass of the vector processor does; only the slot index
    differs, which starts again with every chunk. *)
Theorem parallel_sequential now cores entries :
  exists data sp seq,
    parallel_process_with_simd_sync now (executor_new cores) entries = Done data /\
    process_batch now simd_new entries = Done (sp, seq) /\ length data = length seq /\
    forall i d s, data !! i = Some d -> seq !! i = Some s ->
      d.(entry_id) = s.(entry_id) /\ request d = request s /\ d.(expiry_time) = s.(expiry_time) /\
      s.(slot_index) = i /\ d.(slot_index) = (i mod Nat.max 512 (cores * 64))%nat.
Proof.
  rewrite parallel_spec, process_batch_spec. do 3 eexists. split; [reflexivity|]. split; [reflexivity|].
  split; [by rewrite !length_imap|]. intros i d s Hd Hs. rewrite list_lookup_imap in Hd, Hs.
  destruct (entries !! i) as [entry|]; [|done]. injection Hd as <-. injection Hs as <-. done.
Qed.

(** Recycled buffers hold nothing of their last batch.  The stack buffer
    and the memory pool give the same data for a batch, that of the vector
    processor, whatever they held before, and stay fit for the next batch. *)
Theorem zero_alloc_transparent z now sp entries : zero_alloc_ok z ->
  exists sp' z' data, process_batch now sp entries = Done (sp', data) /\
    process_large_batch z entries = Done (z', data) /\ zero_alloc_ok z' /\
    ((length entries <= 64)%nat -> exists z'', process_small_batch z entries = Done (z'', data) /\ zero_alloc_ok z'').
Proof.
  intros Hz. destruct (large_batch_data z entries Hz) as (z' & E' & Hz'). rewrite process_batch_spec.
  do 3 eexists. split; [reflexivity|]. split; [exact E'|]. split; [done|]. intros Hl. by apply small_batch_data.
Qed.

End processors.
Arguments ProcessedTimerData : clear implicits.
Arguments SIMDTimerProcessor : clear implicits.
Arguments ZeroAllocProcessor : clear implicits.
Arguments MemoryPool : clear implicits.

Lemma zero_alloc_transparent_witness :
  let z := zero_alloc_new 0 5 in
  let entry := {| TimingWheel.id := 7; TimingWheel.expiry_time := 3; TimingWheel.event := TimerEvent.from_factory 1 2 10 tt |} in
  exists sp' z' data, process_batch 9 simd_new [entry] = Done (sp', data) /\
    process_large_batch z [entry] = Done (z', data) /\ zero_alloc_ok z' /\
    ((length [entry] <= 64)%nat -> exists z'', process_small_batch z [entry] = Done (z'', data) /\ zero_alloc_ok z'').
Proof. intros z entry. apply (zero_alloc_transparent z 9 simd_new [entry]). apply zero_alloc_new_ok. Defined.

End BatchProcessors.

(** ** [async_dispatcher.rs] *)

(** A bounded channel as its sender sees it. *)
Class EventChannel (Chan : Type -> Type) := {
  chan_new {A} : nat -> Chan A;
  chan_drop_rx {A} : Chan A -> Chan A;
  chan_try_send {A} : Chan A -> A -> Chan A * bool;
  chan_closed {A} : Chan A -> bool;
  chan_closed_drop {A} (c : Chan A) : chan_closed (chan_drop_rx c) = true;
  chan_send_closed {A} (c : Chan A) x : chan_closed c = true -> chan_try_send c x = (c, false);
}.

Module AsyncDispatcher.
Import BatchProcessors.

Section dispatcher.
Context {E : Type} {Chan : Type -> Type} `{HC : EventChannel Chan}.

Abbreviation Data := (@TimerEvent.TimerEventData E).

Record AsyncEventDispatcher := {
  event_channels : list (Chan Data);
  round_robin_index : Z;
}.

(** The receiving half of each channel goes out of scope in the loop. *)
Definition new (num_cpus : nat) : AsyncEventDispatcher :=
  {| event_channels := replicate (Nat.max num_cpus 4) (chan_drop_rx (chan_new 1024)); round_robin_index := 0 |}.

(** The tasks, with the channel of each. *)
Fixpoint spawn_all (channels : nat) (index : Z) (data : list (ProcessedTimerData E)) : list (nat * Data) * Z :=
  match data with
  | [] => ([], index)
  | d :: data =>
    let '(tasks, last) := spawn_all channels (as_u64 (index + 1)) data in
    ((Z.to_nat (index mod Z.of_nat channels), TimerEvent.create_event d.(connection_id) d.(timeout_event)) :: tasks, last)
  end.

(** The tasks in the order in which they run. *)
Fixpoint run_tasks (channels : list (Chan Data)) (tasks : list (nat * Data)) : list (Chan Data) * nat :=
  match tasks with
  | [] => (channels, 0%nat)
  | (i, event) :: tasks =>
    match channels !! i with
    | None => run_tasks channels tasks
    | Some c =>
      let '(c, sent) := chan_try_send c event in
      let '(channels, n) := run_tasks (<[i := c]> channels) tasks in
      (channels, if sent : bool then S n else n)
    end
  end.

(** [order] lists the tasks as the runtime runs them. *)
Definition dispatch_timer_events (d : AsyncEventDispatcher) (data : list (ProcessedTimerData E)) (order : list nat)
    : outcome (AsyncEventDispatcher * nat) :=
  match data with
  | [] => Done (d, 0%nat)
  | _ =>
    if (length d.(event_channels) =? 0)%nat then Panic else
    let '(tasks, index) := spawn_all (length d.(event_channels)) d.(round_robin_index) data in
    let '(channels, n) := run_tasks d.(event_channels) (omap (fun k => tasks !! k) order) in
    Done ({| event_channels := channels; round_robin_index := index |}, n)
  end.

Definition closed (d : AsyncEventDispatcher) : Prop :=
  d.(event_channels) <> [] /\ Forall (fun c => chan_closed c = true) d.(event_channels).

Lemma new_closed n : closed (new n).
Proof.
  split; [by destruct n as [|[|[|[|n]]]]|]. apply Forall_replicate. apply chan_closed_drop.
Qed.

Lemma run_tasks_closed channels : Forall (fun c => chan_closed c = true) channels ->
  forall tasks, run_tasks channels tasks = (channels, 0%nat).
Proof.
  intros Hc. induction tasks as [|[i event] tasks IH]; simpl; [done|].
  destruct (channels !! i) as [c|] eqn:Hi; [|done].
  rewrite chan_send_closed by (eapply (Forall_lookup_1 _ _ _ _ Hc Hi)). by rewrite list_insert_id, IH.
Qed.

Lemma dispatch_closed d data order : closed d ->
  exists d', dispatch_timer_events d data order = Done (d', 0%nat) /\ closed d'.
Proof.
  intros [Hne Hc]. unfold dispatch_timer_events. destruct data as [|x data]; [by exists d|].
  replace (length d.(event_channels) =? 0)%nat with false by (by destruct d.(event_channels)).
  destruct (spawn_all _ _ _) as [tasks index]. rewrite run_tasks_closed by done. eexists. split; [reflexivity|done].
Qed.

End dispatcher.
Arguments AsyncEventDispatcher : clear implicits.
Arguments AsyncEventDispatcher E Chan.
End AsyncDispatcher.

(** ** [core.rs]: the hybrid system *)

Module HybridTimer.
Import Strategy BatchProcessors.

Section hybrid.
Context {E Tx : Type} `{!EventSize E} (default : E) {Q P Chan : Type -> Type}.
Context `{HQ : ArrayQueue Q} `{HP : SegQueue P} `{HL : PoolLanes} `{HC : EventChannel Chan}.

Abbreviation Entry := (TimingWheel.TimerEntry (TimerEvent.TimerEvent E Tx)).
Abbreviation ZeroCopy := (@Dispatcher.SmartZeroCopyDispatcher E Q P).
Abbreviation Async := (AsyncDispatcher.AsyncEventDispatcher E Chan).

Record DetailedProcessingStats := {
  simd_operations : nat;
  rayon_chunks_processed : nat;
  async_dispatches : nat;
  cache_hits : nat;
  memory_allocations : nat;
}.

Record ParallelProcessingStats := {
  total_batches_processed : Z;
  simd_only_count : Z;
  simd_rayon_count : Z;
  full_hybrid_count : Z;
  avg_processing_time_ns : spec_float;
  overall_throughput_ops_per_sec : spec_float;
  total_processing_time_ns : spec_float;
  total_operations_processed : Z;
}.

Record ParallelProcessingResult := {
  processed_count : nat;
  processing_duration : Duration;
  strategy_used : OptimalParallelStrategy;
  detailed_stats : DetailedProcessingStats;
}.

Record HybridParallelTimerSystem := {
  simd_processor : SIMDTimerProcessor E;
  rayon_executor : RayonBatchExecutor;
  async_dispatcher : Async;
  zero_copy_dispatcher : ZeroCopy;
  mode_selector : ExecutionModeSelector;
  zero_alloc_processor : ZeroAllocProcessor E;
  strategy_selector : nat;             (* its number of cores *)
  stats : ParallelProcessingStats;
  cpu_cores : nat;
}.

Record Call := { now : Instant; in_runtime : bool; elapsed : Duration; order : list nat }.

Implicit Types (s : HybridParallelTimerSystem) (call : Call) (entries : list Entry).

Definition default_stats : ParallelProcessingStats :=
  {| total_batches_processed := 0; simd_only_count := 0; simd_rayon_count := 0; full_hybrid_count := 0;
     avg_processing_time_ns := Float.f64_zero; overall_throughput_ops_per_sec := Float.f64_zero;
     total_processing_time_ns := Float.f64_zero; total_operations_processed := 0 |}.

(** Outside the tests. *)
Definition new (num_cpus : nat) (now : Instant) : HybridParallelTimerSystem :=
  {| simd_processor := simd_new; rayon_executor := executor_new num_cpus;
     async_dispatcher := AsyncDispatcher.new num_cpus; zero_copy_dispatcher := Dispatcher.new default 1024 num_cpus 1000;
     mode_selector := selector_new num_cpus; zero_alloc_processor := zero_alloc_new default now;
     strategy_selector := num_cpus; stats := default_stats; cpu_cores := num_cpus |}.

Definition update_stats (st : ParallelProcessingStats) (strategy : OptimalParallelStrategy) (batch_size : nat)
    (duration : Duration) : ParallelProcessingStats :=
  let batches := as_u64 (st.(total_batches_processed) + 1) in
  let time := Float.f64_add st.(total_processing_time_ns) (Float.f64_of_Z duration) in
  let operations := as_u64 (st.(total_operations_processed) + Z.of_nat batch_size) in
  {| total_batches_processed := batches;
     simd_only_count := match strategy with SIMDOnly => as_u64 (st.(simd_only_count) + 1) | _ => st.(simd_only_count) end;
     simd_rayon_count := match strategy with SIMDWithRayon => as_u64 (st.(simd_rayon_count) + 1) | _ => st.(simd_rayon_count) end;
     full_hybrid_count := match strategy with FullHybrid => as_u64 (st.(full_hybrid_count) + 1) | _ => st.(full_hybrid_count) end;
     avg_processing_time_ns := Float.f64_div time (Float.f64_of_Z batches);
     overall_throughput_ops_per_sec :=
       if SFltb Float.f64_zero time then
         Float.f64_div (Float.f64_of_Z operations) (Float.f64_div time (Float.f64_of_Z 1000000000))
       else st.(overall_throughput_ops_per_sec);
     total_processing_time_ns := time; total_operations_processed := operations |}.

Definition with_stats s (st : ParallelProcessingStats) : HybridParallelTimerSystem :=
  {| simd_processor := s.(simd_processor); rayon_executor := s.(rayon_executor); async_dispatcher := s.(async_dispatcher);
     zero_copy_dispatcher := s.(zero_copy_dispatcher); mode_selector := s.(mode_selector);
     zero_alloc_processor := s.(zero_alloc_processor); strategy_selector := s.(strategy_selector); stats := st;
     cpu_cores := s.(cpu_cores) |}.

Definition with_dispatchers s (zc : ZeroCopy) (ad : Async) : HybridParallelTimerSystem :=
  {| simd_processor := s.(simd_processor); rayon_executor := s.(rayon_executor); async_dispatcher := ad;
     zero_copy_dispatcher := zc; mode_selector := s.(mode_selector);
     zero_alloc_processor := s.(zero_alloc_processor); strategy_selector := s.(strategy_selector); stats := s.(stats);
     cpu_cores := s.(cpu_cores) |}.

Definition with_simd s (sp : SIMDTimerProcessor E) : HybridParallelTimerSystem :=
  {| simd_processor := sp; rayon_executor := s.(rayon_executor); async_dispatcher := s.(async_dispatcher);
     zero_copy_dispatcher := s.(zero_copy_dispatcher); mode_selector := s.(mode_selector);
     zero_alloc_processor := s.(zero_alloc_processor); strategy_selector := s.(strategy_selector); stats := s.(stats);
     cpu_cores := s.(cpu_cores) |}.

Definition with_bypass s (sel : ExecutionModeSelector) (z : ZeroAllocProcessor E) : HybridParallelTimerSystem :=
  {| simd_processor := s.(simd_processor); rayon_executor := s.(rayon_executor); async_dispatcher := s.(async_dispatcher);
     zero_copy_dispatcher := s.(zero_copy_dispatcher); mode_selector := sel;
     zero_alloc_processor := z; strategy_selector := s.(strategy_selector); stats := s.(stats);
     cpu_cores := s.(cpu_cores) |}.

Definition process_bypass_mode s call entries : outcome (HybridParallelTimerSystem * ParallelProcessingResult) :=
  let batch_size := length entries in
  outcome_bind (if (batch_size <=? 64)%nat then process_small_batch s.(zero_alloc_processor) entries
                else process_large_batch s.(zero_alloc_processor) entries) (fun '(z, processed_data) =>
  let dummy_handler := handler_new (fun _ => true) in
  let '(_, dispatch_count) := dispatch_events_bypass processed_data dummy_handler in
  let s := with_bypass s s.(mode_selector) z in
  let s := with_stats s (update_stats s.(stats) SIMDOnly batch_size call.(elapsed)) in
  Done (s, {| processed_count := batch_size; processing_duration := call.(elapsed); strategy_used := SIMDOnly;
              detailed_stats := {| simd_operations := 0; rayon_chunks_processed := 0; async_dispatches := dispatch_count;
                                   cache_hits := 0; memory_allocations := if (batch_size <=? 64)%nat then 0%nat else 1%nat |} |})).

(** The dispatch shared by two of the strategies: the events go through the
    zero-copy dispatcher, up to half of their number is taken out of each of
    its slots and recycled, and when it took none they go to the channels. *)
Definition dispatch_and_recycle s call (processed_data : list (ProcessedTimerData E)) : outcome (HybridParallelTimerSystem * nat) :=
  let event_requests := map request processed_data in
  outcome_bind (Dispatcher.create_and_dispatch_events s.(zero_copy_dispatcher) event_requests) (fun '(zc, dispatch_count) =>
  outcome_bind (
    if (0 <? dispatch_count)%nat then
      outcome_bind (Dispatcher.batch_consume_events zc (dispatch_count / 2)) (fun '(zc, consumed_events) =>
      Done (match consumed_events with
            | [] => zc
            | _ => Dispatcher.batch_return_to_pool zc consumed_events
            end))
    else Done zc) (fun zc =>
  if (dispatch_count =? 0)%nat then
    outcome_bind (AsyncDispatcher.dispatch_timer_events s.(async_dispatcher) processed_data call.(order)) (fun '(ad, n) =>
    Done (with_dispatchers s zc ad, n))
  else Done (with_dispatchers s zc s.(async_dispatcher), dispatch_count))).

Definition process_simd_only_optimized s call entries : outcome (HybridParallelTimerSystem * nat * DetailedProcessingStats) :=
  outcome_bind (process_batch call.(now) s.(simd_processor) entries) (fun '(sp, processed_data) =>
  outcome_bind (dispatch_and_recycle (with_simd s sp) call processed_data) (fun '(s, final_dispatch_count) =>
  Done (s, length entries,
        {| simd_operations := (length entries / 8 + 1)%nat; rayon_chunks_processed := 0;
           async_dispatches := final_dispatch_count; cache_hits := 0; memory_allocations := 1 |}))).

(** This strategy leaves the events in the slots. *)
Definition process_simd_with_rayon_optimized s call entries : outcome (HybridParallelTimerSystem * nat * DetailedProcessingStats) :=
  outcome_bind (parallel_process_with_simd_sync call.(now) s.(rayon_executor) entries) (fun processed_data =>
  let events := map (fun d => TimerEvent.create_event d.(connection_id) d.(timeout_event)) processed_data in
  outcome_bind (Dispatcher.batch_dispatch_events s.(zero_copy_dispatcher) events) (fun '(zc, dispatch_count) =>
  outcome_bind (if (dispatch_count =? 0)%nat then
                  AsyncDispatcher.dispatch_timer_events s.(async_dispatcher) processed_data call.(order)
                else Done (s.(async_dispatcher), dispatch_count)) (fun '(ad, final_dispatch_count) =>
  Done (with_dispatchers s zc ad, length processed_data,
        {| simd_operations := (length processed_data / 8 + 1)%nat;
           rayon_chunks_processed := ((length processed_data + 511) / 512)%nat;
           async_dispatches := final_dispatch_count; cache_hits := 0; memory_allocations := 1 |})))).

(** Inline or in [spawn_blocking], whose closure has clones of the executor and
    the processor. *)
Definition process_full_hybrid_optimized s call entries : outcome (HybridParallelTimerSystem * nat * DetailedProcessingStats) :=
  let batch_size := length entries in
  outcome_bind (if (batch_size <=? 4095)%nat && (2 <=? s.(cpu_cores))%nat then
                  parallel_process_with_simd_sync call.(now) s.(rayon_executor) entries
                else parallel_process_with_simd_sync call.(now) s.(rayon_executor) entries) (fun processed_data =>
  outcome_bind (dispatch_and_recycle s call processed_data) (fun '(s, total_dispatches) =>
  Done (s, length processed_data,
        {| simd_operations := (length processed_data / 8 + 1)%nat;
           rayon_chunks_processed := ((length processed_data + 511) / 512)%nat;
           async_dispatches := total_dispatches; cache_hits := 0;
           memory_allocations := if (batch_size <=? 4095)%nat then 1%nat else 2%nat |}))).

Definition process_timer_batch s call entries : outcome (HybridParallelTimerSystem * ParallelProcessingResult) :=
  let batch_size := length entries in
  let '(sel, bypass) := should_bypass_async s.(mode_selector) call.(in_runtime) batch_size in
  let s := with_bypass s sel s.(zero_alloc_processor) in
  if bypass : bool then process_bypass_mode s call entries else
  let strategy := choose_optimal_strategy s.(strategy_selector) batch_size in
  outcome_bind (match strategy with
                | SIMDOnly => process_simd_only_optimized s call entries
                | SIMDWithRayon => process_simd_with_rayon_optimized s call entries
                | FullHybrid => process_full_hybrid_optimized s call entries
                end) (fun '(s, processed, detailed) =>
  let s := with_stats s (update_stats s.(stats) strategy batch_size call.(elapsed)) in
  Done (s, {| processed_count := processed; processing_duration := call.(elapsed); strategy_used := strategy;
              detailed_stats := detailed |})).

Definition dispatch_events_async s (processed_data : list (ProcessedTimerData E)) (order : list nat)
    : outcome (HybridParallelTimerSystem * nat) :=
  outcome_bind (AsyncDispatcher.dispatch_timer_events s.(async_dispatcher) processed_data order) (fun '(ad, n) =>
  Done (with_dispatchers s s.(zero_copy_dispatcher) ad, n)).

(** ** Every batch is processed *)

Definition entry_ok (entry : Entry) : Prop :=
  u32_ok entry.(TimingWheel.event).(TimerEvent.data).(TimerEvent.connection_id).

(** The entries of a batch are in a vector, and each holds its event data. *)
Definition batch_ok (entries : list Entry) : Prop :=
  Forall entry_ok entries /\ RingBuffer.capacity_fits (E := E) (length entries) = true.

Definition sys_ok s : Prop :=
  Dispatcher.dispatcher_ok s.(zero_copy_dispatcher) /\ zero_alloc_ok s.(zero_alloc_processor) /\
  AsyncDispatcher.closed s.(async_dispatcher) /\ s.(rayon_executor) = executor_new s.(cpu_cores).

Lemma new_sys_ok num_cpus now : (0 < num_cpus)%nat -> sys_ok (new num_cpus now).
Proof.
  intros Hn. split_and!; [by apply Dispatcher.new_slots|apply zero_alloc_new_ok|apply AsyncDispatcher.new_closed|done].
Qed.

Lemma request_ok (f : nat -> nat) entries : Forall entry_ok entries ->
  Forall (fun r => u32_ok r.1) (map request (imap (fun i entry => processed (f i) entry) entries)).
Proof. intros Hok. rewrite requests_of_processed. by apply Forall_fmap. Qed.

(** The requests of the data dispatch at most one event each. *)
Lemma dispatch_and_recycle_spec s call processed_data : sys_ok s ->
  Forall (fun r => u32_ok r.1) (map request processed_data) ->
  RingBuffer.capacity_fits (E := E) (length processed_data) = true ->
  exists s' n, dispatch_and_recycle s call processed_data = Done (s', n) /\ sys_ok s' /\ s'.(stats) = s.(stats) /\
    (n <= length processed_data)%nat.
Proof.
  intros (H1 & H2 & H3 & H4) Hids Hcap. unfold dispatch_and_recycle.
  destruct (Dispatcher.create_and_dispatch_spec _ _ H1 Hids) as (zc & n & -> & Hzc & Ha). cbn [outcome_bind].
  apply Dispatcher.adds_bound in Ha. rewrite !length_map in Ha.
  match goal with |- context [outcome_bind (if (0 <? n)%nat then ?x else _)] => set (consumed := x) end.
  assert (Hzc' : exists zc', (if (0 <? n)%nat then consumed else Done zc) = Done zc' /\ Dispatcher.dispatcher_ok zc').
  { destruct (0 <? n)%nat; [|by exists zc]. unfold consumed.
    destruct (Dispatcher.batch_consume_spec zc (n / 2) Hzc) as (zc1 & events & -> & Hzc1 & _).
    - eapply RingBuffer.capacity_fits_le; [|exact Hcap]. pose proof (Nat.div_le_upper_bound n 2 n). lia.
    - cbn [outcome_bind]. eexists. split; [done|]. by destruct events. }
  destruct Hzc' as (zc' & -> & Hzc'). cbn [outcome_bind].
  destruct (n =? 0)%nat.
  - destruct (AsyncDispatcher.dispatch_closed _ processed_data call.(order) H3) as (ad & -> & Had).
    do 2 eexists. split; [reflexivity|]. split; [done|]. split; [done|lia].
  - do 2 eexists. split; [reflexivity|]. done.
Qed.

(** What a batch adds to the statistics. *)
Definition counted (st st' : ParallelProcessingStats) (n : nat) : Prop :=
  exists strategy duration, st' = update_stats st strategy n duration.

Lemma bypass_spec s call entries : sys_ok s ->
  exists s' r, process_bypass_mode s call entries = Done (s', r) /\ sys_ok s' /\ counted s.(stats) s'.(stats) (length entries) /\
    r.(processed_count) = length entries /\ r.(detailed_stats).(async_dispatches) = length entries.
Proof.
  intros (H1 & H2 & H3 & H4). unfold process_bypass_mode.
  assert (Hd : exists z, (if (length entries <=? 64)%nat then process_small_batch s.(zero_alloc_processor) entries
      else process_large_batch s.(zero_alloc_processor) entries) = Done (z, imap processed entries) /\ zero_alloc_ok z).
  { destruct (Nat.leb_spec (length entries) 64); [by apply small_batch_data|by apply large_batch_data]. }
  destruct Hd as (z & -> & Hz). cbn [outcome_bind]. do 2 eexists. split; [reflexivity|]. split; [done|].
  split; [by eexists _, _|]. split; [done|]. simpl. rewrite count_delivered_all by done. by rewrite length_map, length_imap.
Qed.

Lemma simd_only_spec s call entries : sys_ok s -> batch_ok entries ->
  exists s' st, process_simd_only_optimized s call entries = Done (s', length entries, st) /\ sys_ok s' /\
    s'.(stats) = s.(stats) /\ (st.(async_dispatches) <= length entries)%nat.
Proof.
  intros Hs [Hok Hcap]. unfold process_simd_only_optimized. rewrite process_batch_spec. cbn [outcome_bind].
  destruct (dispatch_and_recycle_spec (with_simd s {| result_cache := imap processed entries |}) call (imap processed entries) Hs)
    as (s' & n & -> & Hs' & Hst & Hn); [by apply (request_ok (fun i => i))|by rewrite length_imap|].
  cbn [outcome_bind]. do 2 eexists. split; [reflexivity|]. split; [done|]. split; [done|]. by rewrite length_imap in Hn.
Qed.

Lemma full_hybrid_spec s call entries : sys_ok s -> batch_ok entries ->
  exists s' st, process_full_hybrid_optimized s call entries = Done (s', length entries, st) /\ sys_ok s' /\
    s'.(stats) = s.(stats) /\ (st.(async_dispatches) <= length entries)%nat.
Proof.
  intros Hs [Hok Hcap]. unfold process_full_hybrid_optimized. pose proof Hs as (_ & _ & _ & Hex). rewrite Hex, parallel_spec.
  assert (Hif : forall (b : bool) (x : outcome (list (ProcessedTimerData E))), (if b then x else x) = x) by (by intros []).
  rewrite Hif. cbn [outcome_bind].
  destruct (dispatch_and_recycle_spec s call _ Hs (request_ok (in_chunk (Nat.max 512 (s.(cpu_cores) * 64))) entries Hok))
    as (s' & n & -> & Hs' & Hst & Hn); [by rewrite length_imap|].
  cbn [outcome_bind]. rewrite length_imap in *. do 2 eexists. split; [reflexivity|]. done.
Qed.

(** One batch: no panic, every entry processed, at most one dispatch each. *)
Lemma process_timer_batch_spec s call entries : sys_ok s -> batch_ok entries ->
  exists s' r, process_timer_batch s call entries = Done (s', r) /\ sys_ok s' /\
    counted s.(stats) s'.(stats) (length entries) /\ r.(processed_count) = length entries /\
    (r.(detailed_stats).(async_dispatches) <= length entries)%nat.
Proof.
  intros Hs Hok. unfold process_timer_batch. destruct (should_bypass_async _ _ _) as [sel bypass].
  set (s1 := with_bypass s sel s.(zero_alloc_processor)). assert (Hs1 : sys_ok s1) by exact Hs. destruct bypass.
  - destruct (bypass_spec s1 call entries Hs1) as (s' & r & -> & Hs' & Hc & Hp & Hd). exists s', r. rewrite Hd. done.
  - assert (H : exists s2 st, match choose_optimal_strategy s1.(strategy_selector) (length entries) with
        | SIMDOnly => process_simd_only_optimized s1 call entries
        | SIMDWithRayon => process_simd_with_rayon_optimized s1 call entries
        | FullHybrid => process_full_hybrid_optimized s1 call entries
        end = Done (s2, length entries, st) /\ sys_ok s2 /\ s2.(stats) = s1.(stats) /\ (st.(async_dispatches) <= length entries)%nat).
    { destruct (choose_optimal_strategy _ _) eqn:Hst; [by apply simd_only_spec|by apply never_rayon_only in Hst|by apply full_hybrid_spec]. }
    destruct H as (s2 & st & -> & Hs2 & Hst & Hn). cbn [outcome_bind]. do 2 eexists. split; [reflexivity|].
    split; [done|]. split; [eexists _, _; simpl; by rewrite Hst|done].
Qed.

(** ** Histories *)

Fixpoint run s (batches : list (Call * list Entry)) : outcome (HybridParallelTimerSystem * list ParallelProcessingResult) :=
  match batches with
  | [] => Done (s, [])
  | (call, entries) :: batches =>
    outcome_bind (process_timer_batch s call entries) (fun '(s, r) =>
    outcome_bind (run s batches) (fun '(s, rs) => Done (s, r :: rs)))
  end.

(** The counters agree with each other, up to the wrap-around of each. *)
Definition stats_ok (st : ParallelProcessingStats) (batches operations : Z) : Prop :=
  st.(total_batches_processed) = as_u64 batches /\ st.(total_operations_processed) = as_u64 operations /\
  as_u64 (st.(simd_only_count) + st.(simd_rayon_count) + st.(full_hybrid_count)) = as_u64 batches.

Lemma as_u64_add_l a b : as_u64 (as_u64 a + b) = as_u64 (a + b).
Proof. apply Z.add_mod_idemp_l. lia. Qed.

Lemma as_u64_add_r a b : as_u64 (a + as_u64 b) = as_u64 (a + b).
Proof. apply Z.add_mod_idemp_r. lia. Qed.

Lemma counted_ok st st' n batches operations : stats_ok st batches operations -> counted st st' n ->
  stats_ok st' (batches + 1) (operations + Z.of_nat n).
Proof.
  intros (H1 & H2 & H3) (strategy & duration & ->). unfold stats_ok. simpl. rewrite H1, H2, !as_u64_add_l.
  split; [done|]. split; [done|]. rewrite <- (as_u64_add_l batches), <- H3, as_u64_add_l.
  destruct strategy; rewrite ?as_u64_add_r.
  - rewrite <- Z.add_assoc, as_u64_add_l. f_equal. lia.
  - rewrite <- as_u64_add_l, as_u64_add_r, as_u64_add_l. f_equal. lia.
  - f_equal. lia.
Qed.

Lemma run_processes batches : forall s b o, sys_ok s -> stats_ok s.(stats) b o -> Forall (fun x => batch_ok x.2) batches ->
  exists s' rs, run s batches = Done (s', rs) /\ sys_ok s' /\
    Forall2 (fun x r => r.(processed_count) = length x.2 /\ (r.(detailed_stats).(async_dispatches) <= length x.2)%nat) batches rs /\
    stats_ok s'.(stats) (b + len batches) (o + len (concat (map snd batches))).
Proof.
  induction batches as [|[call entries] batches IH]; intros s b o Hs Hst Hok; simpl.
  { exists s, []. unfold len. simpl. rewrite !Z.add_0_r. done. }
  inversion Hok as [|? ? Hok1 Hok2]; subst.
  destruct (process_timer_batch_spec s call entries Hs Hok1) as (s1 & r & -> & Hs1 & Hc & Hp & Hd). cbn [outcome_bind].
  destruct (IH s1 _ _ Hs1 (counted_ok _ _ _ _ _ Hst Hc) Hok2) as (s2 & rs & -> & Hs2 & Hrs & Hst2). cbn [outcome_bind].
  exists s2, (r :: rs). split; [done|]. split; [done|]. split; [by constructor|].
  unfold len in *. rewrite length_app. simpl length. rewrite Nat2Z.inj_add, Nat2Z.inj_succ.
  replace (b + Z.succ (Z.of_nat (length batches))) with (b + 1 + Z.of_nat (length batches)) by lia.
  by rewrite Z.add_assoc.
Qed.

(** The hybrid system processes every batch whole.  On a machine with at
    least one core, whatever the sizes of the batches (that fit memory), the
    modes and the strategies chosen, no call panics or fails; each reports as many processed
    entries as its batch has and at most one dispatch for each; and the
    statistics count the batches, the entries and the batches of each strategy. *)
Theorem batches_processed num_cpus start batches : (0 < num_cpus)%nat ->
  Forall (fun x => batch_ok x.2) batches ->
  exists s rs, run (new num_cpus start) batches = Done (s, rs) /\
    Forall2 (fun x r => r.(processed_count) = length x.2 /\ (r.(detailed_stats).(async_dispatches) <= length x.2)%nat) batches rs /\
    stats_ok s.(stats) (len batches) (len (concat (map snd batches))).
Proof.
  intros Hn Hok. destruct (run_processes batches (new num_cpus start) 0 0 (new_sys_ok _ _ Hn)) as (s & rs & -> & _ & H1 & H2);
    [done|done|by exists s, rs].
Qed.

(** The channels never take an event: their receivers are gone. *)
Lemma async_dispatches_nothing num_cpus start data ord :
  exists s, dispatch_events_async (new num_cpus start) data ord = Done (s, 0%nat).
Proof.
  unfold dispatch_events_async. destruct (AsyncDispatcher.dispatch_closed _ data ord (AsyncDispatcher.new_closed num_cpus)) as (ad & E' & _).
  eexists. simpl. by rewrite E'.
Qed.

End hybrid.

(** ** Examples *)

(** A [u64] payload beside the connection id. *)
#[local] Instance example_size : EventSize Z := {| event_size := 16; event_size_pos := eq_refl |}.

(** A channel as its queue and whether its receiver is gone. *)
Definition SimpleChan (A : Type) : Type := nat * list A * bool.

#[global] Instance simple_chan : EventChannel SimpleChan.
Proof.
  refine {| chan_new A n := (n, [], false); chan_drop_rx A c := (c.1, true);
            chan_try_send A c x :=
              if c.2 then (c, false)
              else if (length c.1.2 <? c.1.1)%nat then ((c.1.1, c.1.2 ++ [x], c.2), true) else (c, false);
            chan_closed A c := c.2 |}; try done.
  intros A c x Hc. by rewrite Hc.
Defined.

Definition example_entry (cid : Z) : TimingWheel.TimerEntry (TimerEvent.TimerEvent Z unit) :=
  {| TimingWheel.id := cid; TimingWheel.expiry_time := 3; TimingWheel.event := TimerEvent.from_factory 1 cid 10 tt |}.

Definition example_system (num_cpus : nat) : HybridParallelTimerSystem (Q := RingBuffer.BoundedList) (P := list) (Chan := SimpleChan) :=
  new 0 num_cpus 5.

Definition example_call : Call := {| now := 9; in_runtime := true; elapsed := 1000; order := [] |}.

Lemma batches_processed_witness :
  let batches := [(example_call, map example_entry [1; 2; 3]); (example_call, map example_entry (seqZ 0 70))] in
  exists s rs, run (example_system 2) batches = Done (s, rs) /\
    Forall2 (fun x r => r.(processed_count) = length x.2 /\ (r.(detailed_stats).(async_dispatches) <= length x.2)%nat) batches rs /\
    stats_ok s.(stats) (len batches) (len (concat (map snd batches))).
Proof.
  intros batches. apply (batches_processed 0 2 5 batches); [lia|]. apply Forall_forall. intros x Hx.
  unfold batches in Hx. apply elem_of_cons in Hx as [->|Hx%list_elem_of_singleton]; [|subst x];
    (split; [|vm_compute; reflexivity]); apply Forall_forall; intros entry He.
  - apply list_elem_of_fmap in He as (cid & -> & Hc). change (u32_ok cid). unfold u32_ok. simpl in Hc. set_unfold. lia.
  - apply list_elem_of_fmap in He as (cid & -> & Hc). change (u32_ok cid). apply elem_of_seqZ in Hc. unfold u32_ok. lia.
Defined.

(** On one core the slot fills up: half of what each batch adds stays in it,
    and once it is full no event is dispatched, by either dispatcher. *)
Lemma one_core_stops_dispatching :
  match run (example_system 1) (replicate 14 (example_call, map example_entry (seqZ 0 1000))) with
  | Done (_, rs) => map (fun r => r.(detailed_stats).(async_dispatches)) (drop 12 rs)
  | Panic => []
  end = [0; 0]%nat.
Proof. vm_compute. reflexivity. Qed.

(** The number of chunks that is reported is not the number of chunks. *)
Lemma chunks_misreported :
  let entries := map example_entry (seqZ 0 1024) in
  length (chunks 1024 (executor_new 16).(chunk_size) entries) = 1%nat /\
  match process_timer_batch (example_system 16) example_call entries with
  | Done (_, r) => r.(detailed_stats).(rayon_chunks_processed)
  | Panic => 0%nat
  end = 2%nat.
Proof. vm_compute. by split. Qed.

End HybridTimer.
