(* ===== verification/FrameTypes.v ===== *)
(** * Well-formed frames

    The Rust types of an endpoint's numbers as an invariant of its runs, and
    its consequence: every frame an endpoint sends, retransmissions included,
    is one that its receiver decodes as it was sent.  The one exception is an
    ACK with more SACK ranges than the length field of its header can count. *)

From S2P Require Import Prelude BTreeMap Packet Config Frame SendBuffer RecvBuffer Rtt Congestion.
From S2P Require Import SackManager SimpleRetx Retransmission Packetizer Reliability Provenance Lifecycle UnifiedScheduler TimerTask.
From S2P Require Import TimingManager Endpoint Sender Handlers EventLoop StreamSender.

Module FrameTypes.
Import Endpoint Sender Operations FrameProcessingContext Processors EventLoop StreamSender.
Open Scope endpoint_scope.

(** ** Frames *)

(** What a decoded frame satisfies. *)
Definition typed (f : Frame.Frame) : Prop := Frame.header_ok f /\ Frame.challenge_ok f.

(** An ACK whose payload is longer than its length field can say. *)
Definition oversized (f : Frame.Frame) : Prop :=
  match f with Frame.Ack _ payload => 2 ^ 16 <= len payload | _ => False end.

Definition well_formed (f : Frame.Frame) : Prop := typed f /\ (Frame.encode_asserts f = true \/ oversized f).

Lemma ok_well_formed f : Frame.ok f -> well_formed f.
Proof. intros (H1 & H2 & H3). by split; [|left]. Qed.

Lemma well_formed_ok f : well_formed f -> ~ oversized f -> Frame.ok f.
Proof. intros [[H1 H2] [H3|H3]] Hn; [done|by destruct Hn]. Qed.

Lemma push_ok cid seq rns win ts payload :
  u32_ok cid -> u32_ok seq -> u32_ok rns -> u16_ok win -> u32_ok ts -> len payload < 2 ^ 16 ->
  Frame.ok (Frame.new_push cid seq rns win ts payload).
Proof.
  intros Hcid Hseq Hrns Hwin Hts Hp. assert (u16_ok (len payload)) by (split; [apply len_nonneg|done]).
  unfold Frame.ok, Frame.header_ok, Frame.challenge_ok, ShortHeader.ok. cbn -[u16_ok u32_ok len Z.eqb as_u16].
  rewrite as_u16_id, Z.eqb_refl by done. done.
Qed.

Lemma ack_well_formed cid rns win ranges ts :
  u32_ok cid -> u32_ok rns -> u16_ok win -> u32_ok ts -> well_formed (Frame.new_ack cid rns win ranges ts).
Proof.
  intros Hcid Hrns Hwin Hts. unfold well_formed, typed, Frame.header_ok, Frame.challenge_ok, ShortHeader.ok, oversized.
  cbn -[u16_ok u32_ok len Z.eqb as_u16 Z.pow]. split.
  - split_and!; try done. unfold u16_ok, as_u16. apply Z.mod_pos_bound. lia.
  - destruct (Z.lt_ge_cases (len (Sack.encode_sack_ranges ranges)) (2 ^ 16)) as [Hl|Hl]; [left|by right].
    rewrite as_u16_id, Z.eqb_refl; [done|]. split; [apply len_nonneg|done].
Qed.

Lemma fin_ok cid seq ts rns win :
  u32_ok cid -> u32_ok seq -> u32_ok rns -> u16_ok win -> u32_ok ts -> Frame.ok (Frame.new_fin cid seq ts rns win).
Proof. intros. by split_and!. Qed.

Lemma path_ok cid seq ts d : u32_ok cid -> u32_ok seq -> u32_ok ts -> u64_ok d ->
  Frame.ok (Frame.new_path_challenge cid seq ts d) /\ Frame.ok (Frame.new_path_response cid seq ts d).
Proof. intros. by split_and!. Qed.

Lemma syn_ok ver src dst : u8_ok ver -> u32_ok src -> u32_ok dst ->
  Frame.ok (Frame.new_syn ver src dst) /\ Frame.ok (Frame.new_syn_ack ver src dst).
Proof. intros. by split_and!. Qed.

(** ** What is stored of frames in flight *)

Definition context_ok (c : RetransmissionContext.RetransmissionContext) : Prop :=
  u32_ok (RetransmissionContext.current_peer_cid c) /\ u8_ok (RetransmissionContext.protocol_version c) /\
  u32_ok (RetransmissionContext.local_cid c) /\ u32_ok (RetransmissionContext.recv_next_sequence c) /\
  u16_ok (RetransmissionContext.recv_window_size c).

(** A description from which every context rebuilds a correct frame. *)
Definition info_ok (info : RetransmissionFrameInfo.RetransmissionFrameInfo) : Prop :=
  forall c now, context_ok c -> Frame.ok (RetransmissionFrameInfo.reconstruct_frame info c now).

Lemma well_formed_tracks f : well_formed f -> Provenance.tracks_ok info_ok f.
Proof.
  intros [[Hh Hc] Ha] info Hi c now (C1 & C2 & C3 & C4 & C5).
  pose proof (as_u32_ok (as_millis (duration_since now (RetransmissionContext.start_time c)))) as Hts.
  destruct f as [h p|h p|h|h|h|h|h d|h d]; simpl in Hi; try discriminate; injection Hi as <-;
    unfold RetransmissionFrameInfo.reconstruct_frame; cbn [RetransmissionFrameInfo.frame_type
      RetransmissionFrameInfo.sequence_number RetransmissionFrameInfo.payload RetransmissionFrameInfo.additional_data from_option].
  - destruct Ha as [Ha|[]]. destruct Hh as [(H1 & H2 & H3 & H4 & H5 & H6) _]. simpl in Ha. apply Z.eqb_eq in Ha.
    apply push_ok; try done. rewrite <- Ha. apply H2.
  - by apply syn_ok.
  - by apply syn_ok.
  - destruct Hh as [(H1 & H2 & H3 & H4 & H5 & H6) _]. by apply fin_ok.
  - destruct Hh as [(H1 & H2 & H3 & H4 & H5 & H6) _]. by apply path_ok.
  - destruct Hh as [(H1 & H2 & H3 & H4 & H5 & H6) _]. by apply path_ok.
Qed.

Lemma rebuilt_well_formed c fs :
  context_ok c -> Forall (Provenance.rebuilt info_ok c) fs -> Forall well_formed fs.
Proof. intros Hc H. eapply Forall_impl; [exact H|]. intros f (info & t & Hi & ->). by apply ok_well_formed, Hi. Qed.

(** ** The layer *)

Definition config_ok (cfg : Config.Config) : Prop :=
  ReliabilityLayer.payload_limit_ok cfg /\ Config.max_payload_size (Config.connection cfg) < 2 ^ 16 /\
  u8_ok (Config.protocol_version cfg).

Section layer.
Context {T : Type} `{CC : CongestionControl T}.
Implicit Types (rl : ReliabilityLayer.ReliabilityLayer T).

Record layer_ok rl : Prop := {
  lay_buffer : SendBuffer.wf (ReliabilityLayer.send_buffer rl);
  lay_config : config_ok (ReliabilityLayer.config rl);
  lay_counter : u32_ok (ReliabilityLayer.sequence_number_counter rl);
  lay_next : u32_ok (ReceiveBuffer.next_sequence (ReliabilityLayer.recv_buffer rl));
  lay_known : Provenance.known info_ok (ReliabilityLayer.retransmission_manager rl);
}.

Lemma new_layer_ok cfg cc : config_ok cfg -> layer_ok (ReliabilityLayer.new cfg cc).
Proof. intros Hc. constructor; simpl; [apply SendBuffer.new_buffer_wf, Hc|done..]. Qed.

Lemma window_ok rb : u16_ok (ReceiveBuffer.window_size rb).
Proof. unfold ReceiveBuffer.window_size, as_u16. apply Z.mod_pos_bound. lia. Qed.

Lemma write_layer rl data : layer_ok rl -> layer_ok (ReliabilityLayer.write_to_stream rl data).1.
Proof.
  intros [Hb]. unfold ReliabilityLayer.write_to_stream.
  pose proof (SendBuffer.write_to_stream_spec (ReliabilityLayer.send_buffer rl) data Hb) as Hw.
  destruct (SendBuffer.write_to_stream _ _) as [sb n]. constructor; simpl; by try apply Hw.
Qed.

Lemma push_frames_ok context chunks : forall seq,
  u32_ok (Packetizer.peer_cid context) -> u32_ok (Packetizer.ack_info context).1 ->
  u16_ok (Packetizer.ack_info context).2 -> u32_ok (Packetizer.timestamp context) -> u32_ok seq ->
  Forall (fun c => len c < 2 ^ 16) chunks -> Forall well_formed (Packetizer.push_frames context seq chunks).
Proof.
  induction chunks as [|c chunks IH]; intros seq H1 H2 H3 H4 H5 Hc; simpl; [constructor|]. inversion Hc; subst.
  constructor; [by apply ok_well_formed, push_ok|]. apply IH; try done. apply as_u32_ok.
Qed.

(** New PUSH frames from the front of the send buffer. *)
Lemma packetize_ok rl cid window t start sb counter frames :
  layer_ok rl -> u32_ok cid ->
  Packetizer.packetize (ReliabilityLayer.packetizer_context rl cid window t start) (ReliabilityLayer.send_buffer rl)
    (ReliabilityLayer.sequence_number_counter rl) None = (sb, counter, frames) ->
  SendBuffer.wf sb /\ u32_ok counter /\ Forall well_formed frames.
Proof.
  intros Hl Hcid E. destruct Hl as [Hb ((Hmax & _) & Hlim & _) Hc Hn _]. unfold Packetizer.packetize in E.
  set (context := ReliabilityLayer.packetizer_context rl cid window t start) in *.
  destruct (Packetizer.packetize_loop_spec (Z.to_nat (Packetizer.permit context)) context
    (ReliabilityLayer.send_buffer rl) (ReliabilityLayer.sequence_number_counter rl) [] Hb Hmax Hc)
    as (chunks & sb' & Ep & H1 & _ & H3 & _).
  rewrite Ep in E. injection E as <- <- <-. split; [done|]. split; [apply as_u32_ok|].
  apply push_frames_ok; try done; [apply window_ok|apply as_u32_ok|].
  eapply Forall_impl; [exact H3|]. simpl. intros c [_ Hlen].
  change (Packetizer.max_payload_size context) with (Config.max_payload_size (Config.connection (ReliabilityLayer.config rl))) in Hlen. lia.
Qed.

Lemma track_layer rl sb counter frames t :
  layer_ok rl -> SendBuffer.wf sb -> u32_ok counter -> Forall well_formed frames ->
  layer_ok (ReliabilityLayer.with_send rl sb counter
    (ReliabilityLayer.track_all (ReliabilityLayer.retransmission_manager rl) frames t)).
Proof.
  intros [] Hb Hc Hf. constructor; simpl; try done. apply Provenance.track_all_known; [|done].
  eapply Forall_impl; [exact Hf|]. apply well_formed_tracks.
Qed.

Lemma stream_data_ok rl cid window t start rl' frames :
  layer_ok rl -> u32_ok cid -> ReliabilityLayer.packetize_stream_data rl cid window t start None = (rl', frames) ->
  layer_ok rl' /\ Forall well_formed frames.
Proof.
  intros Hl Hcid E. unfold ReliabilityLayer.packetize_stream_data in E.
  destruct (Packetizer.packetize _ _ _ _) as [[sb counter] fs] eqn:Ep. injection E as <- <-.
  apply packetize_ok in Ep as (H1 & H2 & H3); [|done..]. split; [by apply track_layer|done].
Qed.

Lemma zero_rtt_ok rl cid window t start syn_ack max rl' groups :
  layer_ok rl -> u32_ok cid -> well_formed syn_ack ->
  ReliabilityLayer.packetize_zero_rtt_stream_data rl cid window t start syn_ack max = Done (rl', groups) ->
  layer_ok rl' /\ Forall well_formed (concat groups).
Proof.
  intros Hl Hcid Hsyn E. unfold ReliabilityLayer.packetize_zero_rtt_stream_data in E.
  destruct (Packetizer.packetize_zero_rtt _ _ _ _ _) as [[[sb counter] gs]|] eqn:Ep; [|done]. injection E as <- <-.
  apply zero_rtt_keeps in Ep as (frames & Ep & Hgs). apply packetize_ok in Ep as (H1 & H2 & H3); [|done..].
  assert (Hf : Forall well_formed (concat gs)) by (apply Forall_concat; by apply Hgs).
  split; [|done]. rewrite (ReliabilityLayer.fold_track_all (ReliabilityLayer.retransmission_manager rl) gs t). by apply track_layer.
Qed.

Lemma control_layer rl rtt cc rm :
  layer_ok rl -> Provenance.known info_ok rm -> layer_ok (ReliabilityLayer.with_control rl rtt cc rm).
Proof. by intros [] ?; constructor. Qed.

Lemma handle_ack_ok rl rns ranges t context rl' frames :
  layer_ok rl -> context_ok context -> ReliabilityLayer.handle_ack rl rns ranges t context = Done (rl', frames) ->
  layer_ok rl' /\ Forall well_formed frames.
Proof.
  intros Hl Hc E. unfold ReliabilityLayer.handle_ack in E.
  pose proof (Provenance.process_ack_known info_ok _ rns ranges t context (lay_known _ Hl)) as H.
  destruct (RetransmissionManager.process_ack _ _ _ _ _) as [rm res]. destruct H as [H1 H2].
  destruct (ReliabilityLayer.handle_samples _ _ _ _) as [[rtt cc]|]; [|done]. injection E as <- <-.
  split; [by apply control_layer|by eapply rebuilt_well_formed].
Qed.

Lemma check_retransmissions_ok rl t context rl' frames :
  layer_ok rl -> context_ok context -> ReliabilityLayer.check_retransmissions rl t context = (rl', frames) ->
  layer_ok rl' /\ Forall well_formed frames.
Proof.
  intros Hl Hc E. unfold ReliabilityLayer.check_retransmissions in E.
  pose proof (Provenance.check_timeouts_known info_ok _ (RttEstimator.rto (ReliabilityLayer.rto_estimator rl))
    t context (lay_known _ Hl)) as H.
  destruct (RetransmissionManager.check_retransmission_timeouts _ _ _ _) as [rm [ev fs]]. destruct H as [H1 H2].
  injection E as <- <-. split; [|by eapply rebuilt_well_formed].
  unfold ReliabilityLayer.react_to_resend. case_match; by apply control_layer.
Qed.

Lemma next_number_ok rl : layer_ok rl ->
  layer_ok (ReliabilityLayer.next_sequence_number rl).1 /\ u32_ok (ReliabilityLayer.next_sequence_number rl).2.
Proof. intros []. split; [|done]. constructor; simpl; try done. apply as_u32_ok. Qed.

Lemma track_one_ok rl f t : layer_ok rl -> well_formed f -> layer_ok (ReliabilityLayer.track_frame_in_flight rl f t).
Proof. intros [] Hf. constructor; simpl; try done. apply Provenance.add_known; [by apply well_formed_tracks|done]. Qed.

Lemma clear_ok rl : layer_ok rl -> layer_ok (ReliabilityLayer.clear_in_flight_packets rl).
Proof. intros []. constructor; simpl; try done; try apply Provenance.clear_known. Qed.

(** *** The receiving half *)

Lemma receive_packet_next rb seq p :
  ReceiveBuffer.next_sequence (ReceiveBuffer.receive_packet rb seq p).1 = ReceiveBuffer.next_sequence rb.
Proof. unfold ReceiveBuffer.receive_packet. by repeat case_match. Qed.

Lemma reassemble_loop_next fuel : forall rb acc, u32_ok (ReceiveBuffer.next_sequence rb) ->
  u32_ok (ReceiveBuffer.next_sequence (ReceiveBuffer.reassemble_loop fuel rb acc).1.1).
Proof.
  induction fuel as [|fuel IH]; intros rb acc Hn; [done|]. cbn [ReceiveBuffer.reassemble_loop].
  unfold ReceiveBuffer.try_pop_next_contiguous. destruct (BTreeMap.first_key_value _) as [[k p]|]; [|done].
  destruct (k =? _); [|done]. destruct p; [apply IH, as_u32_ok|apply as_u32_ok].
Qed.

Lemma reassemble_next rb : u32_ok (ReceiveBuffer.next_sequence rb) ->
  u32_ok (ReceiveBuffer.next_sequence (ReceiveBuffer.reassemble rb).1).
Proof.
  intros Hn. unfold ReceiveBuffer.reassemble. destruct (ReceiveBuffer.fin_reached rb); [done|].
  pose proof (reassemble_loop_next (size (ReceiveBuffer.received rb)) rb [] Hn) as H.
  by destruct (ReceiveBuffer.reassemble_loop _ _ _) as [[rb' d] fin].
Qed.

Lemma receiving_ok c rl rl' :
  match c with RSend => False | _ => True end -> reliability_step c rl rl' -> layer_ok rl -> layer_ok rl'.
Proof.
  intros Hc H [H1 H2 H3 H4 H5]. destruct H; try done.
  - unfold ReliabilityLayer.receive_push in H.
    pose proof (receive_packet_next (ReliabilityLayer.recv_buffer rl) seq (ReceiveBuffer.Push payload)) as Hr.
    unfold ReceiveBuffer.receive_push in H. destruct (ReceiveBuffer.receive_packet _ _ _) as [rb []];
      injection H as <- _; constructor; simpl in *; congruence || done.
  - unfold ReliabilityLayer.receive_fin in H.
    pose proof (receive_packet_next (ReliabilityLayer.recv_buffer rl) seq ReceiveBuffer.Fin) as Hr.
    unfold ReceiveBuffer.receive_fin in H. destruct (ReceiveBuffer.receive_packet _ _ _) as [rb []];
      injection H as <- _; constructor; simpl in *; congruence || done.
  - unfold ReliabilityLayer.reassemble in H. pose proof (reassemble_next _ H4) as Hr.
    destruct (ReceiveBuffer.reassemble _) as [rb res]. injection H as <- _. by constructor.
Qed.

End layer.

(** ** The endpoint *)

(** Steps that create no frame and no number. *)
Definition quiet (k : kind) : Prop :=
  match k with KReliability RSend | KPeerCid => False | KSend fs => Forall well_formed fs | _ => True end.

#[local] Hint Extern 0 (quiet _) => exact I : runs.

Section endpoint.
Context {T : Type} `{CC : CongestionControl T} {SocketAddr : Type} `{!EqDecision SocketAddr}.
Variable env : Env.
Abbreviation Op := (M T SocketAddr).
Implicit Types (w : World T SocketAddr) (e : Endpoint T SocketAddr).

Record endpoint_ok e : Prop := {
  ep_local : u32_ok (local_cid_of e);
  ep_peer : u32_ok (peer_cid_of e);
  ep_config : config_ok e.(config);
  ep_layer : layer_ok (rel e);
}.

Definition well w : Prop := endpoint_ok w.(ep) /\ Forall well_formed (frames_in w.(log)).

(** [m] keeps the invariant, and what it returns satisfies [Q]. *)
Definition good {A} (Q : A -> Prop) (m : Op A) : Prop :=
  forall w w' r, well w -> m w = Done (w', r) -> well w' /\ match r with inl a => Q a | inr _ => True end.

Definition any {A} : A -> Prop := fun _ => True.

Lemma good_bind {A B} P Q (m : Op A) (f : A -> Op B) : good P m -> (forall a, P a -> good Q (f a)) -> good Q (bind m f).
Proof.
  intros Hm Hf w w' r Hw [(err & E & ->)|(w1 & a & E1 & E2)]%run_bind_inv.
  - by destruct (Hm _ _ _ Hw E).
  - destruct (Hm _ _ _ Hw E1) as [Hw1 Ha]. exact (Hf a Ha _ _ _ Hw1 E2).
Qed.

Lemma good_weaken {A} (P Q : A -> Prop) (m : Op A) : good P m -> (forall a, P a -> Q a) -> good Q m.
Proof. intros Hm H w w' r Hw E. destruct (Hm _ _ _ Hw E) as [Hw' Ha]. split; [done|]. destruct r; auto. Qed.

Lemma good_ret {A} (Q : A -> Prop) (a : A) : Q a -> good Q (ret a).
Proof. intros Ha w w' r Hw [= <- <-]. done. Qed.

Lemma good_fail {A} (Q : A -> Prop) err : good Q (fail (A := A) err).
Proof. intros w w' r Hw [= <- <-]. done. Qed.

Lemma good_panic {A} (Q : A -> Prop) : good Q (panic (A := A)).
Proof. by intros w w' r. Qed.

Lemma good_attempt {A} Q (m : Op A) : good Q m -> good any (attempt m).
Proof.
  intros Hm w w' r Hw. unfold attempt. destruct (m w) as [[w1 r1]|] eqn:E; [|done]. intros [= <- <-].
  by destruct (Hm _ _ _ Hw E).
Qed.

Lemma good_get : good endpoint_ok get.
Proof. intros w w' r Hw [= <- <-]. split; [done|apply Hw]. Qed.

Lemma quiet_step w k w' : quiet k -> prim w k w' -> well w -> well w'.
Proof.
  intros Hk Hp [He Hl].
  assert (Hlog : forall l, frames_in l = [] -> Forall well_formed (frames_in (w.(log) ++ l))).
  { intros l Hn. unfold frames_in in *. by rewrite flat_map_app, Hn, app_nil_r. }
  destruct He as [E1 E2 E3 E4]. destruct Hp; simpl in *; split; try done; try (constructor; done);
    try (apply Hlog; done); simpl.
  - apply Hlog, frames_in_lifecycle.
  - constructor; try done. apply (receiving_ok c (rel w.(ep))); [by destruct c|done..].
  - apply Hlog. by destruct old.
  - apply Hlog. by destruct handle.
  - unfold frames_in. rewrite flat_map_app. apply Forall_app. split; [done|]. simpl. by rewrite app_nil_r.
Qed.

Lemma good_runs {A} (m : Op A) : runs quiet m -> good any m.
Proof.
  intros Hm w w' r Hw E. apply Hm in E. split; [|by destruct r].
  eapply (steps_ind quiet well); [|exact E|done]. intros w1 k w2. apply quiet_step.
Qed.

Lemma good_now : good any (Endpoint.now env).
Proof. apply good_runs. solve_runs. Qed.

Lemma good_reliability_op {A} (Q : A -> Prop) (op : ReliabilityLayer.ReliabilityLayer T -> _ * A) :
  (forall rl, layer_ok rl -> layer_ok (op rl).1 /\ Q (op rl).2) -> good Q (reliability_op op).
Proof.
  intros H w w' r [He Hl]. unfold reliability_op. destruct (H _ (ep_layer _ He)) as [H1 H2].
  destruct (op _) as [rl a]. intros [= <- <-]. split; [|done]. split; [|done]. destruct He. by constructor.
Qed.

Lemma good_reliability_try {A} (Q : A -> Prop) (op : ReliabilityLayer.ReliabilityLayer T -> outcome (_ * A)) :
  (forall rl rl' a, layer_ok rl -> op rl = Done (rl', a) -> layer_ok rl' /\ Q a) -> good Q (reliability_try op).
Proof.
  intros H w w' r [He Hl]. unfold reliability_try. destruct (op _) as [[rl a]|] eqn:E; [|done].
  destruct (H _ _ _ (ep_layer _ He) E) as [H1 H2]. intros [= <- <-]. split; [|done]. split; [|done].
  destruct He. by constructor.
Qed.

(** *** Sending *)

Lemma good_send_batch addr fs : Forall well_formed fs -> good any (send_batch env addr fs).
Proof. intros Hf. apply good_runs. apply runs_send_batch; done. Qed.

Lemma good_send_raw fs : Forall well_formed fs -> good any (send_raw_frames env fs).
Proof.
  intros Hf. unfold send_raw_frames. destruct fs; [by apply good_ret|].
  eapply good_bind; [apply good_get|intros e _]. by apply good_send_batch.
Qed.

Lemma good_send_multiple groups : Forall well_formed (concat groups) ->
  good any (send_multiple_packets (send_raw_frames env) groups).
Proof.
  induction groups as [|g groups IH]; intros Hf; [by apply good_ret|]. cbn [send_multiple_packets].
  apply Forall_app in Hf as [Hg Hf]. apply good_bind with (P := any); [|intros; by apply IH].
  destruct g; [by apply good_ret|by apply good_send_raw].
Qed.

Lemma good_send_frames fs : Forall well_formed fs -> good any (send_frames env fs).
Proof.
  intros Hf w w' r Hw E. rewrite send_frames_split in E. refine (good_send_multiple _ _ w w' r Hw E).
  unfold split_packets. by rewrite (proj1 (split_from_spec _ fs [] (or_introl eq_refl))).
Qed.

Lemma good_send_zero_rtt groups : Forall well_formed (concat groups) -> good any (send_zero_rtt_packets env groups).
Proof. intros Hf. unfold send_zero_rtt_packets. destruct groups; [by apply good_ret|by apply good_send_multiple]. Qed.

Lemma timestamp_ok start t : u32_ok (timestamp_since start t).
Proof. apply as_u32_ok. Qed.

Lemma good_packetize cid window t start : u32_ok cid ->
  good (Forall well_formed) (reliability_op (fun rl => ReliabilityLayer.packetize_stream_data rl cid window t start None)).
Proof.
  intros Hc. apply good_reliability_op. intros rl Hl.
  destruct (ReliabilityLayer.packetize_stream_data _ _ _ _ _ _) as [rl' fs] eqn:E. by eapply stream_data_ok.
Qed.

Lemma good_next_number : good u32_ok (reliability_op ReliabilityLayer.next_sequence_number).
Proof. apply good_reliability_op. intros rl. apply next_number_ok. Qed.

Lemma good_track f t : well_formed f ->
  good any (reliability_op (fun rl => (ReliabilityLayer.track_frame_in_flight rl f t, tt))).
Proof. intros Hf. apply good_reliability_op. intros rl Hl. split; [by apply track_one_ok|done]. Qed.

Lemma fin_frame_ok e seq t : endpoint_ok e -> u32_ok seq ->
  well_formed (create_fin_frame (peer_cid_of e) seq (rel e) (start_time_of e) t).
Proof.
  intros [] Hs. unfold create_fin_frame. simpl. apply ok_well_formed, fin_ok; try done;
    [by apply lay_next|apply window_ok|apply timestamp_ok].
Qed.

Lemma good_packetize_and_send : good any (packetize_and_send env).
Proof.
  unfold packetize_and_send. eapply good_bind; [apply good_now|intros t _].
  eapply good_bind; [apply good_get|intros e He]. eapply good_bind; [apply good_packetize, He|intros fs Hf].
  eapply good_bind; [apply good_get|intros e1 He1]. eapply good_bind with (P := Forall well_formed).
  - case_match; [|by apply good_ret]. eapply good_bind; [apply good_next_number|intros seq Hs].
    eapply good_bind; [apply good_get|intros e2 He2]. eapply good_bind; [apply good_now|intros t2 _].
    pose proof (fin_frame_ok e2 seq t2 He2 Hs) as Hfin.
    eapply good_bind; [by apply good_track|intros _ _]. apply good_ret, Forall_app. split; [done|by constructor].
  - intros fs' Hf'. by apply good_send_frames.
Qed.

Lemma good_send_initial_syn : good any (send_initial_syn env).
Proof.
  unfold send_initial_syn. eapply good_bind; [apply good_now|intros t _].
  eapply good_bind; [apply good_get|intros e He]. eapply good_bind; [apply good_packetize, He|intros fs Hf].
  case_match; [|apply good_panic]. apply good_send_raw. constructor; [|done].
  destruct He as [E1 E2 (C1 & C2 & C3) E4]. by apply ok_well_formed, syn_ok.
Qed.

Lemma syn_ack_ok e : endpoint_ok e ->
  well_formed (create_syn_ack_frame e.(config) (peer_cid_of e) (local_cid_of e)).
Proof. intros [E1 E2 (C1 & C2 & C3) E4]. by apply ok_well_formed, syn_ok. Qed.

Lemma good_send_syn_ack : good any (send_syn_ack env).
Proof.
  unfold send_syn_ack. eapply good_bind; [apply good_get|intros e He]. apply good_send_raw. constructor; [|done].
  by apply syn_ack_ok.
Qed.

Lemma good_send_ack : good any (send_standalone_ack env).
Proof.
  unfold send_standalone_ack. eapply good_bind; [apply good_get|intros e He]. case_match; [by apply good_ret|].
  eapply good_bind; [apply good_now|intros t _]. eapply good_bind; [apply good_runs; solve_runs|intros _ _].
  apply good_send_raw. constructor; [|done]. destruct He. unfold create_ack_frame. simpl.
  apply ack_well_formed; [done|by apply lay_next|apply window_ok|apply timestamp_ok].
Qed.

Lemma retransmission_context_ok e : endpoint_ok e -> context_ok (create_retransmission_context e).
Proof.
  intros [E1 E2 (C1 & C2 & C3) E4]. split_and!; simpl; [done..|by apply lay_next|apply window_ok].
Qed.

(** *** Frames that arrive *)

Ltac quiet := apply good_runs; solve_runs.

Ltac solve_good :=
  repeat match goal with
  | |- good _ (bind _ _) => apply good_bind with (P := any); [|intros]
  | |- good _ (attempt _) => eapply good_attempt
  | |- good _ (packetize_and_send _) => apply good_packetize_and_send
  | |- good _ (send_standalone_ack _) => apply good_send_ack
  | |- good _ (send_syn_ack _) => apply good_send_syn_ack
  | |- good _ (match ?x with _ => _ end) => destruct x
  | |- good _ _ => solve [quiet]
  end.

Lemma good_receive_data seq payload : good any (receive_data_and_maybe_ack env seq payload : Op unit).
Proof. unfold receive_data_and_maybe_ack. solve_good. Qed.

Lemma good_receive_fin seq : good any (receive_fin_and_ack env seq : Op bool).
Proof. unfold receive_fin_and_ack. solve_good. Qed.

Lemma good_push frame src t : good any (PushProcessor.process_frame env frame src t : Op unit).
Proof.
  unfold PushProcessor.process_frame. destruct frame; try apply good_fail.
  eapply good_bind; [apply good_get|intros e _].
  destruct (connection_state _); try (by apply good_ret); try apply good_receive_data.
  unfold PushProcessor.handle_push_in_syn_received. solve_good.
Qed.

Lemma good_ack frame src t : good any (AckProcessor.process_frame env frame src t).
Proof.
  assert (H : forall h p, good any (AckProcessor.process_ack_common env h p t)).
  { intros h p. unfold AckProcessor.process_ack_common, process_ack_and_get_retx_frames.
    apply good_bind with (P := any); [quiet|intros _ _]. apply good_bind with (P := any); [quiet|intros ranges _].
    apply good_bind with (P := Forall well_formed).
    - eapply good_bind; [apply good_get|intros e He]. apply good_reliability_try. intros rl rl' fs Hl E.
      eapply handle_ack_ok; [done| |exact E]. by apply retransmission_context_ok.
    - intros fs Hf. destruct fs; [by apply good_ret|by apply good_send_frames]. }
  unfold_ack. destruct frame; try apply good_fail.
  eapply good_bind; [apply good_get|intros e _]. destruct (connection_state _); try (by apply good_ret); apply H.
Qed.

Lemma good_set_peer_cid n : u32_ok n -> good any (set_peer_cid n : Op unit).
Proof.
  intros Hn w w' r [He Hl] [= <- <-]. split; [|done]. split; [|done]. destruct He. by constructor.
Qed.

Lemma good_connection frame src t : typed frame -> good any (ConnectionProcessor.process_frame env frame src t).
Proof.
  intros [Hh _]. unfold_connection. eapply good_bind; [apply good_get|intros e _].
  destruct frame as [| | |h|h|h| |]; try apply good_fail.
  - unfold ConnectionProcessor.handle_syn_frame. destruct (connection_state _); try (by apply good_ret). solve_good.
  - unfold ConnectionProcessor.handle_syn_ack_frame, cancel_connection_timeout, transition_state.
    destruct (connection_state _); try (by apply good_ret).
    apply good_bind with (P := any); [quiet|intros _ _]. apply good_bind with (P := any); [quiet|intros _ _].
    apply good_bind with (P := any); [apply good_set_peer_cid, Hh|intros _ _]. solve_good.
  - pose proof good_receive_fin as Hr. unfold ConnectionProcessor.handle_fin_frame,
      ConnectionProcessor.handle_fin_in_syn_received, ConnectionProcessor.handle_fin_in_established,
      ConnectionProcessor.handle_fin_in_validating_path, ConnectionProcessor.handle_fin_in_fin_wait,
      ConnectionProcessor.handle_fin_in_closing, transition_state.
    destruct (connection_state _); try (by apply good_ret);
      (apply good_bind with (P := any); [apply Hr|intros ? _]); solve_good.
Qed.

Lemma good_path frame src t : typed frame -> good any (PathProcessor.process_frame env frame src t : Op unit).
Proof.
  intros [Hh Hc]. unfold_path. eapply good_bind; [apply good_get|intros e _].
  destruct frame as [| | | | | |h d|h d]; try apply good_fail.
  - unfold PathProcessor.handle_path_challenge_frame, send_path_response, send_frame_to.
    destruct Hh as [(H1 & H2 & H3 & H4 & H5 & H6) _].
    destruct (connection_state _); try (by apply good_ret);
      (eapply good_bind; [apply good_get|intros e1 He1]; eapply good_bind; [apply good_now|intros t1 _];
       apply good_send_batch; constructor; [|done]; apply ok_well_formed, path_ok; [apply He1|done|apply timestamp_ok|done]).
  - unfold PathProcessor.handle_path_response_frame, PathProcessor.handle_path_validation_response,
      complete_path_validation, context_new. simpl. destruct (current_state e); simpl; quiet.
Qed.

Hypothesis random_ok : forall n, u64_ok (random env n).

Lemma good_rand : good u64_ok (rand env).
Proof. intros w w' r Hw [= <- <-]. split; [exact Hw|apply random_ok]. Qed.

(** A PATH_CHALLENGE with a new number. *)
Lemma good_challenge e addr d : endpoint_ok e -> u64_ok d ->
  good any (await seq := reliability_op ReliabilityLayer.next_sequence_number in
            await t := Endpoint.now env in
            send_frame_to env (create_path_challenge_frame (peer_cid_of e) seq (start_time_of e) d t) addr).
Proof.
  intros He Hd. eapply good_bind; [apply good_next_number|intros seq Hs]. eapply good_bind; [apply good_now|intros t _].
  apply good_send_batch. constructor; [|done]. apply ok_well_formed, path_ok; [apply He|done|apply timestamp_ok|done].
Qed.

Lemma good_check_path_migration src : good any (check_path_migration env src).
Proof.
  unfold check_path_migration, start_path_validation. eapply good_bind; [apply good_get|intros e He].
  case_match; [|by apply good_ret]. eapply good_bind; [apply good_rand|intros d Hd].
  apply good_bind with (P := any); [quiet|intros _ _]. apply good_bind with (P := any); [quiet|intros _ _].
  by apply good_challenge.
Qed.

Lemma good_dispatch frame src : typed frame -> good any (dispatch_frame env frame src).
Proof.
  intros Hf. unfold dispatch_frame, route_frame. eapply good_bind; [apply good_now|intros t _].
  apply good_bind with (P := any); [quiet|intros _ _].
  apply good_bind with (P := any); [apply good_check_path_migration|intros _ _].
  destruct (from_frame frame) as [[]|]; try (by apply good_ret); try apply good_fail;
    (apply good_bind with (P := any); [destruct frame; simpl; quiet|intros _ _]).
  - apply good_push.
  - apply good_ack.
  - by apply good_connection.
  - by apply good_path.
Qed.

Lemma good_dispatch_more t more : Forall (fun x => typed x.1) more -> good any (dispatch_more env t more).
Proof.
  induction 1 as [|[f a] more Hf _ IH]; simpl; [by apply good_ret|].
  apply good_bind with (P := any); [quiet|intros _ _].
  apply good_bind with (P := any); [by apply good_dispatch|done].
Qed.

(** *** Timeouts and commands *)

Lemma good_check_all_timeouts t : good any (check_all_timeouts env t).
Proof.
  unfold check_all_timeouts. apply good_bind with (P := any); [quiet|intros timer_events _].
  eapply good_bind; [apply good_get|intros e _]. apply good_bind with (P := Forall well_formed).
  - case_match; [|by apply good_ret]. eapply good_bind; [apply good_get|intros e1 He1].
    apply good_reliability_op. intros rl Hl. destruct (ReliabilityLayer.check_retransmissions _ _ _) as [rl' fs] eqn:E.
    eapply check_retransmissions_ok; [done| |exact E]. by apply retransmission_context_ok.
  - intros fs Hf.
    assert (H : forall events, good any (handle_unified_timeout_events_impl env events fs)).
    { intros events. unfold handle_unified_timeout_events_impl. apply good_bind with (P := any); [|intros _ _].
      - clear Hf. induction events as [|[] events IH]; simpl; [by apply good_ret| | |done|].
        + unfold force_close. quiet.
        + apply good_bind with (P := any); [|done]. unfold handle_path_validation_timeout, transition_state.
          eapply good_bind; [apply good_get|intros e1 _]. destruct (current_state e1); simpl; quiet.
        + unfold force_close. quiet.
      - destruct fs; [by apply good_ret|by apply good_send_frames]. }
    apply good_bind with (P := any); [repeat case_match; try apply H; by apply good_ret|intros _ _].
    apply good_bind with (P := any); [quiet|intros; quiet].
Qed.

Lemma good_clear : good any Commands.clear_in_flight_packets.
Proof. apply good_reliability_op. intros rl Hl. split; [by apply clear_ok|done]. Qed.

Lemma good_write data : good any (reliability_op (fun rl => ReliabilityLayer.write_to_stream rl data)).
Proof. apply good_reliability_op. intros rl Hl. split; [by apply write_layer|done]. Qed.

Lemma good_transition s : good any (transition_state s).
Proof. unfold transition_state. quiet. Qed.

Lemma good_shutdown : good any Commands.shutdown.
Proof.
  pose proof good_clear as Hc. pose proof good_transition as Ht.
  unfold Commands.shutdown, Commands.if_ok, Commands.cleanup_if_closed, begin_graceful_shutdown.
  repeat match goal with
  | |- good _ Commands.clear_in_flight_packets => apply Hc
  | |- good _ (transition_state _) => apply Ht
  | _ => progress solve_good
  end.
Qed.

Lemma good_command cmd : good any (Commands.handle_stream_command env cmd).
Proof.
  destruct cmd as [data| |addr notifier]; cbn [Commands.handle_stream_command].
  - eapply good_bind; [apply good_get|intros e _].
    case_match; [|apply good_bind with (P := any); [apply good_write|intros; by apply good_ret]].
    apply good_bind with (P := any); [apply good_transition|intros _ _].
    apply good_bind with (P := any); [apply good_write|intros _ _].
    eapply good_bind; [apply good_get|intros e1 He1]. eapply good_bind; [apply good_now|intros t _].
    apply good_bind with (P := fun groups => Forall well_formed (concat groups)).
    + apply good_reliability_try. intros rl rl' gs Hl E. eapply zero_rtt_ok; [done| |by apply syn_ack_ok|exact E]. apply He1.
    + intros groups Hg. by apply good_send_zero_rtt.
  - apply good_bind with (P := any); [apply good_shutdown|intros _ _]. solve_good.
  - eapply good_bind; [apply good_rand|intros d Hd].
    apply good_bind with (P := any); [eapply good_attempt; unfold start_path_validation; quiet|intros [|] _; [|by apply good_ret]].
    eapply good_bind; [apply good_next_number|intros seq Hs]. eapply good_bind; [apply good_get|intros e He].
    eapply good_bind; [apply good_now|intros t _]. apply good_send_batch. constructor; [|done].
    apply ok_well_formed, path_ok; [apply He|done|apply timestamp_ok|done].
Qed.

Lemma good_commands cmds : good any (dispatch_commands env cmds).
Proof.
  induction cmds as [|cmd cmds IH]; simpl; [by apply good_ret|].
  apply good_bind with (P := any); [apply good_command|done].
Qed.

(** *** The loop *)

Lemma good_follow_up : good any (follow_up env).
Proof.
  pose proof good_clear as Hc. pose proof good_transition as Ht.
  unfold follow_up, deliver_received, fin_transition, packetize_if_open, close_stream_after_fin, should_close.
  repeat match goal with
  | |- good _ Commands.clear_in_flight_packets => apply Hc
  | |- good _ (transition_state _) => apply Ht
  | _ => progress solve_good
  end.
Qed.

(** The frames of an event are decoded ones. *)
Definition event_typed (ev : event SocketAddr) : Prop :=
  match ev with FramesArrived first more => Forall (fun x => typed x.1) (first :: more) | _ => True end.

Lemma good_iteration ev : event_typed ev -> good any (iteration env ev).
Proof.
  intros Hev. unfold iteration. apply good_bind with (P := any).
  { unfold calculate_next_wakeup_time. solve_good. }
  intros _ _. apply good_bind with (P := any); [|intros [] _; [apply good_follow_up|by apply good_ret]].
  destruct ev as [first more|first more|fired|]; cbn [handle_event].
  - eapply good_bind; [apply good_now|intros t _].
    apply good_bind with (P := any); [by apply good_dispatch_more|intros; by apply good_ret].
  - apply good_bind with (P := any); [apply good_commands|intros; by apply good_ret].
  - apply good_bind with (P := any); [quiet|intros _ _]. eapply good_bind; [apply good_now|intros t _].
    apply good_bind with (P := any); [apply good_check_all_timeouts|intros; by apply good_ret].
  - by apply good_ret.
Qed.

Lemma good_run events : Forall event_typed events -> good any (run env events).
Proof.
  intros Hev. unfold run. eapply good_bind; [apply good_get|intros e _]. apply good_bind with (P := any).
  - eapply good_attempt with (Q := any). apply good_bind with (P := any).
    + case_match; [apply good_send_initial_syn|by apply good_ret].
    + intros _ _. induction Hev as [|ev events He _ IH]; simpl; [by apply good_ret|].
      apply good_bind with (P := any); [by apply good_iteration|intros [] _; [by apply good_ret|done]].
  - intros r _. solve_good.
Qed.

(** *** A fresh endpoint *)

Inductive fresh : World T SocketAddr -> Prop :=
| fresh_client cfg addr local cc data w r :
    config_ok cfg -> u32_ok local -> new_client env cfg addr local cc data = Done (w, r) -> fresh w
| fresh_server cfg addr local peer cc w r :
    config_ok cfg -> u32_ok local -> u32_ok peer -> new_server env cfg addr local peer cc = Done (w, r) -> fresh w.

Lemma new_endpoint_well cfg addr local peer rl s : config_ok cfg -> u32_ok local -> u32_ok peer -> layer_ok rl ->
  well (new_endpoint env cfg addr local peer rl s).
Proof.
  intros Hc Hl Hp Hr. unfold new_endpoint. destruct (Lifecycle.initialize _ _ _ _) as [[r manager] effs].
  split; [by constructor|]. simpl. by rewrite frames_in_lifecycle.
Qed.

Lemma fresh_well w : fresh w -> well w.
Proof.
  destruct 1 as [cfg addr local cc data w r Hc Hl E|cfg addr local peer cc w r Hc Hl Hp E].
  - unfold new_client in E. match type of E with ?m ?w0 = _ => assert (Hk : good any m) by
      (unfold register_idle_timeout; solve_good); assert (Hw : well w0) end.
    { apply new_endpoint_well; try done. destruct data; [apply write_layer|]; by apply new_layer_ok. }
    by destruct (Hk _ _ _ Hw E).
  - unfold new_server in E. assert (Hk : good any (register_idle_timeout env)) by (unfold register_idle_timeout; solve_good).
    destruct (Hk _ _ _ (new_endpoint_well cfg addr local peer _ Lifecycle.SynReceived Hc Hl Hp (new_layer_ok cfg cc Hc)) E). done.
Qed.

Lemma run_well_formed w events w' r :
  fresh w -> Forall event_typed events -> run env events w = Done (w', r) -> Forall well_formed (frames_in w'.(log)).
Proof. intros Hw Hev E. by destruct (good_run events Hev w w' r (fresh_well w Hw) E) as [[_ Hl] _]. Qed.

(** C10: an endpoint sends only well-formed frames.  On a configuration whose
    payloads fit the 16-bit length field, whatever decoded frames, commands and
    timeouts it gets, every header it sends has values of its Rust types and
    the command of its frame, and satisfies the assertions of [encode],
    retransmissions included, except an ACK of 8192 or more SACK ranges; and
    each of its datagrams without such an ACK is decoded as exactly the frames
    that were put into it. *)
Theorem sent_frames_well_formed w events w' r :
  fresh w -> Forall event_typed events -> run env events w = Done (w', r) ->
  forall addr fs, SendFrames addr fs ∈ w'.(log) ->
    Forall well_formed fs /\
    (Forall (fun f => ~ oversized f) fs -> Frame.deserialize_frames (Frame.serialize_frames fs) = Done fs).
Proof.
  intros Hw Hev E addr fs Hin. pose proof (run_well_formed w events w' r Hw Hev E) as Hl.
  assert (Hf : Forall well_formed fs).
  { apply Forall_forall. intros f Hf. eapply Forall_forall in Hl; [exact Hl|]. apply list_elem_of_In, in_flat_map.
    exists (SendFrames addr fs). split; by apply list_elem_of_In. }
  split; [done|]. intros Hno. unfold Frame.deserialize_frames.
  rewrite <- (app_nil_r (Frame.serialize_frames fs)) at 2.
  rewrite (Frame.deserialize_loop_encode fs _ [] []); [done| |by exists []|by rewrite app_nil_r].
  apply Forall_forall. intros f Hf2. rewrite Forall_forall in Hf, Hno. apply well_formed_ok; auto.
Qed.

End endpoint.

(** ** Examples *)

Definition example_env : Env := {|
  clock := fun n => from_millis (Z.of_nat n); random := fun _ => 42;
  channel_ok := fun _ => true; stream_ok := fun _ => true;
  register_reply := fun n => Some (Z.of_nat n); cancel_reply := fun _ _ => Some true |}.

Definition example_server : World Vegas.Vegas Z :=
  new_endpoint example_env Config.default 100 7 9
    (ReliabilityLayer.new Config.default (Vegas.new Config.default)) Lifecycle.SynReceived.

Definition example_events : list (event Z) :=
  [CommandsArrived (Commands.SendData [Byte.x61; Byte.x62]) [];
   FramesArrived (Frame.new_push 7 0 0 64 5 [Byte.x63], 100) [(Frame.new_path_challenge 7 1 6 77, 101)]].

Lemma sent_frames_well_formed_witness :
  exists w w' r, new_server example_env Config.default 100 7 9 (Vegas.new Config.default) = Done (w, inl tt) /\
    run example_env example_events w = Done (w', r) /\
    forall addr fs, SendFrames addr fs ∈ w'.(log) ->
      Forall well_formed fs /\
      (Forall (fun f => ~ oversized f) fs -> Frame.deserialize_frames (Frame.serialize_frames fs) = Done fs).
Proof.
  destruct (new_server example_env Config.default 100 7 9 (Vegas.new Config.default)) as [[w [[]|]]|] eqn:Ew;
    [|vm_compute in Ew; discriminate..].
  destruct (run example_env example_events w) as [[w' r]|] eqn:E.
  - exists w, w', r. split; [done|]. split; [done|].
    apply (sent_frames_well_formed example_env (fun _ => ltac:(by_decide)) w example_events w' r); [| |exact E].
    + refine (fresh_server example_env Config.default 100 7 9 _ w _ _ _ _ Ew); by_decide.
    + apply Forall_cons. split; [exact I|]. apply Forall_cons. split; [|apply Forall_nil_2].
      apply Forall_cons. split; [by_decide|]. apply Forall_cons. split; [by_decide|apply Forall_nil_2].
  - exfalso. revert E. injection Ew as <-. vm_compute. discriminate.
Defined.

(** The receive buffer has no limit, and an ACK lists all its ranges: after
    8192 PUSH frames with gaps between them the length field wraps around. *)
Lemma ack_too_long :
  let rb := fold_left (fun rb seq => (ReceiveBuffer.receive_push rb seq []).1)
              (map (fun i => 2 * Z.of_nat i + 1) (seq 0 8192)) ReceiveBuffer.default in
  match Frame.new_ack 1 0 0 (ReceiveBuffer.get_sack_ranges rb) 0 with
  | Frame.Ack header payload => (ShortHeader.payload_length header =? 0) && (len payload =? 2 ^ 16)
  | _ => false
  end = true.
Proof. vm_compute. reflexivity. Qed.

End FrameTypes.
