(* ===== verification/System.v ===== *)
(** * The byte stream through a socket

    The composition of the parts: an endpoint whose frames are packed into
    datagrams, a network, and a socket that decodes what it gets, routes the
    frames and starts the endpoint that puts the stream together again. *)

From S2P Require Import Prelude Packet Config Frame RecvBuffer Congestion Lifecycle TimingManager Endpoint Sender Handlers EventLoop.
From S2P Require Import Provenance StreamSender StreamReceiver UserStream EndToEnd Transport Udp Routing Socket SocketFacts FrameTypes.

Module System.
Import Endpoint EventLoop StreamSender StreamReceiver.

(** The most a UDP datagram can carry over IPv4. *)
Definition UDP_PAYLOAD_MAX : Z := 65507.

Section system.
Context {SocketAddr : Type} `{HA : HashedAddr SocketAddr} {Tr UdpSocket : Type}.
Implicit Types (w : Socket.World SocketAddr Tr) (addr : SocketAddr).

(** ** From the sender to the network *)

(** What the send actor passes to the system for an endpoint's effect. *)
Definition packets_of (udp : @Udp.Transport UdpSocket SocketAddr) (e : Endpoint.effect SocketAddr)
    : list (@Udp.packet UdpSocket SocketAddr) :=
  match e with
  | SendFrames addr fs => (Udp.handle_send udp {| Udp.batch_addr := addr; Udp.batch_frames := fs |} true).2
  | _ => []
  end.

Definition on_wire udp (effects : list (Endpoint.effect SocketAddr)) : list (@Udp.packet UdpSocket SocketAddr) :=
  flat_map (packets_of udp) effects.

Lemma on_wire_inv udp effects socket addr payload :
  (socket, (addr, payload)) ∈ on_wire udp effects ->
  exists fs, SendFrames addr fs ∈ effects /\ payload = Frame.serialize_frames fs.
Proof.
  intros Hin. apply list_elem_of_In, in_flat_map in Hin as (e & He & Hp). apply list_elem_of_In in He.
  destruct e; simpl in Hp; try done. unfold Udp.handle_send in Hp. simpl in Hp.
  match type of Hp with context [match ?l with _ => _ end] => destruct l eqn:E end; [done|].
  destruct Hp as [Hp|[]]. injection Hp as _ <- <-. by eexists.
Qed.

Lemma short_not_oversized fs :
  len (Frame.serialize_frames fs) <= UDP_PAYLOAD_MAX -> Forall (fun f => ~ FrameTypes.oversized f) fs.
Proof.
  intros Hl. apply Forall_forall. intros f Hf Hbig. unfold Frame.serialize_frames in Hl.
  apply list_elem_of_split in Hf as (l1 & l2 & ->). rewrite flat_map_app, len_app in Hl. cbn [flat_map] in Hl.
  rewrite len_app in Hl. pose proof (len_nonneg (flat_map Frame.encode l1)).
  pose proof (len_nonneg (flat_map Frame.encode l2)). destruct f; simpl in Hbig; try done.
  cbn [Frame.encode] in Hl. rewrite len_app in Hl. pose proof (len_nonneg (ShortHeader.encode header)).
  unfold UDP_PAYLOAD_MAX in Hl. lia.
Qed.

(** A datagram of well-formed frames, cut by the receiver's buffer or not,
    holds some of its frames and no others. *)
Lemma frames_of_datagram fs f :
  Forall FrameTypes.well_formed fs -> len (Frame.serialize_frames fs) <= UDP_PAYLOAD_MAX ->
  f ∈ Socket.frames_of (Frame.serialize_frames fs) -> f ∈ fs.
Proof.
  intros Hf Hl%short_not_oversized. assert (Hok : Forall Frame.ok fs).
  { rewrite Forall_forall in Hf, Hl. apply Forall_forall. intros g Hg. apply FrameTypes.well_formed_ok; auto. }
  unfold Socket.frames_of. destruct (Udp.receive (Frame.serialize_frames fs)) as [frames|] eqn:E; [|by intros ?%not_elem_of_nil].
  unfold Udp.receive, Frame.deserialize_frames in E.
  destruct (Frame.deserialize_loop_front _ _ fs (drop Udp.BUFFER_SIZE (Frame.serialize_frames fs)) [] frames Hok
    (take_drop _ _) E) as [k ->]. intros Hin. by apply elem_of_take in Hin as (i & Hi & _); eapply list_elem_of_lookup_2.
Qed.

(** ** From the network to the receiver *)

(** Every endpoint that a socket starts expects any stream. *)
Lemma spawned_expectant env fuel transport cfg inputs w channel cid v :
  Socket.run env fuel (Socket.new_socket transport cfg) inputs = Socket.Returned w tt ->
  (channel, (cid, v)) ∈ Socket.spawned w -> EndToEnd.expectant v.
Proof.
  intros Hrun Hin. apply (SocketFacts.run_socket_ok env fuel) in Hrun; [|apply SocketFacts.new_socket_ok].
  pose proof (SocketFacts.so_started _ Hrun) as Hs. rewrite Forall_forall in Hs.
  destruct (Hs _ Hin) as (addr & env' & cfg' & [[peer E]|[data E]]).
  - by eapply EndToEnd.new_server_expectant.
  - by eapply EndToEnd.new_client_expectant.
Qed.

(** What an endpoint got came to the socket in a datagram. *)
Lemma delivered_arrived env fuel transport cfg inputs w channel f addr :
  Socket.run env fuel (Socket.new_socket transport cfg) inputs = Socket.Returned w tt ->
  (channel, (f, addr)) ∈ Socket.delivered w ->
  exists payload, Socket.Datagram payload addr ∈ inputs /\ f ∈ Socket.frames_of payload.
Proof.
  intros Hrun Hd. apply Socket.held_run in Hrun. unfold Socket.held at 2 in Hrun. rewrite app_nil_r in Hrun.
  assert (Hin : (f, addr) ∈ flat_map Socket.arrived inputs).
  { eapply elem_of_submseteq; [|exact Hrun]. apply elem_of_app. left. apply list_elem_of_fmap. by eexists (_, (f, addr)). }
  apply list_elem_of_In, in_flat_map in Hin as (i & Hi & Hin). apply list_elem_of_In in Hi, Hin.
  destruct i as [|payload addr'|]; simpl in Hin; try by apply not_elem_of_nil in Hin.
  apply list_elem_of_fmap in Hin as (g & [= <- <-] & Hg). by exists payload.
Qed.

(** The frames of an endpoint's events, with the addresses they came from. *)
Definition arrivals (ev : event SocketAddr) : list (Frame.Frame * SocketAddr) :=
  match ev with FramesArrived first more => first :: more | _ => [] end.

Lemma arrived_arrivals (events : list (event SocketAddr)) f :
  f ∈ flat_map EndToEnd.arrived events -> exists addr, (f, addr) ∈ flat_map arrivals events.
Proof.
  intros (ev & Hev & Hf)%list_elem_of_In%in_flat_map. destruct ev as [first more| | |]; try done. unfold EndToEnd.arrived in Hf.
  apply in_map_iff in Hf as ([g addr] & <- & Hg). exists addr. apply list_elem_of_In, in_flat_map. by eexists.
Qed.

(** C1: the byte stream through a socket.  A fresh endpoint runs on any
    events and its frames leave as datagrams; a network loses, repeats, reorders
    and delays datagrams; a socket gets these and any others, and any commands;
    an endpoint that it started runs on frames that the socket put into its
    channel, and on any other events.  If the data of these frames came in
    datagrams of the sender, then the bytes the endpoint's user reads are a
    prefix of the bytes accepted from the sender's user. *)
Theorem stream_through_socket senv offered (s s' : Socket.Connection SocketAddr) events r udp
    env fuel transport cfg inputs w channel cid venv v v' events' r' :
  EndToEnd.fresh senv offered s -> FrameTypes.fresh senv s -> (forall n, u64_ok (random senv n)) ->
  Forall FrameTypes.event_typed events -> run senv events s = Done (s', r) ->
  Socket.run env fuel (Socket.new_socket transport cfg) inputs = Socket.Returned w tt ->
  (channel, (cid, v)) ∈ Socket.spawned w -> run venv events' v = Done (v', r') ->
  (forall x, x ∈ flat_map arrivals events' -> (channel, x) ∈ Socket.delivered w) ->
  (forall payload addr f, Socket.Datagram payload addr ∈ inputs -> f ∈ Socket.frames_of payload ->
    (channel, (f, addr)) ∈ Socket.delivered w -> carries_data f = true ->
    len payload <= UDP_PAYLOAD_MAX /\ exists socket to, (socket, (to, payload)) ∈ on_wire udp s'.(log)) ->
  let written := offered ++ flat_map event_offers events in
  len (concat written) + Z.of_nat s'.(reads) < u32_MAX ->
  exists accepted, takes written accepted /\
    forall reads, UserStream.delivered reads `prefix_of` to_user v'.(log) ->
      (UserStream.run reads).(UserStream.bytes_read) `prefix_of` accepted.
Proof.
  intros Hs Hty Hrand Hev Es Ew Hv Ev Hch Hnet written Hlen.
  destruct (EndToEnd.stream_received senv offered s events s' r Hs Es Hlen) as (accepted & Ht & Hall).
  exists accepted. split; [done|]. apply (Hall venv v events' v' r'); [by eapply spawned_expectant|done|].
  intros f Hf Hc. apply arrived_arrivals in Hf as [addr Hf]. apply Hch in Hf.
  destruct (delivered_arrived _ _ _ _ _ _ _ _ _ Ew Hf) as (payload & Hp & Hin).
  destruct (Hnet payload addr f Hp Hin Hf Hc) as (Hl & socket & to & Hw).
  apply on_wire_inv in Hw as (fs & Hfs & ->).
  pose proof (FrameTypes.run_well_formed senv Hrand s events s' r Hty Hev Es) as Hwf.
  assert (Hsub : forall g, g ∈ fs -> g ∈ frames_in s'.(log)).
  { intros g Hg. apply list_elem_of_In, in_flat_map. exists (SendFrames to fs). split; by apply list_elem_of_In. }
  apply Hsub, frames_of_datagram; [|done|done]. rewrite Forall_forall in *. auto.
Qed.

End system.

(** ** An example

    A client writes before and after the handshake.  Its SYN arrives first, its
    other datagrams backwards, and all of them once more. *)

Definition example_events : list (event Z) :=
  [FramesArrived (Frame.new_syn_ack 1 5 7, 100) [];
   CommandsArrived (Commands.SendData [Byte.x63]) [Commands.SendData [Byte.x64; Byte.x65]];
   CommandsArrived Commands.Close []].

Abbreviation sender_env := FrameTypes.example_env.

Definition example_client : Socket.Connection Z :=
  match new_client sender_env Config.default 100 7 (Vegas.new Config.default) (Some [Byte.x61; Byte.x62]) with
  | Done (w, _) => w
  | Panic => example_server
  end.

Definition example_sender : Socket.Connection Z := after example_client (run sender_env example_events).

Definition example_udp : @Udp.Transport unit Z := {| Udp.shared_socket := tt; Udp.local_addr := 50 |}.

Definition example_packets : list (@Udp.packet unit Z) :=
  match on_wire example_udp example_sender.(log) with
  | [] => []
  | syn :: packets => syn :: rev packets ++ syn :: packets
  end.

Definition datagrams (packets : list (@Udp.packet unit Z)) : list (Socket.input Z) :=
  map (fun p => Socket.Datagram p.2.2 50) packets.

Definition example_socket : Socket.World Z unit := SocketFacts.world_after (datagrams example_packets).

(** The endpoint with channel 0, and what was put into the channel. *)
Definition example_endpoint : Socket.Connection Z :=
  match Socket.spawned example_socket with (_, (_, v)) :: _ => v | [] => EventLoop.example_server end.

Definition channel_frames : list (Frame.Frame * Z) :=
  map snd (filter (fun d => d.1 = 0%nat) (Socket.delivered example_socket)).

Definition example_reads : list (event Z) :=
  match channel_frames with [] => [] | first :: more => [FramesArrived first more] end.

Definition example_reader : Socket.Connection Z := after example_endpoint (run example_env example_reads).

Lemma example_packets_sent p : p ∈ example_packets -> p ∈ on_wire example_udp example_sender.(log).
Proof.
  unfold example_packets. destruct (on_wire _ _) as [|syn packets]; [done|].
  rewrite elem_of_cons, elem_of_app, (list_elem_of_In (rev packets)), <- in_rev, <- list_elem_of_In, !elem_of_cons. tauto.
Qed.

Lemma datagrams_inv packets payload addr : Socket.Datagram payload addr ∈ datagrams packets ->
  exists to, (tt, (to, payload)) ∈ packets.
Proof. intros ([[] [to q]] & [= -> ->] & Hp)%list_elem_of_fmap. by exists to. Qed.

Lemma channel_frames_delivered x : x ∈ flat_map arrivals example_reads -> (0%nat, x) ∈ Socket.delivered example_socket.
Proof.
  intros Hx. assert (Hin : x ∈ channel_frames).
  { unfold example_reads in Hx. destruct channel_frames; simpl in Hx; [done|]. by rewrite app_nil_r in Hx. }
  apply list_elem_of_fmap in Hin as ([c y] & -> & Hy). apply list_elem_of_filter in Hy as [Hc Hy].
  change (c = 0%nat) in Hc. by subst c.
Qed.

Lemma stream_through_socket_witness :
  concat (to_user example_reader.(log)) = [Byte.x61; Byte.x62; Byte.x63; Byte.x64; Byte.x65] /\
  exists accepted, takes [[Byte.x61; Byte.x62]; [Byte.x63]; [Byte.x64; Byte.x65]; []] accepted /\
    forall reads, UserStream.delivered reads `prefix_of` to_user example_reader.(log) ->
      (UserStream.run reads).(UserStream.bytes_read) `prefix_of` accepted.
Proof.
  split; [vm_compute; reflexivity|].
  assert (Hc : new_client sender_env Config.default 100 7 (Vegas.new Config.default) (Some [Byte.x61; Byte.x62]) =
    Done (example_client, inl tt)) by (vm_compute; reflexivity).
  assert (Hs : EndToEnd.fresh sender_env [[Byte.x61; Byte.x62]] example_client)
    by exact (EndToEnd.fresh_client sender_env Config.default 100 7 _ (Some _) _ ltac:(by_decide) Hc).
  assert (Hty : FrameTypes.fresh sender_env example_client)
    by exact (FrameTypes.fresh_client sender_env Config.default 100 7 _ _ _ _ ltac:(by_decide) ltac:(by_decide) Hc).
  assert (Hrand : forall n, u64_ok (random sender_env n)) by (intros; by_decide).
  assert (Hev : Forall FrameTypes.event_typed example_events).
  { apply Forall_cons; split; [|by repeat constructor]. apply Forall_cons; split; [by_decide|apply Forall_nil_2]. }
  assert (Es : run sender_env example_events example_client = Done (example_sender, inl false))
    by (vm_compute; reflexivity).
  assert (Ew : Socket.run SocketFacts.example_outside 20 (Socket.new_socket tt Config.default) (datagrams example_packets) =
    Socket.Returned example_socket tt) by (vm_compute; reflexivity).
  assert (Hv : (0%nat, (5, example_endpoint)) ∈ Socket.spawned example_socket).
  { apply list_elem_of_lookup_2 with 0%nat. vm_compute. reflexivity. }
  assert (Ev : run example_env example_reads example_endpoint = Done (example_reader, inl false)) by (vm_compute; reflexivity).
  assert (Hshort : Forall (fun p => len p.2.2 <= UDP_PAYLOAD_MAX) example_packets) by by_decide.
  assert (Hlen : len (concat ([[Byte.x61; Byte.x62]] ++ flat_map event_offers example_events)) +
    Z.of_nat example_sender.(reads) < u32_MAX) by (vm_compute; reflexivity).
  pose proof channel_frames_delivered as Hch. pose proof example_packets_sent as Hsent.
  pose proof (datagrams_inv example_packets) as Hdata.
  generalize dependent example_reader. generalize dependent example_endpoint. generalize dependent example_socket.
  generalize dependent (datagrams example_packets). generalize dependent example_packets.
  generalize dependent example_sender. generalize dependent example_client. generalize dependent example_reads.
  intros reads client _ Hs Hty sender Es Hlen packets Hshort Hsent inputs Hdata socket Ew Hch v Hv reader Ev.
  apply (stream_through_socket sender_env [[Byte.x61; Byte.x62]] client sender example_events (inl false) example_udp
    SocketFacts.example_outside 20 tt Config.default inputs socket 0%nat 5 example_env v reader reads (inl false)
    Hs Hty Hrand Hev Es Ew Hv Ev Hch); [|exact Hlen].
  intros payload addr f Hp _ _ _. apply Hdata in Hp as [to Hp]. rewrite Forall_forall in Hshort.
  split; [exact (Hshort _ Hp)|]. exists tt, to. by apply Hsent.
Defined.

End System.
